(* ===== verification/_CoqProject ===== *)
-Q . S2P
Prelude.v
StableLib.v
Concrete.v
Structure.v
StableStorage.v
Multimap.v
Cache.v
RingBuffer.v
Task.v
Scheduler.v
SchedulerProofs.v
SchedulerProps.v
Payments.v
RecoveryList.v
Terminal.v
TerminalProofs.v
TerminalTrace.v
TerminalConcrete.v
TerminalProps.v
Books.v
BooksPool.v
BooksProps.v
BooksLive.v
PaymentCanister.v
Tokens.v
TokensFloat.v
Metrics.v
Auction.v
LogWriter.v
LogState.v
Storage.v
MemMap.v
Kit.v
KitCycles.v
KitMethods.v
KitContext.v
Clients.v
Formatter.v
Logger.v
LogCanister.v
SchedulerLive.v
CanisterMacros.v
CallMacros.v
Canister.v
Principals.v
