(* ===== verification/Prelude.v ===== *)
(** * canister-sdk: a verification development

    The library models the stateful crates of [src/]: the stable-memory data
    structures, the task scheduler, the ICRC-1 payments terminal, token amounts,
    cycle auctions, metrics, the logger, versioned canister state, the memories in
    memory-mapped files, the mock context of the test kit and the macros that
    declare canisters and their calls.  The definitions are translated from the
    Rust sources function by function, keep their names and are executable; this
    file holds the vocabulary they share.

    ** The program and how its parts interact

    A canister runs one message at a time; a message that panics is rolled back.
    Its long-lived data are stable structures ([ic-stable-structures]), and the
    other crates sit on top of them through traits:
    - [ic-task-scheduler] keeps tasks in a sorted map and the next task id in a
      cell, both given by the user, and spawns a future for every due task;
    - [ic-payments] talks to an ICRC-1 ledger and to the balances of the canister
      and saves the transfers it cannot finish in a recovery list, whose default
      implementation is a stable map;
    - [ic-metrics], [ic-log] and [ic-auction] are state machines of their own that
      a canister exports as endpoints; [ic-helpers] gives them token amounts;
    - [ic-storage] keeps the state of a canister across upgrades, as a payload with
      a version number in front;
    - [ic-canister] derives instances, endpoints, upgrades and the IDL of a canister
      from its declaration;
    - outside of a canister the stable structures run on memory-mapped files, and
      the code that talks to the platform, and to other canisters through the
      macros of [ic-canister], on the mock context of [ic-kit].

    ** The files

    The stable structures, [ic-stable-structures/src]:
    - [StableLib] (classes for the containers of [dfinity_stable_structures] and
      the LRU map of [schnellru], which are not part of the repository) and
      [Concrete] (an instance of every class);
    - [Structure]: [structure/mod.rs] and [error.rs], a class of operations and a
      class of laws per trait; clients are proved against these classes;
    - [StableStorage]: [stable_storage/{vec,cell,log,btreemap}.rs];
    - [Multimap]: [stable_storage/multimap.rs], [common/mod.rs];
    - [Cache]: [cache/{lru,btreemap,multimap}.rs];
    - [RingBuffer]: [common/ring_buffer.rs];
    - [MemMap]: [memory_mapped_files/{memory_mapped_file,memory,error}.rs], over a
      file system of paths and their bytes.

    The scheduler, [ic-task-scheduler/src]:
    - [Task]: [retry.rs], [task.rs], [error.rs], [time.rs];
    - [Scheduler]: [scheduler.rs]; Module [Scheduler] has its methods, the type
      [world] adds the futures in flight, and [step] runs one [event]: a call of a
      method, the start, the end or the trap of a future, or an upgrade;
    - [SchedulerProofs] proves the invariant and the effect of [run] for a
      scheduler over finite maps, [SchedulerProps] transports them to every map
      and cell that satisfy the interfaces, by the simulation of [Scheduler];
      [SchedulerLive] shows that the runs make every task progress.

    The payments, [ic-payments/src]:
    - [Payments]: [error.rs], [balances.rs], [lib.rs], [icrc1.rs], [transfer.rs];
    - [RecoveryList]: [recovery_list.rs];
    - [Terminal]: [token_terminal.rs]; an async method holds [&mut self] until it
      ends, so it is a function of the terminal and of a world (ledger, time);
    - [TerminalProofs] (the recursive methods as iterates of one step),
      [TerminalTrace] (the ledger calls made), [TerminalConcrete] (a scripted
      ledger) and [TerminalProps] (the theorems);
    - [Books] (what a ledger promises, and how a transfer is booked), [BooksPool]
      (the transfers that wait for recovery), [BooksProps] (any order of
      messages, and a ledger that keeps the promises) and [BooksLive] (recovery as
      soon as the ledger serves the canister again);
    - [PaymentCanister]: [test-payment-canister/src/canister.rs], a canister around
      the terminal; its messages run from one call of the ledger to the next, and
      [steps] runs a list of events: the start of a message, the answer to the call
      that one waits for, and what else happens on the ledger.

    The log, [ic-log/src]:
    - [LogWriter]: [writer.rs], the in-memory log;
    - [LogState]: the global logger and the state of the logger canister,
      [lib.rs], [settings.rs], [did.rs], [canister/{state,inspect}.rs];
    - [Formatter]: [formatter/{mod,buffer,humantime}.rs];
    - [Logger]: [lib.rs], the builder and [Logger::log] with its thread-local
      formatter, which refines the logger of [LogState];
    - [LogCanister]: [canister.rs], the endpoints and the messages they handle.

    The canister crate, [ic-canister]:
    - [CanisterMacros]: [ic-canister-macros/src/{derive,api,export_candid,lib}.rs] and
      [ic-canister/src/idl.rs], the macros as functions from syntax to a description
      of the emitted code, with the registries they share;
    - [CallMacros]: [ic-canister-macros/src/canister_call.rs], the call macros and the
      calls they make in wasm;
    - [Canister]: [ic-canister/src/lib.rs] and what the code that the macros emit does
      outside of wasm, over the worlds made of the
      context of [Kit], the cells and the stable memory of [Storage];
    - [Principals]: [ic-helpers/src/principal/{ledger,management}.rs] and [types.rs],
      the methods of a principal that make such calls.

    The others: [Tokens] and [TokensFloat] ([ic-helpers/src/tokens.rs]), [Metrics]
    ([ic-metrics/src/lib.rs]), [Auction] ([ic-auction/src]), [Storage]
    ([ic-storage/src/{lib,stable,testing,error}.rs]) and [Kit]
    ([ic-kit/src/{mock,handler,inject,interface,ic}.rs]) with [KitCycles], its
    theorems about cycles, [KitMethods] ([ic-kit/src/interfaces], and the futures
    that a mock context spawns) and [KitContext] ([ic-kit/src/wasm.rs], and programs
    that run on the mock context and in wasm, among them the canister that the tests of
    [mock.rs] use); [Clients] ([ic-canister-client/src]).

    ** What the theorems show

    - Stable structures: each wrapper satisfies the laws of its interface; a
      multimap is a map from pairs ([multimap_refines_map]); a cached map answers
      what the uncached map answers, whatever is evicted
      ([cached_btreemap_transparent], [cached_multimap_transparent]); a ring
      buffer is a bounded queue that drops its oldest element
      ([ring_buffer_refines_queue], [ring_buffer_reads]), its indices round-trip
      through their bytes, and one of its reads overflows on a huge offset; the
      memories in files are independent byte arrays on a 64-bit host
      ([memories_refine_disk]) that a
      backup restores ([backup_restores]).
    - Scheduler: under every interleaving of calls, futures, traps and upgrades a
      task is never in two executions and ids are never reused
      ([scheduler_invariant]); with a callback no task disappears unreported
      ([scheduler_no_task_lost]); [run] launches exactly the due tasks
      ([scheduler_run_effect]); a failing task is executed once more than its
      retries ([scheduler_max_retries], [scheduler_failed_execution],
      [backoff_should_wait_spec]); a due task is launched by the next run and no
      task stays launched past its deadline ([scheduler_progress]).  Two theorems show how a timed-out task that
      still runs comes back, and how the deadline overflows.
    - Payments: every transfer ends ([transfer_ends]) and is executed and credited,
      refunded or saved, unless the balances refuse the credit ([transfer_safe]); an
      attempt of a step repeats the one before it, as a request that the ledger can
      recognise, unless that one was refused for its fee, and their number is bounded
      ([transfer_calls]);
      deposits credit what moved, withdrawals debit once, recovery attempts each
      saved transfer once.  A canister never owes its users more than an ICRC-1
      ledger of constant fee holds for it, in whatever order it handles messages and
      although answers get lost ([books_solvent], [books_exact]), as long as the
      attempts of a first step are answered within five minutes, interim accounts are
      fresh and the minter withdraws nothing; it recovers all transfers that their
      interim accounts can pay once the ledger serves it again ([recovery_settles]).  Three theorems show
      how a withdrawal and a saved transfer can be lost, and how a change of the fee
      makes a withdrawal move twice ([withdrawal_moved_twice]).  In a canister that
      keeps the terminal in a [RefCell] messages that overlap are served one after the
      other, whatever happens on the ledger between their steps
      ([payment_canister_serial]), and the canister is solvent at every moment of every
      interleaving ([payment_canister_solvent]).
    - Tokens, auctions, metrics: arithmetic is exact or fails
      ([tokens_arithmetic_exact]), conversions to floats round to nearest and back
      truncate ([tokens128_f64]); the cycles of an auction are accounted for
      ([auction_cycles_accounted]); snapshots are kept one per interval
      ([metrics_insert_spec]).
    - Log: a page returns the lines at its offset ([take_records_returns_lines]); a
      line is its header, the indented message and the suffix, however it is
      written ([default_format_line], [message_recovered]); logging is re-entrant
      ([log_reentrant]); the logger is the one the stored settings describe, also
      after an upgrade ([log_canister_consistent]); the endpoints enforce the access
      list ([log_access_control], [log_canister_outcomes]), and the inspection of
      messages changes nothing about that ([inspection_redundant]).
    - Versioned state: what one version writes every later one reads, upgraded
      ([write_then_read_upgraded]), older ones are refused
      ([older_versions_refused]), and reading ends unless the version numbers have
      gaps ([read_ends_iff]); a failing write can leave the two out of step
      ([failed_write_mixes_versions]).
    - Test kit: the storage by type is type-safe ([mock_storage_typed]); calls only
      move cycles ([calls_conserve_cycles]) and have the result their handler
      describes ([method_call_result]); a described method is one call of its name
      ([perform_is_one_call]); a spawned future is complete at once
      ([spawn_completes]), and cannot spawn another one ([nested_spawn_panics]).  What a
      program does on the mock context it does in wasm ([tested_program_on_ic]), but for
      what the mock does not represent: a refund read before a call, the time after one,
      a future that is dropped ([dropped_call_diverges]).  The withdrawal of the test
      canister takes from its user what leaves its balance ([withdraw_keeps_accounts]).
    - Clients: the clients of a canister agree on its replies and rejections
      ([clients_agree]).
    - Canisters: the derive macro accepts what it documents and initialises every
      field ([derive_canister_spec]); the IDL lists the API ([generate_idl_collects])
      and the exported functions agree with it ([export_agrees_with_idl]), and so do
      the calls ([calls_match_exports]), but for the methods that return a future of a
      tuple ([async_tuple_mismatch]); the virtual calls do the same in wasm and outside
      of it ([virtual_branches_agree]); instances
      of a principal share its state and no other ([instances_by_principal],
      [init_instances_separate]); nested calls and notifications see the right
      caller and leave the context as it was, but for the futures that methods return,
      which run as the canister that awaits them ([calls_see_their_caller]); virtual calls have the outcome of
      their responder ([virtual_call_outcomes]); the stable state survives an
      upgrade ([state_survives_upgrade]).
    - Principals: a ledger transfer debits exactly its amount, the fee included, by
      one call or by none ([ledger_transfer_debits]); the methods of the management
      canister are one call each for the right canister ([management_controls],
      [management_create]); an argument that cannot be encoded is dropped
      ([install_code_argument]); all cycles offered are accepted once
      ([accept_cycles_takes_all]).

    ** Integers, panics, fuel

    Machine integers are [Z] in range with their wrap-around written out.  Whether
    [+] panics on overflow and how wide [usize] is depends on the build, a
    [Target]; a theorem holds for every target unless it names one.  A panic is the value [Panic], an error
    returned is an [Err].  Fuel is used twice.  [Storage.read] unfolds a chain of
    versions: the depth of the chain is enough, and when it is not the program
    recurses forever ([read_ends_iff]).  In the terminal's mutually
    recursive methods a call spends a retry, or continues with a completed first
    step, or passes to a method nearer to the end of the attempt, so the
    [measure] of [TerminalProofs] decreases, and the fuel
    [transfer_fuel n = 8 * n + 15] is enough for [n] retries ([transfer_ends],
    [recover_tx_ends] and [recover_all_attempts_each] state that the methods end).
    Every other recursion is structural.

    ** Parameters

    Code outside the repository is a class of operations with a class of laws
    where theorems need its documented behaviour: the containers ([StableLib]);
    the ICRC-1 account type, SHA-224 and the bytes of big naturals
    ([PaymentLib]); the ledger, its clock ([World], for the books [LedgerSpec] and
    [LedgerLaws]) and the balances ([Balances], [BalancesLaws]);
    256-bit and big integers ([U256Lib], [BigUintLib]); the ring of log lines
    ([RingLib]) and log filters ([FilterLib], [EnvFilter]); the platform's floating
    point ([F64]); candid ([CandidLib], [Codec]); the types a mock context stores
    and its environment ([StoredTypes], [KitEnv]), the encoding of the arguments of a
    described method ([ArgumentEncoder], [ArgumentDecoder]); the syntax trees and
    parsers of [syn] ([Syn], [Parsers]),
    candid's types ([CandidTypes]), and the states, closures and their bodies of the
    canisters under test ([StateTypes], [Closures], [Bodies]); the types and encodings of the ledger and of
    the management canister ([Ledger.Types], [Ledger.Interface],
    [Management.Interface]) and elliptic curves ([Curve]); [ic_cdk] and the platform
    behind it ([Platform], [PlatformLaws]), with the encodings of the test canister
    ([TestCanister.Candid]); what a ledger tells of itself ([LedgerTells]); the transports
    of the clients, their errors and identities ([Transports], [TransportLaws],
    [ForeignErrors], [Identity]).  Every class of laws has an instance, used by the
    witnesses.

    ** Not modelled

    - The candid and bincode encodings of stored values, the text of
      token amounts and timestamps, and printing, but for what the methods of
      [calls_see_their_caller] print.
    - The bodies of user code: a task's [execute], the completion callback, the
      terminal's configuration callback and [disburse_rewards] are parameters or
      recorded as calls.
    - Calls that the closure of a raw handler makes itself; the mapping of files into memory, which is assumed to
      show the bytes of the file.
    - [syn]'s parsers of expressions and types and the printing of the emitted tokens;
      what [ic_cdk] does with the calls made in wasm; overlapping borrows of the
      state of a canister in tests, which panic (those of the payment canister are
      modelled).
    - [IcContext::spawn], which hands the future to [ic_cdk]; messages of a canister that
      are handled while one of them waits, but for the scheduler and the payment
      canister, where the interleavings are events.
    - The set-up of agents and test instances, and the test utilities, which send
      requests and read the environment; [ic-auction/src/inspect.rs], which is no module
      of its crate. *)

From stdpp Require Export base gmap sets list strings numbers sorting.
From Stdlib Require Export ZArith Lia.

#[export] Set Default Goal Selector "!".

Declare Scope sdk_scope.
Delimit Scope sdk_scope with sdk.

(** ** Build targets

    The arithmetic of a Rust program depends on the build profile (does an
    overflowing [+] panic or wrap?) and on the width of [usize].  No
    [Cargo.toml] of the repository sets [overflow-checks], so a canister runs
    the release profile on wasm32 and the unit tests the debug profile on a
    64-bit host; theorems are stated for every [Target]. *)

Class Target := {
  overflow_checks : bool;
  usize_bits : Z;
  usize_bits_ok : usize_bits = 32%Z \/ usize_bits = 64%Z;
}.

Definition wasm_release : Target :=
  {| overflow_checks := false; usize_bits := 32; usize_bits_ok := or_introl eq_refl |}.

Definition x64_debug : Target :=
  {| overflow_checks := true; usize_bits := 64; usize_bits_ok := or_intror eq_refl |}.

(** ** Panics

    A panic in a canister traps: the message is aborted and the whole state is
    rolled back, so a panicking computation carries no state.  Operations that
    may panic return an [outcome]; errors the code returns as values are a
    [result] inside it. *)

Inductive outcome (A : Type) : Type :=
  | Ret (a : A)
  | Panic.
Arguments Ret {A} a.
Arguments Panic {A}.

Inductive result (A E : Type) : Type :=
  | Ok (a : A)
  | Err (e : E).
Arguments Ok {A E} a.
Arguments Err {A E} e.

#[export] Instance outcome_ret : MRet outcome := fun A a => Ret a.
#[export] Instance outcome_bind : MBind outcome := fun A B f m =>
  match m with Ret a => f a | Panic => Panic end.
#[export] Instance outcome_fmap : FMap outcome := fun A B f m =>
  match m with Ret a => Ret (f a) | Panic => Panic end.

#[export] Instance outcome_eq_dec {A} `{EqDecision A} : EqDecision (outcome A).
Proof. solve_decision. Defined.
#[export] Instance result_eq_dec {A E} `{EqDecision A, EqDecision E} :
  EqDecision (result A E).
Proof. solve_decision. Defined.

(** [Option::expect] and [Option::unwrap]. *)
Definition expect {A} (o : option A) : outcome A :=
  match o with Some a => Ret a | None => Panic end.

(** [Result::expect] and [Result::unwrap]. *)
Definition expect_ok {A E} (r : result A E) : outcome A :=
  match r with Ok a => Ret a | Err _ => Panic end.

Definition is_ok {A E} (r : result A E) : bool :=
  match r with Ok _ => true | Err _ => false end.

Definition map_err {A E F} (f : E -> F) (r : result A E) : result A F :=
  match r with Ok a => Ok a | Err e => Err (f e) end.

Definition result_map {A B E} (f : A -> B) (r : result A E) : result B E :=
  match r with Ok a => Ok (f a) | Err e => Err e end.

(** The [?] operator on a [result]: continue with the value, or return the
    error converted by [From]. *)
Definition try_with {A B E F} (conv : E -> F) (r : result A E)
    (k : A -> result B F) : result B F :=
  match r with Ok a => k a | Err e => Err (conv e) end.

Notation "x <-? r ; k" := (try_with id r (fun x => k))
  (at level 100, r at next level, right associativity) : sdk_scope.

Notation "'assert' b ; k" := (if b then k else Panic)
  (at level 100, b at next level, right associativity) : sdk_scope.

(** ** Machine integers

    A [w]-bit unsigned integer is a [Z] in [[0, 2^w)]. *)

Definition in_range (w x : Z) : bool := (0 <=? x)%Z && (x <? 2 ^ w)%Z.

Definition umax (w : Z) : Z := (2 ^ w - 1)%Z.

(** The built-in operators: panic or wrap when the exact result does not fit. *)
Definition arith `{Target} (w x : Z) : outcome Z :=
  if in_range w x then Ret x
  else if overflow_checks then Panic else Ret (x mod 2 ^ w)%Z.

Definition u_add `{Target} (w a b : Z) : outcome Z := arith w (a + b).
Definition u_sub `{Target} (w a b : Z) : outcome Z := arith w (a - b).
Definition u_mul `{Target} (w a b : Z) : outcome Z := arith w (a * b).

(** Division and remainder panic on a zero divisor in every profile. *)
Definition u_div (a b : Z) : outcome Z := if (b =? 0)%Z then Panic else Ret (a / b)%Z.
Definition u_rem (a b : Z) : outcome Z := if (b =? 0)%Z then Panic else Ret (a mod b)%Z.

Definition checked (w x : Z) : option Z := if in_range w x then Some x else None.
Definition checked_add (w a b : Z) : option Z := checked w (a + b).
Definition checked_sub (w a b : Z) : option Z := checked w (a - b).
Definition checked_mul (w a b : Z) : option Z := checked w (a * b).
Definition checked_div (a b : Z) : option Z := if (b =? 0)%Z then None else Some (a / b)%Z.

Definition saturating_add (w a b : Z) : Z := Z.min (a + b) (umax w).
Definition saturating_sub (a b : Z) : Z := Z.max (a - b) 0.
Definition saturating_mul (w a b : Z) : Z := Z.min (a * b) (umax w).
Definition wrapping_add (w a b : Z) : Z := ((a + b) mod 2 ^ w)%Z.

(** Nanoseconds in a second. *)
Definition nanos_per_sec : Z := 1000000000.

(** ** Automation *)

Create HintDb sdk.

(** Bounds of powers of two that [lia] cannot evaluate by itself. *)
Ltac pow2 :=
  repeat match goal with
  | |- context [(2 ^ ?n)%Z] => let v := eval vm_compute in (2 ^ n)%Z in
      lazymatch v with Zpos _ => change (2 ^ n)%Z with v end
  | H : context [(2 ^ ?n)%Z] |- _ => let v := eval vm_compute in (2 ^ n)%Z in
      lazymatch v with Zpos _ => change (2 ^ n)%Z with v in H end
  end.

Ltac plia := pow2; lia.

(** Case analysis on the boolean comparisons of the goal. *)
Ltac case_bools :=
  repeat match goal with
  | |- context [Z.eqb ?a ?b] => destruct (Z.eqb_spec a b)
  | |- context [Z.ltb ?a ?b] => destruct (Z.ltb_spec a b)
  | |- context [Z.leb ?a ?b] => destruct (Z.leb_spec a b)
  | H : context [Z.eqb ?a ?b] |- _ => destruct (Z.eqb_spec a b)
  | H : context [Z.ltb ?a ?b] |- _ => destruct (Z.ltb_spec a b)
  | H : context [Z.leb ?a ?b] |- _ => destruct (Z.leb_spec a b)
  end.

(** Open the existentials and conjunctions of the context. *)
Ltac split_hyps :=
  repeat match goal with
  | H : _ /\ _ |- _ => destruct H
  | H : exists _, _ |- _ => destruct H
  end.

(** Decide a closed goal by evaluating it. *)
Ltac by_compute := vm_compute; intuition congruence.

(** Invert a successful bind. *)
Lemma outcome_bind_Ret {A B} (m : outcome A) (f : A -> outcome B) b :
  (m ≫= f) = Ret b <-> exists a, m = Ret a /\ f a = Ret b.
Proof. destruct m; cbn; naive_solver. Qed.

Lemma outcome_fmap_Ret {A B} (m : outcome A) (f : A -> B) b :
  (f <$> m) = Ret b <-> exists a, m = Ret a /\ f a = b.
Proof. destruct m; cbn; naive_solver. Qed.

Lemma expect_Ret {A} (o : option A) a : expect o = Ret a <-> o = Some a.
Proof. destruct o; cbn; naive_solver. Qed.

Lemma expect_ok_Ret {A E} (r : result A E) a : expect_ok r = Ret a <-> r = Ok a.
Proof. destruct r; cbn; naive_solver. Qed.

(** A computation that returns, from what can be evaluated about its result. *)
Lemma outcome_returns {A} (o : outcome A) (Q : A -> Prop) :
  match o with Ret a => Q a | Panic => False end -> exists a, o = Ret a /\ Q a.
Proof. destruct o as [a|]; [by exists a|done]. Qed.

Ltac inv_outcome :=
  repeat match goal with
  | H : _ ≫= _ = Ret _ |- _ => apply outcome_bind_Ret in H as (? & ? & ?)
  | H : _ <$> _ = Ret _ |- _ => apply outcome_fmap_Ret in H as (? & ? & ?)
  | H : expect _ = Ret _ |- _ => apply expect_Ret in H
  | H : expect_ok _ = Ret _ |- _ => apply expect_ok_Ret in H
  | H : Ret _ = Ret _ |- _ => injection H as H; subst
  | H : Panic = Ret _ |- _ => discriminate H
  end; simplify_eq.

(** ** Integer lemmas *)

Section integers.
Context `{Target}.
Local Open Scope Z_scope.

Lemma in_range_true w x : in_range w x = true <-> 0 <= x < 2 ^ w.
Proof. unfold in_range. rewrite andb_true_iff, Z.leb_le, Z.ltb_lt. tauto. Qed.

Lemma in_range_false w x : in_range w x = false <-> ~ (0 <= x < 2 ^ w).
Proof. rewrite <- in_range_true. destruct (in_range w x); naive_solver. Qed.

Lemma arith_ok w x : 0 <= x < 2 ^ w -> arith w x = Ret x.
Proof. intros Hx. unfold arith. by rewrite (proj2 (in_range_true w x) Hx). Qed.

Lemma arith_overflow w x :
  ~ (0 <= x < 2 ^ w) ->
  arith w x = if overflow_checks then Panic else Ret (x mod 2 ^ w).
Proof. intros Hx. unfold arith. by rewrite (proj2 (in_range_false w x) Hx). Qed.

Lemma arith_range w x y : 0 < 2 ^ w -> arith w x = Ret y -> 0 <= y < 2 ^ w.
Proof.
  unfold arith. destruct (in_range w x) eqn:Hr; [apply in_range_true in Hr|];
    intros; [simplify_eq; lia|].
  destruct overflow_checks; simplify_eq. apply Z.mod_pos_bound; lia.
Qed.

Lemma u_add_ok w a b : 0 <= a + b < 2 ^ w -> u_add w a b = Ret (a + b).
Proof. apply arith_ok. Qed.
Lemma u_sub_ok w a b : 0 <= a - b < 2 ^ w -> u_sub w a b = Ret (a - b).
Proof. apply arith_ok. Qed.
Lemma u_mul_ok w a b : 0 <= a * b < 2 ^ w -> u_mul w a b = Ret (a * b).
Proof. apply arith_ok. Qed.

Lemma u_rem_ok a b : b <> 0 -> u_rem a b = Ret (a mod b).
Proof. unfold u_rem. intros. by case_bools. Qed.
Lemma u_div_ok a b : b <> 0 -> u_div a b = Ret (a / b).
Proof. unfold u_div. intros. by case_bools. Qed.

Lemma checked_Some w x y : checked w x = Some y <-> y = x /\ 0 <= x < 2 ^ w.
Proof.
  unfold checked. destruct (in_range w x) eqn:Hr;
    [apply in_range_true in Hr|apply in_range_false in Hr]; naive_solver.
Qed.

Lemma checked_None w x : checked w x = None <-> ~ (0 <= x < 2 ^ w).
Proof.
  unfold checked. destruct (in_range w x) eqn:Hr;
    [apply in_range_true in Hr|apply in_range_false in Hr]; naive_solver.
Qed.
End integers.

#[export] Hint Resolve arith_ok u_add_ok u_sub_ok u_mul_ok : sdk.

(** ** Lists indexed by integers *)

Section zlists.
Context {A : Type}.
Implicit Types (l : list A) (i : Z).
Local Open Scope Z_scope.

(** [Vec::get] and slice indexing: the element at a non-negative index. *)
Definition zlookup (l : list A) (i : Z) : option A :=
  if i <? 0 then None else l !! Z.to_nat i.

Definition zlength (l : list A) : Z := Z.of_nat (length l).

Lemma zlookup_nonneg l i : 0 <= i -> zlookup l i = l !! Z.to_nat i.
Proof. unfold zlookup. intros. by case_bools; [lia|]. Qed.

Lemma zlookup_nat l (n : nat) : zlookup l (Z.of_nat n) = l !! n.
Proof. rewrite zlookup_nonneg by lia. by rewrite Nat2Z.id. Qed.

Lemma zlookup_nil i : zlookup (@nil A) i = None.
Proof. unfold zlookup. by case_bools. Qed.

Lemma zlookup_is_Some l i : is_Some (zlookup l i) <-> 0 <= i < zlength l.
Proof.
  unfold zlookup, zlength. case_bools.
  - split; [by intros [??]|lia].
  - rewrite lookup_lt_is_Some. lia.
Qed.

Lemma zlookup_None l i : 0 <= i -> zlookup l i = None <-> zlength l <= i.
Proof.
  intros. rewrite eq_None_not_Some, zlookup_is_Some. lia.
Qed.

Lemma zlookup_insert_eq l i x :
  0 <= i < zlength l -> zlookup (<[Z.to_nat i := x]> l) i = Some x.
Proof.
  unfold zlength. intros. rewrite zlookup_nonneg by lia.
  apply list_lookup_insert_eq. lia.
Qed.

Lemma zlookup_insert_ne l i j x :
  0 <= i -> i <> j -> zlookup (<[Z.to_nat i := x]> l) j = zlookup l j.
Proof.
  intros. unfold zlookup. case_bools; [done|].
  apply list_lookup_insert_ne. lia.
Qed.

Lemma zlookup_app_last l x : zlookup (l ++ [x]) (zlength l) = Some x.
Proof.
  unfold zlength. rewrite zlookup_nat. by rewrite list_lookup_middle.
Qed.

Lemma zlookup_app_l l k i : i < zlength l -> zlookup (l ++ k) i = zlookup l i.
Proof.
  unfold zlookup, zlength. intros. case_bools; [done|].
  apply lookup_app_l. lia.
Qed.

Lemma zlength_app l k : zlength (l ++ k) = zlength l + zlength k.
Proof. unfold zlength. rewrite length_app. lia. Qed.

Lemma zlength_singleton (x : A) : zlength [x] = 1.
Proof. done. Qed.

Lemma zlength_nonneg l : 0 <= zlength l.
Proof. unfold zlength. lia. Qed.

Lemma zlength_insert l n x : zlength (<[n := x]> l) = zlength l.
Proof. unfold zlength. by rewrite length_insert. Qed.
End zlists.

#[export] Hint Resolve zlength_nonneg : sdk.

(** ** Little-endian bytes *)

Section le_bytes.
Local Open Scope Z_scope.

Fixpoint to_le_bytes (n : nat) (x : Z) : list Z :=
  match n with
  | O => []
  | S n => x mod 256 :: to_le_bytes n (x / 256)
  end.

Fixpoint from_le_bytes (bs : list Z) : Z :=
  match bs with [] => 0 | b :: bs => b + 256 * from_le_bytes bs end.

Definition is_byte (b : Z) : Prop := 0 <= b < 256.

Lemma to_le_bytes_length n x : length (to_le_bytes n x) = n.
Proof. revert x. induction n; intros; cbn; auto. Qed.

Lemma to_le_bytes_bytes n x : Forall is_byte (to_le_bytes n x).
Proof.
  revert x. induction n as [|n IH]; intros x; cbn; constructor; [|done].
  unfold is_byte. apply Z.mod_pos_bound. lia.
Qed.

Lemma pow_8_succ (n : nat) : 2 ^ (8 * Z.of_nat (S n)) = 256 * 2 ^ (8 * Z.of_nat n).
Proof.
  replace (8 * Z.of_nat (S n)) with (8 + 8 * Z.of_nat n) by lia. by rewrite Z.pow_add_r by lia.
Qed.

Lemma from_to_le_bytes n x :
  0 <= x < 2 ^ (8 * Z.of_nat n) -> from_le_bytes (to_le_bytes n x) = x.
Proof.
  revert x. induction n as [|n IH]; intros x Hx.
  - cbn in *. lia.
  - rewrite pow_8_succ in Hx. cbn [to_le_bytes from_le_bytes]. rewrite IH.
    + pose proof (Z.div_mod x 256). lia.
    + split; [apply Z.div_pos; lia|]. apply Z.div_lt_upper_bound; lia.
Qed.

Lemma to_le_bytes_app k m x :
  to_le_bytes (k + m) x = to_le_bytes k x ++ to_le_bytes m (x / 2 ^ (8 * Z.of_nat k)).
Proof.
  revert x. induction k as [|k IH]; intros x; [by rewrite Z.div_1_r|].
  cbn [to_le_bytes Nat.add app]. rewrite IH, pow_8_succ. do 3 f_equal.
  assert (0 < 2 ^ (8 * Z.of_nat k)) by (apply Z.pow_pos_nonneg; lia).
  by rewrite Z.div_div by lia.
Qed.

Lemma to_le_bytes_mod k x : to_le_bytes k (x mod 2 ^ (8 * Z.of_nat k)) = to_le_bytes k x.
Proof.
  revert x. induction k as [|k IH]; intros x; [done|].
  assert (0 < 2 ^ (8 * Z.of_nat k)) by (apply Z.pow_pos_nonneg; lia).
  cbn [to_le_bytes]. rewrite pow_8_succ, Z.rem_mul_r by lia.
  set (q := (x / 256) mod 2 ^ (8 * Z.of_nat k)).
  replace (x mod 256 + 256 * q) with (x mod 256 + q * 256) by lia. f_equal.
  - rewrite Z.mod_add by lia. apply Z.mod_mod. lia.
  - rewrite <- (IH (x / 256)). f_equal. rewrite Z.div_add, (Z.div_small (x mod 256)) by
      first [lia | apply Z.mod_pos_bound; lia]. by rewrite Z.add_0_l.
Qed.

Lemma from_le_bytes_app bs cs :
  from_le_bytes (bs ++ cs) = from_le_bytes bs + 2 ^ (8 * zlength bs) * from_le_bytes cs.
Proof.
  unfold zlength. induction bs as [|b bs IH]; [by cbn [app from_le_bytes length]; lia|].
  cbn [app from_le_bytes length]. rewrite IH, pow_8_succ. lia.
Qed.

Lemma from_le_bytes_bound bs :
  Forall is_byte bs -> 0 <= from_le_bytes bs < 2 ^ (8 * zlength bs).
Proof.
  unfold zlength, is_byte. induction 1 as [|b bs Hb _ IH]; [by cbn|].
  cbn [from_le_bytes length]. rewrite pow_8_succ. lia.
Qed.

Lemma from_le_bytes_zeros bs : Forall is_byte bs -> from_le_bytes bs = 0 <-> Forall (eq 0) bs.
Proof.
  induction 1 as [|b bs Hb Hbs IH]; [done|]. cbn [from_le_bytes].
  pose proof (from_le_bytes_bound bs Hbs). unfold is_byte in Hb. rewrite Forall_cons, <- IH. lia.
Qed.

Lemma from_le_bytes_replicate n : from_le_bytes (replicate n 0) = 0.
Proof. induction n as [|n IH]; [done|]. cbn [replicate from_le_bytes]. lia. Qed.
End le_bytes.

(** ** Byte slices

    [&v[a..b]] and [v[a..b].copy_from_slice(bs)], which panic unless
    [a <= b <= v.len()] (the lengths of the two slices agree where it is used). *)

Section slices.
Context {A : Type}.
Implicit Types (l bs : list A) (a b : Z).
Local Open Scope Z_scope.

Definition slice (l : list A) (a b : Z) : outcome (list A) :=
  if (0 <=? a) && (a <=? b) && (b <=? zlength l)
  then Ret (take (Z.to_nat (b - a)) (drop (Z.to_nat a) l)) else Panic.

Definition slice_put (l : list A) (a b : Z) (bs : list A) : outcome (list A) :=
  if (0 <=? a) && (a <=? b) && (b <=? zlength l)
  then Ret (take (Z.to_nat a) l ++ bs ++ drop (Z.to_nat b) l) else Panic.

Lemma slice_ok l a b :
  0 <= a <= b -> b <= zlength l ->
  slice l a b = Ret (take (Z.to_nat (b - a)) (drop (Z.to_nat a) l)).
Proof. intros. unfold slice. rewrite !(proj2 (Z.leb_le _ _)) by lia. done. Qed.

Lemma slice_put_ok l a b bs :
  0 <= a <= b -> b <= zlength l ->
  slice_put l a b bs = Ret (take (Z.to_nat a) l ++ bs ++ drop (Z.to_nat b) l).
Proof. intros. unfold slice_put. rewrite !(proj2 (Z.leb_le _ _)) by lia. done. Qed.

Lemma slice_out l a b : ~ (0 <= a <= b /\ b <= zlength l) -> slice l a b = Panic.
Proof. intros. unfold slice. case_bools; cbn; done || lia. Qed.

Lemma slice_put_out l a b bs :
  ~ (0 <= a <= b /\ b <= zlength l) -> slice_put l a b bs = Panic.
Proof. intros. unfold slice_put. case_bools; cbn; done || lia. Qed.

Lemma zlength_drop l (n : nat) : zlength (drop n l) = Z.max 0 (zlength l - Z.of_nat n).
Proof. unfold zlength. rewrite length_drop. lia. Qed.
Lemma zlength_take l (n : nat) : zlength (take n l) = Z.min (Z.of_nat n) (zlength l).
Proof. unfold zlength. rewrite length_take. lia. Qed.
Lemma zlength_replicate n (x : A) : zlength (replicate n x) = Z.of_nat n.
Proof. unfold zlength. by rewrite length_replicate. Qed.

(** Overwriting [a, a + |bs|): the length stays, the slice reads as written, and
    every disjoint slice reads as before. *)
Lemma slice_put_spec l a bs l' :
  slice_put l a (a + zlength bs) bs = Ret l' ->
  zlength l' = zlength l /\
  slice l' a (a + zlength bs) = Ret bs /\
  (forall i, 0 <= i < a \/ a + zlength bs <= i -> zlookup l' i = zlookup l i).
Proof.
  pose proof (zlength_nonneg bs).
  intros Hl. destruct (decide (0 <= a /\ a + zlength bs <= zlength l)) as [Hr|];
    [|by rewrite slice_put_out in Hl by lia].
  rewrite slice_put_ok in Hl by lia. injection Hl as <-.
  assert (zlength (take (Z.to_nat a) l) = a) as Ht by (rewrite zlength_take; lia).
  assert (zlength (drop (Z.to_nat (a + zlength bs)) l) = zlength l - a - zlength bs)
    as Hd by (rewrite zlength_drop; lia).
  assert (zlength (take (Z.to_nat a) l ++ bs ++ drop (Z.to_nat (a + zlength bs)) l) = zlength l)
    as Hlen by (rewrite !zlength_app; lia).
  split_and!; [done| |].
  - rewrite slice_ok by lia. f_equal. unfold zlength in *.
    rewrite drop_app_length' by lia. apply take_app_length'. lia.
  - intros i Hi. rewrite !zlookup_nonneg by lia. unfold zlength in *. destruct Hi as [Hi|Hi].
    + rewrite lookup_app_l by lia. apply lookup_take_lt. lia.
    + rewrite app_assoc, lookup_app_r by (rewrite length_app; lia).
      rewrite lookup_drop, length_app. f_equal. lia.
Qed.

(** A slice is determined by its elements. *)
Lemma slice_lookup l a b bs i :
  slice l a b = Ret bs -> a <= i < b -> zlookup l i = zlookup bs (i - a).
Proof.
  intros Hs Hi. destruct (decide (0 <= a <= b /\ b <= zlength l)) as [Hr|];
    [|by rewrite slice_out in Hs by lia].
  rewrite slice_ok in Hs by lia. injection Hs as <-. rewrite !zlookup_nonneg by lia.
  rewrite lookup_take_lt by lia. rewrite lookup_drop. f_equal. lia.
Qed.
End slices.

(** A property of all elements survives filtering. *)
Lemma Forall_filter_of {A} (P Q : A -> Prop) `{!forall x, Decision (Q x)} (l : list A) :
  Forall P l -> Forall P (filter Q l).
Proof.
  rewrite !Forall_forall. intros Hl x [_ Hx]%list_elem_of_filter. by apply Hl.
Qed.

Lemma StronglySorted_lookup {A} (R : A -> A -> Prop) (l : list A) i j x y :
  StronglySorted R l -> l !! i = Some x -> l !! j = Some y -> (i < j)%nat -> R x y.
Proof.
  intros Hs. revert i j. induction Hs as [|z l _ IH Hz]; intros i j Hi Hj Hij; [done|].
  destruct j as [|j]; [lia|]. cbn in Hj. destruct i as [|i]; cbn in Hi.
  - injection Hi as ->. rewrite Forall_forall in Hz. apply Hz. by eapply list_elem_of_lookup_2.
  - eapply IH; eauto. lia.
Qed.

(** ** Ordered keys

    Rust's [Ord]: a strict total order with a decision procedure. *)

Class OrdKey (K : Type) := {
  key_lt : relation K;
  key_lt_dec :: RelDecision key_lt;
  key_lt_strict :: StrictOrder key_lt;
  key_lt_total : forall a b : K, key_lt a b \/ a = b \/ key_lt b a;
}.

Definition key_le `{OrdKey K} (a b : K) : Prop := ~ key_lt b a.

#[export] Instance key_le_dec `{OrdKey K} : RelDecision (key_le (K := K)).
Proof. intros a b. unfold key_le. apply _. Defined.

#[export] Program Instance Z_ord : OrdKey Z := {| key_lt := Z.lt |}.
Next Obligation. intros. lia. Qed.

(** The lexicographic order of a pair. *)
Section pair_ord.
Context `{OrdKey A, OrdKey B}.

Definition pair_lt (p q : A * B) : Prop :=
  key_lt p.1 q.1 \/ (p.1 = q.1 /\ key_lt p.2 q.2).

Lemma pair_lt_dec `{EqDecision A} : RelDecision pair_lt.
Proof. intros p q. unfold pair_lt. apply _. Defined.

Lemma pair_lt_strict : StrictOrder pair_lt.
Proof.
  split.
  - intros [a b] [Hp|[_ Hp]]; by apply (irreflexivity key_lt) in Hp.
  - intros [a1 b1] [a2 b2] [a3 b3] [Hp|[Hp ?]] [Hq|[Hq ?]]; cbn in *; subst.
    + left. cbn. by etrans.
    + by left.
    + by left.
    + right. split; [done|]. cbn. by etrans.
Qed.

Lemma pair_lt_total p q : pair_lt p q \/ p = q \/ pair_lt q p.
Proof.
  destruct p as [a1 b1], q as [a2 b2]. unfold pair_lt. cbn.
  destruct (key_lt_total a1 a2) as [?|[->|?]]; [auto| |auto].
  destruct (key_lt_total b1 b2) as [?|[->|?]]; auto 6.
Qed.
End pair_ord.

#[export] Instance pair_ord `{EqDecision A, OrdKey A, OrdKey B} : OrdKey (A * B) :=
  {| key_lt := pair_lt; key_lt_dec := pair_lt_dec; key_lt_strict := pair_lt_strict;
     key_lt_total := pair_lt_total |}.

(** The lexicographic order of lists, and the order of the images of an injection. *)
Section list_ord.
Context `{EqDecision A, OrdKey A}.

Fixpoint list_lt (l k : list A) : Prop :=
  match l, k with
  | [], _ :: _ => True
  | x :: l, y :: k => key_lt x y \/ (x = y /\ list_lt l k)
  | _, [] => False
  end.

Lemma list_lt_dec : RelDecision list_lt.
Proof.
  intros l. induction l as [|x l IH]; intros [|y k]; cbn; try apply _.
Defined.

Lemma list_lt_strict : StrictOrder list_lt.
Proof.
  split.
  - intros l. unfold complement. induction l as [|x l IH]; cbn; [done|].
    intros [Hx|[_ Hl]]; [by apply (irreflexivity key_lt) in Hx|by apply IH].
  - intros l1. induction l1 as [|x l1 IH]; intros [|y l2] [|z l3]; cbn; try done.
    intros [Hxy|[-> H12]] [Hyz|[-> H23]]; [left; by etrans|by left..|right].
    split; [done|by eapply IH].
Qed.

Lemma list_lt_total l k : list_lt l k \/ l = k \/ list_lt k l.
Proof.
  revert k. induction l as [|x l IH]; intros [|y k]; cbn; auto.
  destruct (key_lt_total x y) as [?|[->|?]]; [auto| |auto].
  destruct (IH k) as [?|[->|?]]; auto 6.
Qed.
End list_ord.

#[export] Instance list_ord `{EqDecision A, OrdKey A} : OrdKey (list A) :=
  {| key_lt := list_lt; key_lt_dec := list_lt_dec; key_lt_strict := list_lt_strict;
     key_lt_total := list_lt_total |}.

Definition inj_lt `{OrdKey B} {A} (f : A -> B) (a b : A) : Prop := key_lt (f a) (f b).

Lemma inj_lt_strict `{OrdKey B} {A} (f : A -> B) : StrictOrder (inj_lt f).
Proof.
  split.
  - intros a Ha. by apply (irreflexivity key_lt) in Ha.
  - intros a b c. unfold inj_lt. apply transitivity.
Qed.

Lemma inj_lt_total `{OrdKey B} {A} (f : A -> B) `{!Inj (=) (=) f} a b :
  inj_lt f a b \/ a = b \/ inj_lt f b a.
Proof. destruct (key_lt_total (f a) (f b)) as [?|[Hab%(inj f)|?]]; auto. Qed.

Definition inj_ord `{OrdKey B} {A} (f : A -> B) `{!Inj (=) (=) f} : OrdKey A :=
  {| key_lt := inj_lt f; key_lt_dec a b := key_lt_dec (f a) (f b);
     key_lt_strict := inj_lt_strict f; key_lt_total := inj_lt_total f |}.

Section ord_lemmas.
Context `{OrdKey K}.

Lemma key_le_lt_eq (a b : K) : key_le a b <-> key_lt a b \/ a = b.
Proof.
  unfold key_le. split.
  - intros Hn. destruct (key_lt_total a b) as [?|[?|?]]; tauto.
  - intros [Hlt| ->] Hgt; [|by apply (irreflexivity key_lt) in Hgt].
    apply (irreflexivity key_lt a). by etrans.
Qed.

#[export] Instance key_le_total : Total (key_le (K := K)).
Proof.
  intros a b. rewrite !key_le_lt_eq.
  destruct (key_lt_total a b) as [?|[?|?]]; auto.
Qed.

#[export] Instance key_le_trans : Transitive (key_le (K := K)).
Proof.
  intros a b c. rewrite !key_le_lt_eq.
  intros [?| ->] [?| ->]; auto. left. by etrans.
Qed.

#[export] Instance key_le_antisymm : AntiSymm eq (key_le (K := K)).
Proof.
  intros a b. rewrite !key_le_lt_eq. intros [Hab|Hab] [Hba|Hba]; auto.
  destruct (irreflexivity key_lt a). by etrans.
Qed.
End ord_lemmas.

(** ** The ordered entries of a finite map

    What an ordered map's iterator yields. *)

Section entries.
Context `{Countable K, OrdKey K} {V : Type}.
Implicit Types m : gmap K V.

Definition entry_le (p q : K * V) : Prop := key_le p.1 q.1.

#[export] Instance entry_le_dec : RelDecision entry_le.
Proof. intros p q. apply key_le_dec. Defined.

#[export] Instance entry_le_total : Total entry_le.
Proof. intros p q. apply key_le_total. Qed.

#[export] Instance entry_le_trans : Transitive entry_le.
Proof. intros p q r. apply key_le_trans. Qed.

Definition sorted_entries (m : gmap K V) : list (K * V) :=
  merge_sort entry_le (map_to_list m).

Lemma sorted_entries_perm m : sorted_entries m ≡ₚ map_to_list m.
Proof. apply merge_sort_Permutation. Qed.

Lemma elem_of_sorted_entries m k v : (k, v) ∈ sorted_entries m <-> m !! k = Some v.
Proof. rewrite sorted_entries_perm. apply elem_of_map_to_list. Qed.

Lemma sorted_entries_sorted m : StronglySorted entry_le (sorted_entries m).
Proof. apply StronglySorted_merge_sort; apply _. Qed.

Lemma sorted_entries_NoDup_keys m : NoDup (sorted_entries m).*1.
Proof. rewrite sorted_entries_perm. apply NoDup_fst_map_to_list. Qed.

Lemma sorted_entries_length m : length (sorted_entries m) = size m.
Proof. rewrite sorted_entries_perm. apply length_map_to_list. Qed.

Lemma sorted_entries_nil m : sorted_entries m = [] <-> m = ∅.
Proof.
  rewrite <- length_zero_iff_nil, sorted_entries_length. apply map_size_empty_iff.
Qed.
End entries.

(** Rust's [RangeBounds] (the bounds of a range of keys). *)
Inductive key_bound (K : Type) : Type :=
  | Included (k : K)
  | Excluded (k : K)
  | Unbounded.
Arguments Included {K} k.
Arguments Excluded {K} k.
Arguments Unbounded {K}.

Definition above `{OrdKey K} (lo : key_bound K) (k : K) : bool :=
  match lo with
  | Included a => bool_decide (key_le a k)
  | Excluded a => bool_decide (key_lt a k)
  | Unbounded => true
  end.

Definition below `{OrdKey K} (hi : key_bound K) (k : K) : bool :=
  match hi with
  | Included b => bool_decide (key_le k b)
  | Excluded b => bool_decide (key_lt k b)
  | Unbounded => true
  end.
