(* ===== verification/StableLib.v ===== *)
(** * The libraries under the stable structures

    [ic-stable-structures] wraps the containers of the [dfinity_stable_structures]
    crate and the LRU map of the [schnellru] crate, whose code is not in the
    repository.  Each is a class of operations (a parameter of the model) with a
    class of laws, the documented behaviour the wrappers rely on.  The
    [Concrete] modules instantiate every class, so that theorems that assume the
    laws can be evaluated. *)

From S2P Require Import Prelude.
Local Open Scope Z_scope.

(** ** dfinity_stable_structures::vec *)

(** The variants [error.rs] matches on. *)
Inductive vec_InitError :=
  | VecIncompatibleVersion (version : Z)
  | VecIncompatibleElementType
  | VecOutOfMemory
  | VecBadMagic (actual expected : list Z).

Class VecLib (T M : Type) := {
  dvec : Type;
  grow_failed : Type;
  dvec_init : M -> result dvec vec_InitError;
  dvec_new : M -> result dvec grow_failed;
  dvec_into_memory : dvec -> M;
  dvec_iter : dvec -> list T;
  dvec_is_empty : dvec -> bool;
  dvec_len : dvec -> Z;
  dvec_get : dvec -> Z -> option T;
  dvec_set : dvec -> Z -> T -> outcome dvec;
  dvec_push : dvec -> T -> outcome (result unit grow_failed * dvec);
  dvec_pop : dvec -> option T * dvec;
}.

(** [dvec_fits n v]: the memory of [v] can hold [n] items; [dvec_storable x]:
    [x] serializes within the bound of its type; [dmem_fresh m]: nothing was
    written to [m] yet. *)
Class VecLaws (T M : Type) `{VecLib T M} := {
  dvec_fits : nat -> dvec -> Prop;
  dmem_fits : nat -> M -> Prop;
  dvec_storable : T -> Prop;
  dmem_fresh : M -> Prop;
  dvec_init_fresh n m : dmem_fresh m -> dmem_fits n m ->
    exists v, dvec_init m = Ok v /\ dvec_iter v = [] /\ dvec_fits n v;
  dvec_into_memory_fits n v : dvec_fits n v -> dmem_fits n (dvec_into_memory v);
  dvec_new_law n m : dmem_fits n m ->
    exists v, dvec_new m = Ok v /\ dvec_iter v = [] /\ dvec_fits n v;
  dvec_is_empty_law v : dvec_is_empty v = (dvec_len v =? 0);
  dvec_len_law v : dvec_len v = zlength (dvec_iter v);
  dvec_get_law v i : 0 <= i -> dvec_get v i = zlookup (dvec_iter v) i;
  dvec_set_law n v i x : dvec_fits n v -> dvec_storable x ->
    0 <= i < zlength (dvec_iter v) ->
    exists v', dvec_set v i x = Ret v' /\
      dvec_iter v' = <[Z.to_nat i := x]> (dvec_iter v) /\ dvec_fits n v';
  dvec_set_oob v i x : zlength (dvec_iter v) <= i -> dvec_set v i x = Panic;
  dvec_push_law n v x : dvec_fits n v -> dvec_storable x ->
    (length (dvec_iter v) < n)%nat ->
    exists v', dvec_push v x = Ret (Ok tt, v') /\
      dvec_iter v' = dvec_iter v ++ [x] /\ dvec_fits n v';
  dvec_pop_law n v : dvec_fits n v ->
    (dvec_pop v).1 = last (dvec_iter v) /\
    dvec_iter (dvec_pop v).2 = take (length (dvec_iter v) - 1) (dvec_iter v) /\
    dvec_fits n (dvec_pop v).2;
}.

(** ** dfinity_stable_structures::cell *)

Inductive cell_InitError :=
  | CellIncompatibleVersion (last_supported decoded : Z)
  | CellInitValueTooLarge (value_size : Z).

Inductive cell_ValueError :=
  | CellValueTooLarge (value_size : Z).

Class CellLib (T M : Type) := {
  dcell : Type;
  dcell_init : M -> T -> result dcell cell_InitError;
  dcell_get : dcell -> T;
  dcell_set : dcell -> T -> result unit cell_ValueError * dcell;
}.

(** [dcell_accepts c v], [dcell_mem_accepts m v]: the serialized [v] fits the
    memory of [c], the memory [m]. *)
Class CellLaws (T M : Type) `{CellLib T M} := {
  dcell_accepts : dcell -> T -> Prop;
  dcell_mem_fresh : M -> Prop;
  dcell_mem_accepts : M -> T -> Prop;
  dcell_init_fresh m v : dcell_mem_fresh m -> dcell_mem_accepts m v ->
    exists c, dcell_init m v = Ok c /\ dcell_get c = v /\
      forall w, dcell_mem_accepts m w -> dcell_accepts c w;
  dcell_set_law c v : dcell_accepts c v ->
    (dcell_set c v).1 = Ok tt /\ dcell_get (dcell_set c v).2 = v;
  dcell_set_accepts c v w : dcell_accepts c v -> dcell_accepts c w ->
    dcell_accepts (dcell_set c v).2 w;
}.

(** ** dfinity_stable_structures::log *)

Class LogLib (T M : Type) := {
  dlog : Type;
  dlog_InitError : Type;
  dlog_WriteError : Type;
  dlog_init : M -> M -> result dlog dlog_InitError;
  dlog_new : M -> M -> dlog;
  dlog_into_memories : dlog -> M * M;
  dlog_iter : dlog -> list T;
  dlog_get : dlog -> Z -> option T;
  dlog_append : dlog -> T -> result Z dlog_WriteError * dlog;
  dlog_len : dlog -> Z;
}.

Class LogLaws (T M : Type) `{LogLib T M} := {
  dlog_new_law m1 m2 : dlog_iter (dlog_new m1 m2) = [];
  dlog_get_law l i : 0 <= i -> dlog_get l i = zlookup (dlog_iter l) i;
  dlog_len_law l : dlog_len l = zlength (dlog_iter l);
  dlog_append_ok l x i : (dlog_append l x).1 = Ok i ->
    i = zlength (dlog_iter l) /\ dlog_iter (dlog_append l x).2 = dlog_iter l ++ [x];
  dlog_append_err l x e : (dlog_append l x).1 = Err e ->
    dlog_iter (dlog_append l x).2 = dlog_iter l;
}.

(** ** dfinity_stable_structures::btreemap *)

Section btree.
Context (K V M : Type) `{Countable K, OrdKey K}.

Class BTreeLib := {
  dbtree : Type;
  dbtree_init : M -> dbtree;
  dbtree_iter : dbtree -> list (K * V);
  dbtree_get : dbtree -> K -> option V;
  dbtree_insert : dbtree -> K -> V -> option V * dbtree;
  dbtree_remove : dbtree -> K -> option V * dbtree;
  dbtree_len : dbtree -> Z;
  dbtree_is_empty : dbtree -> bool;
  dbtree_clear_new : dbtree -> dbtree;
  dbtree_contains_key : dbtree -> K -> bool;
  dbtree_first_key_value : dbtree -> option (K * V);
  dbtree_last_key_value : dbtree -> option (K * V);
  dbtree_pop_first : dbtree -> option (K * V) * dbtree;
  dbtree_pop_last : dbtree -> option (K * V) * dbtree;
  dbtree_range : dbtree -> key_bound K -> key_bound K -> list (K * V);
  dbtree_iter_upper_bound : dbtree -> K -> list (K * V);
}.

(** The iterator "pointing to the first element below the given bound": the
    entries from the greatest key strictly below the bound upwards. *)
Definition entries_from_upper_bound (bound : K) (es : list (K * V)) : list (K * V) :=
  match last (filter (fun kv => key_lt kv.1 bound) es) with
  | Some (k0, _) => filter (fun kv => key_le k0 kv.1) es
  | None => []
  end.

Class BTreeLaws `{BTreeLib} := {
  dbtree_view : dbtree -> gmap K V;
  dbtree_iter_law b : dbtree_iter b = sorted_entries (dbtree_view b);
  dbtree_get_law b k : dbtree_get b k = dbtree_view b !! k;
  dbtree_insert_law b k v :
    (dbtree_insert b k v).1 = dbtree_view b !! k /\
    dbtree_view (dbtree_insert b k v).2 = <[k := v]> (dbtree_view b);
  dbtree_remove_law b k :
    (dbtree_remove b k).1 = dbtree_view b !! k /\
    dbtree_view (dbtree_remove b k).2 = delete k (dbtree_view b);
  dbtree_len_law b : dbtree_len b = Z.of_nat (size (dbtree_view b));
  dbtree_is_empty_law b : dbtree_is_empty b = (dbtree_len b =? 0);
  dbtree_clear_new_law b : dbtree_view (dbtree_clear_new b) = ∅;
  dbtree_contains_key_law b k :
    dbtree_contains_key b k = bool_decide (is_Some (dbtree_view b !! k));
  dbtree_first_law b : dbtree_first_key_value b = head (dbtree_iter b);
  dbtree_last_law b : dbtree_last_key_value b = last (dbtree_iter b);
  dbtree_pop_first_law b :
    (dbtree_pop_first b).1 = head (dbtree_iter b) /\
    dbtree_view (dbtree_pop_first b).2 =
      match head (dbtree_iter b) with
      | Some (k, _) => delete k (dbtree_view b) | None => dbtree_view b end;
  dbtree_pop_last_law b :
    (dbtree_pop_last b).1 = last (dbtree_iter b) /\
    dbtree_view (dbtree_pop_last b).2 =
      match last (dbtree_iter b) with
      | Some (k, _) => delete k (dbtree_view b) | None => dbtree_view b end;
  dbtree_range_law b lo hi :
    dbtree_range b lo hi =
      filter (fun kv => above lo kv.1 && below hi kv.1) (dbtree_iter b);
  dbtree_iter_upper_bound_law b k :
    dbtree_iter_upper_bound b k = entries_from_upper_bound k (dbtree_iter b);
}.

(** ** schnellru::LruMap, limited by length

    A lookup moves the entry to the head of the recency list; an insertion
    may evict other entries, and may be refused, but never leaves the
    previous value of its key behind. *)
Class LruLib := {
  dlru : Type;
  dlru_new : Z -> dlru;
  dlru_len : dlru -> Z;
  dlru_is_empty : dlru -> bool;
  dlru_get : dlru -> K -> option V * dlru;
  dlru_insert : dlru -> K -> V -> dlru;
  dlru_remove : dlru -> K -> option V * dlru;
  dlru_clear : dlru -> dlru;
}.

Class LruLaws `{LruLib} := {
  dlru_view : dlru -> gmap K V;
  dlru_cap : dlru -> Z;
  dlru_new_law cap : dlru_view (dlru_new cap) = ∅ /\ dlru_cap (dlru_new cap) = cap;
  dlru_len_law c : dlru_len c = Z.of_nat (size (dlru_view c));
  dlru_is_empty_law c : dlru_is_empty c = (dlru_len c =? 0);
  dlru_get_law c k :
    (dlru_get c k).1 = dlru_view c !! k /\ dlru_view (dlru_get c k).2 = dlru_view c /\
    dlru_cap (dlru_get c k).2 = dlru_cap c;
  dlru_insert_law c k v :
    dlru_view (dlru_insert c k v) ⊆ <[k := v]> (dlru_view c) /\
    dlru_cap (dlru_insert c k v) = dlru_cap c;
  dlru_remove_law c k :
    (dlru_remove c k).1 = dlru_view c !! k /\
    dlru_view (dlru_remove c k).2 = delete k (dlru_view c) /\
    dlru_cap (dlru_remove c k).2 = dlru_cap c;
  dlru_clear_law c :
    dlru_view (dlru_clear c) = ∅ /\ dlru_cap (dlru_clear c) = dlru_cap c;
  dlru_bounded c : 0 <= dlru_cap c -> dlru_len c <= dlru_cap c;
}.
End btree.

Arguments BTreeLib : clear implicits.
Arguments LruLib : clear implicits.
