(* ===== verification/Concrete.v ===== *)
(** * Concrete instances of the library interfaces

    The simplest implementations of the classes of [StableLib.v], with their
    laws: a memory is the number of items it can hold, a vector a list, an
    ordered map a [gmap], an LRU map a recency list.  They show that the laws
    are satisfiable and let the witnesses of the development evaluate. *)

From S2P Require Import Prelude StableLib.
Local Open Scope Z_scope.

Section vec_log_cell.
Context {T : Type}.

(** A vector: the capacity of its memory, and its items. *)
#[export] Instance list_vec : VecLib T nat := {|
  dvec := nat * list T;
  grow_failed := unit;
  dvec_init m := Ok (m, []);
  dvec_new m := Ok (m, []);
  dvec_into_memory v := v.1;
  dvec_iter v := v.2;
  dvec_is_empty v := zlength v.2 =? 0;
  dvec_len v := zlength v.2;
  dvec_get v i := zlookup v.2 i;
  dvec_set v i x :=
    if zlength v.2 <=? i then Panic else Ret (v.1, <[Z.to_nat i := x]> v.2);
  dvec_push v x :=
    if decide (length v.2 < v.1)%nat then Ret (Ok tt, (v.1, v.2 ++ [x]))
    else Ret (Err tt, v);
  dvec_pop v := (last v.2, (v.1, take (length v.2 - 1) v.2));
|}.

#[export] Instance list_vec_laws : VecLaws T nat.
Proof.
  refine {| dvec_fits n (v : @dvec T nat _) := (n <= v.1)%nat;
            dmem_fits n m := (n <= m)%nat; dmem_fresh _ := True;
            dvec_storable _ := True |};
    cbn; intros; try done.
  - by eexists.
  - by eexists.
  - case_bools; [lia|]. by eexists.
  - by case_bools; [|lia].
  - rewrite decide_True by lia. by eexists.
Defined.

#[export] Instance value_cell : CellLib T unit := {|
  dcell := T;
  dcell_init _ v := Ok v;
  dcell_get c := c;
  dcell_set _ v := (Ok tt, v);
|}.

#[export] Instance value_cell_laws : CellLaws T unit.
Proof.
  refine {| dcell_accepts _ _ := True; dcell_mem_fresh _ := True;
            dcell_mem_accepts _ _ := True |}; try done.
  intros. by eexists.
Defined.

#[export] Instance list_log : LogLib T unit := {|
  dlog := list T;
  dlog_InitError := unit;
  dlog_WriteError := unit;
  dlog_init _ _ := Ok [];
  dlog_new _ _ := [];
  dlog_into_memories _ := (tt, tt);
  dlog_iter l := l;
  dlog_get l i := zlookup l i;
  dlog_append l x := (Ok (zlength l), l ++ [x]);
  dlog_len l := zlength l;
|}.

#[export] Instance list_log_laws : LogLaws T unit.
Proof. split; cbn; naive_solver. Defined.
End vec_log_cell.

Section btree.
Context {K V : Type} `{Countable K, OrdKey K}.

#[export] Instance gmap_btree : BTreeLib K V unit := {|
  dbtree := gmap K V;
  dbtree_init _ := ∅;
  dbtree_iter := sorted_entries;
  dbtree_get m k := m !! k;
  dbtree_insert m k v := (m !! k, <[k := v]> m);
  dbtree_remove m k := (m !! k, delete k m);
  dbtree_len m := Z.of_nat (size m);
  dbtree_is_empty m := Z.of_nat (size m) =? 0;
  dbtree_clear_new _ := ∅;
  dbtree_contains_key m k := bool_decide (is_Some (m !! k));
  dbtree_first_key_value m := head (sorted_entries m);
  dbtree_last_key_value m := last (sorted_entries m);
  dbtree_pop_first m :=
    (head (sorted_entries m),
     match head (sorted_entries m) with Some (k, _) => delete k m | None => m end);
  dbtree_pop_last m :=
    (last (sorted_entries m),
     match last (sorted_entries m) with Some (k, _) => delete k m | None => m end);
  dbtree_range m lo hi :=
    filter (fun kv => above lo kv.1 && below hi kv.1) (sorted_entries m);
  dbtree_iter_upper_bound m k := entries_from_upper_bound K V k (sorted_entries m);
|}.

#[export] Instance gmap_btree_laws : BTreeLaws K V unit.
Proof. by refine {| dbtree_view (b : @dbtree K V unit _) := b |}. Defined.

(** An LRU map: its maximal length and its entries, most recent first. *)
Definition lru_touch (k : K) (es : list (K * V)) : list (K * V) :=
  filter (fun kv => kv.1 <> k) es.

Definition lru_entries (c : Z * list (K * V)) : list (K * V) :=
  take (Z.to_nat c.1) c.2.

Definition lru_view (c : Z * list (K * V)) : gmap K V := list_to_map (lru_entries c).

#[export] Instance list_lru : LruLib K V := {|
  dlru := Z * list (K * V);
  dlru_new cap := (cap, []);
  dlru_len c := Z.of_nat (size (lru_view c));
  dlru_is_empty c := Z.of_nat (size (lru_view c)) =? 0;
  dlru_get c k :=
    match lru_view c !! k with
    | Some v => (Some v, (c.1, (k, v) :: lru_touch k (lru_entries c)))
    | None => (None, c)
    end;
  dlru_insert c k v := (c.1, (k, v) :: lru_touch k (lru_entries c));
  dlru_remove c k := (lru_view c !! k, (c.1, lru_touch k (lru_entries c)));
  dlru_clear c := (c.1, []);
|}.

Lemma lru_touch_lookup k es k' :
  (list_to_map (lru_touch k es) : gmap K V) !! k' =
    if decide (k' = k) then None else (list_to_map es : gmap K V) !! k'.
Proof.
  unfold lru_touch. induction es as [|[k0 v0] es IH].
  { cbn. rewrite lookup_empty. by case_decide. }
  destruct (decide (k0 = k)) as [->|Hk].
  - rewrite filter_cons_False by (cbn; tauto). rewrite IH, list_to_map_cons.
    case_decide; [done|]. by rewrite lookup_insert_ne.
  - rewrite filter_cons_True by done. rewrite !list_to_map_cons.
    destruct (decide (k' = k0)) as [->|].
    + rewrite !lookup_insert_eq. by rewrite decide_False.
    + by rewrite !lookup_insert_ne.
Qed.

Lemma take_list_to_map_subseteq n (es : list (K * V)) :
  (list_to_map (take n es) : gmap K V) ⊆ list_to_map es.
Proof.
  apply map_subseteq_spec. intros k v. revert n.
  induction es as [|[k0 v0] es IH]; intros [|n]; try done.
  rewrite firstn_cons, !list_to_map_cons.
  destruct (decide (k = k0)) as [->|].
  - by rewrite !lookup_insert_eq.
  - rewrite !lookup_insert_ne by done. apply IH.
Qed.

Lemma lru_touch_length k es v :
  (list_to_map es : gmap K V) !! k = Some v -> (length (lru_touch k es) < length es)%nat.
Proof.
  intros Hk. apply length_filter_lt with (k, v); [|cbn; tauto].
  by apply elem_of_list_to_map_2.
Qed.

Lemma lru_view_push cap k v es :
  lru_view (cap, (k, v) :: lru_touch k es) ⊆ <[k := v]> (list_to_map es).
Proof.
  unfold lru_view, lru_entries. cbn.
  etrans; [apply take_list_to_map_subseteq|]. rewrite list_to_map_cons.
  apply map_subseteq_spec. intros k' v' Hk'.
  destruct (decide (k' = k)) as [->|].
  - by rewrite lookup_insert_eq in *.
  - rewrite lookup_insert_ne in * by done.
    rewrite lru_touch_lookup, decide_False in Hk' by done. done.
Qed.

Lemma lru_view_touched cap k v es :
  (list_to_map es : gmap K V) !! k = Some v -> (length es <= Z.to_nat cap)%nat ->
  lru_view (cap, (k, v) :: lru_touch k es) = list_to_map es.
Proof.
  intros Hk Hlen. unfold lru_view, lru_entries. cbn.
  pose proof (lru_touch_length _ _ _ Hk).
  rewrite take_ge by (cbn; lia). rewrite list_to_map_cons. apply map_eq. intros k'.
  destruct (decide (k' = k)) as [->|].
  - by rewrite lookup_insert_eq.
  - rewrite lookup_insert_ne by done. by rewrite lru_touch_lookup, decide_False.
Qed.

Lemma list_to_map_size_le (es : list (K * V)) :
  (size (list_to_map es : gmap K V) <= length es)%nat.
Proof.
  induction es as [|[k v] es IH]; [by cbn; rewrite map_size_empty|].
  rewrite list_to_map_cons. cbn [length].
  rewrite map_size_insert. destruct (_ !! k); cbn; lia.
Qed.

#[export] Instance list_lru_laws : LruLaws K V.
Proof.
  refine {| dlru_view (c : @dlru K V _) := lru_view c;
            dlru_cap (c : @dlru K V _) := c.1 |}; cbn.
  - intros. split; [|done]. unfold lru_view, lru_entries. cbn. by rewrite take_nil.
  - done.
  - done.
  - intros [cap es] k. destruct (lru_view (cap, es) !! k) as [v|] eqn:Hk; [|done].
    split_and!; [done| |done]. apply lru_view_touched; [done|].
    unfold lru_entries. rewrite length_take. cbn. lia.
  - intros [cap es] k v. split; [|done]. apply lru_view_push.
  - intros [cap es] k. split_and!; [done| |done]. unfold lru_view at 1, lru_entries. cbn.
    rewrite take_ge.
    + apply map_eq. intros k'. rewrite lru_touch_lookup. case_decide as Hk.
      * subst. by rewrite lookup_delete_eq.
      * by rewrite lookup_delete_ne.
    + unfold lru_touch. etrans; [apply length_filter|].
      unfold lru_entries. rewrite length_take. cbn. lia.
  - intros. split; [|done]. unfold lru_view, lru_entries. cbn. by rewrite take_nil.
  - intros [cap es] Hcap. cbn in *. unfold lru_view, lru_entries. cbn.
    etrans; [apply inj_le, list_to_map_size_le|].
    rewrite length_take. lia.
Defined.
End btree.
