(* ===== verification/Structure.v ===== *)
(** * The structure interfaces

    The error type of [ic-stable-structures/src/error.rs] and the traits of
    [ic-stable-structures/src/structure/mod.rs], each as a class of operations
    and a class of laws: what an implementation promises to its clients.  A
    [&mut self] (or interior-mutable) method returns the new structure. *)

From S2P Require Import Prelude StableLib.
Local Open Scope Z_scope.

(** ** Errors *)

Inductive Error :=
  | OutOfStableMemory
  | ValueTooLarge (value_size : Z)
  | IncompatibleVersions
  | IncompatibleElementType
  | BadMagic (actual expected : list Z).

Definition Error_from_cell_InitError (e : cell_InitError) : Error :=
  match e with
  | CellIncompatibleVersion _ _ => IncompatibleVersions
  | CellInitValueTooLarge value_size => ValueTooLarge value_size
  end.

Definition Error_from_cell_ValueError (e : cell_ValueError) : Error :=
  match e with CellValueTooLarge value_size => ValueTooLarge value_size end.

(** All [log::InitError] variants are versioning errors. *)
Definition Error_from_log_InitError {E} (_ : E) : Error := IncompatibleVersions.

Definition Error_from_vec_InitError (e : vec_InitError) : Error :=
  match e with
  | VecIncompatibleVersion _ => IncompatibleVersions
  | VecIncompatibleElementType => IncompatibleElementType
  | VecOutOfMemory => OutOfStableMemory
  | VecBadMagic actual expected => BadMagic actual expected
  end.

Definition Error_from_GrowFailed {E} (_ : E) : Error := OutOfStableMemory.

(** ** VecStructure *)

Class VecStructure (D T : Type) := {
  vec_is_empty : D -> outcome bool;
  vec_clear : D -> outcome (result unit Error * D);
  vec_len : D -> outcome Z;
  vec_set : D -> Z -> T -> outcome (result unit Error * D);
  vec_get : D -> Z -> outcome (option T);
  vec_push : D -> T -> outcome (result unit Error * D);
  vec_pop : D -> outcome (option T * D);
}.

(** [vec_ok n d]: [d] is usable and its memory can hold [n] items. *)
Class VecStructureLaws (D T : Type) `{VecStructure D T} := {
  vec_items : D -> list T;
  vec_ok : nat -> D -> Prop;
  vec_storable : T -> Prop;
  vec_is_empty_ok n d : vec_ok n d -> vec_is_empty d = Ret (zlength (vec_items d) =? 0);
  vec_len_ok n d : vec_ok n d -> vec_len d = Ret (zlength (vec_items d));
  vec_get_ok n d i : vec_ok n d -> 0 <= i -> vec_get d i = Ret (zlookup (vec_items d) i);
  vec_clear_ok n d : vec_ok n d ->
    exists d', vec_clear d = Ret (Ok tt, d') /\ vec_items d' = [] /\ vec_ok n d';
  vec_set_ok n d i x : vec_ok n d -> vec_storable x -> 0 <= i < zlength (vec_items d) ->
    exists d', vec_set d i x = Ret (Ok tt, d') /\
      vec_items d' = <[Z.to_nat i := x]> (vec_items d) /\ vec_ok n d';
  vec_set_oob n d i x : vec_ok n d -> zlength (vec_items d) <= i -> vec_set d i x = Panic;
  vec_push_ok n d x : vec_ok n d -> vec_storable x -> (length (vec_items d) < n)%nat ->
    exists d', vec_push d x = Ret (Ok tt, d') /\
      vec_items d' = vec_items d ++ [x] /\ vec_ok n d';
  vec_pop_ok n d : vec_ok n d ->
    exists d', vec_pop d = Ret (last (vec_items d), d') /\
      vec_items d' = take (length (vec_items d) - 1) (vec_items d) /\ vec_ok n d';
}.

(** ** CellStructure *)

Class CellStructure (C T : Type) := {
  cell_get : C -> T;
  cell_set : C -> T -> result unit Error * C;
}.

(** [cell_accepts c v]: [v] serializes into the memory of [c]. *)
Class CellStructureLaws (C T : Type) `{CellStructure C T} := {
  cell_accepts : C -> T -> Prop;
  cell_set_ok c v : cell_accepts c v ->
    (cell_set c v).1 = Ok tt /\ cell_get (cell_set c v).2 = v /\
    forall w, cell_accepts c w -> cell_accepts (cell_set c v).2 w;
}.

(** ** LogStructure *)

Class LogStructure (L T : Type) := {
  log_get : L -> Z -> outcome (option T);
  log_append : L -> T -> outcome (result Z Error * L);
  log_len : L -> outcome Z;
  log_is_empty : L -> outcome bool;
  log_clear : L -> outcome L;
}.

Class LogStructureLaws (L T : Type) `{LogStructure L T} := {
  log_items : L -> list T;
  log_ok : L -> Prop;
  log_get_ok l i : log_ok l -> 0 <= i -> log_get l i = Ret (zlookup (log_items l) i);
  log_len_ok l : log_ok l -> log_len l = Ret (zlength (log_items l));
  log_is_empty_ok l : log_ok l -> log_is_empty l = Ret (zlength (log_items l) =? 0);
  log_append_ok l x : log_ok l ->
    exists r l', log_append l x = Ret (r, l') /\ log_ok l' /\
      match r with
      | Ok i => i = zlength (log_items l) /\ log_items l' = log_items l ++ [x]
      | Err e => e = OutOfStableMemory /\ log_items l' = log_items l
      end;
  log_clear_ok l : log_ok l ->
    exists l', log_clear l = Ret l' /\ log_items l' = [] /\ log_ok l';
}.

(** ** BTreeMapStructure and IterableSortedMapStructure *)

Section maps.
Context (S K V : Type).

Class BTreeMapStructure := {
  map_get : S -> K -> option V * S;
  map_insert : S -> K -> V -> option V * S;
  map_remove : S -> K -> option V * S;
  map_contains_key : S -> K -> bool * S;
  map_first_key_value : S -> option (K * V);
  map_last_key_value : S -> option (K * V);
  map_len : S -> Z;
  map_is_empty : S -> bool;
  map_clear : S -> S;
}.

Class IterableSortedMapStructure := {
  map_iter : S -> list (K * V);
  map_range : S -> key_bound K -> key_bound K -> list (K * V);
  map_iter_upper_bound : S -> K -> list (K * V);
}.

Context `{Countable K, OrdKey K}.

(** The structure denotes a finite map; [map_ok] is its representation
    invariant. *)
Class BTreeMapStructureLaws `{BTreeMapStructure} := {
  map_view : S -> gmap K V;
  map_ok : S -> Prop;
  map_get_law s k : map_ok s ->
    (map_get s k).1 = map_view s !! k /\
    map_view (map_get s k).2 = map_view s /\ map_ok (map_get s k).2;
  map_insert_law s k v : map_ok s ->
    (map_insert s k v).1 = map_view s !! k /\
    map_view (map_insert s k v).2 = <[k := v]> (map_view s) /\
    map_ok (map_insert s k v).2;
  map_remove_law s k : map_ok s ->
    (map_remove s k).1 = map_view s !! k /\
    map_view (map_remove s k).2 = delete k (map_view s) /\
    map_ok (map_remove s k).2;
  map_contains_key_law s k : map_ok s ->
    (map_contains_key s k).1 = bool_decide (is_Some (map_view s !! k)) /\
    map_view (map_contains_key s k).2 = map_view s /\ map_ok (map_contains_key s k).2;
  map_first_law s : map_ok s ->
    map_first_key_value s = head (sorted_entries (map_view s));
  map_last_law s : map_ok s ->
    map_last_key_value s = last (sorted_entries (map_view s));
  map_len_law s : map_ok s -> map_len s = Z.of_nat (size (map_view s));
  map_is_empty_law s : map_ok s -> map_is_empty s = bool_decide (map_view s = ∅);
  map_clear_law s : map_ok s -> map_view (map_clear s) = ∅ /\ map_ok (map_clear s);
}.

Class IterableSortedMapStructureLaws
    `{BTreeMapStructure, IterableSortedMapStructure, !BTreeMapStructureLaws} := {
  map_iter_law s : map_ok s -> map_iter s = sorted_entries (map_view s);
  map_range_law s lo hi : map_ok s ->
    map_range s lo hi =
      filter (fun kv => above lo kv.1 && below hi kv.1) (sorted_entries (map_view s));
  map_iter_upper_bound_law s k : map_ok s ->
    map_iter_upper_bound s k = entries_from_upper_bound K V k (sorted_entries (map_view s));
}.
End maps.

(** ** MultimapStructure *)

Section multimaps.
Context (S K1 K2 V : Type).

Class MultimapStructure := {
  mm_get : S -> K1 -> K2 -> option V * S;
  mm_insert : S -> K1 -> K2 -> V -> option V * S;
  mm_remove : S -> K1 -> K2 -> option V * S;
  mm_remove_partial : S -> K1 -> bool * S;
  mm_pop_first : S -> option (K1 * K2 * V) * S;
  mm_pop_last : S -> option (K1 * K2 * V) * S;
  mm_len : S -> Z;
  mm_is_empty : S -> bool;
  mm_range : S -> K1 -> list (K2 * V);
  mm_iter : S -> list (K1 * K2 * V);
  mm_clear : S -> S;
}.

Context `{Countable K1, OrdKey K1, Countable K2, OrdKey K2}.

(** The map without the entry an iterator yielded, if it yielded one. *)
Definition delete_entry (e : option (K1 * K2 * V)) (m : gmap (K1 * K2) V) :
    gmap (K1 * K2) V :=
  match e with Some (k, _) => delete k m | None => m end.

Class MultimapStructureLaws `{MultimapStructure} := {
  mm_view : S -> gmap (K1 * K2) V;
  mm_ok : S -> Prop;
  mm_get_law s k1 k2 : mm_ok s ->
    (mm_get s k1 k2).1 = mm_view s !! (k1, k2) /\
    mm_view (mm_get s k1 k2).2 = mm_view s /\ mm_ok (mm_get s k1 k2).2;
  mm_insert_law s k1 k2 v : mm_ok s ->
    (mm_insert s k1 k2 v).1 = mm_view s !! (k1, k2) /\
    mm_view (mm_insert s k1 k2 v).2 = <[(k1, k2) := v]> (mm_view s) /\
    mm_ok (mm_insert s k1 k2 v).2;
  mm_remove_law s k1 k2 : mm_ok s ->
    (mm_remove s k1 k2).1 = mm_view s !! (k1, k2) /\
    mm_view (mm_remove s k1 k2).2 = delete (k1, k2) (mm_view s) /\
    mm_ok (mm_remove s k1 k2).2;
  mm_remove_partial_law s k1 : mm_ok s ->
    (mm_remove_partial s k1).1 =
      bool_decide (filter (fun kv => kv.1.1 = k1) (mm_view s) <> ∅) /\
    mm_view (mm_remove_partial s k1).2 = filter (fun kv => kv.1.1 <> k1) (mm_view s) /\
    mm_ok (mm_remove_partial s k1).2;
  mm_pop_first_law s : mm_ok s ->
    (mm_pop_first s).1 = head (sorted_entries (mm_view s)) /\
    mm_view (mm_pop_first s).2 =
      delete_entry (head (sorted_entries (mm_view s))) (mm_view s) /\
    mm_ok (mm_pop_first s).2;
  mm_pop_last_law s : mm_ok s ->
    (mm_pop_last s).1 = last (sorted_entries (mm_view s)) /\
    mm_view (mm_pop_last s).2 =
      delete_entry (last (sorted_entries (mm_view s))) (mm_view s) /\
    mm_ok (mm_pop_last s).2;
  mm_len_law s : mm_ok s -> mm_len s = Z.of_nat (size (mm_view s));
  mm_is_empty_law s : mm_ok s -> mm_is_empty s = bool_decide (mm_view s = ∅);
  mm_range_law s k1 : mm_ok s ->
    mm_range s k1 =
      (fun kv => (kv.1.2, kv.2)) <$>
        filter (fun kv => kv.1.1 = k1) (sorted_entries (mm_view s));
  mm_iter_law s : mm_ok s -> mm_iter s = sorted_entries (mm_view s);
  mm_clear_law s : mm_ok s -> mm_view (mm_clear s) = ∅ /\ mm_ok (mm_clear s);
}.
End multimaps.

(** ** Client programs of a map

    Sequences of calls through the interface, and what they answer; two
    structures with the same entries cannot be told apart. *)

Inductive map_op (K V : Type) :=
  | OpGet (k : K)
  | OpInsert (k : K) (v : V)
  | OpRemove (k : K)
  | OpContainsKey (k : K)
  | OpFirst
  | OpLast
  | OpLen
  | OpIsEmpty
  | OpClear.
Arguments OpGet {K V} k.
Arguments OpInsert {K V} k v.
Arguments OpRemove {K V} k.
Arguments OpContainsKey {K V} k.
Arguments OpFirst {K V}.
Arguments OpLast {K V}.
Arguments OpLen {K V}.
Arguments OpIsEmpty {K V}.
Arguments OpClear {K V}.

Inductive map_answer (K V : Type) :=
  | AnsValue (v : option V)
  | AnsEntry (e : option (K * V))
  | AnsLen (n : Z)
  | AnsBool (b : bool)
  | AnsUnit.
Arguments AnsValue {K V} v.
Arguments AnsEntry {K V} e.
Arguments AnsLen {K V} n.
Arguments AnsBool {K V} b.
Arguments AnsUnit {K V}.

Section map_clients.
Context {S K V : Type} `{Countable K, OrdKey K, BTreeMapStructure S K V}.

Definition map_call (s : S) (o : map_op K V) : map_answer K V * S :=
  match o with
  | OpGet k => let '(r, s) := map_get S K V s k in (AnsValue r, s)
  | OpInsert k v => let '(r, s) := map_insert S K V s k v in (AnsValue r, s)
  | OpRemove k => let '(r, s) := map_remove S K V s k in (AnsValue r, s)
  | OpContainsKey k => let '(r, s) := map_contains_key S K V s k in (AnsBool r, s)
  | OpFirst => (AnsEntry (map_first_key_value S K V s), s)
  | OpLast => (AnsEntry (map_last_key_value S K V s), s)
  | OpLen => (AnsLen (map_len S K V s), s)
  | OpIsEmpty => (AnsBool (map_is_empty S K V s), s)
  | OpClear => (AnsUnit, map_clear S K V s)
  end.

Fixpoint map_calls (s : S) (ops : list (map_op K V)) : list (map_answer K V) * S :=
  match ops with
  | [] => ([], s)
  | o :: ops =>
      let '(a, s) := map_call s o in
      let '(l, s) := map_calls s ops in
      (a :: l, s)
  end.
End map_clients.

Section map_specs.
Context {K V : Type} `{Countable K, OrdKey K}.

(** The same calls on a mathematical map. *)
Definition spec_call (m : gmap K V) (o : map_op K V) : map_answer K V * gmap K V :=
  match o with
  | OpGet k => (AnsValue (m !! k), m)
  | OpInsert k v => (AnsValue (m !! k), <[k := v]> m)
  | OpRemove k => (AnsValue (m !! k), delete k m)
  | OpContainsKey k => (AnsBool (bool_decide (is_Some (m !! k))), m)
  | OpFirst => (AnsEntry (head (sorted_entries m)), m)
  | OpLast => (AnsEntry (last (sorted_entries m)), m)
  | OpLen => (AnsLen (Z.of_nat (size m)), m)
  | OpIsEmpty => (AnsBool (bool_decide (m = ∅)), m)
  | OpClear => (AnsUnit, ∅)
  end.

Fixpoint spec_calls (m : gmap K V) (ops : list (map_op K V)) :
    list (map_answer K V) * gmap K V :=
  match ops with
  | [] => ([], m)
  | o :: ops =>
      let '(a, m) := spec_call m o in
      let '(l, m) := spec_calls m ops in
      (a :: l, m)
  end.

Context {S : Type} `{!BTreeMapStructure S K V, !BTreeMapStructureLaws S K V}.

Lemma map_call_spec (s : S) o :
  map_ok S K V s ->
  (map_call s o).1 = (spec_call (map_view S K V s) o).1 /\
  map_view S K V (map_call s o).2 = (spec_call (map_view S K V s) o).2 /\
  map_ok S K V (map_call s o).2.
Proof.
  intros Hs. destruct o as [k|k v|k|k| | | | |]; cbn.
  - destruct (map_get_law S K V s k Hs) as (? & ? & ?).
    destruct (map_get S K V s k). cbn in *. split_and!; congruence.
  - destruct (map_insert_law S K V s k v Hs) as (? & ? & ?).
    destruct (map_insert S K V s k v). cbn in *. split_and!; congruence.
  - destruct (map_remove_law S K V s k Hs) as (? & ? & ?).
    destruct (map_remove S K V s k). cbn in *. split_and!; congruence.
  - destruct (map_contains_key_law S K V s k Hs) as (? & ? & ?).
    destruct (map_contains_key S K V s k). cbn in *. split_and!; congruence.
  - by rewrite (map_first_law S K V).
  - by rewrite (map_last_law S K V).
  - by rewrite (map_len_law S K V).
  - by rewrite (map_is_empty_law S K V).
  - by destruct (map_clear_law S K V s Hs).
Qed.

Lemma map_calls_spec (s : S) ops :
  map_ok S K V s ->
  (map_calls s ops).1 = (spec_calls (map_view S K V s) ops).1 /\
  map_view S K V (map_calls s ops).2 = (spec_calls (map_view S K V s) ops).2 /\
  map_ok S K V (map_calls s ops).2.
Proof.
  revert s. induction ops as [|o ops IH]; intros s Hs; [done|]. cbn.
  destruct (map_call_spec s o Hs) as (Ha & Hv & Hok).
  destruct (map_call s o) as [a s1], (spec_call (map_view S K V s) o) as [a' m1].
  cbn in *. subst a' m1. destruct (IH s1 Hok) as (Hl & Hv' & Hok').
  destruct (map_calls s1 ops), (spec_calls (map_view S K V s1) ops). cbn in *.
  split_and!; congruence.
Qed.
End map_specs.

Section multimap_clients.
Context {S K1 K2 V : Type} `{Countable K1, OrdKey K1, Countable K2, OrdKey K2}.

Inductive mm_op :=
  | MmGet (k1 : K1) (k2 : K2)
  | MmInsert (k1 : K1) (k2 : K2) (v : V)
  | MmRemove (k1 : K1) (k2 : K2)
  | MmRemovePartial (k1 : K1)
  | MmPopFirst
  | MmPopLast
  | MmLen
  | MmIsEmpty
  | MmRange (k1 : K1)
  | MmIter
  | MmClear.

Inductive mm_answer :=
  | MmValue (v : option V)
  | MmEntry (e : option (K1 * K2 * V))
  | MmCount (n : Z)
  | MmBool (b : bool)
  | MmPairs (l : list (K2 * V))
  | MmEntries (l : list (K1 * K2 * V))
  | MmUnit.

Definition mm_call `{MultimapStructure S K1 K2 V} (s : S) (o : mm_op) : mm_answer * S :=
  match o with
  | MmGet k1 k2 => let '(r, s) := mm_get S K1 K2 V s k1 k2 in (MmValue r, s)
  | MmInsert k1 k2 v => let '(r, s) := mm_insert S K1 K2 V s k1 k2 v in (MmValue r, s)
  | MmRemove k1 k2 => let '(r, s) := mm_remove S K1 K2 V s k1 k2 in (MmValue r, s)
  | MmRemovePartial k1 => let '(r, s) := mm_remove_partial S K1 K2 V s k1 in (MmBool r, s)
  | MmPopFirst => let '(r, s) := mm_pop_first S K1 K2 V s in (MmEntry r, s)
  | MmPopLast => let '(r, s) := mm_pop_last S K1 K2 V s in (MmEntry r, s)
  | MmLen => (MmCount (mm_len S K1 K2 V s), s)
  | MmIsEmpty => (MmBool (mm_is_empty S K1 K2 V s), s)
  | MmRange k1 => (MmPairs (mm_range S K1 K2 V s k1), s)
  | MmIter => (MmEntries (mm_iter S K1 K2 V s), s)
  | MmClear => (MmUnit, mm_clear S K1 K2 V s)
  end.

(** The same calls on a mathematical map of pairs. *)
Definition mm_spec_call (m : gmap (K1 * K2) V) (o : mm_op) :
    mm_answer * gmap (K1 * K2) V :=
  match o with
  | MmGet k1 k2 => (MmValue (m !! (k1, k2)), m)
  | MmInsert k1 k2 v => (MmValue (m !! (k1, k2)), <[(k1, k2) := v]> m)
  | MmRemove k1 k2 => (MmValue (m !! (k1, k2)), delete (k1, k2) m)
  | MmRemovePartial k1 =>
      (MmBool (bool_decide (filter (fun kv => kv.1.1 = k1) m <> ∅)),
       filter (fun kv => kv.1.1 <> k1) m)
  | MmPopFirst =>
      (MmEntry (head (sorted_entries m)), delete_entry K1 K2 V (head (sorted_entries m)) m)
  | MmPopLast =>
      (MmEntry (last (sorted_entries m)), delete_entry K1 K2 V (last (sorted_entries m)) m)
  | MmLen => (MmCount (Z.of_nat (size m)), m)
  | MmIsEmpty => (MmBool (bool_decide (m = ∅)), m)
  | MmRange k1 =>
      (MmPairs ((fun kv => (kv.1.2, kv.2)) <$>
         filter (fun kv => kv.1.1 = k1) (sorted_entries m)), m)
  | MmIter => (MmEntries (sorted_entries m), m)
  | MmClear => (MmUnit, ∅)
  end.

Definition run_calls {St} (call : St -> mm_op -> mm_answer * St) :
    St -> list mm_op -> list mm_answer * St :=
  fix go s ops :=
    match ops with
    | [] => ([], s)
    | o :: ops => let '(a, s) := call s o in let '(l, s) := go s ops in (a :: l, s)
    end.

Context `{!MultimapStructure S K1 K2 V, !MultimapStructureLaws S K1 K2 V}.

Lemma mm_call_spec (s : S) o :
  mm_ok S K1 K2 V s ->
  (mm_call s o).1 = (mm_spec_call (mm_view S K1 K2 V s) o).1 /\
  mm_view S K1 K2 V (mm_call s o).2 = (mm_spec_call (mm_view S K1 K2 V s) o).2 /\
  mm_ok S K1 K2 V (mm_call s o).2.
Proof.
  intros Hs. destruct o as [k1 k2|k1 k2 v|k1 k2|k1| | | | |k1| |]; cbn.
  - destruct (mm_get_law S K1 K2 V s k1 k2 Hs) as (? & ? & ?).
    destruct (mm_get S K1 K2 V s k1 k2). cbn in *. split_and!; congruence.
  - destruct (mm_insert_law S K1 K2 V s k1 k2 v Hs) as (? & ? & ?).
    destruct (mm_insert S K1 K2 V s k1 k2 v). cbn in *. split_and!; congruence.
  - destruct (mm_remove_law S K1 K2 V s k1 k2 Hs) as (? & ? & ?).
    destruct (mm_remove S K1 K2 V s k1 k2). cbn in *. split_and!; congruence.
  - destruct (mm_remove_partial_law S K1 K2 V s k1 Hs) as (? & ? & ?).
    destruct (mm_remove_partial S K1 K2 V s k1). cbn in *. split_and!; congruence.
  - destruct (mm_pop_first_law S K1 K2 V s Hs) as (? & ? & ?).
    destruct (mm_pop_first S K1 K2 V s). cbn in *. split_and!; congruence.
  - destruct (mm_pop_last_law S K1 K2 V s Hs) as (? & ? & ?).
    destruct (mm_pop_last S K1 K2 V s). cbn in *. split_and!; congruence.
  - by rewrite (mm_len_law S K1 K2 V).
  - by rewrite (mm_is_empty_law S K1 K2 V).
  - by rewrite (mm_range_law S K1 K2 V).
  - by rewrite (mm_iter_law S K1 K2 V).
  - by destruct (mm_clear_law S K1 K2 V s Hs).
Qed.

Lemma mm_calls_spec (s : S) ops :
  mm_ok S K1 K2 V s ->
  (run_calls mm_call s ops).1 = (run_calls mm_spec_call (mm_view S K1 K2 V s) ops).1 /\
  mm_view S K1 K2 V (run_calls mm_call s ops).2 =
    (run_calls mm_spec_call (mm_view S K1 K2 V s) ops).2 /\
  mm_ok S K1 K2 V (run_calls mm_call s ops).2.
Proof.
  revert s. induction ops as [|o ops IH]; intros s Hs; [done|]. cbn.
  destruct (mm_call_spec s o Hs) as (Ha & Hv & Hok).
  destruct (mm_call s o) as [a s1], (mm_spec_call (mm_view S K1 K2 V s) o) as [a' m1].
  cbn in *. subst a' m1. destruct (IH s1 Hok) as (Hl & Hv' & Hok').
  destruct (run_calls mm_call s1 ops), (run_calls mm_spec_call (mm_view S K1 K2 V s1) ops).
  cbn in *. split_and!; congruence.
Qed.
End multimap_clients.
Arguments mm_op : clear implicits.
Arguments mm_answer : clear implicits.
