(* ===== verification/StableStorage.v ===== *)
(** * The stable structures

    [structure/stable_storage/{vec,cell,log,btreemap,multimap}.rs] and the
    [Bounded] trait of [structure/common/mod.rs]: the wrappers over the
    containers of [StableLib.v], and the proofs that each implements its
    interface of [Structure.v]. *)

From S2P Require Import Prelude StableLib Structure.
Local Open Scope Z_scope.

(** ** StableVec *)

Module StableVec.
Section vec.
Context {T M : Type} `{VecLib T M}.

(** [struct StableVec(Option<vec::Vec>)]: the option is empty only while, or
    after a failed, [clear]. *)
Definition t : Type := option dvec.

Definition new (memory : M) : result t Error :=
  match dvec_init memory with
  | Ok v => Ok (Some v)
  | Err e => Err (Error_from_vec_InitError e)
  end.

Definition get_inner (s : t) : outcome dvec := expect s.

Definition iter (s : t) : outcome (list T) := v ← get_inner s; Ret (dvec_iter v).

Definition is_empty (s : t) : outcome bool := v ← get_inner s; Ret (dvec_is_empty v).

(** [take] leaves [None] behind, so a failing [Vec::new(..)?] loses the vector. *)
Definition clear (s : t) : outcome (result unit Error * t) :=
  match s with
  | Some vector =>
      match dvec_new (dvec_into_memory vector) with
      | Ok v => Ret (Ok tt, Some v)
      | Err e => Ret (Err (Error_from_GrowFailed e), None)
      end
  | None => Ret (Ok tt, None)
  end.

Definition len (s : t) : outcome Z := v ← get_inner s; Ret (dvec_len v).

Definition set (s : t) (index : Z) (item : T) : outcome (result unit Error * t) :=
  v ← get_inner s; v' ← dvec_set v index item; Ret (Ok tt, Some v').

Definition get (s : t) (index : Z) : outcome (option T) :=
  v ← get_inner s; Ret (dvec_get v index).

Definition push (s : t) (item : T) : outcome (result unit Error * t) :=
  v ← get_inner s;
  rv ← dvec_push v item;
  Ret (map_err Error_from_GrowFailed rv.1, Some rv.2).

Definition pop (s : t) : outcome (option T * t) :=
  v ← get_inner s; Ret ((dvec_pop v).1, Some (dvec_pop v).2).

#[global] Instance vec_structure : VecStructure t T := {|
  vec_is_empty := is_empty; vec_clear := clear; vec_len := len; vec_set := set;
  vec_get := get; vec_push := push; vec_pop := pop |}.

Context `{!VecLaws T M}.

Definition items (s : t) : list T :=
  match s with Some v => dvec_iter v | None => [] end.

Definition ok (n : nat) (s : t) : Prop := exists v, s = Some v /\ dvec_fits n v.

#[global] Instance vec_structure_laws : VecStructureLaws t T.
Proof.
  refine {| vec_items := items; vec_ok := ok; vec_storable := dvec_storable |};
    intros n d; intros; match goal with Hd : ok _ _ |- _ => destruct Hd as (v & -> & Hf) end;
    cbn in *.
  - by rewrite dvec_is_empty_law, dvec_len_law.
  - by rewrite dvec_len_law.
  - by rewrite dvec_get_law.
  - destruct (dvec_new_law _ _ (dvec_into_memory_fits _ _ Hf)) as (v' & -> & ? & ?).
    exists (Some v'). unfold ok. naive_solver.
  - edestruct (dvec_set_law n v) as (v' & Hs & ? & ?); [done..|].
    unfold set, get_inner. cbn. rewrite Hs. cbn. exists (Some v'). unfold ok. naive_solver.
  - unfold set, get_inner. cbn. by rewrite dvec_set_oob.
  - edestruct (dvec_push_law n v) as (v' & Hs & ? & ?); [done..|].
    unfold push, get_inner. cbn. rewrite Hs. cbn. exists (Some v'). unfold ok. naive_solver.
  - destruct (dvec_pop_law n v Hf) as (Hp & ? & ?).
    unfold pop, get_inner. cbn. rewrite Hp. exists (Some (dvec_pop v).2).
    unfold ok. naive_solver.
Defined.
End vec.
Arguments t T M {_}.
End StableVec.

(** ** StableCell *)

Module StableCell.
Section cell.
Context {T M : Type} `{CellLib T M}.

Definition t : Type := dcell.

Definition new (memory : M) (default_value : T) : result t Error :=
  map_err Error_from_cell_InitError (dcell_init memory default_value).

Definition get (s : t) : T := dcell_get s.

Definition set (s : t) (value : T) : result unit Error * t :=
  let '(r, s') := dcell_set s value in (map_err Error_from_cell_ValueError r, s').

#[global] Instance cell_structure : CellStructure t T := {|
  cell_get := get; cell_set := set |}.

#[global] Instance cell_structure_laws `{!CellLaws T M} : CellStructureLaws t T.
Proof.
  refine {| cell_accepts := dcell_accepts |}. intros c v Hv. cbn. unfold set.
  destruct (dcell_set_law c v Hv) as [Hr Hg].
  pose proof (dcell_set_accepts c v) as Ha.
  destruct (dcell_set c v) as [r c']. cbn in *. subst r. naive_solver.
Defined.
End cell.
Arguments t T M {_}.
End StableCell.

(** ** StableLog *)

Module StableLog.
Section log.
Context {T M : Type} `{LogLib T M}.

Definition t : Type := option dlog.

Definition new (index_memory data_memory : M) : result t Error :=
  match dlog_init index_memory data_memory with
  | Ok l => Ok (Some l)
  | Err e => Err (Error_from_log_InitError e)
  end.

Definition get_inner (s : t) : outcome dlog := expect s.

Definition get (s : t) (index : Z) : outcome (option T) :=
  l ← get_inner s; Ret (dlog_get l index).

Definition append (s : t) (value : T) : outcome (result Z Error * t) :=
  l ← get_inner s;
  let '(r, l') := dlog_append l value in
  Ret (map_err (fun _ => OutOfStableMemory) r, Some l').

Definition len (s : t) : outcome Z := l ← get_inner s; Ret (dlog_len l).

Definition is_empty (s : t) : outcome bool := n ← len s; Ret (n =? 0).

Definition clear (s : t) : outcome t :=
  match s with
  | Some l => let '(index_mem, data_mem) := dlog_into_memories l in
              Ret (Some (dlog_new index_mem data_mem))
  | None => Ret None
  end.

#[global] Instance log_structure : LogStructure t T := {|
  log_get := get; log_append := append; log_len := len; log_is_empty := is_empty;
  log_clear := clear |}.

Definition items (s : t) `{!LogLaws T M} : list T :=
  match s with Some l => dlog_iter l | None => [] end.

#[global] Instance log_structure_laws `{!LogLaws T M} : LogStructureLaws t T.
Proof.
  refine {| log_items s := items s; log_ok s := is_Some s |};
    intros l; intros; match goal with Hs : is_Some _ |- _ => destruct Hs as [d ->] end; cbn.
  - by rewrite dlog_get_law.
  - by rewrite dlog_len_law.
  - unfold is_empty, len. cbn. by rewrite dlog_len_law.
  - unfold append. cbn. destruct (dlog_append d x) as [r d'] eqn:Ha.
    eexists _, (Some d'). split_and!; [done..|].
    destruct r as [i|e]; cbn.
    + destruct (dlog_append_ok d x i); rewrite Ha in *; naive_solver.
    + pose proof (dlog_append_err d x e) as He. rewrite Ha in He. naive_solver.
  - destruct (dlog_into_memories d) as [m1 m2]. eexists. split_and!; [done| |done].
    cbn. apply dlog_new_law.
Defined.
End log.
Arguments t T M {_}.
End StableLog.

(** ** StableBTreeMap *)

Module StableBTreeMap.
Section btreemap.
Context {K V M : Type} `{Countable K, OrdKey K, BTreeLib K V M}.

Definition t : Type := dbtree K V M.

Definition new (memory : M) : t := dbtree_init K V M memory.
Definition iter (s : t) : list (K * V) := dbtree_iter K V M s.
Definition get (s : t) (key : K) : option V := dbtree_get K V M s key.
Definition insert (s : t) (key : K) (value : V) : option V * t :=
  dbtree_insert K V M s key value.
Definition remove (s : t) (key : K) : option V * t := dbtree_remove K V M s key.
Definition len (s : t) : Z := dbtree_len K V M s.
Definition is_empty (s : t) : bool := dbtree_is_empty K V M s.
Definition clear (s : t) : t := dbtree_clear_new K V M s.
Definition contains_key (s : t) (key : K) : bool := dbtree_contains_key K V M s key.
Definition first_key_value (s : t) : option (K * V) := dbtree_first_key_value K V M s.
Definition last_key_value (s : t) : option (K * V) := dbtree_last_key_value K V M s.
Definition range (s : t) (lo hi : key_bound K) : list (K * V) := dbtree_range K V M s lo hi.
Definition iter_upper_bound (s : t) (bound : K) : list (K * V) :=
  dbtree_iter_upper_bound K V M s bound.

#[global] Instance map_structure : BTreeMapStructure t K V := {|
  map_get s k := (get s k, s); map_insert := insert; map_remove := remove;
  map_contains_key s k := (contains_key s k, s);
  map_first_key_value := first_key_value; map_last_key_value := last_key_value;
  map_len := len; map_is_empty := is_empty; map_clear := clear |}.

#[global] Instance sorted_map_structure : IterableSortedMapStructure t K V := {|
  map_iter := iter; map_range := range; map_iter_upper_bound := iter_upper_bound |}.

Context `{!BTreeLaws K V M}.

#[global] Instance map_structure_laws : BTreeMapStructureLaws t K V.
Proof.
  refine {| map_view (s : t) := dbtree_view K V M s; map_ok _ := True |}; cbn; intros.
  - split_and!; [by apply (dbtree_get_law K V M)|done..].
  - destruct (dbtree_insert_law K V M s k v). split_and!; done.
  - destruct (dbtree_remove_law K V M s k). split_and!; done.
  - split_and!; [apply (dbtree_contains_key_law K V M)|done..].
  - unfold first_key_value. by rewrite (dbtree_first_law K V M), (dbtree_iter_law K V M).
  - unfold last_key_value. by rewrite (dbtree_last_law K V M), (dbtree_iter_law K V M).
  - apply (dbtree_len_law K V M).
  - unfold is_empty. rewrite (dbtree_is_empty_law K V M), (dbtree_len_law K V M).
    destruct (decide (dbtree_view K V M s = ∅)) as [->|He].
    + by rewrite map_size_empty.
    + rewrite bool_decide_false by done. apply Z.eqb_neq. intros Hz. apply He, map_size_empty_inv. lia.
  - split; [apply (dbtree_clear_new_law K V M)|done].
Defined.

Lemma iter_entries (s : t) : iter s = sorted_entries (dbtree_view K V M s).
Proof. apply (dbtree_iter_law K V M). Qed.

Lemma range_entries (s : t) lo hi :
  range s lo hi =
    filter (fun kv => above lo kv.1 && below hi kv.1) (sorted_entries (dbtree_view K V M s)).
Proof. unfold range. by rewrite (dbtree_range_law K V M), (dbtree_iter_law K V M). Qed.

Lemma iter_upper_bound_entries (s : t) k :
  iter_upper_bound s k =
    entries_from_upper_bound K V k (sorted_entries (dbtree_view K V M s)).
Proof.
  unfold iter_upper_bound.
  by rewrite (dbtree_iter_upper_bound_law K V M), (dbtree_iter_law K V M).
Qed.

#[global] Instance sorted_map_structure_laws : IterableSortedMapStructureLaws t K V.
Proof.
  split; cbn; intros; [apply iter_entries|apply range_entries|apply iter_upper_bound_entries].
Defined.

Lemma always_ok (s : t) : map_ok t K V s.
Proof. exact I. Qed.
End btreemap.
Arguments t K V M {_}.
End StableBTreeMap.
