(* ===== verification/Multimap.v ===== *)
(** * StableMultimap

    [structure/stable_storage/multimap.rs], a map from pairs of keys whose
    entries with a given first key form the key range from [(k, K2::MIN)] to
    [(k, K2::MAX)], and the [Bounded] trait of [structure/common/mod.rs]. *)

From S2P Require Import Prelude StableLib Concrete Structure StableStorage.
Local Open Scope Z_scope.

(** ** Bounded *)

Class Bounded (K : Type) := {
  bounded_MIN : K;
  bounded_MAX : K;
}.

Class BoundedLaws (K : Type) `{OrdKey K, Bounded K} := {
  bounded_MIN_le k : key_le bounded_MIN k;
  bounded_le_MAX k : key_le k bounded_MAX;
}.

(** The machine integers between two constants. *)
Definition Int (lo hi : Z) : Type := { x : Z | (lo <=? x) && (x <=? hi) = true }.

Definition UInt (w : Z) : Type := Int 0 (2 ^ w - 1).
Definition SInt (w : Z) : Type := Int (- 2 ^ (w - 1)) (2 ^ (w - 1) - 1).

Section int.
Context {lo hi : Z}.

#[global] Instance Int_eq_dec : EqDecision (Int lo hi).
Proof. unfold Int. apply _. Defined.
#[global] Instance Int_countable : Countable (Int lo hi).
Proof. unfold Int. apply _. Defined.

#[export] Program Instance Int_ord : OrdKey (Int lo hi) :=
  {| key_lt x y := `x < `y |}.
Next Obligation. intros x y. cbn. apply _. Defined.
Next Obligation. split; [intros x Hx|intros x y z]; cbn in *; lia. Qed.
Next Obligation.
  intros x y. cbn. destruct (Z.lt_trichotomy (`x) (`y)) as [?|[?|?]]; [auto| |auto].
  right. left. by apply (sig_eq_pi _).
Qed.
End int.

(** [u8] to [u128] and [usize], and [i8] to [i128] and [isize]: the constants
    [MIN] and [MAX] of the type. *)
Lemma Int_MIN_ok lo hi : (lo <=? hi) = true -> (lo <=? lo) && (lo <=? hi) = true.
Proof. intros ->. by rewrite Z.leb_refl. Qed.

Lemma Int_MAX_ok lo hi : (lo <=? hi) = true -> (lo <=? hi) && (hi <=? hi) = true.
Proof. intros ->. by rewrite Z.leb_refl. Qed.

Definition Int_Bounded (lo hi : Z) (Hle : (lo <=? hi) = true) : Bounded (Int lo hi) :=
  {| bounded_MIN := exist _ lo (Int_MIN_ok lo hi Hle);
     bounded_MAX := exist _ hi (Int_MAX_ok lo hi Hle) |}.

Lemma UInt_nonempty w : 0 <= w -> (0 <=? 2 ^ w - 1) = true.
Proof. intros. apply Z.leb_le. pose proof (Z.pow_pos_nonneg 2 w). lia. Qed.

Lemma SInt_nonempty w : 1 <= w -> (- 2 ^ (w - 1) <=? 2 ^ (w - 1) - 1) = true.
Proof. intros. apply Z.leb_le. pose proof (Z.pow_pos_nonneg 2 (w - 1)). lia. Qed.

Lemma Int_BoundedLaws lo hi Hle :
  @BoundedLaws (Int lo hi) _ (Int_Bounded lo hi Hle).
Proof.
  split; intros [x Hx]; pose proof (andb_prop _ _ Hx) as [Hl%Z.leb_le Hh%Z.leb_le];
    unfold key_le; cbn; lia.
Qed.

(** ** StableMultimap *)

Module StableMultimap.
Section multimap.
Context {K1 K2 V M : Type}.
Context `{Countable K1, OrdKey K1, Countable K2, OrdKey K2, Bounded K2}.
Context `{BTreeLib (K1 * K2) V M}.

Definition t : Type := dbtree (K1 * K2) V M.

Definition new (memory : M) : t := dbtree_init (K1 * K2) V M memory.

Definition iter_upper_bound (s : t) (key : K1 * K2) : list (K1 * K2 * V) :=
  dbtree_iter_upper_bound _ _ _ s key.

Definition insert (s : t) (first_key : K1) (second_key : K2) (value : V) : option V * t :=
  dbtree_insert _ _ _ s (first_key, second_key) value.

Definition get (s : t) (first_key : K1) (second_key : K2) : option V :=
  dbtree_get _ _ _ s (first_key, second_key).

Definition remove (s : t) (first_key : K1) (second_key : K2) : option V * t :=
  dbtree_remove _ _ _ s (first_key, second_key).

(** [(first_key, K2::MIN)..=(first_key, K2::MAX)] *)
Definition partial_range (s : t) (first_key : K1) : list (K1 * K2 * V) :=
  dbtree_range _ _ _ s (Included (first_key, bounded_MIN)) (Included (first_key, bounded_MAX)).

Fixpoint remove_keys (keys : list (K1 * K2)) (found : bool) (s : t) : bool * t :=
  match keys with
  | [] => (found, s)
  | k :: ks =>
      let '(r, s') := dbtree_remove _ _ _ s k in
      remove_keys ks (bool_decide (is_Some r) || found) s'
  end.

Definition remove_partial (s : t) (first_key : K1) : bool * t :=
  remove_keys (partial_range s first_key).*1 false s.

Definition pop_first (s : t) : option (K1 * K2 * V) * t := dbtree_pop_first _ _ _ s.
Definition pop_last (s : t) : option (K1 * K2 * V) * t := dbtree_pop_last _ _ _ s.
Definition len (s : t) : Z := dbtree_len _ _ _ s.
Definition is_empty (s : t) : bool := len s =? 0.
Definition clear (s : t) : t := dbtree_clear_new _ _ _ s.

(** [StableMultimapRangeIter::next] keeps the second key of each entry. *)
Definition range (s : t) (first_key : K1) : list (K2 * V) :=
  (fun kv => (kv.1.2, kv.2)) <$> partial_range s first_key.

(** [StableMultimapIter::next] flattens the keys of each entry. *)
Definition iter (s : t) : list (K1 * K2 * V) :=
  (fun kv => (kv.1.1, kv.1.2, kv.2)) <$> dbtree_iter _ _ _ s.

#[global] Instance multimap_structure : MultimapStructure t K1 K2 V := {|
  mm_get s k1 k2 := (get s k1 k2, s); mm_insert := insert; mm_remove := remove;
  mm_remove_partial := remove_partial; mm_pop_first := pop_first; mm_pop_last := pop_last;
  mm_len := len; mm_is_empty := is_empty; mm_range := range; mm_iter := iter;
  mm_clear := clear |}.

Context `{!BoundedLaws K2, !BTreeLaws (K1 * K2) V M}.

Local Notation view := (dbtree_view (K1 * K2) V M).

(** The keys of the range are exactly those with the given first key. *)
Lemma partial_range_bounds k1 (k : K1 * K2) :
  above (Included (k1, bounded_MIN)) k && below (Included (k1, bounded_MAX)) k =
    bool_decide (k.1 = k1).
Proof.
  destruct k as [a b]. cbn. rewrite <- bool_decide_and. apply bool_decide_ext.
  unfold key_le. cbn. unfold pair_lt. cbn. split.
  - intros [Hl Hr]. destruct (key_lt_total a k1) as [?|[?|?]]; naive_solver.
  - intros ->. pose proof (bounded_MIN_le b). pose proof (bounded_le_MAX b).
    unfold key_le in *. split; intros [Hlt|[_ ?]]; auto;
      by apply (irreflexivity key_lt) in Hlt.
Qed.

Lemma partial_range_filter s k1 :
  partial_range s k1 = filter (fun kv => kv.1.1 = k1) (sorted_entries (view s)).
Proof.
  unfold partial_range. rewrite (dbtree_range_law _ _ _), (dbtree_iter_law _ _ _).
  apply list_filter_iff. intros [k v]. rewrite partial_range_bounds. cbn.
  apply bool_decide_spec.
Qed.

Lemma elem_of_partial_range s k1 k :
  k ∈ (partial_range s k1).*1 <-> k.1 = k1 /\ is_Some (view s !! k).
Proof.
  rewrite partial_range_filter, list_elem_of_fmap. split.
  - intros ([k' v] & -> & [Hk Hv]%list_elem_of_filter). cbn in *.
    apply elem_of_sorted_entries in Hv. naive_solver.
  - intros [Hk [v Hv]]. exists (k, v). split; [done|].
    apply list_elem_of_filter. by rewrite elem_of_sorted_entries.
Qed.

Lemma remove_keys_view keys found s k :
  view (remove_keys keys found s).2 !! k =
    if decide (k ∈ keys) then None else view s !! k.
Proof.
  revert found s. induction keys as [|k0 keys IH]; intros found s; cbn.
  { by rewrite decide_False by set_solver. }
  destruct (dbtree_remove _ _ _ s k0) as [r s'] eqn:Hr. rewrite IH.
  pose proof (dbtree_remove_law _ _ _ s k0) as [_ Hv]. rewrite Hr in Hv. cbn in Hv.
  rewrite Hv. destruct (decide (k = k0)) as [->|].
  - rewrite lookup_delete_eq, (decide_True (P := k0 ∈ k0 :: keys)) by set_solver.
    by case_decide.
  - rewrite lookup_delete_ne by done.
    destruct (decide (k ∈ keys)); [rewrite decide_True|rewrite decide_False]; set_solver.
Qed.

Lemma remove_keys_found keys found s :
  NoDup keys -> Forall (fun k => is_Some (view s !! k)) keys ->
  (remove_keys keys found s).1 = negb (bool_decide (keys = [])) || found.
Proof.
  revert found s. induction keys as [|k0 keys IH]; intros found s Hnd Hall; [done|].
  inversion_clear Hnd as [|?? Hk Hnd']. inversion_clear Hall as [|?? Hs Hall']. cbn.
  destruct (dbtree_remove _ _ _ s k0) as [r s'] eqn:Hr.
  pose proof (dbtree_remove_law _ _ _ s k0) as [Hv1 Hv2].
  rewrite Hr in Hv1, Hv2. cbn in Hv1, Hv2. rewrite IH; [|done|].
  - subst r. rewrite (bool_decide_true _ Hs). by rewrite !orb_true_r.
  - rewrite Forall_forall in *. intros k Hin.
    rewrite Hv2, lookup_delete_ne by congruence. auto.
Qed.

Lemma partial_range_NoDup s k1 : NoDup (partial_range s k1).*1.
Proof.
  rewrite partial_range_filter.
  eapply sublist_NoDup; [apply (sorted_entries_NoDup_keys (view s))|].
  apply fmap_sublist, sublist_filter.
Qed.

Lemma remove_partial_view s k1 :
  view (remove_partial s k1).2 = filter (fun kv => kv.1.1 <> k1) (view s).
Proof.
  apply map_eq. intros k. unfold remove_partial. rewrite remove_keys_view.
  case_decide as Hin; rewrite elem_of_partial_range in Hin; symmetry.
  - apply map_lookup_filter_None. naive_solver.
  - destruct (view s !! k) as [v|] eqn:Hk.
    + apply map_lookup_filter_Some. naive_solver.
    + apply map_lookup_filter_None. auto.
Qed.

Lemma remove_partial_found s k1 :
  (remove_partial s k1).1 = bool_decide (filter (fun kv => kv.1.1 = k1) (view s) <> ∅).
Proof.
  unfold remove_partial. rewrite remove_keys_found, orb_false_r.
  - rewrite <- bool_decide_not. apply bool_decide_ext, not_iff_compat.
    rewrite map_empty. setoid_rewrite map_lookup_filter_None. split.
    + intros Hnil k. right. intros v Hk Hk1.
      destruct (not_elem_of_nil k). rewrite <- Hnil.
      apply elem_of_partial_range. cbn in *. eauto.
    + intros Hnone. apply elem_of_nil_inv. intros k [Hk1 [v Hk]]%elem_of_partial_range.
      destruct (Hnone k) as [|Hn]; [congruence|]. by eapply Hn.
  - apply partial_range_NoDup.
  - apply Forall_forall. intros k [_ ?]%elem_of_partial_range. done.
Qed.

Lemma mm_range_entries s k1 :
  range s k1 =
    (fun kv => (kv.1.2, kv.2)) <$>
      filter (fun kv => kv.1.1 = k1) (sorted_entries (view s)).
Proof. unfold range. by rewrite partial_range_filter. Qed.

Lemma mm_iter_entries s : iter s = sorted_entries (view s).
Proof.
  unfold iter. rewrite (dbtree_iter_law _ _ _).
  induction (sorted_entries (view s)) as [|[[? ?] ?] ? IH]; cbn; [done|]. by rewrite IH.
Qed.

#[global] Instance multimap_structure_laws : MultimapStructureLaws t K1 K2 V.
Proof.
  refine {| mm_view (s : t) := view s; mm_ok _ := True |}; cbn; intros.
  - split_and!; [by apply (dbtree_get_law _ _ _)|done..].
  - destruct (dbtree_insert_law _ _ _ s (k1, k2) v). split_and!; done.
  - destruct (dbtree_remove_law _ _ _ s (k1, k2)). split_and!; done.
  - split_and!; [apply remove_partial_found|apply remove_partial_view|done].
  - destruct (dbtree_pop_first_law _ _ _ s) as [Hr Hv].
    rewrite (dbtree_iter_law _ _ _) in Hr, Hv. split_and!; done.
  - destruct (dbtree_pop_last_law _ _ _ s) as [Hr Hv].
    rewrite (dbtree_iter_law _ _ _) in Hr, Hv. split_and!; done.
  - apply (dbtree_len_law _ _ _).
  - unfold is_empty, len. rewrite (dbtree_len_law _ _ _).
    case_bool_decide as He; [by rewrite He, map_size_empty|].
    apply Z.eqb_neq. intros Hz. apply He, map_size_empty_inv. lia.
  - apply mm_range_entries.
  - apply mm_iter_entries.
  - split; [apply (dbtree_clear_new_law _ _ _)|done].
Defined.

Lemma mm_always_ok (s : t) : mm_ok t K1 K2 V s.
Proof. exact I. Qed.
End multimap.
End StableMultimap.

(** ** Properties *)

(** C15: Any sequence of calls on a [StableMultimap] answers what a mathematical map
    from pairs of keys answers: in particular [remove_partial] and [range] touch
    exactly the entries with the given first key, whatever bounds the second key
    type has, and [pop_first] and [pop_last] remove the least and the greatest
    pair. *)
Theorem multimap_refines_map {K1 K2 V M : Type}
    `{Countable K1, OrdKey K1, Countable K2, OrdKey K2, Bounded K2, !BoundedLaws K2,
      BTreeLib (K1 * K2) V M, !BTreeLaws (K1 * K2) V M}
    (s : StableMultimap.t (K1 := K1) (K2 := K2) (V := V) (M := M))
    (ops : list (mm_op K1 K2 V)) :
  let m := dbtree_view (K1 * K2) V M s in
  (run_calls mm_call s ops).1 = (run_calls mm_spec_call m ops).1 /\
  dbtree_view (K1 * K2) V M (run_calls mm_call s ops).2 = (run_calls mm_spec_call m ops).2.
Proof.
  destruct (mm_calls_spec (S := StableMultimap.t) s ops (StableMultimap.mm_always_ok s))
    as (Ha & Hv & _). by split.
Qed.

(** The 8-bit unsigned integers, for the witnesses. *)
Definition u8 (n : Z) (Hn : (0 <=? n) && (n <=? 2 ^ 8 - 1) = true) : UInt 8 := exist _ n Hn.

#[export] Instance u8_Bounded : Bounded (UInt 8) := Int_Bounded 0 (2 ^ 8 - 1) eq_refl.
#[export] Instance u8_BoundedLaws : BoundedLaws (UInt 8) :=
  Int_BoundedLaws 0 (2 ^ 8 - 1) eq_refl.

Definition demo_multimap : StableMultimap.t (K1 := Z) (K2 := UInt 8) (V := Z) (M := unit) := ∅.

Lemma multimap_refines_map_witness :
  let ops : list (mm_op Z (UInt 8) Z) :=
    [MmInsert 1 (u8 0 eq_refl) 10; MmInsert 1 (u8 255 eq_refl) 20;
     MmInsert 2 (u8 0 eq_refl) 30; MmRange 1; MmRemovePartial 1; MmRemovePartial 1; MmLen] in
  (run_calls mm_call demo_multimap ops).1 =
    [MmValue None; MmValue None; MmValue None;
     MmPairs [(u8 0 eq_refl, 10); (u8 255 eq_refl, 20)];
     MmBool true; MmBool false; MmCount 1].
Proof.
  intros ops.
  etrans; [apply (multimap_refines_map (M := unit) demo_multimap ops)|].
  vm_compute. reflexivity.
Defined.
