(* ===== verification/Cache.v ===== *)
(** * The LRU caches

    [structure/cache/{lru,btreemap,multimap}.rs]: [SyncLruCache] and the cached
    maps that put it in front of a stable map.  A cached map implements the same
    interface as the map behind it: the cache holds a subset of its entries. *)

From S2P Require Import Prelude StableLib Concrete Structure StableStorage Multimap.
Local Open Scope Z_scope.

(** ** SyncLruCache

    The [parking_lot::Mutex] is taken and released inside each method, so each
    method is one step on the map; [get] moves the entry to the head of the
    recency list and therefore returns a new cache. *)

Module SyncLruCache.
Section lru.
Context {K V : Type} `{LruLib K V}.

Definition t : Type := dlru K V.

Definition new (cap : Z) : t := dlru_new K V cap.
Definition len (s : t) : Z := dlru_len K V s.
Definition is_empty (s : t) : bool := dlru_is_empty K V s.
Definition insert (s : t) (key : K) (value : V) : t := dlru_insert K V s key value.
Definition get (s : t) (key : K) : option V * t := dlru_get K V s key.
Definition contains_key (s : t) (key : K) : bool * t :=
  let '(r, s') := dlru_get K V s key in (bool_decide (is_Some r), s').
Definition remove (s : t) (key : K) : option V * t := dlru_remove K V s key.
Definition clear (s : t) : t := dlru_clear K V s.

Definition get_or_try_insert_with {E} (s : t) (key : K) (f : K -> result (option V) E) :
    result (option V) E * t :=
  let '(r, s1) := get s key in
  match r with
  | Some v => (Ok (Some v), s1)
  | None =>
      match f key with
      | Err e => (Err e, s1)
      | Ok val =>
          (Ok val, match val with Some v => dlru_insert K V s1 key v | None => s1 end)
      end
  end.

(** The [Infallible] error makes the [unwrap] total. *)
Definition get_or_insert_with (s : t) (key : K) (f : K -> option V) : option V * t :=
  let '(r, s') := get_or_try_insert_with (E := Empty_set) s key (fun k => Ok (f k)) in
  (match r with Ok v => v | Err e => match e with end end, s').
End lru.
Arguments t K V {_}.

Section lru_lemmas.
Context {K V : Type} `{Countable K, LruLib K V, !LruLaws K V}.
Local Notation view := (dlru_view K V).
Implicit Types (s : t K V) (m : gmap K V).

(** [s] caches [m]: every cached entry is an entry of [m]. *)
Definition caches s m : Prop := view s ⊆ m.

Lemma caches_new cap m : caches (new cap) m.
Proof.
  unfold caches, new, t. destruct (dlru_new_law K V cap) as [-> _]. apply map_empty_subseteq.
Qed.

Lemma caches_clear s m : caches (clear s) m.
Proof.
  unfold caches, clear, t. destruct (dlru_clear_law K V s) as [-> _]. apply map_empty_subseteq.
Qed.

Lemma caches_insert s m k v : caches s m -> caches (insert s k v) (<[k := v]> m).
Proof.
  unfold caches, insert. intros Hs. destruct (dlru_insert_law K V s k v) as [Hi _].
  etrans; [exact Hi|]. by apply insert_mono.
Qed.

Lemma caches_remove s m k : caches s m -> caches (remove s k).2 (delete k m).
Proof.
  unfold caches, remove, t. intros Hs. destruct (dlru_remove_law K V s k) as (_ & -> & _).
  by apply delete_mono.
Qed.

Lemma caches_get s m k : caches s m -> caches (get s k).2 m.
Proof.
  unfold caches, get, t. intros Hs. by destruct (dlru_get_law K V s k) as (_ & -> & _).
Qed.

Lemma caches_contains_key s m k :
  caches s m -> caches (contains_key s k).2 m /\
    ((contains_key s k).1 = true -> is_Some (m !! k)).
Proof.
  intros Hs. pose proof (caches_get s m k Hs) as Hg.
  destruct (dlru_get_law K V s k) as (Hr & _ & _). unfold contains_key, get in *.
  destruct (dlru_get K V s k) as [r s']. cbn in *. split; [done|].
  intros [v ->]%bool_decide_eq_true. symmetry in Hr. exists v. by eapply lookup_weaken.
Qed.

(** Reading through the cache gives what the map holds. *)
Lemma get_or_insert_with_caches s m k f :
  caches s m -> f k = m !! k ->
  (get_or_insert_with s k f).1 = m !! k /\ caches (get_or_insert_with s k f).2 m.
Proof.
  intros Hs Hf. pose proof (caches_get s m k Hs) as Hg.
  destruct (dlru_get_law K V s k) as (Hr & _ & _).
  unfold get_or_insert_with, get_or_try_insert_with, get in *.
  destruct (dlru_get K V s k) as [[v|] s']; cbn in *.
  - split; [|done]. symmetry in Hr. symmetry. by eapply lookup_weaken.
  - rewrite Hf. split; [done|]. destruct (m !! k) as [v|] eqn:Hk; [|done].
    rewrite <- (insert_id m k v) by done. by apply caches_insert.
Qed.

Lemma caches_empty s m : caches s m -> m = ∅ -> is_empty s = true.
Proof.
  intros Hs ->. unfold is_empty.
  rewrite (dlru_is_empty_law K V), (dlru_len_law K V).
  assert (view s = ∅) as -> by 
    (apply (anti_symm (⊆)); [exact Hs|apply map_empty_subseteq]).
  by rewrite map_size_empty.
Qed.
End lru_lemmas.
End SyncLruCache.

(** ** CachedStableBTreeMap *)

Module CachedStableBTreeMap.
Section cached.
Context {K V M : Type} `{Countable K, OrdKey K, BTreeLib K V M, LruLib K V}.

Record t := { inner : StableBTreeMap.t K V M; cache : SyncLruCache.t K V }.

Definition with_map (inner : StableBTreeMap.t K V M) (max_cache_items : Z) : t :=
  {| inner := inner; cache := SyncLruCache.new max_cache_items |}.

Definition new (memory : M) (max_cache_items : Z) : t :=
  with_map (StableBTreeMap.new memory) max_cache_items.

Definition get (s : t) (key : K) : option V * t :=
  let '(r, c) := SyncLruCache.get_or_insert_with (cache s) key
                   (fun key => StableBTreeMap.get (inner s) key) in
  (r, {| inner := inner s; cache := c |}).

Definition insert (s : t) (key : K) (value : V) : option V * t :=
  let c := SyncLruCache.insert (cache s) key value in
  let '(r, i) := StableBTreeMap.insert (inner s) key value in
  (r, {| inner := i; cache := c |}).

Definition remove (s : t) (key : K) : option V * t :=
  let '(_, c) := SyncLruCache.remove (cache s) key in
  let '(r, i) := StableBTreeMap.remove (inner s) key in
  (r, {| inner := i; cache := c |}).

Definition len (s : t) : Z := StableBTreeMap.len (inner s).

Definition contains_key (s : t) (key : K) : bool * t :=
  let '(r, c) := SyncLruCache.contains_key (cache s) key in
  (r || StableBTreeMap.contains_key (inner s) key, {| inner := inner s; cache := c |}).

Definition is_empty (s : t) : bool :=
  SyncLruCache.is_empty (cache s) && StableBTreeMap.is_empty (inner s).

Definition clear (s : t) : t :=
  {| cache := SyncLruCache.clear (cache s); inner := StableBTreeMap.clear (inner s) |}.

Definition first_key_value (s : t) : option (K * V) :=
  StableBTreeMap.first_key_value (inner s).
Definition last_key_value (s : t) : option (K * V) :=
  StableBTreeMap.last_key_value (inner s).
Definition iter (s : t) : list (K * V) := StableBTreeMap.iter (inner s).
Definition range (s : t) (lo hi : key_bound K) : list (K * V) :=
  StableBTreeMap.range (inner s) lo hi.
Definition iter_upper_bound (s : t) (bound : K) : list (K * V) :=
  StableBTreeMap.iter_upper_bound (inner s) bound.

#[global] Instance map_structure : BTreeMapStructure t K V := {|
  map_get := get; map_insert := insert; map_remove := remove;
  map_contains_key := contains_key; map_first_key_value := first_key_value;
  map_last_key_value := last_key_value; map_len := len; map_is_empty := is_empty;
  map_clear := clear |}.

#[global] Instance sorted_map_structure : IterableSortedMapStructure t K V := {|
  map_iter := iter; map_range := range; map_iter_upper_bound := iter_upper_bound |}.

Context `{!BTreeLaws K V M, !LruLaws K V}.

Definition view (s : t) : gmap K V := dbtree_view K V M (inner s).

(** The cache never holds an entry the map does not hold. *)
Definition coherent (s : t) : Prop := SyncLruCache.caches (cache s) (view s).

Lemma map_get_coherent s k : coherent s ->
  (get s k).1 = view s !! k /\ view (get s k).2 = view s /\ coherent (get s k).2.
Proof.
  intros Hs. unfold coherent, view, get in *.
  destruct (SyncLruCache.get_or_insert_with_caches (cache s) (view s) k
    (fun key => StableBTreeMap.get (inner s) key)) as [Hr Hc]; [done| |].
  { apply (dbtree_get_law K V M). }
  destruct (SyncLruCache.get_or_insert_with _ _ _). naive_solver.
Qed.

Lemma map_insert_coherent s k v : coherent s ->
  (insert s k v).1 = view s !! k /\ view (insert s k v).2 = <[k := v]> (view s) /\
  coherent (insert s k v).2.
Proof.
  intros Hs. destruct (dbtree_insert_law K V M (inner s) k v) as [Hr Hv].
  unfold coherent, view, insert, StableBTreeMap.insert in *.
  destruct (dbtree_insert K V M (inner s) k v) as [r i]. cbn in *.
  rewrite Hv. split_and!; [done..|]. by apply SyncLruCache.caches_insert.
Qed.

Lemma map_remove_coherent s k : coherent s ->
  (remove s k).1 = view s !! k /\ view (remove s k).2 = delete k (view s) /\
  coherent (remove s k).2.
Proof.
  intros Hs. destruct (dbtree_remove_law K V M (inner s) k) as [Hr Hv].
  pose proof (SyncLruCache.caches_remove _ _ k Hs) as Hc.
  unfold coherent, view, remove, StableBTreeMap.remove in *.
  destruct (SyncLruCache.remove _ _) as [? c].
  destruct (dbtree_remove K V M (inner s) k) as [r i]. cbn in *. rewrite Hv. done.
Qed.

Lemma map_contains_key_coherent s k : coherent s ->
  (contains_key s k).1 = bool_decide (is_Some (view s !! k)) /\
  view (contains_key s k).2 = view s /\ coherent (contains_key s k).2.
Proof.
  intros Hs. destruct (SyncLruCache.caches_contains_key _ _ k Hs) as [Hc Hk].
  unfold coherent, view, contains_key in *.
  destruct (SyncLruCache.contains_key (cache s) k) as [[] c]; cbn in *.
  - split_and!; [|done..]. symmetry. apply bool_decide_eq_true. auto.
  - split_and!; [|done..]. apply (dbtree_contains_key_law K V M).
Qed.

Lemma map_is_empty_coherent s : coherent s -> is_empty s = bool_decide (view s = ∅).
Proof.
  intros Hs. unfold is_empty.
  pose proof (map_is_empty_law (StableBTreeMap.t K V M) K V (inner s) (StableBTreeMap.always_ok _)) as He. cbn in He. rewrite He.
  unfold view. case_bool_decide; [|by rewrite andb_false_r].
  by rewrite (SyncLruCache.caches_empty _ _ Hs).
Qed.

#[global] Instance map_structure_laws : BTreeMapStructureLaws t K V.
Proof.
  refine {| map_view := view; map_ok := coherent |}; cbn.
  - apply map_get_coherent.
  - apply map_insert_coherent.
  - apply map_remove_coherent.
  - apply map_contains_key_coherent.
  - intros s _. apply (map_first_law (StableBTreeMap.t K V M) K V (inner s) (StableBTreeMap.always_ok _)).
  - intros s _. apply (map_last_law (StableBTreeMap.t K V M) K V (inner s) (StableBTreeMap.always_ok _)).
  - intros s _. apply (dbtree_len_law K V M).
  - apply map_is_empty_coherent.
  - intros s _. split; [apply (dbtree_clear_new_law K V M)|].
    apply SyncLruCache.caches_clear.
Defined.

#[global] Instance sorted_map_structure_laws : IterableSortedMapStructureLaws t K V.
Proof.
  split; cbn; intros.
  - apply StableBTreeMap.iter_entries.
  - apply StableBTreeMap.range_entries.
  - apply StableBTreeMap.iter_upper_bound_entries.
Defined.
End cached.
Arguments t K V M {_ _}.
End CachedStableBTreeMap.

(** ** CachedStableMultimap *)

Module CachedStableMultimap.
Section cached.
Context {K1 K2 V M : Type}.
Context `{Countable K1, OrdKey K1, Countable K2, OrdKey K2, Bounded K2}.
Context `{BTreeLib (K1 * K2) V M, LruLib (K1 * K2) V}.

Local Notation inner_t := (StableMultimap.t (K1 := K1) (K2 := K2) (V := V) (M := M)).

Record t := { inner : inner_t; cache : SyncLruCache.t (K1 * K2) V }.

Definition with_map (inner : inner_t) (max_cache_items : Z) : t :=
  {| inner := inner; cache := SyncLruCache.new max_cache_items |}.

Definition new (memory : M) (max_cache_items : Z) : t :=
  with_map (StableMultimap.new memory) max_cache_items.

Definition get (s : t) (first_key : K1) (second_key : K2) : option V * t :=
  let key := (first_key, second_key) in
  let '(r, c) := SyncLruCache.get_or_insert_with (cache s) key
                   (fun _key => StableMultimap.get (inner s) first_key second_key) in
  (r, {| inner := inner s; cache := c |}).

Definition insert (s : t) (first_key : K1) (second_key : K2) (value : V) : option V * t :=
  let key := (first_key, second_key) in
  let c := SyncLruCache.insert (cache s) key value in
  let '(r, i) := StableMultimap.insert (inner s) first_key second_key value in
  (r, {| inner := i; cache := c |}).

Definition remove (s : t) (first_key : K1) (second_key : K2) : option V * t :=
  let key := (first_key, second_key) in
  let '(_, c) := SyncLruCache.remove (cache s) key in
  let '(r, i) := StableMultimap.remove (inner s) first_key second_key in
  (r, {| inner := i; cache := c |}).

Definition remove_partial (s : t) (first_key : K1) : bool * t :=
  let c := SyncLruCache.clear (cache s) in
  let '(r, i) := StableMultimap.remove_partial (inner s) first_key in
  (r, {| inner := i; cache := c |}).

(** The [?] returns before the cache is touched. *)
Definition pop_first (s : t) : option (K1 * K2 * V) * t :=
  let '(r, i) := StableMultimap.pop_first (inner s) in
  match r with
  | None => (None, {| inner := i; cache := cache s |})
  | Some res =>
      let '(_, c) := SyncLruCache.remove (cache s) (res.1.1, res.1.2) in
      (Some res, {| inner := i; cache := c |})
  end.

Definition pop_last (s : t) : option (K1 * K2 * V) * t :=
  let '(r, i) := StableMultimap.pop_last (inner s) in
  match r with
  | None => (None, {| inner := i; cache := cache s |})
  | Some res =>
      let '(_, c) := SyncLruCache.remove (cache s) (res.1.1, res.1.2) in
      (Some res, {| inner := i; cache := c |})
  end.

Definition len (s : t) : Z := StableMultimap.len (inner s).
Definition is_empty (s : t) : bool :=
  SyncLruCache.is_empty (cache s) && StableMultimap.is_empty (inner s).
Definition clear (s : t) : t :=
  {| cache := SyncLruCache.clear (cache s); inner := StableMultimap.clear (inner s) |}.
Definition range (s : t) (first_key : K1) : list (K2 * V) :=
  StableMultimap.range (inner s) first_key.
Definition iter (s : t) : list (K1 * K2 * V) := StableMultimap.iter (inner s).

#[global] Instance multimap_structure : MultimapStructure t K1 K2 V := {|
  mm_get := get; mm_insert := insert; mm_remove := remove;
  mm_remove_partial := remove_partial; mm_pop_first := pop_first; mm_pop_last := pop_last;
  mm_len := len; mm_is_empty := is_empty; mm_range := range; mm_iter := iter;
  mm_clear := clear |}.

Context `{!BoundedLaws K2, !BTreeLaws (K1 * K2) V M, !LruLaws (K1 * K2) V}.

Definition view (s : t) : gmap (K1 * K2) V := dbtree_view (K1 * K2) V M (inner s).

Definition coherent (s : t) : Prop := SyncLruCache.caches (cache s) (view s).

Lemma mm_get_coherent s k1 k2 : coherent s ->
  (get s k1 k2).1 = view s !! (k1, k2) /\
  view (get s k1 k2).2 = view s /\ coherent (get s k1 k2).2.
Proof.
  intros Hs. unfold coherent, view, get in *.
  destruct (SyncLruCache.get_or_insert_with_caches (cache s) (view s) (k1, k2)
    (fun _key => StableMultimap.get (inner s) k1 k2)) as [Hr Hc]; [done| |].
  { apply (dbtree_get_law (K1 * K2) V M). }
  destruct (SyncLruCache.get_or_insert_with _ _ _). naive_solver.
Qed.

Lemma mm_insert_coherent s k1 k2 v : coherent s ->
  (insert s k1 k2 v).1 = view s !! (k1, k2) /\
  view (insert s k1 k2 v).2 = <[(k1, k2) := v]> (view s) /\
  coherent (insert s k1 k2 v).2.
Proof.
  intros Hs. destruct (dbtree_insert_law (K1 * K2) V M (inner s) (k1, k2) v) as [Hr Hv].
  unfold coherent, view, insert, StableMultimap.insert in *.
  destruct (dbtree_insert _ _ _ (inner s) (k1, k2) v) as [r i]. cbn in *.
  rewrite Hv. split_and!; [done..|]. by apply SyncLruCache.caches_insert.
Qed.

Lemma mm_remove_coherent s k1 k2 : coherent s ->
  (remove s k1 k2).1 = view s !! (k1, k2) /\
  view (remove s k1 k2).2 = delete (k1, k2) (view s) /\ coherent (remove s k1 k2).2.
Proof.
  intros Hs. destruct (dbtree_remove_law (K1 * K2) V M (inner s) (k1, k2)) as [Hr Hv].
  pose proof (SyncLruCache.caches_remove _ _ (k1, k2) Hs) as Hc.
  unfold coherent, view, remove, StableMultimap.remove in *.
  destruct (SyncLruCache.remove _ _) as [? c].
  destruct (dbtree_remove _ _ _ (inner s) (k1, k2)) as [r i]. cbn in *. by rewrite Hv.
Qed.

Lemma mm_remove_partial_coherent s k1 : coherent s ->
  (remove_partial s k1).1 = bool_decide (filter (fun kv => kv.1.1 = k1) (view s) <> ∅) /\
  view (remove_partial s k1).2 = filter (fun kv => kv.1.1 <> k1) (view s) /\
  coherent (remove_partial s k1).2.
Proof.
  intros _. unfold view, coherent, remove_partial.
  rewrite <- StableMultimap.remove_partial_found, <- StableMultimap.remove_partial_view.
  destruct (StableMultimap.remove_partial _ _). cbn. split_and!; [done..|].
  apply SyncLruCache.caches_clear.
Qed.

(** [pop_first] and [pop_last] drop the popped key from the cache. *)
Lemma mm_pop_coherent (s : t) r i :
  coherent s ->
  dbtree_view (K1 * K2) V M i = delete_entry _ _ _ r (view s) ->
  SyncLruCache.caches
    match r with
    | None => cache s
    | Some res => (SyncLruCache.remove (cache s) (res.1.1, res.1.2)).2
    end (dbtree_view (K1 * K2) V M i).
Proof.
  intros Hs ->. destruct r as [[[k1 k2] v]|]; cbn; [|done].
  by apply SyncLruCache.caches_remove.
Qed.

Lemma mm_pop_first_coherent s : coherent s ->
  (pop_first s).1 = head (sorted_entries (view s)) /\
  view (pop_first s).2 = delete_entry _ _ _ (head (sorted_entries (view s))) (view s) /\
  coherent (pop_first s).2.
Proof.
  intros Hs. destruct (dbtree_pop_first_law (K1 * K2) V M (inner s)) as [Hr Hv].
  rewrite (dbtree_iter_law (K1 * K2) V M) in Hr, Hv.
  pose proof (mm_pop_coherent s (head (sorted_entries (view s)))
    (dbtree_pop_first _ _ _ (inner s)).2 Hs Hv) as Hc.
  unfold pop_first, StableMultimap.pop_first, coherent, view in *.
  destruct (dbtree_pop_first _ _ _ (inner s)) as [r i]. cbn in *. rewrite <- Hr in *.
  destruct r as [[[k1 k2] v]|]; [|done]. cbn in *.
  by destruct (SyncLruCache.remove (cache s) (k1, k2)).
Qed.

Lemma mm_pop_last_coherent s : coherent s ->
  (pop_last s).1 = last (sorted_entries (view s)) /\
  view (pop_last s).2 = delete_entry _ _ _ (last (sorted_entries (view s))) (view s) /\
  coherent (pop_last s).2.
Proof.
  intros Hs. destruct (dbtree_pop_last_law (K1 * K2) V M (inner s)) as [Hr Hv].
  rewrite (dbtree_iter_law (K1 * K2) V M) in Hr, Hv.
  pose proof (mm_pop_coherent s (last (sorted_entries (view s)))
    (dbtree_pop_last _ _ _ (inner s)).2 Hs Hv) as Hc.
  unfold pop_last, StableMultimap.pop_last, coherent, view in *.
  destruct (dbtree_pop_last _ _ _ (inner s)) as [r i]. cbn in *. rewrite <- Hr in *.
  destruct r as [[[k1 k2] v]|]; [|done]. cbn in *.
  by destruct (SyncLruCache.remove (cache s) (k1, k2)).
Qed.

Lemma mm_is_empty_coherent s : coherent s -> is_empty s = bool_decide (view s = ∅).
Proof.
  intros Hs. unfold is_empty, StableMultimap.is_empty, StableMultimap.len.
  rewrite (dbtree_len_law (K1 * K2) V M). case_bool_decide as He.
  - rewrite (SyncLruCache.caches_empty _ _ Hs) by done. fold (view s).
    by rewrite He, map_size_empty.
  - apply andb_false_intro2, Z.eqb_neq. intros Hz. apply He, map_size_empty_inv.
    unfold view. lia.
Qed.

#[global] Instance multimap_structure_laws : MultimapStructureLaws t K1 K2 V.
Proof.
  refine {| mm_view := view; mm_ok := coherent |}; cbn.
  - apply mm_get_coherent.
  - apply mm_insert_coherent.
  - apply mm_remove_coherent.
  - apply mm_remove_partial_coherent.
  - apply mm_pop_first_coherent.
  - apply mm_pop_last_coherent.
  - intros. apply (dbtree_len_law (K1 * K2) V M).
  - apply mm_is_empty_coherent.
  - intros. apply StableMultimap.mm_range_entries.
  - intros. apply StableMultimap.mm_iter_entries.
  - intros. split; [apply (dbtree_clear_new_law (K1 * K2) V M)|].
    apply SyncLruCache.caches_clear.
Defined.
End cached.
End CachedStableMultimap.

(** ** Properties *)

(** C8: The LRU cache in front of a stable map is transparent: whatever the
    capacity of the cache and whatever it evicts, any sequence of calls on a
    [CachedStableBTreeMap] over a map answers what the same calls on the map
    itself answer, which is what a mathematical map answers, and leaves the same
    entries behind. *)
Theorem cached_btreemap_transparent {K V M : Type}
    `{Countable K, OrdKey K, BTreeLib K V M, !BTreeLaws K V M, LruLib K V, !LruLaws K V}
    (inner : StableBTreeMap.t K V M) (max_cache_items : Z) (ops : list (map_op K V)) :
  let cached := CachedStableBTreeMap.with_map inner max_cache_items in
  (map_calls cached ops).1 = (map_calls inner ops).1 /\
  (map_calls cached ops).1 = (spec_calls (dbtree_view K V M inner) ops).1 /\
  dbtree_view K V M (CachedStableBTreeMap.inner (map_calls cached ops).2) =
    dbtree_view K V M (map_calls inner ops).2.
Proof.
  intros cached.
  assert (Hc : map_ok (CachedStableBTreeMap.t K V M) K V cached)
    by apply SyncLruCache.caches_new.
  destruct (map_calls_spec cached ops Hc) as (Ha & Hv & _).
  destruct (map_calls_spec inner ops (StableBTreeMap.always_ok inner)) as (Ha' & Hv' & _).
  split_and!; [etrans; [exact Ha|symmetry; exact Ha']|exact Ha|]. etrans; [exact Hv|]. symmetry. exact Hv'.
Qed.

Lemma cached_btreemap_transparent_witness :
  let inner : StableBTreeMap.t Z Z unit := (∅ : gmap Z Z) in
  let ops := [OpInsert 1 10; OpInsert 2 20; OpGet 1; OpInsert 3 30; OpGet 1; OpRemove 2;
              OpGet 2; OpContainsKey 3; OpLast; OpLen; OpClear; OpGet 3; OpIsEmpty] in
  (map_calls (CachedStableBTreeMap.with_map inner 2) ops).1 =
    [AnsValue None; AnsValue None; AnsValue (Some 10); AnsValue None; AnsValue (Some 10);
     AnsValue (Some 20); AnsValue None; AnsBool true; AnsEntry (Some (3, 30)); AnsLen 2;
     AnsUnit; AnsValue None; AnsBool true].
Proof.
  intros inner ops.
  destruct (cached_btreemap_transparent inner 2 ops) as (_ & Hs & _).
  etrans; [exact Hs|]. vm_compute. reflexivity.
Defined.

(** The same for [CachedStableMultimap] over a [StableMultimap]; in particular
    [remove_partial], which drops the whole cache, and [pop_first] and [pop_last],
    which drop the popped key, leave no stale value behind. *)
Theorem cached_multimap_transparent {K1 K2 V M : Type}
    `{Countable K1, OrdKey K1, Countable K2, OrdKey K2, Bounded K2, !BoundedLaws K2,
      BTreeLib (K1 * K2) V M, !BTreeLaws (K1 * K2) V M,
      LruLib (K1 * K2) V, !LruLaws (K1 * K2) V}
    (inner : StableMultimap.t (K1 := K1) (K2 := K2) (V := V) (M := M))
    (max_cache_items : Z) (ops : list (mm_op K1 K2 V)) :
  let cached := CachedStableMultimap.with_map inner max_cache_items in
  (run_calls mm_call cached ops).1 = (run_calls mm_call inner ops).1 /\
  (run_calls mm_call cached ops).1 =
    (run_calls mm_spec_call (dbtree_view (K1 * K2) V M inner) ops).1 /\
  dbtree_view (K1 * K2) V M (CachedStableMultimap.inner (run_calls mm_call cached ops).2) =
    dbtree_view (K1 * K2) V M (run_calls mm_call inner ops).2.
Proof.
  intros cached.
  assert (Hc : mm_ok CachedStableMultimap.t K1 K2 V cached)
    by apply SyncLruCache.caches_new.
  destruct (mm_calls_spec cached ops Hc) as (Ha & Hv & _).
  destruct (mm_calls_spec inner ops (StableMultimap.mm_always_ok inner)) as (Ha' & Hv' & _).
  split_and!; [etrans; [exact Ha|symmetry; exact Ha']|exact Ha|].
  etrans; [exact Hv|]. symmetry. exact Hv'.
Qed.

Lemma cached_multimap_transparent_witness :
  let ops : list (mm_op Z (UInt 8) Z) :=
    [MmInsert 1 (u8 0 eq_refl) 10; MmInsert 1 (u8 7 eq_refl) 20; MmGet 1 (u8 7 eq_refl);
     MmPopLast; MmGet 1 (u8 7 eq_refl); MmRemovePartial 1; MmGet 1 (u8 0 eq_refl)] in
  (run_calls mm_call (CachedStableMultimap.with_map demo_multimap 1) ops).1 =
    [MmValue None; MmValue None; MmValue (Some 20); MmEntry (Some (1, u8 7 eq_refl, 20));
     MmValue None; MmBool true; MmValue None].
Proof.
  intros ops.
  destruct (cached_multimap_transparent demo_multimap 1 ops) as (_ & Hs & _).
  etrans; [exact Hs|]. vm_compute. reflexivity.
Defined.

(** [get_or_try_insert_with] calls the closure only when the key is not cached;
    a failing closure returns its error and leaves the cached entries as they
    were, and the cache never exceeds its capacity. *)
Theorem lru_get_or_try_insert_with_spec {K V E : Type} `{Countable K, LruLib K V, !LruLaws K V}
    (s : SyncLruCache.t K V) (k : K) (f : K -> result (option V) E) :
  let '(r, s') := SyncLruCache.get_or_try_insert_with s k f in
  r = match dlru_view K V s !! k with Some v => Ok (Some v) | None => f k end /\
  (is_ok r = false -> dlru_view K V s' = dlru_view K V s) /\
  (0 <= dlru_cap K V s -> SyncLruCache.len s' <= dlru_cap K V s).
Proof.
  destruct (dlru_get_law K V s k) as (Hr & Hv & Hc).
  unfold SyncLruCache.get_or_try_insert_with, SyncLruCache.get, SyncLruCache.len.
  destruct (dlru_get K V s k) as [o s1]. cbn in *. rewrite <- Hr.
  assert (Hb : forall c, dlru_cap K V c = dlru_cap K V s -> 0 <= dlru_cap K V s ->
    dlru_len K V c <= dlru_cap K V s).
  { intros c <-. apply (dlru_bounded K V). }
  destruct o as [v|]; [split_and!; auto; done|].
  destruct (f k) as [[v|]|e]; split_and!; auto; try done.
  apply Hb. destruct (dlru_insert_law K V s1 k v) as [_ ->]. exact Hc.
Qed.

Lemma lru_get_or_try_insert_with_spec_witness :
  let s : SyncLruCache.t Z Z := SyncLruCache.insert (SyncLruCache.new 1) 1 10 in
  (SyncLruCache.get_or_try_insert_with s 2 (fun _ => Err tt)).1 = Err tt /\
  SyncLruCache.len (SyncLruCache.get_or_try_insert_with (E := unit) s 2 (fun k => Ok (Some k))).2
    <= 1.
Proof.
  intros s. split.
  - pose proof (lru_get_or_try_insert_with_spec s 2 (fun _ => Err tt)) as Hs.
    destruct (SyncLruCache.get_or_try_insert_with s 2 _). exact (proj1 Hs).
  - pose proof (lru_get_or_try_insert_with_spec (E := unit) s 2 (fun k => Ok (Some k))) as Hs.
    destruct (SyncLruCache.get_or_try_insert_with s 2 _).
    destruct Hs as (_ & _ & Hs). apply Hs. cbn. lia.
Defined.
