(* ===== verification/RingBuffer.v ===== *)
(** * StableRingBuffer

    [structure/common/ring_buffer.rs]: the indices of a ring buffer, their
    24-byte serialization, and the buffer over a stable vector and a stable cell,
    used through the [VecStructure] and [CellStructure] interfaces.  The buffer
    refines a bounded queue that drops its oldest element when it is full. *)

From S2P Require Import Prelude StableLib Concrete Structure StableStorage.
Local Open Scope Z_scope.

(** ** StableRingBufferIndices *)

Module Indices.

Record t := mk {
  start : Z;     (** index of the first element, [u64] *)
  len : Z;       (** number of elements, [u64] *)
  capacity : Z;  (** capacity of the buffer, [NonZeroU64] *)
}.

#[export] Instance t_eq_dec : EqDecision t.
Proof. solve_decision. Defined.

Definition new (capacity : Z) : t := {| start := 0; len := 0; capacity := capacity |}.

Section ops.
Context `{Target}.

Definition offset_to_index (self : t) (offset : Z) : outcome Z :=
  i ← u_add 64 (start self) offset; u_rem i (capacity self).

(** [then_some] takes its argument by value: the index is computed, and may
    overflow, before the bound is known to hold. *)
Definition nth_element (self : t) (n : Z) : outcome (option Z) :=
  i ← u_add 64 (start self) n;
  i ← u_rem i (capacity self);
  Ret (if n <? len self then Some i else None).

Definition nth_element_from_end (self : t) (index : Z) : outcome (option Z) :=
  k ← u_add 64 index 1;
  match checked_sub 64 (len self) k with
  | None => Ret None
  | Some index_from_start => nth_element self index_from_start
  end.

Definition increase_len (self : t) (by_ : Z) : outcome t :=
  n ← u_add 64 (len self) by_;
  Ret {| start := start self; len := Z.min n (capacity self); capacity := capacity self |}.

Definition decrease_len (self : t) (arg : Z) : t :=
  {| start := start self; len := saturating_sub (len self) arg; capacity := capacity self |}.

Definition increase_start (self : t) (by_ : Z) : outcome t :=
  s ← offset_to_index self by_;
  Ret {| start := s; len := len self; capacity := capacity self |}.

Definition is_empty (self : t) : bool := len self =? 0.
End ops.

(** *** Serialization: three little-endian [u64]s *)

Definition STABLE_RING_BUFFER_INDICES_SIZE : Z := 3 * 8.

Definition to_bytes (self : t) : list Z :=
  to_le_bytes 8 (start self) ++ to_le_bytes 8 (len self) ++ to_le_bytes 8 (capacity self).

(** [&bytes[lo..hi]], which panics when the slice is out of range. *)
Definition slice (bs : list Z) (lo hi : nat) : outcome (list Z) :=
  if decide (lo <= hi <= length bs)%nat then Ret (take (hi - lo) (drop lo bs)) else Panic.

Definition from_bytes (bytes : list Z) : outcome t :=
  s ← slice bytes 0 8;
  l ← slice bytes 8 16;
  c ← slice bytes 16 24;
  Ret {| start := from_le_bytes s; len := from_le_bytes l; capacity := from_le_bytes c |}.

(** The fields of an index record are [u64]s. *)
Definition in_u64 (i : t) : Prop :=
  0 <= start i < 2 ^ 64 /\ 0 <= len i < 2 ^ 64 /\ 0 <= capacity i < 2 ^ 64.

(** Index records that describe a ring: a non-zero capacity (at most [2^63], so
    that [start + len] fits a [u64]), a start and a length within it. *)
Definition valid (i : t) : Prop :=
  1 <= capacity i <= 2 ^ 63 /\ 0 <= start i < capacity i /\ 0 <= len i <= capacity i.

(** The vector index of the [n]-th element. *)
Definition index (i : t) (n : Z) : Z := (start i + n) mod capacity i.

Lemma valid_in_u64 i : valid i -> in_u64 i.
Proof. unfold valid, in_u64. pow2. lia. Qed.

Lemma new_valid cap : 1 <= cap <= 2 ^ 63 -> valid (new cap).
Proof. unfold valid, new. cbn. lia. Qed.

Lemma index_range i n : valid i -> 0 <= index i n < capacity i.
Proof. unfold valid, index. intros. apply Z.mod_pos_bound. lia. Qed.

(** The ring positions of different offsets are different. *)
Lemma index_inj i m n :
  valid i -> 0 <= m < capacity i -> 0 <= n < capacity i -> index i m = index i n -> m = n.
Proof.
  unfold valid, index. intros Hv Hm Hn Heq.
  pose proof (Z.div_mod (start i + m) (capacity i)) as Hdm.
  pose proof (Z.div_mod (start i + n) (capacity i)) as Hdn.
  set (q1 := (start i + m) / capacity i) in *. set (q2 := (start i + n) / capacity i) in *.
  assert (m - n = capacity i * (q1 - q2)) by lia.
  assert (q1 - q2 = 0) by nia. nia.
Qed.

Lemma index_start_0 i n : start i = 0 -> 0 <= n < capacity i -> index i n = n.
Proof. unfold index. intros -> Hn. rewrite Z.mod_small; lia. Qed.

Section lemmas.
Context `{Target}.

Lemma offset_to_index_ok i n :
  valid i -> 0 <= n <= capacity i -> offset_to_index i n = Ret (index i n).
Proof.
  unfold valid, offset_to_index, index. intros Hv Hn.
  rewrite u_add_ok by (pow2; lia). cbn. apply u_rem_ok. lia.
Qed.

Lemma nth_element_ok i n :
  valid i -> 0 <= n -> start i + n < 2 ^ 64 ->
  nth_element i n = Ret (if n <? len i then Some (index i n) else None).
Proof.
  unfold valid, nth_element, index. intros Hv Hn Hov.
  rewrite u_add_ok by lia. cbn. rewrite u_rem_ok by lia. done.
Qed.

Lemma nth_element_from_end_ok i n :
  valid i -> 0 <= n < 2 ^ 64 - 1 ->
  nth_element_from_end i n =
    Ret (if n <? len i then Some (index i (len i - (n + 1))) else None).
Proof.
  unfold nth_element_from_end. intros Hv Hn.
  rewrite u_add_ok by lia. cbn. unfold checked_sub.
  destruct (checked 64 (len i - (n + 1))) as [k|] eqn:Hc.
  - apply checked_Some in Hc as [-> Hk]. pose proof Hv as (Hc & Hs & Hl).
    rewrite nth_element_ok; [|done|lia|pow2; lia].
    by case_bools; [|lia..].
  - apply checked_None in Hc. destruct Hv as (? & ? & ?). pow2.
    by case_bools; [lia|].
Qed.

Lemma increase_len_ok i n :
  valid i -> 0 <= n -> len i + n <= capacity i ->
  increase_len i n = Ret {| start := start i; len := len i + n; capacity := capacity i |}.
Proof.
  unfold valid, increase_len. intros. rewrite u_add_ok by (pow2; lia). cbn.
  by rewrite Z.min_l by lia.
Qed.

Lemma increase_start_ok i n :
  valid i -> 0 <= n <= capacity i ->
  increase_start i n = Ret {| start := index i n; len := len i; capacity := capacity i |}.
Proof. intros. unfold increase_start. by rewrite offset_to_index_ok. Qed.
End lemmas.
End Indices.

(** ** StableRingBuffer *)

Module StableRingBuffer.
Section ring_buffer.
Context `{Target} {T D C : Type}.
Context `{VecStructure D T, CellStructure C Indices.t}.

Record t := mk { data : D; indices : C }.

Definition new_with (data : D) (indices : C) : t := mk data indices.

(** The closure works on a clone of the indices, which are then written back. *)
Definition with_indices_data_mut {R} (self : t)
    (f : Indices.t -> D -> outcome (R * Indices.t * D)) : outcome (R * t) :=
  '(result, i, d) ← f (cell_get (indices self)) (data self);
  let '(r, c) := cell_set (indices self) i in
  _ ← expect_ok r;
  Ret (result, mk d c).

Definition clear (self : t) : outcome (unit * t) :=
  with_indices_data_mut self (fun indices data =>
    (* [NonZeroU64::try_from(capacity).expect(..)] *)
    if Indices.capacity indices =? 0 then Panic else
    '(r, data) ← vec_clear data;
    _ ← expect_ok r;
    Ret (tt, Indices.new (Indices.capacity indices), data)).

Definition len (self : t) : Z := Indices.len (cell_get (indices self)).
Definition is_empty (self : t) : bool := Indices.len (cell_get (indices self)) =? 0.
Definition capacity (self : t) : Z := Indices.capacity (cell_get (indices self)).

(** The closure of [map] in [resize]. *)
Definition element_from_end (indices : Indices.t) (data : D) (offset : Z) : outcome T :=
  o ← Indices.nth_element_from_end indices offset;
  idx ← expect o;
  e ← vec_get data idx;
  expect e.

Fixpoint collect {A B} (f : A -> outcome B) (l : list A) : outcome (list B) :=
  match l with
  | [] => Ret []
  | x :: l => y ← f x; ys ← collect f l; Ret (y :: ys)
  end.

Fixpoint push_all (elements : list T) (data : D) : outcome D :=
  match elements with
  | [] => Ret data
  | element :: elements =>
      '(r, data) ← vec_push data element;
      _ ← expect_ok r;
      push_all elements data
  end.

Definition resize (self : t) (new_capacity : Z) : outcome (unit * t) :=
  with_indices_data_mut self (fun indices data =>
    if new_capacity =? Indices.capacity indices then Ret (tt, indices, data) else
    let elements_to_copy := Z.min (Indices.len indices) new_capacity in
    elements ← collect (element_from_end indices data) (reverse (seqZ 0 elements_to_copy));
    '(r, data) ← vec_clear data;
    _ ← expect_ok r;
    data ← push_all elements data;
    indices ← Indices.increase_len (Indices.new new_capacity) elements_to_copy;
    Ret (tt, indices, data)).

Definition push (self : t) (val : T) : outcome (option T * t) :=
  with_indices_data_mut self (fun indices data =>
    new_index ← Indices.offset_to_index indices (Indices.len indices);
    '(replaced, indices) ←
      (if Indices.len indices =? Indices.capacity indices then
         indices ← Indices.increase_start indices 1;
         e ← vec_get data new_index;
         e ← expect e;
         Ret (Some e, indices)
       else
         indices ← Indices.increase_len indices 1;
         Ret (None, indices));
    n ← vec_len data;
    '(r, data) ← (if new_index =? n then vec_push data val else vec_set data new_index val);
    _ ← expect_ok r;
    Ret (replaced, indices, data)).

Definition pop (self : t) : outcome (option T * t) :=
  with_indices_data_mut self (fun indices data =>
    match checked_sub 64 (Indices.len indices) 1 with
    | None => Ret (None, indices, data)
    | Some new_len =>
        let indices := Indices.decrease_len indices 1 in
        index ← Indices.offset_to_index indices new_len;
        e ← vec_get data index;
        Ret (e, indices, data)
    end).

Definition truncate (self : t) (n : Z) : outcome (unit * t) :=
  with_indices_data_mut self (fun indices data =>
    Ret (tt, Indices.decrease_len indices n, data)).

Definition nth_element (self : t) (n : Z) : outcome (option T) :=
  o ← Indices.nth_element (cell_get (indices self)) n;
  match o with None => Ret None | Some index => vec_get (data self) index end.

Definition nth_element_from_end (self : t) (n : Z) : outcome (option T) :=
  o ← Indices.nth_element_from_end (cell_get (indices self)) n;
  match o with None => Ret None | Some index => vec_get (data self) index end.

Definition first (self : t) : outcome (option T) := nth_element self 0.
Definition last (self : t) : outcome (option T) := nth_element_from_end self 0.
End ring_buffer.
Arguments t D C : clear implicits.

(** [StableRingBuffer::new], on the stable structures it is declared with. *)
Definition new {T M1 M2 : Type} `{VecLib T M1, CellLib Indices.t M2}
    (data_memory : M1) (indices_memory : M2) (default_history_size : Z) :
    result (t (StableVec.t T M1) (StableCell.t Indices.t M2)) Error :=
  match StableVec.new data_memory with
  | Err e => Err e
  | Ok data =>
      match StableCell.new indices_memory (Indices.new default_history_size) with
      | Err e => Err e
      | Ok indices => Ok (mk data indices)
      end
  end.
End StableRingBuffer.

(** ** The abstract bounded queue *)

Module Queue.
Section queue.
Context {T : Type}.

Record t := mk { cap : Z; items : list T }.

Definition empty (cap : Z) : t := mk cap [].

(** A full queue drops, and returns, its oldest element. *)
Definition push (q : t) (x : T) : option T * t :=
  if zlength (items q) =? cap q
  then (head (items q), mk (cap q) (tail (items q) ++ [x]))
  else (None, mk (cap q) (items q ++ [x])).

Definition pop (q : t) : option T * t :=
  (list.last (items q), mk (cap q) (take (length (items q) - 1) (items q))).

Definition truncate (q : t) (n : Z) : t :=
  mk (cap q) (take (Z.to_nat (zlength (items q) - n)) (items q)).

Definition clear (q : t) : t := mk (cap q) [].

(** Shrinking keeps the newest elements. *)
Definition resize (q : t) (new_cap : Z) : t :=
  mk new_cap (drop (length (items q) - Z.to_nat new_cap) (items q)).
End queue.
Arguments t : clear implicits.
End Queue.

(** ** Refinement *)

Module Refinement.
Import StableRingBuffer Indices.
Section refinement.
Context `{Target} {T D C : Type}.
Context `{VecStructureLaws D T, CellStructureLaws C Indices.t}.
Implicit Types (rb : StableRingBuffer.t D C) (q : Queue.t T).

(** Where the data vector stands: it grows up to the capacity before the ring
    wraps for the first time. *)
Definition layout (i : Indices.t) (vs : list T) : Prop :=
  Indices.valid i /\ zlength vs <= capacity i /\
  (zlength vs < capacity i -> start i = 0 /\ Indices.len i <= zlength vs).

(** The vector slots of the ring hold the queue, in order. *)
Definition holds (i : Indices.t) (vs items : list T) : Prop :=
  zlength items = Indices.len i /\
  forall k, 0 <= k < Indices.len i -> zlookup vs (index i k) = zlookup items k.

(** [rep N rb q]: the buffer [rb], whose memory can hold [N] items, represents
    the queue [q]. *)
Definition rep (N : nat) rb q : Prop :=
  let i := cell_get (indices rb) in
  layout i (vec_items (data rb)) /\
  holds i (vec_items (data rb)) (Queue.items q) /\
  Indices.capacity i = Queue.cap q /\ Queue.cap q <= Z.of_nat N /\
  Forall vec_storable (Queue.items q) /\
  vec_ok N (data rb) /\
  (forall i', in_u64 i' -> cell_accepts (indices rb) i').

(** A closure that leaves a valid state behind. *)
Lemma with_indices_data_mut_ok {R} N rb f (r : R) i' d' q' :
  (forall i, in_u64 i -> cell_accepts (indices rb) i) ->
  f (cell_get (indices rb)) (data rb) = Ret (r, i', d') ->
  layout i' (vec_items d') -> holds i' (vec_items d') (Queue.items q') ->
  Indices.capacity i' = Queue.cap q' -> Queue.cap q' <= Z.of_nat N ->
  Forall vec_storable (Queue.items q') -> vec_ok N d' ->
  exists rb', with_indices_data_mut rb f = Ret (r, rb') /\ rep N rb' q'.
Proof.
  intros Hacc Hf Hl Hh Hc HN Hst Hok. unfold with_indices_data_mut. rewrite Hf. cbn.
  pose proof Hl as [Hv _]. apply valid_in_u64 in Hv.
  destruct (cell_set_ok (indices rb) i' (Hacc _ Hv)) as (Hr & Hg & Hac).
  destruct (cell_set (indices rb) i') as [r' c]. cbn in *. subst r'. cbn.
  eexists. split; [done|]. unfold rep. cbn. rewrite Hg. naive_solver.
Qed.

Lemma layout_full_length i vs :
  layout i vs -> Indices.len i = capacity i -> zlength vs = capacity i.
Proof. unfold layout, valid. intros. lia. Qed.

(** An occupied slot is inside the vector. *)
Lemma layout_slot i vs k :
  layout i vs -> 0 <= k < Indices.len i -> 0 <= index i k < zlength vs.
Proof.
  intros (Hv & Hle & Hgrow) Hk. pose proof (index_range i k Hv).
  destruct (decide (zlength vs < capacity i)) as [Hlt|]; [|lia].
  destruct (Hgrow Hlt) as [Hs Hn]. unfold valid in Hv.
  rewrite index_start_0; lia.
Qed.

Lemma holds_insert_other i vs items j x :
  holds i vs items -> 0 <= j ->
  (forall k, 0 <= k < Indices.len i -> index i k <> j) ->
  holds i (<[Z.to_nat j := x]> vs) items.
Proof.
  intros [Hlen Hs] Hj Hne. split; [done|]. intros k Hk.
  rewrite zlookup_insert_ne; [by apply Hs|lia|]. specialize (Hne k Hk). congruence.
Qed.

Lemma holds_app i vs items x :
  layout i vs -> holds i vs items -> holds i (vs ++ [x]) items.
Proof.
  intros Hl [Hlen Hs]. split; [done|]. intros k Hk.
  pose proof (layout_slot i vs k Hl Hk).
  rewrite zlookup_app_l by lia. auto.
Qed.

(** One more element, whose slot already holds it. *)
Lemma holds_snoc i vs items x :
  holds i vs items -> zlookup vs (index i (Indices.len i)) = Some x ->
  holds {| start := start i; len := Indices.len i + 1; capacity := capacity i |}
    vs (items ++ [x]).
Proof.
  intros [Hlen Hs] Hx. split; cbn.
  { rewrite zlength_app. unfold zlength in *. cbn. lia. }
  intros k Hk. destruct (decide (k = Indices.len i)) as [->|].
  - etrans; [exact Hx|]. rewrite <- Hlen. symmetry. apply zlookup_app_last.
  - rewrite zlookup_app_l by lia. rewrite <- Hs by lia. done.
Qed.

(** The oldest element leaves: the ring starts one slot later. *)
Lemma index_rotate i k :
  valid i ->
  index {| start := index i 1; len := Indices.len i; capacity := capacity i |} k =
    index i (k + 1).
Proof.
  unfold valid, index. cbn. intros. rewrite Z.add_mod_idemp_l by lia. f_equal. lia.
Qed.

Lemma rotate_valid i :
  valid i -> valid {| start := index i 1; len := Indices.len i; capacity := capacity i |}.
Proof. intros Hv. pose proof (index_range i 1 Hv). unfold valid in *. cbn. lia. Qed.

Lemma index_wrap i k : index i (k + capacity i) = index i k.
Proof.
  unfold index. rewrite <- (Z_mod_plus_full (start i + k) 1). f_equal. lia.
Qed.

Lemma zlookup_tail (l : list T) k : 0 <= k -> zlookup (tail l) k = zlookup l (k + 1).
Proof.
  intros. rewrite !zlookup_nonneg by lia. replace (Z.to_nat (k + 1)) with (S (Z.to_nat k)) by lia.
  by destruct l; cbn; rewrite ?lookup_nil.
Qed.

Lemma holds_rotate i vs items x :
  layout i vs -> Indices.len i = capacity i -> holds i vs items ->
  holds {| start := index i 1; len := Indices.len i; capacity := capacity i |}
    (<[Z.to_nat (index i 0) := x]> vs) (tail items ++ [x]).
Proof.
  intros Hl Hfull [Hlen Hs]. pose proof Hl as [Hv _]. pose proof Hv as (Hc & _ & _).
  assert (Hd : zlength (tail items) = capacity i - 1).
  { destruct items; unfold zlength in *; cbn in *; lia. }
  split; cbn; [rewrite zlength_app, Hd, zlength_singleton; lia|].
  intros k Hk. rewrite index_rotate by done.
  pose proof (index_range i 0 Hv).
  destruct (decide (k = capacity i - 1)) as [->|].
  - replace (capacity i - 1 + 1) with (0 + capacity i) by lia. rewrite index_wrap.
    rewrite zlookup_insert_eq by (apply layout_slot; [done|lia]).
    rewrite <- Hd. symmetry. apply zlookup_app_last.
  - rewrite zlookup_app_l, zlookup_tail by lia.
    rewrite zlookup_insert_ne; [apply Hs; lia|lia|].
    intros Heq. apply index_inj in Heq; [lia|done|lia..].
Qed.

(** *** Helper lemmas on the data vector *)

Lemma collect_ok {A B} (f : A -> outcome B) l ys :
  Forall2 (fun x y => f x = Ret y) l ys -> collect f l = Ret ys.
Proof. induction 1 as [|x y l ys Hx _ IH]; cbn; [done|]. by rewrite Hx; cbn; rewrite IH. Qed.

Lemma push_all_ok N d es :
  vec_ok N d -> Forall vec_storable es ->
  (length (vec_items d) + length es <= N)%nat ->
  exists d', push_all es d = Ret d' /\ vec_items d' = vec_items d ++ es /\ vec_ok N d'.
Proof.
  intros Hok Hst. revert d Hok. induction Hst as [|x es Hx _ IH]; intros d Hok Hn; cbn in *.
  { exists d. by rewrite app_nil_r. }
  destruct (vec_push_ok N d x) as (d1 & Hp & Hi & Hok1); [done..|lia|].
  destruct (IH d1) as (d' & Hp' & Hi' & Hok'); [done|rewrite Hi, length_app; cbn; lia|].
  exists d'. rewrite Hp. cbn. rewrite Hp', Hi', Hi, <- app_assoc. done.
Qed.

Lemma rep_get N rb q k :
  rep N rb q -> 0 <= k < Indices.len (cell_get (indices rb)) ->
  vec_get (data rb) (index (cell_get (indices rb)) k) = Ret (zlookup (Queue.items q) k).
Proof.
  intros (Hl & [_ Hs] & _ & _ & _ & Hok & _) Hk.
  rewrite (vec_get_ok N) by (done || by apply index_range; destruct Hl).
  by rewrite Hs.
Qed.

Lemma rep_nth N rb q k :
  rep N rb q -> 0 <= k ->
  match (if k <? Indices.len (cell_get (indices rb))
         then Some (index (cell_get (indices rb)) k) else None) with
  | Some idx => vec_get (data rb) idx
  | None => Ret None
  end = Ret (zlookup (Queue.items q) k).
Proof.
  intros Hr Hk. case_bools; [by apply (rep_get N)|].
  pose proof Hr as (_ & [Hlen _] & _).
  by rewrite (proj2 (zlookup_None _ _ Hk)) by lia.
Qed.

(** *** One refinement lemma per operation *)

Lemma rep_push_full N rb q x :
  rep N rb q -> vec_storable x -> zlength (Queue.items q) = Queue.cap q ->
  exists rb', push rb x = Ret (head (Queue.items q), rb') /\
    rep N rb' (Queue.mk (Queue.cap q) (tail (Queue.items q) ++ [x])).
Proof.
  intros Hr Hx Hfull. pose proof Hr as (Hl & Hh & Hc & HN & Hst & Hok & Hacc).
  set (i := cell_get (indices rb)) in *. pose proof Hl as [Hv _]. pose proof Hv as (? & ? & ?).
  pose proof Hh as [Hlen _].
  assert (Hi0 : index i (Indices.len i) = index i 0).
  { replace (Indices.len i) with (0 + capacity i) by lia. apply index_wrap. }
  pose proof (layout_slot i (vec_items (data rb)) 0 Hl ltac:(lia)) as Hslot.
  assert (zlength (vec_items (data rb)) = capacity i)
    by (apply layout_full_length; [done|lia]).
  pose proof (index_range i 0 Hv).
  edestruct (vec_set_ok N (data rb) (index i 0) x) as (d' & Hs & Hi & Hok'); [done..|].
  eapply with_indices_data_mut_ok; [exact Hacc| | | | | | |exact Hok'].
  - fold i. rewrite offset_to_index_ok by (done || lia). cbn.
    rewrite (proj2 (Z.eqb_eq _ _)), increase_start_ok by (done || lia). cbn.
    pose proof (rep_get N rb q 0 Hr) as Hg. fold i in Hg.
    rewrite Hi0, Hg by lia. cbn.
    destruct (Queue.items q) as [|y ys] eqn:Hq; [unfold zlength in *; cbn in *; lia|].
    cbn. rewrite (vec_len_ok N) by done. cbn. rewrite (proj2 (Z.eqb_neq _ _)) by lia.
    by rewrite Hs.
  - rewrite Hi. unfold layout. rewrite zlength_insert. cbn.
    split_and!; [by apply rotate_valid|lia|lia].
  - rewrite Hi. apply holds_rotate; [done|lia|done].
  - done.
  - done.
  - apply Forall_app. split; [|by apply Forall_singleton].
    by destruct (Queue.items q); [|inversion_clear Hst].
Qed.

(** A fresh slot, at the end of the vector or inside it. *)
Lemma fresh_slot_put N (i : Indices.t) d items x :
  vec_ok N d -> vec_storable x -> layout i (vec_items d) -> holds i (vec_items d) items ->
  capacity i <= Z.of_nat N -> Indices.len i < capacity i ->
  let j := index i (Indices.len i) in
  exists d',
    (if j =? zlength (vec_items d) then vec_push d x else vec_set d j x) = Ret (Ok tt, d') /\
    vec_ok N d' /\
    layout {| start := start i; len := Indices.len i + 1; capacity := capacity i |}
      (vec_items d') /\
    holds {| start := start i; len := Indices.len i + 1; capacity := capacity i |}
      (vec_items d') (items ++ [x]).
Proof.
  intros Hok Hx Hl Hh HN Hroom j. pose proof Hl as (Hv & Hle & Hgrow).
  pose proof Hv as (? & ? & ?). pose proof (index_range i (Indices.len i) Hv) as Hjr.
  fold j in Hjr.
  assert (Hidx : zlength (vec_items d) < capacity i -> j = Indices.len i /\ start i = 0).
  { intros Hlt. destruct (Hgrow Hlt). unfold j. rewrite index_start_0; lia. }
  assert (Hfresh : forall k, 0 <= k < Indices.len i -> index i k <> j).
  { intros k Hk Heq. apply index_inj in Heq; [lia|done|lia..]. }
  destruct (Z.eqb_spec j (zlength (vec_items d))) as [Hj|Hj].
  - destruct (vec_push_ok N d x) as (d' & Hp & Hi & Hok'); [done..|unfold zlength in *; lia|].
    exists d'. rewrite Hi. split_and!; [done..| |apply holds_snoc; [by apply holds_app|]].
    + unfold layout, valid. rewrite zlength_app, zlength_singleton. cbn. lia.
    + fold j. rewrite Hj. apply zlookup_app_last.
  - assert (0 <= j < zlength (vec_items d)) by lia.
    destruct (vec_set_ok N d j x) as (d' & Hp & Hi & Hok'); [done..|].
    exists d'. rewrite Hi. split_and!;
      [done..| |apply holds_snoc; [by apply holds_insert_other; [|lia|]|]].
    + unfold layout, valid. rewrite zlength_insert. cbn. lia.
    + by apply zlookup_insert_eq.
Qed.

Lemma rep_push_room N rb q x :
  rep N rb q -> vec_storable x -> zlength (Queue.items q) <> Queue.cap q ->
  exists rb', push rb x = Ret (None, rb') /\
    rep N rb' (Queue.mk (Queue.cap q) (Queue.items q ++ [x])).
Proof.
  intros Hr Hx Hroom. pose proof Hr as (Hl & Hh & Hc & HN & Hst & Hok & Hacc).
  set (i := cell_get (indices rb)) in *. pose proof Hl as [Hv _]. pose proof Hv as (? & ? & ?).
  pose proof Hh as [Hlen _].
  destruct (fresh_slot_put N i (data rb) (Queue.items q) x) as (d' & Hp & Hok' & Hl' & Hh');
    [done..|lia|lia|].
  eapply with_indices_data_mut_ok; [exact Hacc| |exact Hl'|exact Hh'| | | |exact Hok'].
  - fold i. rewrite offset_to_index_ok by (done || lia). cbn.
    rewrite (proj2 (Z.eqb_neq _ _)), increase_len_ok by (done || lia). cbn.
    rewrite (vec_len_ok N) by done. cbn. by rewrite Hp.
  - done.
  - done.
  - apply Forall_app. by split; [|apply Forall_singleton].
Qed.

Lemma rep_push N rb q x :
  rep N rb q -> vec_storable x ->
  exists rb', push rb x = Ret ((Queue.push q x).1, rb') /\ rep N rb' (Queue.push q x).2.
Proof.
  intros Hr Hx. unfold Queue.push.
  destruct (Z.eqb_spec (zlength (Queue.items q)) (Queue.cap q)).
  - by apply rep_push_full.
  - by apply rep_push_room.
Qed.

(** A shorter prefix of the ring. *)
Lemma rep_shrink N rb q n {R} (f : Indices.t -> D -> outcome (R * Indices.t * D)) r :
  rep N rb q -> 0 <= n <= zlength (Queue.items q) ->
  (let i := cell_get (indices rb) in
   f i (data rb) = Ret (r, {| start := start i; len := n; capacity := capacity i |}, data rb)) ->
  exists rb', with_indices_data_mut rb f = Ret (r, rb') /\
    rep N rb' (Queue.mk (Queue.cap q) (take (Z.to_nat n) (Queue.items q))).
Proof.
  intros Hr Hn Hf. pose proof Hr as (Hl & [Hlen Hs] & Hc & HN & Hst & Hok & Hacc).
  eapply with_indices_data_mut_ok; [exact Hacc|exact Hf| | | | | |exact Hok].
  - unfold layout, valid in *. cbn in *. lia.
  - split; cbn.
    + unfold zlength in *. rewrite length_take. lia.
    + intros k Hk. etrans; [apply (Hs k); lia|]. rewrite !zlookup_nonneg by lia.
      symmetry. apply lookup_take_lt. lia.
  - done.
  - done.
  - by apply Forall_take.
Qed.

Lemma rep_pop N rb q :
  rep N rb q ->
  exists rb', pop rb = Ret ((Queue.pop q).1, rb') /\ rep N rb' (Queue.pop q).2.
Proof.
  intros Hr. pose proof Hr as (Hl & [Hlen Hs] & _). set (i := cell_get (indices rb)) in *.
  destruct Hl as [Hv _]. pose proof Hv as (? & ? & ?).
  unfold Queue.pop. cbn [fst snd].
  replace (length (Queue.items q) - 1)%nat
    with (Z.to_nat (saturating_sub (zlength (Queue.items q)) 1))
    by (unfold saturating_sub, zlength; lia).
  apply rep_shrink; [done|unfold saturating_sub; pose proof (zlength_nonneg (Queue.items q)); lia|].
  cbn. fold i. rewrite Hlen.
  destruct (checked_sub 64 (Indices.len i) 1) as [n|] eqn:Hn.
  - apply checked_Some in Hn as [-> ?]. unfold decrease_len.
    rewrite offset_to_index_ok; [|unfold valid, saturating_sub in *; cbn; lia|cbn; lia].
    cbn. pose proof (rep_get N rb q (Indices.len i - 1) Hr) as Hg. fold i in Hg.
    unfold index in *. cbn. rewrite Hg by lia. cbn.
    rewrite zlookup_nonneg, last_lookup by lia.
    replace (Nat.pred (length (Queue.items q))) with (Z.to_nat (Indices.len i - 1))
      by (unfold zlength in Hlen; lia).
    done.
  - apply checked_None in Hn.
    assert (Hz : Indices.len i = 0) by (pow2; lia).
    unfold zlength in Hlen. destruct (Queue.items q); [|cbn in *; lia].
    unfold saturating_sub. rewrite Z.max_r by lia. do 2 f_equal.
    rewrite <- Hz. generalize i. by intros [].
Qed.

Lemma rep_truncate N rb q n :
  rep N rb q -> 0 <= n ->
  exists rb', truncate rb n = Ret (tt, rb') /\ rep N rb' (Queue.truncate q n).
Proof.
  intros Hr Hn. pose proof Hr as (_ & [Hlen _] & _).
  unfold Queue.truncate.
  replace (Z.to_nat (zlength (Queue.items q) - n))
    with (Z.to_nat (saturating_sub (zlength (Queue.items q)) n))
    by (unfold saturating_sub; lia).
  apply rep_shrink; [done| |cbn; by rewrite Hlen].
  unfold saturating_sub. pose proof (zlength_nonneg (Queue.items q)). lia.
Qed.

Lemma holds_fresh cap (items : list T) :
  zlength items <= cap -> holds (Indices.mk 0 (zlength items) cap) items items.
Proof. intros. split; [done|]. cbn. intros k Hk. by rewrite index_start_0 by (cbn; lia). Qed.

Lemma layout_fresh cap (items : list T) :
  1 <= cap <= 2 ^ 63 -> zlength items <= cap ->
  layout (Indices.mk 0 (zlength items) cap) items.
Proof.
  unfold layout, valid. cbn. pose proof (zlength_nonneg items). lia.
Qed.

Lemma rep_clear N rb q :
  rep N rb q -> exists rb', clear rb = Ret (tt, rb') /\ rep N rb' (Queue.clear q).
Proof.
  intros (Hl & _ & Hc & HN & Hst & Hok & Hacc). pose proof Hl as [Hv _]. unfold valid in Hv.
  destruct (vec_clear_ok N (data rb) Hok) as (d' & Hcl & Hi & Hok').
  eapply with_indices_data_mut_ok; [exact Hacc| | | | | | |exact Hok'].
  - rewrite (proj2 (Z.eqb_neq _ _)) by lia. rewrite Hcl. done.
  - rewrite Hi. apply (layout_fresh _ []); [lia|unfold zlength; cbn; lia].
  - rewrite Hi. apply (holds_fresh _ []). unfold zlength; cbn; lia.
  - done.
  - done.
  - done.
Qed.

Lemma element_from_end_ok N rb q k x :
  rep N rb q -> zlookup (Queue.items q) (zlength (Queue.items q) - (k + 1)) = Some x ->
  0 <= k < zlength (Queue.items q) ->
  element_from_end (cell_get (indices rb)) (data rb) k = Ret x.
Proof.
  intros Hr Hx Hk. pose proof Hr as ([Hv _] & [Hlen _] & _). pose proof Hv as (? & ? & ?).
  unfold element_from_end. rewrite nth_element_from_end_ok by (done || (pow2; lia)). cbn.
  rewrite (proj2 (Z.ltb_lt _ _)) by lia. cbn.
  rewrite (rep_get N rb q) by (done || lia). cbn. by rewrite <- Hlen, Hx.
Qed.

(** [resize] copies the newest [n] elements, oldest first. *)
Lemma collect_newest N rb q n :
  rep N rb q -> (n <= length (Queue.items q))%nat ->
  collect (element_from_end (cell_get (indices rb)) (data rb)) (reverse (seqZ 0 (Z.of_nat n)))
    = Ret (drop (length (Queue.items q) - n) (Queue.items q)).
Proof.
  intros Hr Hn. apply collect_ok, Forall2_same_length_lookup. split.
  { rewrite length_reverse, length_seqZ, length_drop. lia. }
  intros k o x Ho Hx. rewrite lookup_drop in Hx.
  assert (Hk : (k < n)%nat).
  { apply lookup_lt_Some in Ho. rewrite length_reverse, length_seqZ in Ho. lia. }
  rewrite reverse_lookup in Ho by (rewrite length_seqZ; lia).
  rewrite length_seqZ in Ho. apply lookup_seqZ in Ho as [-> _].
  apply (element_from_end_ok N rb q); [done| |unfold zlength; lia].
  rewrite zlookup_nonneg by (unfold zlength; lia).
  rewrite <- Hx. f_equal. unfold zlength. lia.
Qed.

Lemma rep_resize N rb q c :
  rep N rb q -> 1 <= c <= 2 ^ 63 -> c <= Z.of_nat N ->
  exists rb', resize rb c = Ret (tt, rb') /\
    rep N rb' (if c =? Queue.cap q then q else Queue.resize q c).
Proof.
  intros Hr Hc1 HcN. pose proof Hr as (Hl & Hh & Hc & HN & Hst & Hok & Hacc).
  pose proof Hl as [Hv _]. pose proof Hh as [Hlen _]. unfold valid in Hv.
  destruct (Z.eqb_spec c (Queue.cap q)) as [Heq|Hne].
  { eapply with_indices_data_mut_ok; [exact Hacc| |exact Hl|exact Hh|exact Hc|done|done|done].
    cbn. by rewrite (proj2 (Z.eqb_eq _ _)) by lia. }
  set (n := (Z.to_nat (Z.min (zlength (Queue.items q)) c))).
  set (es := drop (length (Queue.items q) - n) (Queue.items q)).
  assert (Hn : (n <= length (Queue.items q))%nat) by (unfold n, zlength; lia).
  assert (Hes : zlength es = Z.of_nat n)
    by (unfold zlength, es; rewrite length_drop; lia).
  assert (HQ : Queue.items (Queue.resize q c) = es).
  { unfold es, n, Queue.resize, zlength. cbn. f_equal. lia. }
  destruct (vec_clear_ok N (data rb) Hok) as (d1 & Hcl & Hi1 & Hok1).
  destruct (push_all_ok N d1 es) as (d2 & Hp & Hi2 & Hok2);
    [done|by apply Forall_drop|rewrite Hi1; unfold zlength in *; cbn; lia|].
  rewrite Hi1, app_nil_l in Hi2.
  eapply with_indices_data_mut_ok; [exact Hacc| | | | | | |exact Hok2].
  - rewrite (proj2 (Z.eqb_neq _ _)) by lia. rewrite <- Hlen.
    replace (Z.min _ c) with (Z.of_nat n) by (unfold n; pose proof (zlength_nonneg (Queue.items q)); lia).
    cbv zeta. rewrite (collect_newest N rb q n Hr Hn). cbn. rewrite Hcl. cbn. fold es. rewrite Hp. cbn.
    rewrite increase_len_ok; [|by apply new_valid|lia|cbn; unfold n; lia].
    cbn. rewrite <- Hes. done.
  - rewrite Hi2. apply layout_fresh; [done|unfold n in *; lia].
  - rewrite Hi2, HQ. apply holds_fresh. unfold n in *. lia.
  - done.
  - done.
  - by apply Forall_drop.
Qed.
End refinement.
End Refinement.

(** ** Operation sequences *)

Inductive op (T : Type) :=
  | OpPush (x : T)
  | OpPop
  | OpTruncate (n : Z)
  | OpClear
  | OpResize (new_capacity : Z).
Arguments OpPush {T} x.
Arguments OpPop {T}.
Arguments OpTruncate {T} n.
Arguments OpClear {T}.
Arguments OpResize {T} new_capacity.

Section sequences.
Context `{Target} {T D C : Type}.
Context `{VecStructure D T, CellStructure C Indices.t}.

Definition no_item {S} (r : outcome (unit * S)) : outcome (option T * S) :=
  '(_, s) ← r; Ret (None, s).

Definition ring_step (rb : StableRingBuffer.t D C) (o : op T) :
    outcome (option T * StableRingBuffer.t D C) :=
  match o with
  | OpPush x => StableRingBuffer.push rb x
  | OpPop => StableRingBuffer.pop rb
  | OpTruncate n => no_item (StableRingBuffer.truncate rb n)
  | OpClear => no_item (StableRingBuffer.clear rb)
  | OpResize c => no_item (StableRingBuffer.resize rb c)
  end.

Fixpoint ring_run (rb : StableRingBuffer.t D C) (ops : list (op T)) :
    outcome (list (option T) * StableRingBuffer.t D C) :=
  match ops with
  | [] => Ret ([], rb)
  | o :: ops =>
      '(r, rb) ← ring_step rb o;
      '(rs, rb) ← ring_run rb ops;
      Ret (r :: rs, rb)
  end.

Definition queue_step (q : Queue.t T) (o : op T) : option T * Queue.t T :=
  match o with
  | OpPush x => Queue.push q x
  | OpPop => Queue.pop q
  | OpTruncate n => (None, Queue.truncate q n)
  | OpClear => (None, Queue.clear q)
  | OpResize c => (None, if c =? Queue.cap q then q else Queue.resize q c)
  end.

Fixpoint queue_run (q : Queue.t T) (ops : list (op T)) : list (option T) * Queue.t T :=
  match ops with
  | [] => ([], q)
  | o :: ops =>
      let '(r, q) := queue_step q o in
      let '(rs, q) := queue_run q ops in
      (r :: rs, q)
  end.

Context `{!VecStructureLaws D T, !CellStructureLaws C Indices.t}.

(** The operations a caller can make on a buffer whose memory holds [N] items. *)
Definition op_ok (N : nat) (o : op T) : Prop :=
  match o with
  | OpPush x => vec_storable x
  | OpTruncate n => 0 <= n
  | OpResize c => 1 <= c <= 2 ^ 63 /\ c <= Z.of_nat N
  | OpPop | OpClear => True
  end.

Lemma ring_step_refines N rb q o :
  Refinement.rep N rb q -> op_ok N o ->
  exists rb', ring_step rb o = Ret ((queue_step q o).1, rb') /\
    Refinement.rep N rb' (queue_step q o).2.
Proof.
  intros Hr Ho. destruct o as [x| |n| |c]; cbn [ring_step queue_step fst snd] in *.
  - by apply Refinement.rep_push.
  - by apply Refinement.rep_pop.
  - destruct (Refinement.rep_truncate N rb q n) as (rb' & -> & ?); [done..|]. by exists rb'.
  - destruct (Refinement.rep_clear N rb q) as (rb' & -> & ?); [done..|]. by exists rb'.
  - destruct (Refinement.rep_resize N rb q c) as (rb' & -> & ?); [done|apply Ho..|].
    by exists rb'.
Qed.

Lemma ring_run_refines N rb q ops :
  Refinement.rep N rb q -> Forall (op_ok N) ops ->
  exists rb', ring_run rb ops = Ret ((queue_run q ops).1, rb') /\
    Refinement.rep N rb' (queue_run q ops).2.
Proof.
  intros Hr Hops. revert rb q Hr.
  induction Hops as [|o ops Ho _ IH]; intros rb q Hr; cbn; [by exists rb|].
  destruct (ring_step_refines N rb q o) as (rb1 & -> & Hr1); [done..|]. cbn.
  destruct (queue_step q o) as [r q1]. cbn in *.
  destruct (IH rb1 q1 Hr1) as (rb' & -> & Hr'). cbn.
  destruct (queue_run q1 ops) as [rs q']. by exists rb'.
Qed.
End sequences.

Lemma new_rep {T M1 M2 : Type} `{Target} `{VecLaws T M1, CellLaws Indices.t M2}
    N (m1 : M1) (m2 : M2) cap :
  dmem_fresh m1 -> dmem_fits N m1 -> dcell_mem_fresh m2 ->
  (forall i, Indices.in_u64 i -> dcell_mem_accepts m2 i) ->
  1 <= cap <= 2 ^ 63 -> cap <= Z.of_nat N ->
  exists rb, StableRingBuffer.new (T := T) m1 m2 cap = Ok rb /\
    Refinement.rep N rb (Queue.empty (T := T) cap).
Proof.
  intros Hf1 Hn Hf2 Hacc Hcap HcN. unfold StableRingBuffer.new, StableVec.new, StableCell.new.
  destruct (dvec_init_fresh N m1 Hf1 Hn) as (v & -> & Hi & Hfit).
  pose proof (Indices.new_valid cap Hcap) as Hv.
  destruct (dcell_init_fresh m2 (Indices.new cap) Hf2) as (c & -> & Hg & Ha).
  { by apply Hacc, Indices.valid_in_u64. }
  eexists. split; [done|]. unfold Refinement.rep. cbn. unfold StableCell.get. rewrite Hg, Hi.
  split_and!; try done.
  - apply (Refinement.layout_fresh cap []); [done|unfold zlength; cbn; lia].
  - apply (Refinement.holds_fresh cap []). unfold zlength; cbn; lia.
  - by exists v.
  - intros i' Hi'. apply Ha, Hacc, Hi'.
Qed.

(** ** Properties *)

(** C7: A ring buffer created on fresh memory, driven by any sequence of pushes,
    pops, truncations, clears and resizes, returns exactly what a bounded queue
    that drops its oldest element when full returns, never panics, and still
    represents that queue at the end. *)
Theorem ring_buffer_refines_queue {T M1 M2 : Type} `{Target}
    `{VecLaws T M1, CellLaws Indices.t M2} (N : nat) (m1 : M1) (m2 : M2) (cap : Z)
    (ops : list (op T)) :
  dmem_fresh m1 -> dmem_fits N m1 -> dcell_mem_fresh m2 ->
  (forall i, Indices.in_u64 i -> dcell_mem_accepts m2 i) ->
  1 <= cap <= 2 ^ 63 -> cap <= Z.of_nat N -> Forall (op_ok N) ops ->
  exists rb rb', StableRingBuffer.new (T := T) m1 m2 cap = Ok rb /\
    ring_run rb ops = Ret ((queue_run (Queue.empty (T := T) cap) ops).1, rb') /\
    Refinement.rep N rb' (queue_run (Queue.empty (T := T) cap) ops).2.
Proof.
  intros. destruct (new_rep (T := T) N m1 m2 cap) as (rb & Hnew & Hrep); [done..|].
  destruct (ring_run_refines N rb (Queue.empty (T := T) cap) ops) as (rb' & Hrun & Hrep'); [done..|].
  by exists rb, rb'.
Qed.

Definition demo_ops : list (op Z) :=
  [OpPush 1; OpPush 2; OpPush 3; OpPush 4; OpPop; OpPush 5; OpPush 6; OpResize 2;
   OpPush 7; OpTruncate 1].

Lemma ring_buffer_refines_queue_witness :
  exists rb rb',
    StableRingBuffer.new (T := Z) (M1 := nat) (M2 := unit) 5%nat tt 3 = Ok rb /\
    ring_run (H := wasm_release) rb demo_ops =
      Ret ([None; None; None; Some 1; Some 4; None; Some 2; None; Some 5; None], rb') /\
    Refinement.rep 5 rb' (Queue.mk 2 [6]).
Proof.
  refine (ring_buffer_refines_queue (H := wasm_release) 5 (5%nat : nat) tt 3 demo_ops
    _ _ _ _ _ _ _); cbn; try done; try lia.
  repeat constructor; cbn; lia.
Defined.

(** On a buffer that represents a queue, every read returns what the queue
    holds: the length, the emptiness test, the capacity, the [n]-th element from
    the start (as long as [start + n] fits a [u64]), the [n]-th element from the
    end for every [n < 2^64 - 1], and the first and last elements; the reads
    never panic and answer [None] past the end. *)
Theorem ring_buffer_reads {T D C : Type} `{Target}
    `{VecStructureLaws D T, CellStructureLaws C Indices.t} (N : nat)
    (rb : StableRingBuffer.t D C) (q : Queue.t T) (n : Z) :
  Refinement.rep N rb q -> 0 <= n ->
  StableRingBuffer.len rb = zlength (Queue.items q) /\
  StableRingBuffer.is_empty rb = bool_decide (Queue.items q = []) /\
  StableRingBuffer.capacity rb = Queue.cap q /\
  (Indices.start (cell_get (StableRingBuffer.indices rb)) + n < 2 ^ 64 ->
   StableRingBuffer.nth_element rb n = Ret (zlookup (Queue.items q) n)) /\
  (n < 2 ^ 64 - 1 ->
   StableRingBuffer.nth_element_from_end rb n =
     Ret (zlookup (Queue.items q) (zlength (Queue.items q) - 1 - n))) /\
  StableRingBuffer.first rb = Ret (head (Queue.items q)) /\
  StableRingBuffer.last rb = Ret (list.last (Queue.items q)).
Proof.
  intros Hr Hn. pose proof Hr as ([Hv _] & [Hlen _] & Hc & _).
  pose proof Hv as (? & ? & ?).
  set (i := cell_get (StableRingBuffer.indices rb)) in *.
  assert (Hnth : forall n, 0 <= n -> Indices.start i + n < 2 ^ 64 ->
    StableRingBuffer.nth_element rb n = Ret (zlookup (Queue.items q) n)).
  { intros k Hk Hov. unfold StableRingBuffer.nth_element. fold i.
    rewrite Indices.nth_element_ok by done. by apply (Refinement.rep_nth N). }
  assert (Hend : forall n, 0 <= n < 2 ^ 64 - 1 ->
    StableRingBuffer.nth_element_from_end rb n =
      Ret (zlookup (Queue.items q) (zlength (Queue.items q) - 1 - n))).
  { intros k Hk. unfold StableRingBuffer.nth_element_from_end. fold i.
    rewrite Indices.nth_element_from_end_ok by done. rewrite Hlen. cbn.
    case_bools.
    - replace (Indices.len i - (k + 1)) with (Indices.len i - 1 - k) by lia.
      apply (Refinement.rep_get N); [done|]. fold i. lia.
    - unfold zlookup. by case_bools; [|lia]. }
  unfold StableRingBuffer.len, StableRingBuffer.is_empty, StableRingBuffer.capacity,
    StableRingBuffer.first, StableRingBuffer.last. fold i.
  split_and!; auto.
  - rewrite <- Hlen. unfold zlength. by destruct (Queue.items q).
  - rewrite Hnth by (pow2; lia). rewrite zlookup_nonneg by lia.
    by destruct (Queue.items q).
  - rewrite Hend, last_lookup by (pow2; lia). unfold zlookup, zlength. case_bools.
    + by destruct (Queue.items q); [|cbn in *; lia].
    + do 2 f_equal. lia.
Qed.

Definition demo_rb : StableRingBuffer.t (StableVec.t Z nat) (StableCell.t Indices.t unit) :=
  StableRingBuffer.mk (Some (3%nat, [4; 2; 3])) (Indices.mk 1 3 3).

Lemma demo_rb_rep : Refinement.rep 3 demo_rb (Queue.mk 3 [2; 3; 4]).
Proof.
  split_and!; try done.
  - split; [done|]. intros k Hk. cbn in Hk.
    assert (k = 0 \/ k = 1 \/ k = 2) as [->|[->| ->]] by lia; done.
  - cbn. by repeat constructor.
  - unfold vec_ok. cbn. eexists. split; [done|]. cbn. lia.
Qed.

Lemma ring_buffer_reads_witness :
  StableRingBuffer.nth_element (H := wasm_release) demo_rb 1 = Ret (Some 3) /\
  StableRingBuffer.nth_element_from_end (H := wasm_release) demo_rb 0 = Ret (Some 4).
Proof.
  pose proof (ring_buffer_reads (H := wasm_release) 3 demo_rb _ 1 demo_rb_rep ltac:(lia))
    as (_ & _ & _ & Hn & _ & _ & Hl).
  split; [apply Hn; pow2; cbn; lia|exact Hl].
Defined.

(** The 24-byte serialization of the indices round-trips for every triple of
    [u64]s, and a byte string shorter than 24 bytes makes [from_bytes] panic. *)
Theorem indices_bytes_roundtrip (i : Indices.t) (bs : list Z) :
  Indices.in_u64 i ->
  zlength (Indices.to_bytes i) = Indices.STABLE_RING_BUFFER_INDICES_SIZE /\
  Indices.from_bytes (Indices.to_bytes i) = Ret i /\
  (zlength bs < Indices.STABLE_RING_BUFFER_INDICES_SIZE -> Indices.from_bytes bs = Panic).
Proof.
  intros (Hs & Hl & Hc).
  assert (Hlen : length (Indices.to_bytes i) = 24%nat).
  { unfold Indices.to_bytes. by rewrite !length_app, !to_le_bytes_length. }
  split_and!.
  - unfold zlength. by rewrite Hlen.
  - unfold Indices.from_bytes, Indices.slice. rewrite Hlen.
    rewrite !decide_True by lia. unfold Indices.to_bytes. cbn [Nat.sub mbind outcome_bind].
    set (bs1 := to_le_bytes 8 (Indices.start i)).
    set (bs2 := to_le_bytes 8 (Indices.len i)).
    set (bs3 := to_le_bytes 8 (Indices.capacity i)).
    assert (length bs1 = 8%nat /\ length bs2 = 8%nat /\ length bs3 = 8%nat) as (L1 & L2 & L3)
      by (unfold bs1, bs2, bs3; by rewrite !to_le_bytes_length).
    rewrite drop_0, take_app_length' by done.
    rewrite drop_app_length', take_app_length' by done.
    rewrite (app_assoc bs1), drop_app_length' by (rewrite length_app; lia).
    rewrite take_ge by lia. unfold bs1, bs2, bs3.
    rewrite !from_to_le_bytes by done. by destruct i.
  - intros Hb. unfold Indices.STABLE_RING_BUFFER_INDICES_SIZE, zlength in Hb.
    unfold Indices.from_bytes, Indices.slice.
    repeat (case_decide; cbn); try done; lia.
Qed.

Lemma indices_bytes_roundtrip_witness :
  Indices.from_bytes (Indices.to_bytes (Indices.mk 5 300 (2 ^ 64 - 1))) =
    Ret (Indices.mk 5 300 (2 ^ 64 - 1)).
Proof.
  apply (indices_bytes_roundtrip (Indices.mk 5 300 (2 ^ 64 - 1)) []).
  unfold Indices.in_u64. cbn. lia.
Defined.

(** The bound in C2 is needed: the argument of [then_some] is evaluated before
    the length is tested, so an offset for which [start + n] overflows a [u64]
    makes [nth_element] panic in a profile with overflow checks, although the
    element does not exist; without overflow checks the answer is [None]. *)
Theorem nth_element_eager_overflow `{Target} (i : Indices.t) (n : Z) :
  Indices.valid i -> 0 <= n < 2 ^ 64 -> 2 ^ 64 <= Indices.start i + n ->
  Indices.nth_element i n = (if overflow_checks then Panic else Ret None).
Proof.
  intros (Hc & Hs & Hl) Hn Hov. unfold Indices.nth_element, u_add.
  rewrite arith_overflow by lia. destruct overflow_checks; [done|]. cbn.
  rewrite u_rem_ok by lia. cbn. rewrite (proj2 (Z.ltb_ge _ _)); [done|].
  pow2. lia.
Qed.

Lemma nth_element_eager_overflow_witness :
  Indices.nth_element (H := x64_debug) (Indices.mk 1 3 3) (2 ^ 64 - 1) = Panic /\
  Indices.nth_element (H := wasm_release) (Indices.mk 1 3 3) (2 ^ 64 - 1) = Ret None.
Proof.
  split.
  - apply (nth_element_eager_overflow (H := x64_debug) (Indices.mk 1 3 3) (2 ^ 64 - 1));
      unfold Indices.valid; cbn; lia.
  - apply (nth_element_eager_overflow (H := wasm_release) (Indices.mk 1 3 3) (2 ^ 64 - 1));
      unfold Indices.valid; cbn; lia.
Defined.
