(* ===== verification/Task.v ===== *)
(** * Tasks and retry strategies

    [ic-task-scheduler/src/{retry,task,error,time}.rs]: the retry and backoff
    policies, the options and status of a task, and the scheduler's errors. *)

From S2P Require Import Prelude.
Local Open Scope Z_scope.

(** ** SchedulerError *)

Inductive SchedulerError :=
  | TaskExecutionFailed (msg : string)
  | Unrecoverable (msg : string).

#[export] Instance SchedulerError_eq_dec : EqDecision SchedulerError.
Proof. solve_decision. Defined.

(** [time_secs] on the IC: [ic::time()] is in nanoseconds. *)
Definition time_secs (ic_time : Z) : Z := ic_time / 10 ^ 9.

(** ** Retry strategies *)

Inductive RetryPolicy :=
  | RetryNone
  | MaxRetries (retries : Z)
  | Infinite
  | Timeout (timeout_ts : Z).

Inductive BackoffPolicy :=
  | BackoffNone
  | Fixed (secs : Z)
  | Variable_ (secs : list Z)
  | Exponential (secs multiplier : Z).

Record RetryStrategy := {
  retry_policy : RetryPolicy;
  backoff_policy : BackoffPolicy;
}.

#[export] Instance RetryPolicy_eq_dec : EqDecision RetryPolicy.
Proof. solve_decision. Defined.
#[export] Instance BackoffPolicy_eq_dec : EqDecision BackoffPolicy.
Proof. solve_decision. Defined.
#[export] Instance RetryStrategy_eq_dec : EqDecision RetryStrategy.
Proof. solve_decision. Defined.

Definition RetryStrategy_default : RetryStrategy :=
  {| retry_policy := RetryNone; backoff_policy := Fixed 2 |}.

Definition retry_policy_should_retry (ic_time : Z) (p : RetryPolicy) (failed_attempts : Z) :
    bool :=
  if failed_attempts =? 0 then true else
  match p with
  | RetryNone => false
  | Infinite => true
  | MaxRetries attempts => failed_attempts <=? attempts
  | Timeout timeout_ts => ic_time <=? timeout_ts
  end.

(** [u32::saturating_pow]. *)
Definition saturating_pow (w base exp : Z) : Z := Z.min (base ^ exp) (umax w).

Definition should_wait (p : BackoffPolicy) (failed_attempts : Z) : Z :=
  if failed_attempts =? 0 then 0 else
  match p with
  | BackoffNone => 0
  | Fixed secs => secs
  | Variable_ secs =>
      let index := failed_attempts - 1 in
      default 0 (match zlookup secs index with Some s => Some s | None => last secs end)
  | Exponential secs multiplier =>
      if 0 <? secs then
        let multiplier := saturating_pow 32 multiplier (failed_attempts - 1) in
        saturating_mul 32 secs multiplier
      else 0
  end.

Definition should_retry (ic_time : Z) (s : RetryStrategy) (failed_attempts : Z) : bool * Z :=
  (retry_policy_should_retry ic_time (retry_policy s) failed_attempts,
   should_wait (backoff_policy s) failed_attempts).

(** ** Task options *)

Record TaskOptions := {
  failures : Z;                            (** [u32] *)
  execute_after_timestamp_in_secs : Z;     (** [u64] *)
  retry_strategy : RetryStrategy;
}.

#[export] Instance TaskOptions_eq_dec : EqDecision TaskOptions.
Proof. solve_decision. Defined.

Definition TaskOptions_new : TaskOptions :=
  {| failures := 0; execute_after_timestamp_in_secs := 0;
     retry_strategy := RetryStrategy_default |}.

Definition with_retry_policy (o : TaskOptions) (p : RetryPolicy) : TaskOptions :=
  {| failures := failures o;
     execute_after_timestamp_in_secs := execute_after_timestamp_in_secs o;
     retry_strategy := {| retry_policy := p;
                          backoff_policy := backoff_policy (retry_strategy o) |} |}.

Definition with_max_retries_policy (o : TaskOptions) (retries : Z) : TaskOptions :=
  with_retry_policy o (MaxRetries retries).

Definition with_backoff_policy (o : TaskOptions) (p : BackoffPolicy) : TaskOptions :=
  {| failures := failures o;
     execute_after_timestamp_in_secs := execute_after_timestamp_in_secs o;
     retry_strategy := {| retry_policy := retry_policy (retry_strategy o);
                          backoff_policy := p |} |}.

Definition with_fixed_backoff_policy (o : TaskOptions) (secs : Z) : TaskOptions :=
  with_backoff_policy o (Fixed secs).

Definition with_execute_after_timestamp_in_secs (o : TaskOptions) (ts : Z) : TaskOptions :=
  {| failures := failures o; execute_after_timestamp_in_secs := ts;
     retry_strategy := retry_strategy o |}.

(** ** Tasks *)

Inductive TaskStatus :=
  | Waiting (timestamp_secs : Z)
  | Completed (timestamp_secs : Z)
  | Scheduled (timestamp_secs : Z)
  | Running (timestamp_secs : Z)
  | Failed (timestamp_secs : Z) (error : SchedulerError)
  | TimeoutOrPanic (timestamp_secs : Z).

#[export] Instance TaskStatus_eq_dec : EqDecision TaskStatus.
Proof. solve_decision. Defined.

Definition status_timestamp_secs (s : TaskStatus) : Z :=
  match s with
  | Waiting t | Completed t | Running t | TimeoutOrPanic t | Failed t _ | Scheduled t => t
  end.

Section task.
Context {T : Type}.

Record ScheduledTask := { st_task : T; st_options : TaskOptions }.

Definition ScheduledTask_new (task : T) : ScheduledTask :=
  {| st_task := task; st_options := TaskOptions_new |}.

Definition ScheduledTask_with_options (task : T) (options : TaskOptions) : ScheduledTask :=
  {| st_task := task; st_options := options |}.

Record InnerScheduledTask := mk_inner {
  id : Z;                  (** [u64] *)
  task : T;
  options : TaskOptions;
  status : TaskStatus;
}.

Definition with_status (id : Z) (t : ScheduledTask) (s : TaskStatus) : InnerScheduledTask :=
  {| id := id; task := st_task t; options := st_options t; status := s |}.

(** The assignments [task.status = ..] and [task.options = ..]. *)
Definition set_status (t : InnerScheduledTask) (s : TaskStatus) : InnerScheduledTask :=
  {| id := id t; task := task t; options := options t; status := s |}.

Definition set_options (t : InnerScheduledTask) (o : TaskOptions) : InnerScheduledTask :=
  {| id := id t; task := task t; options := o; status := status t |}.
End task.
Arguments ScheduledTask : clear implicits.
Arguments InnerScheduledTask : clear implicits.

(** ** Properties *)

Lemma saturating_mul_pow secs m e :
  0 < secs -> 0 <= m -> 0 <= e ->
  saturating_mul 32 secs (saturating_pow 32 m e) = Z.min (secs * m ^ e) (umax 32).
Proof.
  intros Hs Hm He. unfold saturating_mul, saturating_pow.
  assert (0 < umax 32) by (vm_compute; done).
  pose proof (Z.pow_nonneg m e Hm).
  destruct (Z.le_ge_cases (m ^ e) (umax 32)) as [Hle|Hge].
  - by rewrite (Z.min_l (m ^ e)).
  - rewrite (Z.min_r (m ^ e)) by lia. rewrite !Z.min_r; nia.
Qed.

(** The backoff after [failed] attempts is never negative and fits a [u32]:
    nothing before the first failure; the [i]-th entry of a variable schedule
    after [i] failures, and its last entry once the schedule is exhausted; and,
    for an exponential policy, exactly [secs * multiplier^(failed-1)] capped at
    [u32::MAX], the two saturations of the code losing nothing, hence a wait
    that never decreases from one failure to the next. *)
Theorem backoff_should_wait_spec (failed : Z) (secs : Z) (sched : list Z) (mult : Z) :
  0 <= failed < 2 ^ 32 -> 0 <= secs < 2 ^ 32 -> 0 <= mult < 2 ^ 32 ->
  Forall (fun s => 0 <= s < 2 ^ 32) sched ->
  (forall p, should_wait p 0 = 0) /\
  (0 < failed ->
   should_wait (Exponential secs mult) failed = Z.min (secs * mult ^ (failed - 1)) (umax 32) /\
   (1 <= mult ->
    should_wait (Exponential secs mult) failed <=
      should_wait (Exponential secs mult) (failed + 1)) /\
   (failed <= zlength sched ->
    Some (should_wait (Variable_ sched) failed) = zlookup sched (failed - 1)) /\
   (zlength sched < failed ->
    should_wait (Variable_ sched) failed = default 0 (last sched))) /\
  0 <= should_wait (Exponential secs mult) failed < 2 ^ 32 /\
  0 <= should_wait (Variable_ sched) failed < 2 ^ 32.
Proof.
  intros Hf Hs Hm Hsch.
  assert (Hexp : forall n, 0 < n ->
    should_wait (Exponential secs mult) n = Z.min (secs * mult ^ (n - 1)) (umax 32)).
  { intros n Hn. unfold should_wait. rewrite (proj2 (Z.eqb_neq _ _)) by lia. case_bools.
    - apply saturating_mul_pow; lia.
    - replace secs with 0 by lia. done. }
  split; [done|]. split; [|split].
  - intros Hpos. split; [auto|]. split; [|split].
    + intros Hm1. rewrite !Hexp by lia.
      replace (failed + 1 - 1) with (Z.succ (failed - 1)) by lia.
      rewrite Z.pow_succ_r by lia. pose proof (Z.pow_nonneg mult (failed - 1)).
      assert (secs * mult ^ (failed - 1) <= secs * (mult * mult ^ (failed - 1)))
        by (apply Z.mul_le_mono_nonneg_l; nia). lia.
    + intros Hle. unfold should_wait. rewrite (proj2 (Z.eqb_neq _ _)) by lia.
      destruct (proj2 (zlookup_is_Some sched (failed - 1)) ltac:(lia)) as [x ->]. done.
    + intros Hlt. unfold should_wait. rewrite (proj2 (Z.eqb_neq _ _)) by lia.
      by rewrite (proj2 (zlookup_None sched (failed - 1) ltac:(lia)) ltac:(lia)).
  - destruct (decide (failed = 0)) as [->|]; [done|].
    rewrite Hexp by lia. unfold umax. pose proof (Z.pow_nonneg mult (failed - 1)).
    assert (0 <= secs * mult ^ (failed - 1)) by (apply Z.mul_nonneg_nonneg; lia). lia.
  - unfold should_wait. case_bools; [done|].
    rewrite Forall_forall in Hsch. unfold zlookup.
    assert (forall o, (forall x, o = Some x -> x ∈ sched) -> 0 <= default 0 o < 2 ^ 32) as Hd.
    { intros [x|] Hx; cbn; [by apply Hsch, Hx|done]. }
    apply Hd. intros x. rewrite (proj2 (Z.ltb_ge _ _)) by lia.
    destruct (sched !! _) eqn:Hl; [intros [= <-]; by eapply list_elem_of_lookup_2|].
    apply last_Some_elem_of.
Qed.

Lemma backoff_should_wait_spec_witness :
  should_wait (Exponential 3 2) 5 = 48 /\ should_wait (Variable_ [1; 2; 6]) 5 = 6.
Proof.
  destruct (backoff_should_wait_spec 5 3 [1; 2; 6] 2) as (_ & H & _);
    [lia|lia|lia|repeat constructor; lia|].
  destruct H as (He & _ & _ & Hv); [lia|]. split.
  - rewrite He. vm_compute. reflexivity.
  - rewrite Hv; [reflexivity|unfold zlength; cbn; lia].
Defined.
