(* ===== verification/Scheduler.v ===== *)
(** * The task scheduler

    [ic-task-scheduler/src/scheduler.rs].  The scheduler keeps its tasks in a
    sorted map and the next task id in a cell, both used through the interfaces
    of [Structure.v].  [run] marks the due tasks [Scheduled] and spawns one future
    per task; a future moves its task to [Running], executes it, and, when the
    execution returns, removes or re-queues the task.  Futures interleave with
    each other and with calls to the scheduler, so the program is a transition
    system whose state holds the scheduler and the futures in flight. *)

From S2P Require Import Prelude StableLib Concrete Structure StableStorage Task.
Local Open Scope Z_scope.

Definition DEFAULT_RUNNING_TASK_TIMEOUT_SECS : Z := 120.

Module Scheduler.
Section scheduler.
Context `{Target} {T P S : Type}.
Context `{BTreeMapStructure P Z (InnerScheduledTask T),
          IterableSortedMapStructure P Z (InnerScheduledTask T), CellStructure S Z}.

(** The callback is user code; the calls it received are recorded. *)
Record t := mk {
  pending_tasks : P;
  on_completion_callback : bool;
  callback_calls : list (InnerScheduledTask T);
  running_task_timeout_secs : Z;
  task_id_sequence : S;
}.

Definition new (pending_tasks : P) (task_id_sequence : S) : t :=
  {| pending_tasks := pending_tasks;
     on_completion_callback := false;
     callback_calls := [];
     running_task_timeout_secs := DEFAULT_RUNNING_TASK_TIMEOUT_SECS;
     task_id_sequence := task_id_sequence |}.

Definition set_pending (s : t) (p : P) : t :=
  {| pending_tasks := p; on_completion_callback := on_completion_callback s;
     callback_calls := callback_calls s;
     running_task_timeout_secs := running_task_timeout_secs s;
     task_id_sequence := task_id_sequence s |}.

Definition set_running_task_timeout (s : t) (timeout_secs : Z) : t :=
  {| pending_tasks := pending_tasks s; on_completion_callback := on_completion_callback s;
     callback_calls := callback_calls s; running_task_timeout_secs := timeout_secs;
     task_id_sequence := task_id_sequence s |}.

Definition set_on_completion_callback (s : t) : t :=
  {| pending_tasks := pending_tasks s; on_completion_callback := true;
     callback_calls := callback_calls s;
     running_task_timeout_secs := running_task_timeout_secs s;
     task_id_sequence := task_id_sequence s |}.

(** [if let Some(cb) = &*on_completion_callback { cb(task) }]: [registered] tells whether the
    scheduler at hand, or the clone of it that a future has captured, has a callback. *)
Definition call_callback (registered : bool) (s : t) (task : InnerScheduledTask T) : t :=
  if registered then
    {| pending_tasks := pending_tasks s; on_completion_callback := on_completion_callback s;
       callback_calls := callback_calls s ++ [task];
       running_task_timeout_secs := running_task_timeout_secs s;
       task_id_sequence := task_id_sequence s |}
  else s.

Definition map_get_task (s : t) (key : Z) : option (InnerScheduledTask T) * t :=
  let '(r, p) := map_get P Z _ (pending_tasks s) key in (r, set_pending s p).

Definition map_insert_task (s : t) (key : Z) (task : InnerScheduledTask T) : t :=
  set_pending s (map_insert P Z _ (pending_tasks s) key task).2.

Definition map_remove_task (s : t) (key : Z) : option (InnerScheduledTask T) * t :=
  let '(r, p) := map_remove P Z _ (pending_tasks s) key in (r, set_pending s p).

(** *** run *)

(** The first loop of [run_with_timestamp]: the keys of the tasks to schedule
    and of the tasks that ran out of time. *)
Fixpoint select_tasks (timeout now : Z) (entries : list (Z * InnerScheduledTask T))
    (to_be_scheduled out_of_time : list Z) : outcome (list Z * list Z) :=
  match entries with
  | [] => Ret (to_be_scheduled, out_of_time)
  | (task_key, task) :: entries =>
      match status task with
      | Waiting _ =>
          select_tasks timeout now entries
            (if execute_after_timestamp_in_secs (options task) <=? now
             then to_be_scheduled ++ [task_key] else to_be_scheduled)
            out_of_time
      | Running timestamp_secs | Scheduled timestamp_secs =>
          deadline ← u_add 64 timestamp_secs timeout;
          select_tasks timeout now entries to_be_scheduled
            (if deadline <? now then out_of_time ++ [task_key] else out_of_time)
      | Completed _ | TimeoutOrPanic _ | Failed _ _ =>
          select_tasks timeout now entries to_be_scheduled out_of_time
      end
  end.

(** The synchronous part of [process_pending_task]; the future it spawns is
    [start] and [finish] below. *)
Definition process_pending_task (s : t) (task_key now : Z) : t :=
  let '(r, s) := map_get_task s task_key in
  match r with
  | Some task =>
      match status task with
      | Waiting _ => map_insert_task s task_key (set_status task (Scheduled now))
      | _ => s
      end
  | None => s
  end.

(** The removal of a task that ran out of time. *)
Definition remove_out_of_time (now : Z) (s : t) (task_key : Z) : t :=
  let '(r, s) := map_remove_task s task_key in
  match r with
  | Some task => call_callback (on_completion_callback s) s (set_status task (TimeoutOrPanic now))
  | None => s
  end.

(** Returns the number of launched tasks, and the keys of the spawned futures. *)
Definition run_with_timestamp (s : t) (now : Z) : outcome (Z * list Z * t) :=
  '(to_be_scheduled, out_of_time) ←
    select_tasks (running_task_timeout_secs s) now (map_iter P Z _ (pending_tasks s)) [] [];
  let s := foldl (fun s key => process_pending_task s key now) s to_be_scheduled in
  let s := foldl (remove_out_of_time now) s out_of_time in
  Ret (zlength to_be_scheduled, to_be_scheduled, s).

Definition run (s : t) (ic_time : Z) : outcome (Z * list Z * t) :=
  run_with_timestamp s (time_secs ic_time).

(** *** The spawned future *)

(** What an executing future has captured: its key, the callback of the scheduler that was
    cloned when it was spawned, its copy of the task, and the time at which it started. *)
Record execution := mk_execution {
  ex_key : Z;
  ex_callback : bool;
  ex_task : InnerScheduledTask T;
  ex_now : Z;
}.

(** From the start of the future to the first [await] inside [execute]. *)
Definition start (s : t) (callback : bool) (task_key ic_time : Z) : option execution * t :=
  let now := time_secs ic_time in
  let '(r, s) := map_get_task s task_key in
  match r with
  | Some task =>
      match status task with
      | Scheduled _ =>
          let task := set_status task (Running now) in
          (Some (mk_execution task_key callback task now), map_insert_task s task_key task)
      | _ => (None, s)
      end
  | None => (None, s)
  end.

(** The options of the task as they are stored now, with one more failure. *)
Definition failed_options (o : TaskOptions) : outcome TaskOptions :=
  n ← u_add 32 (failures o) 1;
  Ret {| failures := n; execute_after_timestamp_in_secs := execute_after_timestamp_in_secs o;
         retry_strategy := retry_strategy o |}.

Definition retry_decision (err : SchedulerError) (o : TaskOptions) (ic_time : Z) : bool * Z :=
  match err with
  | Unrecoverable _ => (false, 0)
  | _ => should_retry ic_time (retry_strategy o) (failures o)
  end.

(** After [execute] returned [res]; the timestamps are those of the start. *)
Definition finish (s : t) (e : execution) (res : result unit SchedulerError) (ic_time : Z) :
    outcome t :=
  match res with
  | Ok _ =>
      let '(r, s) := map_remove_task s (ex_key e) in
      task ← expect r;
      Ret (call_callback (ex_callback e) s (set_status task (Completed (ex_now e))))
  | Err err =>
      let '(updated, s) := map_get_task s (id (ex_task e)) in
      let task := match updated with
                  | Some updated_task => set_options (ex_task e) (options updated_task)
                  | None => ex_task e
                  end in
      o ← failed_options (options task);
      let '(should, retry_delay) := retry_decision err o ic_time in
      if should : bool then
        after ← u_add 64 (ex_now e) retry_delay;
        let o := with_execute_after_timestamp_in_secs o after in
        Ret (map_insert_task s (ex_key e)
               (set_status (set_options task o) (Waiting (ex_now e))))
      else
        let '(r, s) := map_remove_task s (ex_key e) in
        task ← expect r;
        Ret (call_callback (ex_callback e) s (set_status task (Failed (ex_now e) err)))
  end.

(** *** TaskScheduler *)

Definition next_task_id (s : t) : outcome (Z * t) :=
  let id := cell_get (task_id_sequence s) in
  next ← u_add 64 id 1;
  let '(r, c) := cell_set (task_id_sequence s) next in
  _ ← expect_ok r;
  Ret (id, {| pending_tasks := pending_tasks s;
              on_completion_callback := on_completion_callback s;
              callback_calls := callback_calls s;
              running_task_timeout_secs := running_task_timeout_secs s;
              task_id_sequence := c |}).

Definition append_task (s : t) (ic_time : Z) (task : ScheduledTask T) : outcome (Z * t) :=
  let now := time_secs ic_time in
  '(key, s) ← next_task_id s;
  Ret (key, map_insert_task s key (with_status key task (Waiting now))).

Fixpoint append_tasks (s : t) (ic_time : Z) (tasks : list (ScheduledTask T)) :
    outcome (list Z * t) :=
  match tasks with
  | [] => Ret ([], s)
  | task :: tasks =>
      '(key, s) ← append_task s ic_time task;
      '(keys, s) ← append_tasks s ic_time tasks;
      Ret (key :: keys, s)
  end.

Definition get_task (s : t) (task_id : Z) : option (InnerScheduledTask T) * t :=
  map_get_task s task_id.

Definition reschedule (s : t) (task_id : Z) (o : TaskOptions) : t :=
  let '(r, s) := map_get_task s task_id in
  match r with
  | None => s
  | Some task => map_insert_task s task_id (set_options task o)
  end.

Definition find_id (s : t) (filter : T -> bool) : option Z :=
  '(_, (id, _)) ← list_find (fun e => filter (task e.2)) (map_iter P Z _ (pending_tasks s));
  Some id.
End scheduler.
Arguments t : clear implicits.
Arguments execution : clear implicits.
End Scheduler.

(** ** The world of a canister that runs a scheduler *)

Section world.
Context `{Target} {T P S : Type}.
Context `{BTreeMapStructure P Z (InnerScheduledTask T),
          IterableSortedMapStructure P Z (InnerScheduledTask T), CellStructure S Z}.

(** The futures in flight: spawned but not started, each with its key and whether the
    scheduler it captured has a callback; and awaiting the end of the execution of their
    task. *)
Record world := mk_world {
  sched : Scheduler.t T P S;
  spawned_futures : list (Z * bool);
  executing : list (Scheduler.execution T);
}.

Definition spawned (w : world) : list Z := (spawned_futures w).*1.

Inductive event :=
  | EvAppend (ic_time : Z) (tasks : list (ScheduledTask T))
  | EvReschedule (task_id : Z) (o : TaskOptions)
  | EvSetTimeout (timeout_secs : Z)
  | EvSetCallback
  | EvRun (ic_time : Z)
  | EvStart (key : Z) (ic_time : Z)
  | EvFinish (key : Z) (res : result unit SchedulerError) (ic_time : Z)
  | EvTrap (key : Z)
  | EvUpgrade.

Definition take_execution (key : Z) (l : list (Scheduler.execution T)) :
    option (Scheduler.execution T * list (Scheduler.execution T)) :=
  '(i, e) ← list_find (fun e => Scheduler.ex_key e = key) l; Some (e, delete i l).

Definition take_spawned (key : Z) (l : list (Z * bool)) : option (bool * list (Z * bool)) :=
  '(i, f) ← list_find (fun f => f.1 = key) l; Some (f.2, delete i l).

Definition with_sched (w : world) (s : Scheduler.t T P S) : world :=
  {| sched := s; spawned_futures := spawned_futures w; executing := executing w |}.

(** A trap of a future drops the future and rolls its message back. *)
Definition drop_futures (w : world) (key : Z) : world :=
  {| sched := sched w; spawned_futures := filter (fun f => f.1 <> key) (spawned_futures w);
     executing := filter (fun e => Scheduler.ex_key e <> key) (executing w) |}.

Definition handle (w : world) (ev : event) : outcome world :=
  match ev with
  | EvAppend ic_time tasks =>
      '(_, s) ← Scheduler.append_tasks (sched w) ic_time tasks; Ret (with_sched w s)
  | EvReschedule task_id o => Ret (with_sched w (Scheduler.reschedule (sched w) task_id o))
  | EvSetTimeout secs =>
      Ret (with_sched w (Scheduler.set_running_task_timeout (sched w) secs))
  | EvSetCallback => Ret (with_sched w (Scheduler.set_on_completion_callback (sched w)))
  | EvRun ic_time =>
      '(_, keys, s) ← Scheduler.run (sched w) ic_time;
      let callback := Scheduler.on_completion_callback (sched w) in
      Ret {| sched := s;
             spawned_futures := spawned_futures w ++ ((fun key => (key, callback)) <$> keys);
             executing := executing w |}
  | EvStart key ic_time =>
      match take_spawned key (spawned_futures w) with
      | None => Ret w
      | Some (callback, rest) =>
          let '(e, s) := Scheduler.start (sched w) callback key ic_time in
          Ret {| sched := s; spawned_futures := rest; executing := executing w ++ option_list e |}
      end
  | EvFinish key res ic_time =>
      match take_execution key (executing w) with
      | None => Ret w
      | Some (e, rest) =>
          s ← Scheduler.finish (sched w) e res ic_time;
          Ret {| sched := s; spawned_futures := spawned_futures w; executing := rest |}
      end
  | EvTrap key => Ret (drop_futures w key)
  | EvUpgrade =>
      (* the stable structures survive; futures, timeout and callback do not *)
      Ret {| sched := {|
               Scheduler.pending_tasks := Scheduler.pending_tasks (sched w);
               Scheduler.on_completion_callback := false;
               Scheduler.callback_calls := Scheduler.callback_calls (sched w);
               Scheduler.running_task_timeout_secs := DEFAULT_RUNNING_TASK_TIMEOUT_SECS;
               Scheduler.task_id_sequence := Scheduler.task_id_sequence (sched w) |};
             spawned_futures := []; executing := [] |}
  end.

(** A panicking message changes nothing, except that a panicking future is gone. *)
Definition step (w : world) (ev : event) : world :=
  match handle w ev with
  | Ret w' => w'
  | Panic => match ev with EvFinish key _ _ => drop_futures w key | _ => w end
  end.

Definition steps (w : world) (evs : list event) : world := foldl step w evs.
End world.
Arguments world : clear implicits.
Arguments event : clear implicits.

(** ** Abstraction

    The same program over a mathematical map and a plain counter.  Every operation
    over lawful structures is simulated by the operation over the abstract ones,
    so what is proved of the abstract scheduler holds of every implementation. *)

#[local] Instance gmap_map {K V} `{Countable K, OrdKey K} : BTreeMapStructure (gmap K V) K V := {|
  map_get m k := (m !! k, m);
  map_insert m k v := (m !! k, <[k := v]> m);
  map_remove m k := (m !! k, delete k m);
  map_contains_key m k := (bool_decide (is_Some (m !! k)), m);
  map_first_key_value m := head (sorted_entries m);
  map_last_key_value m := last (sorted_entries m);
  map_len m := Z.of_nat (size m);
  map_is_empty m := bool_decide (m = ∅);
  map_clear _ := ∅ |}.

#[local] Instance gmap_sorted_map {K V} `{Countable K, OrdKey K} :
  IterableSortedMapStructure (gmap K V) K V := {|
  map_iter := sorted_entries;
  map_range m lo hi := filter (fun kv => above lo kv.1 && below hi kv.1) (sorted_entries m);
  map_iter_upper_bound m k := entries_from_upper_bound K V k (sorted_entries m) |}.

#[local] Instance counter_cell : CellStructure Z Z := {|
  cell_get c := c; cell_set _ v := (Ok tt, v) |}.

Notation abstract_world T := (world T (gmap Z (InnerScheduledTask T)) Z).

Section abstraction.
Context `{Target} {T P S : Type}.
Context `{!BTreeMapStructure P Z (InnerScheduledTask T),
          !IterableSortedMapStructure P Z (InnerScheduledTask T),
          !BTreeMapStructureLaws P Z (InnerScheduledTask T),
          !IterableSortedMapStructureLaws P Z (InnerScheduledTask T),
          CellStructureLaws S Z}.
Implicit Types (s : Scheduler.t T P S) (w : world T P S).
Import Scheduler.

Definition abs s : Scheduler.t T (gmap Z (InnerScheduledTask T)) Z :=
  {| pending_tasks := map_view P Z _ (pending_tasks s);
     on_completion_callback := on_completion_callback s;
     callback_calls := callback_calls s;
     running_task_timeout_secs := running_task_timeout_secs s;
     task_id_sequence := cell_get (task_id_sequence s) |}.

(** The structures of the scheduler are usable. *)
Definition ok s : Prop :=
  map_ok P Z _ (pending_tasks s) /\
  forall v, 0 <= v < 2 ^ 64 -> cell_accepts (task_id_sequence s) v.

Lemma abs_get s k : ok s ->
  (map_get_task s k).1 = (map_get_task (abs s) k).1 /\
  abs (map_get_task s k).2 = (map_get_task (abs s) k).2 /\ ok (map_get_task s k).2.
Proof.
  intros [Hm Hc]. destruct (map_get_law P Z _ (pending_tasks s) k Hm) as (Hr & Hv & Hok).
  unfold map_get_task, abs, ok, set_pending in *.
  destruct (map_get _ _ _ _ _). cbn in *. rewrite Hv. done.
Qed.

Lemma abs_insert s k task : ok s ->
  abs (map_insert_task s k task) = map_insert_task (abs s) k task /\
  ok (map_insert_task s k task).
Proof.
  intros [Hm Hc].
  destruct (map_insert_law P Z _ (pending_tasks s) k task Hm) as (Hr & Hv & Hok).
  unfold map_insert_task, abs, ok, set_pending in *. cbn in *. rewrite Hv. done.
Qed.

Lemma abs_remove s k : ok s ->
  (map_remove_task s k).1 = (map_remove_task (abs s) k).1 /\
  abs (map_remove_task s k).2 = (map_remove_task (abs s) k).2 /\ ok (map_remove_task s k).2.
Proof.
  intros [Hm Hc]. destruct (map_remove_law P Z _ (pending_tasks s) k Hm) as (Hr & Hv & Hok).
  unfold map_remove_task, abs, ok, set_pending in *.
  destruct (map_remove _ _ _ _ _). cbn in *. rewrite Hv. done.
Qed.

Lemma abs_callback cb s task : ok s ->
  abs (call_callback cb s task) = call_callback cb (abs s) task /\ ok (call_callback cb s task).
Proof. intros Hs. unfold call_callback, abs, ok in *. cbn. by destruct cb. Qed.

(** Rewrite an operation of the implementation into the abstract one. *)
Ltac abs_step :=
  match goal with
  | Hs : ok ?s |- context [map_get_task ?s ?k] =>
      let Hr := fresh "Hr" in let Ha := fresh "Ha" in let Hok := fresh "Hok" in
      let o := fresh "found" in let o' := fresh "o" in let a := fresh "a" in
      pose proof (abs_get s k Hs) as (Hr & Ha & Hok);
      destruct (map_get_task s k) as [o ?], (map_get_task (abs s) k) as [o' a];
      cbn in Hr, Ha, Hok; subst o' a
  | Hs : ok ?s |- context [map_remove_task ?s ?k] =>
      let Hr := fresh "Hr" in let Ha := fresh "Ha" in let Hok := fresh "Hok" in
      let o := fresh "found" in let o' := fresh "o" in let a := fresh "a" in
      pose proof (abs_remove s k Hs) as (Hr & Ha & Hok);
      destruct (map_remove_task s k) as [o ?], (map_remove_task (abs s) k) as [o' a];
      cbn in Hr, Ha, Hok; subst o' a
  end.

Lemma abs_process_pending_task s k now : ok s ->
  abs (process_pending_task s k now) = process_pending_task (abs s) k now /\
  ok (process_pending_task s k now).
Proof.
  intros Hs. unfold process_pending_task. abs_step.
  destruct found as [task|]; [|done]. destruct (status task); try done. by apply abs_insert.
Qed.

Lemma abs_remove_out_of_time now s k : ok s ->
  abs (remove_out_of_time now s k) = remove_out_of_time now (abs s) k /\
  ok (remove_out_of_time now s k).
Proof.
  intros Hs. unfold remove_out_of_time. abs_step.
  destruct found as [task|]; [|done]. by apply abs_callback.
Qed.

Lemma abs_foldl {A} (f : Scheduler.t T P S -> A -> Scheduler.t T P S) g (l : list A) s :
  (forall s a, ok s -> abs (f s a) = g (abs s) a /\ ok (f s a)) ->
  ok s -> abs (foldl f s l) = foldl g (abs s) l /\ ok (foldl f s l).
Proof.
  intros Hfg. revert s. induction l as [|a l IH]; intros s Hs; [done|]. cbn.
  destruct (Hfg s a Hs) as [<- ?]. by apply IH.
Qed.

(** [sim_outcome]: the implementation and the abstract program panic together,
    and otherwise return the same result in corresponding states. *)
Definition sim_outcome {R} (m : outcome (R * Scheduler.t T P S))
    (a : outcome (R * Scheduler.t T (gmap Z (InnerScheduledTask T)) Z)) : Prop :=
  match m with
  | Ret (r, s) => a = Ret (r, abs s) /\ ok s
  | Panic => a = Panic
  end.

Lemma abs_run s time : ok s -> sim_outcome (run s time) (run (abs s) time).
Proof.
  intros Hs. unfold run, run_with_timestamp, sim_outcome. cbn [pending_tasks abs].
  rewrite (map_iter_law P Z _ _ (proj1 Hs)).
  change (map_iter (gmap Z (InnerScheduledTask T)) Z _) with
    (sorted_entries (K := Z) (V := InnerScheduledTask T)).
  cbn [running_task_timeout_secs abs].
  destruct (select_tasks _ _ _ _ _) as [[to_be out]|]; cbn; [|done].
  edestruct (abs_foldl (fun s key => process_pending_task s key (time_secs time))
    (fun a key => process_pending_task a key (time_secs time)) to_be s) as [Ha1 Hok1];
    [by intros; apply abs_process_pending_task|done|].
  edestruct (abs_foldl (remove_out_of_time (time_secs time))
    (remove_out_of_time (time_secs time)) out) as [Ha2 Hok2];
    [by intros; apply abs_remove_out_of_time|exact Hok1|].
  rewrite Ha2, Ha1. done.
Qed.

Lemma abs_start s cb k time : ok s ->
  (start s cb k time).1 = (start (abs s) cb k time).1 /\
  abs (start s cb k time).2 = (start (abs s) cb k time).2 /\ ok (start s cb k time).2.
Proof.
  intros Hs. unfold start. abs_step.
  destruct found as [task|]; [|done]. destruct (status task); try done. cbn.
  split; [done|]. by apply abs_insert.
Qed.

Lemma abs_finish s e res time : ok s ->
  match finish s e res time with
  | Ret s' => finish (abs s) e res time = Ret (abs s') /\ ok s'
  | Panic => finish (abs s) e res time = Panic
  end.
Proof.
  intros Hs. unfold finish. destruct res as [[]|err].
  - abs_step. destruct found as [task|]; cbn; [|done].
    edestruct abs_callback as [-> ?]; done.
  - abs_step.
    set (task := match found with Some u => _ | None => _ end). clearbody task.
    destruct (failed_options (options task)) as [o'|]; cbn [mbind outcome_bind]; [|done].
    destruct (retry_decision err o' time) as [[] delay].
    + destruct (u_add 64 _ _); cbn [mbind outcome_bind]; [|done]. edestruct abs_insert as [-> ?]; done.
    + abs_step. destruct found0 as [task'|]; cbn; [|done].
      edestruct abs_callback as [-> ?]; done.
Qed.

Lemma abs_next_task_id s : ok s -> sim_outcome (next_task_id s) (next_task_id (abs s)).
Proof.
  intros [Hm Hc]. unfold next_task_id, sim_outcome. cbn.
  destruct (u_add 64 _ 1) as [next|] eqn:Hn; cbn; [|done].
  apply arith_range in Hn; [|done].
  destruct (cell_set_ok (task_id_sequence s) next (Hc _ Hn)) as (Hr & Hg & Hacc).
  destruct (cell_set (task_id_sequence s) next) as [r c]. cbn in *. subst r. cbn.
  unfold abs, ok. cbn. rewrite Hg. split; [done|]. split; [done|]. auto.
Qed.

Lemma abs_append_task s time task : ok s ->
  sim_outcome (append_task s time task) (append_task (abs s) time task).
Proof.
  intros Hs. pose proof (abs_next_task_id s Hs) as Hn. unfold append_task, sim_outcome in *.
  destruct (next_task_id s) as [[key s1]|]; [|by rewrite Hn].
  destruct Hn as [-> Hok]. cbn. edestruct abs_insert as [-> ?]; done.
Qed.

Lemma abs_append_tasks s time tasks : ok s ->
  sim_outcome (append_tasks s time tasks) (append_tasks (abs s) time tasks).
Proof.
  revert s. induction tasks as [|task tasks IH]; intros s Hs; [done|].
  pose proof (abs_append_task s time task Hs) as Ha. unfold sim_outcome in *. cbn.
  destruct (append_task s time task) as [[key s1]|]; [|by rewrite Ha].
  destruct Ha as [-> Hok]. cbn. specialize (IH s1 Hok).
  destruct (append_tasks s1 time tasks) as [[keys s2]|]; [|by rewrite IH].
  destruct IH as [-> ?]. done.
Qed.

Lemma abs_reschedule s k o : ok s ->
  abs (reschedule s k o) = reschedule (abs s) k o /\ ok (reschedule s k o).
Proof.
  intros Hs. unfold reschedule. abs_step. destruct found; [|done]. by apply abs_insert.
Qed.

Definition abs_world w : abstract_world T :=
  {| sched := abs (sched w); spawned_futures := spawned_futures w; executing := executing w |}.

Lemma abs_step_world w ev : ok (sched w) ->
  abs_world (step w ev) = step (abs_world w) ev /\ ok (sched (step w ev)).
Proof.
  intros Hs. unfold step. destruct ev as [time ts|k o|secs| |time|k time|k res time|k|];
    cbn [handle sched spawned_futures executing abs_world].
  - pose proof (abs_append_tasks (sched w) time ts Hs) as Ha. unfold sim_outcome in Ha.
    destruct (append_tasks (sched w) time ts) as [[? ?]|]; [|by rewrite Ha].
    destruct Ha as [-> ?]. done.
  - destruct (abs_reschedule (sched w) k o Hs) as [Ha ?]. by rewrite <- Ha.
  - done.
  - done.
  - pose proof (abs_run (sched w) time Hs) as Ha. unfold sim_outcome in Ha.
    destruct (run (sched w) time) as [[[? ?] ?]|]; [|by rewrite Ha].
    destruct Ha as [-> ?]. done.
  - destruct (take_spawned k (spawned_futures w)) as [[cb rest]|]; [|done].
    destruct (abs_start (sched w) cb k time Hs) as (Hr & Ha & Hok).
    destruct (start (sched w) cb k time), (start (abs (sched w)) cb k time). cbn in *.
    by subst.
  - destruct (take_execution k (executing w)) as [[e rest]|]; [|done].
    pose proof (abs_finish (sched w) e res time Hs) as Ha.
    destruct (finish (sched w) e res time) as [s'|]; cbn; [|by rewrite Ha].
    destruct Ha as [-> ?]. done.
  - done.
  - done.
Qed.

Lemma abs_steps w evs : ok (sched w) ->
  abs_world (steps w evs) = steps (abs_world w) evs /\ ok (sched (steps w evs)).
Proof.
  unfold steps. revert w. induction evs as [|ev evs IH]; intros w Hs; [done|]. cbn.
  destruct (abs_step_world w ev Hs) as [<- ?]. by apply IH.
Qed.
End abstraction.
