(* ===== verification/SchedulerProofs.v ===== *)
(** * Correctness of the task scheduler

    What [run] does to every task, the invariant of the transition system of
    [Scheduler.v], and the properties of the scheduler: tasks are neither lost nor
    executed twice at the same time, retries follow the policy of the task. *)

From S2P Require Import Prelude StableLib Concrete Structure StableStorage Task Scheduler.
Local Open Scope Z_scope.

#[local] Existing Instance gmap_map.
#[local] Existing Instance gmap_sorted_map.
#[local] Existing Instance counter_cell.

Notation pending := Scheduler.pending_tasks.

(** ** What run does *)

Section run.
Context `{Target} {T : Type}.
Local Notation tasks := (gmap Z (InnerScheduledTask T)).
Local Notation sch := (Scheduler.t T tasks Z).
Implicit Types (s : sch) (t : InnerScheduledTask T) (es : list (Z * InnerScheduledTask T)).

Definition is_due (now : Z) t : bool :=
  match status t with
  | Waiting _ => execute_after_timestamp_in_secs (options t) <=? now
  | _ => false
  end.

Definition is_launched t : bool :=
  match status t with Scheduled _ | Running _ => true | _ => false end.

(** The deadline of a launched task, as the code computes it when the sum fits. *)
Definition is_late (timeout now : Z) t : bool :=
  match status t with
  | Scheduled ts | Running ts => ts + timeout <? now
  | _ => false
  end.

Definition no_overflow (timeout : Z) t : Prop :=
  is_launched t = true -> 0 <= status_timestamp_secs (status t) + timeout < 2 ^ 64.

(** The keys of the entries that satisfy a test. *)
Definition keys_of (f : InnerScheduledTask T -> bool) es : list Z :=
  (filter (fun e => f e.2) es).*1.

Lemma keys_of_cons f k t es :
  keys_of f ((k, t) :: es) = (if f t then [k] else []) ++ keys_of f es.
Proof.
  unfold keys_of. destruct (f t) eqn:Hf.
  - rewrite filter_cons_True; [done|]. cbn. by rewrite Hf.
  - rewrite filter_cons_False; [done|]. cbn. rewrite Hf. tauto.
Qed.

Lemma elem_of_keys_of f es k :
  k ∈ keys_of f es <-> exists t, (k, t) ∈ es /\ f t = true.
Proof.
  unfold keys_of. rewrite list_elem_of_fmap. split.
  - intros ([k' t] & -> & [Hf Hin]%list_elem_of_filter). exists t. split; [done|].
    by apply Is_true_eq_true.
  - intros (t & Hin & Hf). exists (k, t). split; [done|].
    apply list_elem_of_filter. split; [|done]. by apply Is_true_eq_left.
Qed.

Lemma keys_of_sublist f es : keys_of f es `sublist_of` es.*1.
Proof. apply fmap_sublist, sublist_filter. Qed.

Lemma select_tasks_ok timeout now es a b :
  Forall (fun e => no_overflow timeout e.2) es ->
  Scheduler.select_tasks timeout now es a b =
    Ret (a ++ keys_of (is_due now) es, b ++ keys_of (is_late timeout now) es).
Proof.
  revert a b. induction es as [|[k t] es IH]; intros a b Hes;
    cbn [Scheduler.select_tasks].
  { by rewrite !app_nil_r. }
  inversion_clear Hes as [|?? Ht Hes']. cbn in Ht. rewrite !keys_of_cons.
  unfold no_overflow, is_launched, status_timestamp_secs, is_due, is_late in *.
  destruct (status t) as [ts|ts|ts|ts|ts e|ts];
    try (rewrite IH by done; cbn; done).
  - rewrite IH by done. case_match; by rewrite <- ?app_assoc.
  - rewrite u_add_ok by auto. cbn. rewrite IH by done. case_match; by rewrite <- ?app_assoc.
  - rewrite u_add_ok by auto. cbn. rewrite IH by done. case_match; by rewrite <- ?app_assoc.
Qed.

(** Whatever the arithmetic does, the due tasks are exact and only launched
    tasks can be considered late. *)
Lemma select_tasks_weak timeout now es a b x y :
  Scheduler.select_tasks timeout now es a b = Ret (x, y) ->
  x = a ++ keys_of (is_due now) es /\
  exists ys, y = b ++ ys /\ ys `sublist_of` keys_of is_launched es.
Proof.
  revert a b. induction es as [|[k t] es IH]; intros a b;
    cbn [Scheduler.select_tasks].
  { intros [= -> ->]. rewrite app_nil_r. split; [done|]. exists []. by rewrite app_nil_r. }
  rewrite !keys_of_cons. unfold is_due at 1, is_launched at 1.
  assert (Hlate : forall ts, (deadline ← u_add 64 ts timeout;
     Scheduler.select_tasks timeout now es a
       (if deadline <? now then b ++ [k] else b)) = Ret (x, y) ->
     x = a ++ keys_of (is_due now) es /\
     exists ys, y = b ++ ys /\ ys `sublist_of` [k] ++ keys_of is_launched es).
  { intros ts Hs. inv_outcome. match goal with Hs : _ = Ret (x, y) |- _ => apply IH in Hs end.
    destruct_and!. split; [done|]. split_hyps. subst y. case_match.
    - eexists. rewrite <- app_assoc. split; [done|]. by apply sublist_app.
    - eexists. split; [done|]. by apply sublist_inserts_l. }
  destruct (status t) as [ts|ts|ts|ts|ts e|ts]; try apply IH; try apply Hlate.
  intros [-> Hy]%IH. split; [|done]. case_match; by rewrite <- ?app_assoc.
Qed.

(** The status change of [process_pending_task]. *)
Definition mark_scheduled (now : Z) t : InnerScheduledTask T :=
  match status t with Waiting _ => set_status t (Scheduled now) | _ => t end.

Lemma mark_scheduled_idemp now t : mark_scheduled now (mark_scheduled now t) = mark_scheduled now t.
Proof. unfold mark_scheduled. by destruct (status t) eqn:Hs; cbn; rewrite ?Hs. Qed.

Lemma process_pending_task_pending s k now :
  Scheduler.process_pending_task s k now =
    Scheduler.set_pending s
      (match pending s !! k with
       | Some t => match status t with
                   | Waiting _ => <[k := mark_scheduled now t]> (pending s)
                   | _ => pending s
                   end
       | None => pending s
       end).
Proof.
  unfold Scheduler.process_pending_task, mark_scheduled. cbn.
  destruct (pending s !! k) as [t|]; [|done]. by destruct (status t).
Qed.

Lemma process_all_lookup now ks s k :
  pending (foldl (fun s key => Scheduler.process_pending_task s key now) s ks) !! k =
    if decide (k ∈ ks) then mark_scheduled now <$> pending s !! k else pending s !! k.
Proof.
  revert s. induction ks as [|k0 ks IH]; intros s; cbn [foldl].
  { by rewrite decide_False by set_solver. }
  rewrite IH, process_pending_task_pending. cbn [pending Scheduler.set_pending].
  assert (Hk : forall k, (match pending s !! k0 with
     | Some t => match status t with
                 | Waiting _ => <[k0 := mark_scheduled now t]> (pending s)
                 | _ => pending s end
     | None => pending s end) !! k =
       if decide (k = k0) then mark_scheduled now <$> pending s !! k else pending s !! k).
  { intros k'. destruct (decide (k' = k0)) as [->|].
    - destruct (pending s !! k0) as [t|] eqn:Hk; cbn; [|done].
      unfold mark_scheduled. destruct (status t); cbn; rewrite ?lookup_insert_eq; done.
    - destruct (pending s !! k0) as [t|]; [|done].
      destruct (status t); by rewrite ?lookup_insert_ne. }
  rewrite Hk. destruct (decide (k = k0)) as [->|].
  - rewrite (decide_True (P := k0 ∈ k0 :: ks)) by set_solver. case_decide; [|done].
    destruct (pending s !! k0); cbn; by rewrite ?mark_scheduled_idemp.
  - destruct (decide (k ∈ ks)); [rewrite decide_True|rewrite decide_False]; set_solver.
Qed.

(** Every field but the tasks is left alone. *)
Definition same_frame (s s' : sch) : Prop :=
  Scheduler.on_completion_callback s' = Scheduler.on_completion_callback s /\
  Scheduler.running_task_timeout_secs s' = Scheduler.running_task_timeout_secs s /\
  Scheduler.task_id_sequence s' = Scheduler.task_id_sequence s.

Lemma same_frame_trans s1 s2 s3 : same_frame s1 s2 -> same_frame s2 s3 -> same_frame s1 s3.
Proof. unfold same_frame. intuition congruence. Qed.

Lemma process_all_frame now ks s :
  let s' := foldl (fun s key => Scheduler.process_pending_task s key now) s ks in
  same_frame s s' /\ Scheduler.callback_calls s' = Scheduler.callback_calls s.
Proof.
  revert s. induction ks as [|k ks IH]; intros s; [done|]. cbn [foldl].
  destruct (IH (Scheduler.process_pending_task s k now)) as [Hf Hc].
  rewrite process_pending_task_pending in *. split; [exact Hf|exact Hc].
Qed.

Definition timed_out (now : Z) t : InnerScheduledTask T := set_status t (TimeoutOrPanic now).

Lemma remove_all_lookup now ks s k :
  pending (foldl (Scheduler.remove_out_of_time now) s ks) !! k =
    if decide (k ∈ ks) then None else pending s !! k.
Proof.
  revert s. induction ks as [|k0 ks IH]; intros s; cbn [foldl].
  { by rewrite decide_False by set_solver. }
  assert (Hk : pending (Scheduler.remove_out_of_time now s k0) = delete k0 (pending s)).
  { unfold Scheduler.remove_out_of_time, Scheduler.call_callback. cbn.
    destruct (pending s !! k0) as [t|] eqn:Hk; cbn; [|done].
    by destruct (Scheduler.on_completion_callback s). }
  rewrite IH, Hk. destruct (decide (k = k0)) as [->|].
  - rewrite lookup_delete_eq, (decide_True (P := k0 ∈ k0 :: ks)) by set_solver. by case_decide.
  - rewrite lookup_delete_ne by done.
    destruct (decide (k ∈ ks)); [rewrite decide_True|rewrite decide_False]; set_solver.
Qed.

Lemma remove_all_frame now ks s :
  NoDup ks ->
  let s' := foldl (Scheduler.remove_out_of_time now) s ks in
  same_frame s s' /\
  Scheduler.callback_calls s' = Scheduler.callback_calls s ++
    (if Scheduler.on_completion_callback s
     then omap (fun k => timed_out now <$> pending s !! k) ks else []).
Proof.
  revert s. induction ks as [|k ks IH]; intros s Hnd; cbn [foldl].
  { split; [done|]. by destruct (Scheduler.on_completion_callback s); rewrite app_nil_r. }
  inversion_clear Hnd as [|?? Hk Hnd'].
  destruct (IH (Scheduler.remove_out_of_time now s k) Hnd') as [Hf Hc].
  assert (Hext : omap (fun k' => timed_out now <$> delete k (pending s) !! k') ks =
                 omap (fun k' => timed_out now <$> pending s !! k') ks).
  { apply list_omap_ext. apply Forall_Forall2_diag, Forall_forall. intros k' Hk'.
    rewrite lookup_delete_ne by congruence. done. }
  revert Hf Hc. unfold Scheduler.remove_out_of_time, Scheduler.call_callback, same_frame. cbn.
  destruct (pending s !! k) as [t|] eqn:Hpk; cbn.
  - destruct (Scheduler.on_completion_callback s) eqn:Hcb; cbn; rewrite ?Hcb; intros Hf Hc.
    + split; [exact Hf|]. rewrite Hc, Hext, <- app_assoc. done.
    + split; [exact Hf|]. by rewrite Hc.
  - destruct (Scheduler.on_completion_callback s) eqn:Hcb; cbn; rewrite ?Hcb; intros Hf Hc.
    + split; [exact Hf|]. by rewrite Hc, Hext.
    + split; [exact Hf|]. by rewrite Hc.
Qed.
End run.

(** ** The effect of run on each task *)

Section run_spec.
Context `{Target} {T : Type}.
Local Notation tasks := (gmap Z (InnerScheduledTask T)).
Local Notation sch := (Scheduler.t T tasks Z).
Implicit Types (s : sch) (t : InnerScheduledTask T).

Definition run_effect (timeout now : Z) t : option (InnerScheduledTask T) :=
  match status t with
  | Waiting _ =>
      if execute_after_timestamp_in_secs (options t) <=? now
      then Some (set_status t (Scheduled now)) else Some t
  | Scheduled ts | Running ts => if ts + timeout <? now then None else Some t
  | Completed _ | Failed _ _ | TimeoutOrPanic _ => Some t
  end.

Lemma keys_of_view (f : InnerScheduledTask T -> bool) (m : tasks) k :
  k ∈ keys_of f (sorted_entries m) <-> exists t, m !! k = Some t /\ f t = true.
Proof.
  rewrite elem_of_keys_of. by setoid_rewrite elem_of_sorted_entries.
Qed.

Lemma keys_of_NoDup (f : InnerScheduledTask T -> bool) (m : tasks) :
  NoDup (keys_of f (sorted_entries m)).
Proof.
  eapply sublist_NoDup; [apply (sorted_entries_NoDup_keys m)|apply keys_of_sublist].
Qed.

(** [run] in a state in which no deadline overflows. *)
Lemma run_ok s time :
  let now := time_secs time in
  let timeout := Scheduler.running_task_timeout_secs s in
  (forall k t, pending s !! k = Some t -> no_overflow timeout t) ->
  exists s', Scheduler.run s time =
      Ret (zlength (keys_of (is_due now) (sorted_entries (pending s))),
           keys_of (is_due now) (sorted_entries (pending s)), s') /\
    same_frame s s' /\
    (forall k, pending s' !! k = pending s !! k ≫= run_effect timeout now) /\
    Scheduler.callback_calls s' = Scheduler.callback_calls s ++
      (if Scheduler.on_completion_callback s then
         omap (fun k => timed_out now <$> pending s !! k)
           (keys_of (is_late timeout now) (sorted_entries (pending s)))
       else []).
Proof.
  intros now timeout Hov. unfold Scheduler.run, Scheduler.run_with_timestamp.
  cbn [map_iter gmap_sorted_map]. rewrite select_tasks_ok.
  2: { apply Forall_forall. intros [k t] Hin%elem_of_sorted_entries. by eapply Hov. }
  cbn [mbind outcome_bind]. fold now timeout. rewrite !app_nil_l.
  set (due := keys_of (is_due now) _). set (late := keys_of (is_late timeout now) _).
  set (s1 := foldl _ s due).
  destruct (process_all_frame now due s) as [Hf Hc1]. pose proof (proj1 Hf) as Hf1.
  destruct (remove_all_frame now late s1) as [Hg Hc2];
    [apply keys_of_NoDup|].
  eexists. split; [done|]. split; [by eapply same_frame_trans|].
  assert (Hlate : forall k, k ∈ late -> pending s1 !! k = pending s !! k).
  { intros k (t & Hk & Hl)%keys_of_view. unfold s1. rewrite process_all_lookup.
    case_decide as Hd; [|done]. rewrite Hk. cbn. unfold mark_scheduled, is_late in *.
    by destruct (status t). }
  split.
  - intros k. rewrite remove_all_lookup. unfold s1. rewrite process_all_lookup.
    destruct (pending s !! k) as [t|] eqn:Hk; cbn; [|by repeat case_decide].
    pose proof (keys_of_view (is_late timeout now) (pending s) k) as Hl.
    pose proof (keys_of_view (is_due now) (pending s) k) as Hd.
    fold late in Hl. fold due in Hd. rewrite Hk in Hl, Hd.
    assert (Hl' : k ∈ late <-> is_late timeout now t = true) by naive_solver.
    assert (Hd' : k ∈ due <-> is_due now t = true) by naive_solver.
    clear Hl Hd Hlate. revert Hl' Hd'. unfold run_effect, mark_scheduled, is_late, is_due.
    destruct (status t); repeat case_match; intros; repeat case_decide; naive_solver.
  - rewrite Hc2. fold s1 in Hc1, Hf1. rewrite Hc1, Hf1. f_equal.
    destruct (Scheduler.on_completion_callback s); [|done].
    apply list_omap_ext, Forall_Forall2_diag, Forall_forall. intros k Hk.
    by rewrite Hlate.
Qed.

(** [run] in any state: it panics, or it has scheduled the due tasks and removed
    some of the launched ones. *)
Lemma run_weak s time n keys s' :
  Scheduler.run s time = Ret (n, keys, s') ->
  keys = keys_of (is_due (time_secs time)) (sorted_entries (pending s)) /\
  same_frame s s' /\
  exists late,
    (forall k, k ∈ late -> exists t, pending s !! k = Some t /\ is_launched t = true) /\
    (forall k, pending s' !! k =
       if decide (k ∈ late) then None
       else if decide (k ∈ keys) then mark_scheduled (time_secs time) <$> pending s !! k
       else pending s !! k) /\
    Scheduler.callback_calls s' = Scheduler.callback_calls s ++
      (if Scheduler.on_completion_callback s
       then omap (fun k => timed_out (time_secs time) <$> pending s !! k) late else []).
Proof.
  unfold Scheduler.run, Scheduler.run_with_timestamp. cbn [map_iter gmap_sorted_map].
  intros Hr. destruct (Scheduler.select_tasks _ _ _ _ _) as [[due late]|] eqn:Hs; [|done].
  cbn [mbind outcome_bind] in Hr. injection Hr as <- <- <-.
  apply select_tasks_weak in Hs as (-> & ys & -> & Hsub). rewrite !app_nil_l.
  set (now := time_secs time). set (due := keys_of (is_due now) (sorted_entries (pending s))).
  assert (Hlaunched : forall k, k ∈ ys -> exists t, pending s !! k = Some t /\ is_launched t = true).
  { intros k Hk. apply (keys_of_view is_launched). by eapply elem_of_submseteq, sublist_submseteq. }
  assert (Hnd : NoDup ys) by (eapply sublist_NoDup; [apply keys_of_NoDup|exact Hsub]).
  set (s1 := foldl _ s due).
  destruct (process_all_frame now due s) as [Hf Hc1]. pose proof (proj1 Hf) as Hf1.
  destruct (remove_all_frame now ys s1 Hnd) as [Hg Hc2].
  split; [done|]. split; [by eapply same_frame_trans|].
  exists ys. split; [done|]. split.
  - intros k. rewrite remove_all_lookup. unfold s1. by rewrite process_all_lookup.
  - rewrite Hc2. fold s1 in Hc1, Hf1. rewrite Hc1, Hf1. f_equal.
    destruct (Scheduler.on_completion_callback s); [|done].
    apply list_omap_ext, Forall_Forall2_diag, Forall_forall. intros k Hk.
    unfold s1. rewrite process_all_lookup. case_decide as Hd; [|done].
    destruct (Hlaunched k Hk) as (t & -> & Hl). cbn. unfold mark_scheduled, is_launched in *.
    by destruct (status t).
Qed.
End run_spec.

(** ** Appending *)

Section append.
Context `{Target} {T : Type}.
Local Notation sch := (Scheduler.t T (gmap Z (InnerScheduledTask T)) Z).
Local Notation seq_of := Scheduler.task_id_sequence.
Implicit Types (s : sch).

Lemma append_tasks_ok s time ts :
  0 <= seq_of s -> seq_of s + zlength ts < 2 ^ 64 ->
  exists s', Scheduler.append_tasks s time ts =
      Ret (seqZ (seq_of s) (zlength ts), s') /\
    seq_of s' = seq_of s + zlength ts /\
    Scheduler.callback_calls s' = Scheduler.callback_calls s /\
    Scheduler.on_completion_callback s' = Scheduler.on_completion_callback s /\
    Scheduler.running_task_timeout_secs s' = Scheduler.running_task_timeout_secs s /\
    forall k, pending s' !! k =
      match zlookup ts (k - seq_of s) with
      | Some t => Some (with_status k t (Waiting (time_secs time)))
      | None => pending s !! k
      end.
Proof.
  revert s. induction ts as [|t ts IH]; intros s Hs Hlen; cbn [Scheduler.append_tasks].
  { exists s. change (zlength []) with 0 in *. rewrite Z.add_0_r.
    split; [done|]. split_and!; try done. intros k. by rewrite zlookup_nil. }
  assert (Hz : zlength (t :: ts) = 1 + zlength ts) by (unfold zlength; cbn; lia).
  pose proof (zlength_nonneg ts).
  set (s1 := Scheduler.map_insert_task
    {| pending := pending s; Scheduler.on_completion_callback := Scheduler.on_completion_callback s;
       Scheduler.callback_calls := Scheduler.callback_calls s;
       Scheduler.running_task_timeout_secs := Scheduler.running_task_timeout_secs s;
       Scheduler.task_id_sequence := seq_of s + 1 |}
    (seq_of s) (with_status (seq_of s) t (Waiting (time_secs time)))).
  assert (Ha : Scheduler.append_task s time t = Ret (seq_of s, s1)).
  { unfold Scheduler.append_task, Scheduler.next_task_id. cbn.
    rewrite u_add_ok by (cbn in *; lia). done. }
  destruct (IH s1) as (s' & Hr & Hseq & Hcalls & Hcb & Hto & Hv);
    [cbn in *; lia|cbn in *; lia|].
  exists s'. rewrite Ha. cbn [mbind outcome_bind]. rewrite Hr. cbn [mbind outcome_bind].
  split; [|split_and!; [rewrite Hseq; cbn; lia|exact Hcalls|exact Hcb|exact Hto|]].
  - rewrite Hz, (seqZ_cons (seq_of s)) by lia. do 4 f_equal; cbn; lia.
  - intros k. rewrite Hv. cbn [s1 Scheduler.map_insert_task Scheduler.task_id_sequence
      Scheduler.set_pending pending map_insert gmap_map snd].
    destruct (decide (k = seq_of s)) as [->|Hne].
    + rewrite Z.sub_diag. unfold zlookup at 1. rewrite (proj2 (Z.ltb_lt _ _)) by lia.
      rewrite lookup_insert_eq. done.
    + rewrite lookup_insert_ne by done. unfold zlookup.
      destruct (Z.ltb_spec (k - (seq_of s + 1)) 0), (Z.ltb_spec (k - seq_of s) 0); try lia.
      * done.
      * by replace (Z.to_nat (k - seq_of s)) with (S (Z.to_nat (k - (seq_of s + 1)))) by lia.
Qed.
End append.

(** ** The invariant *)

Section invariant.
Context `{Target} {T : Type}.
Implicit Types (w : abstract_world T) (t : InnerScheduledTask T).
Local Notation pend w := (pending (sched w)).
Local Notation seq_of w := (Scheduler.task_id_sequence (sched w)).

(** Only tasks that wait or have been launched are stored. *)
Definition live t : bool :=
  match status t with Waiting _ | Scheduled _ | Running _ => true | _ => false end.

Definition is_scheduled t : bool := match status t with Scheduled _ => true | _ => false end.
Definition is_running t : bool := match status t with Running _ => true | _ => false end.

(** What a future of the key may find: nothing, or a task in the given state. *)
Definition gone_or (f : InnerScheduledTask T -> bool) (o : option (InnerScheduledTask T)) : Prop :=
  match o with None => True | Some t => f t = true end.

Definition futures w : list Z := spawned w ++ (Scheduler.ex_key <$> executing w).

Lemma spawned_launched w s keys cb :
  spawned (mk_world s (spawned_futures w ++ ((fun key => (key, cb)) <$> keys)) (executing w) : abstract_world T) =
    spawned w ++ keys.
Proof. unfold spawned. cbn. rewrite fmap_app, <- list_fmap_compose. by rewrite list_fmap_id. Qed.

Lemma spawned_dropped w k : spawned (drop_futures w k) = filter (fun k' => k' <> k) (spawned w).
Proof.
  unfold spawned. cbn. induction (spawned_futures w) as [|[k' cb] l IH]; [done|].
  rewrite fmap_cons, !filter_cons. cbn. case_decide; cbn; by rewrite IH.
Qed.

Record inv w : Prop := {
  inv_seq : 0 <= seq_of w < 2 ^ 64;
  inv_pend k t : pend w !! k = Some t -> 0 <= k < seq_of w /\ id t = k /\ live t = true;
  inv_futures : NoDup (futures w);
  inv_future_keys : Forall (fun k => 0 <= k < seq_of w) (futures w);
  inv_spawned : Forall (fun k => gone_or is_scheduled (pend w !! k)) (spawned w);
  inv_executing : Forall (fun e => id (Scheduler.ex_task e) = Scheduler.ex_key e /\
      gone_or is_running (pend w !! Scheduler.ex_key e)) (executing w);
}.

(** A waiting task has no future in flight: it cannot be executed twice at the
    same time. *)
Lemma inv_waiting w k t ts :
  inv w -> pend w !! k = Some t -> status t = Waiting ts -> k ∉ futures w.
Proof.
  intros Hw Hk Hst. unfold futures. rewrite elem_of_app, list_elem_of_fmap.
  intros [Hin|(e & -> & Hin)].
  - pose proof (proj1 (Forall_forall _ _) (inv_spawned w Hw) k Hin) as Hg.
    unfold is_scheduled in Hg. rewrite Hk in Hg. cbn in Hg. by rewrite Hst in Hg.
  - pose proof (proj1 (Forall_forall _ _) (inv_executing w Hw) e Hin) as [_ Hg].
    unfold is_running in Hg. rewrite Hk in Hg. cbn in Hg. by rewrite Hst in Hg.
Qed.

(** The number of ids an event consumes. *)
Definition appended (ev : event T) : Z :=
  match ev with EvAppend _ ts => zlength ts | _ => 0 end.

Lemma appended_nonneg ev : 0 <= appended ev.
Proof. destruct ev; cbn; try lia. apply zlength_nonneg. Qed.

(** *** Preservation, event by event *)

Lemma inv_append w time ts :
  inv w -> seq_of w + zlength ts < 2 ^ 64 -> inv (step w (EvAppend time ts)).
Proof.
  intros Hw Hlen. pose proof (inv_seq w Hw) as Hseq. pose proof (zlength_nonneg ts).
  destruct (append_tasks_ok (sched w) time ts) as (s' & Hr & Hs' & _ & _ & _ & Hv); [lia|lia|].
  unfold step, handle. rewrite Hr. cbn [mbind outcome_bind].
  assert (Hold : forall k, k < seq_of w -> pending s' !! k = pend w !! k).
  { intros k Hk. rewrite Hv. unfold zlookup. by case_bools; [|lia]. }
  split; cbn.
  - lia.
  - intros k t. rewrite Hv. destruct (zlookup ts (k - seq_of w)) as [t0|] eqn:Hz.
    + intros [= <-]. assert (is_Some (zlookup ts (k - seq_of w))) as Hr' by (by exists t0).
      apply zlookup_is_Some in Hr'. cbn. split; [lia|done].
    + intros Hk. destruct (inv_pend w Hw k t Hk) as (? & ? & ?). split_and!; [lia..|done|done].
  - apply (inv_futures w Hw).
  - eapply Forall_impl; [apply (inv_future_keys w Hw)|]. cbn. lia.
  -
    pose proof (inv_spawned w Hw) as Hsp. pose proof (inv_future_keys w Hw) as Hfk.
    unfold futures in Hfk. apply Forall_app in Hfk as [Hfk _].
    rewrite Forall_forall in *. intros k Hin. rewrite Hold; [auto|]. by apply Hfk.
  - pose proof (inv_executing w Hw) as Hex. pose proof (inv_future_keys w Hw) as Hfk.
    unfold futures in Hfk. apply Forall_app in Hfk as [_ Hfk]. rewrite Forall_fmap in Hfk.
    rewrite Forall_forall in *. intros e Hin. cbn in *. rewrite Hold; [auto|]. by apply Hfk.
Qed.

Lemma inv_reschedule w k o : inv w -> inv (step w (EvReschedule k o)).
Proof.
  intros Hw. unfold step, handle, Scheduler.reschedule. cbn.
  destruct (pend w !! k) as [t0|] eqn:Hk; [|by destruct w as [[] ? ?]; destruct Hw; split].
  destruct (inv_pend w Hw k t0 Hk) as (Hk1 & Hk2 & Hk3).
  assert (Hcase : forall (f : InnerScheduledTask T -> bool) k',
    (forall t o, f (set_options t o) = f t) ->
    gone_or f (pend w !! k') -> gone_or f (<[k := set_options t0 o]> (pend w) !! k')).
  { intros f k' Hf. destruct (decide (k' = k)) as [->|].
    - rewrite lookup_insert_eq, Hk. cbn. by rewrite Hf.
    - by rewrite lookup_insert_ne. }
  split; cbn.
  - apply (inv_seq w Hw).
  - intros k' t. destruct (decide (k' = k)) as [->|].
    + rewrite lookup_insert_eq. intros [= <-]. done.
    + rewrite lookup_insert_ne by done. apply (inv_pend w Hw).
  - apply (inv_futures w Hw).
  - apply (inv_future_keys w Hw).
  - eapply Forall_impl; [apply (inv_spawned w Hw)|]. intros k'. cbn. by apply Hcase.
  - eapply Forall_impl; [apply (inv_executing w Hw)|]. intros e. cbn.
    intros [? ?]. split; [done|]. by apply Hcase.
Qed.

Lemma inv_run w time : inv w -> inv (step w (EvRun time)).
Proof.
  intros Hw. unfold step, handle.
  destruct (Scheduler.run (sched w) time) as [[[n keys] s']|] eqn:Hr; [|done].
  cbn [mbind outcome_bind].
  apply run_weak in Hr as (Hkeys & (Hcb & Hto & Hs') & late & Hlate & Hv & _).
  assert (Hnew : forall k, k ∈ keys -> exists t ts, pend w !! k = Some t /\ status t = Waiting ts).
  { intros k. rewrite Hkeys. intros (t & Ht & Hd)%keys_of_view. unfold is_due in Hd.
    destruct (status t) as [ts| | | | |] eqn:Hst; try done. by exists t, ts. }
  assert (Hfresh : forall k, k ∈ keys -> k ∉ futures w).
  { intros k (t & ts & Ht & Hst)%Hnew. by eapply inv_waiting. }
  assert (Hkeep : forall f k, (forall now t, f t = true -> f (mark_scheduled now t) = true) ->
    gone_or f (pend w !! k) -> gone_or f (pending s' !! k)).
  { intros f k Hf. rewrite Hv. case_decide; [done|]. case_decide; [|done].
    destruct (pend w !! k); cbn; auto. }
  set (cb := Scheduler.on_completion_callback (sched w)).
  set (w' := mk_world s' (spawned_futures w ++ ((fun key => (key, cb)) <$> keys)) (executing w)).
  assert (spawned w' = spawned w ++ keys) as Hsp by apply spawned_launched.
  assert (futures w' = (spawned w ++ keys) ++ (Scheduler.ex_key <$> executing w)) as Hfut
    by (unfold futures; by rewrite Hsp).
  split; rewrite ?Hfut, ?Hsp; cbn [sched executing w'].
  - rewrite Hs'. apply (inv_seq w Hw).
  - intros k t. rewrite Hv, Hs'. case_decide; [done|]. case_decide; [|apply (inv_pend w Hw)].
    destruct (pend w !! k) as [t0|] eqn:Hk; cbn; [|done]. intros [= <-].
    destruct (inv_pend w Hw k t0 Hk) as (? & ? & ?). unfold mark_scheduled, live in *.
    by destruct (status t0) eqn:Hst; cbn; rewrite ?Hst.
  - unfold futures in *. rewrite <- app_assoc, (Permutation_app_comm keys), app_assoc.
    apply NoDup_app. split_and!; [apply (inv_futures w Hw)| |].
    + intros k Hf Hk. by apply (Hfresh k).
    + rewrite Hkeys. apply keys_of_NoDup.
  - unfold futures in *. rewrite Hs'. pose proof (inv_future_keys w Hw) as Hfk.
    unfold futures in Hfk. rewrite !Forall_app in *. destruct Hfk. split_and!; try done.
    apply Forall_forall. intros k (t & ts & Ht & _)%Hnew.
    by destruct (inv_pend w Hw k t Ht) as (? & _).
  - apply Forall_app. split.
    + eapply Forall_impl; [apply (inv_spawned w Hw)|]. intros k. cbn. apply Hkeep.
      intros now t. unfold is_scheduled, mark_scheduled. by destruct (status t) eqn:Hst; cbn; rewrite ?Hst.
    + apply Forall_forall. intros k Hk. destruct (Hnew k Hk) as (t & ts & Ht & Hst).
      rewrite Hv. case_decide; [done|]. rewrite decide_True by done. rewrite Ht. cbn.
      unfold mark_scheduled. by rewrite Hst.
  - eapply Forall_impl; [apply (inv_executing w Hw)|]. intros e [? Hg]. cbn. split; [done|].
    revert Hg. apply Hkeep. intros now t. unfold is_running, mark_scheduled.
    by destruct (status t) eqn:Hst; cbn; rewrite ?Hst.
Qed.

(** *** Removing a future *)

Lemma delete_found_perm {A} (P : A -> Prop) `{!forall x, Decision (P x)} (l : list A) i x :
  list_find P l = Some (i, x) -> P x /\ l ≡ₚ x :: delete i l.
Proof. intros (Hx & HP & _)%list_find_Some. split; [done|]. by apply delete_Permutation. Qed.

Lemma take_spawned_perm k l cb rest : take_spawned k l = Some (cb, rest) -> l ≡ₚ (k, cb) :: rest.
Proof.
  unfold take_spawned. destruct (list_find _ l) as [[i [k' cb']]|] eqn:Hf; [|done].
  intros [= <- <-]. by apply delete_found_perm in Hf as [<- ?].
Qed.

Lemma take_execution_perm k (l : list (Scheduler.execution T)) e rest :
  take_execution k l = Some (e, rest) -> Scheduler.ex_key e = k /\ l ≡ₚ e :: rest.
Proof.
  unfold take_execution. destruct (list_find _ l) as [[i e']|] eqn:Hf; [|done].
  intros [= <- <-]. by apply delete_found_perm in Hf.
Qed.

(** Updating the entry of a key that no remaining future has. *)
Lemma gone_or_frame (f : InnerScheduledTask T -> bool)
    (m m' : gmap Z (InnerScheduledTask T)) k ks :
  k ∉ ks -> (forall k', k' <> k -> m' !! k' = m !! k') ->
  Forall (fun k' => gone_or f (m !! k')) ks -> Forall (fun k' => gone_or f (m' !! k')) ks.
Proof.
  intros Hk Hm. rewrite !Forall_forall. intros Hall k' Hin.
  rewrite Hm by congruence. auto.
Qed.

(** A state that differs from an invariant one in the entry of [k] and in having
    lost a future of [k], or turned it into the execution [e]. *)
Lemma inv_update w (w' : abstract_world T) k (o : option (InnerScheduledTask T)) sp
    (ex : list (Scheduler.execution T)) (new : option (Scheduler.execution T)) :
  inv w ->
  futures w ≡ₚ k :: sp ++ (Scheduler.ex_key <$> ex) ->
  Forall (fun k => gone_or is_scheduled (pend w !! k)) sp ->
  Forall (fun e => id (Scheduler.ex_task e) = Scheduler.ex_key e /\
    gone_or is_running (pend w !! Scheduler.ex_key e)) ex ->
  seq_of w' = seq_of w ->
  (forall k', k' <> k -> pend w' !! k' = pend w !! k') ->
  pend w' !! k = o ->
  (forall t, o = Some t -> id t = k /\ live t = true) ->
  spawned w' = sp -> executing w' = ex ++ option_list new ->
  (forall e, new = Some e -> Scheduler.ex_key e = k /\ id (Scheduler.ex_task e) = k /\
     gone_or is_running o) ->
  inv w'.
Proof.
  intros Hw Hperm Hsp Hex Hseq Hother Hk Ht' Hsp' Hex' Hnew.
  pose proof (inv_futures w Hw) as Hnd. rewrite Hperm in Hnd.
  inversion_clear Hnd as [|?? Hnk Hnd'].
  pose proof (inv_future_keys w Hw) as Hfk. rewrite Hperm in Hfk.
  inversion_clear Hfk as [|?? Hrk Hfk'].
  rewrite not_elem_of_app in Hnk. destruct Hnk as [Hnk1 Hnk2].
  assert (Hfut : futures w' = sp ++ (Scheduler.ex_key <$> ex) ++ (Scheduler.ex_key <$> option_list new)).
  { unfold futures. by rewrite Hsp', Hex', fmap_app. }
  assert (Hnk : (Scheduler.ex_key <$> option_list new) = [] \/
                (Scheduler.ex_key <$> option_list new) = [k]).
  { destruct new as [e|]; [right|by left]. cbn. destruct (Hnew e eq_refl) as [-> _]. done. }
  split.
  - rewrite Hseq. apply (inv_seq w Hw).
  - intros k' t Hkt. rewrite Hseq. destruct (decide (k' = k)) as [->|Hne].
    + rewrite Hk in Hkt. destruct (Ht' t Hkt). done.
    + rewrite Hother in Hkt by done. by apply (inv_pend w Hw).
  - rewrite Hfut, app_assoc. apply NoDup_app. split_and!; [done| |].
    + intros k' Hin. destruct Hnk as [-> | ->]; [set_solver|].
      rewrite list_elem_of_singleton. intros ->. apply elem_of_app in Hin. tauto.
    + destruct Hnk as [-> | ->]; [by apply NoDup_nil|apply NoDup_singleton].
  - rewrite Hfut, Hseq, app_assoc. apply Forall_app. split; [done|].
    destruct Hnk as [-> | ->]; [by apply Forall_nil|by apply Forall_singleton].
  - rewrite Hsp'. by eapply gone_or_frame.
  - rewrite Hex'. apply Forall_app. split.
    + rewrite Forall_forall in *. intros e Hin. destruct (Hex e Hin) as [? Hg].
      split; [done|]. rewrite Hother; [done|]. intros <-. apply Hnk2.
      apply list_elem_of_fmap. by exists e.
    + destruct new as [e|]; [|done]. destruct (Hnew e eq_refl) as (He & ? & ?).
      cbn. repeat constructor; [congruence|]. by rewrite He, Hk.
Qed.

Lemma inv_start w k time : inv w -> inv (step w (EvStart k time)).
Proof.
  intros Hw. unfold step, handle.
  destruct (take_spawned k (spawned_futures w)) as [[cb rest]|] eqn:Htake; [|done].
  apply take_spawned_perm, (fmap_Permutation fst) in Htake.
  change (spawned w ≡ₚ k :: rest.*1) in Htake.
  pose proof (inv_spawned w Hw) as Hsp. rewrite Htake in Hsp.
  inversion_clear Hsp as [|?? Hk Hsp'].
  assert (Hperm : futures w ≡ₚ k :: rest.*1 ++ (Scheduler.ex_key <$> executing w))
    by (unfold futures; by rewrite Htake).
  unfold Scheduler.start. cbn. destruct (pend w !! k) as [t|] eqn:Hpk.
  - destruct (inv_pend w Hw k t Hpk) as (? & Hid & ?).
    unfold gone_or, is_scheduled in Hk. destruct (status t) eqn:Hst; try done. cbn.
    eapply (inv_update w _ k _ rest.*1 (executing w) (Some (Scheduler.mk_execution k cb
      (set_status t (Running (time_secs time))) (time_secs time))));
      [exact Hw|exact Hperm|exact Hsp'|apply (inv_executing w Hw)|done| | |..]; cbn.
    + intros k' Hne. by apply lookup_insert_ne.
    + apply lookup_insert_eq.
    + intros t' [= <-]. by rewrite <- Hid.
    + done.
    + done.
    + intros e [= <-]. by rewrite <- Hid.
  - eapply (inv_update w _ k _ rest.*1 (executing w) None);
      [exact Hw|exact Hperm|exact Hsp'|apply (inv_executing w Hw)|done|done|exact Hpk|..];
      cbn; rewrite ?app_nil_r; done.
Qed.

(** [finish] either removes and reports the stored task, or queues its own copy
    again. *)
Lemma finish_cases (s s' : Scheduler.t T (gmap Z (InnerScheduledTask T)) Z) e res time :
  id (Scheduler.ex_task e) = Scheduler.ex_key e ->
  Scheduler.finish s e res time = Ret s' ->
  same_frame s s' /\
  ((exists t st, pending s !! Scheduler.ex_key e = Some t /\
      pending s' = delete (Scheduler.ex_key e) (pending s) /\
      Scheduler.callback_calls s' = Scheduler.callback_calls s ++
        (if Scheduler.ex_callback e then [set_status t st] else [])) \/
   (exists t, pending s' = <[Scheduler.ex_key e := t]> (pending s) /\
      id t = Scheduler.ex_key e /\ status t = Waiting (Scheduler.ex_now e) /\
      Scheduler.callback_calls s' = Scheduler.callback_calls s)).
Proof.
  intros Hid. assert (Hrem : forall t st,
    pending s !! Scheduler.ex_key e = Some t ->
    Scheduler.call_callback (Scheduler.ex_callback e) (Scheduler.set_pending s (delete (Scheduler.ex_key e) (pending s)))
      (set_status t st) = s' ->
    same_frame s s' /\ pending s' = delete (Scheduler.ex_key e) (pending s) /\
    Scheduler.callback_calls s' = Scheduler.callback_calls s ++
      (if Scheduler.ex_callback e then [set_status t st] else [])).
  { intros t st Ht <-. unfold Scheduler.call_callback, same_frame. cbn.
    destruct (Scheduler.ex_callback e); cbn; by rewrite ?app_nil_r. }
  unfold Scheduler.finish. destruct res as [[]|err]; cbn.
  - intros Hf. inv_outcome. match goal with Ht : _ !! _ = Some _ |- _ => rename Ht into Hpt end.
    destruct (Hrem _ _ Hpt eq_refl) as (? & ? & ?). split; [done|]. left. eauto 6.
  - intros Hf. inv_outcome.
    match goal with Ho : Scheduler.failed_options _ = Ret ?o |- _ => rename o into o' end.
    destruct (Scheduler.retry_decision err o' time) as [[] delay]; inv_outcome.
    + split; [done|]. right. eexists. cbn. split; [done|]. split_and!; try done.
      cbn [id set_status set_options]. by destruct (pending s !! id _).
    + match goal with Ht : _ !! _ = Some _ |- _ => rename Ht into Hpt end.
      destruct (Hrem _ _ Hpt eq_refl) as (? & ? & ?). split; [done|]. left. eauto 6.
Qed.

Lemma drop_futures_inv w k : inv w -> inv (drop_futures w k).
Proof.
  intros Hw. split; unfold futures; rewrite ?spawned_dropped; cbn [sched executing drop_futures].
  - apply (inv_seq w Hw).
  - apply (inv_pend w Hw).
  - eapply sublist_NoDup; [apply (inv_futures w Hw)|]. unfold futures.
    apply sublist_app; [apply sublist_filter|apply fmap_sublist, sublist_filter].
  - pose proof (inv_future_keys w Hw) as Hfk. unfold futures in *.
    apply Forall_app in Hfk as [Hf1 Hf2]. apply Forall_app. split.
    + by apply Forall_filter_of.
    + rewrite Forall_fmap in *. by apply Forall_filter_of.
  - apply Forall_filter_of, (inv_spawned w Hw).
  - apply Forall_filter_of, (inv_executing w Hw).
Qed.

Lemma inv_finish w k res time : inv w -> inv (step w (EvFinish k res time)).
Proof.
  intros Hw. unfold step, handle.
  destruct (take_execution k (executing w)) as [[e rest]|] eqn:Htake; [|done].
  apply take_execution_perm in Htake as [Hek Htake].
  pose proof (inv_executing w Hw) as Hex. rewrite Htake in Hex.
  inversion_clear Hex as [|?? [Hid Hk] Hex'].
  assert (Hperm : futures w ≡ₚ k :: spawned w ++ (Scheduler.ex_key <$> rest)).
  { unfold futures. rewrite Htake. cbn. rewrite Hek. by rewrite Permutation_middle. }
  destruct (Scheduler.finish (sched w) e res time) as [s'|] eqn:Hf;
    cbn [mbind outcome_bind]; [|by apply drop_futures_inv].
  apply finish_cases in Hf as [(_ & _ & Hseq) Hcases]; [|done].
  rewrite Hek in Hcases.
  eapply (inv_update w _ k _ (spawned w) rest None);
    [exact Hw|exact Hperm|apply (inv_spawned w Hw)|exact Hex'|exact Hseq| |reflexivity|..];
    cbn.
  - intros k' Hne. destruct Hcases as [(t & st & _ & -> & _)|(t & -> & _)].
    + by apply lookup_delete_ne.
    + by apply lookup_insert_ne.
  - intros t'. destruct Hcases as [(t & st & _ & -> & _)|(t & -> & Hidt & Hst & _)].
    + by rewrite lookup_delete_eq.
    + rewrite lookup_insert_eq. intros [= <-]. unfold live. by rewrite Hst.
  - done.
  - by rewrite app_nil_r.
  - done.
Qed.

Lemma inv_upgrade w : inv w -> inv (step w EvUpgrade).
Proof.
  intros Hw. split; cbn.
  - apply (inv_seq w Hw).
  - apply (inv_pend w Hw).
  - by apply NoDup_nil.
  - by apply Forall_nil.
  - by apply Forall_nil.
  - by apply Forall_nil.
Qed.

Lemma inv_step w ev : inv w -> seq_of w + appended ev < 2 ^ 64 -> inv (step w ev).
Proof.
  intros Hw Hseq. destruct ev as [time ts|k o|secs| |time|k time|k res time|k|].
  - by apply inv_append.
  - by apply inv_reschedule.
  - by destruct Hw; split.
  - by destruct Hw; split.
  - by apply inv_run.
  - by apply inv_start.
  - by apply inv_finish.
  - by apply drop_futures_inv.
  - by apply inv_upgrade.
Qed.

Fixpoint total_appended (evs : list (event T)) : Z :=
  match evs with [] => 0 | ev :: evs => appended ev + total_appended evs end.

Lemma total_appended_nonneg evs : 0 <= total_appended evs.
Proof.
  induction evs as [|ev evs IH]; cbn; [lia|].
  pose proof (appended_nonneg ev). lia.
Qed.

(** *** What one step does to the entries, the reports and the id sequence *)

(** The ids that were reported to the callback. *)
Definition reported w : list Z := id <$> Scheduler.callback_calls (sched w).

Lemma start_effect (s : Scheduler.t T (gmap Z (InnerScheduledTask T)) Z) cb k time :
  same_frame s (Scheduler.start s cb k time).2 /\
  Scheduler.callback_calls (Scheduler.start s cb k time).2 = Scheduler.callback_calls s /\
  forall k', is_Some (pending s !! k') -> is_Some (pending (Scheduler.start s cb k time).2 !! k').
Proof.
  unfold Scheduler.start. cbn. destruct (pending s !! k) as [t|]; [|done].
  destruct (status t); try done. cbn. split_and!; try done.
  intros k' [t' Hk']. destruct (decide (k' = k)) as [->|].
  - rewrite lookup_insert_eq. by eexists.
  - rewrite lookup_insert_ne by done. by exists t'.
Qed.

(** There is a callback, and the futures of the keys from [lo] on have captured it. *)
Record heard (lo : Z) w : Prop := {
  heard_callback : Scheduler.on_completion_callback (sched w) = true;
  heard_spawned k cb : (k, cb) ∈ spawned_futures w -> lo <= k -> cb = true;
  heard_executing e : e ∈ executing w -> lo <= Scheduler.ex_key e -> Scheduler.ex_callback e = true;
}.

Lemma heard_le lo lo' w : lo <= lo' -> heard lo w -> heard lo' w.
Proof. intros Hle [Hcb Hs He]. split; [done|..]; intros; [eapply Hs|eapply He]; eauto; lia. Qed.

Lemma seq_heard w :
  inv w -> Scheduler.on_completion_callback (sched w) = true -> heard (seq_of w) w.
Proof.
  intros Hw Hcb. pose proof (inv_future_keys w Hw) as Hk. rewrite Forall_forall in Hk.
  split; [done| |].
  - intros k cb Hin ?. destruct (Hk k) as [_ ?]; [|lia]. apply elem_of_app. left.
    apply list_elem_of_fmap. by exists (k, cb).
  - intros e Hin ?. destruct (Hk (Scheduler.ex_key e)) as [_ ?]; [|lia]. apply elem_of_app. right.
    apply list_elem_of_fmap. by exists e.
Qed.

(** From [w] to [w1], [n] fresh tasks were appended, no report was lost, and a
    task that left the pending ones was reported if there is a callback. *)
Definition changes w (n : Z) w1 : Prop :=
  seq_of w1 = seq_of w + n /\
  (forall k, k ∈ reported w -> k ∈ reported w1) /\
  (forall k, is_Some (pend w !! k) -> is_Some (pend w1 !! k) \/
     (heard k w -> k ∈ reported w1)) /\
  (forall k, seq_of w <= k < seq_of w1 -> is_Some (pend w1 !! k)).

Lemma changes_same w w1 : sched w1 = sched w -> changes w 0 w1.
Proof. intros Hw1. unfold changes, reported. rewrite Hw1. split_and!; auto; intros; lia. Qed.

Lemma append_changes w time ts s' ids :
  inv w -> seq_of w + zlength ts < 2 ^ 64 ->
  Scheduler.append_tasks (sched w) time ts = Ret (ids, s') ->
  changes w (zlength ts) (mk_world s' (spawned_futures w) (executing w)) /\
  Scheduler.on_completion_callback s' = Scheduler.on_completion_callback (sched w).
Proof.
  intros Hw Hseq Hr. pose proof (inv_seq w Hw) as Hs.
  destruct (append_tasks_ok (sched w) time ts) as (s1 & Hr1 & Hs' & Hc & Hcb & _ & Hv); [lia..|].
  rewrite Hr in Hr1. simplify_eq. split; [|done]. unfold changes, reported. cbn. rewrite Hc.
  split_and!; auto.
  - intros k Hk. left. rewrite Hv. by destruct (zlookup ts _).
  - intros k Hk. rewrite Hv. rewrite Hs' in Hk.
    destruct (proj2 (zlookup_is_Some ts (k - seq_of w)) ltac:(lia)) as [t ->]. by eexists.
Qed.

Lemma reschedule_changes w k o :
  changes w 0 (with_sched w (Scheduler.reschedule (sched w) k o)) /\
  Scheduler.on_completion_callback (Scheduler.reschedule (sched w) k o) =
    Scheduler.on_completion_callback (sched w).
Proof.
  unfold Scheduler.reschedule, changes, reported. cbn.
  destruct (pend w !! k) as [t|] eqn:Hk; cbn.
  - split; [|done]. split_and!; auto; [lia| |intros; lia].
    intros k' [t' Hk']. left. destruct (decide (k' = k)) as [->|].
    + rewrite lookup_insert_eq. by eexists.
    + rewrite lookup_insert_ne by done. by exists t'.
  - split; [|done]. split_and!; auto; intros; lia.
Qed.

Lemma run_changes w time n keys s' :
  inv w -> Scheduler.run (sched w) time = Ret (n, keys, s') ->
  (forall futures, changes w 0 (mk_world s' futures (executing w))) /\
  Scheduler.on_completion_callback s' = Scheduler.on_completion_callback (sched w).
Proof.
  intros Hw Hr. apply run_weak in Hr as (Hkeys & (Hcb & Hto & Hs') & late & Hlate & Hv & Hc).
  split; [|done]. intros fs. unfold changes, reported. cbn. rewrite Hs'. split_and!; auto; [lia| | |intros; lia].
  - intros k Hk. rewrite Hc, fmap_app. by apply elem_of_app; left.
  - intros k [t Ht]. rewrite Hv, Ht. destruct (decide (k ∈ late)) as [Hin|]; [right|left].
    + intros [Hcb' _ _]. rewrite Hc, fmap_app, Hcb'. apply elem_of_app. right.
      apply list_elem_of_fmap. exists (timed_out (time_secs time) t). cbn.
      destruct (inv_pend w Hw k t Ht) as (_ & -> & _). split; [done|].
      apply list_elem_of_omap. exists k. by rewrite Ht.
    + case_decide; by eexists.
Qed.

Lemma finish_changes w k e rest res time s' :
  inv w -> take_execution k (executing w) = Some (e, rest) ->
  Scheduler.finish (sched w) e res time = Ret s' ->
  changes w 0 (mk_world s' (spawned_futures w) rest) /\
  Scheduler.on_completion_callback s' = Scheduler.on_completion_callback (sched w).
Proof.
  intros Hw Htake Hf. apply take_execution_perm in Htake as [Hek Htake].
  pose proof (inv_executing w Hw) as Hex. rewrite Htake in Hex.
  inversion_clear Hex as [|?? [Hid Hk] Hex'].
  assert (e ∈ executing w) as Hine by (rewrite Htake; by left).
  apply finish_cases in Hf as [(Hcb & _ & Hq) Hcases]; [|done]. rewrite Hek in Hcases.
  split; [|done]. unfold changes, reported. cbn. rewrite Hq.
  destruct Hcases as [(t & st & Ht & Hp & Hc)|(t & Hp & Hidt & Hst & Hc)].
  - rewrite Hc, Hp. split_and!; auto; [lia| | |intros; lia].
    + intros k' Hk'. rewrite fmap_app. by apply elem_of_app; left.
    + intros k' [t' Hk']. destruct (decide (k' = k)) as [->|].
      * right. intros [_ _ Hcb']. rewrite (Hcb' e Hine) by lia. rewrite fmap_app. apply elem_of_app. right.
        destruct (inv_pend w Hw k t Ht) as (_ & Hidt & _). cbn. rewrite Hidt.
        by apply list_elem_of_singleton.
      * left. rewrite lookup_delete_ne by done. by exists t'.
  - rewrite Hc, Hp. split_and!; auto; [lia| |intros; lia].
    intros k' [t' Hk']. left. destruct (decide (k' = k)) as [->|].
    + rewrite lookup_insert_eq. by eexists.
    + rewrite lookup_insert_ne by done. by exists t'.
Qed.

(** Every step keeps a stored task stored or, when its future hears of a callback,
    reports it; a step that is not an upgrade keeps the callback and the reports. *)
Lemma step_effect w ev :
  inv w -> seq_of w + appended ev < 2 ^ 64 ->
  let cb := Scheduler.on_completion_callback (sched w) in
  let w' := step w ev in
  seq_of w' = seq_of w + appended ev /\
  (forall k, k ∈ reported w -> k ∈ reported w') /\
  (forall k, is_Some (pend w !! k) -> is_Some (pend w' !! k) \/ (heard k w -> k ∈ reported w')) /\
  (forall k, seq_of w <= k < seq_of w' -> is_Some (pend w' !! k)) /\
  (ev <> EvUpgrade -> cb = true -> Scheduler.on_completion_callback (sched w') = true).
Proof.
  intros Hw Hseq cb w'. pose proof (inv_seq w Hw) as Hs.
  assert (forall w1, changes w (appended ev) w1 ->
    (ev <> EvUpgrade -> cb = true -> Scheduler.on_completion_callback (sched w1) = true) ->
    w' = w1 -> seq_of w' = seq_of w + appended ev /\
    (forall k, k ∈ reported w -> k ∈ reported w') /\
    (forall k, is_Some (pend w !! k) -> is_Some (pend w' !! k) \/ (heard k w -> k ∈ reported w')) /\
    (forall k, seq_of w <= k < seq_of w' -> is_Some (pend w' !! k)) /\
    (ev <> EvUpgrade -> cb = true -> Scheduler.on_completion_callback (sched w') = true)) as Hend.
  { intros w1 (? & ? & ? & ?) ? ->. by split_and!. }
  unfold w', step in *. destruct ev as [time ts|k o|secs| |time|k time|k res time|k|];
    cbn [handle appended] in *.
  - destruct (append_tasks_ok (sched w) time ts) as (s' & Hr & _); [lia..|].
    destruct (append_changes w time ts s' _ Hw Hseq Hr) as [Hch Hcb]. rewrite Hr in *.
    eapply Hend; [exact Hch| |done]. intros _ Hcb'. exact (eq_trans Hcb Hcb').
  - destruct (reschedule_changes w k o) as [Hch Hcb].
    eapply Hend; [exact Hch| |done]. intros _ Hcb'. exact (eq_trans Hcb Hcb').
  - unfold reported. cbn. split_and!; auto; intros; lia.
  - unfold reported. cbn. split_and!; auto; intros; lia.
  - destruct (Scheduler.run (sched w) time) as [[[n keys] s']|] eqn:Hr;
      [|by apply (Hend w); [apply changes_same| |]].
    destruct (run_changes w time n keys s' Hw Hr) as [Hch Hcb].
    eapply Hend; [apply Hch| |done]. intros _ Hcb'. exact (eq_trans Hcb Hcb').
  - destruct (take_spawned k (spawned_futures w)) as [[cb' rest]|]; [|by eapply Hend; [apply changes_same| |]].
    pose proof (start_effect (sched w) cb' k time) as ((Hf & _ & Hq) & Hc & Hp).
    destruct (Scheduler.start (sched w) cb' k time) as [e s']. cbn in *.
    unfold reported. cbn. rewrite Hf, Hq, Hc. split_and!; auto; intros; lia.
  - destruct (take_execution k (executing w)) as [[e rest]|] eqn:Htake;
      [|by apply (Hend w); [apply changes_same| |]].
    destruct (Scheduler.finish (sched w) e res time) as [s'|] eqn:Hf;
      [|by apply (Hend (drop_futures w k)); [apply changes_same| |]].
    destruct (finish_changes w k e rest res time s' Hw Htake Hf) as [Hch Hcb].
    eapply Hend; [exact Hch| |done]. intros _ Hcb'. exact (eq_trans Hcb Hcb').
  - by apply (Hend (drop_futures w k)); [apply changes_same| |].
  - unfold reported. cbn. split_and!; auto; [lia|intros; lia].
Qed.

(** The futures spawned while there is a callback capture it. *)
Lemma step_heard lo w ev :
  inv w -> seq_of w + appended ev < 2 ^ 64 -> ev <> EvUpgrade -> heard lo w -> heard lo (step w ev).
Proof.
  intros Hw Hseq Hup Hh. pose proof Hh as [Hcb Hs He].
  destruct (step_effect w ev Hw Hseq) as (_ & _ & _ & _ & Hcb'). specialize (Hcb' Hup Hcb).
  enough ((forall k cb, (k, cb) ∈ spawned_futures (step w ev) -> lo <= k -> cb = true) /\
    (forall e, e ∈ executing (step w ev) -> lo <= Scheduler.ex_key e -> Scheduler.ex_callback e = true))
    as [? ?] by done.
  clear Hcb'. unfold step. destruct ev as [time ts|k o|secs| |time|k time|k res time|k|]; cbn [handle].
  - by destruct (Scheduler.append_tasks _ _ _) as [[? ?]|].
  - done.
  - done.
  - done.
  - destruct (Scheduler.run _ _) as [[[n keys] s']|]; [|done]. cbn. split; [|done].
    intros k cb [Hin|(? & Heq & _)%list_elem_of_fmap]%elem_of_app; [by eapply Hs|].
    injection Heq as _ ->. by intros _.
  - destruct (take_spawned k (spawned_futures w)) as [[cb rest]|] eqn:Ht; [|done].
    apply take_spawned_perm in Ht. unfold Scheduler.start.
    destruct (Scheduler.map_get_task _ _) as [[t|] s']; [destruct (status t)|]; cbn;
      (split; [intros k' cb' Hin; apply Hs; rewrite Ht; by right|]); intros e;
      rewrite ?app_nil_r; try apply He.
    intros [Hin|Hin]%elem_of_app; [by apply He|]. apply list_elem_of_singleton in Hin as ->.
    cbn. intros Hk. apply (Hs k cb); [rewrite Ht; by left|done].
  - destruct (take_execution k (executing w)) as [[e rest]|] eqn:Ht; [|done].
    apply take_execution_perm in Ht as [_ Ht].
    destruct (Scheduler.finish _ _ _ _); cbn; (split; [try done|]).
    + intros e' Hin. apply He. rewrite Ht. by right.
    + intros k' cb [_ Hin]%list_elem_of_filter. by eapply Hs.
    + intros e' [_ Hin]%list_elem_of_filter. by apply He.
  - cbn. split.
    + intros k' cb [_ Hin]%list_elem_of_filter. by eapply Hs.
    + intros e' [_ Hin]%list_elem_of_filter. by apply He.
  - done.
Qed.

(** Every id handed out since [lo] is stored or was reported. *)
Definition accounted (lo : Z) w : Prop :=
  forall k, lo <= k < seq_of w -> is_Some (pend w !! k) \/ k ∈ reported w.

Lemma steps_inv w evs :
  inv w -> seq_of w + total_appended evs < 2 ^ 64 ->
  inv (steps w evs) /\ seq_of (steps w evs) = seq_of w + total_appended evs.
Proof.
  unfold steps. revert w. induction evs as [|ev evs IH]; intros w Hw Hseq; cbn in *.
  { split; [done|lia]. }
  pose proof (total_appended_nonneg evs).
  destruct (step_effect w ev Hw) as (Hs & _); [lia|].
  destruct (IH (step w ev)) as [? Hs']; [by apply inv_step; [|lia]|lia|].
  split; [done|lia].
Qed.

Lemma steps_accounted lo w evs :
  inv w -> seq_of w + total_appended evs < 2 ^ 64 ->
  EvUpgrade ∉ evs -> heard lo w ->
  accounted lo w -> accounted lo (steps w evs).
Proof.
  unfold steps. revert w. induction evs as [|ev evs IH]; intros w Hw Hseq Hup Hcb Hacc; cbn in *.
  { done. }
  pose proof (total_appended_nonneg evs).
  destruct (step_effect w ev Hw) as (Hs & Hrep & Hst & Hnew & Hcb'); [lia|].
  rewrite not_elem_of_cons in Hup. destruct Hup as [Hne Hup].
  apply IH; [by apply inv_step; [|lia]|lia|done|by apply step_heard; [|lia| |]|].
  intros k Hk. destruct (decide (k < seq_of w)) as [Hlt|Hge].
  - destruct (Hacc k ltac:(lia)) as [Hk'|Hk']; [|auto].
    destruct (Hst k Hk') as [?|Hr]; [by left|right]. apply Hr, (heard_le lo); [lia|done].
  - left. apply Hnew. lia.
Qed.
End invariant.

(** ** Rounds of execution

    One round for a task: a [run] that finds it due, the start of its future, and
    the failure of its execution, all at the same time. *)

Section rounds.
Context `{Target} {T : Type}.
Implicit Types (w : abstract_world T) (t : InnerScheduledTask T).
Local Notation pend w := (pending (sched w)).

Definition failing_round (k time : Z) (err : SchedulerError) : list (event T) :=
  [EvRun time; EvStart k time; EvFinish k (Err err) time].

(** The calls of the callback that concern a task. *)
Definition reports_of (k : Z) w : list (InnerScheduledTask T) :=
  filter (fun t => id t = k) (Scheduler.callback_calls (sched w)).

(** The options of the task after one more failure, at time [now]. *)
Definition requeued_options (o : TaskOptions) (now : Z) : TaskOptions :=
  {| failures := failures o + 1;
     execute_after_timestamp_in_secs :=
       now + should_wait (backoff_policy (retry_strategy o)) (failures o + 1);
     retry_strategy := retry_strategy o |}.

Definition requeued t (now : Z) : InnerScheduledTask T :=
  {| id := id t; task := task t; options := requeued_options (options t) now;
     status := Waiting now |}.

Definition calm w : Prop :=
  forall k t, pend w !! k = Some t ->
    no_overflow (Scheduler.running_task_timeout_secs (sched w)) t.

Lemma take_spawned_Some k cb (l : list (Z * bool)) :
  (k, cb) ∈ l -> (forall cb', (k, cb') ∈ l -> cb' = cb) -> exists rest, take_spawned k l = Some (cb, rest).
Proof.
  intros Hk Hcb. unfold take_spawned.
  destruct (list_find_elem_of (fun f => f.1 = k) l (k, cb) Hk eq_refl) as [[i [k' cb']] Hf].
  rewrite Hf. apply list_find_Some in Hf as (Hi & Hk' & _). cbn in Hk'. subst k'.
  rewrite <-(Hcb cb') by by eapply list_elem_of_lookup_2. by eexists.
Qed.

Lemma take_execution_app k (l : list (Scheduler.execution T)) e :
  k ∉ (Scheduler.ex_key <$> l) -> Scheduler.ex_key e = k ->
  take_execution k (l ++ [e]) = Some (e, l).
Proof.
  intros Hk He. unfold take_execution.
  assert (Hf : list_find (fun e => Scheduler.ex_key e = k) (l ++ [e]) = Some (length l, e)).
  { apply list_find_Some. split_and!; [by rewrite list_lookup_middle|done|].
    intros j y Hj Hlt. rewrite lookup_app_l in Hj by done. intros Hy. apply Hk.
    apply list_elem_of_fmap. exists y. split; [done|]. by eapply list_elem_of_lookup_2. }
  rewrite Hf. cbn. do 2 f_equal.
  rewrite delete_middle. by rewrite app_nil_r.
Qed.

(** *** The three steps of a round *)

Lemma round_run w k t ts time :
  inv w -> pend w !! k = Some t -> status t = Waiting ts ->
  execute_after_timestamp_in_secs (options t) <= time_secs time ->
  calm w ->
  exists s keys, step w (EvRun time) =
    mk_world s (spawned_futures w ++
      ((fun key => (key, Scheduler.on_completion_callback (sched w))) <$> keys)) (executing w) /\
    same_frame (sched w) s /\ k ∈ keys /\
    (forall k', pending s !! k' = pend w !! k' ≫=
       run_effect (Scheduler.running_task_timeout_secs (sched w)) (time_secs time)) /\
    pending s !! k = Some (set_status t (Scheduled (time_secs time))) /\
    filter (fun t => id t = k) (Scheduler.callback_calls s) = reports_of k w.
Proof.
  intros Hw Hk Hst Hdue Hcalm.
  destruct (run_ok (sched w) time Hcalm) as (s & Hr & Hf & Hv & Hc).
  exists s, (keys_of (is_due (time_secs time)) (sorted_entries (pend w))).
  unfold step, handle. rewrite Hr. split; [done|]. split; [done|]. split_and!.
  - apply keys_of_view. exists t. split; [done|]. unfold is_due. rewrite Hst.
    by apply Z.leb_le.
  - done.
  - rewrite Hv, Hk. cbn. unfold run_effect. rewrite Hst. by rewrite (proj2 (Z.leb_le _ _)).
  - rewrite Hc, filter_app. unfold reports_of.
    assert (Hnone : filter (fun t => id t = k)
      (if Scheduler.on_completion_callback (sched w)
       then omap (fun k => timed_out (time_secs time) <$> pend w !! k)
         (keys_of (is_late (Scheduler.running_task_timeout_secs (sched w)) (time_secs time))
           (sorted_entries (pend w))) else []) = []).
    { destruct (Scheduler.on_completion_callback (sched w)); [|done].
      apply elem_of_nil_inv. intros t' [Hid Hin]%list_elem_of_filter.
      apply list_elem_of_omap in Hin as (k' & Hk' & Ht').
      apply keys_of_view in Hk' as (t0 & Hk0 & Hl). rewrite Hk0 in Ht'. injection Ht' as <-.
      destruct (inv_pend w Hw k' t0 Hk0) as (_ & Hid0 & _). cbn in Hid.
      assert (k' = k) as -> by congruence. rewrite Hk in Hk0. injection Hk0 as <-.
      unfold is_late in Hl. by rewrite Hst in Hl. }
    rewrite Hnone. by rewrite app_nil_r.
Qed.

Lemma round_start (w : abstract_world T) k cb t ts time :
  (k, cb) ∈ spawned_futures w -> (forall cb', (k, cb') ∈ spawned_futures w -> cb' = cb) -> pend w !! k = Some t -> status t = Scheduled ts ->
  exists rest, step w (EvStart k time) =
    mk_world (Scheduler.map_insert_task (sched w) k (set_status t (Running (time_secs time))))
      rest (executing w ++
        [Scheduler.mk_execution k cb (set_status t (Running (time_secs time))) (time_secs time)]).
Proof.
  intros Hin Hcb Hk Hst. destruct (take_spawned_Some k cb _ Hin Hcb) as [rest Hrest].
  exists rest. unfold step, handle. rewrite Hrest. unfold Scheduler.start. cbn.
  by rewrite Hk, Hst.
Qed.

Lemma round_finish (w : abstract_world T) l k cb t now time err :
  executing w = l ++ [Scheduler.mk_execution k cb (set_status t (Running now)) now] ->
  k ∉ (Scheduler.ex_key <$> l) -> id t = k ->
  pend w !! k = Some (set_status t (Running now)) ->
  0 <= failures (options t) -> failures (options t) + 1 < 2 ^ 32 ->
  let o := requeued_options (options t) now in
  0 <= execute_after_timestamp_in_secs o < 2 ^ 64 ->
  step w (EvFinish k (Err err) time) =
    mk_world
      (if (retry_policy_should_retry time (retry_policy (retry_strategy o)) (failures o)
           && match err with Unrecoverable _ => false | _ => true end)%bool
       then Scheduler.map_insert_task (sched w) k (requeued t now)
       else Scheduler.call_callback cb
              (Scheduler.set_pending (sched w) (delete k (pend w)))
              (set_status t (Failed now err)))
      (spawned_futures w) l.
Proof.
  intros Hex Hl Hid Hk Hf0 Hf1 o Ho. unfold step, handle.
  rewrite Hex, (take_execution_app k) by done. cbn [mbind outcome_bind].
  unfold Scheduler.finish. cbn. rewrite Hid, Hk. cbn.
  unfold Scheduler.failed_options. rewrite u_add_ok by (cbn; lia). cbn.
  unfold Scheduler.retry_decision, should_retry. cbn.
  destruct err as [msg|msg]; cbn; [rewrite andb_true_r|rewrite andb_false_r].
  - destruct (retry_policy_should_retry _ _ _); cbn.
    + rewrite u_add_ok by exact Ho. done.
    + done.
  - done.
Qed.

Lemma waiting_not_executing w k t ts :
  inv w -> pend w !! k = Some t -> status t = Waiting ts ->
  k ∉ (Scheduler.ex_key <$> executing w).
Proof.
  intros Hw Hk Hst Hin. eapply (inv_waiting w k t ts Hw Hk Hst).
  unfold futures. apply elem_of_app. by right.
Qed.

(** A launched or waiting task stays clear of overflow through a [run]. *)
Lemma run_effect_no_overflow timeout now t t' :
  0 <= now + timeout < 2 ^ 64 -> no_overflow timeout t ->
  run_effect timeout now t = Some t' -> no_overflow timeout t'.
Proof.
  intros Hnow Ht Hr.
  assert (status t' = status t \/ status t' = Scheduled now) as Hst'.
  { revert Hr. unfold run_effect. destruct (status t) eqn:Hst;
      try destruct (_ <=? _); try destruct (_ <? _); intros [= <-]; auto. }
  unfold no_overflow, is_launched in *. destruct Hst' as [->| ->]; auto.
Qed.

(** A whole round: the task is queued again with one more failure, or it is removed
    and reported as failed, according to its policy; nothing else is reported
    about it. *)
Lemma round_effect w k t ts time err :
  let now := time_secs time in
  inv w -> pend w !! k = Some t -> status t = Waiting ts ->
  execute_after_timestamp_in_secs (options t) <= now -> calm w ->
  0 <= now + Scheduler.running_task_timeout_secs (sched w) < 2 ^ 64 ->
  0 <= failures (options t) -> failures (options t) + 1 < 2 ^ 32 ->
  let o := requeued_options (options t) now in
  0 <= execute_after_timestamp_in_secs o < 2 ^ 64 ->
  let w' := steps w (failing_round k time err) in
  let retry := (retry_policy_should_retry time (retry_policy (retry_strategy o)) (failures o)
                && match err with Unrecoverable _ => false | _ => true end)%bool in
  inv w' /\ calm w' /\ same_frame (sched w) (sched w') /\
  pend w' !! k = (if retry then Some (requeued t now) else None) /\
  reports_of k w' = reports_of k w ++
    (if retry then [] else
     if Scheduler.on_completion_callback (sched w)
     then [set_status t (Failed now err)] else []).
Proof.
  intros now Hw Hk Hst Hdue Hcalm Hnow Hf0 Hf1 o Ho w' retry.
  pose proof (inv_seq w Hw) as Hseq. destruct (inv_pend w Hw k t Hk) as (Hkr & Hid & _).
  assert (Hw' : inv w').
  { apply steps_inv; [done|cbn; lia]. }
  destruct (round_run w k t ts time) as (s1 & keys & Hs1 & (Hf1' & Hf2' & Hf3') & Hin & Hv & Hks & Hrep);
    [done..|].
  set (cb := Scheduler.on_completion_callback (sched w)) in *.
  set (w1 := mk_world s1 _ (executing w)) in *.
  destruct (round_start w1 k cb (set_status t (Scheduled now)) now time) as (rest & Hs2); [..|done|done|].
  { apply elem_of_app. right. apply list_elem_of_fmap. by exists k. }
  { intros cb' [Hin'|(? & Heq & _)%list_elem_of_fmap]%elem_of_app; [|by injection Heq].
    destruct (inv_waiting w k t ts Hw Hk Hst). unfold futures, spawned. apply elem_of_app. left.
    apply list_elem_of_fmap. by exists (k, cb'). }
  change (set_status (set_status t (Scheduled now)) (Running (time_secs time)))
    with (set_status t (Running now)) in Hs2. fold now in Hs2.
  set (w2 := mk_world _ rest _) in Hs2.
  pose proof (round_finish w2 (executing w) k cb t now time err) as Hs3.
  assert (Heq : w' = mk_world (if retry then Scheduler.map_insert_task (sched w2) k (requeued t now)
       else Scheduler.call_callback cb (Scheduler.set_pending (sched w2) (delete k (pend w2)))
              (set_status t (Failed now err))) rest (executing w)).
  { unfold w', failing_round, steps. cbn [foldl]. rewrite Hs1, Hs2. apply Hs3; try done.
    - by eapply waiting_not_executing.
    - apply lookup_insert_eq. }
  assert (Hpend : forall k', pend w' !! k' =
    if decide (k' = k) then (if retry then Some (requeued t now) else None) else pending s1 !! k').
  { intros k'. rewrite Heq. destruct retry; unfold Scheduler.call_callback; cbn;
      [|destruct cb; cbn];
      destruct (decide (k' = k)) as [->|];
      rewrite ?lookup_insert_eq, ?lookup_delete_eq, ?lookup_insert_ne, ?lookup_delete_ne by done;
      rewrite ?lookup_insert_ne by done; done. }
  assert (Hframe : same_frame (sched w) (sched w')).
  { rewrite Heq. unfold same_frame, Scheduler.call_callback.
    by destruct retry; [|case cb]; cbn. }
  split; [done|]. split; [|split; [done|split]].
  - intros k' t' Hk'. rewrite Hpend in Hk'. destruct Hframe as (_ & -> & _).
    destruct (decide (k' = k)) as [->|].
    + destruct retry; [|done]. injection Hk' as <-. unfold no_overflow, is_launched. by cbn.
    + rewrite Hv in Hk'. destruct (pend w !! k') as [t0|] eqn:Ht0; [|done]. cbn in Hk'.
      eapply run_effect_no_overflow; [exact Hnow| |exact Hk']. by eapply Hcalm.
  - rewrite Hpend. by rewrite decide_True.
  - rewrite Heq. unfold reports_of. destruct retry; cbn.
    + rewrite Hrep. by rewrite app_nil_r.
    + unfold Scheduler.call_callback. destruct cb; cbn.
      * rewrite filter_app, Hrep. rewrite filter_cons_True by done. done.
      * rewrite Hrep. by rewrite app_nil_r.
Qed.

(** [n] failing rounds, the [i]-th at time [time i]. *)
Fixpoint failing_rounds (k : Z) (time : nat -> Z) (err : SchedulerError) (n : nat) :
    list (event T) :=
  match n with
  | O => []
  | S n => failing_rounds k time err n ++ failing_round k (time n) err
  end.

(** The times of the rounds [0] to [n] respect the backoff of the task. *)
Definition well_timed (o : TaskOptions) (timeout n : Z) (time : nat -> Z) : Prop :=
  execute_after_timestamp_in_secs o <= time_secs (time 0%nat) /\
  forall i : nat, Z.of_nat i <= n ->
    let now := time_secs (time i) in
    let delay := should_wait (backoff_policy (retry_strategy o)) (Z.of_nat i + 1) in
    0 <= now + timeout < 2 ^ 64 /\ 0 <= now + delay < 2 ^ 64 /\
    now + delay <= time_secs (time (S i)).

Lemma retry_rounds w k t ts n time msg (i : nat) :
  inv w -> pend w !! k = Some t -> status t = Waiting ts -> calm w ->
  failures (options t) = 0 -> retry_policy (retry_strategy (options t)) = MaxRetries n ->
  0 <= n < 2 ^ 32 - 1 ->
  well_timed (options t) (Scheduler.running_task_timeout_secs (sched w)) n time ->
  Z.of_nat i <= n ->
  let w' := steps w (failing_rounds k time (TaskExecutionFailed msg) i) in
  inv w' /\ calm w' /\ same_frame (sched w) (sched w') /\
  reports_of k w' = reports_of k w /\
  exists t' ts', pend w' !! k = Some t' /\ status t' = Waiting ts' /\
    failures (options t') = Z.of_nat i /\
    retry_strategy (options t') = retry_strategy (options t) /\
    execute_after_timestamp_in_secs (options t') <= time_secs (time i).
Proof.
  intros Hw Hk Hst Hcalm Hf Hpol Hn [Hdue Htime]. induction i as [|i IH]; intros Hi.
  { cbn. split_and!; try done. by exists t, ts. }
  destruct IH as (Hw1 & Hc1 & Hfr1 & Hrep1 & t1 & ts1 & Hk1 & Hst1 & Hf1 & Hstr1 & Hdue1); [lia|].
  cbn [failing_rounds]. unfold steps in *. rewrite foldl_app.
  set (w1 := foldl step w _) in *.
  destruct (Htime i ltac:(lia)) as (Ht1 & Ht2 & Ht3).
  destruct Hfr1 as (Hcb1 & Hto1 & Hsq1).
  destruct (round_effect w1 k t1 ts1 (time i) (TaskExecutionFailed msg)) as
    (Hw2 & Hc2 & Hfr2 & Hk2 & Hrep2); try done; try (rewrite ?Hf1, ?Hto1; lia).
  { cbn. rewrite Hf1, Hstr1. lia. }
  cbn in Hk2, Hrep2. rewrite Hf1, Hstr1, Hpol in Hk2, Hrep2.
  unfold retry_policy_should_retry in Hk2, Hrep2.
  rewrite (proj2 (Z.eqb_neq _ _)), (proj2 (Z.leb_le _ _)) in Hk2, Hrep2 by lia.
  cbn in Hk2, Hrep2. unfold steps in *. split_and!; try done.
  - by eapply same_frame_trans.
  - etrans; [exact Hrep2|]. by rewrite app_nil_r.
  - exists (requeued t1 (time_secs (time i))), (time_secs (time i)).
    split; [exact Hk2|]. cbn. rewrite Hf1, Hstr1. split_and!; [done|lia|done|lia].
Qed.

Lemma retry_rounds_end w k t ts n time msg :
  inv w -> pend w !! k = Some t -> status t = Waiting ts -> calm w ->
  failures (options t) = 0 -> retry_policy (retry_strategy (options t)) = MaxRetries n ->
  0 <= n < 2 ^ 32 - 1 ->
  well_timed (options t) (Scheduler.running_task_timeout_secs (sched w)) n time ->
  let w' := steps w (failing_rounds k time (TaskExecutionFailed msg) (Z.to_nat (n + 1))) in
  pend w' !! k = None /\
  exists t', id t' = k /\
    reports_of k w' = reports_of k w ++
      (if Scheduler.on_completion_callback (sched w)
       then [set_status t' (Failed (time_secs (time (Z.to_nat n))) (TaskExecutionFailed msg))]
       else []).
Proof.
  intros Hw Hk Hst Hcalm Hf Hpol Hn Hwt. pose proof Hwt as [_ Htime].
  replace (Z.to_nat (n + 1)) with (S (Z.to_nat n)) by lia.
  destruct (retry_rounds w k t ts n time msg (Z.to_nat n)) as
    (Hw1 & Hc1 & (Hcb1 & Hto1 & Hsq1) & Hrep1 & t1 & ts1 & Hk1 & Hst1 & Hf1 & Hstr1 & Hdue1);
    [done..|lia|].
  cbn [failing_rounds]. unfold steps in *. rewrite foldl_app.
  set (w1 := foldl step w _) in *. destruct (Htime (Z.to_nat n) ltac:(lia)) as (Ht1 & Ht2 & Ht3).
  destruct (round_effect w1 k t1 ts1 (time (Z.to_nat n)) (TaskExecutionFailed msg)) as
    (Hw2 & Hc2 & Hfr2 & Hk2 & Hrep2); try done; try (rewrite ?Hf1, ?Hto1; lia).
  { cbn. rewrite Hf1, Hstr1. lia. }
  cbn in Hk2, Hrep2. rewrite Hf1, Hstr1, Hpol in Hk2, Hrep2.
  unfold retry_policy_should_retry in Hk2, Hrep2.
  rewrite (proj2 (Z.eqb_neq _ _)), (proj2 (Z.leb_gt _ _)) in Hk2, Hrep2 by lia.
  cbn in Hk2, Hrep2. split; [exact Hk2|]. exists t1.
  split; [by destruct (inv_pend w1 Hw1 k t1 Hk1) as (_ & ? & _)|].
  etrans; [exact Hrep2|]. rewrite Hrep1, Hcb1. done.
Qed.
End rounds.
