(* ===== verification/SchedulerProps.v ===== *)
(** * Properties of the task scheduler

    Stated for a scheduler over any map and cell that satisfy the interfaces of
    [Structure.v], by way of the simulation of [Scheduler.v]. *)

From S2P Require Import Prelude StableLib Concrete Structure StableStorage Task Scheduler SchedulerProofs.
Local Open Scope Z_scope.

#[local] Existing Instance gmap_map.
#[local] Existing Instance gmap_sorted_map.
#[local] Existing Instance counter_cell.

(** The tasks a scheduler stores. *)
Notation stored s := (pending (abs s)).

(** ** The demonstration scheduler of the witnesses *)

Definition demo_map : Type := StableBTreeMap.t Z (InnerScheduledTask string) unit.
Definition demo_cell : Type := StableCell.t Z unit.

Definition demo_task (k : Z) (o : TaskOptions) (st : TaskStatus) : InnerScheduledTask string :=
  mk_inner k "task"%string o st.

Definition demo_sched (ts : gmap Z (InnerScheduledTask string)) (seq : Z) :
    Scheduler.t string demo_map demo_cell :=
  {| pending := ts; Scheduler.on_completion_callback := true; Scheduler.callback_calls := [];
     Scheduler.running_task_timeout_secs := DEFAULT_RUNNING_TASK_TIMEOUT_SECS;
     Scheduler.task_id_sequence := seq |}.

Definition demo_world (ts : gmap Z (InnerScheduledTask string)) (seq : Z) :
    world string demo_map demo_cell := mk_world (demo_sched ts seq) [] [].

Lemma demo_ok ts seq : ok (demo_sched ts seq).
Proof. split; [exact I|]. intros. exact I. Defined.

Definition retry_twice : TaskOptions := with_max_retries_policy TaskOptions_new 2.

Definition waiting_map : gmap Z (InnerScheduledTask string) :=
  {[ 0 := demo_task 0 retry_twice (Waiting 5) ]}.

Lemma waiting_map_lookup k t :
  waiting_map !! k = Some t -> k = 0 /\ t = demo_task 0 retry_twice (Waiting 5).
Proof.
  unfold waiting_map. rewrite lookup_singleton_Some. naive_solver.
Qed.

Lemma demo_inv : inv (abs_world (demo_world waiting_map 1)).
Proof.
  split; cbn.
  - lia.
  - intros k t [-> ->]%waiting_map_lookup. cbn. split; [lia|done].
  - by apply NoDup_nil.
  - by apply Forall_nil.
  - by apply Forall_nil.
  - by apply Forall_nil.
Qed.

Lemma demo_calm : calm (abs_world (demo_world waiting_map 1)).
Proof. intros k t [-> ->]%waiting_map_lookup. done. Qed.

Section props.
Context `{Target} {T P S : Type}.
Context `{!BTreeMapStructure P Z (InnerScheduledTask T),
          !IterableSortedMapStructure P Z (InnerScheduledTask T),
          !BTreeMapStructureLaws P Z (InnerScheduledTask T),
          !IterableSortedMapStructureLaws P Z (InnerScheduledTask T),
          CellStructureLaws S Z}.
Implicit Types (s : Scheduler.t T P S) (w : world T P S).

(** C9: [run] launches exactly the waiting tasks that are due, in key order, and
    returns how many; a launched task is marked [Scheduled]; a task launched
    earlier whose deadline has passed is removed and, with a callback set,
    reported as [TimeoutOrPanic], in key order; every other task, and the other
    fields of the scheduler, are unchanged. *)
Theorem scheduler_run_effect s (time : Z) :
  let now := time_secs time in
  let timeout := Scheduler.running_task_timeout_secs s in
  ok s ->
  (forall k t, stored s !! k = Some t -> no_overflow timeout t) ->
  let due := keys_of (is_due now) (sorted_entries (stored s)) in
  let late := keys_of (is_late timeout now) (sorted_entries (stored s)) in
  exists s', Scheduler.run s time = Ret (zlength due, due, s') /\ ok s' /\
    (forall k, stored s' !! k = stored s !! k ≫= run_effect timeout now) /\
    Scheduler.callback_calls s' = Scheduler.callback_calls s ++
      (if Scheduler.on_completion_callback s
       then omap (fun k => timed_out now <$> stored s !! k) late else []) /\
    Scheduler.running_task_timeout_secs s' = timeout /\
    cell_get (Scheduler.task_id_sequence s') = cell_get (Scheduler.task_id_sequence s).
Proof.
  intros now timeout Hs Hov due late.
  destruct (run_ok (abs s) time Hov) as (a & Hr & (Hcb & Hto & Hsq) & Hv & Hc).
  pose proof (abs_run s time Hs) as Ha. unfold sim_outcome in Ha.
  destruct (Scheduler.run s time) as [[[n ks] s']|]; rewrite Ha in Hr || destruct Ha as [Ha Hs'];
    [|done].
  rewrite Hr in Ha. injection Ha as <- <- ->.
  exists s'. split_and!; try done.
Qed.

(** C1: From a state that satisfies the invariant (stored ids below the next id,
    only live statuses stored, at most one future per task, a future's task
    either gone or in the status the future expects), every sequence of
    appends, reschedules, runs, starts, ends, traps and upgrades preserves it,
    as long as the ids do not run out; in particular no task has two
    executions in flight, and no waiting task has any. *)
Theorem scheduler_invariant w (evs : list (event T)) :
  ok (sched w) -> inv (abs_world w) ->
  cell_get (Scheduler.task_id_sequence (sched w)) + total_appended evs < 2 ^ 64 ->
  let w' := steps w evs in
  inv (abs_world w') /\ ok (sched w') /\
  NoDup (spawned w' ++ (Scheduler.ex_key <$> executing w')) /\
  (forall k t ts, stored (sched w') !! k = Some t -> status t = Waiting ts ->
     k ∉ spawned w' ++ (Scheduler.ex_key <$> executing w')) /\
  cell_get (Scheduler.task_id_sequence (sched w')) =
    cell_get (Scheduler.task_id_sequence (sched w)) + total_appended evs.
Proof.
  intros Hs Hw Hseq w'. destruct (abs_steps w evs Hs) as [Ha Hs'].
  destruct (steps_inv (abs_world w) evs Hw Hseq) as [Hinv Hq].
  rewrite <- Ha in Hinv, Hq. fold w' in Hinv, Hq, Hs'. split_and!; try done.
  - apply (inv_futures _ Hinv).
  - intros k t ts Hk Hst. by apply (inv_waiting (abs_world w') k t ts Hinv).
Qed.

(** C5: No task is lost: with a completion callback set and as long as the
    canister is not upgraded, every id handed out since the initial state is
    still stored or has been reported to the callback, whatever the
    interleaving of runs, executions and traps. *)
Theorem scheduler_no_task_lost w (evs : list (event T)) (k : Z) :
  ok (sched w) -> inv (abs_world w) ->
  cell_get (Scheduler.task_id_sequence (sched w)) + total_appended evs < 2 ^ 64 ->
  Scheduler.on_completion_callback (sched w) = true -> EvUpgrade ∉ evs ->
  cell_get (Scheduler.task_id_sequence (sched w)) <= k <
    cell_get (Scheduler.task_id_sequence (sched w)) + total_appended evs ->
  let w' := steps w evs in
  is_Some (stored (sched w') !! k) \/
  k ∈ id <$> Scheduler.callback_calls (sched w').
Proof.
  intros Hs Hw Hseq Hcb Hup Hk w'. destruct (abs_steps w evs Hs) as [Ha Hs'].
  destruct (steps_inv (abs_world w) evs Hw Hseq) as [_ Hq].
  assert (Hacc : accounted (cell_get (Scheduler.task_id_sequence (sched w)))
                   (steps (abs_world w) evs)).
  { apply steps_accounted; try done; [by apply (seq_heard (abs_world w))|]. intros k' Hk'. cbn in Hk'. lia. }
  rewrite <- Ha in Hacc, Hq. apply Hacc. cbn in *. unfold w'. lia.
Qed.

(** C14: A task with [MaxRetries n] that keeps failing recoverably is executed
    exactly [n + 1] times: after [i <= n] failed rounds that respect its backoff
    it is waiting again with [i] failures counted and nothing reported; after
    [n + 1] rounds it is removed and reported exactly once, as [Failed]. *)
Theorem scheduler_max_retries w (k : Z) (t : InnerScheduledTask T) (ts n : Z)
    (time : nat -> Z) (msg : string) (i : nat) :
  ok (sched w) -> inv (abs_world w) -> calm (abs_world w) ->
  stored (sched w) !! k = Some t -> status t = Waiting ts ->
  failures (options t) = 0 -> retry_policy (retry_strategy (options t)) = MaxRetries n ->
  0 <= n < 2 ^ 32 - 1 ->
  well_timed (options t) (Scheduler.running_task_timeout_secs (sched w)) n time ->
  Z.of_nat i <= n ->
  let after i := steps w (failing_rounds k time (TaskExecutionFailed msg) i) in
  (exists t' ts', stored (sched (after i)) !! k = Some t' /\ status t' = Waiting ts' /\
     failures (options t') = Z.of_nat i /\
     reports_of k (abs_world (after i)) = reports_of k (abs_world w)) /\
  stored (sched (after (Z.to_nat (n + 1)))) !! k = None /\
  exists t', id t' = k /\
    reports_of k (abs_world (after (Z.to_nat (n + 1)))) = reports_of k (abs_world w) ++
      (if Scheduler.on_completion_callback (sched w)
       then [set_status t' (Failed (time_secs (time (Z.to_nat n))) (TaskExecutionFailed msg))]
       else []).
Proof.
  intros Hs Hw Hc Hk Hst Hf Hpol Hn Hwt Hi after.
  destruct (retry_rounds (abs_world w) k t ts n time msg i) as
    (_ & _ & _ & Hrep & t' & ts' & Hk' & Hst' & Hf' & _); [done..|].
  destruct (retry_rounds_end (abs_world w) k t ts n time msg) as (Hend & Hrep'); [done..|].
  pose proof (fun i => proj1 (abs_steps w (failing_rounds k time (TaskExecutionFailed msg) i) Hs))
    as Ha.
  rewrite <- Ha in Hk', Hrep, Hend. setoid_rewrite <- Ha in Hrep'.
  split; [|by split]. exists t', ts'. by split_and!.
Qed.

(** C32: One failed execution of a waiting, due task: an [Unrecoverable] error, or
    one the retry policy does not cover, removes the task and reports it as
    [Failed] exactly once; otherwise it is queued again with one more failure
    and the delay of its backoff policy, and nothing is reported about it. *)
Theorem scheduler_failed_execution w (k : Z) (t : InnerScheduledTask T) (ts time : Z)
    (err : SchedulerError) :
  let now := time_secs time in
  let o := requeued_options (options t) now in
  ok (sched w) -> inv (abs_world w) -> calm (abs_world w) ->
  stored (sched w) !! k = Some t -> status t = Waiting ts ->
  execute_after_timestamp_in_secs (options t) <= now ->
  0 <= now + Scheduler.running_task_timeout_secs (sched w) < 2 ^ 64 ->
  0 <= failures (options t) -> failures (options t) + 1 < 2 ^ 32 ->
  0 <= execute_after_timestamp_in_secs o < 2 ^ 64 ->
  let w' := steps w (failing_round k time err) in
  let retry := (retry_policy_should_retry time (retry_policy (retry_strategy o)) (failures o)
                && match err with Unrecoverable _ => false | _ => true end)%bool in
  stored (sched w') !! k = (if retry then Some (requeued t now) else None) /\
  reports_of k (abs_world w') = reports_of k (abs_world w) ++
    (if retry then [] else
     if Scheduler.on_completion_callback (sched w)
     then [set_status t (Failed now err)] else []).
Proof.
  intros now o Hs Hw Hc Hk Hst Hdue Hnow Hf0 Hf1 Ho w' retry.
  destruct (round_effect (abs_world w) k t ts time err) as (_ & _ & _ & Hp & Hr); [done..|].
  destruct (abs_steps w (failing_round k time err) Hs) as [Ha _].
  rewrite <- Ha in Hp, Hr. by split.
Qed.

(** [append_tasks] stores its tasks, waiting, under consecutive ids that
    start at the next id of the sequence, returns these ids in order, advances
    the sequence past them and leaves the other entries alone; [get_task] then
    finds each of them. *)
Theorem scheduler_append_tasks s (time : Z) (ts : list (ScheduledTask T)) :
  let next := cell_get (Scheduler.task_id_sequence s) in
  ok s -> 0 <= next -> next + zlength ts < 2 ^ 64 ->
  exists s', Scheduler.append_tasks s time ts = Ret (seqZ next (zlength ts), s') /\ ok s' /\
    cell_get (Scheduler.task_id_sequence s') = next + zlength ts /\
    forall k, (Scheduler.get_task s' k).1 =
      match zlookup ts (k - next) with
      | Some t => Some (with_status k t (Waiting (time_secs time)))
      | None => stored s !! k
      end.
Proof.
  intros next Hs Hn Hlen.
  destruct (append_tasks_ok (abs s) time ts) as (a & Hr & Hsq & _ & _ & _ & Hv); [done..|].
  pose proof (abs_append_tasks s time ts Hs) as Ha. unfold sim_outcome in Ha.
  destruct (Scheduler.append_tasks s time ts) as [[keys s']|]; [|by rewrite Ha in Hr].
  destruct Ha as [Ha Hs']. rewrite Hr in Ha. injection Ha as <- ->.
  exists s'. split_and!; try done. intros k.
  unfold Scheduler.get_task. destruct (abs_get s' k Hs') as (-> & _). apply Hv.
Qed.

(** [find_id] returns the least id whose task satisfies the predicate, and
    [None] only if no stored task does; [reschedule] replaces the options of the
    task and nothing else, and does nothing for an unknown id. *)
Theorem scheduler_find_reschedule s (f : T -> bool) (k : Z) (o : TaskOptions) :
  ok s ->
  match Scheduler.find_id s f with
  | Some i => (exists t, stored s !! i = Some t /\ f (task t) = true) /\
      forall j t, stored s !! j = Some t -> f (task t) = true -> i <= j
  | None => forall j t, stored s !! j = Some t -> f (task t) = false
  end /\
  stored (Scheduler.reschedule s k o) =
    match stored s !! k with
    | Some t => <[k := set_options t o]> (stored s)
    | None => stored s
    end.
Proof.
  intros Hs. split.
  - unfold Scheduler.find_id. rewrite (map_iter_law P Z _ _ (proj1 Hs)).
    change (map_view P Z _ (pending s)) with (stored s).
    destruct (list_find _ _) as [[i [k' t]]|] eqn:Hf; cbn.
    + apply list_find_Some in Hf as (Hi & Ht & Hmin). cbn in Ht. split.
      * exists t. split; [|by apply Is_true_eq_true].
        apply elem_of_sorted_entries. by eapply list_elem_of_lookup_2.
      * intros j tj Hj%elem_of_sorted_entries Hfj.
        apply list_elem_of_lookup in Hj as [l Hl].
        destruct (decide (l < i)%nat) as [Hlt|Hge].
        { destruct (Hmin l _ Hl Hlt). by apply Is_true_eq_left. }
        destruct (decide (l = i)) as [->|].
        { pose proof (eq_trans (eq_sym Hl) Hi). simplify_eq. lia. }
        assert (Hle : entry_le (k', t) (j, tj)).
        { eapply StronglySorted_lookup; [apply sorted_entries_sorted|exact Hi|exact Hl|lia]. }
        unfold entry_le, key_le in Hle. cbn in Hle. lia.
    + apply list_find_None in Hf. intros j t Hj%elem_of_sorted_entries.
      rewrite Forall_forall in Hf. specialize (Hf _ Hj). cbn in Hf.
      by destruct (f (task t)).
  - destruct (abs_reschedule s k o Hs) as [-> _]. unfold Scheduler.reschedule. cbn.
    by destruct (map_view P Z _ (pending s) !! k).
Qed.
End props.

(** ** Witnesses *)

Definition mixed_map : gmap Z (InnerScheduledTask string) :=
  {[ 0 := demo_task 0 retry_twice (Waiting 5);
     1 := demo_task 1 TaskOptions_new (Running 7);
     2 := demo_task 2 (with_execute_after_timestamp_in_secs TaskOptions_new 900) (Waiting 7) ]}.

Lemma scheduler_run_effect_witness :
  exists s', Scheduler.run (H := wasm_release) (demo_sched mixed_map 3) (500 * 10 ^ 9)
      = Ret (1, [0], s') /\
    stored s' !! 0 = Some (demo_task 0 retry_twice (Scheduled 500)) /\ stored s' !! 1 = None /\
    Scheduler.callback_calls s' = [demo_task 1 TaskOptions_new (TimeoutOrPanic 500)].
Proof.
  destruct (scheduler_run_effect (H := wasm_release) (demo_sched mixed_map 3) (500 * 10 ^ 9)
    (demo_ok _ _)) as (s' & Hr & _ & Hv & Hc & _).
  - intros k t Hk.
    cbn in Hk. unfold mixed_map in Hk. unfold no_overflow, is_launched.
    rewrite !lookup_insert_Some, lookup_singleton_Some in Hk.
    destruct Hk as [[<- <-]|[_ [[<- <-]|[_ [<- <-]]]]]; by_compute.
  - exists s'. split_and!.
    + exact Hr.
    + rewrite Hv. vm_compute. reflexivity.
    + rewrite Hv. vm_compute. reflexivity.
    + rewrite Hc. vm_compute. reflexivity.
Defined.

Definition demo_events : list (event string) :=
  [EvAppend (6 * 10 ^ 9) [ScheduledTask_new "a"%string; ScheduledTask_new "b"%string];
   EvRun (10 * 10 ^ 9); EvStart 1 (10 * 10 ^ 9); EvStart 0 (11 * 10 ^ 9);
   EvFinish 1 (Ok tt) (12 * 10 ^ 9); EvTrap 0; EvRun (500 * 10 ^ 9)].

Lemma scheduler_invariant_witness :
  inv (abs_world (steps (H := wasm_release) (demo_world waiting_map 1) demo_events)).
Proof.
  apply (scheduler_invariant (H := wasm_release) (demo_world waiting_map 1) demo_events).
  - apply demo_ok.
  - apply demo_inv.
  - by_compute.
Defined.

Lemma scheduler_no_task_lost_witness :
  let w' := steps (H := wasm_release) (demo_world waiting_map 1) demo_events in
  is_Some (stored (sched w') !! 2) \/ 2 ∈ id <$> Scheduler.callback_calls (sched w').
Proof.
  apply (scheduler_no_task_lost (H := wasm_release) (demo_world waiting_map 1) demo_events 2).
  - apply demo_ok.
  - apply demo_inv.
  - by_compute.
  - reflexivity.
  - unfold demo_events. rewrite !not_elem_of_cons. split_and!; try done. apply not_elem_of_nil.
  - by_compute.
Defined.

(** One round every two seconds, the default backoff. *)
Definition demo_times (i : nat) : Z := (10 + 2 * Z.of_nat i) * 10 ^ 9.

Lemma demo_times_secs i : time_secs (demo_times i) = 10 + 2 * Z.of_nat i.
Proof. unfold time_secs, demo_times. by rewrite Z.div_mul by lia. Qed.

Lemma demo_well_timed : well_timed retry_twice 120 2 demo_times.
Proof.
  split; [rewrite demo_times_secs; cbn; lia|]. intros i Hi. rewrite !demo_times_secs.
  unfold should_wait. rewrite (proj2 (Z.eqb_neq _ _)) by lia. cbn [retry_twice backoff_policy
    retry_strategy with_max_retries_policy with_retry_policy TaskOptions_new
    RetryStrategy_default]. lia.
Qed.

Lemma scheduler_max_retries_witness :
  stored (sched (steps (H := wasm_release) (demo_world waiting_map 1)
    (failing_rounds 0 demo_times (TaskExecutionFailed "boom"%string) 3))) !! 0 = None.
Proof.
  eapply (scheduler_max_retries (H := wasm_release) (demo_world waiting_map 1) 0
    (demo_task 0 retry_twice (Waiting 5)) 5 2 demo_times "boom"%string 1).
  - apply demo_ok.
  - apply demo_inv.
  - apply demo_calm.
  - reflexivity.
  - reflexivity.
  - reflexivity.
  - reflexivity.
  - lia.
  - apply demo_well_timed.
  - lia.
Defined.

Lemma scheduler_failed_execution_witness :
  stored (sched (steps (H := wasm_release) (demo_world waiting_map 1)
    (failing_round 0 (10 * 10 ^ 9) (Unrecoverable "bad"%string)))) !! 0 = None.
Proof.
  apply (scheduler_failed_execution (H := wasm_release) (demo_world waiting_map 1) 0
    (demo_task 0 retry_twice (Waiting 5)) 5 (10 * 10 ^ 9) (Unrecoverable "bad"%string)).
  - apply demo_ok.
  - apply demo_inv.
  - apply demo_calm.
  - reflexivity.
  - reflexivity.
  - by_compute.
  - by_compute.
  - by_compute.
  - by_compute.
  - by_compute.
Defined.

Lemma scheduler_append_tasks_witness :
  exists s', Scheduler.append_tasks (H := wasm_release) (demo_sched waiting_map 1) (7 * 10 ^ 9)
      [ScheduledTask_new "a"%string; ScheduledTask_new "b"%string] = Ret ([1; 2], s') /\
    (Scheduler.get_task s' 2).1 =
      Some (mk_inner 2 "b"%string TaskOptions_new (Waiting 7)).
Proof.
  destruct (scheduler_append_tasks (H := wasm_release) (demo_sched waiting_map 1) (7 * 10 ^ 9)
    [ScheduledTask_new "a"%string; ScheduledTask_new "b"%string]) as (s' & Hr & _ & _ & Hv).
  - apply demo_ok.
  - by_compute.
  - by_compute.
  - exists s'. split; [exact Hr|]. rewrite Hv. reflexivity.
Defined.

Lemma scheduler_find_reschedule_witness :
  stored (Scheduler.reschedule (demo_sched waiting_map 1) 7 TaskOptions_new) = waiting_map.
Proof.
  destruct (scheduler_find_reschedule (demo_sched waiting_map 1) (fun _ => true) 7
    TaskOptions_new (demo_ok _ _)) as [_ Hr]. exact Hr.
Defined.

(** ** Where the behaviour is not what it means to be *)

(** The world of one task, appended, launched, started, and then considered stuck
    because its execution takes longer than the timeout. *)
Definition stuck_events (res : result unit SchedulerError) : list (event string) :=
  [EvRun (10 * 10 ^ 9); EvStart 0 (10 * 10 ^ 9); EvRun (200 * 10 ^ 9);
   EvFinish 0 res (201 * 10 ^ 9)].

(** A task that [run] removes because its execution exceeds the timeout may
    still be executing.  If that execution then fails recoverably, the task,
    although already reported as [TimeoutOrPanic], is stored again as waiting,
    executed again and reported a second time; if it succeeds instead, the future
    panics on the missing entry and the success is never reported. *)
Theorem scheduler_timed_out_task_resurrected :
  let after evs := steps (H := wasm_release) (demo_world waiting_map 1) evs in
  let w1 := after (stuck_events (Err (TaskExecutionFailed "late"%string))) in
  let w2 := after (stuck_events (Err (TaskExecutionFailed "late"%string)) ++
      [EvRun (300 * 10 ^ 9); EvStart 0 (300 * 10 ^ 9); EvFinish 0 (Ok tt) (300 * 10 ^ 9)]) in
  (stored (sched w1) !! 0 <> None /\
   status <$> Scheduler.callback_calls (sched w1) = [TimeoutOrPanic 200]) /\
  (id <$> Scheduler.callback_calls (sched w2) = [0; 0] /\
   status <$> Scheduler.callback_calls (sched w2) = [TimeoutOrPanic 200; Completed 300]) /\
  handle (H := wasm_release) (after (take 3 (stuck_events (Ok tt))))
    (EvFinish 0 (Ok tt) (201 * 10 ^ 9)) = Panic.
Proof. by_compute. Qed.

Definition with_timeout (secs : Z) (w : world string demo_map demo_cell) :
    world string demo_map demo_cell :=
  with_sched w (Scheduler.set_running_task_timeout (sched w) secs).

(** The deadline [timestamp_secs + running_task_timeout_secs] overflows for a
    timeout of [u64::MAX] ("never time out"): in a release build it wraps around
    and [run] removes a task launched in the same second as timed out; with
    overflow checks [run] panics as soon as a task is launched. *)
Theorem scheduler_timeout_overflow :
  let launched H := steps (H := H) (with_timeout (2 ^ 64 - 1) (demo_world waiting_map 1))
                      [EvRun (10 * 10 ^ 9); EvStart 0 (10 * 10 ^ 9)] in
  status <$> stored (sched (launched wasm_release)) !! 0 = Some (Running 10) /\
  status <$> Scheduler.callback_calls
    (sched (step (H := wasm_release) (launched wasm_release) (EvRun (10 * 10 ^ 9)))) =
    [TimeoutOrPanic 10] /\
  handle (H := x64_debug) (launched x64_debug) (EvRun (10 * 10 ^ 9)) = Panic.
Proof. by_compute. Qed.
