(* ===== verification/Payments.v ===== *)
(** * Payments: errors, accounts and transfers

    [ic-payments/src/{error,balances,lib,icrc1,transfer}.rs].  The ICRC-1 account
    type, the hash function and the byte encoding of big naturals belong to
    other crates and are parameters; amounts ([candid::Nat]) are unbounded
    naturals. *)

From S2P Require Import Prelude.
Local Open Scope Z_scope.

(** A principal, a subaccount and a memo are byte strings. *)
Definition Principal : Type := list Z.
Definition Subaccount : Type := list Z.
Definition Memo : Type := list Z.
Definition TxId : Type := N.
Definition Timestamp : Type := Z.

Record Account := mk_account { owner : Principal; subaccount : option Subaccount }.

(** The parts of [icrc_types], [sha2] and [num_bigint] the transfers use. *)
Class PaymentLib := {
  effective_subaccount : Account -> Subaccount;
  account_eqb : Account -> Account -> bool;
  management_canister : Principal;
  sha224 : list Z -> list Z;
  nat_to_bytes_le : N -> list Z;
  account_of_principal : Principal -> Account;
  memo_of_u64 : Z -> Memo;
}.

(** Accounts are compared by owner and effective subaccount, the default
    subaccount being 32 zero bytes; SHA-224 digests have 28 bytes. *)
Class PaymentLibLaws `{PaymentLib} := {
  effective_subaccount_law a :
    effective_subaccount a = default (replicate 32 0) (subaccount a);
  account_eqb_law a b :
    account_eqb a b = true <->
    owner a = owner b /\ effective_subaccount a = effective_subaccount b;
  sha224_length bs : length (sha224 bs) = 28%nat;
  account_of_principal_law p : account_of_principal p = mk_account p None;
}.

(** ** error.rs and balances.rs *)

(** [icrc1::transfer::TransferError]. *)
Inductive TransferError :=
  | BadFee (expected_fee : N)
  | BadBurn (min_burn_amount : N)
  | InsufficientFunds (balance : N)
  | TooOld
  | CreatedInFuture (ledger_time : Z)
  | TemporarilyUnavailable
  | Duplicate (duplicate_of : N)
  | GenericError (error_code : N) (message : string).

(** [ic_cdk::api::call::RejectionCode]. *)
Inductive RejectionCode :=
  | NoError | SysFatal | SysTransient | DestinationInvalid | CanisterReject
  | CanisterError | UnknownCode.

Inductive BalanceError :=
  | BalanceInsufficientFunds
  | BalanceFatal (msg : string).

Inductive TransferFailReason :=
  | NotFound
  | TokenPanic (msg : string)
  | Rejected (e : TransferError)
  | FailTooOld
  | FailUnknown.

Inductive RecoveryDetails :=
  | IcError
  | RecoveryBadFee (fee : N).

Inductive ParametersError :=
  | AmountTooSmall (minimum_required actual : N)
  | TargetAccountInvalid.

Inductive PaymentError :=
  | PE_InvalidParameters (e : ParametersError)
  | PE_TransferFailed (r : TransferFailReason)
  | PE_BadFee (fee : N)
  | PE_Recoverable (d : RecoveryDetails)
  | PE_InsufficientFunds
  | PE_Fatal (msg : string).

Inductive InternalPaymentError :=
  | TransferFailed (r : TransferFailReason)
  | WrongFee (fee : N)
  | MaybeFailed
  | InvalidParameters (e : ParametersError)
  | Overflow.

Definition InternalPaymentError_from_rejection (code : RejectionCode) (message : string) :
    InternalPaymentError :=
  match code with
  | DestinationInvalid => TransferFailed NotFound
  | CanisterError => TransferFailed (TokenPanic message)
  | UnknownCode | SysFatal | SysTransient | CanisterReject | NoError => MaybeFailed
  end.

Definition InternalPaymentError_from_TransferError (err : TransferError) : InternalPaymentError :=
  match err with
  | BadFee expected_fee => WrongFee expected_fee
  | _ => TransferFailed (Rejected err)
  end.

Definition PaymentError_from_internal (internal : InternalPaymentError) : PaymentError :=
  match internal with
  | TransferFailed reason => PE_TransferFailed reason
  | MaybeFailed => PE_Recoverable IcError
  | WrongFee expected => PE_BadFee expected
  | Overflow => PE_Fatal "token amount overflow"
  | InvalidParameters v => PE_InvalidParameters v
  end.

Definition PaymentError_from_BalanceError (value : BalanceError) : PaymentError :=
  match value with
  | BalanceInsufficientFunds => PE_InsufficientFunds
  | BalanceFatal v => PE_Fatal v
  end.

(** [trait Balances]. *)
Class Balances (B : Type) := {
  bal_credit : B -> Principal -> N -> result N BalanceError * B;
  bal_debit : B -> Principal -> N -> result N BalanceError * B;
}.

(** ** TokenConfiguration *)

Record TokenConfiguration := mk_config {
  cfg_principal : Principal;
  cfg_fee : N;
  minting_account : Account;
}.

Definition get_fee `{PaymentLib} (c : TokenConfiguration) (from_acc to_acc : Account) : N :=
  if account_eqb from_acc (minting_account c) || account_eqb to_acc (minting_account c)
  then 0%N else cfg_fee c.

(** ** The outside world

    The token canister and the IC, as seen by [virtual_canister_call!] and
    [ic::time()]: every call may change the world, and fails with a rejection
    or answers what the canister answers. *)

(** [icrc1::transfer::TransferArg]. *)
Record TransferArg := mk_arg {
  arg_from_subaccount : option Subaccount;
  arg_to : Account;
  arg_amount : N;
  arg_fee : option N;
  arg_memo : option Memo;
  arg_created_at_time : option Timestamp;
}.

Definition rejection : Type := RejectionCode * string.

Class World (W : Type) := {
  ic_id : Principal;
  ic_time : W -> Timestamp;
  call_icrc1_transfer : W -> Principal -> TransferArg ->
    result (result TxId TransferError) rejection * W;
  call_icrc1_balance_of : W -> Principal -> Account -> result N rejection * W;
  call_icrc1_fee : W -> Principal -> result N rejection * W;
  call_icrc1_minting_account : W -> Principal -> result (option Account) rejection * W;
}.

(** ** icrc1.rs *)

Section icrc1.
Context {W : Type} `{PaymentLib, World W}.

Definition from_rejection {A} (r : result A rejection) : result A InternalPaymentError :=
  map_err (fun e => InternalPaymentError_from_rejection e.1 e.2) r.

Record TokenTransferInfo := {
  token_tx_id : TxId;
  token_principal : Principal;
  amount_transferred : N;
}.

Definition get_icrc1_balance (w : W) (token : Principal) (account : Account) :
    result N InternalPaymentError * W :=
  let '(r, w) := call_icrc1_balance_of w token account in (from_rejection r, w).

(** [.await??]: first the rejection, then the error of the token canister. *)
Definition transfer_icrc1 (w : W) (token : Principal) (args : TransferArg) :
    result TokenTransferInfo InternalPaymentError * W :=
  let '(r, w) := call_icrc1_transfer w token args in
  (match from_rejection r with
   | Err e => Err e
   | Ok (Err e) => Err (InternalPaymentError_from_TransferError e)
   | Ok (Ok tx_id) =>
       Ok {| token_tx_id := tx_id; amount_transferred := arg_amount args;
             token_principal := token |}
   end, w).

Definition get_icrc1_fee (w : W) (token : Principal) : result N InternalPaymentError * W :=
  let '(r, w) := call_icrc1_fee w token in (from_rejection r, w).

Definition get_icrc1_minting_account (w : W) (token : Principal) :
    result (option Account) InternalPaymentError * W :=
  let '(r, w) := call_icrc1_minting_account w token in (from_rejection r, w).

Definition no_minting_account : Account := mk_account management_canister None.

Definition get_icrc1_configuration (w : W) (token : Principal) :
    result TokenConfiguration InternalPaymentError * W :=
  let '(r, w) := get_icrc1_fee w token in
  match r with
  | Err e => (Err e, w)
  | Ok fee =>
      let '(r, w) := get_icrc1_minting_account w token in
      match r with
      | Err e => (Err e, w)
      | Ok m => (Ok (mk_config token fee (default no_minting_account m)), w)
      end
  end.
End icrc1.

(** ** transfer.rs *)

Inductive Operation := OpNone | CreditOnSuccess | CreditOnError.

#[export] Instance Operation_eq_dec : EqDecision Operation.
Proof. solve_decision. Defined.

Inductive Stage := First | Second.

Inductive TransferType :=
  | SingleStep
  | DoubleStep (s : Stage) (acc : Account).

Record Transfer := mk_transfer {
  token : Principal;
  caller : Principal;
  from_sub : option Subaccount;   (** the field [from] *)
  to_acc : Account;               (** the field [to] *)
  amount : N;
  fee : N;
  operation : Operation;
  ttype : TransferType;
  created_at : Timestamp;
  memo : option Memo;
}.

Definition with_type (t : Transfer) (ty : TransferType) : Transfer :=
  mk_transfer (token t) (caller t) (from_sub t) (to_acc t) (amount t) (fee t) (operation t) ty
    (created_at t) (memo t).

Definition with_created_at (t : Transfer) (ts : Timestamp) : Transfer :=
  mk_transfer (token t) (caller t) (from_sub t) (to_acc t) (amount t) (fee t) (operation t)
    (ttype t) ts (memo t).

Definition with_operation (t : Transfer) (op : Operation) : Transfer :=
  mk_transfer (token t) (caller t) (from_sub t) (to_acc t) (amount t) (fee t) op (ttype t)
    (created_at t) (memo t).

Definition with_memo (t : Transfer) (m : Memo) : Transfer :=
  mk_transfer (token t) (caller t) (from_sub t) (to_acc t) (amount t) (fee t) (operation t)
    (ttype t) (created_at t) (Some m).

Definition with_fee (t : Transfer) (f : N) : Transfer :=
  mk_transfer (token t) (caller t) (from_sub t) (to_acc t) (amount t) f (operation t) (ttype t)
    (created_at t) (memo t).

Definition reset_ts (t : Transfer) : Transfer := with_created_at t 0.

(** ASCII bytes of a string literal. *)
Definition ascii_bytes (s : string) : list Z :=
  (fun c => Z.of_N (Ascii.N_of_ascii c)) <$> String.list_ascii_of_string s.

Definition INTERMEDIATE_ACC_DOMAIN : list Z := ascii_bytes "is-amm-intermediate-acc".

Section transfer.
Context {W : Type} `{PaymentLib, World W}.

Definition from_acc (t : Transfer) : Account := mk_account ic_id (from_sub t).

Definition transfer_new (w : W) (token_config : TokenConfiguration) (caller : Principal)
    (to : Account) (from_subaccount : option Subaccount) (amount : N) : Transfer :=
  let fee := get_fee token_config (mk_account ic_id from_subaccount) to in
  mk_transfer (cfg_principal token_config) caller from_subaccount to amount fee OpNone SingleStep
    (ic_time w) None.

(** What [Transfer::id] hashes. *)
Definition id_preimage (t : Transfer) : list Z :=
  INTERMEDIATE_ACC_DOMAIN ++ default (replicate 32 0) (from_sub t) ++ owner (to_acc t) ++
  effective_subaccount (to_acc t) ++ nat_to_bytes_le (amount t) ++ token t ++
  to_le_bytes 8 (created_at t).

Definition id (t : Transfer) : Subaccount := ascii_bytes "vfrc" ++ sha224 (id_preimage t).

Definition generate_interim_acc (t : Transfer) : Account := mk_account ic_id (Some (id t)).

Definition double_step (t : Transfer) : Transfer :=
  let interim := match ttype t with
                 | SingleStep => generate_interim_acc t
                 | DoubleStep _ interim_acc => interim_acc
                 end in
  with_type t (DoubleStep First interim).

Definition from (t : Transfer) : Account :=
  match ttype t with
  | SingleStep => from_acc t
  | DoubleStep First _ => from_acc t
  | DoubleStep Second acc => acc
  end.

Definition to (t : Transfer) : Account :=
  match ttype t with
  | SingleStep => to_acc t
  | DoubleStep First acc => acc
  | DoubleStep Second _ => to_acc t
  end.

Definition interim_acc (t : Transfer) : option Account :=
  match ttype t with DoubleStep _ acc => Some acc | _ => None end.

Definition effective_fee (t : Transfer) : N :=
  match ttype t with DoubleStep First _ => (fee t * 2)%N | _ => fee t end.

Definition min_amount (t : Transfer) : N := (effective_fee t + 1)%N.

Definition amount_minus_fee (t : Transfer) : N :=
  if (fee t <? amount t)%N then (amount t - fee t)%N else 0%N.

Definition final_amount (t : Transfer) : result N InternalPaymentError :=
  if (effective_fee t <? amount t)%N then Ok (amount t - effective_fee t)%N
  else Err (InvalidParameters (AmountTooSmall (min_amount t) (amount t))).

Definition validate (t : Transfer) : result unit InternalPaymentError :=
  if account_eqb (from_acc t) (to_acc t) then Err (InvalidParameters TargetAccountInvalid) else
  match final_amount t with
  | Err e => Err e
  | Ok a => if (a =? 0)%N
            then Err (InvalidParameters (AmountTooSmall (min_amount t) (amount t)))
            else Ok tt
  end.

Definition transfer_arg (t : Transfer) : TransferArg :=
  mk_arg (subaccount (from t)) (to t) (amount_minus_fee t) (Some (fee t)) (memo t)
    (Some (created_at t)).

Definition execute (t : Transfer) (w : W) : result TokenTransferInfo InternalPaymentError * W :=
  transfer_icrc1 w (token t) (transfer_arg t).

Definition renew (t : Transfer) (w : W) : Transfer := with_created_at t (ic_time w).

Definition next_step (t : Transfer) (w : W) : option Transfer :=
  match ttype t with
  | DoubleStep First interim =>
      Some (mk_transfer (token t) (caller t) (from_sub t) (to_acc t) (amount_minus_fee t) (fee t)
              (operation t) (DoubleStep Second interim) (ic_time w) (memo t))
  | _ => None
  end.
End transfer.
