(* ===== verification/RecoveryList.v ===== *)
(** * The recovery list of the token terminal

    [ic-payments/src/recovery_list.rs]: the interface [RecoveryList] the
    terminal is written against, and the default implementation
    [StableRecoveryList], a stable map from transfer ids to transfers that is
    created on first use. *)

From S2P Require Import Prelude StableLib StableStorage Payments.
Local Open Scope Z_scope.

(** ** The interface *)

Class RecoveryList (R : Type) := {
  rl_push : R -> Transfer -> R;
  rl_take_all : R -> list Transfer * R;
  rl_list : R -> list Transfer * R;
}.

(** What the terminal relies on of a list in the state [rl_ok] (in which its
    operations keep it): a pushed transfer is in the list, a push adds nothing
    else, and an earlier transfer disappears only if the pushed one has the same
    id; [take_all] empties the list; no transfer is listed twice. *)
Class RecoveryListLaws (R : Type) `{PaymentLib, RecoveryList R} := {
  rl_view : R -> list Transfer;
  rl_ok : R -> Prop;
  rl_list_law r : (rl_list r).1 = rl_view r /\ rl_view (rl_list r).2 = rl_view r;
  rl_take_all_law r : (rl_take_all r).1 = rl_view r /\ rl_view (rl_take_all r).2 = [];
  rl_push_new r t : t ∈ rl_view (rl_push r t);
  rl_push_sound r t t' : t' ∈ rl_view (rl_push r t) -> t' = t \/ t' ∈ rl_view r;
  rl_push_keeps r t t' : rl_ok r -> t' ∈ rl_view r ->
    t' ∈ rl_view (rl_push r t) \/ id t' = id t;
  rl_push_ok r t : rl_ok r -> rl_ok (rl_push r t);
  rl_take_all_ok r : rl_ok r -> rl_ok (rl_take_all r).2;
  rl_list_ok r : rl_ok r -> rl_ok (rl_list r).2;
  rl_view_nodup r : rl_ok r -> NoDup (rl_view r);
}.

(** ** TransferKey: byte strings in lexicographic order *)

Fixpoint bytes_ltb (a b : list Z) : bool :=
  match a, b with
  | _, [] => false
  | [], _ :: _ => true
  | x :: a, y :: b => (x <? y) || ((x =? y) && bytes_ltb a b)
  end.

Definition bytes_lt (a b : list Z) : Prop := bytes_ltb a b = true.

Lemma bytes_lt_cons x y a b :
  bytes_lt (x :: a) (y :: b) <-> x < y \/ (x = y /\ bytes_lt a b).
Proof.
  unfold bytes_lt. cbn. rewrite orb_true_iff, andb_true_iff, Z.ltb_lt, Z.eqb_eq. tauto.
Qed.

Lemma bytes_lt_strict : StrictOrder bytes_lt.
Proof.
  split.
  - intros a. induction a as [|x a IH]; [done|]. unfold complement in *.
    rewrite bytes_lt_cons. intros [?|[_ ?]]; [lia|auto].
  - intros a. induction a as [|x a IH]; intros [|y b] [|z c] Hab Hbc; try done.
    rewrite bytes_lt_cons in *. destruct Hab as [?|[-> ?]], Hbc as [?|[-> ?]].
    + left. lia.
    + by left.
    + by left.
    + right. eauto.
Qed.

Lemma bytes_lt_total a b : bytes_lt a b \/ a = b \/ bytes_lt b a.
Proof.
  revert b. induction a as [|x a IH]; intros [|y b]; auto.
  - by left.
  - by right; right.
  - rewrite !bytes_lt_cons. destruct (Z.lt_total x y) as [?|[->|?]]; [auto| |auto].
    destruct (IH b) as [?|[->|?]]; auto.
Qed.

#[export] Instance bytes_ord : OrdKey (list Z) :=
  {| key_lt := bytes_lt; key_lt_dec a b := decide (bytes_ltb a b = true);
     key_lt_strict := bytes_lt_strict; key_lt_total := bytes_lt_total |}.

(** ** StableRecoveryList *)

Module StableRecoveryList.
Section stable_recovery_list.
Context {M : Type} `{PaymentLib, BTreeLib Subaccount Transfer M}.

(** The thread-local storage, and the memory it is created in. *)
Record t := mk {
  memory : M;
  storage : option (StableBTreeMap.t Subaccount Transfer M);
}.

Definition key_new (transfer : Transfer) : Subaccount := id transfer.

Definition with_storage {A}
    (f : StableBTreeMap.t Subaccount Transfer M -> A * StableBTreeMap.t Subaccount Transfer M)
    (r : t) : A * t :=
  let map := match storage r with
             | Some m => m
             | None => StableBTreeMap.new (memory r)
             end in
  let '(a, map) := f map in (a, mk (memory r) (Some map)).

Definition push (r : t) (transfer : Transfer) : t :=
  (with_storage (fun m => StableBTreeMap.insert m (key_new transfer) transfer) r).2.

Definition take_all (r : t) : list Transfer * t :=
  with_storage (fun m => ((StableBTreeMap.iter m).*2, StableBTreeMap.clear m)) r.

Definition list (r : t) : list Transfer * t :=
  with_storage (fun m => ((StableBTreeMap.iter m).*2, m)) r.

#[global] Instance recovery_list : RecoveryList t :=
  {| rl_push := push; rl_take_all := take_all; rl_list := list |}.

Context `{!BTreeLaws Subaccount Transfer M}.

(** The transfers by id: what the storage holds, or what it will hold once it is
    opened (transfers saved before an upgrade are found again). *)
Definition entries (r : t) : gmap Subaccount Transfer :=
  dbtree_view Subaccount Transfer M (default (StableBTreeMap.new (memory r)) (storage r)).

Definition view (r : t) : Datatypes.list Transfer := (sorted_entries (entries r)).*2.

Definition keyed (r : t) : Prop := map_Forall (fun k transfer => k = id transfer) (entries r).

Lemma elem_of_view r transfer :
  transfer ∈ view r <-> exists k, entries r !! k = Some transfer.
Proof.
  unfold view. rewrite list_elem_of_fmap. split.
  - intros ([k x] & -> & Hx%elem_of_sorted_entries). eauto.
  - intros [k Hk%elem_of_sorted_entries]. by exists (k, transfer).
Qed.

Lemma entries_push r transfer :
  entries (push r transfer) = <[id transfer := transfer]> (entries r).
Proof.
  unfold push, with_storage, entries, StableBTreeMap.insert.
  rewrite (surjective_pairing (dbtree_insert _ _ _ _ _ _)). cbn.
  by rewrite (proj2 (dbtree_insert_law Subaccount Transfer M _ _ _)); destruct (storage r).
Qed.

Lemma entries_take_all r : entries (take_all r).2 = ∅.
Proof. apply (dbtree_clear_new_law Subaccount Transfer M). Qed.

Lemma entries_list r : entries (list r).2 = entries r.
Proof. unfold entries, list, with_storage. cbn. by destruct (storage r). Qed.

Lemma list_view r : (list r).1 = view r.
Proof.
  unfold list, with_storage, view, entries. cbn. rewrite StableBTreeMap.iter_entries.
  by destruct (storage r).
Qed.

Lemma take_all_view r : (take_all r).1 = view r.
Proof. apply list_view. Qed.

#[global] Instance recovery_list_laws : RecoveryListLaws t.
Proof.
  refine {| rl_view := view; rl_ok := keyed |}; cbn.
  - intros r. split; [apply list_view|]. change (view (list r).2 = view r). unfold view. by rewrite entries_list.
  - intros r. split; [apply take_all_view|]. change (view (take_all r).2 = []). unfold view. by rewrite entries_take_all.
  - intros r x. apply elem_of_view. exists (id x). by rewrite entries_push, lookup_insert_eq.
  - intros r x x'. rewrite !elem_of_view, entries_push.
    intros [k [[? ?]|[? ?]]%lookup_insert_Some]; eauto.
  - intros r x x' Hok [k Hk]%elem_of_view. rewrite elem_of_view, entries_push.
    destruct (decide (k = id x)) as [->|Hne].
    + right. symmetry. by apply Hok.
    + left. exists k. by rewrite lookup_insert_ne.
  - intros r x Hok. unfold keyed. rewrite entries_push. by apply map_Forall_insert_2.
  - intros r Hok. change (keyed (take_all r).2). unfold keyed. rewrite entries_take_all. apply map_Forall_empty.
  - intros r Hok. change (keyed (list r).2). unfold keyed. by rewrite entries_list.
  - intros r Hok. apply NoDup_fmap_2_strong.
    + intros [k x] [k' x'] Hx%elem_of_sorted_entries Hx'%elem_of_sorted_entries. cbn. intros ->.
      by rewrite (Hok k x' Hx), (Hok k' x' Hx').
    + eapply NoDup_fmap_1, sorted_entries_NoDup_keys.
Defined.
End stable_recovery_list.
Arguments t M {_}.
End StableRecoveryList.
