(* ===== verification/Terminal.v ===== *)
(** * The token terminal

    [ic-payments/src/token_terminal.rs]: a transfer is executed on the ledger,
    retried when the outcome is unknown, re-configured when the fee changed,
    continued with its second step, and ends credited, refunded or saved in the
    recovery list.  An async method runs to its end on the exclusively borrowed
    terminal ([&mut self]), so it is a function of the terminal and the world. *)

From S2P Require Import Prelude StableLib StableStorage Payments RecoveryList.
Local Open Scope Z_scope.
Local Open Scope sdk_scope.

Definition UNKNOWN_TX_ID : TxId := 18446744073709551615%N.
Definition N_RETRIES : nat := 3.
Definition DEFAULT_DEDUP_PERIOD : Z := 10 ^ 9 * 60 * 60 * 24.
Definition TX_WINDOW : Z := 10 ^ 9 * 60 * 5.

(** The configuration callback runs code outside of the terminal. *)
Record TokenTerminal (B R W : Type) := mk_terminal {
  token_config : TokenConfiguration;
  balances : B;
  recovery_list : R;
  deduplication_period : Z;
  update_token_config : option (TokenConfiguration -> W -> W);
}.
Arguments mk_terminal {B R W} _ _ _ _ _.
Arguments token_config {B R W} _.
Arguments balances {B R W} _.
Arguments recovery_list {B R W} _.
Arguments deduplication_period {B R W} _.
Arguments update_token_config {B R W} _.

(** The terminal, the static transfer counter and the world. *)
Record state (B R W : Type) := mk_state {
  terminal : TokenTerminal B R W;
  TX_COUNTER : Z;
  world : W;
}.
Arguments mk_state {B R W} _ _ _.
Arguments terminal {B R W} _.
Arguments TX_COUNTER {B R W} _.
Arguments world {B R W} _.

(** How a method ends: with a value, in a trap, or out of the fuel of the model. *)
Inductive run (S A : Type) : Type :=
  | Done (a : A) (s : S)
  | Trapped
  | NoFuel.
Arguments Done {S A} a s.
Arguments Trapped {S A}.
Arguments NoFuel {S A}.

Definition method (S A : Type) : Type := S -> run S A.

#[export] Instance method_ret {S} : MRet (method S) := fun A a s => Done a s.
#[export] Instance method_bind {S} : MBind (method S) := fun A B f m s =>
  match m s with Done a s => f a s | Trapped => Trapped | NoFuel => NoFuel end.

Definition get {S} : method S S := fun s => Done s s.

(** The [?] operator inside a method. *)
Definition ask {S A B E F} (conv : E -> F) (m : method S (result A E))
    (k : A -> method S (result B F)) : method S (result B F) :=
  m ≫= fun r => match r with Ok a => k a | Err e => mret (Err (conv e)) end.

Section terminal.
Context {B R W : Type} `{PaymentLib, World W, Balances B, RecoveryList R, Target}.

Notation st := (state B R W).
Notation terminal_t := (TokenTerminal B R W).
Implicit Types (s : st) (p : terminal_t).

Definition new_with_recovery_list (config : TokenConfiguration) (b : B) (r : R) : terminal_t :=
  mk_terminal config b r DEFAULT_DEDUP_PERIOD None.

Definition on_config_update p (predicate : TokenConfiguration -> W -> W) : terminal_t :=
  mk_terminal (token_config p) (balances p) (recovery_list p) (deduplication_period p)
    (Some predicate).

(** Field updates. *)
Definition set_terminal s p : st := mk_state p (TX_COUNTER s) (world s).
Definition set_world s (w : W) : st := mk_state (terminal s) (TX_COUNTER s) w.
Definition set_config s (c : TokenConfiguration) : st :=
  set_terminal s (mk_terminal c (balances (terminal s)) (recovery_list (terminal s))
    (deduplication_period (terminal s)) (update_token_config (terminal s))).
Definition set_balances s (b : B) : st :=
  set_terminal s (mk_terminal (token_config (terminal s)) b (recovery_list (terminal s))
    (deduplication_period (terminal s)) (update_token_config (terminal s))).
Definition set_recovery_list s (r : R) : st :=
  set_terminal s (mk_terminal (token_config (terminal s)) (balances (terminal s)) r
    (deduplication_period (terminal s)) (update_token_config (terminal s))).

Definition config s : TokenConfiguration := token_config (terminal s).

(** Calls into the world, the balances and the recovery list. *)
Definition in_world {A} (f : W -> A * W) : method st A := fun s =>
  let '(a, w) := f (world s) in Done a (set_world s w).

Definition credit (recipient : Principal) (amount : N) : method st (result N PaymentError) :=
  fun s => let '(r, b) := bal_credit (balances (terminal s)) recipient amount in
           Done (map_err PaymentError_from_BalanceError r) (set_balances s b).

Definition debit (owner : Principal) (amount : N) : method st (result N PaymentError) :=
  fun s => let '(r, b) := bal_debit (balances (terminal s)) owner amount in
           Done (map_err PaymentError_from_BalanceError r) (set_balances s b).

Definition add_for_recovery (t : Transfer) : method st unit := fun s =>
  Done tt (set_recovery_list s (rl_push (recovery_list (terminal s)) t)).

Definition list_for_recovery : method st (list Transfer) := fun s =>
  let '(l, r) := rl_list (recovery_list (terminal s)) in Done l (set_recovery_list s r).

Definition updated_fees (c : TokenConfiguration) (l : list Transfer) : list Transfer :=
  (fun tx => reset_ts (with_fee tx (get_fee c (from_acc tx) (to_acc tx)))) <$> l.

Definition update_recovery_fees s : st :=
  let '(l, r) := rl_take_all (recovery_list (terminal s)) in
  set_recovery_list s (foldl rl_push r (updated_fees (config s) l)).

Definition set_fee s (fee : N) : st :=
  update_recovery_fees
    (set_config s (mk_config (cfg_principal (config s)) fee (minting_account (config s)))).

Definition set_minting_account s (a : Account) : st :=
  update_recovery_fees
    (set_config s (mk_config (cfg_principal (config s)) (cfg_fee (config s)) a)).

Definition get_minting_account (expected_fee : N) : method st (result Account PaymentError) :=
  fun s =>
    let '(r, w) := get_icrc1_minting_account (world s) (cfg_principal (config s)) in
    Done (match r with
          | Ok v => Ok (default no_minting_account v)
          | Err _ => Err (PE_BadFee expected_fee)
          end) (set_world s w).

Definition reject (t : Transfer) (error : InternalPaymentError) :
    method st (result TxId PaymentError) :=
  match ttype t with
  | DoubleStep Second _ =>
      _ ← add_for_recovery t;
      mret (match error with
            | WrongFee fee => Err (PE_Recoverable (RecoveryBadFee fee))
            | _ => Err (PE_Recoverable IcError)
            end)
  | _ =>
      if decide (operation t = CreditOnError)
      then ask Datatypes.id (credit (caller t) (amount t)) (fun _ =>
             mret (Err (PaymentError_from_internal error)))
      else mret (Err (PaymentError_from_internal error))
  end.

(** The configuration update of [update_config_and_retry]. *)
Definition update_config (expected_fee : N) : method st (result unit PaymentError) := fun s =>
  if ((expected_fee =? 0) || (expected_fee =? cfg_fee (config s)))%N
  then ask Datatypes.id (get_minting_account expected_fee) (fun a s =>
         Done (Ok tt) (set_minting_account s a)) s
  else Done (Ok tt) (set_fee s expected_fee).

Definition run_update_callback : method st unit := fun s =>
  match update_token_config (terminal s) with
  | Some f => Done tt (set_world s (f (config s) (world s)))
  | None => Done tt s
  end.

(** The mutually recursive methods; [fuel] bounds the depth of the calls. *)
Fixpoint transfer (fuel : nat) (t : Transfer) (n_retries : nat) {struct fuel} :
    method st (result TxId PaymentError) :=
  match fuel with O => fun _ => NoFuel | S fuel =>
    match validate t with
    | Err e => mret (Err (PaymentError_from_internal e))
    | Ok _ => execute_transfer fuel t n_retries
    end
  end

with complete (fuel : nat) (t : Transfer) (tx_id : TxId) (n_retries : nat) {struct fuel} :
    method st (result TxId PaymentError) :=
  match fuel with O => fun _ => NoFuel | S fuel => fun s =>
    match next_step t (world s) with
    | Some t' => transfer fuel t' n_retries s
    | None =>
        if decide (operation t = CreditOnSuccess)
        then ask Datatypes.id (credit (caller t) (amount_minus_fee t)) (fun _ => mret (Ok tx_id)) s
        else Done (Ok tx_id) s
    end
  end

with retry (fuel : nat) (t : Transfer) (n_retries : nat) {struct fuel} :
    method st (result TxId PaymentError) :=
  match fuel with O => fun _ => NoFuel | S fuel =>
    match n_retries with
    | O => _ ← add_for_recovery t; mret (Err (PE_Recoverable IcError))
    | _ => execute_recovery_transfer fuel t n_retries
    end
  end

with execute_transfer (fuel : nat) (t : Transfer) (n_retries : nat) {struct fuel} :
    method st (result TxId PaymentError) :=
  match fuel with O => fun _ => NoFuel | S fuel =>
    r ← in_world (execute t);
    match r with
    | Ok info => complete fuel t (token_tx_id info) n_retries
    | Err MaybeFailed => retry fuel t (n_retries - 1)
    | Err (WrongFee expected) => update_config_and_retry fuel expected t (n_retries - 1)
    | Err e => reject t e
    end
  end

with execute_recovery_transfer (fuel : nat) (t : Transfer) (n_retries : nat) {struct fuel} :
    method st (result TxId PaymentError) :=
  match fuel with O => fun _ => NoFuel | S fuel =>
    r ← in_world (execute t);
    match r with
    | Ok info => complete fuel t (token_tx_id info) n_retries
    | Err (WrongFee expected) => update_config_and_retry fuel expected t (n_retries - 1)
    | Err (TransferFailed (Rejected (Duplicate duplicate_of))) =>
        complete fuel t duplicate_of n_retries
    | Err MaybeFailed
    | Err (TransferFailed (Rejected TemporarilyUnavailable))
    | Err (TransferFailed (TokenPanic _)) => retry fuel t (n_retries - 1)
    | Err e => reject t e
    end
  end

with update_config_and_retry (fuel : nat) (expected_fee : N) (t : Transfer) (n_retries : nat)
    {struct fuel} : method st (result TxId PaymentError) :=
  match fuel with O => fun _ => NoFuel | S fuel =>
    ask Datatypes.id (update_config expected_fee) (fun _ s =>
      let t := with_fee t (get_fee (config s) (to t) (from t)) in
      (_ ← run_update_callback; retry fuel t n_retries) s)
  end.

(** ** Recovery *)

Definition can_deduplicate (t : Transfer) : method st bool := fun s =>
  match u_sub 64 (deduplication_period (terminal s)) TX_WINDOW with
  | Panic => Trapped
  | Ret period => Done (saturating_sub (ic_time (world s)) (created_at t) <? period) s
  end.

Definition recover_old_tx (fuel : nat) (t : Transfer) : method st (result TxId PaymentError) :=
  match ttype t with
  | SingleStep => mret (Err (PE_TransferFailed FailTooOld))
  | DoubleStep stage acc => fun s =>
      ask PaymentError_from_internal
        (in_world (fun w => get_icrc1_balance w (cfg_principal (config s)) acc))
        (fun interim_balance =>
           match stage with
           | First => if (interim_balance =? 0)%N
                      then reject t (TransferFailed FailUnknown)
                      else complete fuel t UNKNOWN_TX_ID N_RETRIES
           | Second => if (interim_balance =? 0)%N
                       then complete fuel t UNKNOWN_TX_ID N_RETRIES
                       else fun s => execute_recovery_transfer fuel (renew t (world s)) N_RETRIES s
           end) s
  end.

Definition recover_tx (fuel : nat) (t : Transfer) :
    method st (result (TxId * Transfer) PaymentError) :=
  dedup ← can_deduplicate t;
  ask Datatypes.id
    (if dedup : bool then execute_recovery_transfer fuel t N_RETRIES else recover_old_tx fuel t)
    (fun tx_id => mret (Ok (tx_id, t))).

Definition take_all_for_recovery : method st (list Transfer) := fun s =>
  let '(l, r) := rl_take_all (recovery_list (terminal s)) in Done l (set_recovery_list s r).

Fixpoint recover_each (fuel : nat) (l : list Transfer) :
    method st (list (result (TxId * Transfer) PaymentError)) :=
  match l with
  | [] => mret []
  | tx :: l => fun s =>
      if decide (token tx = cfg_principal (config s))
      then (r ← recover_tx fuel tx; rs ← recover_each fuel l; mret (r :: rs)) s
      else (_ ← add_for_recovery tx; recover_each fuel l) s
  end.

Definition recover_all (fuel : nat) : method st (list (result (TxId * Transfer) PaymentError)) :=
  l ← take_all_for_recovery; recover_each fuel l.

(** ** Deposits and withdrawals *)

(** [copy_from_slice] into a 32-byte array: traps when it does not fit. *)
Definition get_principal_subaccount (principal_id : Principal) : outcome (option Subaccount) :=
  let len := zlength principal_id in
  assert (in_range 8 len);
  assert (1 + len <=? 32);
  Ret (Some ((len :: principal_id) ++ replicate (31 - length principal_id) 0)).

Definition get_deposit_interim_account (principal : Principal) : outcome Account :=
  sub ← get_principal_subaccount principal; Ret (mk_account ic_id sub).

Definition of_outcome {A} (o : outcome A) : method st A := fun s =>
  match o with Ret a => Done a s | Panic => Trapped end.

(** [TX_COUNTER.fetch_add(1)], which wraps around. *)
Definition next_memo : method st Memo := fun s =>
  Done (memo_of_u64 (TX_COUNTER s))
    (mk_state (terminal s) (wrapping_add 64 (TX_COUNTER s) 1) (world s)).

Definition deposit (fuel : nat) (caller : Principal) (amount : N) :
    method st (result (TxId * N) PaymentError) :=
  m ← next_memo;
  sub ← of_outcome (get_principal_subaccount caller);
  s ← get;
    let t := with_memo (with_operation (transfer_new (world s) (config s) caller
               (account_of_principal ic_id) sub amount) CreditOnSuccess) m in
    match final_amount t with
    | Err e => mret (Err (PaymentError_from_internal e))
    | Ok amount =>
        ask Datatypes.id (transfer fuel t N_RETRIES) (fun tx_id => mret (Ok (tx_id, amount)))
    end.

Definition deposit_all (fuel : nat) (caller : Principal) :
    method st (result (TxId * N) PaymentError) :=
  account ← of_outcome (get_deposit_interim_account caller);
  s ← get;
    ask PaymentError_from_internal
      (in_world (fun w => get_icrc1_balance w (cfg_principal (config s)) account))
      (fun balance => deposit fuel caller balance).

Definition withdraw (fuel : nat) (caller : Principal) (amount : N) :
    method st (result (TxId * N) PaymentError) :=
  m ← next_memo;
  s ← get;
    let t := with_memo (with_operation (double_step (transfer_new (world s) (config s) caller
               (account_of_principal caller) None amount)) CreditOnError) m in
    match validate t with
    | Err e => mret (Err (PaymentError_from_internal e))
    | Ok _ =>
        match final_amount t with
        | Err e => mret (Err (PaymentError_from_internal e))
        | Ok amount =>
            ask Datatypes.id (debit caller (Payments.amount t)) (fun _ =>
            ask Datatypes.id (transfer fuel t N_RETRIES) (fun tx_id =>
            mret (Ok (tx_id, amount))))
        end
    end.
End terminal.
