(* ===== verification/TerminalProofs.v ===== *)
(** * The token terminal as a machine

    The mutually recursive methods of [Terminal] only call each other in tail
    position, so they are the iterates of one step function on control points
    ([run_ctl_S]).  Invariants are proved once for the step and hold for every
    method ([run_ctl_inv]); a measure bounds the number of steps. *)

From S2P Require Import Prelude StableLib StableStorage Payments RecoveryList Terminal.
Local Open Scope Z_scope.

Section machine.
Context {B R W : Type} `{PaymentLib, World W, Balances B, RecoveryList R}.
Notation st := (state B R W).
Implicit Types (s : st) (t : Transfer) (n : nat).

Inductive ctl :=
  | CTransfer t n
  | CComplete t (tx_id : TxId) n
  | CRetry t n
  | CExecute t n
  | CRecover t n
  | CUpdate (expected_fee : N) t n.

(** What [execute_transfer] and [execute_recovery_transfer] do with the answer
    of the ledger. *)
Definition after_execute t n (r : result TokenTransferInfo InternalPaymentError) :
    ctl + InternalPaymentError :=
  match r with
  | Ok info => inl (CComplete t (token_tx_id info) n)
  | Err MaybeFailed => inl (CRetry t (n - 1))
  | Err (WrongFee expected) => inl (CUpdate expected t (n - 1))
  | Err e => inr e
  end.

Definition after_recover t n (r : result TokenTransferInfo InternalPaymentError) :
    ctl + InternalPaymentError :=
  match r with
  | Err (TransferFailed (Rejected (Duplicate tx))) => inl (CComplete t tx n)
  | Err (TransferFailed (Rejected TemporarilyUnavailable))
  | Err (TransferFailed (TokenPanic _)) => inl (CRetry t (n - 1))
  | _ => after_execute t n r
  end.

Definition goto (c : ctl + InternalPaymentError) t :
    method st (ctl + result TxId PaymentError) :=
  match c with inl c => mret (inl c) | inr e => r ← reject t e; mret (inr r) end.

Definition after_update t n (r : result unit PaymentError) :
    method st (ctl + result TxId PaymentError) :=
  match r with
  | Err e => mret (inr (Err e))
  | Ok _ =>
      s ← get;
      _ ← run_update_callback;
      mret (inl (CRetry (with_fee t (get_fee (config s) (to t) (from t))) n))
  end.

Definition step (c : ctl) : method st (ctl + result TxId PaymentError) := fun s =>
  match c with
  | CTransfer t n =>
      match validate t with
      | Err e => Done (inr (Err (PaymentError_from_internal e))) s
      | Ok _ => Done (inl (CExecute t n)) s
      end
  | CComplete t tx n =>
      match next_step t (world s) with
      | Some t' => Done (inl (CTransfer t' n)) s
      | None =>
          if decide (operation t = CreditOnSuccess)
          then (r ← credit (caller t) (amount_minus_fee t);
                mret (inr (match r with Ok _ => Ok tx | Err e => Err e end))) s
          else Done (inr (Ok tx)) s
      end
  | CRetry t O =>
      (_ ← add_for_recovery t; mret (inr (Err (PE_Recoverable IcError)))) s
  | CRetry t n => Done (inl (CRecover t n)) s
  | CExecute t n => (r ← in_world (execute t); goto (after_execute t n r) t) s
  | CRecover t n => (r ← in_world (execute t); goto (after_recover t n r) t) s
  | CUpdate v t n =>
      (r ← update_config v; after_update t n r) s
  end.

Definition run_ctl (fuel : nat) (c : ctl) : method st (result TxId PaymentError) :=
  match c with
  | CTransfer t n => transfer fuel t n
  | CComplete t tx n => complete fuel t tx n
  | CRetry t n => retry fuel t n
  | CExecute t n => execute_transfer fuel t n
  | CRecover t n => execute_recovery_transfer fuel t n
  | CUpdate v t n => update_config_and_retry fuel v t n
  end.

(** The world, then the balances or the recovery list, may change in a step, but
    a step always ends. *)
Lemma in_world_Done {A} (f : W -> A * W) s :
  in_world f s = Done (f (world s)).1 (set_world s (f (world s)).2).
Proof. unfold in_world. by destruct (f (world s)). Qed.

Lemma credit_Done p a s :
  credit p a s =
    Done (map_err PaymentError_from_BalanceError (bal_credit (balances (terminal s)) p a).1)
      (set_balances s (bal_credit (balances (terminal s)) p a).2).
Proof. unfold credit. by destruct (bal_credit _ _ _). Qed.

Lemma ask_eq {S A C E F} (conv : E -> F) (m : method S (result A E))
    (k : A -> method S (result C F)) (s : S) :
  ask conv m k s = match m s with
                   | Done (Ok a) s => k a s
                   | Done (Err e) s => Done (Err (conv e)) s
                   | Trapped => Trapped | NoFuel => NoFuel
                   end.
Proof. unfold ask, mbind, method_bind. by destruct (m s) as [[]| |]. Qed.

Lemma bind_eq {S A C} (m : method S A) (k : A -> method S C) (s : S) :
  (m ≫= k) s = match m s with
               | Done a s => k a s | Trapped => Trapped | NoFuel => NoFuel end.
Proof. done. Qed.

Lemma update_config_and_retry_S fuel v t n :
  update_config_and_retry (S fuel) v t n =
    ask Datatypes.id (update_config v) (fun _ s =>
      let t := with_fee t (get_fee (config s) (to t) (from t)) in
      (_ ← run_update_callback; retry fuel t n) s).
Proof. done. Qed.

Lemma run_ctl_S fuel c s :
  run_ctl (S fuel) c s =
    match step c s with
    | Done (inl c') s' => run_ctl fuel c' s'
    | Done (inr r) s' => Done r s'
    | Trapped => Trapped
    | NoFuel => NoFuel
    end.
Proof.
  assert (forall s t e, reject t e s =
    match goto (inr e) t s with
    | Done (inl c') s' => run_ctl fuel c' s' | Done (inr r) s' => Done r s'
    | Trapped => Trapped | NoFuel => NoFuel end) as Hrej.
  { intros. cbn [goto]. rewrite bind_eq. by destruct (reject _ _ _). }
  destruct c as [t n|t tx n|t n|t n|t n|v t n]; cbn [run_ctl step].
  - cbn. by destruct (validate t).
  - cbn. destruct (next_step _ _); [done|]. case_decide; [|done].
    rewrite ask_eq, bind_eq, credit_Done. by destruct (map_err _ _).
  - by destruct n.
  - cbn [execute_transfer]. rewrite !bind_eq, in_world_Done.
    destruct (execute t (world s)).1 as [|[]]; cbn [after_execute]; first [done|apply Hrej].
  - cbn [execute_recovery_transfer]. rewrite !bind_eq, in_world_Done.
    destruct (execute t (world s)).1 as [|[[| |[]| |]| | | |]];
      cbn [after_execute after_recover]; first [done|apply Hrej].
  - rewrite update_config_and_retry_S, ask_eq, bind_eq.
    destruct (update_config v s) as [[] s'| |]; [|done..].
    cbn [after_update]. cbn zeta. rewrite !bind_eq. unfold get.
    rewrite bind_eq. unfold run_update_callback. by destruct (update_token_config _).
Qed.

(** ** Invariants and termination *)

Lemma run_ctl_inv (I : ctl -> st -> Prop) (Q : result TxId PaymentError -> st -> Prop) :
  (forall c s, I c s -> match step c s with
                        | Done (inl c') s' => I c' s'
                        | Done (inr r) s' => Q r s'
                        | _ => True
                        end) ->
  forall fuel c s r s', I c s -> run_ctl fuel c s = Done r s' -> Q r s'.
Proof.
  intros Hstep fuel. induction fuel as [|fuel IH]; intros c s r s' HI Hrun; [by destruct c|].
  rewrite run_ctl_S in Hrun. specialize (Hstep c s HI).
  destruct (step c s) as [[c'|r'] s1| |]; [eauto| |done..]. by simplify_eq.
Qed.

(** Stages left after the current one. *)
Definition stages_left t : nat := match ttype t with DoubleStep First _ => 1 | _ => 0 end.

Definition measure (c : ctl) : nat :=
  match c with
  | CTransfer t n => 4 * n + 6 + stages_left t * (4 * n + 8)
  | CComplete t _ n => 1 + stages_left t * (4 * n + 8)
  | CRetry t n => 4 * n + 3 + stages_left t * (4 * n + 8)
  | CExecute t n | CRecover t n =>
      match n with O => 5 | _ => 4 * n + 2 end + stages_left t * (4 * n + 8)
  | CUpdate _ t n => 4 * n + 4 + stages_left t * (4 * n + 8)
  end%nat.

Lemma reject_Done t e s :
  reject t e s =
    match ttype t with
    | DoubleStep Second _ =>
        Done (Err (PE_Recoverable (match e with WrongFee f => RecoveryBadFee f | _ => IcError end)))
          (set_recovery_list s (rl_push (recovery_list (terminal s)) t))
    | _ =>
        if decide (operation t = CreditOnError)
        then let c := bal_credit (balances (terminal s)) (caller t) (amount t) in
             Done (match c.1 with
                   | Ok _ => Err (PaymentError_from_internal e)
                   | Err b => Err (PaymentError_from_BalanceError b)
                   end) (set_balances s c.2)
        else Done (Err (PaymentError_from_internal e)) s
    end.
Proof.
  unfold reject. destruct (ttype t) as [|[] acc].
  1,2: case_decide; [|done]; rewrite ask_eq, credit_Done; cbn;
    by destruct (bal_credit _ _ _) as [[]].
  rewrite bind_eq. cbn. by destruct e.
Qed.

Lemma next_step_stages t w t' : next_step t w = Some t' -> stages_left t = 1%nat /\ stages_left t' = 0%nat.
Proof.
  unfold next_step, stages_left. destruct (ttype t) as [|[] ?]; naive_solver.
Qed.

Lemma update_config_Done v s : exists r s', update_config v s = Done r s'.
Proof.
  unfold update_config. destruct (_ || _); [|by do 2 eexists].
  rewrite ask_eq. unfold get_minting_account. destruct (get_icrc1_minting_account _ _) as [[] ?];
    by do 2 eexists.
Qed.

(** The continuation after a ledger call is below [k]. *)
Definition goes_below (k : nat) (c : ctl + InternalPaymentError) : Prop :=
  match c with inl c => (measure c < k)%nat | inr _ => True end.

Lemma goto_total c t k s :
  goes_below k c ->
  exists r s', goto c t s = Done r s' /\
    match r with inl c' => (measure c' < k)%nat | inr _ => True end.
Proof.
  intros Hc. destruct c as [c|e]; cbn [goto]; [by do 2 eexists|].
  rewrite bind_eq, reject_Done.
  destruct (ttype t) as [|[] ?]; try case_decide; by do 2 eexists.
Qed.

Lemma after_execute_measure t n r : goes_below (measure (CExecute t n)) (after_execute t n r).
Proof.
  destruct r as [|[]]; cbn [after_execute goes_below measure]; try done;
    destruct n, (stages_left t); lia.
Qed.

Lemma after_recover_measure t n r : goes_below (measure (CRecover t n)) (after_recover t n r).
Proof.
  destruct r as [|[[| |[]| |]| | | |]]; cbn [after_execute after_recover goes_below measure];
    try done; destruct n, (stages_left t); lia.
Qed.

Lemma step_total c s :
  exists r s', step c s = Done r s' /\
    match r with inl c' => (measure c' < measure c)%nat | inr _ => True end.
Proof.
  destruct c as [t n|t tx n|t n|t n|t n|v t n]; cbn [step].
  - destruct (validate t); do 2 eexists; (split; [done|]); [|done].
    cbn. destruct n, (stages_left t); lia.
  - destruct (next_step t (world s)) as [t'|] eqn:Hn.
    + apply next_step_stages in Hn as [H1' H2']. do 2 eexists. split; [done|].
      cbn [measure]. rewrite H1', H2'. lia.
    + case_decide; [rewrite bind_eq, credit_Done|]; by do 2 eexists.
  - destruct n as [|n]; do 2 eexists; (split; [done|]); [done|]. cbn [measure]. lia.
  - rewrite bind_eq, in_world_Done. apply goto_total, after_execute_measure.
  - rewrite bind_eq, in_world_Done. apply goto_total, after_recover_measure.
  - destruct (update_config_Done v s) as (r & s' & Hu). rewrite bind_eq, Hu.
    destruct r; cbn [after_update]; [|by do 2 eexists].
    rewrite bind_eq. unfold get. rewrite bind_eq. unfold run_update_callback.
    destruct (update_token_config _); do 2 eexists; (split; [done|]); cbn [measure]; cbn;
      unfold stages_left; cbn; lia.
Qed.

Lemma run_ctl_total c s : exists r s', forall fuel, (measure c < fuel)%nat -> run_ctl fuel c s = Done r s'.
Proof.
  remember (measure c) as m eqn:Hm. revert c s Hm.
  induction (lt_wf m) as [m _ IH]. intros c s ->.
  destruct (step_total c s) as (r & s1 & Hstep & Hlt). destruct r as [c'|r].
  - destruct (IH _ Hlt c' s1 eq_refl) as (r & s' & Hrun). exists r, s'.
    intros [|fuel] Hf; [lia|]. rewrite run_ctl_S, Hstep. apply Hrun. lia.
  - exists r, s1. intros [|fuel] Hf; [lia|]. by rewrite run_ctl_S, Hstep.
Qed.
End machine.

(** ** How a transfer ends *)

Section ends.
Context {B R W : Type} `{PaymentLib, World W, Balances B, RecoveryList R}.
Context `{!RecoveryListLaws R}.
Notation st := (state B R W).
Implicit Types (s : st) (t : Transfer) (n : nat) (b : B) (w : W).

(** [t'] carries the request of [t]. *)
Definition same_request t t' : Prop :=
  token t' = token t /\ caller t' = caller t /\ from_sub t' = from_sub t /\
  to_acc t' = to_acc t /\ operation t' = operation t /\ memo t' = memo t.

(** [t'] is [t] with another fee or time stamp, or its second step, the first one
    having cost a fee; all fees involved satisfy [P]. *)
Definition derived (P : N -> Prop) t t' : Prop :=
  same_request t t' /\ P (fee t') /\
  ((ttype t' = ttype t /\ amount t' = amount t) \/
   exists acc f, P f /\ ttype t = DoubleStep First acc /\ ttype t' = DoubleStep Second acc /\
                 amount t' = (amount t - f)%N).

(** Evidence that the last step of [t'] took place: the ledger accepted it, or
    knows it as a duplicate, or the interim account shows it. *)
Inductive executed t' : TxId -> W -> Prop :=
  | executed_accepted tx w w' :
      call_icrc1_transfer w (token t') (transfer_arg t') = (Ok (Ok tx), w') ->
      executed t' tx w'
  | executed_duplicate tx w w' :
      call_icrc1_transfer w (token t') (transfer_arg t') = (Ok (Err (Duplicate tx)), w') ->
      executed t' tx w'
  | executed_first_seen p acc k w w' :
      ttype t' = DoubleStep First acc -> k <> 0%N ->
      call_icrc1_balance_of w p acc = (Ok k, w') -> executed t' UNKNOWN_TX_ID w'
  | executed_second_seen p acc w w' :
      ttype t' = DoubleStep Second acc ->
      call_icrc1_balance_of w p acc = (Ok 0%N, w') -> executed t' UNKNOWN_TX_ID w'.

(** Evidence that the step of [t'] did not take place: the ledger refused it
    with a definite error, or the interim account is empty. *)
Inductive refused t' : InternalPaymentError -> W -> Prop :=
  | refused_by_ledger e w w' :
      execute t' w = (Err e, w') -> e <> MaybeFailed -> (forall f, e <> WrongFee f) ->
      refused t' e w'
  | refused_not_seen p acc w w' :
      ttype t' = DoubleStep First acc ->
      call_icrc1_balance_of w p acc = (Ok 0%N, w') ->
      refused t' (TransferFailed FailUnknown) w'.

(** The ends that lose nothing: executed (and credited with what the ledger
    moved), refused (and refunded in full), or saved for recovery. *)
Inductive safe_end (P : N -> Prop) t b : result TxId PaymentError -> st -> Prop :=
  | end_executed tx t' s' :
      derived P t t' -> stages_left t' = 0%nat -> executed t' tx (world s') ->
      (if decide (operation t = CreditOnSuccess)
       then exists k, bal_credit b (caller t) (arg_amount (transfer_arg t')) =
                      (Ok k, balances (terminal s'))
       else balances (terminal s') = b) ->
      safe_end P t b (Ok tx) s'
  | end_refused e t' s' :
      derived P t t' -> (forall acc, ttype t' <> DoubleStep Second acc) -> amount t' = amount t ->
      refused t' e (world s') ->
      (if decide (operation t = CreditOnError)
       then exists k, bal_credit b (caller t) (amount t) = (Ok k, balances (terminal s'))
       else balances (terminal s') = b) ->
      safe_end P t b (Err (PaymentError_from_internal e)) s'
  | end_saved d t' s' :
      derived P t t' -> t' ∈ rl_view (recovery_list (terminal s')) ->
      balances (terminal s') = b ->
      safe_end P t b (Err (PE_Recoverable d)) s'.

(** The ends without a record of the transfer: the balance could not be
    credited, the minting account could not be read after a fee error, or the
    transfer is not valid (any more). *)
Inductive unsafe_end (P : N -> Prop) t b : result TxId PaymentError -> st -> Prop :=
  | end_not_credited e a s' :
      bal_credit b (caller t) a = (Err e, balances (terminal s')) ->
      unsafe_end P t b (Err (PaymentError_from_BalanceError e)) s'
  | end_no_configuration v c p w s' :
      call_icrc1_minting_account w p = (Err c, world s') ->
      balances (terminal s') = b ->
      unsafe_end P t b (Err (PE_BadFee v)) s'
  | end_invalid e t' s' :
      derived P t t' -> validate t' = Err e -> balances (terminal s') = b ->
      unsafe_end P t b (Err (PaymentError_from_internal e)) s'.

Definition ends (P : N -> Prop) t b r s' : Prop := safe_end P t b r s' \/ unsafe_end P t b r s'.

Lemma derived_refl (P : N -> Prop) t : P (fee t) -> derived P t t.
Proof. unfold derived, same_request. intros. split_and!; auto. Qed.

Lemma derived_with_fee (P : N -> Prop) t t' f : derived P t t' -> P f -> derived P t (with_fee t' f).
Proof. unfold derived, same_request. cbn. tauto. Qed.

Lemma derived_with_created_at (P : N -> Prop) t t' ts :
  derived P t t' -> derived P t (with_created_at t' ts).
Proof. unfold derived, same_request. cbn. tauto. Qed.

Lemma amount_minus_fee_eq t : amount_minus_fee t = (amount t - fee t)%N.
Proof. unfold amount_minus_fee. destruct (N.ltb_spec (fee t) (amount t)); lia. Qed.

Lemma derived_next_step (P : N -> Prop) t t' t2 w :
  derived P t t' -> next_step t' w = Some t2 -> derived P t t2.
Proof.
  unfold derived, next_step, same_request. intros (Hr & Hf & Ht) Hn.
  destruct (ttype t') as [|[] acc] eqn:Htt; simplify_eq. cbn. split_and!; try tauto.
  rewrite amount_minus_fee_eq. destruct Ht as [[Hty Ham]|(?&?&?&?&?&?)]; [|congruence].
  right. exists acc, (fee t'). rewrite <- Ham. auto.
Qed.

Lemma derived_stages (P : N -> Prop) t t' :
  derived P t t' -> ttype t' = ttype t /\ amount t' = amount t \/
  exists acc, ttype t' = DoubleStep Second acc.
Proof. intros (_ & _ & [?|(?&?&?&?&?&?)]); eauto. Qed.

(** The invariant of the machine. *)
Definition inv (P : N -> Prop) t b (c : ctl) s : Prop :=
  balances (terminal s) = b /\ P (cfg_fee (config s)) /\
  match c with
  | CTransfer t' _ | CRetry t' _ | CExecute t' _ | CRecover t' _ => derived P t t'
  | CComplete t' tx _ => derived P t t' /\ executed t' tx (world s)
  | CUpdate v t' _ => derived P t t' /\ P v
  end.

Lemma update_recovery_fees_frame s :
  balances (terminal (update_recovery_fees s)) = balances (terminal s) /\
  config (update_recovery_fees s) = config s /\ world (update_recovery_fees s) = world s /\
  update_token_config (terminal (update_recovery_fees s)) = update_token_config (terminal s).
Proof. unfold update_recovery_fees. by destruct (rl_take_all _). Qed.

Lemma set_fee_frame s f :
  balances (terminal (set_fee s f)) = balances (terminal s) /\
  config (set_fee s f) =
    mk_config (cfg_principal (config s)) f (minting_account (config s)) /\
  world (set_fee s f) = world s /\
  update_token_config (terminal (set_fee s f)) = update_token_config (terminal s).
Proof.
  unfold set_fee.
  by destruct (update_recovery_fees_frame (set_config s
    (mk_config (cfg_principal (config s)) f (minting_account (config s))))) as (-> & -> & -> & ->).
Qed.

Lemma set_minting_account_frame s a :
  balances (terminal (set_minting_account s a)) = balances (terminal s) /\
  config (set_minting_account s a) =
    mk_config (cfg_principal (config s)) (cfg_fee (config s)) a /\
  world (set_minting_account s a) = world s /\
  update_token_config (terminal (set_minting_account s a)) = update_token_config (terminal s).
Proof.
  unfold set_minting_account.
  by destruct (update_recovery_fees_frame (set_config s
    (mk_config (cfg_principal (config s)) (cfg_fee (config s)) a))) as (-> & -> & -> & ->).
Qed.

Lemma second_or_not t :
  (exists acc, ttype t = DoubleStep Second acc) \/ (forall acc, ttype t <> DoubleStep Second acc).
Proof. destruct (ttype t) as [|[] acc]; by eauto. Qed.

Lemma reject_second t e s acc :
  ttype t = DoubleStep Second acc ->
  exists d, reject t e s = Done (Err (PE_Recoverable d))
              (set_recovery_list s (rl_push (recovery_list (terminal s)) t)).
Proof. intros Ht. rewrite reject_Done, Ht. eauto. Qed.

Lemma reject_first t e s :
  (forall acc, ttype t <> DoubleStep Second acc) ->
  reject t e s =
    if decide (operation t = CreditOnError)
    then let c := bal_credit (balances (terminal s)) (caller t) (amount t) in
         Done (match c.1 with
               | Ok _ => Err (PaymentError_from_internal e)
               | Err b => Err (PaymentError_from_BalanceError b)
               end) (set_balances s c.2)
    else Done (Err (PaymentError_from_internal e)) s.
Proof. intros Ht. rewrite reject_Done. by destruct (ttype t) as [|[] acc]; [| |destruct (Ht acc)]. Qed.

Lemma reject_ends P t b t' e s :
  balances (terminal s) = b -> derived P t t' -> refused t' e (world s) ->
  match reject t' e s with Done r s' => ends P t b r s' | _ => False end.
Proof.
  intros Hb Hd Hr. pose proof Hd as ((_ & Hc & _ & _ & Ho & _) & _).
  destruct (second_or_not t') as [[acc Hs]|Hn].
  { destruct (reject_second t' e s acc Hs) as [d ->]. left.
    by apply end_saved with t'; [done|apply rl_push_new|]. }
  assert (amount t' = amount t) as Ham.
  { destruct (derived_stages _ _ _ Hd) as [[_ ?]|[acc Hacc]]; [done|by destruct (Hn acc)]. }
  rewrite reject_first, Ho, Hc, Ham, Hb by done. case_decide as Hop; cbn zeta.
  - destruct (bal_credit b (caller t) (amount t)) as [[k|x] b'] eqn:Hcr; cbn.
    + left. apply end_refused with t'; [done..|]. rewrite decide_True by done. by exists k.
    + right. by apply end_not_credited with (amount t).
  - left. apply end_refused with t'; [done..|]. by rewrite decide_False.
Qed.

Lemma goto_inv P t b t' s c :
  match c with
  | inl c => inv P t b c s
  | inr e => balances (terminal s) = b /\ derived P t t' /\ refused t' e (world s)
  end ->
  match goto c t' s with
  | Done (inl c') s' => inv P t b c' s'
  | Done (inr r) s' => ends P t b r s'
  | _ => True
  end.
Proof.
  destruct c as [c|e]; cbn [goto]; [done|]. intros (? & ? & ?). rewrite bind_eq.
  pose proof (reject_ends P t b t' e s) as Hr. destruct (reject t' e s); [|done..].
  cbn. auto.
Qed.

(** What the answer to a ledger call tells. *)
Lemma execute_answer (P : N -> Prop) t w :
  (forall w p arg f w', call_icrc1_transfer w p arg = (Ok (Err (BadFee f)), w') -> P f) ->
  let '(r, w') := execute t w in
  match r with
  | Ok info => executed t (token_tx_id info) w'
  | Err MaybeFailed => True
  | Err (WrongFee f) => P f
  | Err e => refused t e w' /\
      match e with TransferFailed (Rejected (Duplicate tx)) => executed t tx w' | _ => True end
  end.
Proof.
  intros HPl. destruct (execute t w) as [r w'] eqn:He. pose proof He as He'.
  unfold execute, transfer_icrc1 in He.
  destruct (call_icrc1_transfer _ _ _) as [[[tx|e]|[c m]] w2] eqn:Hcall; simplify_eq; cbn in *.
  - by eapply executed_accepted.
  - destruct e; cbn in *; try (split; [by eapply refused_by_ledger|]; done); [by eapply HPl|].
    split; [by eapply refused_by_ledger|]. by eapply executed_duplicate.
  - destruct c; cbn in *; try done; (split; [by eapply refused_by_ledger|]; done).
Qed.

Lemma after_update_inv (P : N -> Prop) t b t' n s :
  balances (terminal s) = b /\ P (cfg_fee (config s)) -> P 0%N -> derived P t t' ->
  match after_update t' n (Ok tt) s with
  | Done (inl c') s' => inv P t b c' s'
  | Done (inr r) s' => ends P t b r s'
  | _ => True
  end.
Proof.
  intros (Hb & HPc) HP0 Hd. cbn [after_update]. rewrite bind_eq. unfold get. rewrite bind_eq.
  assert (derived P t (with_fee t' (get_fee (config s) (to t') (from t')))).
  { apply derived_with_fee; [done|]. unfold get_fee. by destruct (_ || _). }
  unfold run_update_callback. by destruct (update_token_config _).
Qed.

Lemma step_ends (P : N -> Prop) t b :
  P 0%N ->
  (forall w p arg f w', call_icrc1_transfer w p arg = (Ok (Err (BadFee f)), w') -> P f) ->
  forall c s, inv P t b c s ->
    match step c s with
    | Done (inl c') s' => inv P t b c' s'
    | Done (inr r) s' => ends P t b r s'
    | _ => True
    end.
Proof.
  intros HP0 HPl c s (Hb & HPc & Hc).
  destruct c as [t' n|t' tx n|t' n|t' n|t' n|v t' n]; cbn [step].
  - destruct (validate t') eqn:Hv; [done|]. right. by apply end_invalid with t'.
  - destruct Hc as [Hd Hex]. destruct (next_step t' (world s)) as [t2|] eqn:Hn.
    { split_and!; [done..|]. by eapply derived_next_step. }
    pose proof Hd as ((_ & Hcl & _ & _ & Ho & _) & _).
    assert (stages_left t' = 0%nat) as Hst.
    { unfold next_step, stages_left in *. by destruct (ttype t') as [|[] ?]. }
    rewrite Ho, Hcl. case_decide as Hop.
    + rewrite bind_eq, credit_Done. rewrite Hb.
      destruct (bal_credit b (caller t) (amount_minus_fee t')) as [[k|x] b'] eqn:Hcr; cbn.
      * left. apply end_executed with t'; [done..|]. rewrite decide_True by done. by exists k.
      * right. by apply end_not_credited with (amount_minus_fee t').
    + left. apply end_executed with t'; [done..|]. by rewrite decide_False.
  - destruct n; [|done]. left. by apply end_saved with t'; [done|apply rl_push_new|].
  - rewrite bind_eq, in_world_Done. apply goto_inv.
    pose proof (execute_answer P t' (world s) HPl) as Ha.
    destruct (execute t' (world s)) as [r w'] eqn:He. cbn [fst snd].
    destruct r as [info|[]]; cbn [after_execute]; unfold inv; cbn; split_and!; naive_solver.
  - rewrite bind_eq, in_world_Done. apply goto_inv.
    pose proof (execute_answer P t' (world s) HPl) as Ha.
    destruct (execute t' (world s)) as [r w'] eqn:He. cbn [fst snd].
    destruct r as [info|[[| |[]| |]| | | |]]; cbn [after_execute after_recover]; unfold inv; cbn;
      split_and!; naive_solver.
  - destruct Hc as [Hd HPv]. rewrite bind_eq. unfold update_config. destruct (_ || _).
    + rewrite ask_eq. unfold get_minting_account, get_icrc1_minting_account.
      destruct (call_icrc1_minting_account _ _) as [[a|c] w'] eqn:Hm; cbn [from_rejection map_err].
      * apply after_update_inv; [|done..].
        by destruct (set_minting_account_frame (set_world s w') (default no_minting_account a))
          as (-> & -> & _).
      * right. by apply end_no_configuration with c (cfg_principal (config s)) (world s).
    + apply after_update_inv; [|done..].
      by destruct (set_fee_frame s v) as (-> & -> & _).
Qed.
End ends.

(** ** What no method changes *)

Section frame.
Context {B R W : Type} `{PaymentLib, World W, Balances B, RecoveryList R}.
Notation st := (state B R W).
Implicit Types (s : st) (t : Transfer).

(** The terminal keeps its token and its deduplication period. *)
Definition frame s s' : Prop :=
  deduplication_period (terminal s') = deduplication_period (terminal s) /\
  cfg_principal (config s') = cfg_principal (config s).

#[export] Instance frame_preorder : PreOrder frame.
Proof. split; [done|]. intros s1 s2 s3 [? ?] [? ?]. split; congruence. Qed.

Lemma reject_frame t e s :
  match reject t e s with Done _ s' => frame s s' | _ => True end.
Proof. rewrite reject_Done. destruct (ttype t) as [|[] ?]; by repeat case_decide. Qed.

Lemma update_recovery_fees_keeps s : frame s (update_recovery_fees s).
Proof. unfold update_recovery_fees. by destruct (rl_take_all _). Qed.

Lemma update_config_frame v s :
  match update_config v s with Done _ s' => frame s s' | _ => True end.
Proof.
  unfold update_config. destruct (_ || _).
  - rewrite ask_eq. unfold get_minting_account.
    destruct (get_icrc1_minting_account _ _) as [[a|c] w']; [|done].
    etrans; [|apply update_recovery_fees_keeps]. done.
  - unfold set_fee. etrans; [|apply update_recovery_fees_keeps]. done.
Qed.

Lemma goto_frame c t s : match goto c t s with Done _ s' => frame s s' | _ => True end.
Proof.
  destruct c as [c|e]; cbn [goto]; [done|]. rewrite bind_eq. pose proof (reject_frame t e s).
  by destruct (reject t e s).
Qed.

Lemma step_frame c s : match step c s with Done _ s' => frame s s' | _ => True end.
Proof.
  destruct c as [t n|t tx n|t n|t n|t n|v t n]; cbn [step].
  - by destruct (validate t).
  - destruct (next_step _ _); [done|]. case_decide; [|done]. by rewrite bind_eq, credit_Done.
  - by destruct n.
  - rewrite bind_eq, in_world_Done. apply (goto_frame _ _ (set_world s _)).
  - rewrite bind_eq, in_world_Done. apply (goto_frame _ _ (set_world s _)).
  - rewrite bind_eq. pose proof (update_config_frame v s) as Hu.
    destruct (update_config v s) as [[] s'| |]; [|done..]. cbn [after_update].
    rewrite bind_eq. unfold get. rewrite bind_eq. unfold run_update_callback.
    by destruct (update_token_config _).
Qed.

Lemma run_ctl_frame fuel c s :
  match run_ctl fuel c s with Done _ s' => frame s s' | _ => True end.
Proof.
  destruct (run_ctl fuel c s) as [r s'| |] eqn:Hrun; [|done..].
  eapply (run_ctl_inv (fun _ => frame s) (fun _ => frame s)); [|reflexivity|done].
  intros c1 s1 Hs1. pose proof (step_frame c1 s1) as Hs2.
  destruct (step c1 s1) as [[] ?| |]; try done; by etrans.
Qed.

Lemma recover_old_tx_frame fuel t s :
  match recover_old_tx fuel t s with Done _ s' => frame s s' | _ => True end.
Proof.
  unfold recover_old_tx. destruct (ttype t) as [|stage acc]; [done|].
  rewrite ask_eq, in_world_Done.
  destruct (get_icrc1_balance _ _ _) as [[k|e] w]; cbn [fst snd]; [|done].
  set (s1 := set_world s w).
  destruct stage, (k =? 0)%N.
  - apply (reject_frame t _ s1).
  - apply (run_ctl_frame fuel (CComplete t UNKNOWN_TX_ID N_RETRIES) s1).
  - apply (run_ctl_frame fuel (CComplete t UNKNOWN_TX_ID N_RETRIES) s1).
  - apply (run_ctl_frame fuel (CRecover (renew t (world s1)) N_RETRIES) s1).
Qed.

Lemma recover_tx_frame `{Target} fuel t s :
  match recover_tx fuel t s with Done _ s' => frame s s' | _ => True end.
Proof.
  unfold recover_tx. rewrite bind_eq. unfold can_deduplicate. destruct (u_sub _ _ _); [|done].
  rewrite ask_eq. destruct (_ <? _).
  - pose proof (run_ctl_frame fuel (CRecover t N_RETRIES) s) as Hr. cbn [run_ctl] in Hr.
    by destruct (execute_recovery_transfer _ _ _ _) as [[]| |].
  - pose proof (recover_old_tx_frame fuel t s) as Hr.
    by destruct (recover_old_tx _ _ _) as [[]| |].
Qed.
End frame.
