(* ===== verification/TerminalTrace.v ===== *)
(** * The ledger calls of a transfer

    Any world can be observed by recording the [icrc1_transfer] calls and their
    answers ([traced_world]).  The machine of [TerminalProofs] is followed with
    the record: all attempts of a step are the same request up to the fee, the
    second step starts only after an accepted first one, and their number is
    bounded by the retries. *)

From S2P Require Import Prelude StableLib StableStorage Payments RecoveryList Terminal.
From S2P Require Import TerminalProofs.
Local Open Scope Z_scope.

Section traced.
Context {W : Type} `{World W}.

Definition answer : Type := result (result TxId TransferError) rejection.

Record event := mk_event {
  ev_token : Principal;
  ev_arg : TransferArg;
  ev_answer : answer;
}.

Definition traced : Type := W * list event.

#[export] Instance traced_world : World traced := {|
  ic_id := ic_id;
  ic_time w := ic_time w.1;
  call_icrc1_transfer w p arg :=
    let '(r, w') := call_icrc1_transfer w.1 p arg in (r, (w', w.2 ++ [mk_event p arg r]));
  call_icrc1_balance_of w p a :=
    let '(r, w') := call_icrc1_balance_of w.1 p a in (r, (w', w.2));
  call_icrc1_fee w p := let '(r, w') := call_icrc1_fee w.1 p in (r, (w', w.2));
  call_icrc1_minting_account w p :=
    let '(r, w') := call_icrc1_minting_account w.1 p in (r, (w', w.2));
|}.
End traced.

Section trace.
Context {B R W : Type} `{PaymentLib, World W, Balances B, RecoveryList R}.
Notation st := (state B R (traced (W := W))).
Implicit Types (s : st) (t : Transfer) (n : nat) (e : event) (l : list event).

Definition trace s : list event := (world s).2.

(** The ledger executed the transfer of this call, now or before. *)
Definition accepted e : Prop :=
  exists tx, ev_answer e = Ok (Ok tx) \/ ev_answer e = Ok (Err (Duplicate tx)).

(** A call of the current step of [t]: only the fee is free. *)
Definition attempt_of t e : Prop :=
  exists f, ev_token e = token t /\
    ev_arg e = mk_arg (subaccount (from (W := W) t)) (to t) (amount t - f)%N (Some f) (memo t)
                 (Some (created_at t)).

(** The ledger refused the call for its fee. *)
Definition bad_fee e : Prop := exists f, ev_answer e = Ok (Err (BadFee f)).

(** A call is repeated as it was, unless the ledger refused it for its fee. *)
Definition steady l : Prop :=
  forall l1 e e' l2, l = l1 ++ e :: e' :: l2 -> ev_arg e' = ev_arg e \/ bad_fee e.

Lemma steady_snoc l e :
  steady l -> (forall e0, last l = Some e0 -> ev_arg e = ev_arg e0 \/ bad_fee e0) -> steady (l ++ [e]).
Proof.
  intros Hl He l1 e1 e2 l2 Heq. destruct l2 as [|x l2 _] using rev_ind.
  - change (e1 :: [e2]) with ([e1] ++ [e2]) in Heq. rewrite app_assoc in Heq.
    apply app_inj_tail in Heq as [-> ->]. apply He, last_snoc.
  - apply (Hl l1 e1 e2 l2). change (e1 :: e2 :: l2 ++ [x]) with ((e1 :: e2 :: l2) ++ [x]) in Heq.
    rewrite app_assoc in Heq. by apply app_inj_tail in Heq as [-> _].
Qed.

Lemma steady_nil : steady [].
Proof. by intros [|] ? ? ?. Qed.

(** [t'] is [t] up to the fee. *)
Definition same_step t t' : Prop :=
  same_request t t' /\ ttype t' = ttype t /\ amount t' = amount t /\ created_at t' = created_at t.

(** [t'] is the second step after the call [e] of the first step of [t]. *)
Definition second_step t e t' : Prop :=
  same_request t t' /\ amount t' = arg_amount (ev_arg e) /\
  exists acc, ttype t = DoubleStep First acc /\ ttype t' = DoubleStep Second acc.

(** The calls of a transfer: attempts of its step, each repeated as it was, unless it was
    refused for its fee, the last of which was accepted if attempts of the second step
    follow. *)
Definition well_traced t l (bound : nat) : Prop :=
  exists l1 l2, l = l1 ++ l2 /\ (length l <= bound)%nat /\ Forall (attempt_of t) l1 /\ steady l1 /\
    (l2 = [] \/ exists e t2, last l1 = Some e /\ accepted e /\ second_step t e t2 /\
                             Forall (attempt_of t2) l2 /\ steady l2).

Definition ctl_transfer (c : ctl) : Transfer :=
  match c with
  | CTransfer t _ | CRetry t _ | CExecute t _ | CRecover t _ | CComplete t _ _ | CUpdate _ t _ => t
  end.

(** Calls that may still happen. *)
Definition calls_left (c : ctl) : nat :=
  match c with
  | CTransfer t n | CExecute t n | CRecover t n => Nat.max n 1 + stages_left t
  | CRetry t n => n + match n with O => 0 | _ => stages_left t end
  | CUpdate _ t n => n + match n with O => 0 | _ => stages_left t end
  | CComplete t _ n => stages_left t * Nat.max n 1
  end%nat.

Definition completing (c : ctl) l : Prop :=
  match c with
  | CComplete t _ _ => exists e, last l = Some e /\ accepted e /\ ev_arg e = transfer_arg (W := W) t
  | _ => True
  end.

(** The next call repeats the last one, unless that was refused for its fee. *)
Definition repeating (c : ctl) l : Prop :=
  match c with
  | CUpdate _ _ _ => exists e, last l = Some e /\ bad_fee e
  | _ => forall e, last l = Some e -> transfer_arg (W := W) (ctl_transfer c) = ev_arg e \/ bad_fee e
  end.

Definition callback_silent s : Prop :=
  forall f, update_token_config (terminal s) = Some f -> forall c w, (f c w).2 = w.2.

Definition trace_inv t l0 (bound : nat) (c : ctl) s : Prop :=
  callback_silent s /\
  exists l1 l2, trace s = l0 ++ l1 ++ l2 /\ (length (l1 ++ l2) + calls_left c <= bound)%nat /\
    Forall (attempt_of t) l1 /\ steady l1 /\
    ((l2 = [] /\ same_step t (ctl_transfer c) /\ completing c l1 /\ repeating c l1) \/
     (exists e t2, last l1 = Some e /\ accepted e /\ second_step t e t2 /\
        Forall (attempt_of t2) l2 /\ steady l2 /\ same_step t2 (ctl_transfer c) /\ repeating c l2)).

Definition trace_end t l0 (bound : nat) s : Prop :=
  exists l, trace s = l0 ++ l /\ well_traced t l bound.

Lemma trace_inv_end t l0 bound c s s' :
  trace_inv t l0 bound c s -> trace s' = trace s -> trace_end t l0 bound s'.
Proof.
  intros (_ & l1 & l2 & Htr & Hlen & Hl1 & Hst & Hl2) Hs'. exists (l1 ++ l2).
  split; [congruence|]. exists l1, l2. split_and!; [done|lia|done|done|].
  destruct Hl2 as [(-> & _)|(e & t2 & ? & ? & ? & ? & ? & _)]; [by left|right]. by exists e, t2.
Qed.

Lemma same_step_attempt t t' (r : answer) :
  same_step t t' -> attempt_of t (mk_event (token t') (transfer_arg (W := traced (W := W)) t') r).
Proof.
  intros ((Htok & _ & Hfrom & Hto & _ & Hmemo) & Hty & Ham & Hts). exists (fee t').
  split; [done|]. cbn. unfold transfer_arg.
  rewrite amount_minus_fee_eq, Ham, Hmemo, Hts.
  unfold from, to, from_acc. by rewrite Hty, Hfrom, Hto.
Qed.

(** A ledger call is recorded, and continues the transfer or ends it. *)
Lemma execute_traced t (w : traced (W := W)) :
  exists r, let e := mk_event (token t) (transfer_arg (W := W) t) r in
    (execute t w).2.2 = w.2 ++ [e] /\
    (forall tx, match (execute t w).1 with
                | Ok info => token_tx_id info = tx
                | Err (TransferFailed (Rejected (Duplicate tx'))) => tx' = tx
                | _ => False
                end -> accepted e) /\
    (forall f, (execute t w).1 = Err (WrongFee f) -> bad_fee e).
Proof.
  unfold execute, transfer_icrc1. cbn.
  change (transfer_arg (W := traced) t) with (transfer_arg (W := W) t).
  destruct (call_icrc1_transfer w.1 (token t) (transfer_arg t)) as [r w']. cbn.
  exists r. split_and!; [done|intros tx|intros f];
    destruct r as [[tx'|[]]|[[] ?]]; cbn; try done; first [intros ->; by exists tx; eauto|intros _; by eexists].
Qed.

Lemma same_step_with_fee t t' f : same_step t t' -> same_step t (with_fee t' f).
Proof. done. Qed.

(** The invariant after one more call. *)
Lemma trace_inv_called t l0 bound c s t' (r : answer) c' s1 :
  let e := mk_event (token t') (transfer_arg (W := W) t') r in
  trace_inv t l0 bound c s -> ctl_transfer c = t' -> ctl_transfer c' = t' ->
  (1 + calls_left c' <= calls_left c)%nat ->
  match c' with CComplete _ _ _ => accepted e | CUpdate _ _ _ => bad_fee e | _ => True end ->
  (forall l, repeating c l -> forall e0, last l = Some e0 ->
     transfer_arg (W := W) t' = ev_arg e0 \/ bad_fee e0) ->
  trace s1 = trace s ++ [e] -> update_token_config (terminal s1) = update_token_config (terminal s) ->
  trace_inv t l0 bound c' s1.
Proof.
  intros e (Hcb & l1 & l2 & Htr & Hlen & Hl1 & Hst1 & Hl2) Hc Hc' Hleft Hacc Hrep Htr' Hupd.
  split; [intros f Hf; apply Hcb; congruence|]. rewrite Htr in Htr'. subst t'.
  assert (forall l, repeating c' (l ++ [e])) as Hrep'.
  { intros l. destruct c'; cbn [repeating]; [..|exists e; by rewrite last_snoc];
      intros e0; rewrite last_snoc; intros [= <-]; left; by rewrite Hc'. }
  destruct Hl2 as [(-> & Hss & _ & Hr)|(e1 & t2 & Hlast & Hacc1 & Hss & Hl2 & Hst2 & Hss2 & Hr)].
  - exists (l1 ++ [e]), []. rewrite !app_nil_r in *. rewrite <- app_assoc in Htr'.
    split_and!; [done|rewrite length_app; cbn; lia| |by apply steady_snoc, (Hrep l1)|].
    + apply Forall_app. split; [done|]. constructor; [|done]. by apply same_step_attempt.
    + left. split_and!; [done|by rewrite Hc'| |done].
      destruct c'; cbn [completing ctl_transfer] in *; try done. exists e.
      split_and!; [apply last_snoc|done|]. by rewrite Hc'.
  - exists l1, (l2 ++ [e]). split_and!; [by rewrite Htr', <- !app_assoc| |done|done|].
    + rewrite !length_app in *. cbn. lia.
    + right. exists e1, t2. split_and!; [done..| |by apply steady_snoc, (Hrep l2)|by rewrite Hc'|done].
      apply Forall_app. split; [done|]. constructor; [|done]. by apply same_step_attempt.
Qed.

(** A step without a call. *)
Lemma trace_inv_silent t l0 bound c s c' s1 :
  trace_inv t l0 bound c s ->
  (forall t0, same_step t0 (ctl_transfer c) -> same_step t0 (ctl_transfer c')) ->
  (calls_left c' <= calls_left c)%nat ->
  match c' with CComplete _ _ _ => False | _ => True end ->
  (forall l, repeating c l -> repeating c' l) ->
  trace s1 = trace s -> update_token_config (terminal s1) = update_token_config (terminal s) ->
  trace_inv t l0 bound c' s1.
Proof.
  intros (Hcb & l1 & l2 & Htr & Hlen & Hl1 & Hst1 & Hl2) Hc Hleft Hnc Hrep Htr' Hupd.
  split; [intros f Hf; apply Hcb; congruence|]. exists l1, l2.
  split_and!; [congruence|lia|done|done|].
  destruct Hl2 as [(-> & Hss & _ & Hr)|(e1 & t2 & Hlast & Hacc1 & Hss & Hl2 & Hst2 & Hss2 & Hr)].
  - left. split_and!; [done|auto|by destruct c'|auto].
  - right. exists e1, t2. split_and!; auto.
Qed.

Lemma trace_inv_next_step t l0 bound t' tx n s t2 :
  trace_inv t l0 bound (CComplete t' tx n) s -> next_step t' (world s) = Some t2 ->
  trace_inv t l0 bound (CTransfer t2 n) s.
Proof.
  intros (Hcb & l1 & l2 & Htr & Hlen & Hl1 & Hst1 & Hl2) Hn. split; [done|]. exists l1, l2.
  pose proof (next_step_stages _ _ _ Hn) as [Hs1 Hs2].
  cbn [calls_left] in *. rewrite Hs1 in Hlen. rewrite Hs2.
  split_and!; [done|lia|done|done|]. right.
  unfold next_step in Hn. destruct (ttype t') as [|[] acc] eqn:Hty; simplify_eq.
  destruct Hl2 as [(-> & Hss & (e & Hlast & Hacc & Harg) & _)|(e1 & t2 & _ & _ & Hst & _ & _ & Hss & _)].
  - eexists e, _. split_and!; [done..| |done|apply steady_nil|by split_and!|done].
    destruct Hss as ((?&?&?&?&?&?) & Hty' & Ham & _). cbn [ctl_transfer] in *.
    split; [by split_and!|]. cbn. split; [by rewrite Harg|]. exists acc. by rewrite <- Hty'.
  - destruct Hst as (_ & _ & acc' & _ & Hst). destruct Hss as (_ & Hss & _).
    cbn [ctl_transfer] in Hss. congruence.
Qed.

Lemma reject_trace t (err : InternalPaymentError) s :
  match reject t err s with Done _ s' => trace s' = trace s | _ => False end.
Proof. rewrite reject_Done. destruct (ttype t) as [|[] ?]; by repeat case_decide. Qed.

Lemma after_execute_ctl t n r c' : after_execute t n r = inl c' -> ctl_transfer c' = t.
Proof. destruct r as [|[]]; cbn; intros; by simplify_eq. Qed.

Lemma after_recover_ctl t n r c' : after_recover t n r = inl c' -> ctl_transfer c' = t.
Proof. destruct r as [|[[| |[]| |]| | | |]]; cbn; intros; by simplify_eq. Qed.

Lemma after_execute_calls t n r c' :
  after_execute t n r = inl c' -> (1 + calls_left c' <= Nat.max n 1 + stages_left t)%nat.
Proof.
  assert (stages_left t <= 1)%nat by (unfold stages_left; destruct (ttype t) as [|[] ?]; lia).
  destruct r as [|[]]; cbn; intros; simplify_eq; cbn [calls_left];
    destruct (stages_left t) as [|[]], n as [|[]]; cbn; lia.
Qed.

Lemma after_recover_calls t n r c' :
  after_recover t n r = inl c' -> (1 + calls_left c' <= Nat.max n 1 + stages_left t)%nat.
Proof.
  intros Hr. assert (after_execute t n r = inl c' \/ (exists tx, c' = CComplete t tx n) \/
    c' = CRetry t (n - 1)) as [Hc|[[tx ->]| ->]].
  { destruct r as [|[[| |[]| |]| | | |]]; cbn in *; simplify_eq; eauto. }
  - by eapply after_execute_calls.
  - by apply (after_execute_calls t n (Ok {| token_tx_id := tx; token_principal := []; amount_transferred := 0 |})).
  - by apply (after_execute_calls t n (Err MaybeFailed)).
Qed.

Lemma update_config_trace v s :
  match update_config v s with
  | Done _ s' => trace s' = trace s /\
                 update_token_config (terminal s') = update_token_config (terminal s)
  | _ => False
  end.
Proof.
  unfold update_config. destruct (_ || _).
  - rewrite ask_eq. unfold get_minting_account, get_icrc1_minting_account. cbn.
    destruct (call_icrc1_minting_account _ _) as [[a|c] w'] eqn:Hm; cbn; [|done].
    destruct (set_minting_account_frame (set_world s (w', (world s).2)) (default no_minting_account a))
      as (_ & _ & Hw & Hu). unfold trace. by rewrite Hw, Hu.
  - destruct (set_fee_frame s v) as (_ & _ & Hw & Hu). unfold trace. by rewrite Hw, Hu.
Qed.

Lemma call_step t l0 bound c s t' n (after : _ -> ctl + InternalPaymentError) :
  c = CExecute t' n /\ after = after_execute t' n \/ c = CRecover t' n /\ after = after_recover t' n ->
  trace_inv t l0 bound c s ->
  match (r ← in_world (execute t'); goto (after r) t') s with
  | Done (inl c') s' => trace_inv t l0 bound c' s'
  | Done (inr _) s' => trace_end t l0 bound s'
  | _ => True
  end.
Proof.
  intros Hc Hinv. assert (ctl_transfer c = t') as Ht by (by destruct Hc as [[-> _]|[-> _]]).
  assert (calls_left c = Nat.max n 1 + stages_left t')%nat as Hcl
    by (by destruct Hc as [[-> _]|[-> _]]).
  assert (forall l, repeating c l -> forall e0, last l = Some e0 ->
    transfer_arg (W := W) t' = ev_arg e0 \/ bad_fee e0) as Hrep by (by destruct Hc as [[-> _]|[-> _]]).
  destruct (execute_traced t' (world s)) as (r & Htr & Hacc & Hbad).
  rewrite bind_eq, in_world_Done. destruct (execute t' (world s)) as [a w']. cbn [fst snd] in *.
  assert (forall c', ctl_transfer c' = t' -> (1 + calls_left c' <= calls_left c)%nat ->
    match c' with
    | CComplete _ _ _ => accepted (mk_event (token t') (transfer_arg (W := W) t') r)
    | CUpdate _ _ _ => bad_fee (mk_event (token t') (transfer_arg (W := W) t') r)
    | _ => True
    end -> trace_inv t l0 bound c' (set_world s w')) as Hnext by (intros; by eapply trace_inv_called).
  destruct (after a) as [c'|e] eqn:Ha; cbn [goto].
  - apply Hnext.
    + destruct Hc as [[-> ->]|[-> ->]]; eauto using after_execute_ctl, after_recover_ctl.
    + rewrite Hcl.
      destruct Hc as [[-> ->]|[-> ->]]; eauto using after_execute_calls, after_recover_calls.
    + destruct c' as [| |? ?|? ?|? ?|v ? ?]; try done; [apply (Hacc tx_id)|apply (Hbad v)];
        destruct Hc as [[-> ->]|[-> ->]]; destruct a as [|[[| |[]| |]| | | |]];
        cbn in Ha; by simplify_eq.
  - rewrite bind_eq. pose proof (reject_trace t' e (set_world s w')) as Hr.
    destruct (reject _ _ _) as [x s'| |]; [|done..]. cbn.
    eapply (trace_inv_end _ _ _ (CRetry t' 0)); [|apply Hr].
    apply Hnext; [done|rewrite Hcl; cbn [calls_left]; lia|done].
Qed.

Lemma step_trace t l0 bound c s :
  trace_inv t l0 bound c s ->
  match step c s with
  | Done (inl c') s' => trace_inv t l0 bound c' s'
  | Done (inr _) s' => trace_end t l0 bound s'
  | _ => True
  end.
Proof.
  intros Hinv. destruct c as [t' n|t' tx n|t' n|t' n|t' n|v t' n]; cbn [step].
  - destruct (validate t'); [|by eapply trace_inv_end]. by eapply trace_inv_silent.
  - destruct (next_step t' (world s)) eqn:Hn; [by eapply trace_inv_next_step|].
    case_decide; [|by eapply trace_inv_end].
    rewrite bind_eq, credit_Done. by eapply trace_inv_end.
  - destruct n; [by eapply trace_inv_end|].
    eapply trace_inv_silent; [done|done| |done|done|done|done]. cbn [calls_left ctl_transfer]. lia.
  - eapply call_step; [|done]. auto.
  - eapply call_step; [|done]. auto.
  - rewrite bind_eq.
    pose proof (update_config_trace v s) as Hu.
    destruct (update_config v s) as [[a|x] s1| |]; [|by eapply trace_inv_end; [|apply Hu]|done..].
    cbn [after_update]. rewrite bind_eq. unfold get. rewrite bind_eq. destruct Hu as [Hu1 Hu2].
    unfold run_update_callback. destruct Hinv as [Hcb Hinv].
    assert (forall s2, trace s2 = trace s1 ->
      update_token_config (terminal s2) = update_token_config (terminal s1) ->
      trace_inv t l0 bound
        (CRetry (with_fee t' (get_fee (config s1) (to t') (from t'))) n) s2) as Hend.
    { intros s2 Ht2 Hc2. eapply (trace_inv_silent _ _ _ (CUpdate v t' n) s);
        [by split|done|done|done| |congruence|congruence].
      intros l (e & Hlast & Hb) e0. rewrite Hlast. intros [= <-]. by right. }
    destruct (update_token_config (terminal s1)) as [f|] eqn:Hf; cbn; [|by apply Hend].
    apply Hend; [|done]. apply Hcb. congruence.
Qed.
End trace.
