(* ===== verification/TerminalConcrete.v ===== *)
(** * A concrete payments world

    A canister with a ledger that answers from a script, balances in a finite
    map and the stable recovery list over the finite-map B-tree: the parameters
    of the terminal instantiated, to evaluate its theorems. *)

From S2P Require Import Prelude StableLib Concrete StableStorage Payments RecoveryList Terminal.
From S2P Require Import TerminalProofs TerminalTrace.
Local Open Scope Z_scope.

#[export] Instance concrete_payment_lib : PaymentLib := {|
  effective_subaccount a := default (replicate 32 0) (subaccount a);
  account_eqb a b :=
    bool_decide (owner a = owner b) &&
    bool_decide (default (replicate 32 0) (subaccount a) = default (replicate 32 0) (subaccount b));
  management_canister := [];
  sha224 bs := take 28 (rev bs ++ replicate 28 0);
  nat_to_bytes_le n := to_le_bytes 16 (Z.of_N n);
  account_of_principal p := mk_account p None;
  memo_of_u64 n := rev (to_le_bytes 8 n);
|}.

#[export] Instance concrete_payment_laws : PaymentLibLaws.
Proof.
  split.
  - done.
  - intros a b. cbn. rewrite andb_true_iff, !bool_decide_eq_true. done.
  - intros bs. cbn [sha224 concrete_payment_lib].
    rewrite length_take, length_app, length_replicate. lia.
  - done.
Qed.

(** The script of the ledger: the answers to the next transfer calls (then the
    transfers are accepted), the balance and the minting account it tells. *)
Record script := mk_script {
  now : Z;
  transfer_answers : list (result (result TxId TransferError) rejection);
  balance_answer : result N rejection;
  minting_answer : result (option Account) rejection;
}.

#[export] Instance script_world : World script := {|
  ic_id := [7; 7];
  ic_time := now;
  call_icrc1_transfer w _ _ :=
    match transfer_answers w with
    | [] => (Ok (Ok 1%N), w)
    | a :: l => (a, mk_script (now w + 1) l (balance_answer w) (minting_answer w))
    end;
  call_icrc1_balance_of w _ _ := (balance_answer w, w);
  call_icrc1_fee w _ := (Ok 10%N, w);
  call_icrc1_minting_account w _ := (minting_answer w, w);
|}.

(** A ledger that always knows its minting account: a call is accepted, gets
    lost, or finds the fee raised to 15. *)
Inductive mood := Accepts | Silent | Raises.

#[export] Instance mood_world : World (list mood) := {|
  ic_id := [7; 7];
  ic_time w := 100 - zlength w;
  call_icrc1_transfer w _ _ :=
    match w with
    | [] => (Ok (Ok 1%N), w)
    | Accepts :: w => (Ok (Ok 2%N), w)
    | Silent :: w => (Err (SysTransient, EmptyString), w)
    | Raises :: w => (Ok (Err (BadFee 15)), w)
    end;
  call_icrc1_balance_of w _ _ := (Ok 500%N, w);
  call_icrc1_fee w _ := (Ok 10%N, w);
  call_icrc1_minting_account w _ := (Ok (Some (mk_account [9] None)), w);
|}.

#[export] Instance map_balances : Balances (gmap Principal N) := {|
  bal_credit b p a := let v := (default 0 (b !! p) + a)%N in (Ok v, <[p := v]> b);
  bal_debit b p a :=
    let v := default 0%N (b !! p) in
    if (v <? a)%N then (Err BalanceInsufficientFunds, b) else (Ok (v - a)%N, <[p := (v - a)%N]> b);
|}.

Definition recovery : Type := StableRecoveryList.t unit.
Definition empty_recovery : recovery := StableRecoveryList.mk tt None.

Definition token_canister : Principal := [1; 1; 1].
Definition alice : Principal := [5; 4].
Definition minter : Account := mk_account [9] None.

Definition concrete_terminal {W} (fee : N) (r : recovery) :
    TokenTerminal (gmap Principal N) recovery W :=
  new_with_recovery_list (mk_config token_canister fee minter) {[ alice := 1000%N ]} r.

Definition quiet : script := mk_script 100 [] (Ok 500%N) (Ok (Some minter)).

Definition concrete_state {W} (w : W) : state (gmap Principal N) recovery W :=
  mk_state (concrete_terminal 10 empty_recovery) 0 w.

Definition alice_transfer : Transfer :=
  mk_transfer token_canister alice None (mk_account alice None) 100 10 CreditOnError
    (DoubleStep First (mk_account [7; 7] (Some [1]))) 100 None.
