(* ===== verification/TerminalProps.v ===== *)
(** * Properties of the token terminal

    The theorems on transfers, deposits, withdrawals and recovery, each with the
    fuel that is enough, and the concrete runs that witness them. *)

From S2P Require Import Prelude StableLib Concrete StableStorage Payments RecoveryList Terminal.
From S2P Require Import TerminalProofs TerminalTrace TerminalConcrete.
Local Open Scope Z_scope.

Section props.
Context {B R W : Type} `{PaymentLib, World W, Balances B, RecoveryList R, !RecoveryListLaws R}.
Notation st := (state B R W).
Implicit Types (s : st) (t : Transfer) (n : nat).

(** The fuel that runs a transfer with [n] retries to its end. *)
Definition transfer_fuel (n : nat) : nat := 8 * n + 15.

Lemma stages_left_le t : (stages_left t <= 1)%nat.
Proof. unfold stages_left. destruct (ttype t) as [|[] ?]; lia. Qed.

Lemma measure_transfer_fuel c t n x :
  c = CTransfer t n \/ c = CExecute t n \/ c = CRecover t n \/ (exists tx, c = CComplete t tx n) ->
  (measure c < transfer_fuel n + x)%nat.
Proof.
  pose proof (stages_left_le t). unfold transfer_fuel.
  intros [->|[->|[->|[tx ->]]]]; cbn [measure];
    destruct (stages_left t) as [|[]], n; lia.
Qed.

Lemma run_ctl_ends (P : N -> Prop) t b c s :
  P 0%N ->
  (forall w p arg f w', call_icrc1_transfer w p arg = (Ok (Err (BadFee f)), w') -> P f) ->
  inv P t b c s ->
  exists r s', (forall fuel, (measure c < fuel)%nat -> run_ctl fuel c s = Done r s') /\
               ends P t b r s'.
Proof.
  intros HP0 HPl Hinv. destruct (run_ctl_total c s) as (r & s' & Hrun).
  exists r, s'. split; [done|].
  eapply (run_ctl_inv (inv P t b)); [by apply step_ends|done|]. apply (Hrun (S (measure c))). lia.
Qed.

(** C13: every transfer ends, for any ledger, any balances and any recovery list,
    and in one of six ways: executed (the last ledger call is the transfer's
    last step, accepted or a known duplicate, and the caller is credited exactly
    the amount of that call if so requested); refused with a definite error
    before anything moved (and refunded in full if so requested); saved in the
    recovery list with the balances untouched; or one of the three ends that
    leave no record. *)
Theorem transfer_ends t n s :
  exists r s', (forall x, transfer (transfer_fuel n + x) t n s = Done r s') /\
    ends (fun _ => True) t (balances (terminal s)) r s'.
Proof.
  destruct (run_ctl_ends (fun _ => True) t (balances (terminal s)) (CTransfer t n) s)
    as (r & s' & Hrun & Hend); [done..| |].
  { split_and!; [done..|by apply derived_refl]. }
  exists r, s'. split; [|done]. intros x. apply (Hrun (transfer_fuel n + x)%nat).
  apply (measure_transfer_fuel _ t n). auto.
Qed.

(** No end without a record is left when the minting account can be read and the amount
    covers any fee, but for a credit that the balances refuse. *)
Lemma safe_if_covered (F : N) t b r s :
  (forall (w : W) p c w', call_icrc1_minting_account w p <> (Err c, w')) ->
  account_eqb (from_acc (W := W) t) (to_acc t) = false -> (2 * F < amount t)%N ->
  ends (fun f => f <= F)%N t b r s ->
  safe_end (fun f => f <= F)%N t b r s \/
  exists a e, bal_credit b (caller t) a = (Err e, balances (terminal s)) /\
    r = Err (PaymentError_from_BalanceError e).
Proof.
  intros Hmint Hacc Ham [Hs|Hu]; [by left|].
  destruct Hu as [e a s' Hb|v c p w s' Hm|e t' s' Hd Hv _]; [by right; exists a, e|..]; exfalso.
  - by apply Hmint in Hm.
  - destruct Hd as ((_ & _ & Hfrom & Hto & _) & Hf & Ht). unfold validate, final_amount, effective_fee in Hv.
    assert (from_acc (W := W) t' = from_acc (W := W) t) as Hfrom' by (unfold from_acc; by rewrite Hfrom).
    rewrite Hfrom', Hto, Hacc in Hv.
    assert ((match ttype t' with DoubleStep First _ => fee t' * 2 | _ => fee t' end < amount t')%N) as Hlt.
    { destruct Ht as [[Hty ->]|(acc & f & Hf' & Hty & Hty' & ->)].
      - destruct (ttype t') as [|[] ?]; lia.
      - rewrite Hty'. lia. }
    rewrite (proj2 (N.ltb_lt _ _) Hlt) in Hv.
    destruct (N.eqb_spec (amount t' - match ttype t' with DoubleStep First _ => fee t' * 2
                                                     | _ => fee t' end) 0)%N; [lia|done].
Qed.

Lemma transfer_invalid t n s e :
  validate t = Err e ->
  forall x, transfer (transfer_fuel n + x) t n s = Done (Err (PaymentError_from_internal e)) s.
Proof.
  intros Hv x. unfold transfer_fuel. replace (8 * n + 15 + x)%nat with (S (8 * n + 14 + x)) by lia.
  cbn [transfer]. by rewrite Hv.
Qed.

(** C4: No transfer is lost.  If the ledger tells its minting account and the amount covers
    two times any fee involved, every transfer between different accounts ends executed
    (and credited), refused and refunded in full, or saved in the recovery list; the only
    other end is that the balances themselves refuse the credit they are asked for, and
    that error is returned.  A transfer from an account to itself is refused at once and
    changes nothing. *)
Theorem transfer_safe (F : N) t n s :
  (forall (w : W) p c w', call_icrc1_minting_account w p <> (Err c, w')) ->
  (forall (w : W) p arg f w', call_icrc1_transfer w p arg = (Ok (Err (BadFee f)), w') -> f <= F)%N ->
  (cfg_fee (config s) <= F)%N -> (fee t <= F)%N -> (2 * F < amount t)%N ->
  exists r s', (forall x, transfer (transfer_fuel n + x) t n s = Done r s') /\
    if account_eqb (from_acc (W := W) t) (to_acc t)
    then r = Err (PE_InvalidParameters TargetAccountInvalid) /\ s' = s
    else safe_end (fun f => f <= F)%N t (balances (terminal s)) r s' \/
      exists a e, bal_credit (balances (terminal s)) (caller t) a = (Err e, balances (terminal s')) /\
        r = Err (PaymentError_from_BalanceError e).
Proof.
  intros Hmint Hfee Hcfg Hf Ham.
  destruct (account_eqb _ _) eqn:Hacc.
  { eexists _, s. split; [|done]. intros x.
    apply (transfer_invalid t n s (InvalidParameters TargetAccountInvalid)).
    unfold validate. by rewrite Hacc. }
  destruct (run_ctl_ends (fun f => f <= F)%N t (balances (terminal s)) (CTransfer t n) s)
    as (r & s' & Hrun & Hend); [lia|done| |].
  { split_and!; [done..|by apply derived_refl]. }
  exists r, s'. split; [|by apply safe_if_covered].
  intros x. apply (Hrun (transfer_fuel n + x)%nat). apply (measure_transfer_fuel _ t n). auto.
Qed.

(** C6: The ledger calls of a transfer.  All attempts of a step carry the same memo and
    creation time, go from the same account to the same account, and move the amount of
    the step less their fee; an attempt is repeated exactly as it was - a request that
    the ledger can tell for a duplicate - unless the ledger refused it for its fee, in
    which case fee and amount may change.  Attempts of the second step follow only an
    accepted first step, and are based on the amount that its accepted attempt moved; and
    there are at most [max n 1] calls, one more for a double-step transfer.  (The callback
    for configuration updates makes no calls of its own.) *)
Theorem transfer_calls t n (s : state B R (traced (W := W))) :
  callback_silent s ->
  exists r (s' : state B R traced) l,
    (forall x, transfer (transfer_fuel n + x) t n s = Done r s') /\
    trace s' = trace s ++ l /\ well_traced t l (Nat.max n 1 + stages_left t).
Proof.
  intros Hcb. destruct (run_ctl_total (CTransfer t n) s) as (r & s' & Hrun).
  assert (trace_end t (trace s) (Nat.max n 1 + stages_left t) s') as (l & Htr & Hl).
  { eapply (run_ctl_inv (trace_inv t (trace s) (Nat.max n 1 + stages_left t))
      (fun _ => trace_end t (trace s) (Nat.max n 1 + stages_left t)));
      [intros c s1; apply step_trace| |apply (Hrun (S (measure (CTransfer t n)))); lia].
    split; [done|]. exists [], []. rewrite !app_nil_r. split_and!; [done..|apply steady_nil|].
    left. by split_and!. }
  exists r, s', l. split_and!; [|done..]. intros x. apply Hrun.
  apply (measure_transfer_fuel _ t n). auto.
Qed.

Lemma of_outcome_Ret {A} (a : A) s : of_outcome (Ret a) s = Done a s.
Proof. done. Qed.

Lemma get_principal_subaccount_Ret (p : Principal) :
  (length p <= 31)%nat ->
  get_principal_subaccount p = Ret (Some ((zlength p :: p) ++ replicate (31 - length p) 0)).
Proof.
  intros Hp. unfold get_principal_subaccount. cbn zeta.
  rewrite (proj2 (in_range_true 8 (zlength p))) by (unfold zlength; pow2; lia).
  by rewrite (proj2 (Z.leb_le (1 + zlength p) 32)) by (unfold zlength; lia).
Qed.

(** The state after the transfer counter moved. *)
Definition counted s : st := mk_state (terminal s) (wrapping_add 64 (TX_COUNTER s) 1) (world s).

(** The transfers that deposits and withdrawals make, and the methods in terms of
    them. *)
Definition deposit_transfer s (caller : Principal) (sub : option Subaccount) (amount : N) : Transfer :=
  with_memo (with_operation (transfer_new (world s) (config s) caller
    (account_of_principal ic_id) sub amount) CreditOnSuccess) (memo_of_u64 (TX_COUNTER s)).

Definition withdrawal_transfer s (caller : Principal) (amount : N) : Transfer :=
  with_memo (with_operation (double_step (transfer_new (world s) (config s) caller
    (account_of_principal caller) None amount)) CreditOnError) (memo_of_u64 (TX_COUNTER s)).

Lemma deposit_eq fuel (caller : Principal) (amount : N) sub s :
  get_principal_subaccount caller = Ret sub ->
  deposit fuel caller amount s =
    let t := deposit_transfer s caller sub amount in
    match final_amount t with
    | Err e => Done (Err (PaymentError_from_internal e)) (counted s)
    | Ok amount => ask Datatypes.id (transfer fuel t N_RETRIES)
                     (fun tx_id => mret (Ok (tx_id, amount))) (counted s)
    end.
Proof.
  intros Hsub. unfold deposit. rewrite bind_eq. unfold next_memo. rewrite Hsub, bind_eq, of_outcome_Ret.
  rewrite bind_eq. unfold get. cbn zeta. change (mk_state _ _ _) with (counted s).
  change (config (counted s)) with (config s). change (world (counted s)) with (world s).
  fold (deposit_transfer s caller sub amount). by destruct (final_amount _).
Qed.

Lemma debit_Done p a s :
  debit p a s =
    Done (map_err PaymentError_from_BalanceError (bal_debit (balances (terminal s)) p a).1)
      (set_balances s (bal_debit (balances (terminal s)) p a).2).
Proof. unfold debit. by destruct (bal_debit _ _ _). Qed.

Lemma withdraw_eq fuel (caller : Principal) (amount : N) s :
  withdraw fuel caller amount s =
    let t := withdrawal_transfer s caller amount in
    match validate t, final_amount t with
    | Err e, _ | _, Err e => Done (Err (PaymentError_from_internal e)) (counted s)
    | Ok _, Ok a =>
        let '(d, b) := bal_debit (balances (terminal s)) caller amount in
        match d with
        | Err e => Done (Err (PaymentError_from_BalanceError e)) (set_balances (counted s) b)
        | Ok _ => ask Datatypes.id (transfer fuel t N_RETRIES) (fun tx_id => mret (Ok (tx_id, a)))
                    (set_balances (counted s) b)
        end
    end.
Proof.
  unfold withdraw. rewrite bind_eq. unfold next_memo. rewrite bind_eq. unfold get. cbn zeta.
  change (mk_state _ _ _) with (counted s).
  change (config (counted s)) with (config s). change (world (counted s)) with (world s).
  fold (withdrawal_transfer s caller amount). destruct (validate _); [|done].
  destruct (final_amount _); [|done]. rewrite ask_eq, debit_Done.
  change (balances (terminal (counted s))) with (balances (terminal s)).
  change (Payments.amount (withdrawal_transfer s caller amount)) with amount.
  by destruct (bal_debit _ _ _) as [[] b].
Qed.

(** How a single-step transfer that credits on success ends. *)
Lemma single_step_ends t b r s :
  ttype t = SingleStep -> operation t = CreditOnSuccess -> ends (fun _ => True) t b r s ->
  (exists tx w f ts k, let arg := mk_arg (from_sub t) (to_acc t) (amount t - f)%N (Some f) (memo t) ts in
     r = Ok tx /\
     (call_icrc1_transfer w (token t) arg = (Ok (Ok tx), world s) \/
      call_icrc1_transfer w (token t) arg = (Ok (Err (Duplicate tx)), world s)) /\
     bal_credit b (caller t) (amount t - f)%N = (Ok k, balances (terminal s))) \/
  (exists e, r = Err e /\ (balances (terminal s) = b \/
     exists a x, bal_credit b (caller t) a = (Err x, balances (terminal s)))).
Proof.
  intros Hty Hop [[tx t' s' Hd _ Hex Hcr|e t' s' _ _ _ _ Hcr|d t' s' _ _ Hb]|
    [e a s' Hcr|v c p w s' _ Hb|e t' s' _ _ Hb]].
  2-6: right; eexists; (split; [done|]).
  - rewrite decide_True in Hcr by done. destruct Hcr as [k Hk]. left.
    destruct Hd as ((Htok & _ & Hfrom & Hto & _ & Hmemo) & _ & [[Hty' Ham]|(?&?&?&?&?)]); [|congruence].
    rewrite Hty in Hty'.
    assert (transfer_arg (W := W) t' =
      mk_arg (from_sub t) (to_acc t) (amount t - fee t')%N (Some (fee t')) (memo t) (Some (created_at t')))
      as Harg.
    { unfold transfer_arg, from, to, from_acc.
      by rewrite Hty', amount_minus_fee_eq, Ham, Hto, Hmemo, Hfrom. }
    rewrite Harg in Hk.
    destruct Hex as [tx w w' Hw|tx w w' Hw|p acc k' w w' Hty2 _ _|p acc w w' Hty2 _]; try congruence;
      rewrite Htok, Harg in Hw; exists tx, w, (fee t'), (Some (created_at t')), k; cbn zeta; auto.
  - rewrite decide_False in Hcr by (rewrite Hop; done). by left.
  - by left.
  - right. by exists a, e.
  - by left.
  - by left.
Qed.

(** C16: a deposit either fails leaving the balance as it was, or succeeds with
    one ledger transfer from the caller's deposit subaccount to the main account
    of the canister, and the caller is credited exactly what was moved. *)
Theorem deposit_credits_moved_amount (caller : Principal) (amount : N) s :
  (length caller <= 31)%nat ->
  exists r s' sub, get_principal_subaccount caller = Ret sub /\
    (forall x, deposit (transfer_fuel N_RETRIES + x) caller amount s = Done r s') /\
    match r with
    | Ok (tx, a) =>
        exists w f m ts k, let arg := mk_arg sub (account_of_principal ic_id) (amount - f)%N (Some f) m ts in
          (call_icrc1_transfer w (cfg_principal (config s)) arg = (Ok (Ok tx), world s') \/
           call_icrc1_transfer w (cfg_principal (config s)) arg =
             (Ok (Err (Duplicate tx)), world s')) /\
          bal_credit (balances (terminal s)) caller (amount - f)%N = (Ok k, balances (terminal s')) /\
          a = (amount - get_fee (config s) (mk_account ic_id sub) (account_of_principal ic_id))%N
    | Err _ =>
        balances (terminal s') = balances (terminal s) \/
        exists a e, bal_credit (balances (terminal s)) caller a = (Err e, balances (terminal s'))
    end.
Proof.
  intros Hc. pose proof (get_principal_subaccount_Ret caller Hc) as Hsub.
  set (sub := Some ((zlength caller :: caller) ++ replicate (31 - length caller) 0)) in Hsub.
  set (t := deposit_transfer s caller sub amount).
  pose proof (fun x => deposit_eq (transfer_fuel N_RETRIES + x) caller amount sub s Hsub) as Hdep.
  cbn zeta in Hdep. fold t in Hdep.
  destruct (final_amount t) as [a|e] eqn:Hfa.
  2: { do 2 eexists. exists sub. split_and!; [done|done|]. cbn. by left. }
  destruct (transfer_ends t N_RETRIES (counted s)) as (r & s' & Hrun & Hend).
  eexists (match r with Ok tx => Ok (tx, a) | Err e => Err e end), s', sub.
  split_and!; [done| |].
  { intros x. rewrite Hdep, ask_eq, Hrun. by destruct r. }
  assert (a = (amount - fee t)%N) as Ha.
  { revert Hfa. unfold final_amount. by destruct (_ <? _)%N; intros; simplify_eq. }
  destruct (single_step_ends t (balances (terminal s)) r s') as [(tx & w & f & ts & k & -> & Hw & Hk)|(e & -> & Hb)];
    [done..| |exact Hb].
  exists w, f, (Some (memo_of_u64 (TX_COUNTER s))), ts, k. cbn zeta. by rewrite Ha.
Qed.

Lemma ends_Ok P t b tx s :
  ends P t b (Ok tx) s ->
  exists t', derived P t t' /\ stages_left t' = 0%nat /\ executed t' tx (world s) /\
    if decide (operation t = CreditOnSuccess)
    then exists k, bal_credit b (caller t) (arg_amount (transfer_arg (W := W) t')) =
                   (Ok k, balances (terminal s))
    else balances (terminal s) = b.
Proof. intros [Hend|Hend]; inversion Hend; subst; eauto. Qed.

(** C17: A withdrawal to the account of the canister itself, or of no more than two fees, is
    refused with the error that says so, and one that the balances do not cover with
    their error; neither calls anybody or changes anything else.  Every other one is
    debited, by one debit of the full amount, and ends as [ends] says from the debited
    balance: on success nothing is credited back, and the ledger executed the last step
    of the transfer to the caller's account; on an error the amount was credited back,
    or the transfer is saved for recovery, or it is one of the ends without a record. *)
Theorem withdraw_debits_once (caller : Principal) (amount : N) s :
  let main := mk_account ic_id None in
  let fee := get_fee (config s) main (account_of_principal caller) in
  let t := withdrawal_transfer s caller amount in
  exists r s', (forall x, withdraw (transfer_fuel N_RETRIES + x) caller amount s = Done r s') /\
    if account_eqb main (account_of_principal caller) then
      r = Err (PE_InvalidParameters TargetAccountInvalid) /\ s' = counted s
    else if (amount <=? 2 * fee)%N then
      r = Err (PE_InvalidParameters (AmountTooSmall (2 * fee + 1) amount)) /\ s' = counted s
    else match bal_debit (balances (terminal s)) caller amount with
         | (Err e, b') =>
             r = Err (PaymentError_from_BalanceError e) /\ s' = set_balances (counted s) b'
         | (Ok _, b') =>
             match r with
             | Ok (tx, a) =>
                 balances (terminal s') = b' /\ a = (amount - 2 * fee)%N /\
                 exists t', derived (fun _ => True) t t' /\ stages_left t' = 0%nat /\
                            executed t' tx (world s')
             | Err e => ends (fun _ => True) t b' (Err e) s'
             end
         end.
Proof.
  intros main fee t.
  pose proof (fun x => withdraw_eq (transfer_fuel N_RETRIES + x) caller amount s) as Hw.
  cbn zeta in Hw. fold t in Hw.
  assert (final_amount t = if (2 * fee <? amount)%N then Ok (amount - 2 * fee)%N
    else Err (InvalidParameters (AmountTooSmall (2 * fee + 1) amount))) as Hfa.
  { unfold final_amount, min_amount, effective_fee. cbn. fold main fee. by rewrite (N.mul_comm fee 2). }
  assert (validate t = if account_eqb main (account_of_principal caller)
    then Err (InvalidParameters TargetAccountInvalid)
    else if (2 * fee <? amount)%N then Ok tt
    else Err (InvalidParameters (AmountTooSmall (2 * fee + 1) amount))) as Hv.
  { unfold validate. rewrite Hfa. change (from_acc t) with main.
    change (to_acc t) with (account_of_principal caller).
    destruct (account_eqb _ _); [done|]. destruct (N.ltb_spec (2 * fee) amount); [|done].
    by rewrite (proj2 (N.eqb_neq _ _)) by lia. }
  rewrite Hv, Hfa in Hw. destruct (account_eqb _ _); [by eexists _, _|].
  destruct (N.leb_spec amount (2 * fee)) as [Hle|Hlt].
  { rewrite (proj2 (N.ltb_ge _ _) Hle) in Hw. by eexists _, _. }
  rewrite (proj2 (N.ltb_lt _ _) Hlt) in Hw.
  destruct (bal_debit (balances (terminal s)) caller amount) as [[k|x] b'] eqn:Hdeb; [|by eexists _, _].
  destruct (transfer_ends t N_RETRIES (set_balances (counted s) b')) as (r & s' & Hrun & Hend).
  exists (match r with Ok tx => Ok (tx, (amount - 2 * fee)%N) | Err e => Err e end), s'. split.
  { intros x. rewrite Hw, ask_eq, Hrun. by destruct r. }
  destruct r as [tx|e]; [|done].
  apply ends_Ok in Hend as (t' & Hd & Hst & Hex & Hb).
  rewrite decide_False in Hb by done. split_and!; [done..|eauto].
Qed.

Context `{Target}.

(** What recovery does with a transfer whose deduplication period is over. *)
Definition old s t : Prop :=
  deduplication_period (terminal s) - TX_WINDOW <= saturating_sub (ic_time (world s)) (created_at t).

Lemma can_deduplicate_Done s t :
  TX_WINDOW <= deduplication_period (terminal s) < 2 ^ 64 ->
  exists d : bool, can_deduplicate t s = Done d s /\ (d = false <-> old s t).
Proof.
  intros Hp. unfold can_deduplicate, old. rewrite u_sub_ok by (unfold TX_WINDOW in *; lia).
  eexists. split; [done|]. by rewrite Z.ltb_ge.
Qed.

(** The methods the recovery runs end as [ends] says. *)
Lemma recovery_run_ends t c s t1 :
  c = CRecover t1 N_RETRIES \/ (exists tx, c = CComplete t1 tx N_RETRIES) ->
  inv (fun _ => True) t (balances (terminal s)) c s ->
  exists r s', (forall x, run_ctl (transfer_fuel N_RETRIES + x) c s = Done r s') /\
               ends (fun _ => True) t (balances (terminal s)) r s'.
Proof.
  intros Hc Hinv.
  destruct (run_ctl_ends (fun _ => True) t (balances (terminal s)) c s) as (r & s' & Hrun & Hend);
    [done..|].
  exists r, s'. split; [|done]. intros x. apply Hrun, (measure_transfer_fuel _ t1). tauto.
Qed.

Lemma reject_not_seen_ends t p acc s w w' :
  ttype t = DoubleStep First acc -> call_icrc1_balance_of w p acc = (Ok 0%N, w') -> world s = w' ->
  exists r s', reject t (TransferFailed FailUnknown) s = Done r s' /\
               ends (fun _ => True) t (balances (terminal s)) r s'.
Proof.
  intros Hty Hbal Hw.
  pose proof (reject_ends (fun _ => True) t (balances (terminal s)) t (TransferFailed FailUnknown) s)
    as Hrej.
  destruct (reject t (TransferFailed FailUnknown) s) as [r s'| |].
  - exists r, s'. split; [done|]. apply Hrej; [done|by apply derived_refl|].
    rewrite Hw. by eapply refused_not_seen.
  - destruct Hrej; [done|by apply derived_refl|rewrite Hw; by eapply refused_not_seen].
  - destruct Hrej; [done|by apply derived_refl|rewrite Hw; by eapply refused_not_seen].
Qed.

(** An old double-step transfer whose interim balance was read. *)
Lemma recover_old_tx_ends t stage acc s k w :
  ttype t = DoubleStep stage acc ->
  call_icrc1_balance_of (world s) (cfg_principal (config s)) acc = (Ok k, w) ->
  exists r s', (forall x, recover_old_tx (transfer_fuel N_RETRIES + x) t s = Done r s') /\
               ends (fun _ => True) t (balances (terminal s)) r s'.
Proof.
  intros Hty Hbal. unfold recover_old_tx. rewrite Hty. setoid_rewrite ask_eq.
  unfold get_icrc1_balance. setoid_rewrite in_world_Done. rewrite Hbal.
  cbn [fst snd from_rejection map_err]. set (s1 := set_world s w).
  assert (derived (fun _ => True) t t) as Hdt by by apply derived_refl.
  assert (forall tx, executed t tx w -> tx = UNKNOWN_TX_ID -> exists r s',
    (forall x, complete (transfer_fuel N_RETRIES + x) t UNKNOWN_TX_ID N_RETRIES s1 = Done r s') /\
    ends (fun _ => True) t (balances (terminal s)) r s') as Hcomplete.
  { intros tx Hex ->. apply (recovery_run_ends t (CComplete t UNKNOWN_TX_ID N_RETRIES) s1 t); [by eauto|].
    by split_and!. }
  destruct stage, (N.eqb_spec k 0) as [->|Hk].
  - destruct (reject_not_seen_ends t _ acc s1 _ w Hty Hbal) as (r & s' & Hr & Hend); eauto.
  - eapply Hcomplete; [by eapply executed_first_seen|done].
  - eapply Hcomplete; [by eapply executed_second_seen|done].
  - apply (recovery_run_ends t (CRecover (renew t (world s1)) N_RETRIES) s1 (renew t (world s1)));
      [by eauto|].
    split_and!; [done..|]. by apply derived_with_created_at.
Qed.

Lemma recover_tx_run t s :
  TX_WINDOW <= deduplication_period (terminal s) < 2 ^ 64 ->
  exists r s', (forall x, recover_tx (transfer_fuel N_RETRIES + x) t s = Done r s') /\
    ((exists r0, ends (fun _ => True) t (balances (terminal s)) r0 s' /\
                 r = result_map (fun tx => (tx, t)) r0) \/
     (old s t /\ ttype t = SingleStep /\ r = Err (PE_TransferFailed FailTooOld) /\ s' = s) \/
     (old s t /\ (exists stage acc c w, ttype t = DoubleStep stage acc /\
        call_icrc1_balance_of (world s) (cfg_principal (config s)) acc = (Err c, w) /\
        s' = set_world s w) /\ exists e, r = Err e)).
Proof.
  intros Hp. destruct (can_deduplicate_Done s t Hp) as (d & Hd & Hold).
  assert (forall m : nat -> method st (result TxId PaymentError),
    (exists r s', (forall x, m x s = Done r s') /\ ends (fun _ => True) t (balances (terminal s)) r s') ->
    exists r s', (forall x, ask Datatypes.id (m x) (fun tx_id => mret (Ok (tx_id, t))) s = Done r s') /\
      exists r0, ends (fun _ => True) t (balances (terminal s)) r0 s' /\
                 r = result_map (fun tx => (tx, t)) r0) as Hfin.
  { intros m (r & s' & Hm & Hend). exists (result_map (fun tx => (tx, t)) r), s'.
    split; [|eauto]. intros x. rewrite ask_eq, Hm. by destruct r. }
  unfold recover_tx. setoid_rewrite bind_eq. setoid_rewrite Hd. destruct d.
  { destruct (Hfin (fun x => execute_recovery_transfer (transfer_fuel N_RETRIES + x) t N_RETRIES))
      as (r & s' & ? & ?); [|by eauto].
    apply (recovery_run_ends t (CRecover t N_RETRIES) s t); [by eauto|].
    split_and!; [done..|by apply derived_refl]. }
  pose proof (proj1 Hold eq_refl) as Ho. destruct (ttype t) as [|stage acc] eqn:Hty.
  { eexists _, s. unfold recover_old_tx. rewrite Hty. split; [done|]. right; left. by split_and!. }
  destruct (call_icrc1_balance_of (world s) (cfg_principal (config s)) acc) as [[k|c] w] eqn:Hbal.
  - destruct (Hfin (fun x => recover_old_tx (transfer_fuel N_RETRIES + x) t))
      as (r & s' & ? & ?); [by eapply recover_old_tx_ends|by eauto].
  - unfold recover_old_tx. rewrite Hty. setoid_rewrite ask_eq. setoid_rewrite ask_eq.
    unfold get_icrc1_balance. setoid_rewrite in_world_Done. rewrite Hbal.
    eexists _, _. split; [done|]. right; right. split_and!; eauto 10.
Qed.

(** C33: recovering a transfer ends like a transfer (as [ends] says), except that a
    single-step transfer that is too old is dropped as failed, and that an old
    double-step transfer whose interim balance cannot be read is dropped with
    the error of the query; neither changes the balances or the list.  The terminal keeps its token and
    its deduplication period. *)
Theorem recover_tx_ends t s :
  TX_WINDOW <= deduplication_period (terminal s) < 2 ^ 64 ->
  exists r s', (forall x, recover_tx (transfer_fuel N_RETRIES + x) t s = Done r s') /\ frame s s' /\
    ((exists r0, ends (fun _ => True) t (balances (terminal s)) r0 s' /\
                 r = result_map (fun tx => (tx, t)) r0) \/
     (old s t /\ ttype t = SingleStep /\ r = Err (PE_TransferFailed FailTooOld) /\ s' = s) \/
     (old s t /\ (exists stage acc c w, ttype t = DoubleStep stage acc /\
        call_icrc1_balance_of (world s) (cfg_principal (config s)) acc = (Err c, w) /\
        s' = set_world s w) /\ exists e, r = Err e)).
Proof.
  intros Hp. destruct (recover_tx_run t s Hp) as (r & s' & Hrun & Hend). exists r, s'.
  split_and!; [done| |done].
  pose proof (recover_tx_frame (transfer_fuel N_RETRIES + 0) t s) as Hf. by rewrite Hrun in Hf.
Qed.

Definition own s t : Prop := token t = cfg_principal (config s).

Definition answers t (r : result (TxId * Transfer) PaymentError) : Prop :=
  forall tx t', r = Ok (tx, t') -> t' = t.

Lemma recover_each_run l s :
  TX_WINDOW <= deduplication_period (terminal s) < 2 ^ 64 ->
  exists rs s', (forall x, recover_each (transfer_fuel N_RETRIES + x) l s = Done rs s') /\
    Forall2 answers (filter (fun t => token t = cfg_principal (config s)) l) rs.
Proof.
  revert s. induction l as [|t l IH]; intros s Hp; [by do 2 eexists|].
  cbn [recover_each]. rewrite filter_cons. case_decide.
  - destruct (recover_tx_run t s Hp) as (r & s1 & Hrun & Hend).
    pose proof (recover_tx_frame (transfer_fuel N_RETRIES + 0) t s) as Hf. rewrite Hrun in Hf.
    destruct Hf as [Hf1 Hf2]. destruct (IH s1) as (rs & s' & Hrs & Hall); [by rewrite Hf1|].
    exists (r :: rs), s'. split.
    + intros x. rewrite bind_eq, Hrun, bind_eq, Hrs. done.
    + rewrite Hf2 in Hall. constructor; [|done]. intros tx t' ->.
      destruct Hend as [(r0 & _ & Hr)|[(_ & _ & ? & _)|(_ & _ & ? & ?)]]; [|done..].
      destruct r0; cbn in Hr; by simplify_eq.
  - destruct (IH (set_recovery_list s (rl_push (recovery_list (terminal s)) t)))
      as (rs & s' & Hrs & Hall); [done|].
    exists rs, s'. split; [|done]. intros x. rewrite bind_eq. apply Hrs.
Qed.

Lemma recover_each_foreign fuel l s :
  Forall (fun t => token t <> cfg_principal (config s)) l ->
  recover_each fuel l s =
    Done [] (set_recovery_list s (foldl rl_push (recovery_list (terminal s)) l)).
Proof.
  revert s. induction l as [|t l IH]; intros s Hl; [by destruct s as [[] ? ?]|].
  inversion Hl; subst. cbn [recover_each]. rewrite decide_False by done. rewrite bind_eq.
  cbn [add_for_recovery]. by rewrite IH.
Qed.

Lemma foldl_push_keeps l (rl : R) t :
  rl_ok rl -> t ∈ rl_view rl \/ t ∈ l ->
  exists t', t' ∈ rl_view (foldl rl_push rl l) /\ id t' = id t.
Proof.
  revert rl t. induction l as [|t0 l IH]; intros rl t Hok Ht; [by set_solver|].
  cbn [foldl]. pose proof (rl_push_ok rl t0 Hok) as Hok'.
  destruct Ht as [Ht|Ht].
  - destruct (rl_push_keeps rl t0 t Hok Ht) as [Ht'| ->]; [by eauto|].
    apply IH; [done|]. left. apply rl_push_new.
  - apply elem_of_cons in Ht as [->|Ht]; [|by eauto].
    apply IH; [done|]. left. apply rl_push_new.
Qed.

(** [recover_all] ends, attempts every saved transfer of the terminal's
    token exactly once and in order, reporting success for that transfer only,
    and pays no attention to the transfers of other tokens: if there are no
    others, nobody is called, no balance changes, and every saved transfer is
    still saved, or another one with its id. *)
Theorem recover_all_attempts_each s :
  TX_WINDOW <= deduplication_period (terminal s) < 2 ^ 64 ->
  exists rs s', (forall x, recover_all (transfer_fuel N_RETRIES + x) s = Done rs s') /\
    Forall2 answers
      (filter (fun t => token t = cfg_principal (config s)) (rl_view (recovery_list (terminal s)))) rs /\
    (Forall (fun t => token t <> cfg_principal (config s)) (rl_view (recovery_list (terminal s))) ->
     rs = [] /\ world s' = world s /\ balances (terminal s') = balances (terminal s) /\
     (rl_ok (recovery_list (terminal s)) -> forall t, t ∈ rl_view (recovery_list (terminal s)) ->
      exists t', t' ∈ rl_view (recovery_list (terminal s')) /\ id t' = id t)).
Proof.
  intros Hp. unfold recover_all, take_all_for_recovery. setoid_rewrite bind_eq.
  destruct (rl_take_all_law (recovery_list (terminal s))) as [Hall Hnil].
  pose proof (rl_take_all_ok (recovery_list (terminal s))) as Hok.
  destruct (rl_take_all (recovery_list (terminal s))) as [l rl]. cbn [fst snd] in *. subst l.
  destruct (recover_each_run (rl_view (recovery_list (terminal s))) (set_recovery_list s rl) Hp)
    as (rs & s' & Hrun & Hans).
  exists rs, s'. split_and!; [done|done|]. intros Hf.
  pose proof (Hrun 0%nat) as Hrun0. rewrite (recover_each_foreign _ _ (set_recovery_list s rl)) in Hrun0 by done.
  simplify_eq. split_and!; [done..|]. intros Hl t Ht. apply foldl_push_keeps; [by apply Hok|auto].
Qed.

(** When the ledger refuses a withdrawal for its fee although the terminal
    knows that fee (or a zero one), and the minting account cannot be read, the
    caller stays debited: nothing is credited back and nothing is saved for
    recovery. *)
Theorem withdraw_lost_without_configuration (caller : Principal) (amount v : N) k b' c w1 w2 s t a :
  t = with_memo (with_operation (double_step (transfer_new (world s) (config s) caller
        (account_of_principal caller) None amount)) CreditOnError) (memo_of_u64 (TX_COUNTER s)) ->
  validate t = Ok tt -> final_amount t = Ok a ->
  bal_debit (balances (terminal s)) caller amount = (Ok k, b') ->
  call_icrc1_transfer (world s) (token t) (transfer_arg t) = (Ok (Err (BadFee v)), w1) ->
  v = 0%N \/ v = cfg_fee (config s) ->
  call_icrc1_minting_account w1 (cfg_principal (config s)) = (Err c, w2) ->
  exists s', (forall x, withdraw (transfer_fuel N_RETRIES + x) caller amount s =
                        Done (Err (PE_BadFee v)) s') /\
    balances (terminal s') = b' /\ recovery_list (terminal s') = recovery_list (terminal s).
Proof.
  intros Ht Hv Ha Hdeb Hcall Hfee Hmint.
  exists (set_world (set_balances (counted s) b') w2). split; [|done]. intros x.
  rewrite withdraw_eq. unfold withdrawal_transfer. rewrite <- Ht. cbn zeta. rewrite Hv, Ha, Hdeb, ask_eq.
  set (s1 := set_balances (counted s) b').
  assert (run_ctl (transfer_fuel N_RETRIES + x) (CTransfer t N_RETRIES) s1 =
    Done (Err (PE_BadFee v)) (set_world s1 w2)) as Hrun; [|cbn [run_ctl] in Hrun; by rewrite Hrun].
  unfold transfer_fuel, N_RETRIES.
  assert (step (CExecute t 3) s1 = Done (inl (CUpdate v t 2)) (set_world s1 w1)) as Hex.
  { cbn [step]. rewrite bind_eq, in_world_Done. unfold execute, transfer_icrc1.
    change (world s1) with (world s). by rewrite Hcall. }
  assert (step (CUpdate v t 2) (set_world s1 w1) =
    Done (inr (Err (PE_BadFee v))) (set_world s1 w2)) as Hup.
  { cbn [step]. rewrite bind_eq. unfold update_config. change (config (set_world s1 w1)) with (config s).
    rewrite (proj2 (orb_true_iff _ _)) by (rewrite !N.eqb_eq; tauto). rewrite ask_eq.
    unfold get_minting_account, get_icrc1_minting_account.
    change (config (set_world s1 w1)) with (config s). change (world (set_world s1 w1)) with w1.
    by rewrite Hmint. }
  cbn [Nat.mul Nat.add]. rewrite run_ctl_S. cbn [step]. rewrite Hv.
  rewrite run_ctl_S, Hex, run_ctl_S, Hup. done.
Qed.

(** The deposit subaccount of a principal: it exists exactly for principals
    of at most 31 bytes (longer ones trap), has 32 bytes, and the principal can
    be read back from it. *)
Theorem principal_subaccount_roundtrip (p : Principal) :
  match get_principal_subaccount p with
  | Ret sub => (length p <= 31)%nat /\ exists l, sub = Some l /\ length l = 32%nat /\
      exists len : Z, head l = Some len /\ take (Z.to_nat len) (tail l) = p
  | Panic => (31 < length p)%nat
  end.
Proof.
  destruct (decide (length p <= 31)%nat) as [Hp|Hp].
  - rewrite get_principal_subaccount_Ret by done. split; [done|]. eexists. split; [done|]. split.
    { cbn. rewrite length_app, length_replicate. lia. }
    eexists. split; [done|]. unfold zlength. rewrite Nat2Z.id. cbn [app tail].
    by apply take_app_length.
  - unfold get_principal_subaccount. cbn zeta.
    destruct (in_range 8 (zlength p)) eqn:Hr; [|lia].
    destruct (Z.leb_spec (1 + zlength p) 32); [unfold zlength in *; lia|lia].
Qed.
End props.

(** ** The stable recovery list under a fee change *)

Section stable_list.
Context {B W M : Type} `{PaymentLib, World W, Balances B, BTreeLib Subaccount Transfer M}.
Context `{!BTreeLaws Subaccount Transfer M}.
Notation rlist := (StableRecoveryList.t M).
Implicit Types (s : state B rlist W) (r : rlist) (l : list Transfer).

Lemma dom_foldl_push l r :
  dom (StableRecoveryList.entries (foldl rl_push r l)) =
    dom (StableRecoveryList.entries r) ∪ list_to_set (id <$> l).
Proof.
  revert r. induction l as [|t l IH]; intros r; [cbn; set_solver|].
  cbn [foldl]. rewrite IH. change (rl_push r t) with (StableRecoveryList.push r t).
  rewrite StableRecoveryList.entries_push, dom_insert_L, fmap_cons, list_to_set_cons. set_solver.
Qed.

Lemma size_ids_collision {A} (f : A -> Subaccount) (l : list A) :
  (size (list_to_set (f <$> l) : gset Subaccount) <= length l)%nat /\
  forall x y, x ∈ l -> y ∈ l -> x <> y -> f x = f y ->
  (size (list_to_set (f <$> l) : gset Subaccount) < length l)%nat.
Proof.
  induction l as [|z l [IHle IH]]; [by split; [|set_solver]|].
  rewrite fmap_cons, list_to_set_cons. cbn [length].
  pose proof (size_union_alt {[ f z ]} (list_to_set (f <$> l) : gset Subaccount)) as Hsize.
  rewrite size_singleton in Hsize.
  assert (size ((list_to_set (f <$> l) : gset Subaccount) ∖ {[ f z ]}) <=
          size (list_to_set (f <$> l) : gset Subaccount))%nat as Hdiff
    by (apply subseteq_size; set_solver).
  split; [lia|]. intros x y Hx Hy Hxy Hf.
  assert (f z ∈ (list_to_set (f <$> l) : gset Subaccount) ->
    size ((list_to_set (f <$> l) : gset Subaccount) ∖ {[ f z ]}) <
    size (list_to_set (f <$> l) : gset Subaccount))%nat as Hz
    by (intros; apply subset_size; set_solver).
  rewrite elem_of_list_to_set, list_elem_of_fmap in Hz.
  apply elem_of_cons in Hx, Hy. destruct Hx as [->|Hx], Hy as [->|Hy]; [done| | |].
  - pose proof (Hz (ex_intro _ y (conj Hf Hy))). lia.
  - pose proof (Hz (ex_intro _ x (conj (eq_sym Hf) Hx))). lia.
  - pose proof (IH x y Hx Hy Hxy Hf). lia.
Qed.

Lemma view_length r : length (StableRecoveryList.view r) = size (dom (StableRecoveryList.entries r)).
Proof.
  unfold StableRecoveryList.view. by rewrite length_fmap, sorted_entries_length, size_dom.
Qed.

(** After a fee change every saved transfer has its creation time reset,
    so two different saved transfers whose ids differ by the creation time only
    end up with the same id, and the recovery list loses one of them. *)
Theorem set_fee_merges_transfers s (fee : N) t1 t2 :
  t1 ∈ rl_view (recovery_list (terminal s)) -> t2 ∈ rl_view (recovery_list (terminal s)) ->
  t1 <> t2 -> id (reset_ts t1) = id (reset_ts t2) ->
  (length (rl_view (recovery_list (terminal (set_fee s fee)))) <
   length (rl_view (recovery_list (terminal s))))%nat.
Proof.
  intros Ht1 Ht2 Hne Hid. unfold set_fee. set (s1 := set_config _ _).
  unfold update_recovery_fees. change (recovery_list (terminal s1)) with (recovery_list (terminal s)).
  destruct (rl_take_all_law (recovery_list (terminal s))) as [Hall Hnil].
  destruct (rl_take_all (recovery_list (terminal s))) as [l r] eqn:Htake.
  cbn [fst snd] in *. subst l. cbn [set_recovery_list set_terminal terminal recovery_list].
  set (l := rl_view (recovery_list (terminal s))) in *.
  change (rl_view ?x) with (StableRecoveryList.view x) in Hnil |- *.
  rewrite view_length, dom_foldl_push.
  assert (dom (StableRecoveryList.entries r) = ∅) as ->.
  { apply leibniz_equiv, size_empty_iff. by rewrite <- view_length, Hnil. }
  rewrite union_empty_l_L. unfold updated_fees. rewrite <- list_fmap_compose.
  by apply (proj2 (size_ids_collision _ l) t1 t2).
Qed.
End stable_list.

Lemma transfer_safe_witness :
  exists r s', (forall x, transfer (transfer_fuel 3 + x) alice_transfer 3
                            (concrete_state [Silent; Raises; Accepts; Silent]) = Done r s') /\
    safe_end (fun f => f <= 20)%N alice_transfer {[ alice := 1000%N ]} r s'.
Proof.
  destruct (transfer_safe 20 alice_transfer 3 (concrete_state [Silent; Raises; Accepts; Silent]))
    as (r & s' & Hrun & Hend).
  - done.
  - intros [|[]] p arg f w'; cbn; intros ?; simplify_eq; lia.
  - done.
  - done.
  - done.
  - exists r, s'. split; [exact Hrun|].
    assert (account_eqb (from_acc alice_transfer) (to_acc alice_transfer) = false) as He by by vm_compute.
    rewrite He in Hend. by destruct Hend as [Hs|(a & e & Hc & _)].
Defined.

Lemma transfer_calls_witness :
  exists r (s' : state _ recovery traced) l,
    (forall x, transfer (transfer_fuel 3 + x) alice_transfer 3 (concrete_state (quiet, [])) =
               Done r s') /\
    trace s' = [] ++ l /\ well_traced (W := script) alice_transfer l 4.
Proof. by apply (transfer_calls alice_transfer 3 (concrete_state (quiet, []))). Defined.

(** The fee is found raised to 15 and one call gets lost: 85 are credited, and 90
    reported. *)
Lemma deposit_credits_moved_amount_witness :
  exists s', (forall x, deposit (transfer_fuel N_RETRIES + x) alice 100
                 (concrete_state [Raises; Silent; Accepts]) = Done (Ok (2, 90)%N) s') /\
    balances (terminal s') !! alice = Some 1085%N.
Proof.
  destruct (deposit_credits_moved_amount (R := recovery) alice 100
    (concrete_state [Raises; Silent; Accepts])) as (r & s' & sub & Hsub & Hrun & _); [cbn; lia|].
  assert (match deposit (transfer_fuel N_RETRIES + 0) alice 100
                  (concrete_state [Raises; Silent; Accepts]) with
          | Done r s' => r = Ok (2, 90)%N /\ balances (terminal s') !! alice = Some 1085%N
          | _ => False
          end) as Heval by (vm_compute; by split).
  rewrite Hrun in Heval. destruct Heval as [-> Hb]. exists s'. by split.
Defined.

#[export] Instance concrete_target : Target := wasm_release.

Definition saved_transfer (ts : Z) : Transfer :=
  mk_transfer token_canister alice (Some [1]) (mk_account [7; 7] None) 100 10 CreditOnSuccess
    SingleStep ts None.

(** A terminal with two saved deposits. *)
Definition saved_state {W} (w : W) : state (gmap Principal N) recovery W :=
  mk_state (concrete_terminal 10
    (rl_push (rl_push empty_recovery (saved_transfer 50)) (saved_transfer 60))) 0 w.

Lemma recover_tx_ends_witness :
  TX_WINDOW <= DEFAULT_DEDUP_PERIOD < 2 ^ 64 /\
  exists r s', (forall x, recover_tx (transfer_fuel N_RETRIES + x) (saved_transfer 50) (saved_state quiet)
                          = Done r s') /\ frame (saved_state quiet) s' /\
    ((exists r0, ends (fun _ => True) (saved_transfer 50) {[ alice := 1000%N ]} r0 s' /\
                 r = result_map (fun tx => (tx, saved_transfer 50)) r0) \/
     (old (saved_state quiet) (saved_transfer 50) /\ SingleStep = SingleStep /\
      r = Err (PE_TransferFailed FailTooOld) /\ s' = saved_state quiet) \/
     (old (saved_state quiet) (saved_transfer 50) /\ (exists stage acc c w, SingleStep = DoubleStep stage acc /\
        call_icrc1_balance_of quiet token_canister acc = (Err c, w) /\
        s' = set_world (saved_state quiet) w) /\ exists e, r = Err e)).
Proof.
  assert (TX_WINDOW <= DEFAULT_DEDUP_PERIOD < 2 ^ 64) as Hp by by_compute. split; [done|].
  by apply (recover_tx_ends (saved_transfer 50) (saved_state quiet)).
Defined.

Lemma recover_all_attempts_each_witness :
  exists rs s', (forall x, recover_all (transfer_fuel N_RETRIES + x) (saved_state quiet) = Done rs s') /\
    length rs = 2%nat.
Proof.
  destruct (recover_all_attempts_each (saved_state quiet)) as (rs & s' & Hrun & Hall & _); [by_compute|].
  exists rs, s'. split; [done|]. apply Forall2_length in Hall. rewrite <- Hall. by vm_compute.
Defined.

(** The terminal knows the fee 10 the ledger asks for, and nobody tells the
    minting account: Alice loses 100. *)
Lemma withdraw_lost_without_configuration_witness :
  exists s', (forall x, withdraw (transfer_fuel N_RETRIES + x) alice 100
      (concrete_state (mk_script 100 [Ok (Err (BadFee 10))] (Ok 0%N) (Err (SysTransient, EmptyString)))) =
      Done (Err (PE_BadFee 10)) s') /\
    balances (terminal s') = {[ alice := 900%N ]} /\
    recovery_list (terminal s') = empty_recovery.
Proof.
  set (w := mk_script 100 [Ok (Err (BadFee 10))] (Ok 0%N) (Err (SysTransient, EmptyString))).
  destruct (withdraw_lost_without_configuration alice 100 10 900 {[ alice := 900%N ]}
    (SysTransient, EmptyString)
    (mk_script 101 [] (Ok 0%N) (Err (SysTransient, EmptyString)))
    (mk_script 101 [] (Ok 0%N) (Err (SysTransient, EmptyString)))
    (concrete_state w) _ 80 eq_refl) as (s' & Hrun & Hb & Hr);
    [by vm_compute|by vm_compute|by vm_compute|by vm_compute|by right|by vm_compute|].
  exists s'. split_and!; [exact Hrun|exact Hb|exact Hr].
Defined.

Lemma set_fee_merges_transfers_witness :
  (length (rl_view (recovery_list (terminal (set_fee (saved_state quiet) 20)))) < 2)%nat.
Proof.
  eapply Nat.lt_le_trans;
    [apply (set_fee_merges_transfers (saved_state quiet) 20 (saved_transfer 50) (saved_transfer 60))|].
  - apply list_elem_of_lookup. exists 0%nat. by vm_compute.
  - apply list_elem_of_lookup. exists 1%nat. by vm_compute.
  - done.
  - by vm_compute.
  - vm_compute. lia.
Defined.
