(* ===== verification/Books.v ===== *)
(** * The books of a payment canister

    What the balances of [Terminal] owe its users, against what the ledger moved
    into and out of the main account of the canister.  The ledger is seen through
    the documented behaviour of an ICRC-1 ledger ([LedgerSpec], [LedgerLaws]): it
    executes a transfer or refuses it, an answer can get lost, and a transfer it
    executed is recognised for a while.  Deposits and withdrawals keep the books
    balanced as long as the fee does not change; if it changes after an answer got
    lost, a withdrawal can be paid twice. *)

From S2P Require Import Prelude StableLib Concrete StableStorage Payments RecoveryList Terminal.
From S2P Require Import TerminalProofs TerminalTrace TerminalConcrete TerminalProps.
Local Open Scope Z_scope.

(** ** The interfaces *)

(** A transfer of the canister on a token ledger. *)
Definition entry : Type := Principal * TransferArg.

(** The transfers of this canister the ledgers executed, in order, and the minting
    accounts of the ledgers. *)
Class LedgerSpec (W : Type) := {
  ledger_log : W -> list entry;
  ledger_minter : Principal -> option Account;
}.
Arguments ledger_minter W {_} _.

Section ledgers.
Context (W : Type) `{PaymentLib, World W, !LedgerSpec W}.
Implicit Types (p : Principal) (acc : Account) (l : list entry).

Definition plain p acc : Prop :=
  forall m, ledger_minter W p = Some m -> account_eqb acc m = false.

(** A transfer between accounts that are not the minter's: neither minted nor burnt. *)
Definition plain_entry (e : entry) : Prop :=
  plain e.1 (mk_account ic_id (arg_from_subaccount e.2)) /\ plain e.1 (arg_to e.2).

(** What an account received from the canister [id], and what the canister spent of it, on
    the ledger [p], whose fee is [fee]. *)
Definition received p acc l : N :=
  foldr (fun e n => if bool_decide (e.1 = p) && account_eqb (arg_to e.2) acc
                    then (arg_amount e.2 + n)%N else n) 0%N l.

Definition spent (fee : N) (id : Principal) p acc l : N :=
  foldr (fun e n =>
    if bool_decide (e.1 = p) && account_eqb (mk_account id (arg_from_subaccount e.2)) acc
    then (arg_amount e.2 + default fee (arg_fee e.2) + n)%N else n) 0%N l.

Lemma received_ge p acc e l :
  e ∈ l -> e.1 = p -> account_eqb (arg_to e.2) acc = true -> (arg_amount e.2 <= received p acc l)%N.
Proof.
  intros Hin Hp Ha. induction l as [|e' l IH]; [by apply not_elem_of_nil in Hin|].
  cbn [received foldr]. fold (received p acc l). apply elem_of_cons in Hin as [<-|Hin].
  - rewrite bool_decide_eq_true_2, Ha by done. cbn. lia.
  - specialize (IH Hin). destruct (_ && _); lia.
Qed.

Lemma spent_pos fee id p acc l :
  (spent fee id p acc l <> 0)%N ->
  exists e, e ∈ l /\ e.1 = p /\ account_eqb (mk_account id (arg_from_subaccount e.2)) acc = true.
Proof.
  induction l as [|e l IH]; [done|]. cbn [spent foldr]. fold (spent fee id p acc l).
  destruct (bool_decide (e.1 = p) && account_eqb _ acc) eqn:He; intros Hs.
  - apply andb_true_iff in He as [He1 He2]. apply bool_decide_eq_true in He1. exists e. split; [left|done].
  - destruct (IH Hs) as (e' & ? & ? & ?). exists e'. split; [by right|done].
Qed.
End ledgers.

(** The documented behaviour of an ICRC-1 ledger whose fee is [ledger_fee] and that
    recognises a transfer for [window] after its creation.  The time [ic_time w'] at which
    the canister learns the answer is not before the one at which the ledger gave it. *)
Class LedgerLaws (W : Type) `{PaymentLib, World W, !LedgerSpec W} (ledger_fee : N) (window : Z) := {
  call_accepted w p a tx w' : call_icrc1_transfer w p a = (Ok (Ok tx), w') ->
    ledger_log w' = ledger_log w ++ [(p, a)];
  call_refused w p a e w' : call_icrc1_transfer w p a = (Ok (Err e), w') ->
    ledger_log w' = ledger_log w;
  call_duplicate w p a tx w' : call_icrc1_transfer w p a = (Ok (Err (Duplicate tx)), w') ->
    (p, a) ∈ ledger_log w;
  (** mints and burns have other fees *)
  call_bad_fee w p a f w' : call_icrc1_transfer w p a = (Ok (Err (BadFee f)), w') ->
    plain_entry W (p, a) -> arg_fee a <> Some ledger_fee;
  (** a call that is rejected may have been executed, unless the ledger trapped or
      does not exist *)
  call_rejected w p a c m w' : call_icrc1_transfer w p a = (Err (c, m), w') ->
    ledger_log w' = ledger_log w \/
    (ledger_log w' = ledger_log w ++ [(p, a)] /\ c <> CanisterError /\ c <> DestinationInvalid);
  (** a transfer that was executed is not executed again, if the ledger is still asked in
      time *)
  call_known w p a ts r w' : (p, a) ∈ ledger_log w -> plain_entry W (p, a) ->
    arg_created_at_time a = Some ts -> arg_fee a = Some ledger_fee ->
    call_icrc1_transfer w p a = (r, w') -> ic_time w' < ts + window ->
    ledger_log w' = ledger_log w /\
    match r with
    | Ok (Err (Duplicate _)) | Ok (Err TemporarilyUnavailable) => True
    | Err (c, _) => c <> DestinationInvalid
    | _ => False
    end;
  balance_of_log w p a r w' : call_icrc1_balance_of w p a = (r, w') ->
    ledger_log w' = ledger_log w;
  (** an account of the canister holds at least what it received from the canister less
      what the canister spent of it *)
  balance_of_covers w p a k w' : call_icrc1_balance_of w p a = (Ok k, w') ->
    owner a = ic_id -> plain W p a ->
    (received p a (ledger_log w) <= k + spent ledger_fee ic_id p a (ledger_log w))%N;
}.

(** What is owed to all users together. *)
Class BalancesLaws (B : Type) `{Balances B} := {
  total : B -> Z;
  credit_total b p a : total (bal_credit b p a).2 =
    match (bal_credit b p a).1 with Ok _ => total b + Z.of_N a | Err _ => total b end;
  debit_total b p a : total (bal_debit b p a).2 =
    match (bal_debit b p a).1 with Ok _ => total b - Z.of_N a | Err _ => total b end;
}.

Section books.
Context {B R W : Type} `{PaymentLib, !PaymentLibLaws, World W, Balances B, !BalancesLaws B}.
Context `{RecoveryList R, !RecoveryListLaws R, !LedgerSpec W}.
Notation st := (state B R W).
Implicit Types (s : st) (t : Transfer) (n : nat) (b : B) (w : W) (l : list entry).

Definition is_main (a : Account) : bool := account_eqb a (mk_account ic_id None).

(** What an executed transfer adds to the main account. *)
Definition effect (token : Principal) (e : entry) : Z :=
  if decide (e.1 = token) then
    (if is_main (arg_to e.2) then Z.of_N (arg_amount e.2) else 0) -
    (if is_main (mk_account ic_id (arg_from_subaccount e.2))
     then Z.of_N (arg_amount e.2 + default 0%N (arg_fee e.2)) else 0)
  else 0.

Fixpoint effects (token : Principal) l : Z :=
  match l with [] => 0 | e :: l => effect token e + effects token l end.

(** What the ledger holds for the canister, and the surplus over what it owes. *)
Definition assets s : Z := effects (cfg_principal (config s)) (ledger_log (world s)).
Definition surplus s : Z := assets s - total (balances (terminal s)).

Lemma effects_app p l1 l2 : effects p (l1 ++ l2) = effects p l1 + effects p l2.
Proof. induction l1 as [|e l1 IH]; cbn; lia. Qed.

(** The entry of the current step of a transfer. *)
Definition entry_of t : entry := (token t, transfer_arg (W := W) t).

#[export] Instance Account_eq_dec : EqDecision Account.
Proof. solve_decision. Defined.
#[export] Instance TransferArg_eq_dec : EqDecision TransferArg.
Proof. solve_decision. Defined.

(** ** Transfers of the books *)

(** A last step that pays from the interim account. *)
Definition closing t : Prop :=
  (exists acc, ttype t = DoubleStep Second acc) /\ operation t <> CreditOnSuccess /\
  effect (token t) (entry_of t) = 0 /\ plain_entry W (entry_of t).

(** [t2] closes the transfer [t]. *)
Definition successor t t2 : Prop :=
  closing t2 /\ token t2 = token t /\ memo t2 = memo t /\ interim_acc t2 = interim_acc t.

(** Entries of the second step of [t]. *)
Definition quiet t l : Prop := Forall (fun e => exists t2, successor t t2 /\ e = entry_of t2) l.

(** A deposit into the main account, and a withdrawal from it. *)
Definition deposit_like t : Prop :=
  ttype t = SingleStep /\ operation t = CreditOnSuccess /\
  effect (token t) (entry_of t) = Z.of_N (amount_minus_fee t).

Definition withdrawal_like t : Prop :=
  (exists acc, ttype t = DoubleStep First acc /\ owner acc = ic_id /\
     is_main acc = false /\ is_main (to_acc t) = false /\ plain W (token t) (to_acc t)) /\
  operation t = CreditOnError /\ effect (token t) (entry_of t) = - Z.of_N (amount t).

Lemma successor_refl t : closing t -> successor t t.
Proof. by intros. Qed.

Lemma quiet_effects t l : quiet t l -> effects (token t) l = 0.
Proof.
  induction 1 as [|e l (t2 & ((_ & _ & He & _) & Htok & _) & ->) _ IH]; [done|].
  cbn. rewrite Htok in He. lia.
Qed.

Lemma effects_quiet t l0 l : quiet t l -> effects (token t) (l0 ++ l) = effects (token t) l0.
Proof. intros Hl. rewrite effects_app, (quiet_effects t l Hl). lia. Qed.

Lemma effects_entry t l0 : effects (token t) (l0 ++ [entry_of t]) =
  effects (token t) l0 + effect (token t) (entry_of t).
Proof. rewrite effects_app. cbn. lia. Qed.

(** What a transfer that waits for recovery may still take from the surplus: a
    deposit that moved is still to be credited, a withdrawal that did not is still
    to be paid or refunded. *)
Definition claim (log : list entry) t : Z :=
  match ttype t with
  | SingleStep => if decide (entry_of t ∈ log) then Z.of_N (amount_minus_fee t) else 0
  | DoubleStep First _ => if decide (entry_of t ∈ log) then 0 else Z.of_N (amount t)
  | DoubleStep Second _ => 0
  end.

Fixpoint claims (log : list entry) (q : list Transfer) : Z :=
  match q with [] => 0 | t :: q => claim log t + claims log q end.

Lemma claim_nonneg log t : 0 <= claim log t.
Proof. unfold claim. destruct (ttype t) as [|[] acc]; try case_decide; lia. Qed.

Lemma claims_nonneg log q : 0 <= claims log q.
Proof. induction q as [|t q IH]; cbn; [lia|]. pose proof (claim_nonneg log t). lia. Qed.

Lemma claims_submseteq log q q' : q ⊆+ q' -> claims log q <= claims log q'.
Proof.
  induction 1 as [|t q q' _ IH|t t' q|t q q' _ IH|q1 q2 q3 _ IH1 _ IH2]; cbn; try lia.
  pose proof (claim_nonneg log t). lia.
Qed.

Lemma claims_ext log log' q :
  Forall (fun t => entry_of t ∈ log' <-> entry_of t ∈ log) q -> claims log' q = claims log q.
Proof.
  induction 1 as [|t q Ht _ IH]; [done|]. cbn. rewrite IH. f_equal.
  unfold claim. destruct (ttype t) as [|[] acc]; [| |done]; repeat case_decide; tauto || done.
Qed.

(** The ledger after the first step: the step is new, or was executed before. *)
Definition after_first t l0 l1 : Prop :=
  (entry_of t ∈ l0 /\ l1 = l0) \/ (entry_of t ∉ l0 /\ l1 = l0 ++ [entry_of t]).

(** How a transfer is booked: executed, and credited if it should be; refused, and
    refunded if it should be; saved as it was, or as its second step. *)
Inductive booked t b l0 l1 (rl : R) : result TxId PaymentError -> st -> Prop :=
  | booked_done tx l s' :
      ledger_log (world s') = l1 ++ l -> quiet t l -> recovery_list (terminal s') = rl ->
      (if decide (operation t = CreditOnSuccess)
       then exists k, bal_credit b (caller t) (amount_minus_fee t) = (Ok k, balances (terminal s'))
       else balances (terminal s') = b) ->
      booked t b l0 l1 rl (Ok tx) s'
  | booked_uncredited e x s' :
      ledger_log (world s') = l1 -> recovery_list (terminal s') = rl ->
      operation t = CreditOnSuccess ->
      bal_credit b (caller t) (amount_minus_fee t) = (Err x, balances (terminal s')) ->
      booked t b l0 l1 rl (Err e) s'
  | booked_refused e s' :
      entry_of t ∉ l0 -> ledger_log (world s') = l0 -> recovery_list (terminal s') = rl ->
      (if decide (operation t = CreditOnError)
       then exists r, bal_credit b (caller t) (amount t) = (r, balances (terminal s'))
       else balances (terminal s') = b) ->
      booked t b l0 l1 rl (Err e) s'
  | booked_saved d s' :
      ledger_log (world s') = l0 \/ ledger_log (world s') = l1 ->
      recovery_list (terminal s') = rl_push rl t -> balances (terminal s') = b ->
      booked t b l0 l1 rl (Err (PE_Recoverable d)) s'
  | booked_half d t2 l s' :
      ledger_log (world s') = l1 ++ l -> quiet t l -> successor t t2 -> fee t2 = fee t ->
      recovery_list (terminal s') = rl_push rl t2 -> balances (terminal s') = b ->
      booked t b l0 l1 rl (Err (PE_Recoverable d)) s'.
End books.

(** ** The machine of a transfer, booked *)

Section machine_books.
Context {B R W : Type} `{PaymentLib, !PaymentLibLaws, World W, Balances B, !BalancesLaws B}.
Context `{RecoveryList R, !RecoveryListLaws R, !LedgerSpec W}.
Context (ledger_fee : N) (window : Z) `{!LedgerLaws W ledger_fee window}.
Notation st := (state B R W).
Implicit Types (s : st) (t : Transfer) (n : nat) (b : B) (w : W) (l : list entry) (rl : R).

(** What the ledger did in a call, whatever it answered. *)
Lemma execute_books t w r w' :
  fee t = ledger_fee -> plain_entry W (entry_of t) -> execute t w = (r, w') ->
  match r with
  | Ok _ => ledger_log w' = ledger_log w ++ [entry_of t]
  | Err MaybeFailed =>
      ledger_log w' = ledger_log w \/ ledger_log w' = ledger_log w ++ [entry_of t]
  | Err (WrongFee _) => False
  | Err (TransferFailed (Rejected (Duplicate _))) =>
      ledger_log w' = ledger_log w /\ entry_of t ∈ ledger_log w
  | Err _ => ledger_log w' = ledger_log w
  end.
Proof.
  intros Hfee Hplain Hex. unfold execute, transfer_icrc1 in Hex.
  destruct (call_icrc1_transfer w (token t) (transfer_arg t)) as [a w1] eqn:Hcall.
  destruct a as [[tx|e]|[c m]]; simplify_eq; cbn.
  - by apply (call_accepted _ _ _ _ _ Hcall).
  - pose proof (call_refused _ _ _ _ _ Hcall) as Hlog. destruct e; cbn; try done.
    + by apply (call_bad_fee _ _ _ _ _ Hcall Hplain).
    + split; [done|]. by apply (call_duplicate _ _ _ _ _ Hcall).
  - pose proof (call_rejected _ _ _ _ _ _ Hcall). destruct c; cbn; naive_solver.
Qed.

(** A transfer that was executed before is not executed again, nor refused. *)
Lemma execute_known t w r w' :
  fee t = ledger_fee -> plain_entry W (entry_of t) -> entry_of t ∈ ledger_log w ->
  execute t w = (r, w') -> ic_time w' < created_at t + window ->
  ledger_log w' = ledger_log w /\
  match r with
  | Err MaybeFailed | Err (TransferFailed (TokenPanic _))
  | Err (TransferFailed (Rejected (Duplicate _ | TemporarilyUnavailable))) => True
  | _ => False
  end.
Proof.
  intros Hfee Hplain Hin Hex Htime. unfold execute, transfer_icrc1 in Hex.
  destruct (call_icrc1_transfer w (token t) (transfer_arg t)) as [a w1] eqn:Hcall.
  assert (w1 = w') as -> by (by destruct a as [[]|[]]; simplify_eq).
  pose proof (call_known _ _ _ _ _ _ Hin Hplain eq_refl (f_equal Some Hfee) Hcall Htime) as [Hlog Ha].
  destruct a as [[tx|e]|[c m]]; simplify_eq; cbn; (split; [done|]); [done| |].
  - by destruct e.
  - by destruct c.
Qed.

(** *** Attempts that are answered in time *)

(** Answers after which the call is made again. *)
Definition repeats (e : InternalPaymentError) : bool :=
  match e with
  | MaybeFailed | TransferFailed (Rejected TemporarilyUnavailable | TokenPanic _) => true
  | _ => false
  end.

(** The next [k] attempts of [t] are answered before [deadline]. *)
Fixpoint in_time (deadline : Z) (k : nat) t w : Prop :=
  match k with
  | O => True
  | S k =>
      let '(r, w') := execute t w in
      ic_time w' < deadline /\
      match r with Err e => repeats e = true -> in_time deadline k t w' | Ok _ => True end
  end.

(** The first steps, and the transfers that have a single one. *)
Definition opening t : Prop := forall acc, ttype t <> DoubleStep Second acc.

(** If the next step calls the ledger for an opening, it is answered before [deadline]. *)
Definition timely (deadline : Z) (c : ctl) s : Prop :=
  match c with
  | CExecute t _ | CRecover t _ => opening t -> ic_time (execute t (world s)).2 < deadline
  | _ => True
  end.

(** Calls of the first step that may still happen. *)
Definition slots (c : ctl) : nat :=
  match c with
  | CTransfer _ n | CExecute _ n | CRecover _ n => Nat.max n 1
  | CRetry _ n => n
  | _ => 0
  end.

(** What no step changes. *)
Definition kept s : TokenConfiguration * Z := (config s, TX_COUNTER s).

(** *** The second step *)

Definition closing_inv t b l1 rl cf (c : ctl) s : Prop :=
  ctl_transfer c = t /\
  match c with CUpdate _ _ _ => False | CTransfer _ _ => validate t = Ok tt | _ => True end /\
  balances (terminal s) = b /\ recovery_list (terminal s) = rl /\ kept s = cf /\
  exists l, ledger_log (world s) = l1 ++ l /\ quiet t l.

Definition closing_end t b l1 rl cf (r : result TxId PaymentError) s : Prop :=
  balances (terminal s) = b /\ kept s = cf /\
  (exists l, ledger_log (world s) = l1 ++ l /\ quiet t l) /\
  ((exists tx, r = Ok tx) /\ recovery_list (terminal s) = rl \/
   (exists d, r = Err (PE_Recoverable d)) /\ recovery_list (terminal s) = rl_push rl t).

Lemma closing_call t b l1 rl cf s n (after : _ -> ctl + InternalPaymentError) l :
  closing t -> fee t = ledger_fee -> after = after_execute t n \/ after = after_recover t n ->
  balances (terminal s) = b -> recovery_list (terminal s) = rl -> kept s = cf ->
  ledger_log (world s) = l1 ++ l -> quiet t l ->
  match (r ← in_world (execute t); goto (after r) t) s with
  | Done (inl c') s' => closing_inv t b l1 rl cf c' s'
  | Done (inr r) s' => closing_end t b l1 rl cf r s'
  | _ => True
  end.
Proof.
  intros Hcl Hfee Hafter Hb Hrl Hcf Hlog Hl. rewrite bind_eq, in_world_Done.
  destruct (execute t (world s)) as [r w'] eqn:Hex. cbn [fst snd].
  pose proof (execute_books t _ _ _ Hfee ltac:(by apply Hcl) Hex) as Hbooks.
  assert (exists l', ledger_log w' = l1 ++ l' /\ quiet t l') as Hlog'.
  { assert (ledger_log w' = ledger_log (world s) \/
            ledger_log w' = ledger_log (world s) ++ [entry_of t]) as [-> | ->]
      by (destruct r as [info|[[| |[]| |]| | | |]]; naive_solver).
    - by exists l.
    - exists (l ++ [entry_of t]). split; [by rewrite Hlog, <- app_assoc|].
      apply Forall_app. split; [done|]. constructor; [|constructor]. exists t. by split. }
  assert (forall c', ctl_transfer c' = t ->
    match c' with CUpdate _ _ _ | CTransfer _ _ => False | _ => True end ->
    closing_inv t b l1 rl cf c' (set_world s w')) as Hnext.
  { intros c' Hc' Hu. split_and!; try done. by destruct c'. }
  assert (forall e, match (r ← reject t e; mret (inr r)) (set_world s w') with
    | Done (inl c') s' => closing_inv t b l1 rl cf c' s'
    | Done (inr r) s' => closing_end t b l1 rl cf r s' | _ => True end) as Hreject.
  { intros e. destruct Hcl as ((acc & Hty) & _). rewrite bind_eq.
    destruct (reject_second t e (set_world s w') acc Hty) as [d ->]. cbn.
    split_and!; [done..|]. right. split; [by exists d|]. cbn. by rewrite Hrl. }
  destruct Hafter as [-> | ->]; destruct r as [info|[[| |[]| |]| | | |]];
    cbn [after_execute after_recover goto]; first [done|by apply Hnext|apply Hreject].
Qed.

Lemma step_closing t b l1 rl cf c s :
  closing t -> fee t = ledger_fee -> closing_inv t b l1 rl cf c s ->
  match step c s with
  | Done (inl c') s' => closing_inv t b l1 rl cf c' s'
  | Done (inr r) s' => closing_end t b l1 rl cf r s'
  | _ => True
  end.
Proof.
  intros Hcl Hfee (Hct & Hc & Hb & Hrl & Hcf & l & Hlog & Hl).
  pose proof Hcl as ((acc & Hty) & Hop & _).
  destruct c as [t' n|t' tx n|t' n|t' n|t' n|v t' n]; cbn [ctl_transfer] in Hct; subst t'; cbn [step].
  - rewrite Hc. split_and!; try done. by exists l.
  - assert (next_step t (world s) = None) as -> by (unfold next_step; by rewrite Hty).
    rewrite decide_False by done. split_and!; [done..|by exists l|left]. by split; [exists tx|].
  - destruct n as [|n].
    + split_and!; [done..|by exists l|right]. split; [by exists IcError|]. cbn. by rewrite Hrl.
    + split_and!; try done. by exists l.
  - eapply closing_call; eauto.
  - eapply closing_call; eauto.
  - done.
Qed.

(** *** The first step *)

Record bookable t : Prop := {
  bookable_fee : fee t = ledger_fee;
  bookable_valid : validate (W := W) t = Ok tt;
  bookable_kind : deposit_like (W := W) t \/ withdrawal_like (W := W) t;
  bookable_plain : plain_entry W (entry_of (W := W) t);
}.

Definition first_log t l0 l1 (c : ctl) s : Prop :=
  match c with
  | CTransfer _ _ | CExecute _ _ => ledger_log (world s) = l0 /\ entry_of t ∉ l0
  | CRetry _ _ | CRecover _ _ => ledger_log (world s) = l0 \/ ledger_log (world s) = l1
  | CComplete _ _ _ => ledger_log (world s) = l1
  | CUpdate _ _ _ => False
  end.

Definition first_inv t b l0 l1 rl cf (c : ctl) s : Prop :=
  ctl_transfer c = t /\ first_log t l0 l1 c s /\
  balances (terminal s) = b /\ recovery_list (terminal s) = rl /\ kept s = cf.

(** The second step, run in the place of [t]. *)
Definition second_inv t b l1 rl cf (c : ctl) s : Prop :=
  exists t2, successor (W := W) t t2 /\ fee t2 = ledger_fee /\ closing_inv t2 b l1 rl cf c s.

Definition book_inv t b l0 l1 rl cf (c : ctl) s : Prop :=
  first_inv t b l0 l1 rl cf c s \/ second_inv t b l1 rl cf c s.

Definition book_end t b l0 l1 rl cf (r : result TxId PaymentError) s : Prop :=
  booked t b l0 l1 rl r s /\ kept s = cf.

Lemma bookable_not_second t : bookable t -> opening t.
Proof. intros [_ _ [(Hty & _)|((acc' & Hty & _) & _)] _] acc; by rewrite Hty. Qed.

(** The second step of a withdrawal. *)
Lemma next_step_successor t w t2 :
  bookable t -> next_step t w = Some t2 ->
  successor (W := W) t t2 /\ fee t2 = ledger_fee /\ validate (W := W) t2 = Ok tt.
Proof.
  intros [Hfee Hv [(Hty & _)|((acc & Hty & Hown & Hacc & Hmain & Hto) & Hop & _)] [_ Hplain]];
    unfold next_step; rewrite Hty; intros Hn; [done|]. injection Hn as <-.
  assert (mk_account ic_id (subaccount acc) = acc) as Heq by (rewrite <- Hown; by destruct acc).
  unfold entry_of, transfer_arg, to in Hplain. rewrite Hty in Hplain. cbn in Hplain.
  split_and!; [|done|].
  - split; [|by split_and!; [..|unfold interim_acc; cbn; rewrite Hty]].
    split_and!; [by eexists|cbn; by rewrite Hop| |split; cbn; by rewrite ?Heq].
    unfold effect, entry_of, transfer_arg, to, from. cbn. rewrite decide_True by done.
    by rewrite Hmain, Heq, Hacc.
  - unfold validate, final_amount, min_amount, effective_fee, from_acc in *. cbn.
    rewrite Hty in Hv. rewrite amount_minus_fee_eq, Hfee in *.
    destruct (account_eqb _ _); [done|].
    destruct (N.ltb_spec (ledger_fee * 2) (amount t)); [|done].
    rewrite (proj2 (N.ltb_lt ledger_fee _)) by lia.
    destruct (N.eqb_spec (amount t - ledger_fee - ledger_fee) 0); [lia|done].
Qed.

Lemma successor_quiet t t2 l : successor (W := W) t t2 -> quiet (W := W) t2 l -> quiet (W := W) t l.
Proof.
  intros (_ & Ht & Hm & Hi) Hl. eapply Forall_impl; [exact Hl|].
  intros e (t3 & (Hc & Ht3 & Hm3 & Hi3) & ->). exists t3. split; [|done]. split_and!; [done|congruence..].
Qed.

Lemma closing_booked t t2 b l0 l1 rl cf r s :
  fee t2 = fee t -> operation t <> CreditOnSuccess -> successor (W := W) t t2 ->
  closing_end t2 b l1 rl cf r s -> book_end t b l0 l1 rl cf r s.
Proof.
  intros Hfee Hop Hsuc (Hb & Hcf & (l & Hlog & Hl) & [[[tx ->] Hrl]|[[d ->] Hrl]]); (split; [|done]);
    apply (successor_quiet t t2 l Hsuc) in Hl.
  - apply booked_done with l; [done..|]. by rewrite decide_False.
  - by apply booked_half with t2 l.
Qed.

Lemma reject_booked t b l0 l1 rl cf e s :
  bookable t -> balances (terminal s) = b -> recovery_list (terminal s) = rl -> kept s = cf ->
  entry_of (W := W) t ∉ l0 -> ledger_log (world s) = l0 ->
  match reject t e s with Done r s' => book_end t b l0 l1 rl cf r s' | _ => False end.
Proof.
  intros Hbk Hb Hrl Hcf Hin Hlog. rewrite (reject_first t e s (bookable_not_second t Hbk)).
  destruct (decide (operation t = CreditOnError)) as [Hop|Hop]; cbn zeta.
  - rewrite Hb. destruct (bal_credit b (caller t) (amount t)) as [[k|x] b'] eqn:Hcr; cbn;
      (split; [|done]); (apply booked_refused; [done..|]); rewrite decide_True by done; by eexists.
  - split; [|done]. apply booked_refused; [done..|]. by rewrite decide_False.
Qed.

Lemma first_call t b l0 l1 rl cf c s n (after : _ -> ctl + InternalPaymentError) :
  bookable t -> after_first (W := W) t l0 l1 ->
  c = CExecute t n /\ after = after_execute t n \/ c = CRecover t n /\ after = after_recover t n ->
  first_inv t b l0 l1 rl cf c s -> ic_time (execute t (world s)).2 < created_at t + window ->
  match (r ← in_world (execute t); goto (after r) t) s with
  | Done (inl c') s' => first_inv t b l0 l1 rl cf c' s'
  | Done (inr r) s' => book_end t b l0 l1 rl cf r s'
  | _ => True
  end.
Proof.
  intros Hbk Hfirst Hc (_ & Hlog & Hb & Hrl & Hcf). rewrite bind_eq, in_world_Done.
  destruct (execute t (world s)) as [r w'] eqn:Hex. cbn [fst snd]. intros Htime.
  pose proof (execute_books t _ _ _ (bookable_fee _ Hbk) (bookable_plain _ Hbk) Hex) as Hbooks.
  assert (forall c', ctl_transfer c' = t -> first_log t l0 l1 c' (set_world s w') ->
    first_inv t b l0 l1 rl cf c' (set_world s w')) as Hnext by (intros; by split_and!).
  assert (entry_of t ∉ l0 -> forall e, ledger_log w' = l0 ->
    match (r ← reject t e; mret (inr r)) (set_world s w') with
    | Done (inl c') s' => first_inv t b l0 l1 rl cf c' s'
    | Done (inr r) s' => book_end t b l0 l1 rl cf r s' | _ => True end) as Hreject.
  { intros Hin e He. rewrite bind_eq.
    pose proof (reject_booked t b l0 l1 rl cf e (set_world s w') Hbk Hb Hrl Hcf Hin He) as Hr.
    by destruct (reject t e (set_world s w')). }
  assert ((ledger_log (world s) = l0 /\ entry_of t ∉ l0 /\ l1 = l0 ++ [entry_of t]) \/
    (c = CRecover t n /\ after = after_recover t n /\ ledger_log (world s) = l1 /\
     entry_of t ∈ l1)) as [(Hl0 & Hin & Hl1)|(-> & -> & Hl1 & Hin)].
  { destruct Hfirst as [[? ->]|[? ->]], Hc as [[-> ->]|[-> ->]]; cbn in Hlog; [tauto|right|tauto|].
    - tauto.
    - destruct Hlog as [Hlog|Hlog]; [by left|]. right. split_and!; [done..|]. set_solver. }
  - (* not executed before *)
    destruct Hc as [[-> ->]|[-> ->]];
      destruct r as [info|[[| |[]| |]| | | |]]; cbn [after_execute after_recover goto] in *;
      try (apply Hnext; [done|cbn; naive_solver congruence]);
      try (apply Hreject; naive_solver congruence); try done; naive_solver congruence.
  - (* executed before *)
    destruct (execute_known t (world s) r w' (bookable_fee _ Hbk) (bookable_plain _ Hbk)) as [Hsame Hr];
      [by rewrite Hl1|done..|].
    destruct r as [info|[[| |[]| |]| | | |]]; cbn [after_execute after_recover goto] in *; try done;
      (apply Hnext; [done|cbn; naive_solver congruence]).
Qed.

Lemma step_first t b l0 l1 rl cf c s :
  bookable t -> after_first (W := W) t l0 l1 -> first_inv t b l0 l1 rl cf c s ->
  timely (created_at t + window) c s ->
  match step c s with
  | Done (inl c') s' => book_inv t b l0 l1 rl cf c' s'
  | Done (inr r) s' => book_end t b l0 l1 rl cf r s'
  | _ => True
  end.
Proof.
  intros Hbk Hfirst Hinv Htime.
  pose proof Hinv as (Hct & Hlog & Hb & Hrl & Hcf). pose proof (bookable_not_second t Hbk) as Hopen.
  destruct c as [t' n|t' tx n|t' n|t' n|t' n|v t' n]; cbn [ctl_transfer] in Hct; subst t'; cbn [step].
  - rewrite (bookable_valid _ Hbk). left. by split_and!.
  - cbn [first_log] in Hlog. destruct (next_step t (world s)) as [t2|] eqn:Hn.
    { destruct (next_step_successor t (world s) t2 Hbk Hn) as (Hsuc & Hfee2 & Hv2).
      right. exists t2. split_and!; [done..|]. split_and!; [done..|]. exists [].
      rewrite app_nil_r. split; [done|constructor]. }
    destruct (decide (operation t = CreditOnSuccess)) as [Hop|Hop].
    + rewrite bind_eq, credit_Done, Hb.
      destruct (bal_credit b (caller t) (amount_minus_fee t)) as [[k|x] b'] eqn:Hcr; cbn;
        (split; [|done]).
      * apply booked_done with []; [by rewrite app_nil_r|constructor|done|].
        rewrite decide_True by done. by exists k.
      * by apply booked_uncredited with x.
    + split; [|done]. apply booked_done with []; [by rewrite app_nil_r|constructor|done|].
      by rewrite decide_False.
  - destruct n as [|n].
    + split; [|done]. apply booked_saved; [done| |done]. cbn. by rewrite Hrl.
    + left. by split_and!.
  - pose proof (first_call t b l0 l1 rl cf (CExecute t n) s n (after_execute t n) Hbk Hfirst
      (or_introl (conj eq_refl eq_refl)) Hinv (Htime Hopen)) as Hs.
    match type of Hs with match ?m with _ => _ end => destruct m as [[c'|r] s'| |] end; [by left|done..].
  - pose proof (first_call t b l0 l1 rl cf (CRecover t n) s n (after_recover t n) Hbk Hfirst
      (or_intror (conj eq_refl eq_refl)) Hinv (Htime Hopen)) as Hs.
    match type of Hs with match ?m with _ => _ end => destruct m as [[c'|r] s'| |] end; [by left|done..].
  - done.
Qed.

Lemma step_second t b l0 l1 rl cf c s :
  bookable t -> second_inv t b l1 rl cf c s ->
  match step c s with
  | Done (inl c') s' => second_inv t b l1 rl cf c' s'
  | Done (inr r) s' => book_end t b l0 l1 rl cf r s'
  | _ => True
  end.
Proof.
  intros Hbk (t2 & Hsuc & Hfee2 & Hinv).
  pose proof (step_closing t2 b l1 rl cf c s (proj1 Hsuc) Hfee2 Hinv) as Hs.
  assert (operation t <> CreditOnSuccess) as Hop.
  { destruct Hbk as [_ _ [(Hty & _)|(_ & Hop & _)] _]; [|by rewrite Hop].
    destruct Hsuc as (((acc & Hty2) & _) & _ & _ & Hi). unfold interim_acc in Hi.
    by rewrite Hty, Hty2 in Hi. }
  destruct (step c s) as [[c'|r] s'| |]; [| |done..]; [by exists t2|].
  eapply closing_booked; [|done..]. by rewrite Hfee2, (bookable_fee _ Hbk).
Qed.

Lemma step_books t b l0 l1 rl cf c s :
  bookable t -> after_first (W := W) t l0 l1 -> book_inv t b l0 l1 rl cf c s ->
  timely (created_at t + window) c s ->
  match step c s with
  | Done (inl c') s' => book_inv t b l0 l1 rl cf c' s'
  | Done (inr r) s' => book_end t b l0 l1 rl cf r s'
  | _ => True
  end.
Proof.
  intros Hbk Hfirst [Hinv|Hinv] Htime; [by apply step_first|].
  pose proof (step_second t b l0 l1 rl cf c s Hbk Hinv) as Hs.
  destruct (step c s) as [[c'|r] s'| |]; [by right|done..].
Qed.

(** *** Runs *)

(** The attempts of an opening that are left are answered in time. *)
Lemma in_time_timely deadline t c s :
  ctl_transfer c = t -> in_time deadline (slots c) t (world s) -> timely deadline c s.
Proof.
  intros Hc Hin. destruct c as [t' n|t' tx n|t' n|t' n|t' n|v t' n]; cbn in Hc; subst t'; try done;
    intros _; cbn [slots] in Hin; (replace (Nat.max n 1) with (S (n - 1)) in Hin by lia);
    cbn [in_time] in Hin; destruct (execute t (world s)); by apply Hin.
Qed.

Lemma step_in_time deadline t b l0 l1 rl cf c s :
  bookable t -> first_inv t b l0 l1 rl cf c s -> in_time deadline (slots c) t (world s) ->
  match step c s with
  | Done (inl c') s' => ctl_transfer c' = t -> in_time deadline (slots c') t (world s')
  | _ => True
  end.
Proof.
  intros Hbk (Hct & Hlog & _) Hin.
  assert (forall n (after : _ -> ctl + InternalPaymentError),
    after = after_execute t n \/ after = after_recover t n ->
    in_time deadline (S (n - 1)) t (world s) ->
    match (r ← in_world (execute t); goto (after r) t) s with
    | Done (inl c') s' => ctl_transfer c' = t -> in_time deadline (slots c') t (world s')
    | _ => True end) as Hcall.
  { clear Hin. intros n after Hafter Hin. rewrite bind_eq, in_world_Done. cbn [in_time] in Hin.
    destruct (execute t (world s)) as [r w'] eqn:Hex. cbn [fst snd]. destruct Hin as [_ Hin].
    assert (forall e s1, match (r ← reject t e; mret (inr r)) s1 with
      | Done (inl c') s' => ctl_transfer c' = t -> in_time deadline (slots c') t (world s')
      | _ => True end) as Hreject.
    { intros e s1. rewrite bind_eq. by destruct (reject t e s1). }
    destruct Hafter as [->| ->]; destruct r as [info|[[| |[]| |]| | | |]];
      cbn [after_execute after_recover goto repeats] in *;
      first [apply Hreject|intros _; by apply Hin|done]. }
  destruct c as [t' n|t' tx n|t' n|t' n|t' n|v t' n]; cbn [ctl_transfer] in Hct; subst t'; cbn [step].
  - by rewrite (bookable_valid _ Hbk).
  - destruct (next_step t (world s)) as [t2|] eqn:Hn.
    + intros Ht2. cbn in Ht2. subst t2. apply next_step_stages in Hn. lia.
    + case_decide; [|done]. rewrite bind_eq. by destruct (credit _ _ _) as [[]| |].
  - destruct n as [|n]; [done|]. intros _. cbn [slots] in *. by rewrite Nat.max_l by lia.
  - apply (Hcall n (after_execute t n)); [by left|]. cbn [slots] in Hin. by replace (Nat.max n 1) with (S (n - 1)) in Hin by lia.
  - apply (Hcall n (after_recover t n)); [by right|]. cbn [slots] in Hin. by replace (Nat.max n 1) with (S (n - 1)) in Hin by lia.
  - done.
Qed.

Lemma book_run t b l0 l1 rl cf c s deadline :
  bookable t -> after_first (W := W) t l0 l1 -> deadline <= created_at t + window ->
  first_inv t b l0 l1 rl cf c s -> in_time deadline (slots c) t (world s) ->
  exists r s', (forall fuel, (measure c < fuel)%nat -> run_ctl fuel c s = Done r s') /\
    book_end t b l0 l1 rl cf r s'.
Proof.
  intros Hbk Hfirst Hdl Hinv Hin. destruct (run_ctl_total c s) as (r & s' & Hrun). exists r, s'.
  split; [done|].
  eapply (run_ctl_inv (fun c s => second_inv t b l1 rl cf c s \/
    (first_inv t b l0 l1 rl cf c s /\ in_time deadline (slots c) t (world s))));
    [|by right|apply (Hrun (S (measure c))); lia].
  clear c s Hinv Hin Hrun r s'. intros c s [Hinv|[Hinv Hin]].
  { pose proof (step_second t b l0 l1 rl cf c s Hbk Hinv) as Hs.
    destruct (step c s) as [[c'|r] s'| |]; [by left|done..]. }
  assert (timely (created_at t + window) c s) as Htime.
  { pose proof (in_time_timely deadline t c s (proj1 Hinv) Hin) as Ht.
    destruct c; try done; intros Ho; specialize (Ht Ho); lia. }
  pose proof (step_first t b l0 l1 rl cf c s Hbk Hfirst Hinv Htime) as Hs.
  pose proof (step_in_time deadline t b l0 l1 rl cf c s Hbk Hinv Hin) as Hi.
  destruct (step c s) as [[c'|r] s'| |]; [|done..].
  destruct Hs as [Hs|Hs]; [right|by left]. split; [done|]. apply Hi, Hs.
Qed.

Lemma closing_run t b l1 rl cf c s :
  closing (W := W) t -> fee t = ledger_fee -> closing_inv t b l1 rl cf c s ->
  exists r s', (forall fuel, (measure c < fuel)%nat -> run_ctl fuel c s = Done r s') /\
    closing_end t b l1 rl cf r s'.
Proof.
  intros Hcl Hfee Hinv. destruct (run_ctl_total c s) as (r & s' & Hrun). exists r, s'.
  split; [done|]. eapply (run_ctl_inv (closing_inv t b l1 rl cf));
    [intros c1 s1; by apply step_closing|done|apply (Hrun (S (measure c))); lia].
Qed.
End machine_books.
