(* ===== verification/BooksPool.v ===== *)
(** * Transfers that wait for recovery, in the books

    What processing one transfer leaves ([outcome]), and why the transfers that
    wait for recovery stay covered by the surplus of the canister ([pool_outcome]). *)

From S2P Require Import Prelude StableLib Concrete StableStorage Payments RecoveryList Terminal.
From S2P Require Import TerminalProofs TerminalTrace TerminalConcrete TerminalProps Books.
Local Open Scope Z_scope.

(** ** Outcomes *)

Section outcomes.
Context {B R W : Type} `{PaymentLib, !PaymentLibLaws, World W, Balances B, !BalancesLaws B}.
Context `{RecoveryList R, !RecoveryListLaws R, !LedgerSpec W}.
Context (ledger_fee : N).
Notation st := (state B R W).
Implicit Types (s : st) (t : Transfer) (n : nat) (b : B) (w : W) (l : list entry) (rl : R).
Implicit Types (q : list Transfer) (keep : option Transfer).

Definition log s : list entry := ledger_log (world s).
Definition saved s : list Transfer := rl_view (recovery_list (terminal s)).
Definition keep_claim (lg : list entry) keep : Z :=
  match keep with Some k => claim (W := W) lg k | None => 0 end.

Definition credits_succeed : Prop :=
  forall (b : B) (p : Principal) (a : N), exists k b', bal_credit b p a = (Ok k, b').

(** An entry that processing [t] adds to the ledger, if it keeps [keep]: of [t], or
    of its second step. *)
Definition added t keep (e : entry) : Prop :=
  e = entry_of (W := W) t \/
  (exists t2, successor (W := W) t t2 /\ e = entry_of (W := W) t2) /\
  (forall k, keep = Some k -> stages_left k = 0%nat).

(** What processing [t] leaves: entries of [t] or of its second step, possibly a
    transfer that is saved, and a surplus that covers its claim. *)
Record outcome t keep s s' : Prop := {
  out_kept : kept s' = kept s;
  out_log : exists l, log s' = log s ++ l /\ Forall (added t keep) l;
  out_saved : recovery_list (terminal s') =
    match keep with Some k => rl_push (recovery_list (terminal s)) k
                  | None => recovery_list (terminal s) end;
  out_keep : forall k, keep = Some k -> k = t \/ (successor (W := W) t k /\ fee k = fee t);
  out_surplus : surplus s - claim (W := W) (log s) t <= surplus s' - keep_claim (log s') keep;
}.

(** Nothing but the surplus moves, exactly by the claim. *)
Definition exact t keep s s' : Prop :=
  credits_succeed ->
  surplus s' - keep_claim (log s') keep = surplus s - claim (W := W) (log s) t.

Lemma credit_amount b p a r b' :
  bal_credit b p a = (r, b') ->
  total b' = match r with Ok _ => total b + Z.of_N a | Err _ => total b end.
Proof. intros Hc. pose proof (credit_total b p a) as Ht. by rewrite Hc in Ht. Qed.

Lemma surplus_eq t s :
  token t = cfg_principal (config s) ->
  surplus s = effects (token t) (log s) - total (balances (terminal s)).
Proof. intros ->. done. Qed.

Lemma first_entries t l0 l1 : after_first (W := W) t l0 l1 ->
  exists l, l1 = l0 ++ l /\ Forall (fun e => e = entry_of (W := W) t) l.
Proof.
  intros [[_ ->]|[_ ->]]; [exists []; by rewrite app_nil_r|]. exists [entry_of t]. by repeat constructor.
Qed.

(** What is credited when the transfer succeeds, and when it fails. *)
Definition due t : Z :=
  if decide (operation t = CreditOnSuccess) then Z.of_N (amount_minus_fee t) else 0.
Definition refund t : Z := if decide (operation t = CreditOnError) then Z.of_N (amount t) else 0.

Lemma first_step_books t l0 l1 :
  deposit_like (W := W) t \/ withdrawal_like (W := W) t -> after_first (W := W) t l0 l1 ->
  effects (token t) l1 - due t = effects (token t) l0 - claim (W := W) l0 t /\
  claim (W := W) l1 t = due t /\
  (entry_of (W := W) t ∉ l0 -> claim (W := W) l0 t = refund t).
Proof.
  intros Hkind Hfirst. unfold claim, due, refund.
  assert (entry_of (W := W) t ∈ l1) as Hin by (destruct Hfirst as [[? ->]|[_ ->]]; set_solver).
  assert (entry_of (W := W) t ∉ l0 -> l1 = l0 ++ [entry_of (W := W) t]) as Hnew
    by (destruct Hfirst as [[? ->]|[? ->]]; tauto).
  assert (entry_of (W := W) t ∈ l0 -> l1 = l0) as Hold
    by (destruct Hfirst as [[? ->]|[? ->]]; tauto).
  destruct Hkind as [(-> & -> & Heff)|((acc & -> & _) & -> & Heff)];
    rewrite (decide_True (P := entry_of t ∈ l1)) by done;
    rewrite ?(decide_True (P := CreditOnSuccess = CreditOnSuccess)),
      ?(decide_True (P := CreditOnError = CreditOnError)),
      ?(decide_False (P := CreditOnError = CreditOnSuccess)),
      ?(decide_False (P := CreditOnSuccess = CreditOnError)) by done;
    destruct (decide (entry_of t ∈ l0)) as [Hin0|Hin0];
    first [rewrite (Hold Hin0)|rewrite (Hnew Hin0), effects_entry, Heff]; split_and!; intros;
    lia || tauto.
Qed.

Lemma successor_closing t t2 : successor (W := W) t t2 ->
  stages_left t2 = 0%nat /\ forall l, claim (W := W) l t2 = 0.
Proof. intros (((acc & Hty) & _) & _). unfold stages_left, claim. by rewrite Hty. Qed.

Lemma added_quiet t keep l :
  quiet (W := W) t l -> (forall k, keep = Some k -> stages_left k = 0%nat) -> Forall (added t keep) l.
Proof. intros Hl Hk. eapply Forall_impl; [exact Hl|]. intros e He. by right. Qed.

Section booking.
Context (t : Transfer) (l1 : list entry) (s s' : st).
Context (Hkind : deposit_like (W := W) t \/ withdrawal_like (W := W) t).
Context (Htok : token t = cfg_principal (config s)).
Context (Hfirst : after_first (W := W) t (log s) l1).
Context (Hkept : kept s' = kept s).

Definition booking keep : Prop := outcome t keep s s' /\ exact t keep s s'.

Lemma surplus_after l :
  log s' = l -> surplus s' = effects (token t) l - total (balances (terminal s')).
Proof. intros <-. apply surplus_eq. by injection Hkept as -> _. Qed.

Lemma added_first keep l :
  quiet (W := W) t l -> (forall k, keep = Some k -> stages_left k = 0%nat) -> log s' = l1 ++ l ->
  exists l', log s' = log s ++ l' /\ Forall (added t keep) l'.
Proof.
  intros Hl Hk ->. destruct (first_entries t _ _ Hfirst) as (lf & -> & Hentries).
  exists (lf ++ l). split; [by rewrite app_assoc|]. apply Forall_app. split; [|by apply added_quiet].
  eapply Forall_impl; [exact Hentries|]. by left.
Qed.

Lemma first_added keep : log s' = l1 -> exists l', log s' = log s ++ l' /\ Forall (added t keep) l'.
Proof.
  intros ->. destruct (first_entries t _ _ Hfirst) as (lf & -> & Hentries). exists lf. split; [done|].
  eapply Forall_impl; [exact Hentries|]. by left.
Qed.

(** The transfer was executed, and credited if it should be. *)
Lemma done_booking l :
  log s' = l1 ++ l -> quiet (W := W) t l ->
  recovery_list (terminal s') = recovery_list (terminal s) ->
  (if decide (operation t = CreditOnSuccess)
   then exists k, bal_credit (balances (terminal s)) (caller t) (amount_minus_fee t) =
                  (Ok k, balances (terminal s'))
   else balances (terminal s') = balances (terminal s)) -> booking None.
Proof.
  intros Hlog Hl Hrl Hc. destruct (first_step_books t _ _ Hkind Hfirst) as (Heff & _ & _).
  assert (surplus s' = surplus s - claim (W := W) (log s) t) as Hsur.
  { rewrite (surplus_eq t s Htok), (surplus_after _ Hlog), effects_quiet by done. unfold due in Heff.
    destruct (decide (operation t = CreditOnSuccess)).
    - destruct Hc as [k Hc]. rewrite (credit_amount _ _ _ _ _ Hc). lia.
    - rewrite Hc. lia. }
  split; [|unfold exact; cbn; lia]. split; [done| |done|done|cbn; lia]. by apply (added_first None l).
Qed.

(** It was executed, and the balances refused the credit. *)
Lemma uncredited_booking x :
  log s' = l1 -> recovery_list (terminal s') = recovery_list (terminal s) ->
  bal_credit (balances (terminal s)) (caller t) (amount_minus_fee t) = (Err x, balances (terminal s')) ->
  booking None.
Proof.
  intros Hlog Hrl Hc. destruct (first_step_books t _ _ Hkind Hfirst) as (Heff & _ & _).
  assert (surplus s' = surplus s - claim (W := W) (log s) t + due t) as Hsur.
  { rewrite (surplus_eq t s Htok), (surplus_after _ Hlog), (credit_amount _ _ _ _ _ Hc). lia. }
  split.
  - split; [done| |done|done|cbn; unfold due in Hsur; case_decide; lia]. by apply first_added.
  - intros Hcs. destruct (Hcs (balances (terminal s)) (caller t) (amount_minus_fee t)) as (? & ? & ?).
    congruence.
Qed.

(** It was refused, and refunded if it should be. *)
Lemma refused_booking :
  entry_of (W := W) t ∉ log s -> log s' = log s ->
  recovery_list (terminal s') = recovery_list (terminal s) ->
  (if decide (operation t = CreditOnError)
   then exists r, bal_credit (balances (terminal s)) (caller t) (amount t) = (r, balances (terminal s'))
   else balances (terminal s') = balances (terminal s)) -> booking None.
Proof.
  intros Hin Hlog Hrl Hc. destruct (first_step_books t _ _ Hkind Hfirst) as (_ & _ & Hrefund).
  specialize (Hrefund Hin).
  assert (exists y, surplus s' = surplus s - y /\ 0 <= y <= refund t /\
    (credits_succeed -> y = refund t)) as (y & Hsur & Hy & Hyc).
  { rewrite (surplus_eq t s Htok), (surplus_after _ Hlog). unfold refund.
    destruct (decide (operation t = CreditOnError)).
    - destruct Hc as [[k|x] Hc]; rewrite (credit_amount _ _ _ _ _ Hc).
      + exists (Z.of_N (amount t)). split_and!; lia.
      + exists 0. split_and!; [lia..|]. intros Hcs.
        destruct (Hcs (balances (terminal s)) (caller t) (amount t)) as (? & ? & ?). congruence.
    - rewrite Hc. exists 0. split_and!; lia. }
  split; [|intros Hcs; cbn; rewrite Hrefund, <- (Hyc Hcs); lia].
  split; [done| |done|done|cbn; lia]. exists []. by rewrite app_nil_r.
Qed.

(** It was saved as it was. *)
Lemma saved_booking :
  log s' = log s \/ log s' = l1 ->
  recovery_list (terminal s') = rl_push (recovery_list (terminal s)) t ->
  balances (terminal s') = balances (terminal s) -> booking (Some t).
Proof.
  intros Hlog Hrl Hb. destruct (first_step_books t _ _ Hkind Hfirst) as (Heff & Hclaim & _).
  assert (surplus s' - claim (W := W) (log s') t = surplus s - claim (W := W) (log s) t) as Hsur.
  { rewrite (surplus_eq t s Htok), (surplus_after _ eq_refl), Hb. destruct Hlog as [->| ->]; lia. }
  split; [|intros _; exact Hsur]. split; [done| |done|intros k [= <-]; by left|cbn; lia].
  destruct Hlog as [Hlog|Hlog]; [exists []; by rewrite app_nil_r|]. by apply first_added.
Qed.

(** It was saved as its second step. *)
Lemma closed_booking t2 l :
  log s' = l1 ++ l -> quiet (W := W) t l -> successor (W := W) t t2 -> fee t2 = fee t ->
  recovery_list (terminal s') = rl_push (recovery_list (terminal s)) t2 ->
  balances (terminal s') = balances (terminal s) -> booking (Some t2).
Proof.
  intros Hlog Hl Hsuc Hfee Hrl Hb. destruct (first_step_books t _ _ Hkind Hfirst) as (Heff & _ & _).
  destruct (successor_closing t t2 Hsuc) as [Hst H0t].
  assert (due t = 0) as Hdue.
  { unfold due. destruct Hkind as [(Hty & _)|(_ & -> & _)]; [|done].
    destruct Hsuc as (((acc & Hty2) & _) & _ & _ & Hi). unfold interim_acc in Hi.
    by rewrite Hty, Hty2 in Hi. }
  assert (surplus s' = surplus s - claim (W := W) (log s) t) as Hsur.
  { rewrite (surplus_eq t s Htok), (surplus_after _ Hlog), effects_quiet, Hb by done. lia. }
  split; [|intros _; cbn; rewrite H0t; lia].
  split; [done| |done|intros k [= <-]; by right|cbn; rewrite H0t; lia].
  apply (added_first (Some t2) l); [done| |done]. by intros k [= <-].
Qed.
End booking.

Lemma book_outcome t l1 r s s' :
  deposit_like (W := W) t \/ withdrawal_like (W := W) t -> token t = cfg_principal (config s) ->
  after_first (W := W) t (log s) l1 ->
  booked t (balances (terminal s)) (log s) l1 (recovery_list (terminal s)) r s' ->
  kept s' = kept s ->
  exists keep, outcome t keep s s' /\ exact t keep s s' /\
    (keep <> None -> exists d, r = Err (PE_Recoverable d)).
Proof.
  intros Hkind Htok Hfirst Hbk Hkept.
  assert (exists keep, booking t s s' keep /\ (keep <> None -> exists d, r = Err (PE_Recoverable d)))
    as (keep & [? ?] & ?); [|by exists keep].
  destruct Hbk as [tx l s' Hlog Hl Hrl Hc|e x s' Hlog Hrl Hop Hc|e s' Hin Hlog Hrl Hc
    |d s' Hlog Hrl Hb|d t2 l s' Hlog Hl Hsuc Hfee Hrl Hb].
  - exists None. split; [by apply (done_booking t l1 s s' Hkind Htok Hfirst Hkept l)|done].
  - exists None. split; [by apply (uncredited_booking t l1 s s' Hkind Htok Hfirst Hkept x)|done].
  - exists None. split; [by apply (refused_booking t l1 s s' Hkind Htok Hfirst Hkept)|done].
  - exists (Some t). split; [by apply (saved_booking t l1 s s' Hkind Htok Hfirst Hkept)|by exists d].
  - exists (Some t2). split; [by apply (closed_booking t l1 s s' Hkind Htok Hfirst Hkept t2 l)|by exists d].
Qed.

(** The second step [t2] of [t], processed in its place. *)
Lemma closing_outcome t t2 r s s' :
  token t = cfg_principal (config s) -> successor (W := W) t t2 -> fee t2 = fee t ->
  closing_end t2 (balances (terminal s)) (log s) (recovery_list (terminal s)) (kept s) r s' ->
  exists keep, outcome t keep s s'.
Proof.
  intros Htok Hsuc Hfee (Hb & Hkept & (l & Hlog & Hl) & Hrl).
  change (ledger_log (world s')) with (log s') in Hlog.
  assert (token t = cfg_principal (config s')) as Htok' by (injection Hkept as -> _; done).
  pose proof (successor_quiet t t2 l Hsuc Hl) as Hq.
  assert (surplus s' = surplus s) as Hsur.
  { rewrite (surplus_eq t s Htok), (surplus_eq t s' Htok'), Hlog, Hb, effects_quiet by done. done. }
  pose proof (claim_nonneg (W := W) (log s) t).
  destruct (successor_closing t t2 Hsuc) as [Hst H0t].
  assert (forall keep, (forall k, keep = Some k -> k = t2) ->
    exists l, log s' = log s ++ l /\ Forall (added t keep) l) as Hentries.
  { intros keep Hk. exists l. split; [done|]. apply added_quiet; [done|]. intros k ->. by rewrite (Hk k eq_refl). }
  destruct Hrl as [[_ Hrl]|[_ Hrl]].
  - exists None. split; [done|by apply Hentries|done|done|cbn; lia].
  - exists (Some t2). split; [done| |done|intros k [= <-]; by right|cbn; rewrite H0t; lia].
    apply Hentries. by intros k [= <-].
Qed.
End outcomes.

(** ** The pool of transfers that wait for recovery *)

Section pool.
Context {B R W : Type} `{PaymentLib, !PaymentLibLaws, World W, Balances B, !BalancesLaws B}.
Context `{RecoveryList R, !RecoveryListLaws R, !LedgerSpec W}.
Context (ledger_fee : N).
Notation st := (state B R W).
Implicit Types (s : st) (t : Transfer) (n : nat) (b : B) (w : W) (l : list entry) (rl : R).
Implicit Types (q : list Transfer) (keep : option Transfer).

(** The subaccount that pays for the current step, and the one of the interim
    account; the latter are tagged with the [v] of [vfrc]. *)
Definition pays t : option Subaccount := arg_from_subaccount (transfer_arg (W := W) t).
Definition interim_sub t : option Subaccount := interim_acc t ≫= subaccount.
Definition tagged (x : option Subaccount) : Prop := exists y, x = Some y /\ head y = Some 118.

(** A tagged subaccount is no other account than itself. *)
Lemma tagged_account x y :
  tagged y -> account_eqb (mk_account ic_id x) (mk_account ic_id y) = true -> x = y.
Proof.
  intros (z & -> & Hhead) [_ Heff]%account_eqb_law. rewrite !effective_subaccount_law in Heff.
  cbn in Heff. destruct x as [x|]; cbn in Heff; [by rewrite Heff|]. by rewrite <- Heff in Hhead.
Qed.

Record saved_ok s t : Prop := {
  saved_token : token t = cfg_principal (config s);
  saved_memo : exists i, 0 <= i < TX_COUNTER s /\ memo t = Some (memo_of_u64 i);
  saved_fee : fee t = ledger_fee;
  saved_kind :
    (bookable (W := W) ledger_fee t /\ ~ tagged (pays t) /\
     (stages_left t = 1%nat -> tagged (interim_sub t))) \/
    (closing (W := W) t /\ tagged (interim_sub t));
}.

Record pool_ok s q : Prop := {
  pool_saved : forall t, t ∈ q -> saved_ok s t;
  pool_nodup : NoDup q;
  pool_memo : forall t t', t ∈ q -> t' ∈ q -> memo t = memo t' -> t = t';
  pool_interim : forall t t', t ∈ q -> t' ∈ q -> tagged (interim_sub t) ->
    interim_sub t = interim_sub t' -> t = t';
  pool_unspent : forall t e, t ∈ q -> stages_left t = 1%nat -> e ∈ log s ->
    e.1 = cfg_principal (config s) -> arg_from_subaccount e.2 <> interim_sub t;
  pool_surplus : claims (W := W) (log s) q <= surplus s;
}.

Lemma closing_pays t : closing (W := W) t -> pays t = interim_sub t.
Proof.
  intros ((acc & Hty) & _). unfold pays, interim_sub, interim_acc, transfer_arg, from. cbn. by rewrite Hty.
Qed.

(** Fewer transfers. *)
Lemma pool_ok_subset s q q' :
  pool_ok s q -> NoDup q' -> (forall t, t ∈ q' -> t ∈ q) -> pool_ok s q'.
Proof.
  intros [H1' H2' H3' H4' H5' H6'] Hnd Hin. split; eauto.
  etrans; [|exact H6']. apply claims_submseteq. by apply NoDup_submseteq.
Qed.

(** What is true of the other transfers after [t] was processed. *)
Lemma outcome_entries t keep s s' e :
  outcome t keep s s' -> e ∈ log s' -> e ∈ log s \/
    (arg_memo e.2 = memo t /\
     (arg_from_subaccount e.2 = pays t \/
      arg_from_subaccount e.2 = interim_sub t /\ forall k, keep = Some k -> stages_left k = 0%nat)).
Proof.
  intros Hout Hin. destruct (out_log _ _ _ _ Hout) as (l & Hl & Hall). rewrite Hl in Hin.
  apply elem_of_app in Hin as [Hin|Hin]; [by left|right].
  rewrite Forall_forall in Hall. destruct (Hall e Hin) as [->|[(t2 & Hsuc & ->) Hk]].
  - split; [done|by left].
  - destruct Hsuc as (Hcl & _ & Hm & Hi). split; [done|right]. split; [|done].
    change (pays t2 = interim_sub t). rewrite (closing_pays t2 Hcl). unfold interim_sub. by rewrite Hi.
Qed.

Lemma saved_ok_kept s s' t : kept s' = kept s -> saved_ok s t -> saved_ok s' t.
Proof. intros [= Hc Ht] [H1' H2' H3' H4']. split; [by rewrite Hc|by rewrite Ht|done..]. Qed.

(** A transfer of the pool is processed: the others, and what was kept of it, are
    again a pool. *)
Section pool_step.
Context (t : Transfer) (keep : option Transfer) (s s' : st) (q : list Transfer).
Context (Hp : pool_ok s (t :: q)) (Hout : outcome t keep s s').

Lemma pool_memo_new x : x ∈ q -> memo x <> memo t.
Proof.
  intros Hx Hm. pose proof (pool_nodup _ _ Hp) as [Htq _]%NoDup_cons.
  apply (pool_memo _ _ Hp) in Hm; [by subst|by right|by left].
Qed.

Lemma pool_interim_new x : x ∈ q -> tagged (interim_sub x) -> interim_sub x <> interim_sub t.
Proof.
  intros Hx Htag Hi. pose proof (pool_nodup _ _ Hp) as [Htq _]%NoDup_cons.
  apply (pool_interim _ _ Hp) in Hi; [by subst|by right|by left|done].
Qed.

Lemma saved_tagged x : saved_ok s x -> stages_left x = 1%nat -> tagged (interim_sub x).
Proof. intros [_ _ _ [(_ & _ & Htag)|[_ Htag]]]; auto. Qed.

(** What is kept of [t] has its memo and its interim account. *)
Lemma kept_transfer k : keep = Some k -> memo k = memo t /\ interim_sub k = interim_sub t /\ saved_ok s k.
Proof.
  intros Hk. pose proof (pool_saved _ _ Hp t ltac:(left)) as Hst.
  destruct (out_keep _ _ _ _ Hout k Hk) as [->|[(Hcl & Htok & Hm & Hi) Hfee]]; [done|].
  assert (interim_sub k = interim_sub t) as Hi' by (unfold interim_sub; by rewrite Hi).
  destruct Hst as [Ht Hc Hf Hkind]. split_and!; [done..|]. split; [congruence| |congruence|]; [by rewrite Hm|].
  right. split; [done|]. rewrite Hi'. destruct Hkind as [(Hbk & _ & Htag)|[_ Htag]]; [|done].
  apply Htag. destruct Hbk as [_ _ [(Hty & _)|((acc & Hty & _) & _)]]; unfold stages_left; rewrite Hty;
    [|done]. destruct Hcl as ((acc & Hty2) & _). unfold interim_acc in Hi. by rewrite Hty, Hty2 in Hi.
Qed.

Lemma pool_after x : x ∈ option_list keep ++ q -> keep = Some x \/ x ∈ q.
Proof. destruct keep as [k|]; cbn; [|by right]. rewrite elem_of_cons. intros [->|?]; auto. Qed.

(** Of two transfers of the new pool that agree in [f], both are of the old one or
    they are equal, if [f] tells the old one from [t]. *)
Lemma pool_after_inj {A} (f : Transfer -> A) (P : Transfer -> Prop) x y :
  (forall x, x ∈ q -> P x -> f x <> f t) -> (forall k, keep = Some k -> f k = f t) ->
  (f x = f y -> P x -> P y) -> (x ∈ q -> y ∈ q -> f x = f y -> P x -> x = y) ->
  x ∈ option_list keep ++ q -> y ∈ option_list keep ++ q -> P x -> f x = f y -> x = y.
Proof.
  intros Hnew Hkeep HP Hold Hx%pool_after Hy%pool_after HPx Hf. destruct Hx as [Hkx|Hx], Hy as [Hky|Hy].
  - congruence.
  - destruct (Hnew y Hy); [auto|]. rewrite <- Hf. by apply Hkeep.
  - destruct (Hnew x Hx); [auto|]. rewrite Hf. by apply Hkeep.
  - auto.
Qed.

(** The interim accounts of first steps are still unspent. *)
Lemma pool_unspent_after x e :
  x ∈ option_list keep ++ q -> stages_left x = 1%nat -> e ∈ log s' ->
  e.1 = cfg_principal (config s) -> arg_from_subaccount e.2 <> interim_sub x.
Proof.
  intros Hx Hsl He Hep. pose proof (pool_saved _ _ Hp t ltac:(left)) as Hst.
  assert (x ∈ q \/ (x = t /\ keep = Some t)) as Hxt.
  { destruct (pool_after x Hx) as [Hkx|Hx']; [|by left].
    destruct (out_keep _ _ _ _ Hout x Hkx) as [->|[Hsuc _]]; [by right|].
    apply successor_closing in Hsuc as [Hsuc _]. congruence. }
  assert (x ∈ t :: q) as Hxp by (destruct Hxt as [?|[-> _]]; [by right|by left]).
  pose proof (saved_tagged x (pool_saved _ _ Hp x Hxp) Hsl) as Htag.
  destruct (outcome_entries t keep s s' e Hout He) as [He'|[_ Hfrom]]; [by apply (pool_unspent _ _ Hp)|].
  destruct Hfrom as [Hfrom|[Hfrom Hk]]; rewrite Hfrom; intros Heq.
  - destruct Hst as [_ _ _ [(_ & Hnt & _)|[Hcl _]]]; [by rewrite <- Heq in Htag|].
    destruct Hxt as [Hxq|[-> _]].
    + apply (pool_interim_new x Hxq Htag). by rewrite <- Heq, (closing_pays t Hcl).
    + destruct Hcl as ((acc & Hty) & _). unfold stages_left in Hsl. by rewrite Hty in Hsl.
  - destruct Hxt as [Hxq|[-> Hkt]]; [by apply (pool_interim_new x Hxq)|]. rewrite (Hk t Hkt) in Hsl. done.
Qed.

(** The claims of the others are as they were. *)
Lemma claims_after : claims (W := W) (log s') q = claims (W := W) (log s) q.
Proof.
  apply claims_ext, Forall_forall. intros x Hx. split; intros Hl.
  - destruct (outcome_entries t keep s s' _ Hout Hl) as [?|[Hm _]]; [done|]. by apply pool_memo_new in Hm.
  - destruct (out_log _ _ _ _ Hout) as (l & -> & _). apply elem_of_app. by left.
Qed.

Lemma pool_outcome : pool_ok s' (option_list keep ++ q).
Proof.
  assert (forall x, x ∈ q -> x ∈ t :: q) as Hin by (by right).
  split.
  - intros x Hx. apply (saved_ok_kept s); [apply Hout|].
    destruct (pool_after x Hx) as [Hk|Hx']; [by apply kept_transfer|by apply (pool_saved _ _ Hp), Hin].
  - pose proof (pool_nodup _ _ Hp) as [_ Hnd]%NoDup_cons. pose proof kept_transfer as Hkt.
    destruct keep as [k|]; [|done]. cbn. apply NoDup_cons. split; [|done]. intros Hkq.
    apply (pool_memo_new k Hkq). by apply Hkt.
  - intros x y Hx Hy. apply (pool_after_inj memo (fun _ => True)); [by auto using pool_memo_new| |done| |done..].
    + intros k Hk. by apply kept_transfer.
    + intros. by apply (pool_memo _ _ Hp); auto.
  - intros x y Hx Hy Htag. apply (pool_after_inj interim_sub (fun x => tagged (interim_sub x)));
      [apply pool_interim_new| |by intros ->| |done..].
    + intros k Hk. by apply kept_transfer.
    + intros. by apply (pool_interim _ _ Hp); auto.
  - intros x e Hx Hsl He Hep. pose proof (out_kept _ _ _ _ Hout) as [= Hcf _].
    rewrite Hcf in Hep. by apply pool_unspent_after.
  - pose proof (pool_surplus _ _ Hp) as Hsur. pose proof (out_surplus _ _ _ _ Hout) as Hs.
    cbn in Hsur. pose proof claims_after. destruct keep as [k|]; cbn in *; lia.
Qed.
End pool_step.
End pool.
