(* ===== verification/BooksProps.v ===== *)
(** * A payment canister is solvent

    Deposits, withdrawals and recoveries in any order, with the balances, the
    ledger and the list of transfers that wait for recovery: the canister never owes
    more than the ledger holds for it ([books_solvent]).  The theorem needs a
    constant fee: [withdrawal_moved_twice] shows what a change of the fee after a
    lost answer does. *)

From S2P Require Import Prelude StableLib Concrete StableStorage Payments RecoveryList Terminal.
From S2P Require Import TerminalProofs TerminalTrace TerminalConcrete TerminalProps Books BooksPool.
Local Open Scope Z_scope.

Section operations.
Context {B R W : Type} `{PaymentLib, !PaymentLibLaws, World W, Balances B, !BalancesLaws B}.
Context `{RecoveryList R, !RecoveryListLaws R, !LedgerSpec W, Target}.
Context (ledger_fee : N) (window : Z) `{!LedgerLaws W ledger_fee window}.
Notation st := (state B R W).
Implicit Types (s : st) (t : Transfer) (n : nat) (b : B) (w : W) (l : list entry) (rl : R).
Implicit Types (q rest : list Transfer) (keep : option Transfer).

(** The books are in order: the terminal knows the fee and the minting account of the
    ledger, the canister is not the minter, recovery deduplicates for no longer than the
    ledger, the memos on the ledger were counted, and the transfers that wait for
    recovery, together with those that were taken out to be recovered, are covered. *)
Record books_ok rest s : Prop := {
  books_fee : cfg_fee (config s) = ledger_fee;
  books_minter : owner (minting_account (config s)) <> ic_id;
  books_minting : minting_account (config s) =
    default no_minting_account (ledger_minter W (cfg_principal (config s)));
  books_period : TX_WINDOW <= deduplication_period (terminal s) < 2 ^ 64;
  books_window : deduplication_period (terminal s) <= window;
  books_counter : 0 <= TX_COUNTER s;
  books_memos : forall e, e ∈ log s -> e.1 = cfg_principal (config s) ->
    exists i, 0 <= i < TX_COUNTER s /\ arg_memo e.2 = Some (memo_of_u64 i);
  books_list : rl_ok (recovery_list (terminal s));
  books_pool : pool_ok ledger_fee s (rest ++ saved s);
}.

(** Accounts that are not the minter's. *)
Lemma plain_other (cf : TokenConfiguration) acc :
  minting_account cf = default no_minting_account (ledger_minter W (cfg_principal cf)) ->
  owner acc <> owner (minting_account cf) -> plain W (cfg_principal cf) acc.
Proof.
  intros Hm Hne m Hl. rewrite Hl in Hm. cbn in Hm. apply not_true_iff_false.
  rewrite account_eqb_law, <- Hm. tauto.
Qed.

Lemma plain_own rest s acc :
  books_ok rest s -> owner acc = ic_id -> plain W (cfg_principal (config s)) acc.
Proof.
  intros Hok Ho. apply plain_other; [apply (books_minting _ _ Hok)|]. rewrite Ho.
  apply not_eq_sym, (books_minter _ _ Hok).
Qed.

(** The world may change, and other things happen on the ledger. *)
Lemma books_ok_world rest s w :
  ledger_log w = log s -> books_ok rest s -> books_ok rest (set_world s w).
Proof.
  intros Hw [? ? ? ? ? ? Hm ? [Hs ? ? ? Hu Hsur]].
  assert (log (set_world s w) = log s) as Hl by exact Hw.
  split; try done; [by rewrite Hl|]. split; try done.
  - intros t Ht. destruct (Hs t Ht). by split.
  - by rewrite Hl.
  - rewrite Hl. unfold surplus, assets. change (ledger_log (world (set_world s w))) with (ledger_log w).
    by rewrite Hw.
Qed.

(** One transfer less to process. *)
Lemma books_outcome t keep rest s s' :
  books_ok (t :: rest) s -> outcome t keep s s' -> frame s s' -> books_ok rest s'.
Proof.
  intros [Hf Hmin Hmint Hp Hw Hc Hm Hrl Hpool] Hout [Hper _].
  pose proof (pool_saved _ _ _ Hpool t ltac:(left)) as [Htok (i & Hi & Hmi) _ _].
  pose proof (pool_outcome ledger_fee t keep s s' (rest ++ saved s) Hpool Hout) as Hpool'.
  pose proof (out_kept _ _ _ _ Hout) as Hk. injection Hk as Hcf Hctr.
  pose proof (out_saved _ _ _ _ Hout) as Hsaved.
  assert (rl_ok (recovery_list (terminal s'))) as Hrl'.
  { rewrite Hsaved. destruct keep; [by apply rl_push_ok|done]. }
  assert (forall x, x ∈ saved s' -> keep = Some x \/ x ∈ saved s) as Hin.
  { intros x. unfold saved. rewrite Hsaved. destruct keep as [k|]; [|by right].
    intros [->|?]%rl_push_sound; [by left|by right]. }
  split; [congruence..|by rewrite Hper|by rewrite Hper|by rewrite Hctr| |done|].
  - rewrite Hcf, Hctr. intros e He Hep.
    destruct (outcome_entries t keep s s' e Hout He) as [He'|[-> _]]; [by apply Hm|by exists i].
  - apply (pool_ok_subset ledger_fee s' _ (rest ++ saved s') Hpool').
    + pose proof (pool_nodup _ _ _ Hpool) as Hnd. cbn in Hnd.
      apply NoDup_cons in Hnd as [Ht Hnd]. apply NoDup_app in Hnd as (Hr & Hdis & _).
      apply NoDup_app. split_and!; [done| |by apply rl_view_nodup].
      intros x Hx Hx'. destruct (Hin x Hx') as [Hkx|?]; [|by apply (Hdis x)].
      pose proof (pool_nodup _ _ _ Hpool') as Hnd'. rewrite Hkx in Hnd'. cbn in Hnd'.
      apply NoDup_cons in Hnd' as [Hn _]. apply Hn, elem_of_app. by left.
    + intros x. rewrite !elem_of_app. intros [Hx|Hx]; [by right; left|].
      destruct (Hin x Hx) as [->|?]; [left; cbn; by left|by right; right].
Qed.

(** *** Recovery *)

Lemma no_outcome t s : token t = cfg_principal (config s) -> outcome t None s s.
Proof.
  intros Htok. split; [done|by exists []; rewrite app_nil_r|done|done|]. cbn.
  pose proof (claim_nonneg (W := W) (log s) t). lia.
Qed.

(** The second step [t2] of [t], run from the point [c]. *)
Lemma run_second t t2 c s :
  token t = cfg_principal (config s) -> successor (W := W) t t2 -> fee t2 = fee t ->
  fee t = ledger_fee -> ctl_transfer c = t2 ->
  match c with CUpdate _ _ _ => False | CTransfer _ _ => validate (W := W) t2 = Ok tt | _ => True end ->
  exists r s' keep, (forall fuel, (measure c < fuel)%nat -> run_ctl fuel c s = Done r s') /\
    outcome t keep s s'.
Proof.
  intros Htok Hsuc Hfee2 Hfee Hc Hv.
  destruct (closing_run ledger_fee window t2 (balances (terminal s)) (log s)
    (recovery_list (terminal s)) (kept s) c s) as (r & s' & Hrun & Hend); [apply Hsuc|congruence| |].
  { split_and!; try done. exists []. rewrite app_nil_r. split; [done|constructor]. }
  destruct (closing_outcome t t2 r s s' Htok Hsuc Hfee2 Hend) as [keep Hout]. by exists r, s', keep.
Qed.

(** The attempts of [t] that start now are answered within [TX_WINDOW], five minutes. *)
Definition prompt t s : Prop :=
  in_time (ic_time (world s) + TX_WINDOW) N_RETRIES t (world s).

(** A first step from the point [c]: a new one, or one that the ledger may have
    executed before. *)
Lemma run_first t c s :
  c = CRecover t N_RETRIES \/ (c = CTransfer t N_RETRIES /\ entry_of (W := W) t ∉ log s) ->
  bookable (W := W) ledger_fee t -> token t = cfg_principal (config s) ->
  prompt t s -> ic_time (world s) + TX_WINDOW <= created_at t + window ->
  exists r s' keep, (forall fuel, (measure c < fuel)%nat -> run_ctl fuel c s = Done r s') /\
    outcome t keep s s' /\ exact t keep s s' /\
    (keep <> None -> exists d, r = Err (PE_Recoverable d)).
Proof.
  intros Hc Hbk Htok Hprompt Htime.
  set (l1 := if decide (entry_of (W := W) t ∈ log s) then log s else log s ++ [entry_of (W := W) t]).
  assert (after_first (W := W) t (log s) l1) as Hfirst.
  { unfold l1, after_first. case_decide; auto. }
  destruct (book_run ledger_fee window t (balances (terminal s)) (log s) l1
    (recovery_list (terminal s)) (kept s) c s _ Hbk Hfirst Htime) as (r & s' & Hrun & Hend & Hk).
  { destruct Hc as [->|[-> Hin]]; split_and!; try done. by left. }
  { by destruct Hc as [->|[-> _]]. }
  destruct (book_outcome t l1 r s s' (bookable_kind _ _ Hbk) Htok Hfirst Hend Hk) as (keep & ? & ? & ?).
  by exists r, s', keep.
Qed.

Lemma renew_successor t w :
  closing (W := W) t -> successor (W := W) t (renew t w) /\ fee (renew t w) = fee t.
Proof.
  intros ((acc & Hty) & Hop & Heff & Hpl). split; [|done]. split_and!; [|done..].
  unfold closing, plain_entry, effect, entry_of, transfer_arg, to, from in *.
  cbn in *. rewrite Hty in *. split_and!; [by exists acc|done..|apply Hpl|apply Hpl].
Qed.

Lemma fuel_ok c t n x :
  c = CTransfer t n \/ c = CExecute t n \/ c = CRecover t n \/ (exists tx, c = CComplete t tx n) ->
  (measure c < transfer_fuel n + x)%nat.
Proof. apply measure_transfer_fuel. Qed.

(** What is left of an interim account tells whether the first step took place. *)
Lemma nothing_left rest t acc s w :
  books_ok (t :: rest) s -> ttype t = DoubleStep First acc ->
  call_icrc1_balance_of (world s) (cfg_principal (config s)) acc = (Ok 0%N, w) ->
  entry_of (W := W) t ∉ log s.
Proof.
  intros Hok Hty Hbal Hin. pose proof (books_pool _ _ Hok) as Hpool.
  pose proof (pool_saved _ _ _ Hpool t ltac:(left)) as [Htok _ Hfee [(Hbk & _ & Htag)|(Hcl & _)]].
  2: { destruct Hcl as ((? & ?) & _). congruence. }
  assert (owner acc = ic_id) as Hown.
  { destruct (bookable_kind _ _ Hbk) as [(? & _)|((acc' & Hty' & Ho & _) & _)]; congruence. }
  pose proof (balance_of_covers _ _ _ _ _ Hbal Hown (plain_own _ _ _ Hok Hown)) as Hcov.
  assert (arg_amount (entry_of (W := W) t).2 <> 0%N) as Hpos.
  { unfold entry_of, transfer_arg. cbn. rewrite amount_minus_fee_eq.
    pose proof (bookable_valid _ _ Hbk) as Hv. unfold validate, final_amount, effective_fee in Hv.
    rewrite Hty in Hv. destruct (account_eqb _ _); [done|].
    destruct (N.ltb_spec (fee t * 2) (amount t)); [lia|done]. }
  assert (arg_amount (entry_of (W := W) t).2 <=
    received (cfg_principal (config s)) acc (ledger_log (world s)))%N as Hrec.
  { apply received_ge; [exact Hin|exact Htok|]. apply account_eqb_law.
    unfold entry_of, transfer_arg, to. cbn. by rewrite Hty. }
  destruct (spent_pos ledger_fee ic_id (cfg_principal (config s)) acc (ledger_log (world s)))
    as (e & He & Hep & Hacc); [lia|].
  - assert (stages_left t = 1%nat) as Hsl by (unfold stages_left; by rewrite Hty).
    apply (pool_unspent _ _ _ Hpool t e ltac:(left) Hsl He Hep).
    assert (mk_account ic_id (interim_sub t) = acc) as Hi
      by (unfold interim_sub, interim_acc; rewrite Hty, <- Hown; by destruct acc).
    apply tagged_account; [by apply Htag|]. by rewrite Hi.
Qed.

(** A first step that did not take place is refunded. *)
Lemma reject_outcome t e s :
  bookable (W := W) ledger_fee t -> token t = cfg_principal (config s) ->
  entry_of (W := W) t ∉ log s ->
  exists r s' keep, reject t e s = Done r s' /\ outcome t keep s s'.
Proof.
  intros Hbk Htok Hin.
  pose proof (reject_booked ledger_fee t (balances (terminal s)) (log s)
    (log s ++ [entry_of (W := W) t]) (recovery_list (terminal s)) (kept s) e s Hbk
    eq_refl eq_refl eq_refl Hin eq_refl) as Hrej.
  destruct (reject t e s) as [r s'| |]; [|done..]. destruct Hrej as [Hend Hk].
  destruct (book_outcome t _ r s s' (bookable_kind _ _ Hbk) Htok (or_intror (conj Hin eq_refl)) Hend Hk)
    as (keep & Hout & _). by exists r, s', keep.
Qed.

(** A run from [s], processing [t]. *)
Definition processes {A} (m : nat -> method st (result A PaymentError)) t s : Prop :=
  exists r s' keep, (forall x, m (transfer_fuel N_RETRIES + x)%nat s = Done r s') /\ outcome t keep s s'.

Lemma run_processes c t s :
  (forall x, measure c < transfer_fuel N_RETRIES + x)%nat ->
  (exists r s' keep, (forall fuel, (measure c < fuel)%nat -> run_ctl fuel c s = Done r s') /\
    outcome t keep s s') ->
  processes (fun fuel => run_ctl fuel c) t s.
Proof.
  intros Hm (r & s' & keep & Hrun & Hout). exists r, s', keep. split; [|done]. intros x. by apply Hrun.
Qed.

Lemma processes_books {A} (m : nat -> method st (result A PaymentError)) rest t s :
  books_ok (t :: rest) s -> processes m t s ->
  (forall x, match m (transfer_fuel N_RETRIES + x)%nat s with Done _ s' => frame s s' | _ => True end) ->
  exists r s', (forall x, m (transfer_fuel N_RETRIES + x)%nat s = Done r s') /\ books_ok rest s'.
Proof.
  intros Hok (r & s' & keep & Hrun & Hout) Hfr. exists r, s'. split; [done|].
  specialize (Hfr 0%nat). rewrite Hrun in Hfr. by apply (books_outcome t keep _ s).
Qed.

(** The second step of a transfer whose first step took place. *)
Lemma complete_processes t acc s :
  bookable (W := W) ledger_fee t -> ttype t = DoubleStep First acc -> token t = cfg_principal (config s) ->
  processes (fun fuel => run_ctl fuel (CComplete t UNKNOWN_TX_ID N_RETRIES)) t s.
Proof.
  intros Hbk Hty Htok.
  destruct (next_step t (world s)) as [t2|] eqn:Hn; [|unfold next_step in Hn; by rewrite Hty in Hn].
  destruct (next_step_successor ledger_fee t (world s) t2 Hbk Hn) as (Hsuc & Hf2 & Hv2).
  destruct (run_second t t2 (CTransfer t2 N_RETRIES) s) as (r & s' & keep & Hrun & Hout);
    [done|done|by rewrite (bookable_fee _ _ Hbk)|by apply Hbk|done|done|].
  exists r, s', keep. split; [|done]. intros x.
  replace (transfer_fuel N_RETRIES + x)%nat with (S (transfer_fuel N_RETRIES + x - 1)) by (unfold transfer_fuel; lia).
  rewrite run_ctl_S. cbn [step]. rewrite Hn. apply Hrun. cbn [measure].
  pose proof (stages_left_le t2). apply next_step_stages in Hn as [_ Hn2]. rewrite Hn2.
  unfold transfer_fuel, N_RETRIES. lia.
Qed.

(** A transfer that the ledger may not know any more: the balance [k] of its interim
    account tells how far it came. *)
Lemma old_step_processes rest t stage acc s k w :
  books_ok (t :: rest) s -> ttype t = DoubleStep stage acc ->
  call_icrc1_balance_of (world s) (cfg_principal (config s)) acc = (Ok k, w) ->
  processes (fun fuel => match stage, bool_decide (k = 0%N) with
    | First, true => reject t (TransferFailed FailUnknown)
    | First, false | Second, true => run_ctl fuel (CComplete t UNKNOWN_TX_ID N_RETRIES)
    | Second, false => run_ctl fuel (CRecover (renew t w) N_RETRIES)
    end) t (set_world s w).
Proof.
  intros Hok Hty Hbal.
  pose proof (pool_saved _ _ _ (books_pool _ _ Hok) t ltac:(left)) as [Htok _ Hfee Hkind].
  destruct stage.
  - destruct Hkind as [(Hbk & _)|(((? & ?) & _) & _)]; [|congruence].
    case_bool_decide as Hk; [|by apply (complete_processes t acc)]. subst k.
    destruct (reject_outcome t (TransferFailed FailUnknown) (set_world s w) Hbk Htok) as (r & s' & keep & Hr & Ho).
    { change (log (set_world s w)) with (ledger_log w). rewrite (balance_of_log _ _ _ _ _ Hbal).
      by apply (nothing_left rest t acc s w Hok Hty Hbal). }
    by exists r, s', keep.
  - destruct Hkind as [([_ _ [(? & _)|((? & ? & _) & _)]] & _)|(Hcl & _)]; [congruence..|].
    case_bool_decide as Hk; apply run_processes.
    + intros x. apply (fuel_ok _ t). eauto.
    + by apply (run_second t t).
    + intros x. apply (fuel_ok _ (renew t w)). eauto.
    + destruct (renew_successor t w Hcl). by apply (run_second t (renew t w)).
Qed.

Lemma recover_old_books rest t s :
  books_ok (t :: rest) s ->
  exists r s', (forall x, recover_old_tx (transfer_fuel N_RETRIES + x) t s = Done r s') /\
    books_ok rest s'.
Proof.
  intros Hok. pose proof (pool_saved _ _ _ (books_pool _ _ Hok) t ltac:(left)) as [Htok _ _ _].
  unfold recover_old_tx. destruct (ttype t) as [|stage acc] eqn:Hty.
  { eexists _, s. split; [done|]. apply (books_outcome t None _ s); [done|by apply no_outcome|done]. }
  setoid_rewrite ask_eq. unfold get_icrc1_balance. setoid_rewrite in_world_Done.
  destruct (call_icrc1_balance_of (world s) (cfg_principal (config s)) acc) as [[k|c] w] eqn:Hbal;
    cbn [fst snd from_rejection map_err];
    pose proof (books_ok_world _ s w (balance_of_log _ _ _ _ _ Hbal) Hok) as Hok1.
  - pose proof (processes_books _ rest t _ Hok1 (old_step_processes rest t stage acc s k w Hok Hty Hbal)) as Hfin.
    destruct Hfin as (r & s' & Hrun & Hok'); [|exists r, s'; split; [|done]; intros x; rewrite <- (Hrun x)].
    + intros x. destruct stage; case_bool_decide; apply run_ctl_frame || exact (reject_frame t (TransferFailed FailUnknown) _).
    + destruct stage, (N.eqb_spec k 0); by rewrite ?bool_decide_eq_true_2, ?bool_decide_eq_false_2 by done.
  - eexists _, _. split; [done|]. by apply (books_outcome t None _ (set_world s w)); [|apply no_outcome|].
Qed.

(** Before the deduplication period is over the ledger still knows the transfer. *)
Lemma recover_young_books rest t s :
  books_ok (t :: rest) s -> ~ old s t -> (opening t -> prompt t s) ->
  exists r s', (forall x, execute_recovery_transfer (transfer_fuel N_RETRIES + x) t N_RETRIES s = Done r s') /\
    books_ok rest s'.
Proof.
  intros Hok Hyoung Hprompt. pose proof (books_pool _ _ Hok) as Hpool.
  pose proof (pool_saved _ _ _ Hpool t ltac:(left)) as [Htok _ Hfee Hkind].
  assert (processes (fun fuel => run_ctl fuel (CRecover t N_RETRIES)) t s) as (r & s' & keep & Hrun & Hout).
  { apply run_processes; [intros x; apply (fuel_ok _ t); eauto|].
    destruct Hkind as [(Hbk & _)|(Hcl & _)]; [|by apply (run_second t t)].
    destruct (run_first t (CRecover t N_RETRIES) s (or_introl eq_refl) Hbk Htok
      (Hprompt (bookable_not_second _ t Hbk))) as (r & s' & keep & Hrun & Hout & _).
    - pose proof (books_window _ _ Hok). pose proof (books_period _ _ Hok).
      unfold old, saturating_sub in Hyoung. lia.
    - by exists r, s', keep. }
  exists r, s'. split; [exact Hrun|]. apply (books_outcome t keep rest s); [done..|].
  pose proof (run_ctl_frame (transfer_fuel N_RETRIES + 0) (CRecover t N_RETRIES) s) as Hf. by rewrite Hrun in Hf.
Qed.

(** A transfer that is repeated by the recovery is answered in time. *)
Definition recover_in_time t s : Prop := opening t -> ~ old s t -> prompt t s.

Lemma recover_tx_books rest t s :
  books_ok (t :: rest) s -> recover_in_time t s ->
  exists r s', (forall x, recover_tx (transfer_fuel N_RETRIES + x) t s = Done r s') /\ books_ok rest s'.
Proof.
  intros Hok Hin. destruct (can_deduplicate_Done s t (books_period _ _ Hok)) as (d & Hd & Hold).
  assert (exists r s', (forall x, (if d then execute_recovery_transfer (transfer_fuel N_RETRIES + x) t N_RETRIES
      else recover_old_tx (transfer_fuel N_RETRIES + x) t) s = Done r s') /\ books_ok rest s')
    as (r & s' & Hrun & Hok').
  { destruct d; [|by apply recover_old_books].
    assert (~ old s t) as Hyoung by (intros Ho; by apply Hold in Ho).
    apply recover_young_books; [done..|]. intros Ho. by apply Hin. }
  exists (result_map (fun tx => (tx, t)) r), s'. split; [|done]. intros x.
  unfold recover_tx. rewrite bind_eq, Hd, ask_eq, Hrun. by destruct r.
Qed.

Fixpoint recovery_in_time q s : Prop :=
  match q with
  | [] => True
  | t :: q => recover_in_time t s /\
      match recover_tx (transfer_fuel N_RETRIES) t s with
      | Done _ s' => recovery_in_time q s' | _ => True
      end
  end.

Lemma recover_each_books q s :
  books_ok q s -> recovery_in_time q s ->
  exists rs s', (forall x, recover_each (transfer_fuel N_RETRIES + x) q s = Done rs s') /\ books_ok [] s'.
Proof.
  revert s. induction q as [|t q IH]; intros s Hok; [by exists [], s|]. intros [Ht Hq].
  destruct (recover_tx_books q t s Hok Ht) as (r & s1 & Hrun & Hok1).
  assert (recovery_in_time q s1) as Hq1.
  { pose proof (Hrun 0%nat) as Hr. rewrite Nat.add_0_r in Hr. by rewrite Hr in Hq. }
  destruct (IH s1 Hok1 Hq1) as (rs & s' & Hrs & Hok'). exists (r :: rs), s'. split; [|done]. intros x.
  cbn [recover_each]. pose proof (pool_saved _ _ _ (books_pool _ _ Hok) t ltac:(left)) as [Htok _ _ _].
  rewrite decide_True by done. by rewrite bind_eq, Hrun, bind_eq, Hrs.
Qed.

(** The transfers that wait are taken out of the list to be recovered. *)
Lemma take_all_books s :
  books_ok [] s ->
  exists q rl, take_all_for_recovery s = Done q (set_recovery_list s rl) /\ q = saved s /\
    rl_view rl = [] /\ books_ok q (set_recovery_list s rl).
Proof.
  intros Hok. unfold take_all_for_recovery.
  destruct (rl_take_all_law (recovery_list (terminal s))) as [Hall Hnil].
  pose proof (rl_take_all_ok (recovery_list (terminal s)) (books_list _ _ Hok)) as Hrl.
  destruct (rl_take_all (recovery_list (terminal s))) as [q rl]. cbn [fst snd] in *.
  exists q, rl. split_and!; [done..|]. destruct Hok as [? ? ? ? ? ? ? ? [Hs Hnd Hm Hi Hu Hsur]].
  change (saved s) with (rl_view (recovery_list (terminal s))) in *. cbn [app] in *. rewrite <- Hall in *.
  assert (saved (set_recovery_list s rl) = []) as Hsv by done.
  split; try done. rewrite Hsv, app_nil_r. split; try done.
  intros t Ht. destruct (Hs t Ht). by split.
Qed.

Definition recover_all_in_time s : Prop :=
  match take_all_for_recovery s with Done q s' => recovery_in_time q s' | _ => True end.

(** Recovery keeps the books in order. *)
Lemma recover_all_books s :
  books_ok [] s -> recover_all_in_time s ->
  exists rs s', (forall x, recover_all (transfer_fuel N_RETRIES + x) s = Done rs s') /\ books_ok [] s'.
Proof.
  intros Hok Hin. destruct (take_all_books s Hok) as (q & rl & Htake & _ & _ & Hok1).
  unfold recover_all_in_time in Hin. rewrite Htake in Hin.
  destruct (recover_each_books q _ Hok1 Hin) as (rs & s' & Hrun & Hok'). exists rs, s'. split; [|done].
  intros x. unfold recover_all. by rewrite bind_eq, Htake.
Qed.

(** *** New transfers *)

Context (memo_inj : forall i j, 0 <= i < 2 ^ 64 -> 0 <= j < 2 ^ 64 ->
  memo_of_u64 i = memo_of_u64 j -> i = j).

(** The state in which the transfer of an operation starts. *)
Record started t s s1 : Prop := {
  started_world : world s1 = world s;
  started_kept : kept s1 = (config s, TX_COUNTER s + 1);
  started_list : recovery_list (terminal s1) = recovery_list (terminal s);
  started_period : deduplication_period (terminal s1) = deduplication_period (terminal s);
  started_token : token t = cfg_principal (config s);
  started_memo : memo t = Some (memo_of_u64 (TX_COUNTER s));
  started_time : created_at t = ic_time (world s);
  started_surplus : surplus s1 = surplus s + refund t;
}.

(** The interim account of a transfer was not used before. *)
Definition fresh_interim t s : Prop :=
  (forall e, e ∈ log s -> e.1 = cfg_principal (config s) -> arg_from_subaccount e.2 <> interim_sub t) /\
  (forall x, x ∈ saved s -> interim_sub x <> interim_sub t).

Lemma fresh_entry t s s1 :
  books_ok [] s -> TX_COUNTER s < 2 ^ 64 -> started t s s1 ->
  entry_of (W := W) t ∉ log s /\ forall x, x ∈ saved s -> memo x <> memo t.
Proof.
  intros Hok Hlt Hst.
  assert (forall i, 0 <= i < TX_COUNTER s -> Some (memo_of_u64 i) <> memo t) as Hne.
  { intros i Hi. rewrite (started_memo _ _ _ Hst). intros [= Hm]. apply memo_inj in Hm; lia. }
  split.
  - intros Hin. destruct (books_memos _ _ Hok _ Hin (started_token _ _ _ Hst)) as (i & Hi & Hm).
    by apply (Hne i).
  - intros x Hx Hm. destruct (pool_saved _ _ _ (books_pool _ _ Hok) x Hx) as [_ (i & Hi & Hmx) _ _].
    apply (Hne i); congruence.
Qed.

Lemma books_start t s s1 :
  books_ok [] s -> TX_COUNTER s + 1 < 2 ^ 64 -> started t s s1 ->
  bookable (W := W) ledger_fee t -> ~ tagged (pays (W := W) t) ->
  (stages_left t = 1%nat -> tagged (interim_sub t)) ->
  (tagged (interim_sub t) -> fresh_interim t s) -> books_ok [t] s1.
Proof.
  intros Hok Hlt Hst Hbk Hpays Htag Hfresh.
  destruct (fresh_entry t s s1 Hok ltac:(lia) Hst) as [Hin Hmemo].
  destruct Hok as [Hf Hmin Hmint Hper Hwin Hc Hm Hrl [Hsv Hnd Hpm Hpi Hpu Hps]].
  destruct Hst as [Hw Hk Hl Hp Htok Hmt Hts Hsur]. injection Hk as Hcf Hctr.
  assert (log s1 = log s) as Hlog by (unfold log; by rewrite Hw).
  assert (saved s1 = saved s) as Hsaved by (unfold saved; by rewrite Hl).
  assert (claim (W := W) (log s) t = refund t) as Hclaim.
  { by apply (first_step_books t (log s) _ (bookable_kind _ _ Hbk) (or_intror (conj Hin eq_refl))). }
  split; [congruence..|by rewrite Hp|by rewrite Hp|lia| |by rewrite Hl|].
  { rewrite Hlog, Hcf, Hctr. intros e He Hep. destruct (Hm e He Hep) as (i & Hi & Hmi).
    exists i. split; [lia|done]. }
  cbn [app] in *. rewrite Hsaved.
  assert (forall x, x ∈ t :: saved s -> x = t \/ x ∈ saved s) as Hcons by (intros x; apply elem_of_cons).
  split.
  - intros x Hx. destruct (Hcons x Hx) as [->|Hx'].
    + split; [congruence| |apply (bookable_fee _ _ Hbk)|by left].
      exists (TX_COUNTER s). split; [lia|done].
    + destruct (Hsv x Hx') as [Hxt (i & Hi & Hmi) Hxf Hxk]. split; [congruence| |done..].
      exists i. split; [lia|done].
  - apply NoDup_cons. split; [|done]. intros Hx. by apply (Hmemo t).
  - intros x y Hx Hy Hxy. destruct (Hcons x Hx) as [->|Hx'], (Hcons y Hy) as [->|Hy'];
      [done|by destruct (Hmemo y Hy')|by destruct (Hmemo x Hx')|by apply Hpm].
  - intros x y Hx Hy Htx Hxy. destruct (Hcons x Hx) as [->|Hx'], (Hcons y Hy) as [->|Hy']; [done| | |by apply Hpi].
    + by destruct (proj2 (Hfresh Htx) y Hy').
    + rewrite Hxy in Htx. by destruct (proj2 (Hfresh Htx) x Hx').
  - rewrite Hlog, Hcf. intros x e Hx Hsl He Hep. destruct (Hcons x Hx) as [->|Hx']; [|by apply Hpu].
    by apply (Hfresh (Htag Hsl)).
  - rewrite Hlog. cbn. lia.
Qed.

(** A new transfer keeps the books in order; it leaves the surplus as it was if its
    end is certain. *)
Definition keeps_books {A} (m : nat -> method st (result A PaymentError)) s : Prop :=
  exists r s', (forall x, m (transfer_fuel N_RETRIES + x)%nat s = Done r s') /\ books_ok [] s' /\
    (credits_succeed (B := B) -> (forall d, r <> Err (PE_Recoverable d)) -> surplus s' = surplus s).

Lemma transfer_books t s s1 :
  books_ok [] s -> TX_COUNTER s + 1 < 2 ^ 64 -> started t s s1 ->
  bookable (W := W) ledger_fee t -> ~ tagged (pays (W := W) t) ->
  (stages_left t = 1%nat -> tagged (interim_sub t)) ->
  (tagged (interim_sub t) -> fresh_interim t s) -> prompt t s ->
  exists r s', (forall x, transfer (transfer_fuel N_RETRIES + x) t N_RETRIES s1 = Done r s') /\
    books_ok [] s' /\
    (credits_succeed (B := B) -> (forall d, r <> Err (PE_Recoverable d)) -> surplus s' = surplus s).
Proof.
  intros Hok Hlt Hst Hbk Hpays Htag Hfresh Hprompt.
  pose proof (books_start t s s1 Hok Hlt Hst Hbk Hpays Htag Hfresh) as Hok1.
  destruct (fresh_entry t s s1 Hok ltac:(lia) Hst) as [Hin _].
  assert (log s1 = log s) as Hlog by (unfold log; by rewrite (started_world _ _ _ Hst)).
  pose proof (started_kept _ _ _ Hst) as Hk. injection Hk as Hcf _.
  destruct (run_first t (CTransfer t N_RETRIES) s1) as (r & s' & keep & Hrun & Hout & Hex & Hkeep).
  - right. by rewrite Hlog.
  - done.
  - rewrite Hcf. apply Hst.
  - unfold prompt. by rewrite (started_world _ _ _ Hst).
  - rewrite (started_time _ _ _ Hst), (started_world _ _ _ Hst).
    pose proof (books_window _ _ Hok). pose proof (books_period _ _ Hok). lia.
  - exists r, s'. split_and!.
    + intros x. apply (Hrun (transfer_fuel N_RETRIES + x)%nat), (fuel_ok _ t). auto.
    + apply (books_outcome t keep [] s1); [done..|].
      pose proof (run_ctl_frame (transfer_fuel N_RETRIES + 0) (CTransfer t N_RETRIES) s1) as Hf.
      rewrite Hrun in Hf; [done|]. apply (fuel_ok _ t). auto.
    + intros Hcs Hr. destruct keep as [k|].
      { destruct Hkeep as [d ->]; [done|]. by destruct (Hr d). }
      specialize (Hex Hcs). cbn in Hex. rewrite Hlog, (started_surplus _ _ _ Hst) in Hex.
      destruct (first_step_books t (log s) _ (bookable_kind _ _ Hbk) (or_intror (conj Hin eq_refl)))
        as (_ & _ & Hcl). rewrite Hcl in Hex by done. lia.
Qed.

Lemma is_main_main : is_main (W := W) (mk_account ic_id None) = true.
Proof. unfold is_main. by apply account_eqb_law. Qed.

Lemma account_eqb_comm a1 a2 : account_eqb a1 a2 = account_eqb a2 a1.
Proof.
  apply eq_true_iff_eq. rewrite !account_eqb_law. naive_solver.
Qed.

(** Interim accounts start with the bytes of [vfrc], the main one is all zeros. *)
Lemma interim_not_main t : is_main (W := W) (generate_interim_acc (W := W) t) = false.
Proof.
  apply not_true_iff_false. unfold is_main. rewrite account_eqb_law, !effective_subaccount_law.
  cbn. by intros [_ ?].
Qed.

Lemma plain_fee (cf : TokenConfiguration) a1 a2 :
  owner a1 <> owner (minting_account cf) -> owner a2 <> owner (minting_account cf) ->
  get_fee cf a1 a2 = cfg_fee cf.
Proof.
  intros H1' H2'. unfold get_fee.
  assert (account_eqb a1 (minting_account cf) = false) as ->
    by (apply not_true_iff_false; rewrite account_eqb_law; tauto).
  assert (account_eqb a2 (minting_account cf) = false) as ->
    by (apply not_true_iff_false; rewrite account_eqb_law; tauto). done.
Qed.

Lemma books_ok_counted s :
  books_ok [] s -> TX_COUNTER s + 1 < 2 ^ 64 ->
  books_ok [] (counted s) /\ kept (counted s) = (config s, TX_COUNTER s + 1).
Proof.
  intros [Hf Hmin Hmint Hper Hwin Hc Hm Hrl [Hsv ? ? ? ? ?]] Hlt.
  assert (TX_COUNTER (counted s) = TX_COUNTER s + 1) as Hctr.
  { unfold counted. cbn [TX_COUNTER]. apply Z.mod_small. lia. }
  split; [|unfold kept; by rewrite Hctr]. split; try done; rewrite ?Hctr; [lia| |].
  - intros e Hin He. destruct (Hm e Hin He) as (i & Hi & Hmi). exists i. split; [lia|done].
  - split; try done. intros t Ht. destruct (Hsv t Ht) as [? (i & Hi & Hmi) ? ?]. split; [done| |done..].
    exists i. rewrite Hctr. split; [lia|done].
Qed.

Lemma keeps_books_counted {A} (m : nat -> method st (result A PaymentError)) (e : PaymentError) s :
  books_ok [] s -> TX_COUNTER s + 1 < 2 ^ 64 ->
  (forall x, m (transfer_fuel N_RETRIES + x)%nat s = Done (Err e) (counted s)) -> keeps_books m s.
Proof.
  intros Hok Hlt Hm. destruct (books_ok_counted s Hok Hlt) as [Hok' Hk].
  by exists (Err e), (counted s).
Qed.

Lemma keeps_books_map {A C} (f : A -> C) (r : result A PaymentError) :
  (forall d, match r with Ok a => Ok (f a) | Err e => Err e end <> Err (PE_Recoverable d)) ->
  forall d, r <> Err (PE_Recoverable d).
Proof. intros Hr d ->. by destruct (Hr d). Qed.

(** The transfer of a deposit, of a withdrawal, of a deposit of everything that is in the
    account for deposits, is answered in time. *)
Definition deposit_in_time (caller : Principal) (amount : N) s : Prop :=
  forall sub, get_principal_subaccount caller = Ret sub ->
    prompt (deposit_transfer s caller sub amount) s.

Definition withdraw_in_time (caller : Principal) (amount : N) s : Prop :=
  prompt (withdrawal_transfer s caller amount) s.

Definition deposit_all_in_time (caller : Principal) s : Prop :=
  forall acc k w, get_deposit_interim_account caller = Ret acc ->
    call_icrc1_balance_of (world s) (cfg_principal (config s)) acc = (Ok k, w) ->
    deposit_in_time caller k (set_world s w).

(** A transfer in the state in which it starts. *)
Lemma started_counted t s b :
  books_ok [] s -> TX_COUNTER s + 1 < 2 ^ 64 -> token t = cfg_principal (config s) ->
  memo t = Some (memo_of_u64 (TX_COUNTER s)) -> created_at t = ic_time (world s) ->
  total b + refund t = total (balances (terminal s)) ->
  started t s (set_balances (counted s) b).
Proof.
  intros Hok Hlt ? ? ? Hb. destruct (books_ok_counted s Hok Hlt) as [_ Hk].
  split; try done. unfold surplus, assets, config. cbn. lia.
Qed.

(** A transfer that starts, and keeps the books in order as it runs. *)
Record starts t s s1 : Prop := {
  starts_started : started t s s1;
  starts_bookable : bookable (W := W) ledger_fee t;
  starts_pays : ~ tagged (pays (W := W) t);
  starts_interim : stages_left t = 1%nat -> tagged (interim_sub t);
  starts_fresh : tagged (interim_sub t) -> fresh_interim t s;
}.

Lemma deposit_starts (caller : Principal) (amount : N) sub s :
  get_principal_subaccount caller = Ret sub -> (length caller <= 31)%nat ->
  books_ok [] s -> TX_COUNTER s + 1 < 2 ^ 64 ->
  let t := deposit_transfer s caller sub amount in
  validate (W := W) t = Ok tt -> starts t s (counted s).
Proof.
  intros Hsub Hlen Hok Hlt t Hv. rewrite (get_principal_subaccount_Ret caller Hlen) in Hsub.
  injection Hsub as Hsub.
  assert (fee t = ledger_fee) as Hfee.
  { cbn. rewrite plain_fee; [apply (books_fee _ _ Hok)|..]; rewrite ?account_of_principal_law;
      apply not_eq_sym, (books_minter _ _ Hok). }
  assert (account_eqb (mk_account ic_id sub) (mk_account ic_id None) = false) as Hne.
  { unfold validate in Hv. rewrite <- (account_of_principal_law ic_id).
    change (mk_account ic_id sub) with (from_acc (W := W) t).
    change (account_of_principal ic_id) with (to_acc t). by destruct (account_eqb _ _). }
  split.
  - destruct (books_ok_counted s Hok Hlt) as [_ Hk]. split; try done. unfold refund.
    rewrite decide_False by done. change (surplus (counted s)) with (surplus s). lia.
  - split; [done..|left|].
    + split_and!; [done..|].
      unfold effect, entry_of, transfer_arg, to, from. cbn [fst snd arg_to arg_from_subaccount arg_amount].
      rewrite decide_True by done. cbn [ttype t deposit_transfer with_memo with_operation transfer_new
        Payments.ttype Payments.to_acc subaccount from_acc from_sub].
      rewrite account_of_principal_law, is_main_main. unfold is_main. rewrite Hne. lia.
    + split; apply (plain_own [] s); try done. cbn. by rewrite account_of_principal_law.
  - intros (y & Hy & Hhead). change (pays t) with sub in Hy. subst sub. injection Hy as <-. cbn in Hhead.
    injection Hhead as Hhead. unfold zlength in Hhead. lia.
  - done.
  - by intros (y & Hy & _).
Qed.

Lemma withdraw_starts (caller : Principal) (amount : N) s k b' :
  caller <> owner (minting_account (config s)) -> fresh_interim (withdrawal_transfer s caller amount) s ->
  books_ok [] s -> TX_COUNTER s + 1 < 2 ^ 64 ->
  let t := withdrawal_transfer s caller amount in
  validate (W := W) t = Ok tt -> bal_debit (balances (terminal s)) caller amount = (Ok k, b') ->
  starts t s (set_balances (counted s) b').
Proof.
  intros Hcaller Hfresh Hok Hlt t Hv Hd.
  pose proof (debit_total (balances (terminal s)) caller amount) as Hdeb. rewrite Hd in Hdeb. cbn in Hdeb.
  assert (fee t = ledger_fee) as Hfee.
  { cbn. rewrite plain_fee; [apply (books_fee _ _ Hok)|..]; rewrite ?account_of_principal_law;
      [apply not_eq_sym, (books_minter _ _ Hok)|done]. }
  set (acc := generate_interim_acc (W := W) (transfer_new (world s) (config s) caller
    (account_of_principal caller) None amount)).
  assert (ttype t = DoubleStep First acc) as Hty by done.
  assert (is_main (W := W) acc = false) as Hacc by apply interim_not_main.
  assert (account_eqb (mk_account ic_id None) (account_of_principal caller) = false /\
    (fee t * 2 < Payments.amount t)%N) as [Hne Hlt2].
  { unfold validate, final_amount, effective_fee in Hv. rewrite Hty in Hv.
    change (mk_account ic_id None) with (from_acc (W := W) t).
    change (account_of_principal caller) with (to_acc t). destruct (account_eqb _ _); [done|].
    by destruct (N.ltb_spec (fee t * 2) (Payments.amount t)). }
  split.
  - apply started_counted; try done. unfold refund. rewrite decide_True by done.
    change (Payments.amount t) with amount. lia.
  - split; [done..|right|].
    + split_and!; [|done|].
      { exists acc. split_and!; [done|done|exact Hacc| |].
        - unfold is_main. by rewrite account_eqb_comm.
        - apply plain_other; [apply (books_minting _ _ Hok)|]. cbn. by rewrite account_of_principal_law. }
      unfold effect, entry_of, transfer_arg, to, from. rewrite Hty.
      cbn [fst snd arg_to arg_from_subaccount arg_amount arg_fee]. rewrite decide_True, Hacc by done.
      change (mk_account ic_id (subaccount (from_acc t))) with (mk_account ic_id None).
      rewrite is_main_main, amount_minus_fee_eq. change (default 0%N (Some (fee t))) with (fee t). lia.
    + split; apply (plain_own [] s); done.
  - by intros (y & Hy & _).
  - intros _. by eexists.
  - done.
Qed.

Lemma deposit_books (caller : Principal) (amount : N) s :
  (length caller <= 31)%nat -> books_ok [] s -> TX_COUNTER s + 1 < 2 ^ 64 ->
  deposit_in_time caller amount s ->
  keeps_books (fun fuel => deposit fuel caller amount) s.
Proof.
  intros Hlen Hok Hlt Hin. pose proof (get_principal_subaccount_Ret caller Hlen) as Hsub.
  set (sub := Some ((zlength caller :: caller) ++ replicate (31 - length caller) 0)) in Hsub.
  set (t := deposit_transfer s caller sub amount).
  pose proof (fun fuel => deposit_eq fuel caller amount sub s Hsub) as Hdep.
  cbn zeta in Hdep. fold t in Hdep.
  destruct (final_amount t) as [a|e] eqn:Hfa; [|by apply (keeps_books_counted _ _ s Hok Hlt (fun x => Hdep _))].
  destruct (validate t) as [[]|e] eqn:Hv.
  2: { apply (keeps_books_counted _ (PaymentError_from_internal e) s Hok Hlt). intros x.
       by rewrite Hdep, ask_eq, (transfer_invalid t N_RETRIES _ e Hv). }
  destruct (deposit_starts caller amount sub s Hsub Hlen Hok Hlt Hv).
  destruct (transfer_books t s (counted s)) as (r & s' & Hrun & Hok' & Hsame); [done..|by apply Hin|].
  exists (match r with Ok tx => Ok (tx, a) | Err e => Err e end), s'. split_and!; [|done|].
  - intros x. rewrite Hdep, ask_eq, Hrun. by destruct r.
  - intros Hcs Hr. apply Hsame; [done|]. by apply (keeps_books_map (fun tx => (tx, a))).
Qed.

(** A debit that failed changes nothing. *)
Lemma undebited_books s b x caller amount :
  books_ok [] s -> bal_debit (balances (terminal s)) caller amount = (Err x, b) ->
  books_ok [] (set_balances s b) /\ surplus (set_balances s b) = surplus s.
Proof.
  intros Hok Hd. pose proof (debit_total (balances (terminal s)) caller amount) as Hdeb.
  rewrite Hd in Hdeb. cbn in Hdeb.
  assert (surplus (set_balances s b) = surplus s) as Hs by (unfold surplus; cbn; by rewrite Hdeb).
  split; [|done]. destruct Hok as [? ? ? ? ? ? ? ? [Hsv ? ? ? ? Hps]]. split; try done.
  split; try done; [|by rewrite Hs]. intros t' Ht'. destruct (Hsv t' Ht'). by split.
Qed.

Lemma withdraw_books (caller : Principal) (amount : N) s :
  caller <> owner (minting_account (config s)) -> fresh_interim (withdrawal_transfer s caller amount) s ->
  books_ok [] s -> TX_COUNTER s + 1 < 2 ^ 64 -> withdraw_in_time caller amount s ->
  keeps_books (fun fuel => withdraw fuel caller amount) s.
Proof.
  intros Hcaller Hfresh Hok Hlt Hin. set (t := withdrawal_transfer s caller amount) in *.
  pose proof (fun fuel => withdraw_eq fuel caller amount s) as Hwd. cbn zeta in Hwd. fold t in Hwd.
  destruct (validate t) as [[]|e] eqn:Hv; [|by apply (keeps_books_counted _ _ s Hok Hlt (fun x => Hwd _))].
  destruct (final_amount t) as [a|e] eqn:Hfa; [|by apply (keeps_books_counted _ _ s Hok Hlt (fun x => Hwd _))].
  destruct (books_ok_counted s Hok Hlt) as [Hokc Hk].
  destruct (bal_debit (balances (terminal s)) caller amount) as [[k|x] b'] eqn:Hd.
  2: { destruct (undebited_books (counted s) b' x caller amount Hokc Hd) as [Hok' Hs].
       eexists _, _. split; [intros x'; apply Hwd|]. by split. }
  destruct (withdraw_starts caller amount s k b' Hcaller Hfresh Hok Hlt Hv Hd).
  destruct (transfer_books t s (set_balances (counted s) b')) as (r & s' & Hrun & Hok' & Hsame); [done..|].
  exists (match r with Ok tx => Ok (tx, a) | Err e => Err e end), s'. split_and!; [|done|].
  - intros x. rewrite Hwd, ask_eq, Hrun. by destruct r.
  - intros Hcs Hr. apply Hsame; [done|]. by apply (keeps_books_map (fun tx => (tx, a))).
Qed.

Lemma surplus_world s w : ledger_log w = log s -> surplus (set_world s w) = surplus s.
Proof. intros Hw. unfold surplus, assets. cbn. by rewrite Hw. Qed.

Lemma deposit_all_books (caller : Principal) s :
  (length caller <= 31)%nat -> books_ok [] s -> TX_COUNTER s + 1 < 2 ^ 64 ->
  deposit_all_in_time caller s -> keeps_books (fun fuel => deposit_all fuel caller) s.
Proof.
  intros Hlen Hok Hlt Hin.
  unfold deposit_all_in_time, keeps_books, deposit_all, get_deposit_interim_account in *.
  rewrite (get_principal_subaccount_Ret caller Hlen) in *. setoid_rewrite bind_eq. cbn [mbind outcome_bind].
  setoid_rewrite of_outcome_Ret. setoid_rewrite bind_eq. unfold get. setoid_rewrite ask_eq.
  unfold get_icrc1_balance. setoid_rewrite in_world_Done.
  destruct (call_icrc1_balance_of (world s) _ _) as [[k|c] w] eqn:Hbal; cbn [fst snd from_rejection map_err];
    pose proof (books_ok_world _ s w (balance_of_log _ _ _ _ _ Hbal) Hok) as Hok1;
    pose proof (surplus_world s w (balance_of_log _ _ _ _ _ Hbal)) as Hs1.
  - destruct (deposit_books caller k (set_world s w) Hlen Hok1 Hlt (Hin _ k w eq_refl Hbal)) as (r & s' & Hrun & Hok' & Hs').
    exists r, s'. split_and!; [done..|]. intros Hcs Hr. by rewrite Hs', Hs1.
  - eexists _, _. split; [done|]. split; [done|]. by intros _ _.
Qed.

(** *** Any order of messages *)

(** What reaches the terminal, or happens outside of it. *)
Inductive message :=
  | Deposit (caller : Principal) (amount : N)
  | DepositAll (caller : Principal)
  | Withdraw (caller : Principal) (amount : N)
  | RecoverAll
  | Outside (w : W).

(** A caller is no longer than a principal can be; the counter of the transfers does not
    wrap around; withdrawals are not made by the minter, and their interim account was
    not used before; the ledger answers the attempts of a first step, or of a deposit,
    within five minutes; outside, it executes no transfer of the canister. *)
Inductive handled : message -> st -> st -> Prop :=
  | handled_deposit caller amount s r s' :
      (length caller <= 31)%nat -> TX_COUNTER s + 1 < 2 ^ 64 -> deposit_in_time caller amount s ->
      (forall x, deposit (transfer_fuel N_RETRIES + x) caller amount s = Done r s') ->
      handled (Deposit caller amount) s s'
  | handled_deposit_all caller s r s' :
      (length caller <= 31)%nat -> TX_COUNTER s + 1 < 2 ^ 64 -> deposit_all_in_time caller s ->
      (forall x, deposit_all (transfer_fuel N_RETRIES + x) caller s = Done r s') ->
      handled (DepositAll caller) s s'
  | handled_withdraw caller amount s r s' :
      caller <> owner (minting_account (config s)) ->
      fresh_interim (withdrawal_transfer s caller amount) s -> TX_COUNTER s + 1 < 2 ^ 64 ->
      withdraw_in_time caller amount s ->
      (forall x, withdraw (transfer_fuel N_RETRIES + x) caller amount s = Done r s') ->
      handled (Withdraw caller amount) s s'
  | handled_recover_all s rs s' :
      recover_all_in_time s ->
      (forall x, recover_all (transfer_fuel N_RETRIES + x) s = Done rs s') ->
      handled RecoverAll s s'
  | handled_outside w s :
      ledger_log w = log s -> handled (Outside w) s (set_world s w).

Inductive session : list message -> st -> st -> Prop :=
  | session_nil s : session [] s s
  | session_cons m ms s s1 s' : handled m s s1 -> session ms s1 s' -> session (m :: ms) s s'.

Lemma handled_books m s s' : handled m s s' -> books_ok [] s -> books_ok [] s'.
Proof.
  intros Hm Hok. destruct Hm as [caller amount s r s' Hlen Hlt Hin Hrun|caller s r s' Hlen Hlt Hin Hrun
    |caller amount s r s' Hc Hfr Hlt Hin Hrun|s rs s' Hin Hrun|w s Hw].
  - destruct (deposit_books caller amount s Hlen Hok Hlt Hin) as (r' & s2 & Hrun' & Hok' & _).
    specialize (Hrun' 0%nat). rewrite Hrun in Hrun'. by injection Hrun' as _ <-.
  - destruct (deposit_all_books caller s Hlen Hok Hlt Hin) as (r' & s2 & Hrun' & Hok' & _).
    specialize (Hrun' 0%nat). rewrite Hrun in Hrun'. by injection Hrun' as _ <-.
  - destruct (withdraw_books caller amount s Hc Hfr Hok Hlt Hin) as (r' & s2 & Hrun' & Hok' & _).
    specialize (Hrun' 0%nat). rewrite Hrun in Hrun'. by injection Hrun' as _ <-.
  - destruct (recover_all_books s Hok Hin) as (rs' & s2 & Hrun' & Hok').
    specialize (Hrun' 0%nat). rewrite Hrun in Hrun'. by injection Hrun' as _ <-.
  - by apply books_ok_world.
Qed.

(** C2: The canister is solvent, whatever messages it handles in whatever order:
    what its users can claim, as balances and as transfers that wait for recovery,
    never exceeds what the ledger holds for it.  The ledger behaves as documented and
    its fee is constant; answers may get lost and the balances may refuse credits.  As
    [handled] says, callers have principals of at most 31 bytes, a withdrawal is not
    made by the minter and its interim account is fresh, the counter of the transfers
    does not wrap around, and each attempt of a first step is answered within five
    minutes. *)
Theorem books_solvent ms s s' :
  books_ok [] s -> session ms s s' ->
  books_ok [] s' /\
  total (balances (terminal s')) + claims (W := W) (log s') (saved s') <= assets s'.
Proof.
  intros Hok Hms. assert (books_ok [] s') as Hok'.
  { revert Hok. induction Hms as [s|m ms s s1 s' Hm _ IH]; [done|]. intros Hok.
    apply IH. by apply (handled_books m s). }
  split; [done|]. pose proof (pool_surplus _ _ _ (books_pool _ _ Hok')) as Hs. cbn [app] in Hs.
  unfold surplus in Hs. lia.
Qed.

(** C10: A deposit or a withdrawal always ends; if it is not left for recovery, and
    crediting never fails, it changes the total of the balances by exactly what it moved
    on the ledger, although answers of the ledger may have been lost on the way.  The
    conditions are those of [handled]: a counter that does not wrap around, attempts that
    are answered in time, and for a withdrawal a caller that is not the minter and a
    fresh interim account. *)
Theorem books_exact (caller : Principal) (amount : N) s :
  books_ok [] s -> TX_COUNTER s + 1 < 2 ^ 64 -> credits_succeed (B := B) ->
  ((length caller <= 31)%nat -> deposit_in_time caller amount s ->
   exists r s', (forall x, deposit (transfer_fuel N_RETRIES + x) caller amount s = Done r s') /\
     ((forall d, r <> Err (PE_Recoverable d)) ->
      total (balances (terminal s')) - total (balances (terminal s)) = assets s' - assets s)) /\
  (caller <> owner (minting_account (config s)) ->
   fresh_interim (withdrawal_transfer s caller amount) s -> withdraw_in_time caller amount s ->
   exists r s', (forall x, withdraw (transfer_fuel N_RETRIES + x) caller amount s = Done r s') /\
     ((forall d, r <> Err (PE_Recoverable d)) ->
      total (balances (terminal s')) - total (balances (terminal s)) = assets s' - assets s)).
Proof.
  intros Hok Hlt Hcs. split.
  - intros Hlen Hin. destruct (deposit_books caller amount s Hlen Hok Hlt Hin) as (r & s' & Hrun & _ & Hs).
    exists r, s'. split; [done|]. intros Hr. specialize (Hs Hcs Hr). unfold surplus in Hs. lia.
  - intros Hc Hfr Hin. destruct (withdraw_books caller amount s Hc Hfr Hok Hlt Hin) as (r & s' & Hrun & _ & Hs).
    exists r, s'. split; [done|]. intros Hr. specialize (Hs Hcs Hr). unfold surplus in Hs. lia.
Qed.
End operations.

(** ** A ledger *)

(** What happens to a call: it is answered, its answer is lost, or it does not
    arrive. *)
Inductive delivery := Answered | AnswerLost | NotDelivered.

Record ledger := mk_ledger {
  ledger_time : Z;
  executed_transfers : list entry;
  funds : list (Account * N);
  deliveries : list delivery;
}.

Definition funded (a : Account) (l : list (Account * N)) : N :=
  foldr (fun e n => if account_eqb e.1 a then (e.2 + n)%N else n) 0%N l.

Definition own_id : Principal := [7; 7].

Definition ledger_balance (fee : N) (p : Principal) (a : Account) (g : ledger) : N :=
  (received p a (executed_transfers g) + funded a (funds g) -
   spent fee own_id p a (executed_transfers g))%N.

(** The checks of an ICRC-1 ledger, the fee first; a transfer is known for
    [DEFAULT_DEDUP_PERIOD]. *)
Definition ledger_answer (fee : N) (p : Principal) (a : TransferArg) (g : ledger) :
    result TxId TransferError :=
  if decide (arg_fee a <> Some fee) then Err (BadFee fee)
  else if decide (default (ledger_time g) (arg_created_at_time a) + DEFAULT_DEDUP_PERIOD <= ledger_time g)
  then Err TooOld
  else if decide ((p, a) ∈ executed_transfers g) then Err (Duplicate 1)
  else if decide (ledger_balance fee p (mk_account own_id (arg_from_subaccount a)) g <
                  arg_amount a + fee)%N
  then Err (InsufficientFunds (ledger_balance fee p (mk_account own_id (arg_from_subaccount a)) g))
  else Ok (N.of_nat (length (executed_transfers g))).

Definition ledger_call (fee_at : Z -> N) (g : ledger) (p : Principal) (a : TransferArg) :
    result (result TxId TransferError) rejection * ledger :=
  let answer := ledger_answer (fee_at (ledger_time g)) p a g in
  let l := match answer with
           | Ok _ => executed_transfers g ++ [(p, a)]
           | Err _ => executed_transfers g
           end in
  let after l := mk_ledger (ledger_time g + 1) l (funds g) (tail (deliveries g)) in
  match deliveries g with
  | NotDelivered :: _ => (Err (SysTransient, EmptyString), after (executed_transfers g))
  | AnswerLost :: _ => (Err (UnknownCode, EmptyString), after l)
  | _ => (Ok answer, after l)
  end.

Definition ledger_world (fee_at : Z -> N) : World ledger := {|
  ic_id := own_id;
  ic_time := ledger_time;
  call_icrc1_transfer := ledger_call fee_at;
  call_icrc1_balance_of g p a := (Ok (ledger_balance (fee_at (ledger_time g)) p a g), g);
  call_icrc1_fee g p := (Ok (fee_at (ledger_time g)), g);
  call_icrc1_minting_account g p := (Ok (Some minter), g);
|}.

#[export] Instance ledger_spec : LedgerSpec ledger := {|
  ledger_log := executed_transfers; ledger_minter _ := Some minter |}.

Section constant_fee.
#[local] Instance constant_world : World ledger := ledger_world (fun _ => 10%N).

#[local] Instance ledger_laws : LedgerLaws ledger 10 DEFAULT_DEDUP_PERIOD.
Proof.
  split.
  - intros g p a tx g' Hc. cbn in Hc. unfold ledger_call in Hc.
    destruct (deliveries g) as [|[] ?], (ledger_answer 10 p a g) as [n|[]]; by simplify_eq.
  - intros g p a e g' Hc. cbn in Hc. unfold ledger_call in Hc.
    destruct (deliveries g) as [|[] ?], (ledger_answer 10 p a g) as [n|[]]; by simplify_eq.
  - intros g p a tx g' Hc. cbn in Hc. unfold ledger_call, ledger_answer in Hc.
    destruct (deliveries g) as [|[] ?]; repeat case_decide; by simplify_eq.
  - intros g p a f g' Hc. cbn in Hc. unfold ledger_call, ledger_answer in Hc.
    destruct (deliveries g) as [|[] ?]; repeat case_decide; by simplify_eq.
  - intros g p a c m g' Hc. cbn in Hc. unfold ledger_call in Hc.
    destruct (deliveries g) as [|[] ?], (ledger_answer 10 p a g) as [n|e]; simplify_eq; cbn; eauto.
  - intros g p a ts r g' Hin _ Hts Hfee Hc Ht. cbn in Hc, Ht, Hin. unfold ledger_call in Hc.
    assert (ledger_answer 10 p a g = Err (Duplicate 1)) as Ha.
    { assert (ledger_time g' = ledger_time g + 1) as Htime
        by (destruct (deliveries g) as [|[] ?]; by simplify_eq).
      unfold ledger_answer. rewrite Hts. rewrite decide_False by (intros Hn; by apply Hn). cbn.
      rewrite decide_False by lia. by rewrite decide_True. }
    rewrite Ha in Hc. destruct (deliveries g) as [|[] ?]; by simplify_eq.
  - intros g p a r g' Hc. cbn in Hc. by simplify_eq.
  - intros g p a k g' [= <- _] _ _. change (ledger_log g) with (executed_transfers g).
    unfold ledger_balance. change ic_id with own_id. lia.
Qed.
End constant_fee.

(** What all users own. *)
Definition total_balances (b : gmap Principal N) : Z := map_fold (fun _ v n => Z.of_N v + n) 0 b.

Lemma total_insert (b : gmap Principal N) p v :
  total_balances (<[p := v]> b) = total_balances b - Z.of_N (default 0%N (b !! p)) + Z.of_N v.
Proof.
  assert (forall (b : gmap Principal N) v, b !! p = None ->
    total_balances (<[p := v]> b) = Z.of_N v + total_balances b) as Hnew.
  { intros b' v' Hn. unfold total_balances. rewrite map_fold_insert_L; [done| |done].
    intros. lia. }
  destruct (b !! p) as [u|] eqn:Hp; cbn; [|rewrite Hnew by done; lia].
  rewrite <-(insert_id b p u Hp) at 2. rewrite <-!(insert_delete_eq b p).
  rewrite !Hnew by apply lookup_delete_eq. lia.
Qed.

#[export] Instance map_balances_laws : BalancesLaws (gmap Principal N).
Proof.
  refine {| total := total_balances |}; intros b p a; cbn.
  - rewrite total_insert. destruct (b !! p); cbn; lia.
  - destruct (N.ltb_spec (default 0%N (b !! p)) a); cbn; [done|].
    rewrite total_insert. destruct (b !! p); cbn in *; lia.
Defined.

Lemma map_credits_succeed : credits_succeed (B := gmap Principal N).
Proof. intros b p a. cbn. eauto. Qed.

(** A new canister: no user owns anything, nothing was transferred, and alice sent
    1000 to the account for her deposits. *)
Definition alice_deposits : Account :=
  mk_account own_id (Some ((2 :: alice) ++ replicate 29 0)).
Definition new_canister (ds : list delivery) : state (gmap Principal N) recovery ledger :=
  mk_state (new_with_recovery_list (mk_config token_canister 10 minter) ∅ empty_recovery) 0
    (mk_ledger 100 [] [(alice_deposits, 1000%N)] ds).

(** The states of its sessions: what alice owns, the transfers that wait for recovery,
    the counter and the ledger. *)
Definition canister_after (fee left : N) (r : recovery) (counter : Z) (g : ledger) :
    state (gmap Principal N) recovery ledger :=
  mk_state (new_with_recovery_list (mk_config token_canister fee minter) {[ alice := left ]} r)
    counter g.

Definition ledger_after (time : Z) (l : list entry) (ds : list delivery) : ledger :=
  mk_ledger time l [(alice_deposits, 1000%N)] ds.

Definition moved (from : option Subaccount) (to : Account) (amount fee : N) (counter created : Z) :
    entry :=
  (token_canister, mk_arg from to amount (Some fee) (Some (memo_of_u64 counter)) (Some created)).

Definition first_deposit : entry :=
  moved (subaccount alice_deposits) (mk_account own_id None) 490 10 0 100.

(** The interim account of a withdrawal of alice that was created at [t] < 256. *)
Definition interim (t : Z) : Subaccount :=
  [118; 102; 114; 99] ++ replicate 7 0 ++ [t] ++ token_canister ++ replicate 15 0 ++ [200; 0].

Section solvent_canister.
#[local] Instance fixed_world : World ledger := ledger_world (fun _ => 10%N).
#[local] Instance fixed_laws : LedgerLaws ledger 10 DEFAULT_DEDUP_PERIOD := ledger_laws.

Lemma concrete_memo_inj i j :
  0 <= i < 2 ^ 64 -> 0 <= j < 2 ^ 64 -> memo_of_u64 i = memo_of_u64 j -> i = j.
Proof.
  intros Hi Hj Hm. apply (f_equal (fun bs => from_le_bytes (rev bs))) in Hm.
  unfold memo_of_u64, concrete_payment_lib in Hm. rewrite !rev_involutive in Hm.
  by rewrite !from_to_le_bytes in Hm.
Qed.

Lemma new_canister_books ds : books_ok 10 DEFAULT_DEDUP_PERIOD [] (new_canister ds).
Proof.
  assert (forall t, t ∉ saved (new_canister ds)) as Hnil by (intros t; apply not_elem_of_nil).
  split.
  - done.
  - done.
  - done.
  - by_compute.
  - by_compute.
  - done.
  - intros e He. by apply not_elem_of_nil in He.
  - done.
  - split; try (intros t; intros; by destruct (Hnil t)); [constructor|by_compute].
Qed.

(** An answer is lost in the deposit, all of them in the withdrawal, whose first step
    was executed. *)
Definition busy_start := new_canister [AnswerLost; Answered; AnswerLost; AnswerLost; AnswerLost].
Definition busy_deposited :=
  canister_after 10 490 empty_recovery 1
    (ledger_after 102 [first_deposit] [AnswerLost; AnswerLost; AnswerLost]).

Definition interim_withdrawal : entry := moved None (mk_account own_id (Some (interim 102))) 190 10 1 102.
Definition waiting : Transfer :=
  mk_transfer token_canister alice None (mk_account alice None) 200 10 CreditOnError
    (DoubleStep First (mk_account own_id (Some (interim 102)))) 102 (Some (memo_of_u64 1)).
Definition busy_withdrawn :=
  canister_after 10 290 (rl_push empty_recovery waiting) 2
    (ledger_after 105 [first_deposit; interim_withdrawal] []).

Definition busy_recovered :=
  canister_after 10 290 (rl_take_all (rl_push empty_recovery waiting)).2 2
    (ledger_after 107 [first_deposit; interim_withdrawal;
                       moved (Some (interim 102)) (mk_account alice None) 180 10 1 106] []).
Definition busy_results : list (result (TxId * Transfer) PaymentError) := [Ok (2%N, waiting)].

Lemma busy_deposit : handled (Deposit alice 500) busy_start busy_deposited.
Proof.
  apply (handled_deposit _ _ _ (Ok (1%N, 490%N))); [cbn; lia|by_compute| |].
  { intros sub [= <-]. by vm_compute. }
  intros x. vm_cast_no_check (@eq_refl (run _ (result (TxId * N) PaymentError))
    (Done (Ok (1%N, 490%N)) busy_deposited)).
Qed.

Lemma busy_withdraw : handled (Withdraw alice 200) busy_deposited busy_withdrawn.
Proof.
  apply (handled_withdraw _ _ _ (Err (PE_Recoverable IcError))); [by_compute| |by_compute|by vm_compute|].
  { split; vm_compute; [|by intros x ?%not_elem_of_nil].
    intros e He _. apply list_elem_of_singleton in He as ->. done. }
  intros x. vm_cast_no_check (@eq_refl (run _ (result (TxId * N) PaymentError))
    (Done (Err (PE_Recoverable IcError)) busy_withdrawn)).
Qed.

Lemma busy_session :
  session (B := gmap Principal N) (R := recovery) [Deposit alice 500; Withdraw alice 200; RecoverAll]
    busy_start busy_recovered.
Proof.
  apply (session_cons _ _ _ busy_deposited), (session_cons _ _ _ busy_withdrawn),
    (session_cons _ _ _ busy_recovered), session_nil; [apply busy_deposit|apply busy_withdraw|].
  apply (handled_recover_all _ busy_results); [by vm_compute|].
  intros x. vm_cast_no_check (@eq_refl (run _ _) (Done busy_results busy_recovered)).
Qed.

Lemma busy_books : books_ok 10 DEFAULT_DEDUP_PERIOD [] busy_withdrawn.
Proof.
  eapply (handled_books 10 DEFAULT_DEDUP_PERIOD concrete_memo_inj); [apply busy_withdraw|].
  eapply (handled_books 10 DEFAULT_DEDUP_PERIOD concrete_memo_inj); [apply busy_deposit|].
  apply new_canister_books.
Qed.

(** Alice deposited 490, 290 are left to her; the withdrawal, which has moved to its
    interim account, is finished by the recovery. *)
Lemma books_solvent_witness :
  total (balances (terminal busy_recovered)) = 290 /\
  books_ok 10 DEFAULT_DEDUP_PERIOD [] busy_recovered /\
  total (balances (terminal busy_recovered)) +
    claims (W := ledger) (log busy_recovered) (saved busy_recovered) <= assets busy_recovered.
Proof.
  split; [by vm_compute|].
  eapply (books_solvent 10 DEFAULT_DEDUP_PERIOD concrete_memo_inj);
    [apply new_canister_books|apply busy_session].
Defined.

(** Alice's deposit, and then two answers to her withdrawal, of which one is lost. *)
Definition calm_start := new_canister [Answered; Answered; AnswerLost].
Definition calm_deposited :=
  canister_after 10 490 empty_recovery 1 (ledger_after 101 [first_deposit] [Answered; AnswerLost]).

Lemma calm_books : books_ok 10 DEFAULT_DEDUP_PERIOD [] calm_deposited.
Proof.
  eapply (handled_books 10 DEFAULT_DEDUP_PERIOD concrete_memo_inj); [|apply new_canister_books].
  apply (handled_deposit alice 500 calm_start (Ok (0%N, 490%N)) calm_deposited); [cbn; lia|by_compute| |].
  { intros sub [= <-]. by vm_compute. }
  intros x. vm_cast_no_check (@eq_refl (run _ (result (TxId * N) PaymentError))
    (Done (Ok (0%N, 490%N)) calm_deposited)).
Qed.

Lemma books_exact_witness :
  exists s', withdraw (transfer_fuel N_RETRIES) alice 200 calm_deposited = Done (Ok (1%N, 180%N)) s' /\
    total (balances (terminal s')) - 490 = assets s' - 490.
Proof.
  destruct (books_exact 10 DEFAULT_DEDUP_PERIOD concrete_memo_inj alice 200 calm_deposited)
    as [_ Hw]; [apply calm_books|by_compute|exact map_credits_succeed|].
  destruct Hw as (r & s' & Hrun & Hs); [done| |by vm_compute|].
  { split; vm_compute; [|by intros x ?%not_elem_of_nil].
    intros e He _. apply list_elem_of_singleton in He as ->. done. }
  assert (match withdraw (transfer_fuel N_RETRIES + 0) alice 200 calm_deposited with
          | Done r _ => r = Ok (1%N, 180%N) | _ => False end) as Hr by by vm_compute.
  rewrite Hrun in Hr. subst r. exists s'. split; [exact (Hrun 0%nat)|]. by apply Hs.
Defined.
End solvent_canister.

(** If the fee changes in between, the ledger does not recognise the repeated
    transfer: the answer to the first step of a withdrawal is lost, the fee rises
    from 10 to 15, and the first step is executed again with the new fee.  Alice is
    debited 200, the main account pays 400, of which 190 stay in the interim account;
    the canister does not hold any more what it owes her. *)
Definition risen_deposited :=
  canister_after 10 490 empty_recovery 1 (ledger_after 101 [first_deposit] [AnswerLost]).
Definition risen_withdrawn :=
  canister_after 15 290 (rl_take_all empty_recovery).2 2
    (ledger_after 105
       [first_deposit;
        moved None (mk_account own_id (Some (interim 101))) 190 10 1 101;
        moved None (mk_account own_id (Some (interim 101))) 185 15 1 101;
        moved (Some (interim 101)) (mk_account alice None) 170 15 1 104] []).

Theorem withdrawal_moved_twice :
  let _ := ledger_world (fun t => if t <? 102 then 10%N else 15%N) in
  deposit (transfer_fuel N_RETRIES) alice 500 (new_canister [Answered; AnswerLost]) =
    Done (Ok (0%N, 490%N)) risen_deposited /\
  withdraw (transfer_fuel N_RETRIES) alice 200 risen_deposited = Done (Ok (3%N, 180%N)) risen_withdrawn /\
  (total (balances (terminal risen_deposited)) = 490 /\ assets risen_deposited = 490) /\
  (total (balances (terminal risen_withdrawn)) = 290 /\ assets risen_withdrawn = 90).
Proof.
  intros w. split_and!.
  - vm_cast_no_check (@eq_refl (run _ (result (TxId * N) PaymentError))
      (Done (Ok (0%N, 490%N)) risen_deposited)).
  - vm_cast_no_check (@eq_refl (run _ (result (TxId * N) PaymentError))
      (Done (Ok (3%N, 180%N)) risen_withdrawn)).
  - by vm_compute.
  - by vm_compute.
  - by vm_compute.
  - by vm_compute.
Qed.
