(* ===== verification/BooksLive.v ===== *)
(** * Recovery settles what is waiting

    As soon as the ledger serves the canister again - it answers, promptly, and refuses
    no transfer that is in order, that it does not know and that the paying account can
    afford - one [recover_all] finishes the transfers that wait for recovery: the only
    ones that are saved again are those whose interim account does not hold what the
    second step takes from it ([recovery_settles]). *)

From S2P Require Import Prelude StableLib Concrete StableStorage Payments RecoveryList Terminal.
From S2P Require Import TerminalProofs TerminalTrace TerminalConcrete TerminalProps Books BooksPool BooksProps.
Local Open Scope Z_scope.

(** A ledger in a [good] state stays in one; it answers every call, within five minutes,
    and is not busy.  A transfer between plain accounts that has its fee, and is neither
    from the future nor too old when the answer arrives, is executed, unless it is known
    or the paying account holds only [k], which is too little: what it received from the
    canister, less what the canister spent of it, is not more than that. *)
Record serving {W : Type} `{PaymentLib, World W, !LedgerSpec W} (ledger_fee : N) (window : Z)
    (good : W -> Prop) : Prop := {
  serving_transfer w p a r w' : good w -> call_icrc1_transfer w p a = (r, w') ->
    good w' /\ ic_time w <= ic_time w' < ic_time w + TX_WINDOW /\
    exists x, r = Ok x /\ x <> Err TemporarilyUnavailable /\
      (plain_entry W (p, a) -> arg_fee a = Some ledger_fee ->
       (exists ts, arg_created_at_time a = Some ts /\ ts <= ic_time w /\ ic_time w' < ts + window) ->
       (exists tx, x = Ok tx) \/ (p, a) ∈ ledger_log w \/
       exists k, x = Err (InsufficientFunds k) /\ (k < arg_amount a + ledger_fee)%N /\
         let payer := mk_account ic_id (arg_from_subaccount a) in
         (received p payer (ledger_log w) <= k + spent ledger_fee ic_id p payer (ledger_log w))%N);
  serving_balance w p acc r w' : good w -> call_icrc1_balance_of w p acc = (r, w') ->
    good w' /\ ic_time w <= ic_time w' /\ exists k, r = Ok k;
}.

Section settles.
Context {B R W : Type} `{PaymentLib, !PaymentLibLaws, World W, Balances B, !BalancesLaws B}.
Context `{RecoveryList R, !RecoveryListLaws R, !LedgerSpec W, Target}.
Context (ledger_fee : N) (window : Z) `{!LedgerLaws W ledger_fee window}.
Context (good : W -> Prop) (Hgood : serving ledger_fee window good).
Notation st := (state B R W).
Implicit Types (s : st) (t : Transfer) (n : nat) (w : W) (l : list entry) (rl : R).
Notation books_ok := (books_ok ledger_fee window).

(** The interim account of [t], as far as it is known from the transfers of the canister,
    holds less than [a]. *)
Definition short t (a : N) w : Prop :=
  let acc := mk_account ic_id (interim_sub t) in
  (received (token t) acc (ledger_log w) <
   a + spent ledger_fee ic_id (token t) acc (ledger_log w))%N.

(** What the second step [t] takes from the interim account. *)
Definition lacking t w : Prop := short t (amount_minus_fee t + ledger_fee) w.

(** The interim account of [t] has not paid yet. *)
Definition unspent t w : Prop :=
  forall e, e ∈ ledger_log w -> e.1 = token t -> arg_from_subaccount e.2 <> interim_sub t.

Definition first_ready t w : Prop :=
  bookable (W := W) ledger_fee t /\ ~ tagged (pays (W := W) t) /\
  (stages_left t = 1%nat -> tagged (interim_sub t) /\ unspent t w).

Definition second_ready t w : Prop :=
  closing (W := W) t /\ fee t = ledger_fee /\ tagged (interim_sub t).

(** A call of [t] that is made now is answered in time. *)
Definition in_window t w : Prop :=
  created_at t <= ic_time w /\ ic_time w + TX_WINDOW <= created_at t + window.

(** The run of a recovery that started at [start], as long as the ledger serves it; it
    may save the transfer again if it has an [excuse]. *)
Definition serving_inv (start : Z) (excuse : Prop) rl (c : ctl) s : Prop :=
  let w := world s in
  good w /\ start <= ic_time w /\ recovery_list (terminal s) = rl /\
  match c with
  | CRecover t _ => (first_ready t w /\ in_window t w) \/
      (second_ready t w /\ in_window t w /\
       (lacking t w -> entry_of (W := W) t ∉ ledger_log w -> excuse))
  | CComplete t _ _ => stages_left t = 1%nat -> first_ready t w /\
      (short t (amount_minus_fee t) w -> excuse)
  | CTransfer t _ | CExecute t _ =>
      second_ready t w /\ unspent t w /\ validate (W := W) t = Ok tt /\ in_window t w /\
      (lacking t w -> excuse)
  | _ => False
  end.

Definition final {A} (r : result A PaymentError) : Prop := forall d, r <> Err (PE_Recoverable d).

Definition serving_end (start : Z) (excuse : Prop) rl {A} (r : result A PaymentError) s : Prop :=
  good (world s) /\ start <= ic_time (world s) /\
  ((final r /\ recovery_list (terminal s) = rl) \/
   (excuse /\ exists t, recovery_list (terminal s) = rl_push rl t)).

Definition follows start excuse rl (m : run st (ctl + result TxId PaymentError)) : Prop :=
  match m with
  | Done (inl c') s' => serving_inv start excuse rl c' s'
  | Done (inr r) s' => serving_end start excuse rl r s'
  | _ => True
  end.

Lemma unspent_ext t w w' : ledger_log w' = ledger_log w -> unspent t w -> unspent t w'.
Proof. intros Hw Hu e. rewrite Hw. apply Hu. Qed.

Lemma short_ext t a w w' : ledger_log w' = ledger_log w -> short t a w' -> short t a w.
Proof. unfold short. by intros ->. Qed.

(** An interim account that received [a] and paid nothing is not short of it. *)
Lemma unspent_funded t e w :
  tagged (interim_sub t) -> unspent t w -> e ∈ ledger_log w -> e.1 = token t ->
  account_eqb (arg_to e.2) (mk_account ic_id (interim_sub t)) = true ->
  ~ short t (arg_amount e.2) w.
Proof.
  intros Htag Hu He Hep Hto. unfold short.
  pose proof (received_ge (token t) _ e _ He Hep Hto).
  assert (spent ledger_fee ic_id (token t) (mk_account ic_id (interim_sub t)) (ledger_log w) = 0%N) as ->;
    [|lia].
  destruct (decide (spent ledger_fee ic_id (token t) (mk_account ic_id (interim_sub t))
    (ledger_log w) = 0%N)) as [Hz|Hz]; [done|].
  apply spent_pos in Hz as (e' & He' & Hep' & Hacc). apply tagged_account in Hacc; [|done].
  by destruct (Hu e' He' Hep').
Qed.

(** The first step pays into the interim account. *)
Lemma first_step_funds t w :
  bookable (W := W) ledger_fee t -> stages_left t = 1%nat -> tagged (interim_sub t) -> unspent t w ->
  entry_of (W := W) t ∈ ledger_log w -> ~ short t (amount_minus_fee t) w.
Proof.
  intros Hbk Hsl Htag Hu Hin.
  destruct (bookable_kind _ _ Hbk) as [(Hty & _)|((acc & Hty & Hown & _) & _)];
    [unfold stages_left in Hsl; by rewrite Hty in Hsl|].
  apply (unspent_funded t (entry_of t) w); try done.
  unfold entry_of, transfer_arg, to, interim_sub, interim_acc. cbn. rewrite Hty. cbn.
  apply account_eqb_law. rewrite <- Hown. by destruct acc.
Qed.

(** The answer to a call of a served canister. *)
Lemma execute_served t w r w' :
  good w -> fee t = ledger_fee -> plain_entry W (entry_of t) -> in_window t w ->
  execute t w = (r, w') ->
  good w' /\ ic_time w <= ic_time w' < ic_time w + TX_WINDOW /\
  ((exists info, r = Ok info /\ ledger_log w' = ledger_log w ++ [entry_of t]) \/
   (exists e, r = Err (TransferFailed (Rejected e)) /\ ledger_log w' = ledger_log w /\
      ((exists tx, e = Duplicate tx) /\ entry_of (W := W) t ∈ ledger_log w \/
       (exists k, e = InsufficientFunds k) /\ entry_of (W := W) t ∉ ledger_log w /\
       (pays (W := W) t = interim_sub t -> lacking t w)))).
Proof.
  intros Hw Hfee Hplain [Hpast Hwin] Hex. unfold execute, transfer_icrc1 in Hex.
  destruct (call_icrc1_transfer w (token t) (transfer_arg t)) as [a w1] eqn:Hcall.
  destruct (serving_transfer _ _ good Hgood _ _ _ _ _ Hw Hcall) as (Hw1 & Htime & x & -> & Hx & Hacc).
  assert (w1 = w') as -> by (by destruct x; simplify_eq).
  destruct Hacc as [[tx ->]|[Hin|(k & -> & Hk & Hpay)]];
    [done|by cbn; rewrite Hfee|exists (created_at t); split_and!; [done|lia|lia]| | |].
  - injection Hex as <-. split_and!; [done|lia|lia|left]. eexists. split; [done|].
    by apply (call_accepted _ _ _ _ _ Hcall).
  - pose proof (call_known _ _ _ _ _ _ Hin Hplain eq_refl (f_equal Some Hfee) Hcall) as Hk.
    destruct Hk as [Hlog Hk]; [lia|].
    destruct x as [tx|[]]; try done. injection Hex as <-. split_and!; [done|lia|lia|right].
    eexists. split_and!; [done|done|left]. split; [by eexists|done].
  - injection Hex as <-. split_and!; [done|lia|lia|right]. eexists.
    split_and!; [done|by apply (call_refused _ _ _ _ _ Hcall)|right].
    split; [by eexists|]. split.
    { intros Hin. pose proof (call_known _ _ _ _ _ _ Hin Hplain eq_refl (f_equal Some Hfee) Hcall) as Hkn.
      destruct Hkn as [_ Hkn]; [lia|done]. }
    unfold lacking, short. intros <-.
    unfold transfer_arg in Hpay, Hk. cbn [arg_amount arg_from_subaccount] in *. unfold pays, transfer_arg. cbn.
    lia.
Qed.

Lemma interim_sub_eq t t2 : interim_acc t2 = interim_acc t -> interim_sub t2 = interim_sub t.
Proof. intros Hi. unfold interim_sub. by rewrite Hi. Qed.

Lemma rejected_end start excuse rl t e s :
  opening t -> good (world s) -> start <= ic_time (world s) -> recovery_list (terminal s) = rl ->
  match reject t (TransferFailed e) s with Done r s' => serving_end start excuse rl r s' | _ => False end.
Proof.
  intros Ht Hg Htime Hrl. rewrite reject_first by done. unfold serving_end.
  case_decide; [|split_and!; [done..|by left]].
  cbn. destruct (bal_credit _ _ _) as [[k|[]] b]; (split_and!; [done..|by left]).
Qed.

(** A second step that is refused because its interim account is short is saved again. *)
Lemma refused_second start (excuse : Prop) rl t e acc s :
  ttype t = DoubleStep Second acc -> good (world s) -> start <= ic_time (world s) ->
  recovery_list (terminal s) = rl -> excuse ->
  follows start excuse rl ((r ← reject t e; mret (inr r)) s).
Proof.
  intros Hty Hg Htime Hrl Hex. rewrite bind_eq. destruct (reject_second t e s acc Hty) as [d ->].
  cbn. split_and!; [done..|right]. split; [done|]. exists t. cbn. by rewrite Hrl.
Qed.

(** The call of a second step that was not made before. *)
Lemma follows_execute start excuse rl t n s :
  serving_inv start excuse rl (CExecute t n) s -> follows start excuse rl (step (CExecute t n) s).
Proof.
  intros (Hg & Htime & Hrl & (Hcl & Hfee & Htag) & Hun & _ & Hwin & Hexc). cbn [step].
  rewrite bind_eq, in_world_Done.
  destruct (execute t (world s)) as [r w'] eqn:Hex. cbn [fst snd].
  pose proof (closing_pays t Hcl) as Hpays.
  destruct (execute_served t _ _ _ Hg Hfee ltac:(by apply Hcl) Hwin Hex) as
    (Hg' & Ht' & [(info & -> & Hlog)|(e & -> & Hlog & [[(tx & ->) Hin]|[(k & ->) [Hnew Hlack]]])]).
  - split_and!; [done|cbn; lia|done|]. destruct (successor_closing t t (successor_refl t Hcl)) as [-> _]. done.
  - by destruct (Hun (entry_of t) Hin).
  - pose proof Hcl as ((acc & Hty) & _). cbn [after_execute goto].
    apply (refused_second _ _ _ t _ acc); [done|done|cbn; lia|done|]. by apply Hexc, Hlack.
Qed.

(** The call of a step that was saved. *)
Lemma follows_recover start excuse rl t n s :
  serving_inv start excuse rl (CRecover t n) s -> follows start excuse rl (step (CRecover t n) s).
Proof.
  intros (Hg & Htime & Hrl & Ht). cbn [step]. rewrite bind_eq, in_world_Done.
  destruct (execute t (world s)) as [r w'] eqn:Hex. cbn [fst snd].
  assert (fee t = ledger_fee /\ plain_entry W (entry_of t) /\ in_window t (world s)) as (Hfee & Hpl & Hwin).
  { destruct Ht as [[[[? ? ? ?] _] ?]|[((_ & _ & _ & ?) & ? & _) [? _]]]; done. }
  destruct (execute_served t _ _ _ Hg Hfee Hpl Hwin Hex) as (Hg' & Ht' & Hr).
  assert (forall tx, (stages_left t = 1%nat -> first_ready t (world s) -> unspent t w') ->
    entry_of t ∈ ledger_log w' ->
    serving_inv start excuse rl (CComplete t tx n) (set_world s w')) as Hcomplete.
  { intros tx Hun Hin. split_and!; [done|cbn; lia|done|]. intros Hsl.
    destruct Ht as [[Hf _]|[(Hcl & _) _]];
      [|by rewrite (proj1 (successor_closing t t (successor_refl t Hcl))) in Hsl].
    pose proof Hf as (Hbk & Hp & Htag). destruct (Htag Hsl) as [Htag' _].
    split; [|by intros Hs%first_step_funds; auto]. split_and!; [done..|]. intros _. auto. }
  destruct Hr as [(info & -> & Hlog)|(e & -> & Hlog & Hr)].
  { apply Hcomplete; [|rewrite Hlog; set_solver].
    intros Hsl (_ & Hp & Htag) x. rewrite Hlog, elem_of_app, list_elem_of_singleton.
    intros [Hx| ->] Hx1; [by apply (proj2 (Htag Hsl))|]. intros Hx2. apply Hp.
    change (pays t = interim_sub t) in Hx2. rewrite Hx2. by apply Htag. }
  destruct Hr as [[(tx & ->) Hin]|[(k & ->) [Hnew Hlack]]].
  { apply Hcomplete; [|by rewrite Hlog].
    intros Hsl (_ & _ & Htag). apply (unspent_ext t (world s)); [done|by apply Htag]. }
  cbn [after_recover after_execute goto]. destruct Ht as [[(Hbk & _) _]|[(Hcl & _) [_ Hexc]]].
  - pose proof (rejected_end start excuse rl t (Rejected (InsufficientFunds k)) (set_world s w')
      (bookable_not_second ledger_fee t Hbk) Hg' ltac:(cbn; lia) Hrl) as Hend.
    rewrite bind_eq. by destruct (reject _ _ _).
  - pose proof Hcl as ((acc & Hty) & _).
    apply (refused_second _ _ _ t _ acc); [done|done|cbn; lia|done|].
    apply Hexc; [|done]. by apply Hlack, closing_pays.
Qed.

(** The second step takes what the first one moved. *)
Lemma next_step_takes t w t2 :
  bookable (W := W) ledger_fee t -> next_step t w = Some t2 ->
  (amount_minus_fee t2 + ledger_fee)%N = amount_minus_fee t.
Proof.
  intros [Hfee Hv [(Hty & _)|((acc & Hty & _) & _)] _]; unfold next_step; rewrite Hty; intros Hn; [done|].
  injection Hn as <-. rewrite !amount_minus_fee_eq. cbn. rewrite ?amount_minus_fee_eq.
  unfold validate, final_amount, effective_fee in Hv. rewrite Hty in Hv.
  destruct (account_eqb _ _); [done|]. rewrite Hfee in *.
  destruct (N.ltb_spec (ledger_fee * 2) (amount t)); [lia|done].
Qed.

Lemma follows_step start excuse rl c s :
  TX_WINDOW <= window -> serving_inv start excuse rl c s -> follows start excuse rl (step c s).
Proof.
  intros Hlong. destruct c as [t n|t tx n|t n|t n|t n|v t n]; intros Hinv;
    [| |by destruct Hinv as (_ & _ & _ & [])|by apply follows_execute|by apply follows_recover
     |by destruct Hinv as (_ & _ & _ & [])].
  - destruct Hinv as (Hg & Htime & Hrl & Ht & Hun & Hv & Hwin & Hexc). cbn [step]. rewrite Hv. by split_and!.
  - destruct Hinv as (Hg & Htime & Hrl & Ht). cbn [step]. destruct (next_step t (world s)) as [t2|] eqn:Hn.
    + destruct (next_step_stages _ _ _ Hn) as [Hsl _].
      destruct (Ht Hsl) as ((Hbk & _ & Htag) & Hexc). destruct (Htag Hsl) as [Htag' Hun].
      destruct (next_step_successor ledger_fee t _ t2 Hbk Hn) as ((Hcl & Htok & _ & Hi) & Hf2 & Hv2).
      pose proof (interim_sub_eq t t2 Hi) as Hi2.
      assert (created_at t2 = ic_time (world s)) as Hcr.
      { unfold next_step in Hn. destruct (ttype t) as [|[] acc]; [done| |done]. by injection Hn as <-. }
      split; [done|]. split; [done|]. split; [done|].
      split; [split_and!; [done..|by rewrite Hi2]|]. split; [|split; [done|split; [split|]]].
      * intros e He Hep. rewrite Hi2. apply Hun; [done|congruence].
      * lia.
      * lia.
      * unfold lacking, short. rewrite (next_step_takes t _ t2 Hbk Hn), Hi2, Htok. exact Hexc.
    + unfold follows, serving_end. case_decide; [|split_and!; [done..|by left]].
      rewrite bind_eq, credit_Done. cbn.
      destruct (bal_credit _ _ _) as [[k|[]] b]; (split_and!; [done..|by left]).
Qed.

Lemma serving_run start excuse rl c s :
  TX_WINDOW <= window -> serving_inv start excuse rl c s ->
  forall fuel r s', run_ctl fuel c s = Done r s' -> serving_end start excuse rl r s'.
Proof.
  intros Hlong Hinv fuel r s' Hrun.
  apply (run_ctl_inv (serving_inv start excuse rl) (fun r s => serving_end start excuse rl r s)
    (fun c s => follows_step start excuse rl c s Hlong) fuel c s); done.
Qed.

(** What is known of a transfer that is taken out to be recovered. *)
Lemma books_ready rest t s w :
  books_ok (t :: rest) s -> ledger_log w = ledger_log (world s) ->
  first_ready t w \/ second_ready t w.
Proof.
  intros Hok Hw. pose proof (books_pool _ _ _ _ Hok) as Hp.
  destruct (pool_saved _ _ _ Hp t ltac:(left)) as [Htok _ Hfee [(Hbk & Hpays & Htag)|[Hcl Htag]]];
    [left|by right]. split_and!; [done..|]. intros Hsl. split; [by apply Htag|].
  intros e. rewrite Hw, Htok. by apply (pool_unspent _ _ _ Hp t e ltac:(left)).
Qed.

Lemma books_long rest s : books_ok rest s -> TX_WINDOW <= window.
Proof. intros Hok. pose proof (books_window _ _ _ _ Hok). pose proof (books_period _ _ _ _ Hok). lia. Qed.

(** The interim account of [t] does not hold what the second step takes from it.  A
    transfer that is not too old is in its second step then, which the ledger does not
    know; of an older one the ledger told that the account is not empty. *)
Definition stuck t s : Prop :=
  exists stage acc, ttype t = DoubleStep stage acc /\
    short t (match stage with
             | First => amount_minus_fee t
             | Second => amount_minus_fee t + ledger_fee
             end) (world s) /\
    ((~ old s t /\ stage = Second /\ entry_of (W := W) t ∉ log s) \/
     (old s t /\ exists k w, k <> 0%N /\
        call_icrc1_balance_of (world s) (cfg_principal (config s)) acc = (Ok k, w))).

Notation ended t s := (serving_end (ic_time (world s)) (stuck t s) (recovery_list (terminal s))).

Lemma recover_old_serves rest t s fuel r s' :
  books_ok (t :: rest) s -> good (world s) -> old s t -> recover_old_tx fuel t s = Done r s' ->
  ended t s r s'.
Proof.
  intros Hok Hg Hold. unfold recover_old_tx. destruct (ttype t) as [|stage acc] eqn:Hty.
  { intros Hr. unfold mret, method_ret in Hr. injection Hr as <- <-. split_and!; [done|lia|by left]. }
  rewrite ask_eq. unfold get_icrc1_balance. rewrite in_world_Done.
  destruct (call_icrc1_balance_of (world s) (cfg_principal (config s)) acc) as [x w] eqn:Hbal.
  destruct (serving_balance _ _ good Hgood _ _ _ _ _ Hg Hbal) as (Hgw & Htime & k & ->).
  cbn [fst snd from_rejection map_err]. pose proof (balance_of_log _ _ _ _ _ Hbal) as Hlog.
  pose proof (books_ready rest t s w Hok Hlog) as Hready. pose proof (books_long _ _ Hok) as Hlong.
  set (s1 := set_world s w). set (rl := recovery_list (terminal s)). set (start := ic_time (world s)).
  assert (forall tx, (stages_left t = 1%nat -> first_ready t w /\ k <> 0%N) ->
    serving_inv start (stuck t s) rl (CComplete t tx N_RETRIES) s1) as Hcomplete.
  { intros tx Ht. split_and!; [done..|]. intros Hsl. destruct (Ht Hsl) as [? Hk]. split; [done|]. intros Hs.
    assert (stage = First) as -> by (unfold stages_left in Hsl; rewrite Hty in Hsl; by destruct stage).
    exists First, acc. split_and!; [done|by apply (short_ext _ _ _ w)|right]. split; [done|]. by exists k, w. }
  destruct stage, (N.eqb_spec k 0) as [->|Hk].
  - assert (opening t) as Hnot by (intros acc'; by rewrite Hty).
    pose proof (rejected_end start (stuck t s) rl t FailUnknown s1 Hnot Hgw Htime eq_refl) as Hend. intros Hr.
    change (reject t (TransferFailed FailUnknown) s1 = Done r s') in Hr. by rewrite Hr in Hend.
  - apply (serving_run start _ rl (CComplete t UNKNOWN_TX_ID N_RETRIES) s1 Hlong), Hcomplete. intros _.
    split; [|done]. destruct Hready as [?|(((? & ?) & _) & _)]; [done|congruence].
  - apply (serving_run start _ rl (CComplete t UNKNOWN_TX_ID N_RETRIES) s1 Hlong), Hcomplete.
    unfold stages_left. by rewrite Hty.
  - apply (serving_run start _ rl (CRecover (renew t w) N_RETRIES) s1 Hlong). split_and!; [done..|right].
    destruct Hready as [([_ _ [(? & _)|((? & ? & _) & _)] _] & _)|(Hcl & Hfee & Htag)]; [congruence..|].
    destruct (renew_successor t w Hcl) as [(Hcl' & _) _].
    split_and!; [by split_and!|split; cbn; lia|]. intros Hl _. exists Second, acc.
    split_and!; [done|exact (short_ext t _ (world s) w Hlog Hl)|right]. split; [done|]. by exists k, w.
Qed.

Lemma recover_young_serves rest t s fuel r s' :
  books_ok (t :: rest) s -> good (world s) -> created_at t <= ic_time (world s) -> ~ old s t ->
  execute_recovery_transfer fuel t N_RETRIES s = Done r s' -> ended t s r s'.
Proof.
  intros Hok Hg Hpast Hy. apply (serving_run _ _ _ (CRecover t N_RETRIES) s (books_long _ _ Hok)).
  assert (in_window t (world s)) as Hwin.
  { split; [done|]. pose proof (books_window _ _ _ _ Hok). pose proof (books_period _ _ _ _ Hok).
    unfold old, saturating_sub in Hy. lia. }
  split_and!; [done|lia|done|].
  destruct (books_ready rest t s (world s) Hok eq_refl) as [?|Hs]; [by left|right].
  split_and!; [done..|]. pose proof Hs as (((acc & Hty) & _) & _). intros Hl Hnew. exists Second, acc.
  split_and!; [done..|]. by left.
Qed.

Lemma recover_tx_serves rest t s fuel r s' :
  books_ok (t :: rest) s -> good (world s) -> created_at t <= ic_time (world s) ->
  recover_tx fuel t s = Done r s' -> ended t s r s'.
Proof.
  intros Hok Hg Hpast. destruct (can_deduplicate_Done s t (books_period _ _ _ _ Hok)) as (d & Hd & Hold).
  unfold recover_tx. rewrite bind_eq, Hd, ask_eq.
  set (m := if d then execute_recovery_transfer fuel t N_RETRIES else recover_old_tx fuel t).
  assert (forall r s', m s = Done r s' -> ended t s r s') as Hrun.
  { unfold m. destruct d; intros r0 s0.
    - apply (recover_young_serves rest); [done..|]. by intros Ho%Hold.
    - apply (recover_old_serves rest); [done..|]. by apply Hold. }
  destruct (m s) as [r0 s0| |] eqn:Hr0; [|done..].
  destruct (Hrun _ _ eq_refl) as (Hg' & Htime & Hr).
  intros Heq. destruct r0 as [tx|e]; cbn in Heq; injection Heq as <- <-; split_and!; try done.
  - destruct Hr as [[_ Hr]|Hr]; [by left|by right].
  - destruct Hr as [[Hf Hr]|Hr]; [left|by right]. split; [|done]. intros x [= ->]. by apply (Hf x).
Qed.

(** The transfers [q] are recovered one after the other: each ends for good, or is saved
    again because it is stuck. *)
Inductive recovers : list Transfer -> st -> list (result (TxId * Transfer) PaymentError) -> st -> Prop :=
  | recovers_nil s : recovers [] s [] s
  | recovers_cons t q s r s1 rs s' :
      (forall x, recover_tx (transfer_fuel N_RETRIES + x) t s = Done r s1) ->
      (final r /\ recovery_list (terminal s1) = recovery_list (terminal s)) \/
      (stuck t s /\ exists t', recovery_list (terminal s1) = rl_push (recovery_list (terminal s)) t') ->
      recovers q s1 rs s' -> recovers (t :: q) s (r :: rs) s'.

Fixpoint none_stuck (q : list Transfer) s : Prop :=
  match q with
  | [] => True
  | t :: q => ~ stuck t s /\
      match recover_tx (transfer_fuel N_RETRIES) t s with Done _ s' => none_stuck q s' | _ => True end
  end.

Lemma recovers_all q s rs s' :
  recovers q s rs s' -> none_stuck q s ->
  recovery_list (terminal s') = recovery_list (terminal s) /\ Forall final rs.
Proof.
  induction 1 as [s|t q s r s1 rs s' Hrun Hr _ IH]; [by split; [|constructor]|]. intros [Hns Hq].
  specialize (Hrun 0%nat). rewrite Nat.add_0_r in Hrun. rewrite Hrun in Hq.
  destruct Hr as [[Hf Hrl]|[Hs _]]; [|done]. destruct (IH Hq) as [-> Hall].
  split; [done|by constructor].
Qed.

(** A served ledger answers the first attempt. *)
Lemma serving_in_time rest t s :
  books_ok (t :: rest) s -> good (world s) -> created_at t <= ic_time (world s) -> recover_in_time t s.
Proof.
  intros Hok Hg Hpast Hopen Hy. unfold prompt. cbn [N_RETRIES in_time].
  destruct (execute t (world s)) as [r w'] eqn:Hex.
  destruct (books_ready rest t s (world s) Hok eq_refl) as [[[Hfee _ _ Hpl] _]|(((acc & Hty) & _) & _)];
    [|by destruct (Hopen acc)].
  assert (in_window t (world s)) as Hwin.
  { split; [done|]. pose proof (books_window _ _ _ _ Hok). pose proof (books_period _ _ _ _ Hok).
    unfold old, saturating_sub in Hy. lia. }
  destruct (execute_served t _ _ _ Hg Hfee Hpl Hwin Hex) as (_ & Htime & Hr). split; [lia|].
  destruct Hr as [(info & -> & _)|(e & -> & _ & [[(tx & ->) _]|[(k & ->) _]])]; done.
Qed.

Lemma recover_each_serves q s :
  books_ok q s -> good (world s) -> Forall (fun t => created_at t <= ic_time (world s)) q ->
  exists rs s', (forall x, recover_each (transfer_fuel N_RETRIES + x) q s = Done rs s') /\
    recovers q s rs s' /\ books_ok [] s'.
Proof.
  revert s. induction q as [|t q IH]; intros s Hok Hg Hpast.
  { exists [], s. split_and!; [done|constructor|done]. }
  apply Forall_cons in Hpast as [Ht Hpast].
  destruct (recover_tx_books ledger_fee window q t s Hok (serving_in_time q t s Hok Hg Ht))
    as (r & s1 & Hrun & Hok1).
  destruct (recover_tx_serves q t s _ r s1 Hok Hg Ht (Hrun 0%nat)) as (Hg1 & Htime & Hr).
  destruct (IH s1 Hok1 Hg1) as (rs & s' & Hrs & Hrec & Hok').
  { eapply Forall_impl; [exact Hpast|]. cbn. lia. }
  exists (r :: rs), s'. split_and!; [|by apply recovers_cons with s1|done]. intros x. cbn [recover_each].
  pose proof (pool_saved _ _ _ (books_pool _ _ _ _ Hok) t ltac:(left)) as [Htok _ _ _].
  rewrite decide_True by done. by rewrite bind_eq, Hrun, bind_eq, Hrs.
Qed.

End settles.

(** ** A ledger that serves the canister again *)

#[local] Existing Instance fixed_world.
#[local] Existing Instance fixed_laws.

Definition in_service (g : ledger) : Prop := deliveries g = [].

Lemma ledger_serving : serving 10 DEFAULT_DEDUP_PERIOD in_service.
Proof.
  split.
  - intros g p a r g' Hd Hc. unfold in_service in *. cbn in Hc. unfold ledger_call in Hc. rewrite Hd in Hc.
    injection Hc as <- <-. split; [done|]. split; [cbn; unfold TX_WINDOW; lia|].
    eexists. split; [done|]. unfold ledger_answer.
    split; [by repeat case_decide|]. intros _ Hfee (ts & Hts & _ & Ht). cbn in Ht.
    rewrite decide_False by naive_solver. rewrite decide_False by (rewrite Hts; cbn; lia).
    case_decide; [by right; left|]. case_decide as Hk; [right; right|left; by eexists].
    eexists. split_and!; [done|exact Hk|]. change (ledger_log g) with (executed_transfers g).
    change ic_id with own_id. unfold ledger_balance. lia.
  - intros g p acc r g' Hg Hc. cbn in Hc. injection Hc as <- <-. split_and!; [done|lia|by eexists].
Qed.

(** The withdrawal of [busy_withdrawn] waits for recovery; then the ledger answers
    again. *)
Definition served_again : ledger :=
  mk_ledger 200 (executed_transfers (world busy_withdrawn)) (funds (world busy_withdrawn)) [].

Definition served_state : state (gmap Principal N) recovery ledger := set_world busy_withdrawn served_again.
Definition served_taken : state (gmap Principal N) recovery ledger :=
  set_recovery_list served_state (rl_take_all (rl_push empty_recovery waiting)).2.

Lemma served_take : take_all_for_recovery served_state = Done [waiting] served_taken.
Proof. vm_cast_no_check (@eq_refl (run _ (list Transfer)) (Done [waiting] served_taken)). Qed.

Lemma served_saved : saved served_state = [waiting].
Proof. vm_cast_no_check (@eq_refl _ [waiting]). Qed.

Lemma waiting_not_stuck : ~ stuck 10 waiting served_taken.
Proof.
  intros (stage & acc & [= <- <-] & _ & [(_ & ? & _)|(Hold & _)]); [done|].
  apply Hold. vm_compute. reflexivity.
Qed.

