(* ===== verification/PaymentCanister.v ===== *)
(** * A canister around the payments terminal

    [ic-payments/test-payment-canister/src/canister.rs]: the state of the canister is a
    terminal in a [RefCell] that a message borrows and keeps borrowed while it waits for
    the ledger.  A message that finds the cell borrowed panics.

    Messages run in small steps, from one call of the ledger to the next ([start_write],
    [resume]); between two steps of a message others start or go on, and other things
    happen on the ledger ([event], [step]).  Whatever messages are under way at the same
    time, the terminal serves them one after the other ([payment_canister_serial]), and
    the canister is solvent at every moment ([payment_canister_solvent]). *)

From S2P Require Import Prelude StableLib Concrete StableStorage Payments RecoveryList Terminal.
From S2P Require Import TerminalProofs TerminalTrace TerminalConcrete TerminalProps Books BooksPool BooksProps.
Local Open Scope Z_scope.

(** ** TestBalances *)

(** [overdrawn]: a subtraction of [Nat]s has panicked; the message that is handled then
    traps, and what it did is undone. *)
Record TestBalances := mk_balances { map : gmap Principal N; overdrawn : bool }.

Definition TestBalances_default : TestBalances := mk_balances ∅ false.

#[export] Instance test_balances : Balances TestBalances := {|
  bal_credit b p a :=
    let v := (default 0 (map b !! p) + a)%N in
    (Ok v, mk_balances (<[p := v]> (map b)) (overdrawn b));
  bal_debit b p a :=
    let v := default 0%N (map b !! p) in
    if (v <? a)%N then (Err (BalanceFatal EmptyString), mk_balances (map b) true)
    else (Ok (v - a)%N, mk_balances (<[p := (v - a)%N]> (map b)) (overdrawn b));
|}.

#[export] Instance test_balances_laws : BalancesLaws TestBalances.
Proof.
  refine {| total b := total_balances (map b) |}; intros b p a; cbn.
  - rewrite total_insert. destruct (map b !! p); cbn; lia.
  - destruct (N.ltb_spec (default 0%N (map b !! p)) a); cbn; [done|].
    rewrite total_insert. destruct (map b !! p); cbn in *; lia.
Defined.

(** ** The endpoints *)

Section canister.
Context {R W : Type} `{PaymentLib, World W, RecoveryList R, Target}.
Notation st := (state TestBalances R W).
Implicit Types (s : st) (caller : Principal).

(** [PaymentState::default] and [init]; the recovery list is the one found in the
    stable memory. *)
Definition PaymentState_default (recovery : R) : TokenTerminal TestBalances R W :=
  new_with_recovery_list (mk_config management_canister 0 (account_of_principal management_canister))
    TestBalances_default recovery.

Definition init (token_canister : Principal) (recovery : R) s : st :=
  set_terminal s
    (new_with_recovery_list (mk_config token_canister 0 (mk_account management_canister None))
       TestBalances_default recovery).

(** What a message answers; [Trap] and [AlreadyBorrowed] are panics. *)
Inductive reply :=
  | Configured
  | Transferred (r : result (TxId * N) PaymentError)
  | Balance (local token : N)
  | Trap
  | AlreadyBorrowed.

Inductive writer := Configure | Deposit (amount : N) | Withdraw (amount : N).
Inductive request := Write (w : writer) | GetBalance.

(** [configure], from the borrow on: [unwrap] panics in the reply callback. *)
Definition configure : method st reply := fun s =>
  let '(r, w) := get_icrc1_configuration (world s) (cfg_principal (config s)) in
  match r with
  | Err _ => Done Trap (set_world s w)
  | Ok c => Done Configured (set_minting_account (set_fee (set_world s w) (cfg_fee c)) (minting_account c))
  end.

(** A method of the terminal, in which [debit] may have panicked; it does so before the
    first call of the ledger, as does every other panic of a deposit or a withdrawal. *)
Definition transferred (m : method st (result (TxId * N) PaymentError)) : method st reply := fun s =>
  match m s with
  | Done r s' => if overdrawn (balances (terminal s')) then Done Trap s else Done (Transferred r) s'
  | Trapped => Done Trap s
  | NoFuel => NoFuel
  end.

Definition write (fuel : nat) caller (w : writer) : method st reply :=
  match w with
  | Configure => configure
  | Deposit amount => transferred (deposit fuel caller amount)
  | Withdraw amount => transferred (withdraw fuel caller amount)
  end.

(** [get_balance], before and after the call of the ledger. *)
Definition local_balance s caller : N := default 0%N (map (balances (terminal s)) !! caller).

Definition get_balance (local : N) : method st reply := fun s =>
  let '(r, w) := get_icrc1_balance (world s) (cfg_principal (config s)) (mk_account ic_id None) in
  Done (match r with Ok token => Balance local token | Err _ => Trap end) (set_world s w).

(** ** Messages that wait for the ledger *)

(** The calls of the ledger are where a method waits: a transfer, or the minting account
    when the configuration is read again. *)
Definition awaits (c : ctl) s : bool :=
  match c with
  | CExecute _ _ | CRecover _ _ => true
  | CUpdate v _ _ => (v =? 0)%N || (v =? cfg_fee (config s))%N
  | _ => false
  end.

(** A transfer runs to its next call of the ledger, or to its end. *)
Fixpoint until_call (n : nat) (c : ctl) : method st (ctl + result TxId PaymentError) := fun s =>
  if awaits c s then Done (inl c) s else
  match n with
  | O => NoFuel
  | S n =>
      match TerminalProofs.step c s with
      | Done (inl c') s' => until_call n c' s'
      | Done (inr r) s' => Done (inr r) s'
      | Trapped => Trapped
      | NoFuel => NoFuel
      end
  end.

Definition advance (c : ctl) : method st (ctl + result TxId PaymentError) :=
  until_call (S (measure c)) c.

(** What a message waits for: the balance of the canister, the fee, the minting account,
    or a call of its transfer, which pays out [amount] in the end. *)
Inductive suspended :=
  | Reading (local : N)
  | AskingFee
  | AskingMinter (fee : N)
  | Transferring (amount : N) (c : ctl).

Definition paused (amount : N) (r : ctl + result TxId PaymentError) : suspended + reply :=
  match r with
  | inl c => inl (Transferring amount c)
  | inr r => inr (Transferred (result_map (fun tx => (tx, amount)) r))
  end.

Definition begin_transfer (t : Transfer) (amount : N) : method st (suspended + reply) :=
  r ← advance (CTransfer t N_RETRIES); mret (paused amount r).

(** [deposit] and [withdraw] of the terminal, up to their first call of the ledger. *)
Definition deposit_start caller (amount : N) : method st (suspended + reply) :=
  m ← next_memo;
  sub ← of_outcome (get_principal_subaccount caller);
  s ← get;
    let t := with_memo (with_operation (transfer_new (world s) (config s) caller
               (account_of_principal ic_id) sub amount) CreditOnSuccess) m in
    match final_amount t with
    | Err e => mret (inr (Transferred (Err (PaymentError_from_internal e))))
    | Ok amount => begin_transfer t amount
    end.

Definition withdraw_start caller (amount : N) : method st (suspended + reply) :=
  m ← next_memo;
  s ← get;
    let t := with_memo (with_operation (double_step (transfer_new (world s) (config s) caller
               (account_of_principal caller) None amount)) CreditOnError) m in
    match validate t with
    | Err e => mret (inr (Transferred (Err (PaymentError_from_internal e))))
    | Ok _ =>
        match final_amount t with
        | Err e => mret (inr (Transferred (Err (PaymentError_from_internal e))))
        | Ok amount =>
            r ← debit caller (Payments.amount t);
            match r with
            | Err e => mret (inr (Transferred (Err e)))
            | Ok _ => begin_transfer t amount
            end
        end
    end.

(** A panic before the first call of the ledger undoes what the message did. *)
Definition guarded (m : method st (suspended + reply)) : method st (suspended + reply) := fun s =>
  match m s with
  | Done r s' => if overdrawn (balances (terminal s')) then Done (inr Trap) s else Done r s'
  | Trapped => Done (inr Trap) s
  | NoFuel => NoFuel
  end.

Definition start_write caller (w : writer) : method st (suspended + reply) :=
  match w with
  | Configure => mret (inl AskingFee)
  | Deposit amount => guarded (deposit_start caller amount)
  | Withdraw amount => guarded (withdraw_start caller amount)
  end.

(** The pending call is answered, and the message runs on to its next call or its end. *)
Definition resume (x : suspended) : method st (suspended + reply) := fun s =>
  match x with
  | Reading local =>
      let '(r, w) := get_icrc1_balance (world s) (cfg_principal (config s)) (mk_account ic_id None) in
      Done (inr (match r with Ok token => Balance local token | Err _ => Trap end)) (set_world s w)
  | AskingFee =>
      let '(r, w) := get_icrc1_fee (world s) (cfg_principal (config s)) in
      Done (match r with Ok fee => inl (AskingMinter fee) | Err _ => inr Trap end) (set_world s w)
  | AskingMinter fee =>
      let '(r, w) := get_icrc1_minting_account (world s) (cfg_principal (config s)) in
      match r with
      | Ok m => Done (inr Configured)
          (set_minting_account (set_fee (set_world s w) fee) (default no_minting_account m))
      | Err _ => Done (inr Trap) (set_world s w)
      end
  | Transferring amount c =>
      (r ← TerminalProofs.step c;
       match r with
       | inl c' => r ← advance c'; mret (paused amount r)
       | inr r => mret (paused amount (inr r))
       end) s
  end.

(** The flag of the [RefCell]. *)
Inductive flag := Readers (n : nat) | Writing.

Definition release (f : flag) : flag :=
  match f with Readers n => Readers (pred n) | Writing => Readers 0 end.

(** A message under way. *)
Record pending := mk_pending {
  pid : nat;
  pcaller : Principal;
  prequest : request;
  point : suspended;
}.

Record canister := mk_canister { cell : flag; waiting : list pending; data : st }.

(** [Start]: a message begins and runs to its first call of the ledger; [Answer]: the
    call it waits for is answered, and it runs on; [Environment]: other things happen on
    the ledger, or time passes, while messages wait or none does. *)
Inductive event :=
  | Start (id : nat) caller (req : request)
  | Answer (id : nat)
  | Environment (w : W).

Fixpoint take_pending (id : nat) (l : list pending) : option (pending * list pending) :=
  match l with
  | [] => None
  | m :: l =>
      if decide (id = pid m) then Some (m, l)
      else match take_pending id l with Some (m', rest) => Some (m', m :: rest) | None => None end
  end.

Definition step (e : event) (c : canister) : option (canister * list (nat * reply)) :=
  let s := data c in
  match e with
  | Start id caller (Write w) =>
      match cell c with
      | Readers O =>
          match start_write caller w s with
          | Done (inl x) s' =>
              Some (mk_canister Writing (mk_pending id caller (Write w) x :: waiting c) s', [])
          | Done (inr r) s' => Some (mk_canister (Readers 0) (waiting c) s', [(id, r)])
          | _ => None
          end
      | _ => Some (c, [(id, AlreadyBorrowed)])
      end
  | Start id caller GetBalance =>
      match cell c with
      | Readers n =>
          let m := mk_pending id caller GetBalance (Reading (local_balance s caller)) in
          Some (mk_canister (Readers (S n)) (m :: waiting c) s, [])
      | Writing => Some (c, [(id, AlreadyBorrowed)])
      end
  | Answer id =>
      match take_pending id (waiting c) with
      | Some (m, rest) =>
          match resume (point m) s with
          | Done (inl x) s' =>
              let m' := mk_pending (pid m) (pcaller m) (prequest m) x in
              Some (mk_canister (cell c) (m' :: rest) s', [])
          | Done (inr r) s' => Some (mk_canister (release (cell c)) rest s', [(pid m, r)])
          | _ => None
          end
      | None => None
      end
  | Environment w => Some (mk_canister (cell c) (waiting c) (set_world s w), [])
  end.

Fixpoint steps (es : list event) (c : canister) : option (canister * list (nat * reply)) :=
  match es with
  | [] => Some (c, [])
  | e :: es =>
      match step e c with
      | Some (c, rs) =>
          match steps es c with Some (c, rs') => Some (c, rs ++ rs') | None => None end
      | None => None
      end
  end.

(** ** One message at a time *)

(** What happens to a message that has the canister to itself: its calls are answered
    ([None]), and other things happen on the ledger meanwhile. *)
Fixpoint progress (l : list (option W)) (x : suspended + reply) s : option ((suspended + reply) * st) :=
  match l, x with
  | [], _ => Some (x, s)
  | Some w :: l, inl _ => progress l x (set_world s w)
  | None :: l, inl y => match resume y s with Done x s => progress l x s | _ => None end
  | _ :: _, inr _ => None
  end.

Definition message_run caller (w : writer) (l : list (option W)) s : option ((suspended + reply) * st) :=
  match start_write caller w s with Done x s => progress l x s | _ => None end.

Inductive action :=
  | ServeWrite (id : nat) caller (w : writer) (l : list (option W))
  | ServeRead (id : nat) caller
  | Outside (w : W).

Definition serve (a : action) s : option (st * list (nat * reply)) :=
  match a with
  | ServeWrite id caller w l =>
      match message_run caller w l s with Some (inr r, s') => Some (s', [(id, r)]) | _ => None end
  | ServeRead id caller =>
      match get_balance (local_balance s caller) s with Done r s' => Some (s', [(id, r)]) | _ => None end
  | Outside w => Some (set_world s w, [])
  end.

Fixpoint serve_all (l : list action) s : option (st * list (nat * reply)) :=
  match l with
  | [] => Some (s, [])
  | a :: l =>
      match serve a s with
      | Some (s, rs) =>
          match serve_all l s with Some (s, rs') => Some (s, rs ++ rs') | None => None end
      | None => None
      end
  end.

Lemma serve_all_app l l' s :
  serve_all (l ++ l') s =
  match serve_all l s with
  | Some (s, rs) => match serve_all l' s with Some (s, rs') => Some (s, rs ++ rs') | None => None end
  | None => None
  end.
Proof.
  revert s. induction l as [|a l IH]; intros s; cbn.
  { by destruct (serve_all l' s) as [[s' rs]|]. }
  destruct (serve a s) as [[s1 rs]|]; [|done]. rewrite IH.
  destruct (serve_all l s1) as [[s2 rs2]|]; [|done].
  destruct (serve_all l' s2) as [[s3 rs3]|]; [|done]. by rewrite app_assoc.
Qed.

Lemma serve_all_snoc l a s s1 rs s2 rs2 :
  serve_all l s = Some (s1, rs) -> serve a s1 = Some (s2, rs2) ->
  serve_all (l ++ [a]) s = Some (s2, rs ++ rs2).
Proof. intros Hl Ha. rewrite serve_all_app, Hl. cbn. rewrite Ha. by rewrite app_nil_r. Qed.

Lemma progress_app l l' x s :
  progress (l ++ l') x s =
  match progress l x s with Some (x', s') => progress l' x' s' | None => None end.
Proof.
  revert x s. induction l as [|o l IH]; intros x s; [done|]. cbn [app progress].
  destruct o as [w|], x as [y|r]; try done. by destruct (resume y s).
Qed.

Lemma message_run_snoc caller w l o s x s' :
  message_run caller w l s = Some (inl x, s') ->
  message_run caller w (l ++ [o]) s = progress [o] (inl x) s'.
Proof.
  unfold message_run. destruct (start_write caller w s) as [y s1| |]; [|done..].
  intros Hl. by rewrite progress_app, Hl.
Qed.

(** ** A message ends, as the method of the terminal does *)

(** How many calls of the ledger a message makes at most. *)
Definition calls (x : suspended) : nat :=
  match x with
  | Reading _ | AskingMinter _ => 1
  | AskingFee => 2
  | Transferring _ c => S (measure c)
  end.

Lemma until_call_total c s :
  exists r s', (forall n, (measure c < n)%nat -> until_call n c s = Done r s') /\
    match r with inl c' => (measure c' <= measure c)%nat | inr _ => True end.
Proof.
  remember (measure c) as m eqn:Hm. revert c s Hm.
  induction (lt_wf m) as [m _ IH]. intros c s ->. destruct (awaits c s) eqn:Hc.
  { exists (inl c), s. split; [|done]. intros [|n]; cbn [until_call]; by rewrite Hc. }
  destruct (step_total c s) as ([c'|r] & s1 & Hstep & Hlt).
  - destruct (IH _ Hlt c' s1 eq_refl) as (r & s' & Hrun & Hr). exists r, s'. split.
    + intros [|n] Hn; [lia|]. cbn [until_call]. rewrite Hc, Hstep. apply Hrun. lia.
    + destruct r as [c2|]; [lia|done].
  - exists (inr r), s1. split; [|done]. intros [|n] Hn; [lia|]. cbn [until_call]. by rewrite Hc, Hstep.
Qed.

Lemma advance_total c s :
  exists r s', advance c s = Done r s' /\
    match r with inl c' => (measure c' <= measure c)%nat | inr _ => True end.
Proof.
  destruct (until_call_total c s) as (r & s' & Hrun & Hr). exists r, s'. split; [|done].
  apply Hrun. lia.
Qed.

(** A step that calls nobody. *)
Lemma advance_step c c' s s' :
  awaits c s = false -> TerminalProofs.step c s = Done (inl c') s' -> advance c s = advance c' s'.
Proof.
  intros Hc Hs. unfold advance at 1. cbn [until_call]. rewrite Hc, Hs.
  destruct (step_total c s) as (r & s1 & Hstep & Hlt). rewrite Hs in Hstep. injection Hstep as <- <-.
  destruct (until_call_total c' s') as (r & s2 & Hrun & _). unfold advance. rewrite !Hrun by lia. done.
Qed.

Lemma resume_transferring amount c s :
  resume (Transferring amount c) s =
  match TerminalProofs.step c s with
  | Done (inl c') s' => (r ← advance c'; mret (paused amount r)) s'
  | Done (inr r) s' => Done (paused amount (inr r)) s'
  | Trapped => Trapped
  | NoFuel => NoFuel
  end.
Proof. cbn [resume]. rewrite bind_eq. by destruct (TerminalProofs.step c s) as [[c'|r] s'| |]. Qed.

(** A transfer whose calls are answered without anything happening in between is the
    transfer of the terminal. *)
Lemma transfer_runs c s amount :
  exists n r s' x s1, (n <= S (measure c))%nat /\
    (forall fuel, (measure c < fuel)%nat -> run_ctl fuel c s = Done r s') /\
    (r ← advance c; mret (paused amount r)) s = Done x s1 /\
    progress (replicate n None) x s1 = Some (paused amount (inr r), s') /\
    match x with inl (Transferring _ c') => True | inl _ => False | inr _ => n = 0%nat end.
Proof.
  remember (measure c) as m eqn:Hm. revert c s Hm.
  induction (lt_wf m) as [m _ IH]. intros c s ->.
  destruct (step_total c s) as ([c'|r] & s1 & Hstep & Hlt).
  - destruct (IH _ Hlt c' s1 eq_refl) as (n & r & s' & x & s2 & Hn & Hrun & Hadv & Hp & Hx).
    assert (forall fuel, (measure c < fuel)%nat -> run_ctl fuel c s = Done r s') as Hrun'.
    { intros [|fuel] Hf; [lia|]. rewrite run_ctl_S, Hstep. apply Hrun. lia. }
    destruct (awaits c s) eqn:Hc.
    + exists (S n), r, s', (inl (Transferring amount c)), s. split_and!; [lia|done| | |done].
      * rewrite bind_eq. unfold advance. cbn [until_call]. by rewrite Hc.
      * cbn [replicate progress]. by rewrite resume_transferring, Hstep, Hadv.
    + exists n, r, s', x, s2. split_and!; [lia|done| |done|done].
      rewrite bind_eq, (advance_step c c' s s1) by done. by rewrite <- bind_eq.
  - assert (forall fuel, (measure c < fuel)%nat -> run_ctl fuel c s = Done r s1) as Hrun.
    { intros [|fuel] Hf; [lia|]. by rewrite run_ctl_S, Hstep. }
    destruct (awaits c s) eqn:Hc.
    + exists 1%nat, r, s1, (inl (Transferring amount c)), s. split_and!; [lia|done| | |done].
      * rewrite bind_eq. unfold advance. cbn [until_call]. by rewrite Hc.
      * cbn [replicate progress]. by rewrite resume_transferring, Hstep.
    + exists 0%nat, r, s1, (paused amount (inr r)), s1. split_and!; [lia|done| |done|done].
      rewrite bind_eq. unfold advance. cbn [until_call]. by rewrite Hc, Hstep.
Qed.

(** Only [debit] overdraws, before the transfer starts. *)
Definition overdraft s : bool := overdrawn (balances (terminal s)).

Lemma update_recovery_fees_overdraft s : overdraft (update_recovery_fees s) = overdraft s.
Proof. unfold update_recovery_fees. by destruct (rl_take_all _). Qed.

Lemma reject_overdraft t e s :
  match reject t e s with Done _ s' => overdraft s' = overdraft s | _ => True end.
Proof. rewrite reject_Done. destruct (ttype t) as [|[] ?]; by repeat case_decide. Qed.

Lemma goto_overdraft c t s :
  match goto c t s with Done _ s' => overdraft s' = overdraft s | _ => True end.
Proof.
  destruct c as [c|e]; cbn [goto]; [done|]. rewrite bind_eq. pose proof (reject_overdraft t e s).
  by destruct (reject t e s).
Qed.

Lemma step_overdraft c s :
  match TerminalProofs.step c s with Done _ s' => overdraft s' = overdraft s | _ => True end.
Proof.
  destruct c as [t n|t tx n|t n|t n|t n|v t n]; cbn [TerminalProofs.step].
  - by destruct (validate t).
  - destruct (next_step _ _); [done|]. case_decide; [|done]. by rewrite bind_eq, credit_Done.
  - by destruct n.
  - rewrite bind_eq, in_world_Done. apply (goto_overdraft _ _ (set_world s _)).
  - rewrite bind_eq, in_world_Done. apply (goto_overdraft _ _ (set_world s _)).
  - rewrite bind_eq. unfold update_config. destruct (_ || _).
    + rewrite ask_eq. unfold get_minting_account.
      destruct (get_icrc1_minting_account _ _) as [[a|e] w]; [|done]. cbn [after_update].
      rewrite bind_eq. unfold get, set_minting_account, run_update_callback. rewrite bind_eq.
      destruct (update_token_config _); exact (update_recovery_fees_overdraft _).
    + cbn [after_update]. rewrite bind_eq. unfold get, set_fee, run_update_callback. rewrite bind_eq.
      destruct (update_token_config _); exact (update_recovery_fees_overdraft _).
Qed.

Lemma run_ctl_overdraft fuel c s r s' :
  run_ctl fuel c s = Done r s' -> overdraft s' = overdraft s.
Proof.
  apply (run_ctl_inv (fun _ s' => overdraft s' = overdraft s) (fun _ s' => overdraft s' = overdraft s));
    [|done]. intros c1 s1 Hs1. pose proof (step_overdraft c1 s1) as Hs2.
  destruct (TerminalProofs.step c1 s1) as [[] ?| |]; congruence.
Qed.

Lemma until_call_overdraft n c s :
  match until_call n c s with Done _ s' => overdraft s' = overdraft s | _ => True end.
Proof.
  revert c s. induction n as [|n IH]; intros c s; cbn [until_call]; destruct (awaits c s); try done.
  pose proof (step_overdraft c s) as Hs. destruct (TerminalProofs.step c s) as [[c'|r] s'| |]; try done.
  specialize (IH c' s'). destruct (until_call n c' s'); congruence.
Qed.

(** The start of a method of the terminal: it ends at once, panics, or begins a transfer. *)
Definition starts_as (start : method st (suspended + reply))
    (m : nat -> method st (result (TxId * N) PaymentError)) s : Prop :=
  (exists r s', start s = Done (inr (Transferred r)) s' /\ forall fuel, m (S fuel) s = Done r s') \/
  (start s = Trapped /\ forall fuel, m fuel s = Trapped) \/
  (exists t amount s1, start s = begin_transfer t amount s1 /\
     forall fuel, m fuel s =
       ask Datatypes.id (transfer fuel t N_RETRIES) (fun tx => mret (Ok (tx, amount))) s1).

Lemma deposit_start_eq caller amount sub s :
  get_principal_subaccount caller = Ret sub ->
  deposit_start caller amount s =
    let t := deposit_transfer s caller sub amount in
    match final_amount t with
    | Err e => Done (inr (Transferred (Err (PaymentError_from_internal e)))) (counted s)
    | Ok a => begin_transfer t a (counted s)
    end.
Proof.
  intros Hsub. unfold deposit_start, next_memo. rewrite bind_eq, bind_eq, Hsub. cbn [of_outcome].
  rewrite bind_eq. unfold get. cbn zeta. change (mk_state _ _ _) with (counted s).
  change (with_memo _ _) with (deposit_transfer s caller sub amount). by destruct (final_amount _).
Qed.

Lemma withdraw_start_eq caller amount s :
  withdraw_start caller amount s =
    let t := withdrawal_transfer s caller amount in
    match validate t with
    | Err e => Done (inr (Transferred (Err (PaymentError_from_internal e)))) (counted s)
    | Ok _ => match final_amount t with
      | Err e => Done (inr (Transferred (Err (PaymentError_from_internal e)))) (counted s)
      | Ok a =>
          match bal_debit (balances (terminal s)) caller amount with
          | (Ok _, b) => begin_transfer t a (set_balances (counted s) b)
          | (Err e, b) => Done (inr (Transferred (Err (PaymentError_from_BalanceError e))))
                            (set_balances (counted s) b)
          end
      end
    end.
Proof.
  unfold withdraw_start, next_memo. rewrite bind_eq, bind_eq. unfold get. cbn zeta.
  change (mk_state _ _ _) with (counted s). set (t := withdrawal_transfer s caller amount).
  change (with_memo _ _) with t. destruct (validate t); [|done]. destruct (final_amount t) as [paid|e]; [|done].
  rewrite bind_eq. change (Payments.amount t) with amount. unfold debit.
  change (balances (terminal (counted s))) with (balances (terminal s)).
  by destruct (bal_debit (balances (terminal s)) caller amount) as [[k|x] b].
Qed.

Lemma deposit_starts_as caller amount s :
  starts_as (deposit_start caller amount) (fun fuel => deposit fuel caller amount) s.
Proof.
  destruct (get_principal_subaccount caller) as [sub|] eqn:Hsub.
  2: { right. left. unfold deposit_start, deposit, next_memo. rewrite bind_eq, bind_eq, Hsub.
       by split. }
  pose proof (fun fuel => deposit_eq fuel caller amount sub s Hsub) as Hdep. cbn zeta in Hdep.
  unfold starts_as. rewrite (deposit_start_eq _ _ _ _ Hsub). cbn zeta. setoid_rewrite Hdep.
  destruct (final_amount _) as [a|e]; [right; right; by eexists _, _, _|left; by eexists _, _].
Qed.

Lemma withdraw_starts_as caller amount s :
  starts_as (withdraw_start caller amount) (fun fuel => withdraw fuel caller amount) s.
Proof.
  pose proof (fun fuel => withdraw_eq fuel caller amount s) as Hwd. cbn zeta in Hwd.
  set (t := withdrawal_transfer s caller amount) in *.
  unfold starts_as. rewrite withdraw_start_eq. cbn zeta. fold t. setoid_rewrite Hwd.
  destruct (validate t) as [[]|e]; [|left; by eexists _, _].
  destruct (final_amount t) as [a|e]; [|left; by eexists _, _].
  destruct (bal_debit (balances (terminal s)) caller amount) as [[k|x] b']; cbn [map_err].
  - right. right. by eexists _, _, _.
  - left. by eexists _, _.
Qed.

Lemma guarded_runs start m s x :
  starts_as start m s ->
  exists n r s', match guarded start s with Done y s1 => progress (replicate n None) y s1 | _ => None end =
      Some (inr r, s') /\ transferred (m (transfer_fuel N_RETRIES + x)%nat) s = Done r s'.
Proof.
  unfold guarded, transferred.
  intros [(r & s1 & -> & Hm)|[[-> ->]|(t & amount & s1 & -> & ->)]].
  - rewrite (Hm (transfer_fuel N_RETRIES + x - 1)%nat : m (transfer_fuel N_RETRIES + x)%nat s = Done r s1).
    exists 0%nat. destruct (overdrawn _); by eexists _, _.
  - by exists 0%nat, Trap, s.
  - destruct (transfer_runs (CTransfer t N_RETRIES) s1 amount) as (n & r & s' & y & s2 & _ & Hrun & Hadv & Hp & _).
    specialize (Hrun (transfer_fuel N_RETRIES + x)%nat
      (measure_transfer_fuel _ t N_RETRIES x (or_introl eq_refl))).
    rewrite ask_eq. change (transfer ?f t N_RETRIES s1) with (run_ctl f (CTransfer t N_RETRIES) s1).
    unfold begin_transfer. rewrite Hrun, Hadv.
    assert (overdraft s2 = overdraft s1) as Ho2.
    { pose proof (until_call_overdraft (S (measure (CTransfer t N_RETRIES))) (CTransfer t N_RETRIES) s1) as Ho.
      unfold advance in Hadv. rewrite bind_eq in Hadv.
      destruct (until_call _ _ s1) as [a s3| |]; [|done..]. by injection Hadv as _ <-. }
    pose proof (run_ctl_overdraft _ _ _ _ _ Hrun) as Ho'. unfold overdraft in *.
    assert (match match r with Ok a => Done (Ok (a, amount)) s' | Err e => Done (Err (Datatypes.id e)) s' end with
      | Done r1 s1' => if overdrawn (balances (terminal s1')) then Done Trap s else Done (Transferred r1) s1'
      | Trapped => Done Trap s | NoFuel => NoFuel end =
      if overdrawn (balances (terminal s1)) then Done Trap s
      else Done (Transferred (result_map (fun tx => (tx, amount)) r)) s') as Heq
      by (destruct r; by rewrite Ho').
    exists (if overdrawn (balances (terminal s1)) then 0%nat else n). rewrite Ho2.
    destruct (overdrawn (balances (terminal s1))) eqn:Hov; do 2 eexists; (split; [|exact Heq]); [done|exact Hp].
Qed.

Lemma configure_runs s :
  exists n r s', progress (replicate n None) (inl AskingFee) s = Some (inr r, s') /\
    configure s = Done r s'.
Proof.
  unfold configure, get_icrc1_configuration. destruct (get_icrc1_fee (world s) _) as [[fee|e] w1] eqn:Hf.
  - destruct (get_icrc1_minting_account w1 (cfg_principal (config s))) as [[m|e] w2] eqn:Hm;
      exists 2%nat; do 2 eexists; cbn [replicate progress resume]; rewrite Hf; cbn [progress resume];
      change (world (set_world s w1)) with w1; change (config (set_world s w1)) with (config s);
      rewrite Hm; by split.
  - exists 1%nat. do 2 eexists. cbn [replicate progress resume]. rewrite Hf. by split.
Qed.

(** A message to which nothing else happens is served as by the method of the terminal. *)
Lemma serve_write id caller w s x :
  exists n r s', serve (ServeWrite id caller w (replicate n None)) s = Some (s', [(id, r)]) /\
    write (transfer_fuel N_RETRIES + x) caller w s = Done r s'.
Proof.
  cbn [serve]. unfold message_run. destruct w as [|amount|amount]; cbn [start_write write].
  - destruct (configure_runs s) as (n & r & s' & Hp & Hc). exists n, r, s'.
    unfold mret, method_ret. by rewrite Hp.
  - destruct (guarded_runs _ _ s x (deposit_starts_as caller amount s)) as (n & r & s' & Hp & Hw).
    exists n, r, s'. by rewrite Hp.
  - destruct (guarded_runs _ _ s x (withdraw_starts_as caller amount s)) as (n & r & s' & Hp & Hw).
    exists n, r, s'. by rewrite Hp.
Qed.

Lemma start_write_total caller w s : exists x s', start_write caller w s = Done x s'.
Proof.
  destruct (serve_write 0 caller w s 0) as (n & r & s' & Hs & _). cbn [serve] in Hs.
  unfold message_run in Hs. destruct (start_write caller w s) as [x s1| |]; [by eexists _, _|done..].
Qed.

Lemma resume_total x s : exists y s', resume x s = Done y s'.
Proof.
  destruct x as [local| |fee|amount c].
  - cbn [resume]. destruct (get_icrc1_balance _ _ _) as [r w]. by eexists _, _.
  - cbn [resume]. destruct (get_icrc1_fee _ _) as [r w]. by eexists _, _.
  - cbn [resume]. destruct (get_icrc1_minting_account _ _) as [[m|e] w]; by eexists _, _.
  - rewrite resume_transferring. destruct (step_total c s) as ([c'|r] & s1 & -> & _); [|by eexists _, _].
    rewrite bind_eq. destruct (advance_total c' s1) as (r & s2 & -> & _). by eexists _, _.
Qed.

(** A message that waits ends after a bounded number of answers. *)
Lemma pending_ends x s :
  exists n r s', (0 < n <= calls x)%nat /\ progress (replicate n None) (inl x) s = Some (inr r, s').
Proof.
  destruct x as [local| |fee|amount c].
  - exists 1%nat. cbn. destruct (get_icrc1_balance _ _ _) as [r w]. do 2 eexists. split; [lia|done].
  - destruct (configure_runs s) as (n & r & s' & Hp & _).
    cbn [calls]. destruct (get_icrc1_fee (world s) (cfg_principal (config s))) as [[fee|e] w1] eqn:Hf.
    + exists 2%nat. cbn [replicate progress resume]. rewrite Hf. cbn [progress resume].
      destruct (get_icrc1_minting_account _ _) as [[m|e] w2]; do 2 eexists; (split; [lia|done]).
    + exists 1%nat. cbn [replicate progress resume]. rewrite Hf. do 2 eexists. split; [lia|done].
  - exists 1%nat. cbn. destruct (get_icrc1_minting_account _ _) as [[m|e] w]; do 2 eexists; (split; [lia|done]).
  - cbn [calls]. destruct (step_total c s) as ([c'|r] & s1 & Hstep & Hlt).
    + destruct (transfer_runs c' s1 amount) as (n & r & s' & y & s2 & Hn & _ & Hadv & Hp & _).
      exists (S n). do 2 eexists. split; [lia|]. cbn [replicate progress].
      rewrite resume_transferring, Hstep, Hadv. exact Hp.
    + exists 1%nat. do 2 eexists. split; [lia|]. cbn [replicate progress].
      by rewrite resume_transferring, Hstep.
Qed.

(** ** Messages that overlap are served one after the other *)

Definition served (rs : list (nat * reply)) : list (nat * reply) :=
  List.filter (fun r => match r.2 with AlreadyBorrowed => false | _ => true end) rs.

Lemma served_app rs rs' : served (rs ++ rs') = served rs ++ served rs'.
Proof. apply List.filter_app. Qed.

Lemma served_borrowed rs id : served (rs ++ [(id, AlreadyBorrowed)]) = served rs.
Proof. by rewrite served_app, app_nil_r. Qed.

(** A reply of a message that was served. *)
Definition answers (r : reply) : Prop := r <> AlreadyBorrowed.

Lemma served_answer rs id r : answers r -> served (rs ++ [(id, r)]) = served rs ++ [(id, r)].
Proof. intros Hr. rewrite served_app. unfold served at 2. cbn. by destruct r. Qed.

Lemma paused_answers amount x r : paused amount x = inr r -> answers r.
Proof. destruct x; [done|]. by intros [= <-]. Qed.

Lemma resume_answers x s r s' : resume x s = Done (inr r) s' -> answers r.
Proof.
  destruct x as [local| |fee|amount c].
  - cbn [resume]. destruct (get_icrc1_balance _ _ _) as [[] w]; by intros [= <- _].
  - cbn [resume]. destruct (get_icrc1_fee _ _) as [[] w]; by intros [= <- _].
  - cbn [resume]. destruct (get_icrc1_minting_account _ _) as [[] w]; by intros [= <- _].
  - rewrite resume_transferring. destruct (TerminalProofs.step c s) as [[c'|r'] s1| |]; [|by intros [= <- _]|done..].
    rewrite bind_eq. destruct (advance c' s1) as [y s2| |]; [|done..]. intros [= Hy _].
    by apply paused_answers in Hy.
Qed.

Lemma begin_transfer_answers t amount s r s' : begin_transfer t amount s = Done (inr r) s' -> answers r.
Proof.
  unfold begin_transfer. rewrite bind_eq. destruct (advance _ _) as [y s1| |]; [|done..].
  intros [= Hy _]. by apply paused_answers in Hy.
Qed.

Lemma guarded_answers start m s r s' :
  starts_as start m s -> guarded start s = Done (inr r) s' -> answers r.
Proof.
  intros Hst. unfold guarded. destruct (start s) as [x s1| |] eqn:Hs; [|by intros [= <- _]|done].
  destruct (overdrawn _); [by intros [= <- _]|]. intros [= -> _].
  destruct Hst as [(r0 & s2 & Hr & _)|[[? _]|(t & amount & s2 & Hr & _)]]; [|congruence|].
  - rewrite Hs in Hr. by injection Hr as -> _.
  - rewrite Hs in Hr. by apply eq_sym, begin_transfer_answers in Hr.
Qed.

Lemma start_answers caller w s r s' : start_write caller w s = Done (inr r) s' -> answers r.
Proof.
  destruct w as [|amount|amount]; [done|apply (guarded_answers _ _ _ _ _ (deposit_starts_as caller amount s))|].
  apply (guarded_answers _ _ _ _ _ (withdraw_starts_as caller amount s)).
Qed.

Definition message : Type := nat * Principal * request.

Definition in_flight (c : canister) : list message :=
  (fun m => (pid m, pcaller m, prequest m)) <$> waiting c.

Definition started (es : list event) : list message :=
  flat_map (fun e => match e with Start id caller req => [(id, caller, req)] | _ => [] end) es.

Definition messages (l : list action) : list message :=
  flat_map (fun a => match a with
    | ServeWrite id caller w _ => [(id, caller, Write w)]
    | ServeRead id caller => [(id, caller, GetBalance)]
    | Outside _ => []
    end) l.

Definition ids (l : list message) : list nat := (fun m => m.1.1) <$> l.

(** Readers hold what the balances still say; a writer under way has come as far as if it
    had the canister to itself. *)
Definition serial s (l : list action) (rs : list (nat * reply)) (c : canister) : Prop :=
  match cell c with
  | Readers n =>
      serve_all l s = Some (data c, served rs) /\ length (waiting c) = n /\
      Forall (fun m => prequest m = GetBalance /\
        point m = Reading (local_balance (data c) (pcaller m))) (waiting c)
  | Writing =>
      exists m w k s1, waiting c = [m] /\ prequest m = Write w /\
        serve_all l s = Some (s1, served rs) /\
        message_run (pcaller m) w k s1 = Some (inl (point m), data c)
  end.

(** The messages that are answered and under way after an event. *)
Definition accounts e (c c' : canister) (la : list action) (rs : list (nat * reply)) : Prop :=
  messages la ++ in_flight c' ⊆+ in_flight c ++ started [e] /\
  rs.*1 ++ ids (in_flight c') ≡ₚ ids (in_flight c) ++ ids (started [e]).

Lemma take_pending_perm id l m rest :
  take_pending id l = Some (m, rest) -> l ≡ₚ m :: rest /\ pid m = id.
Proof.
  revert rest. induction l as [|m0 l IH]; intros rest; [done|]. cbn.
  destruct (decide (id = pid m0)) as [->|]; [by intros [= <- <-]|].
  destruct (take_pending id l) as [[m1 rest1]|]; [|done]. intros [= <- <-].
  destruct (IH rest1 eq_refl) as [-> <-]. split; [apply Permutation_swap|done].
Qed.

Lemma take_pending_None id l : take_pending id l = None -> id ∉ pid <$> l.
Proof.
  induction l as [|m l IH]; cbn; [by intros _ ?%not_elem_of_nil|].
  destruct (decide (id = pid m)) as [|Hne]; [done|]. destruct (take_pending id l) as [[]|]; [done|].
  intros _. apply not_elem_of_cons. auto.
Qed.

Lemma start_serial s l rs id caller req c c' rs' :
  serial s l rs c -> step (Start id caller req) c = Some (c', rs') ->
  exists la, serial s (l ++ la) (rs ++ rs') c' /\ accounts (Start id caller req) c c' la rs'.
Proof.
  destruct c as [f ms d]. intros Hc. cbn [step cell waiting data].
  assert (forall c', Some (mk_canister f ms d, [(id, AlreadyBorrowed)]) = Some (c', rs') ->
    exists la, serial s (l ++ la) (rs ++ rs') c' /\ accounts (Start id caller req)
      (mk_canister f ms d) c' la rs') as Hrefused.
  { intros ? [= <- <-]. exists []. rewrite app_nil_r. split.
    - unfold serial in *. by rewrite served_borrowed.
    - split; cbn; [solve_submseteq|solve_Permutation]. }
  destruct req as [w|].
  - destruct f as [[|n]|]; [|by apply Hrefused..]. destruct Hc as (Hall & Hlen & _).
    cbn in Hall, Hlen. apply nil_length_inv in Hlen. subst ms.
    destruct (start_write caller w d) as [[x|r] s1| |] eqn:Hst; [| |done..]; intros [= <- <-].
    + exists []. rewrite !app_nil_r. split; [|split; done].
      exists (mk_pending id caller (Write w) x), w, [], d. split_and!; [done..|].
      unfold message_run. cbn [pcaller point data progress]. by rewrite Hst.
    + exists [ServeWrite id caller w []]. split; [|split; done].
      split_and!; [|done|by constructor]. cbn [data waiting cell].
      rewrite (served_answer _ _ _ (start_answers _ _ _ _ _ Hst)).
      apply (serve_all_snoc _ _ _ _ _ _ _ Hall). cbn. unfold message_run. by rewrite Hst.
  - destruct f as [n|]; [|by apply Hrefused]. intros [= <- <-]. exists []. rewrite !app_nil_r.
    destruct Hc as (Hall & Hlen & Hms). split.
    + split_and!; [done|cbn in *; lia|]. by constructor.
    + split; cbn; [solve_submseteq|solve_Permutation].
Qed.

Lemma answer_serial s l rs id c c' rs' :
  serial s l rs c -> step (Answer id) c = Some (c', rs') ->
  exists la, serial s (l ++ la) (rs ++ rs') c' /\ accounts (Answer id) c c' la rs'.
Proof.
  destruct c as [f ms d]. intros Hc. cbn [step cell waiting data].
  destruct (take_pending id ms) as [[m rest]|] eqn:Htake; [|done].
  apply take_pending_perm in Htake as [Hms Hid]. destruct f as [n|].
  - destruct Hc as (Hall & Hlen & Hrd). cbn in Hall, Hlen, Hrd. rewrite Hms in Hrd, Hlen.
    apply Forall_cons in Hrd as [[Hreq Hpt] Hrd]. rewrite Hpt.
    destruct (resume (Reading _) d) as [y s1| |] eqn:Hr; cbn [resume] in Hr;
      destruct (get_icrc1_balance _ _ _) as [b w] eqn:Hb; [|done..]. injection Hr as <- <-.
    intros [= <- <-]. set (r := match b with Ok token => _ | Err _ => _ end).
    exists [ServeRead (pid m) (pcaller m)]. split.
    + split_and!; cbn [data waiting cell release].
      * rewrite served_answer by (unfold r; by destruct b).
        apply (serve_all_snoc _ _ _ _ _ _ _ Hall). cbn [serve]. unfold get_balance. by rewrite Hb.
      * cbn in Hlen. lia.
      * exact Hrd.
    + set (c' := mk_canister _ rest _).
      assert (in_flight (mk_canister (Readers n) ms d) ≡ₚ (pid m, pcaller m, GetBalance) :: in_flight c') as Hfl.
      { unfold in_flight. cbn [waiting c']. etrans; [apply (fmap_Permutation _ _ _ Hms)|]. cbn. by rewrite Hreq. }
      unfold accounts, ids. rewrite Hfl. cbn. by rewrite !app_nil_r.
  - destruct Hc as (m0 & w & k & s1 & Hw & Hreq & Hall & Hrun). cbn [cell waiting data] in *. subst ms.
    assert (m = m0 /\ rest = []) as [-> ->].
    { apply Permutation_singleton_l in Hms. by injection Hms as -> ->. }
    destruct (resume (point m0) d) as [[x|r] s2| |] eqn:Hr; [| |done..]; intros [= <- <-].
    + exists []. rewrite !app_nil_r. split; [|split; done].
      exists (mk_pending (pid m0) (pcaller m0) (prequest m0) x), w, (k ++ [None]), s1.
      split_and!; [done..|]. cbn [pcaller point data].
      rewrite (message_run_snoc _ _ _ _ _ _ _ Hrun). cbn. by rewrite Hr.
    + exists [ServeWrite (pid m0) (pcaller m0) w (k ++ [None])]. split.
      * split_and!; [|done|by constructor]. cbn [data].
        rewrite (served_answer _ _ _ (resume_answers _ _ _ _ Hr)).
        apply (serve_all_snoc _ _ _ _ _ _ _ Hall). cbn [serve].
        rewrite (message_run_snoc _ _ _ _ _ _ _ Hrun). cbn. by rewrite Hr.
      * unfold accounts, in_flight. cbn. by rewrite Hreq.
Qed.

Lemma step_serial s l rs e c c' rs' :
  serial s l rs c -> step e c = Some (c', rs') ->
  exists la, serial s (l ++ la) (rs ++ rs') c' /\ accounts e c c' la rs'.
Proof.
  destruct e as [id caller req|id|w]; [apply start_serial|apply answer_serial|].
  destruct c as [f ms d]. intros Hc [= <- <-].
  assert (forall la, messages la = [] ->
    accounts (Environment w) (mk_canister f ms d) (mk_canister f ms (set_world d w)) la []) as Hacc.
  { intros la Hla. split; cbn; rewrite ?Hla, app_nil_r; done. }
  rewrite app_nil_r. destruct f as [n|].
  - destruct Hc as (Hall & Hlen & Hrd). cbn in Hall, Hlen, Hrd. exists [Outside w]. split; [|by apply Hacc].
    split_and!; [|done|exact Hrd].
    pose proof (serve_all_snoc _ _ _ _ _ _ _ Hall (eq_refl : serve (Outside w) d = Some (set_world d w, []))) as Hs.
    by rewrite app_nil_r in Hs.
  - destruct Hc as (m & w' & k & s1 & Hw & Hreq & Hall & Hrun). cbn [cell waiting data] in *.
    exists []. rewrite app_nil_r. split; [|by apply Hacc]. exists m, w', (k ++ [Some w]), s1.
    split_and!; [done..|]. cbn [data]. by rewrite (message_run_snoc _ _ _ _ _ _ _ Hrun).
Qed.

Lemma steps_serial s l rs es c c' rs' :
  serial s l rs c -> steps es c = Some (c', rs') ->
  exists la, serial s (l ++ la) (rs ++ rs') c' /\
    messages la ++ in_flight c' ⊆+ in_flight c ++ started es /\
    rs'.*1 ++ ids (in_flight c') ≡ₚ ids (in_flight c) ++ ids (started es).
Proof.
  revert l rs c rs'. induction es as [|e es IH]; intros l rs c rs' Hc.
  { intros [= <- <-]. exists []. rewrite !app_nil_r. done. }
  cbn [steps]. destruct (step e c) as [[c1 rs1]|] eqn:Hs; [|done].
  destruct (step_serial s l rs e c c1 rs1 Hc Hs) as (la & Hc1 & Hm & Hi).
  destruct (steps es c1) as [[c2 rs2]|] eqn:Hs2; [|done]. intros [= <- <-].
  destruct (IH _ _ c1 rs2 Hc1 Hs2) as (la2 & Hc2 & Hm2 & Hi2). exists (la ++ la2).
  rewrite <- !app_assoc in Hc2. split; [done|].
  change (started (e :: es)) with (started ([e] ++ es)).
  assert (started ([e] ++ es) = started [e] ++ started es) as -> by apply flat_map_app.
  assert (messages (la ++ la2) = messages la ++ messages la2) as -> by apply flat_map_app.
  split.
  - rewrite <-app_assoc. etrans; [apply submseteq_skips_l, Hm2|]. rewrite !app_assoc.
    by apply submseteq_skips_r.
  - unfold ids in *. rewrite !fmap_app, <-app_assoc, Hi2, !app_assoc. by apply Permutation_app_tail.
Qed.

(** The answers that end a message. *)
Lemma answers_end c m n r s' :
  cell c = Writing -> waiting c = [m] ->
  progress (replicate n None) (inl (point m)) (data c) = Some (inr r, s') ->
  steps (replicate n (Answer (pid m))) c = Some (mk_canister (Readers 0) [] s', [(pid m, r)]).
Proof.
  destruct c as [f ms d]. cbn [cell waiting data]. intros -> ->. revert m d.
  induction n as [|n IH]; intros m d; [done|]. cbn [replicate progress steps step waiting data cell].
  cbn [take_pending]. rewrite decide_True by done. cbv iota beta.
  destruct (resume (point m) d) as [[x|r'] s1| |]; [| |done..].
  - intros Hp. rewrite (IH (mk_pending (pid m) (pcaller m) (prequest m) x)) by exact Hp. done.
  - destruct n as [|n]; [|done]. by intros [= <- <-].
Qed.

(** C12: Whatever messages of the canister overlap, at whatever calls of the ledger they
    wait for each other and whatever happens on the ledger meanwhile, they are served one
    after the other: the state of the terminal and the replies of a run, but for the
    messages that found the state borrowed, are those of serving one message at a time,
    where a message that changes the state is served as by the method of the terminal;
    one that is still under way has come as far as it would on its own, and ends after
    finitely many answers.  Every message is answered once or still under way, and only
    answers to messages that are not under way are impossible. *)
Theorem payment_canister_serial es s c rs :
  steps es (mk_canister (Readers 0) [] s) = Some (c, rs) ->
  (exists l, messages l ++ in_flight c ⊆+ started es /\
     match cell c with
     | Readers _ => serve_all l s = Some (data c, served rs)
     | Writing => exists m w k s1, waiting c = [m] /\ prequest m = Write w /\
         serve_all l s = Some (s1, served rs) /\
         message_run (pcaller m) w k s1 = Some (inl (point m), data c) /\
         exists n r s2, (0 < n <= calls (point m))%nat /\
           steps (replicate n (Answer (pid m))) c =
             Some (mk_canister (Readers 0) [] s2, [(pid m, r)])
     end) /\
  rs.*1 ++ ids (in_flight c) ≡ₚ ids (started es) /\
  (forall e, step e c = None -> exists id, e = Answer id /\ id ∉ ids (in_flight c)) /\
  (forall id caller w x, exists n r s1,
     serve (ServeWrite id caller w (replicate n None)) (data c) = Some (s1, [(id, r)]) /\
     write (transfer_fuel N_RETRIES + x) caller w (data c) = Done r s1).
Proof.
  intros Hs. assert (serial s [] [] (mk_canister (Readers 0) [] s)) as Hc by (split_and!; [done..|constructor]).
  destruct (steps_serial s [] [] es _ c rs Hc Hs) as (l & Hl & Hm & Hi). cbn [app] in *.
  split_and!; [|exact Hi| |].
  - exists l. split; [exact Hm|]. unfold serial in Hl. destruct (cell c) eqn:Hcell; [by destruct Hl|].
    destruct Hl as (m & w & k & s1 & Hw & Hreq & Hall & Hrun). exists m, w, k, s1. split_and!; [done..|].
    destruct (pending_ends (point m) (data c)) as (n & r & s2 & Hn & Hp). exists n, r, s2.
    split; [done|]. by apply answers_end.
  - intros e He. destruct c as [f ms d]. destruct e as [id caller [w|]|id|w]; cbn [step cell data waiting] in He.
    + destruct f as [[|]|]; [|done..]. destruct (start_write_total caller w d) as (x & s1 & Hst).
      rewrite Hst in He. by destruct x.
    + by destruct f.
    + exists id. split; [done|]. destruct (take_pending id ms) as [[m rest]|] eqn:Ht.
      * destruct (resume_total (point m) d) as (y & s1 & Hr). rewrite Hr in He. by destruct y.
      * apply take_pending_None in Ht. unfold ids, in_flight. by rewrite <- list_fmap_compose.
    + done.
  - intros id caller w x. apply serve_write.
Qed.
End canister.

(** ** The canister is solvent *)

Section solvent.
Context {R W : Type} `{PaymentLib, !PaymentLibLaws, World W, RecoveryList R, !RecoveryListLaws R}.
Context `{!LedgerSpec W, Target}.
Context (ledger_fee : N) (window : Z) `{!LedgerLaws W ledger_fee window}.
Context (memo_inj : forall i j, 0 <= i < 2 ^ 64 -> 0 <= j < 2 ^ 64 ->
  memo_of_u64 i = memo_of_u64 j -> i = j).
Notation st := (state TestBalances R W).
Notation books_ok := (books_ok ledger_fee window []).
Implicit Types (s : st) (caller : Principal).

(** What the ledger tells of itself: the fee it takes, and its minting account, which is
    not one of the canister. *)
Class LedgerTells := {
  tells_fee (w : W) p r w' : call_icrc1_fee w p = (r, w') ->
    ledger_log w' = ledger_log w /\ (forall fee, r = Ok fee -> fee = ledger_fee);
  tells_minter (w : W) p r w' : call_icrc1_minting_account w p = (r, w') ->
    ledger_log w' = ledger_log w /\ (forall m, r = Ok m -> m = ledger_minter W p);
  other_minter p : owner (default no_minting_account (ledger_minter W p)) <> ic_id;
}.
Context `{!LedgerTells}.

(** A fee and a minting account from the ledger put the books in order if nothing waits
    for recovery and no more is owed than there is. *)
Record unconfigured_ok s : Prop := {
  unconfigured_period : TX_WINDOW <= deduplication_period (terminal s) < 2 ^ 64;
  unconfigured_window : deduplication_period (terminal s) <= window;
  unconfigured_counter : 0 <= TX_COUNTER s;
  unconfigured_memos : forall e, e ∈ log s -> e.1 = cfg_principal (config s) ->
    exists i, 0 <= i < TX_COUNTER s /\ arg_memo e.2 = Some (memo_of_u64 i);
  unconfigured_list : rl_ok (recovery_list (terminal s)) /\ saved s = [];
  unconfigured_surplus : 0 <= surplus s;
}.

Lemma books_unconfigured s : books_ok s -> saved s = [] -> unconfigured_ok s.
Proof.
  intros [? ? ? ? ? ? ? ? [? ? ? ? ? Hs]] Hsaved. split; try done. cbn in Hs. by rewrite Hsaved in Hs.
Qed.

Lemma update_recovery_fees_empty s :
  rl_ok (recovery_list (terminal s)) -> saved s = [] ->
  exists rl, update_recovery_fees s = set_recovery_list s rl /\ rl_ok rl /\ rl_view rl = [].
Proof.
  intros Hok Hs. unfold update_recovery_fees.
  destruct (rl_take_all_law (recovery_list (terminal s))) as [Hl Hv].
  pose proof (rl_take_all_ok _ Hok) as Hok'.
  destruct (rl_take_all (recovery_list (terminal s))) as [l rl]. cbn in Hl, Hv, Hok'.
  rewrite Hl. change (rl_view (recovery_list (terminal s))) with (saved s). rewrite Hs. by exists rl.
Qed.

Lemma configured_ok s fee m :
  unconfigured_ok s -> fee = ledger_fee ->
  m = default no_minting_account (ledger_minter W (cfg_principal (config s))) ->
  books_ok (set_minting_account (set_fee s fee) m).
Proof.
  intros [Hper Hwin Hctr Hmem [Hrl Hsav] Hsur] -> Hm. pose proof (other_minter (cfg_principal (config s))).
  rewrite <- Hm in *. unfold set_fee, set_minting_account.
  destruct (update_recovery_fees_empty
    (set_config s (mk_config (cfg_principal (config s)) ledger_fee (minting_account (config s)))))
    as (rl & -> & Hrl1 & Hv1); [exact Hrl|exact Hsav|].
  match goal with |- context [update_recovery_fees ?s2] =>
    destruct (update_recovery_fees_empty s2) as (rl2 & -> & Hrl2 & Hv2); [exact Hrl1|exact Hv1|] end.
  split; try done. assert (forall x : Transfer, x ∉ rl_view rl2) as Hnil
    by (intros x; rewrite Hv2; apply not_elem_of_nil).
  cbn [app]. unfold saved. cbn. split; try (intros x; intros; by destruct (Hnil x)).
  - rewrite Hv2. constructor.
  - rewrite Hv2. cbn. exact Hsur.
Qed.

Lemma unconfigured_world s w :
  ledger_log w = log s -> unconfigured_ok s -> unconfigured_ok (set_world s w).
Proof.
  intros Hw [? ? ? Hmem ? Hsur]. split; try done.
  - intros e. unfold log. cbn. rewrite Hw. apply Hmem.
  - rewrite surplus_world by done. exact Hsur.
Qed.

Lemma configure_books s :
  unconfigured_ok s ->
  exists r s', configure s = Done r s' /\
    (r = Configured /\ books_ok s' \/ exists w, s' = set_world s w /\ ledger_log w = log s).
Proof.
  intros Hs. unfold configure, get_icrc1_configuration, get_icrc1_fee, get_icrc1_minting_account.
  destruct (call_icrc1_fee (world s) _) as [r1 w1] eqn:Hc1. apply tells_fee in Hc1 as [Hw1 Hf].
  destruct r1 as [fee|c]; cbn.
  2: { eexists _, _. split; [done|]. right. by exists w1. }
  destruct (call_icrc1_minting_account w1 _) as [r2 w2] eqn:Hc2. apply tells_minter in Hc2 as [Hw2 Hm].
  assert (ledger_log w2 = log s) as Hw by (by rewrite Hw2, Hw1).
  destruct r2 as [m|c]; cbn.
  2: { eexists _, _. split; [done|]. right. by exists w2. }
  eexists _, _. split; [done|]. left. split; [done|].
  apply configured_ok; [by apply unconfigured_world|by apply Hf|]. by rewrite (Hm m).
Qed.

(** *** A transfer under way *)

(** The transfer [t] started in [s1] and has come to the point [c]. *)
Record running (t : Transfer) s1 (c : ctl) s : Prop := {
  running_books : BooksProps.books_ok ledger_fee window [t] s1;
  running_bookable : bookable (W := W) ledger_fee t;
  running_new : entry_of (W := W) t ∉ log s1;
  running_inv : book_inv ledger_fee t (balances (terminal s1)) (log s1) (log s1 ++ [entry_of (W := W) t])
    (recovery_list (terminal s1)) (kept s1) c s;
  running_frame : frame s1 s;
}.

Lemma running_first t s1 c s :
  running t s1 c s -> after_first (W := W) t (log s1) (log s1 ++ [entry_of (W := W) t]).
Proof. intros Hr. right. split; [apply Hr|done]. Qed.

Lemma running_token t s1 c s : running t s1 c s -> token t = cfg_principal (config s1).
Proof.
  intros Hr. by apply (saved_token _ _ _ (pool_saved _ _ _ (books_pool _ _ _ _ (running_books _ _ _ _ Hr)) t ltac:(left))).
Qed.

(** What ends as [booked] leaves the books in order. *)
Lemma running_booked t s1 c s r s' :
  running t s1 c s -> frame s1 s' ->
  book_end t (balances (terminal s1)) (log s1) (log s1 ++ [entry_of (W := W) t])
    (recovery_list (terminal s1)) (kept s1) r s' ->
  exists keep, outcome t keep s1 s'.
Proof.
  intros Hr Hf [Hb Hk].
  destruct (book_outcome t _ r s1 s' (bookable_kind _ _ (running_bookable _ _ _ _ Hr))
    (running_token _ _ _ _ Hr) (running_first _ _ _ _ Hr) Hb Hk) as (keep & Hout & _).
  by exists keep.
Qed.

(** The calls of an opening are answered within five minutes of its creation. *)
Definition answered_in_time (c : ctl) s : Prop :=
  timely (created_at (ctl_transfer c) + TX_WINDOW) c s.

Lemma running_step t s1 c s :
  running t s1 c s -> answered_in_time c s ->
  match TerminalProofs.step c s with
  | Done (inl c') s' => running t s1 c' s'
  | Done (inr _) s' => books_ok s'
  | _ => False
  end.
Proof.
  intros Hr Htime.
  pose proof (books_window _ _ _ _ (running_books _ _ _ _ Hr)).
  pose proof (books_period _ _ _ _ (running_books _ _ _ _ Hr)).
  assert (timely (created_at t + window) c s) as Htime'.
  { destruct (running_inv _ _ _ _ Hr) as [(Hct & _)|(t2 & ((((acc & Hty) & _) & _) & _ & Hct & _))];
      destruct c; try done; cbn in Hct; subst; intros Ho; try (by destruct (Ho acc));
      specialize (Htime Ho); cbn in Htime; lia. }
  pose proof (step_books ledger_fee window t _ _ _ _ _ c s (running_bookable _ _ _ _ Hr)
    (running_first _ _ _ _ Hr) (running_inv _ _ _ _ Hr) Htime') as Hs.
  pose proof (step_frame c s) as Hf. destruct (step_total c s) as (y & s' & Hstep & _).
  rewrite Hstep in *.
  assert (frame s1 s') as Hf1 by (etrans; [apply Hr|exact Hf]).
  destruct y as [c'|r].
  - destruct Hr. by split.
  - destruct (running_booked t s1 c s r s' Hr Hf1 Hs) as [keep Hout].
    apply (books_outcome _ _ t keep [] s1); [apply Hr|done..].
Qed.

Lemma awaits_timely c s : awaits c s = false -> answered_in_time c s.
Proof. by destruct c. Qed.

Lemma running_advance t s1 c s :
  running t s1 c s ->
  match advance c s with
  | Done (inl c') s' => running t s1 c' s'
  | Done (inr _) s' => books_ok s'
  | _ => False
  end.
Proof.
  intros Hr. destruct (advance_total c s) as (y & s' & Hadv & _). rewrite Hadv. unfold advance in Hadv.
  revert Hadv. generalize (S (measure c)). intros n. revert c s Hr.
  induction n as [|n IH]; intros c s Hr; cbn [until_call]; destruct (awaits c s) eqn:Hc;
    [by intros [= <- <-]|done|by intros [= <- <-]|].
  pose proof (running_step t s1 c s Hr (awaits_timely c s Hc)) as Hs.
  destruct (TerminalProofs.step c s) as [[c'|r] s2| |]; [by apply IH|by intros [= <- <-]|done..].
Qed.

Lemma running_world t s1 c s w : ledger_log w = log s -> running t s1 c s -> running t s1 c (set_world s w).
Proof.
  intros Hw [Hb Hbk Hn Hinv Hf]. split; [done..| |by etrans; [apply Hf|]].
  destruct Hinv as [(Hct & Hlog & Hrest)|(t2 & Hs2 & Hf2 & Hct & Hc & Hb2 & Hr2 & Hk2 & l & Hl & Hq)].
  - left. split_and!; try apply Hrest; [done|].
    destruct c; cbn [first_log] in *; cbn [world set_world]; rewrite ?Hw; exact Hlog.
  - right. exists t2. split_and!; [done..|]. split_and!; try done. exists l. cbn [world set_world].
    by rewrite Hw.
Qed.

(** The canister is solvent while a transfer is under way: it would be if the transfer
    were saved now. *)
Lemma running_solvent t s1 c s :
  running t s1 c s -> claims (W := W) (log s) (saved s) <= surplus s.
Proof.
  intros Hr.
  assert (exists k, book_end t (balances (terminal s1)) (log s1) (log s1 ++ [entry_of (W := W) t])
    (recovery_list (terminal s1)) (kept s1) (Err (PE_Recoverable IcError))
    (set_recovery_list s (rl_push (recovery_list (terminal s)) k)) /\
    recovery_list (terminal s) = recovery_list (terminal s1)) as (k & Hend & Hrl).
  { destruct (running_inv _ _ _ _ Hr) as
      [(Hct & Hlog & Hb & Hrl & Hk)|(t2 & Hs2 & Hf2 & Hct & Hc & Hb2 & Hr2 & Hk2 & l & Hl & Hq)].
    - exists t. split; [|done]. split; [|exact Hk]. apply booked_saved; [|by rewrite <- Hrl|exact Hb].
      cbn [world set_recovery_list set_terminal].
      destruct c; cbn [first_log] in Hlog; try done; try (by destruct Hlog; auto); by auto.
    - exists t2. split; [|done]. split; [|exact Hk2].
      apply (booked_half t _ _ _ _ IcError t2 l); try done;
        [by eapply successor_quiet|by rewrite Hf2, (bookable_fee _ _ (running_bookable _ _ _ _ Hr))
        |by rewrite <- Hr2]. }
  assert (frame s1 (set_recovery_list s (rl_push (recovery_list (terminal s)) k))) as Hf by apply Hr.
  destruct (running_booked t s1 c s _ _ Hr Hf Hend) as [keep Hout].
  pose proof (pool_outcome ledger_fee t keep s1 _ _ (books_pool _ _ _ _ (running_books _ _ _ _ Hr)) Hout) as Hp.
  apply pool_surplus in Hp. cbn [app] in Hp.
  change (log (set_recovery_list s _)) with (log s) in Hp.
  change (surplus (set_recovery_list s _)) with (surplus s) in Hp.
  unfold saved in *. rewrite Hrl. pose proof (claims_nonneg (W := W) (log s) (option_list keep)).
  etrans; [|exact Hp]. destruct keep as [k0|]; cbn; [|done].
  pose proof (claim_nonneg (W := W) (log s) k0). lia.
Qed.

(** *** The canister *)

(** A writer under way, in the state in which it waits. *)
Definition writer_ok (x : suspended) s : Prop :=
  match x with
  | Reading _ => False
  | AskingFee => unconfigured_ok s /\ books_ok s
  | AskingMinter fee => fee = ledger_fee /\ unconfigured_ok s /\ books_ok s
  | Transferring _ c => exists t s1, running t s1 c s
  end.

Definition runs_on (m : run st (suspended + reply)) : Prop :=
  match m with
  | Done (inl x) s' => writer_ok x s'
  | Done (inr _) s' => books_ok s'
  | _ => False
  end.

Lemma begin_books t amount s s1 :
  books_ok s -> TX_COUNTER s + 1 < 2 ^ 64 -> books_ok s1 \/ validate (W := W) t = Ok tt ->
  (validate (W := W) t = Ok tt -> starts ledger_fee t s s1) ->
  runs_on (begin_transfer t amount s1).
Proof.
  intros Hok Hlt Hok1 Hst. unfold begin_transfer. rewrite bind_eq.
  destruct (validate t) as [[]|e] eqn:Hv.
  - specialize (Hst eq_refl). destruct Hst as [Hst Hbk Hpays Htag Hfresh].
    destruct (fresh_entry ledger_fee window memo_inj t s s1 Hok ltac:(lia) Hst) as [Hnew _].
    assert (running t s1 (CTransfer t N_RETRIES) s1) as Hr.
    { assert (log s1 = log s) as Hlog by (unfold log; by rewrite (started_world _ _ _ Hst)).
      split; [|done|by rewrite Hlog| |done].
      - by apply (books_start ledger_fee window memo_inj t s s1).
      - left. split_and!; try done. by rewrite Hlog. }
    apply running_advance in Hr. destruct (advance _ s1) as [[c|r] s2| |]; [by exists t, s1|done..].
  - unfold advance. cbn [until_call awaits TerminalProofs.step]. rewrite Hv. cbn.
    by destruct Hok1.
Qed.

Lemma guarded_books m s : books_ok s -> runs_on (m s) \/ m s = Trapped -> runs_on (guarded m s).
Proof.
  intros Hok [Hm|Hm]; unfold guarded; [|by rewrite Hm].
  destruct (m s) as [x s'| |]; [|done..]. by destruct (overdrawn _).
Qed.

Lemma long_principal caller :
  (31 < length caller)%nat -> get_principal_subaccount caller = Panic.
Proof.
  intros Hlen. unfold get_principal_subaccount. destruct (in_range _ _); [|done].
  rewrite (proj2 (Z.leb_gt _ _)); [done|]. unfold zlength. lia.
Qed.

Lemma deposit_start_books caller amount s :
  books_ok s -> TX_COUNTER s + 1 < 2 ^ 64 -> runs_on (guarded (deposit_start caller amount) s).
Proof.
  intros Hok Hlt. apply guarded_books; [done|].
  destruct (le_lt_dec (length caller) 31) as [Hlen|Hlen].
  - left. rewrite (deposit_start_eq _ _ _ _ (get_principal_subaccount_Ret caller Hlen)). cbn zeta.
    destruct (books_ok_counted ledger_fee window s Hok Hlt) as [Hokc _].
    destruct (final_amount _) as [a|e]; [|done].
    apply (begin_books _ _ s); [done..|by left|].
    apply (deposit_starts ledger_fee window caller amount _ s); [by apply get_principal_subaccount_Ret|done..].
  - right. unfold deposit_start, next_memo. by rewrite bind_eq, bind_eq, long_principal.
Qed.

Lemma withdraw_start_books caller amount s :
  books_ok s -> TX_COUNTER s + 1 < 2 ^ 64 -> caller <> owner (minting_account (config s)) ->
  fresh_interim (withdrawal_transfer s caller amount) s ->
  runs_on (guarded (withdraw_start caller amount) s).
Proof.
  intros Hok Hlt Hc Hfr. apply guarded_books; [done|left]. rewrite withdraw_start_eq. cbn zeta.
  set (t := withdrawal_transfer s caller amount) in *.
  destruct (books_ok_counted ledger_fee window s Hok Hlt) as [Hokc _].
  destruct (validate t) as [[]|e] eqn:Hv; [|done]. destruct (final_amount t) as [a|e]; [|done].
  destruct (bal_debit (balances (terminal s)) caller amount) as [[k|x] b'] eqn:Hd.
  - apply (begin_books t a s); [done..|by right|]. intros _.
    by apply (withdraw_starts ledger_fee window caller amount s k b').
  - by apply (undebited_books ledger_fee window (counted s) b' x caller amount).
Qed.

(** What the answers to a configuration under way lead to. *)
Lemma resume_books x s :
  writer_ok x s -> (forall a c, x = Transferring a c -> answered_in_time c s) -> runs_on (resume x s).
Proof.
  intros Hx Htime. destruct x as [local| |fee|amount c]; [done| | |].
  - destruct Hx as [Hun Hok]. cbn [resume]. unfold get_icrc1_fee.
    destruct (call_icrc1_fee (world s) _) as [r w] eqn:Hc. apply tells_fee in Hc as [Hw Hf].
    destruct r as [fee|e]; cbn; [|by apply books_ok_world].
    split_and!; [by apply Hf|by apply unconfigured_world|by apply books_ok_world].
  - destruct Hx as (-> & Hun & Hok). cbn [resume]. unfold get_icrc1_minting_account.
    destruct (call_icrc1_minting_account (world s) _) as [r w] eqn:Hc. apply tells_minter in Hc as [Hw Hm].
    destruct r as [m|e]; cbn; [|by apply books_ok_world].
    apply configured_ok; [by apply unconfigured_world|done|]. by rewrite (Hm m).
  - destruct Hx as (t & s1 & Hr). rewrite resume_transferring.
    pose proof (running_step t s1 c s Hr (Htime amount c eq_refl)) as Hs.
    destruct (TerminalProofs.step c s) as [[c'|r] s2| |]; [|done..].
    apply running_advance in Hs. rewrite bind_eq.
    destruct (advance c' s2) as [[c2|r] s3| |]; [by exists t, s1|done..].
Qed.

(** The books are in order when nobody changes the state; a writer is the only message
    under way. *)
Definition in_order (c : canister) : Prop :=
  match cell c with
  | Readers n => books_ok (data c) /\ length (waiting c) = n /\
      Forall (fun m => exists local, point m = Reading local) (waiting c)
  | Writing => exists m, waiting c = [m] /\ writer_ok (point m) (data c)
  end.

(** What may happen: the counter of the transfers does not wrap around; withdrawals are
    not made by the minter, and their interim accounts were not used before; the
    configuration is not read again while transfers wait for recovery; the calls of a
    first step, or of a deposit, are answered within five minutes of its start; and
    outside, the ledger executes no transfer of the canister. *)
Definition admissible (e : event) (c : canister) : Prop :=
  let s := data c in
  match e with
  | Start _ caller (Write w) => cell c = Readers 0 ->
      match w with
      | Configure => saved s = []
      | Deposit _ => TX_COUNTER s + 1 < 2 ^ 64
      | Withdraw amount => TX_COUNTER s + 1 < 2 ^ 64 /\
          caller <> owner (minting_account (config s)) /\
          fresh_interim (withdrawal_transfer s caller amount) s
      end
  | Start _ _ GetBalance => True
  | Answer id => forall m rest amount k, take_pending id (waiting c) = Some (m, rest) ->
      point m = Transferring amount k -> answered_in_time k s
  | Environment w => ledger_log w = log s
  end.

Fixpoint admitted (es : list event) (c : canister) : Prop :=
  match es with
  | [] => True
  | e :: es => admissible e c /\
      match step e c with Some (c', _) => admitted es c' | None => True end
  end.

Lemma start_in_order id caller w c c' rs :
  in_order c -> admissible (Start id caller (Write w)) c ->
  step (Start id caller (Write w)) c = Some (c', rs) -> in_order c'.
Proof.
  destruct c as [f ms d]. intros Hc Ha. cbn [step cell waiting data] in *.
  destruct f as [[|n]|]; [|by intros [= <- _]..]. specialize (Ha eq_refl). cbn in Ha.
  destruct Hc as (Hok & Hlen & _). cbn in Hok, Hlen. apply nil_length_inv in Hlen. subst ms.
  assert (runs_on (start_write caller w d)) as Hr.
  { destruct w as [|amount|amount]; cbn [start_write].
    - cbn. split; [by apply books_unconfigured|done].
    - by apply deposit_start_books.
    - destruct Ha as (? & ? & ?). by apply withdraw_start_books. }
  destruct (start_write caller w d) as [[x|r] s1| |]; [| |done..]; intros [= <- _].
  - by eexists.
  - by split_and!; [|..|constructor].
Qed.

Lemma answer_in_order id c c' rs :
  in_order c -> admissible (Answer id) c -> step (Answer id) c = Some (c', rs) -> in_order c'.
Proof.
  destruct c as [f ms d]. intros Hc Ha. cbn [step cell waiting data admissible] in *.
  destruct (take_pending id ms) as [[m rest]|] eqn:Htake; [|done].
  pose proof (take_pending_perm id ms m rest Htake) as [Hms _]. destruct f as [n|].
  - destruct Hc as (Hok & Hlen & Hrd). cbn in Hok, Hlen, Hrd. rewrite Hms in Hrd, Hlen.
    apply Forall_cons in Hrd as [[local Hpt] Hrd]. rewrite Hpt. cbn [resume]. unfold get_icrc1_balance.
    destruct (call_icrc1_balance_of _ _ _) as [b w] eqn:Hb. intros [= <- _].
    split_and!; [|cbn in *; lia|done]. apply books_ok_world; [|done]. by apply balance_of_log in Hb.
  - destruct Hc as (m0 & Hw & Hx). cbn [waiting data] in Hw, Hx. subst ms.
    assert (m = m0 /\ rest = []) as [-> ->].
    { apply Permutation_singleton_l in Hms. by injection Hms as -> ->. }
    pose proof (resume_books (point m0) d Hx (fun a c => Ha m0 [] a c eq_refl)) as Hr.
    destruct (resume (point m0) d) as [[x|r] s2| |]; [| |done..]; intros [= <- _].
    + by eexists.
    + by split_and!; [|..|constructor].
Qed.

Lemma step_in_order e c c' rs :
  in_order c -> admissible e c -> step e c = Some (c', rs) -> in_order c'.
Proof.
  destruct e as [id caller [w|]|id|w]; [apply start_in_order| |apply answer_in_order|];
    destruct c as [f ms d]; cbn [step cell waiting data admissible]; intros Hc Ha.
  - destruct f as [n|]; intros [= <- _]; [|done]. destruct Hc as (Hok & Hlen & Hrd). cbn in Hok, Hlen, Hrd.
    split_and!; [done|by cbn; rewrite Hlen|]. constructor; [by eexists|done].
  - intros [= <- _]. destruct f as [n|].
    + destruct Hc as (Hok & Hlen & Hrd). split_and!; [by apply books_ok_world|done..].
    + destruct Hc as (m & Hm & Hx). exists m. split; [done|]. cbn [data] in *.
      destruct (point m) as [local| |fee|amount k]; cbn in *.
      * done.
      * destruct Hx. split; [by apply unconfigured_world|by apply books_ok_world].
      * destruct Hx as (? & ? & ?). split_and!; [done|by apply unconfigured_world|by apply books_ok_world].
      * destruct Hx as (t & s1 & Hr). exists t, s1. by apply running_world.
Qed.

Lemma steps_in_order es c c' rs :
  in_order c -> admitted es c -> steps es c = Some (c', rs) -> in_order c'.
Proof.
  revert c rs. induction es as [|e es IH]; intros c rs Hc; [by intros _ [= <- _]|].
  cbn [admitted steps]. intros [Ha Hes]. destruct (step e c) as [[c1 rs1]|] eqn:Hs; [|done].
  destruct (steps es c1) as [[c2 rs2]|] eqn:Hs2; [|done]. intros [= <- _].
  apply (IH c1 rs2); [|done..]. by apply (step_in_order e c c1 rs1).
Qed.

Lemma in_order_solvent c : in_order c -> claims (W := W) (log (data c)) (saved (data c)) <= surplus (data c).
Proof.
  assert (forall s, books_ok s -> claims (W := W) (log s) (saved s) <= surplus s) as Hbooks.
  { intros s Hok. pose proof (pool_surplus _ _ _ (books_pool _ _ _ _ Hok)) as Hs. exact Hs. }
  destruct c as [f ms d]. destruct f as [n|]; [intros [Hok _]; by apply Hbooks|].
  intros (m & _ & Hx). cbn [data] in *. destruct (point m) as [local| |fee|amount k]; cbn in Hx.
  - done.
  - by apply Hbooks, Hx.
  - by apply Hbooks, Hx.
  - destruct Hx as (t & s1 & Hr). by apply (running_solvent t s1 k).
Qed.

(** C3: The canister is solvent however its messages overlap: at every moment of a run,
    also while a deposit or a withdrawal waits for the ledger, what its users can claim,
    transfers that wait for recovery included, is not more than the ledger holds for it;
    and whenever no message holds the state to change it, its books are in order.  The
    ledger behaves as documented and its fee and minting account are constant; the
    conditions on what happens are those of [admissible]. *)
Theorem payment_canister_solvent es s c rs :
  books_ok s -> steps es (mk_canister (Readers 0) [] s) = Some (c, rs) ->
  admitted es (mk_canister (Readers 0) [] s) ->
  total (balances (terminal (data c))) + claims (W := W) (log (data c)) (saved (data c)) <=
    assets (data c) /\
  (cell c <> Writing -> books_ok (data c)).
Proof.
  intros Hok Hs Ha.
  assert (in_order c) as Hc.
  { eapply steps_in_order; [|exact Ha|exact Hs]. split_and!; [done..|constructor]. }
  split.
  - pose proof (in_order_solvent c Hc) as Hsur. unfold surplus in Hsur. lia.
  - intros Hw. unfold in_order in Hc. destruct (cell c); [by apply Hc|done].
Qed.

(** A withdrawal of more than the user has traps and changes nothing; where the trait
    of balances has an error for it. *)
Lemma overdraft_traps caller amount s x :
  validate (withdrawal_transfer s caller amount) = Ok tt ->
  is_ok (final_amount (withdrawal_transfer s caller amount)) = true ->
  (local_balance s caller < amount)%N ->
  write (transfer_fuel N_RETRIES + x) caller (Withdraw amount) s = Done Trap s.
Proof.
  intros Hv Hf Hl. cbn [write]. unfold transferred. rewrite withdraw_eq. cbn zeta. rewrite Hv.
  destruct (final_amount _) as [a|e]; [|done]. unfold local_balance in Hl. cbn.
  rewrite (proj2 (N.ltb_lt _ _) Hl). done.
Qed.

(** A new canister has to be configured. *)
Lemma init_unconfigured token_canister recovery s :
  log s = [] -> TX_COUNTER s = 0 -> rl_ok recovery -> rl_view recovery = [] ->
  DEFAULT_DEDUP_PERIOD <= window -> unconfigured_ok (init token_canister recovery s).
Proof.
  intros Hl Hc Hok Hv Hw. split; cbn.
  - unfold DEFAULT_DEDUP_PERIOD, TX_WINDOW. plia.
  - exact Hw.
  - lia.
  - intros e. unfold log. cbn. change (ledger_log (world s)) with (log s). rewrite Hl.
    by intros ?%not_elem_of_nil.
  - by split.
  - unfold surplus, assets. cbn. change (ledger_log (world s)) with (log s). by rewrite Hl.
Qed.
End solvent.

(** ** A run *)

#[local] Existing Instance x64_debug.
#[local] Existing Instance fixed_world.
#[local] Existing Instance fixed_laws.

#[local] Instance ledger_tells : LedgerTells (W := ledger) 10.
Proof.
  split.
  - intros w p r w' Hc. cbn in Hc. injection Hc as <- <-. split; [done|]. by intros fee [= <-].
  - intros w p r w' Hc. cbn in Hc. injection Hc as <- <-. split; [done|]. by intros m [= <-].
  - done.
Qed.

Definition bob : Principal := [8; 8; 8].

(** The canister after [configure], after the deposit of alice, later, and after her
    withdrawal. *)
Definition terminal_state (b : gmap Principal N) (counter : Z) (g : ledger) :
    state TestBalances recovery ledger :=
  mk_state (new_with_recovery_list (mk_config token_canister 10 minter) (mk_balances b false)
              (rl_take_all empty_recovery).2) counter g.

Definition new_state : state TestBalances recovery ledger :=
  init token_canister empty_recovery
    (mk_state (PaymentState_default empty_recovery) 0 (ledger_after 100 [] [])).
Definition configured : state TestBalances recovery ledger := terminal_state ∅ 0 (ledger_after 100 [] []).
Definition deposited : state TestBalances recovery ledger :=
  terminal_state {[ alice := 490%N ]} 1 (ledger_after 101 [first_deposit] []).
Definition later (t : Z) : ledger := ledger_after t [first_deposit] [].
Definition withdrawn : state TestBalances recovery ledger :=
  terminal_state {[ alice := 290%N ]} 2
    (ledger_after 162 [first_deposit; moved None (mk_account own_id (Some (interim 150))) 190 10 1 150;
                       moved (Some (interim 150)) (mk_account alice None) 180 10 1 161] []).

Lemma configured_eq : configure new_state = Done Configured configured.
Proof. vm_cast_no_check (@eq_refl _ (Done Configured configured)). Qed.

Lemma configured_books : books_ok 10 DEFAULT_DEDUP_PERIOD [] configured.
Proof.
  assert (unconfigured_ok DEFAULT_DEDUP_PERIOD new_state) as Hnew by by apply init_unconfigured.
  destruct (configure_books 10 DEFAULT_DEDUP_PERIOD new_state Hnew) as (r & s' & Hc & Hs).
  rewrite configured_eq in Hc. injection Hc as <- <-. destruct Hs as [[_ Hs]|(w & Hs & _)]; [done|].
  apply (f_equal (fun s => cfg_fee (config s))) in Hs. by vm_compute in Hs.
Qed.

(** Messages that overlap: bob's [get_balance] meets the deposit of alice, bob's
    withdrawal her [get_balance], and time passes while her withdrawal waits. *)
Definition some_events : list (event (W := ledger)) :=
  [Start 2 alice (Write (Deposit 500)); Start 3 bob GetBalance; Answer 2;
   Start 4 alice GetBalance; Start 5 bob (Write (Withdraw 7)); Answer 4;
   Environment (later 150); Start 6 alice (Write (Withdraw 200)); Environment (later 160);
   Answer 6; Start 7 alice GetBalance; Answer 6].

Definition some_replies : list (nat * reply) :=
  [(3%nat, AlreadyBorrowed); (2%nat, Transferred (Ok (0%N, 490%N))); (5%nat, AlreadyBorrowed);
   (4%nat, Balance 490 490); (7%nat, AlreadyBorrowed); (6%nat, Transferred (Ok (2%N, 180%N)))].

Definition ready : canister (W := ledger) := mk_canister (Readers 0) [] configured.

Lemma some_run : steps some_events ready = Some (mk_canister (Readers 0) [] withdrawn, some_replies).
Proof. vm_cast_no_check (@eq_refl _ (Some (mk_canister (Readers 0) [] withdrawn, some_replies))). Qed.

(** [admissible] can be computed for the events but a withdrawal. *)
Definition in_time_b (c : canister (R := recovery) (W := ledger)) (id : nat) : bool :=
  match take_pending id (waiting c) with
  | Some (m, _) =>
      match point m with
      | Transferring _ (CExecute t _ | CRecover t _) =>
          ic_time (execute t (world (data c))).2 <? created_at t + TX_WINDOW
      | _ => true
      end
  | None => true
  end.

Lemma answer_admissible c id : in_time_b c id = true -> admissible (Answer id) c.
Proof.
  unfold in_time_b. cbn. intros Hb m rest amount k Htake Hpt. rewrite Htake, Hpt in Hb.
  unfold answered_in_time. destruct k; cbn in *; intros; try apply Z.ltb_lt in Hb; done.
Qed.

Definition after (e : event) (c : canister (R := recovery) (W := ledger)) : canister :=
  match step e c with Some (c', _) => c' | None => c end.

Lemma admitted_cons e es c : admissible e c -> admitted es (after e c) -> admitted (e :: es) c.
Proof. intros He Hes. split; [done|]. unfold after in Hes. by destruct (step e c) as [[c' rs]|]. Qed.

Definition before_withdrawal : canister :=
  mk_canister (Readers 0) [] (set_world deposited (later 150)).

Lemma before_withdrawal_eq : foldl (fun c e => after e c) ready (take 7 some_events) = before_withdrawal.
Proof. vm_cast_no_check (@eq_refl _ before_withdrawal). Qed.

Lemma some_admitted : admitted some_events ready.
Proof.
  unfold some_events.
  do 7 (apply admitted_cons; [first [by intros _; by_compute | by apply answer_admissible; vm_compute | done | by vm_compute]|]).
  change (after _ _) with (foldl (fun c e => after e c) ready (take 7 some_events)).
  rewrite before_withdrawal_eq. apply admitted_cons.
  - intros _. split_and!; [by_compute|by_compute|].
    split; vm_compute; [|by intros x ?%not_elem_of_nil].
    intros e He _. apply list_elem_of_singleton in He as ->. done.
  - do 4 (apply admitted_cons; [first [by apply answer_admissible; vm_compute | by vm_compute]|]). done.
Qed.

(** Three messages of the six are served, the others find the state borrowed. *)
Lemma payment_canister_serial_witness :
  exists l, serve_all l configured = Some (withdrawn, served some_replies) /\
    messages l ++ [] ⊆+ started some_events /\ some_replies.*1 ++ [] ≡ₚ ids (started some_events).
Proof.
  destruct (payment_canister_serial some_events configured _ some_replies some_run)
    as ((l & Hm & Hl) & Hi & _).
  by exists l.
Defined.

(** Alice is owed 290, and the ledger holds 290. *)
Lemma payment_canister_solvent_witness :
  books_ok 10 DEFAULT_DEDUP_PERIOD [] withdrawn /\
  total (balances (terminal withdrawn)) = 290 /\
  290 + claims (W := ledger) (log withdrawn) (saved withdrawn) <= assets withdrawn.
Proof.
  destruct (payment_canister_solvent 10 DEFAULT_DEDUP_PERIOD concrete_memo_inj some_events
    configured (mk_canister (Readers 0) [] withdrawn) some_replies) as [Hs Hok];
    [apply configured_books|apply some_run|apply some_admitted|].
  split_and!; [by apply Hok|by vm_compute|exact Hs].
Defined.
