(* ===== verification/Tokens.v ===== *)
(** * Token amounts

    [ic-helpers/src/tokens.rs]: [Tokens128] over a [u128] and [Tokens256] over
    the 256-bit integer of [crypto_bigint].  That crate and [num_bigint] are
    parameters with their documented laws; the conversions to and from [f64] are
    in [TokensFloat]. *)

From S2P Require Import Prelude.
Local Open Scope Z_scope.

(** ** The big integers *)

(** Digits of a number in base [2^w], least significant first. *)
Fixpoint digits (w : Z) (n : nat) (x : Z) : list Z :=
  match n with O => [] | S n => x mod 2 ^ w :: digits w n (x / 2 ^ w) end.

(** [crypto_bigint::U256]; a [CtOption] is an option, a limb has the width of
    [usize]. *)
Class U256Lib `{Target} := {
  U256 : Type;
  u256_ZERO : U256;
  u256_MAX : U256;
  u256_eqb : U256 -> U256 -> bool;
  u256_from_u128 : Z -> U256;
  u256_checked_add : U256 -> U256 -> option U256;
  u256_checked_sub : U256 -> U256 -> option U256;
  u256_checked_mul : U256 -> U256 -> option U256;
  u256_checked_div : U256 -> U256 -> option U256;
  u256_saturating_mul : U256 -> U256 -> U256;
  u256_div_nonzero : U256 -> U256 -> U256;
  u256_sqrt_vartime : U256 -> U256;
  u256_to_le_bytes : U256 -> list Z;
  u256_from_le_slice : list Z -> outcome U256;
  u256_as_limbs : U256 -> list Z;
}.

Class U256Laws `{U256Lib} := {
  u256_val : U256 -> Z;
  u256_inj x y : u256_val x = u256_val y -> x = y;
  u256_range x : 0 <= u256_val x < 2 ^ 256;
  u256_ZERO_law : u256_val u256_ZERO = 0;
  u256_MAX_law : u256_val u256_MAX = 2 ^ 256 - 1;
  u256_eqb_law x y : u256_eqb x y = (u256_val x =? u256_val y);
  u256_from_u128_law n : 0 <= n < 2 ^ 128 -> u256_val (u256_from_u128 n) = n;
  u256_checked_add_law x y :
    u256_val <$> u256_checked_add x y = checked_add 256 (u256_val x) (u256_val y);
  u256_checked_sub_law x y :
    u256_val <$> u256_checked_sub x y = checked_sub 256 (u256_val x) (u256_val y);
  u256_checked_mul_law x y :
    u256_val <$> u256_checked_mul x y = checked_mul 256 (u256_val x) (u256_val y);
  u256_checked_div_law x y :
    u256_val <$> u256_checked_div x y = checked_div (u256_val x) (u256_val y);
  u256_saturating_mul_law x y :
    u256_val (u256_saturating_mul x y) = saturating_mul 256 (u256_val x) (u256_val y);
  u256_div_nonzero_law x y :
    u256_val y <> 0 -> u256_val (u256_div_nonzero x y) = u256_val x / u256_val y;
  u256_sqrt_law x : u256_val (u256_sqrt_vartime x) = Z.sqrt (u256_val x);
  u256_to_le_bytes_law x : u256_to_le_bytes x = to_le_bytes 32 (u256_val x);
  u256_from_le_slice_law bs : length bs = 32%nat -> Forall is_byte bs ->
    exists x, u256_from_le_slice bs = Ret x /\ u256_val x = from_le_bytes bs;
  u256_as_limbs_law x :
    u256_as_limbs x = digits usize_bits (Z.to_nat (256 / usize_bits)) (u256_val x);
}.

(** [num_bigint::BigUint], the number in a [candid::Nat]: its shortest
    little-endian bytes ([[0]] for zero). *)
Class BigUintLib := {
  to_bytes_le : N -> list Z;
  from_bytes_le : list Z -> N;
}.

Class BigUintLaws `{BigUintLib} := {
  to_bytes_le_law n :
    Forall is_byte (to_bytes_le n) /\ from_le_bytes (to_bytes_le n) = Z.of_N n;
  to_bytes_le_short n (k : nat) :
    (1 <= k)%nat -> (length (to_bytes_le n) <= k)%nat <-> Z.of_N n < 2 ^ (8 * Z.of_nat k);
  from_bytes_le_law bs : Forall is_byte bs -> Z.of_N (from_bytes_le bs) = from_le_bytes bs;
}.

(** [Vec::resize(n, 0)]. *)
Definition resize (n : nat) (bs : list Z) : list Z := take n bs ++ replicate (n - length bs) 0.

(** ** Tokens256 *)

Module Tokens256.
Section tokens256.
Context `{U256Lib, BigUintLib}.

Record t := mk { inner : U256 }.

Definition ZERO : t := mk u256_ZERO.
Definition MAX : t := mk u256_MAX.
Definition BYTE_LENGTH : nat := 32.

Definition add (a b : t) : option t := mk <$> u256_checked_add (inner a) (inner b).
Definition sub (a b : t) : option t := mk <$> u256_checked_sub (inner a) (inner b).
Definition mul (a b : t) : option t := mk <$> u256_checked_mul (inner a) (inner b).
Definition div (a b : t) : option t := mk <$> u256_checked_div (inner a) (inner b).

Definition from_u128 (amount : Z) : t := mk (u256_from_u128 amount).

(** [a * b] for the unsigned integers [b]. *)
Definition mul_u128 (a : t) (b : Z) : option t := mul a (from_u128 b).

(** [NonZeroU128::new(b)?] *)
Definition div_u128 (a : t) (b : Z) : option t :=
  if b =? 0 then None else Some (mk (u256_div_nonzero (inner a) (u256_from_u128 b))).

Definition sqrt (self : t) : t := mk (u256_sqrt_vartime (inner self)).
Definition is_zero (self : t) : bool := u256_eqb (inner self) (inner ZERO).

(** The byte loop of [to_tokens128], in [u128] arithmetic. *)
Fixpoint sum_bytes (i : Z) (bytes : list Z) (num : Z) : outcome Z :=
  match bytes with
  | [] => Ret num
  | byte :: bytes =>
      p ← arith 128 (256 ^ i);
      m ← u_mul 128 byte p;
      num ← u_add 128 num m;
      sum_bytes (i + 1) bytes num
  end.

(** The amount of [to_tokens128]. *)
Definition to_u128 (self : t) : outcome (option Z) :=
  let bytes := u256_to_le_bytes (inner self) in
  if existsb (fun byte => negb (byte =? 0)) (drop 16 bytes) then Ret None
  else num ← sum_bytes 0 (take 16 bytes) 0; Ret (Some num).

Definition to_nat (self : t) : N :=
  from_bytes_le (concat (to_le_bytes (Z.to_nat (usize_bits / 8)) <$> u256_as_limbs (inner self))).

Definition from_nat (nat : N) : outcome (option t) :=
  let bytes := to_bytes_le nat in
  if (BYTE_LENGTH <? length bytes)%nat then Ret None
  else x ← u256_from_le_slice (resize BYTE_LENGTH bytes); Ret (Some (mk x)).

Definition saturating_add (self other : t) : t := default MAX (add self other).
Definition saturating_sub (self other : t) : t := default ZERO (sub self other).

(** Deserialization of the [Nat]; the error names it as invalid. *)
Definition deserialize {E} (invalid_value : N -> E) (nat : N) : outcome (result t E) :=
  r ← from_nat nat; Ret (match r with Some v => Ok v | None => Err (invalid_value nat) end).
End tokens256.
End Tokens256.

(** ** Tokens128 *)

Module Tokens128.
Section tokens128.
Context `{U256Lib, BigUintLib}.

Record t := mk { amount : Z }.

Definition ZERO : t := mk 0.
Definition MAX : t := mk (umax 128).
Definition BYTE_LENGTH : nat := 16.

Definition is_zero (self : t) : bool := amount self =? amount ZERO.

Definition to_u64 (self : t) : option Z :=
  if umax 64 <? amount self then None else Some (amount self mod 2 ^ 64).

Definition to_nat (self : t) : N := Z.to_N (amount self).

Definition saturating_sub (self other : t) : t :=
  mk (Prelude.saturating_sub (amount self) (amount other)).

Definition add (a b : t) : option t := mk <$> checked_add 128 (amount a) (amount b).
Definition sub (a b : t) : option t := mk <$> checked_sub 128 (amount a) (amount b).

Definition mul (a b : t) : Tokens256.t :=
  Tokens256.mk (u256_saturating_mul (u256_from_u128 (amount a)) (u256_from_u128 (amount b))).

Definition saturating_add (self other : t) : t :=
  match add self other with Some v => v | None => MAX end.

Definition from_nat (nat : N) : option t :=
  let bytes := to_bytes_le nat in
  if (BYTE_LENGTH <? length bytes)%nat then None
  else Some (mk (from_le_bytes (resize BYTE_LENGTH bytes))).

Definition deserialize {E} (invalid_value : N -> E) (nat : N) : result t E :=
  match from_nat nat with Some v => Ok v | None => Err (invalid_value nat) end.

Definition to_tokens256 (self : t) : Tokens256.t := Tokens256.from_u128 (amount self).

(** [Tokens256::to_tokens128], [Tokens256 + Tokens128], [Tokens256 / Tokens128]. *)
Definition to_tokens128 (self : Tokens256.t) : outcome (option t) :=
  r ← Tokens256.to_u128 self; Ret (option_map mk r).
Definition add_256 (a : Tokens256.t) (b : t) : option Tokens256.t :=
  Tokens256.add a (to_tokens256 b).
Definition div_256 (a : Tokens256.t) (b : t) : option Tokens256.t :=
  Tokens256.div_u128 a (amount b).

Definition valid (self : t) : Prop := 0 <= amount self < 2 ^ 128.
End tokens128.
End Tokens128.

(** ** Properties *)

Section tokens_laws.
Context `{U256Laws, !BigUintLib, !BigUintLaws}.

(** The value of a [Tokens256]. *)
Definition val (a : Tokens256.t) : Z := u256_val (Tokens256.inner a).

Definition exact128 (o : option Tokens128.t) (x : Z) : Prop :=
  Tokens128.amount <$> o = checked 128 x.
Definition exact256 (o : option Tokens256.t) (x : Z) : Prop := val <$> o = checked 256 x.

Lemma val_inj a b : val a = val b -> a = b.
Proof. destruct a, b. unfold val. cbn. intros ?%u256_inj. by subst. Qed.

Lemma fmap_mk_val (o : option U256) :
  val <$> (Tokens256.mk <$> o) = u256_val <$> o.
Proof. by destruct o. Qed.

Lemma val_from_u128 n : 0 <= n < 2 ^ 128 -> val (Tokens256.from_u128 n) = n.
Proof. apply u256_from_u128_law. Qed.

Lemma add_val x y : exact256 (Tokens256.add x y) (val x + val y).
Proof. unfold exact256, Tokens256.add. rewrite fmap_mk_val. apply u256_checked_add_law. Qed.

Lemma sub_val x y : exact256 (Tokens256.sub x y) (val x - val y).
Proof. unfold exact256, Tokens256.sub. rewrite fmap_mk_val. apply u256_checked_sub_law. Qed.

Lemma mul_val x y : exact256 (Tokens256.mul x y) (val x * val y).
Proof. unfold exact256, Tokens256.mul. rewrite fmap_mk_val. apply u256_checked_mul_law. Qed.

Lemma exact128_mk x : exact128 (Tokens128.mk <$> checked 128 x) x.
Proof. unfold exact128. by destruct (checked 128 x). Qed.

Lemma mul_128_exact a b :
  Tokens128.valid a -> Tokens128.valid b ->
  val (Tokens128.mul a b) = Tokens128.amount a * Tokens128.amount b.
Proof.
  unfold Tokens128.valid. intros Ha Hb. unfold val, Tokens128.mul. cbn [Tokens256.inner].
  rewrite u256_saturating_mul_law, !u256_from_u128_law by done.
  unfold saturating_mul, umax. replace 256 with (128 + 128) by done. rewrite Z.pow_add_r by lia. nia.
Qed.

Lemma saturating_add_128 a b :
  Tokens128.valid a -> Tokens128.valid b ->
  Tokens128.amount (Tokens128.saturating_add a b) =
    Z.min (Tokens128.amount a + Tokens128.amount b) (2 ^ 128 - 1).
Proof.
  unfold Tokens128.valid. intros Ha Hb. unfold Tokens128.saturating_add, Tokens128.add, checked_add, checked.
  destruct (in_range 128 _) eqn:Hr; cbn [fmap option_fmap option_map Tokens128.amount Tokens128.MAX];
    [apply in_range_true in Hr|apply in_range_false in Hr]; unfold umax; lia.
Qed.

Lemma exact256_cases o x :
  exact256 o x ->
  (exists v, o = Some v /\ val v = x /\ 0 <= x < 2 ^ 256) \/ (o = None /\ ~ (0 <= x < 2 ^ 256)).
Proof.
  unfold exact256. destruct o as [v|]; cbn [fmap option_fmap option_map]; intros Ho; symmetry in Ho.
  - apply checked_Some in Ho as [Hv Hr]. eauto.
  - apply checked_None in Ho. auto.
Qed.

Lemma saturating_256 x y :
  val (Tokens256.saturating_add x y) = Z.min (val x + val y) (2 ^ 256 - 1) /\
  val (Tokens256.saturating_sub x y) = Z.max (val x - val y) 0.
Proof.
  pose proof (u256_range (Tokens256.inner x)) as Hx. pose proof (u256_range (Tokens256.inner y)) as Hy.
  fold (val x) in Hx. fold (val y) in Hy.
  unfold Tokens256.saturating_add, Tokens256.saturating_sub. split.
  - destruct (exact256_cases _ _ (add_val x y)) as [(v & -> & Hv & Hr)|[-> Hr]]; cbn [from_option]; unfold id.
    + rewrite Hv. lia.
    + rewrite (u256_MAX_law : val Tokens256.MAX = _). lia.
  - destruct (exact256_cases _ _ (sub_val x y)) as [(v & -> & Hv & Hr)|[-> Hr]]; cbn [from_option]; unfold id.
    + rewrite Hv. lia.
    + rewrite (u256_ZERO_law : val Tokens256.ZERO = _). lia.
Qed.

Lemma div_u128_exact x n :
  0 <= n < 2 ^ 128 -> val <$> Tokens256.div_u128 x n = checked_div (val x) n.
Proof.
  intros Hn. unfold Tokens256.div_u128, checked_div. destruct (Z.eqb_spec n 0) as [|Hne]; [done|].
  cbn. f_equal. unfold val. cbn. by rewrite u256_div_nonzero_law, u256_from_u128_law
    by (rewrite ?u256_from_u128_law; done).
Qed.

(** C35: the arithmetic on token amounts is exact: additions, subtractions and
    multiplications give the mathematical result, or [None] exactly when it does
    not fit; the product of two [Tokens128] always fits and is never saturated;
    divisions truncate and fail only for a zero divisor; the saturating
    operations clamp. *)
Theorem tokens_arithmetic_exact (a b : Tokens128.t) (x y : Tokens256.t) (n : Z) :
  Tokens128.valid a -> Tokens128.valid b -> 0 <= n < 2 ^ 128 ->
  exact128 (Tokens128.add a b) (Tokens128.amount a + Tokens128.amount b) /\
  exact128 (Tokens128.sub a b) (Tokens128.amount a - Tokens128.amount b) /\
  val (Tokens128.mul a b) = Tokens128.amount a * Tokens128.amount b /\
  Tokens128.amount (Tokens128.saturating_add a b) =
    Z.min (Tokens128.amount a + Tokens128.amount b) (2 ^ 128 - 1) /\
  Tokens128.amount (Tokens128.saturating_sub a b) =
    Z.max (Tokens128.amount a - Tokens128.amount b) 0 /\
  exact256 (Tokens256.add x y) (val x + val y) /\
  exact256 (Tokens256.sub x y) (val x - val y) /\
  exact256 (Tokens256.mul x y) (val x * val y) /\
  exact256 (Tokens256.mul_u128 x n) (val x * n) /\
  exact256 (Tokens128.add_256 x b) (val x + Tokens128.amount b) /\
  val <$> Tokens256.div x y = checked_div (val x) (val y) /\
  val <$> Tokens128.div_256 x b = checked_div (val x) (Tokens128.amount b) /\
  val (Tokens256.saturating_add x y) = Z.min (val x + val y) (2 ^ 256 - 1) /\
  val (Tokens256.saturating_sub x y) = Z.max (val x - val y) 0 /\
  val (Tokens256.sqrt x) = Z.sqrt (val x).
Proof.
  intros Ha Hb Hn. pose proof (saturating_256 x y) as [? ?].
  split_and!; eauto using add_val, sub_val, mul_val, exact128_mk, mul_128_exact, saturating_add_128.
  - unfold Tokens256.mul_u128. rewrite <- (val_from_u128 n) at 2 by done. apply mul_val.
  - unfold Tokens128.add_256, Tokens128.to_tokens256.
    rewrite <- (val_from_u128 (Tokens128.amount b)) at 2 by done. apply add_val.
  - unfold Tokens256.div. rewrite fmap_mk_val. apply u256_checked_div_law.
  - by apply div_u128_exact.
  - apply u256_sqrt_law.
Qed.

Lemma pow_256 i : 0 <= i -> 256 ^ i = 2 ^ (8 * i).
Proof. intros. by rewrite Z.pow_mul_r by lia. Qed.

(** The byte loop never overflows. *)
Lemma sum_bytes_exact bs : forall i num,
  Forall is_byte bs -> 0 <= i -> i + zlength bs <= 16 -> 0 <= num < 256 ^ i ->
  Tokens256.sum_bytes i bs num = Ret (num + 256 ^ i * from_le_bytes bs).
Proof.
  unfold zlength. induction bs as [|b bs IH]; intros i num Hbs Hi Hlen Hnum.
  { cbn [Tokens256.sum_bytes from_le_bytes]. f_equal. lia. }
  inversion Hbs as [|? ? Hb Hbs']; subst. unfold is_byte in Hb. cbn [length] in Hlen.
  assert (256 ^ (i + 1) <= 2 ^ 128) as Hmax.
  { rewrite pow_256 by lia. apply Z.pow_le_mono_r; lia. }
  assert (256 ^ (i + 1) = 256 * 256 ^ i) as Hs by (rewrite Z.pow_add_r by lia; lia).
  assert (0 < 256 ^ i) by (apply Z.pow_pos_nonneg; lia).
  cbn [Tokens256.sum_bytes from_le_bytes]. rewrite arith_ok by nia. cbn [mbind outcome_bind].
  rewrite u_mul_ok by nia. cbn [mbind outcome_bind].
  rewrite u_add_ok by nia. cbn [mbind outcome_bind]. rewrite IH by (done || lia || nia).
  f_equal. rewrite Hs. lia.
Qed.

Lemma existsb_nonzero bs :
  existsb (fun byte => negb (byte =? 0)) bs = false <-> Forall (eq 0) bs.
Proof.
  induction bs as [|b bs IH]; [by split|]. cbn [existsb]. rewrite orb_false_iff, IH, Forall_cons.
  rewrite negb_false_iff, Z.eqb_eq. naive_solver.
Qed.

Lemma to_u128_exact x : Tokens256.to_u128 x = Ret (checked 128 (val x)).
Proof.
  unfold Tokens256.to_u128. rewrite u256_to_le_bytes_law. fold (val x). cbn zeta.
  pose proof (u256_range (Tokens256.inner x)) as Hr. fold (val x) in Hr.
  set (bs := to_le_bytes 32 (val x)).
  assert (length bs = 32%nat) as Hlen by apply to_le_bytes_length.
  assert (Forall is_byte bs) as Hbs by apply to_le_bytes_bytes.
  assert (from_le_bytes bs = val x) as Hval by by apply from_to_le_bytes.
  pose proof (take_drop 16 bs) as Hsplit. rewrite <- Hsplit, from_le_bytes_app in Hval.
  rewrite <- Hsplit, Forall_app in Hbs. destruct Hbs as [Hlo Hhi].
  assert (zlength (take 16 bs) = 16) as Hlen16 by (unfold zlength; rewrite length_take; lia).
  rewrite Hlen16 in Hval. pose proof (from_le_bytes_bound _ Hlo) as Hb. rewrite Hlen16 in Hb.
  replace (8 * 16) with 128 in * by lia.
  pose proof (from_le_bytes_bound _ Hhi) as [Hhi0 _].
  destruct (existsb _ _) eqn:He.
  - f_equal. symmetry. apply checked_None.
    assert (from_le_bytes (drop 16 bs) <> 0) as Hne; [|lia].
    rewrite from_le_bytes_zeros by done. rewrite <- existsb_nonzero, He. done.
  - apply existsb_nonzero, from_le_bytes_zeros in He; [|done]. rewrite He in Hval.
    rewrite sum_bytes_exact by (done || lia || rewrite Hlen16; lia). cbn [mbind outcome_bind].
    f_equal. symmetry. apply checked_Some. rewrite Z.pow_0_r. lia.
Qed.

(** [to_tokens128] never panics (no intermediate sum overflows), and returns
    the amount exactly when it fits 128 bits. *)
Theorem to_tokens128_exact (x : Tokens256.t) :
  Tokens128.to_tokens128 x = Ret (Tokens128.mk <$> checked 128 (val x)).
Proof. unfold Tokens128.to_tokens128. by rewrite to_u128_exact. Qed.

Lemma digits_bytes k n x :
  0 <= x ->
  concat (to_le_bytes k <$> digits (8 * Z.of_nat k) n x) = to_le_bytes (n * k) x.
Proof.
  revert x. induction n as [|n IH]; intros x Hx; [done|].
  cbn [digits]. rewrite fmap_cons. cbn [concat]. rewrite IH by (apply Z.div_pos; lia).
  cbn [Nat.mul]. rewrite to_le_bytes_app. f_equal. apply to_le_bytes_mod.
Qed.

Lemma resize_value k n :
  (length (to_bytes_le n) <= k)%nat ->
  length (resize k (to_bytes_le n)) = k /\ Forall is_byte (resize k (to_bytes_le n)) /\
  from_le_bytes (resize k (to_bytes_le n)) = Z.of_N n.
Proof.
  intros Hk. destruct (to_bytes_le_law n) as [Hb Hv]. unfold resize. rewrite take_ge by done.
  split_and!.
  - rewrite length_app, length_replicate. lia.
  - apply Forall_app. split; [done|]. apply Forall_replicate. by unfold is_byte.
  - rewrite from_le_bytes_app, from_le_bytes_replicate, Hv. lia.
Qed.

Lemma from_nat_128 n : exact128 (Tokens128.from_nat n) (Z.of_N n).
Proof.
  unfold exact128, Tokens128.from_nat, Tokens128.BYTE_LENGTH.
  pose proof (to_bytes_le_short n 16) as Hs. destruct (Nat.ltb_spec 16 (length (to_bytes_le n))).
  - symmetry. apply checked_None. intros [_ Hn]. apply Hs in Hn; lia.
  - destruct (resize_value 16 n) as (_ & _ & ->); [lia|]. symmetry. apply checked_Some.
    split; [done|]. split; [lia|]. apply Hs; lia.
Qed.

Lemma from_nat_256 n :
  exists o, Tokens256.from_nat n = Ret o /\ exact256 o (Z.of_N n).
Proof.
  unfold exact256, Tokens256.from_nat, Tokens256.BYTE_LENGTH.
  pose proof (to_bytes_le_short n 32) as Hs. destruct (Nat.ltb_spec 32 (length (to_bytes_le n))).
  - exists None. split; [done|]. symmetry. apply checked_None. intros [_ Hn]. apply Hs in Hn; lia.
  - destruct (resize_value 32 n) as (Hlen & Hbs & Hv); [lia|].
    destruct (u256_from_le_slice_law _ Hlen Hbs) as (x & -> & Hx). eexists. split; [done|].
    symmetry. change (checked 256 (Z.of_N n) = Some (u256_val x)). rewrite Hx, Hv.
    apply checked_Some. split; [done|]. split; [lia|]. apply Hs; lia.
Qed.

Lemma to_nat_256 x : Z.of_N (Tokens256.to_nat x) = val x.
Proof.
  unfold Tokens256.to_nat. rewrite u256_as_limbs_law. fold (val x).
  pose proof (u256_range (Tokens256.inner x)) as Hr. fold (val x) in Hr.
  assert (concat (to_le_bytes (Z.to_nat (usize_bits / 8)) <$>
    digits usize_bits (Z.to_nat (256 / usize_bits)) (val x)) = to_le_bytes 32 (val x)) as ->.
  { destruct usize_bits_ok as [->| ->].
    - apply (digits_bytes 4 8). lia.
    - apply (digits_bytes 8 4). lia. }
  rewrite from_bytes_le_law by apply to_le_bytes_bytes. by apply from_to_le_bytes.
Qed.

(** Converting to a [Nat] and back is the identity for both types, and a
    [Nat] converts exactly when it fits; no conversion panics. *)
Theorem tokens_nat_roundtrip (a : Tokens128.t) (x : Tokens256.t) (n : N) :
  Tokens128.valid a ->
  Tokens128.from_nat (Tokens128.to_nat a) = Some a /\
  Tokens256.from_nat (Tokens256.to_nat x) = Ret (Some x) /\
  Z.of_N (Tokens256.to_nat x) = val x /\
  exact128 (Tokens128.from_nat n) (Z.of_N n) /\
  exists o, Tokens256.from_nat n = Ret o /\ exact256 o (Z.of_N n).
Proof.
  intros Ha. split_and!; [| |apply to_nat_256|apply from_nat_128|apply from_nat_256].
  - pose proof (from_nat_128 (Tokens128.to_nat a)) as Hn. unfold exact128, Tokens128.to_nat in *.
    unfold Tokens128.valid in Ha. rewrite Z2N.id in Hn by lia.
    destruct (Tokens128.from_nat _) as [[v]|]; cbn [fmap option_fmap option_map] in Hn; symmetry in Hn.
    + apply checked_Some in Hn as [Hv _]. destruct a. cbn in Hv. by subst.
    + apply checked_None in Hn. lia.
  - destruct (from_nat_256 (Tokens256.to_nat x)) as (o & -> & Ho). f_equal.
    rewrite to_nat_256 in Ho. pose proof (u256_range (Tokens256.inner x)) as Hr. fold (val x) in Hr.
    destruct (exact256_cases _ _ Ho) as [(v & -> & Hv & _)|[_ Hn]]; [|lia].
    f_equal. by apply val_inj.
Qed.
End tokens_laws.

(** ** A concrete instance: 256-bit integers in [Z] *)

Module ConcreteTokens.
Section concrete.
Context `{Target}.
Notation U := {x : Z | in_range 256 x = true}.

Definition clamp (x : Z) : U :=
  match decide (in_range 256 x = true) with left Hx => exist _ x Hx | right _ => exist _ 0 eq_refl end.

Definition checked_u (o : option Z) : option U := clamp <$> o.

#[local] Instance z_u256 : U256Lib := {|
  U256 := U;
  u256_ZERO := clamp 0;
  u256_MAX := clamp (2 ^ 256 - 1);
  u256_eqb x y := `x =? `y;
  u256_from_u128 := clamp;
  u256_checked_add x y := checked_u (checked_add 256 (`x) (`y));
  u256_checked_sub x y := checked_u (checked_sub 256 (`x) (`y));
  u256_checked_mul x y := checked_u (checked_mul 256 (`x) (`y));
  u256_checked_div x y := checked_u (checked_div (`x) (`y));
  u256_saturating_mul x y := clamp (saturating_mul 256 (`x) (`y));
  u256_div_nonzero x y := clamp (`x / `y);
  u256_sqrt_vartime x := clamp (Z.sqrt (`x));
  u256_to_le_bytes x := to_le_bytes 32 (`x);
  u256_from_le_slice bs := if decide (length bs = 32%nat) then Ret (clamp (from_le_bytes bs)) else Panic;
  u256_as_limbs x := digits usize_bits (Z.to_nat (256 / usize_bits)) (`x);
|}.

Lemma u_range (x : U) : 0 <= `x < 2 ^ 256.
Proof. destruct x as [x Hx]. cbn. by rewrite <- in_range_true. Qed.

Lemma clamp_val x : 0 <= x < 2 ^ 256 -> proj1_sig (clamp x) = x.
Proof.
  intros Hx%in_range_true. unfold clamp. by destruct (decide _).
Qed.

Lemma checked_u_val x : @proj1_sig Z _ <$> checked_u (checked 256 x) = checked 256 x.
Proof.
  unfold checked_u. destruct (checked 256 x) as [y|] eqn:Hc; [|done].
  apply checked_Some in Hc as [-> Hx]. cbn. by rewrite clamp_val.
Qed.

#[local] Instance z_u256_laws : U256Laws.
Proof.
  refine {| u256_val (x : @U256 _ z_u256) := proj1_sig x |}.
  all: cbn [U256 u256_ZERO u256_MAX u256_eqb u256_from_u128 u256_checked_add u256_checked_sub
    u256_checked_mul u256_checked_div u256_saturating_mul u256_div_nonzero u256_sqrt_vartime
    u256_to_le_bytes u256_from_le_slice u256_as_limbs z_u256]; try done.
  - intros [x Hx] [y Hy]. cbn. intros ->. f_equal. apply proof_irrel.
  - apply u_range.
  - intros n Hn. apply clamp_val. lia.
  - intros x y. apply checked_u_val.
  - intros x y. apply checked_u_val.
  - intros x y. apply checked_u_val.
  - intros x y. pose proof (u_range x). pose proof (u_range y). unfold checked_div.
    case_bools; [done|]. cbn. rewrite clamp_val; [done|].
    split; [apply Z.div_pos; lia|]. apply Z.div_lt_upper_bound; nia.
  - intros x y. apply clamp_val. pose proof (u_range x). pose proof (u_range y).
    unfold saturating_mul, umax. nia.
  - intros x y Hy. pose proof (u_range x). pose proof (u_range y). apply clamp_val.
    split; [apply Z.div_pos; lia|]. apply Z.div_lt_upper_bound; nia.
  - intros x. pose proof (u_range x). apply clamp_val. split; [apply Z.sqrt_nonneg|].
    pose proof (Z.sqrt_le_lin (`x)). lia.
  - intros bs Hlen Hbs. rewrite decide_True by done. eexists. split; [done|]. apply clamp_val.
    pose proof (from_le_bytes_bound bs Hbs) as Hb. unfold zlength in Hb. by rewrite Hlen in Hb.
Qed.

(** The shortest little-endian bytes, at least one. *)
Definition byte_count (n : N) : nat := Z.to_nat (Z.log2 (Z.of_N n) / 8) + 1.

#[local] Instance n_biguint : BigUintLib := {|
  to_bytes_le n := to_le_bytes (byte_count n) (Z.of_N n);
  from_bytes_le bs := Z.to_N (from_le_bytes bs);
|}.

Lemma byte_count_spec n (k : nat) :
  (1 <= k)%nat -> (byte_count n <= k)%nat <-> Z.of_N n < 2 ^ (8 * Z.of_nat k).
Proof.
  intros Hk. unfold byte_count. pose proof (Z.log2_nonneg (Z.of_N n)).
  assert (0 <= Z.log2 (Z.of_N n) / 8) by (apply Z.div_pos; lia).
  destruct (decide (n = 0%N)) as [->|Hn].
  { change (Z.to_nat _ + 1)%nat with 1%nat. split; [|done]. intros _. apply Z.pow_pos_nonneg; lia. }
  rewrite Z.log2_lt_pow2 by lia.
  pose proof (Z.div_mod (Z.log2 (Z.of_N n)) 8). pose proof (Z.mod_pos_bound (Z.log2 (Z.of_N n)) 8). lia.
Qed.

#[local] Instance n_biguint_laws : BigUintLaws.
Proof.
  split; cbn [to_bytes_le from_bytes_le n_biguint].
  - intros n. split; [apply to_le_bytes_bytes|]. apply from_to_le_bytes. split; [lia|].
    apply byte_count_spec; [|done]. unfold byte_count. rewrite Nat.add_1_r. apply le_n_S, Nat.le_0_l.
  - intros n k. rewrite to_le_bytes_length. apply byte_count_spec.
  - intros bs Hbs. pose proof (from_le_bytes_bound bs Hbs). lia.
Qed.
End concrete.
End ConcreteTokens.

#[local] Existing Instances wasm_release ConcreteTokens.z_u256 ConcreteTokens.z_u256_laws.
#[local] Existing Instances ConcreteTokens.n_biguint ConcreteTokens.n_biguint_laws.

Definition big : Tokens256.t := Tokens256.mk (ConcreteTokens.clamp (2 ^ 200 + 7) : U256).
Definition max128 : Tokens128.t := Tokens128.MAX.

(** [u128::MAX * u128::MAX], and a sum that does not fit. *)
Lemma tokens_arithmetic_exact_witness :
  Tokens128.amount <$> Tokens128.add max128 max128 = None /\
  val (Tokens128.mul max128 max128) = (2 ^ 128 - 1) * (2 ^ 128 - 1).
Proof.
  assert (Tokens128.valid max128) as Hv by (unfold Tokens128.valid; by_compute).
  destruct (tokens_arithmetic_exact max128 max128 Tokens256.ZERO Tokens256.ZERO 0 Hv Hv) as (H1 & _ & H3 & _);
    [lia|].
  split; [exact H1|exact H3].
Defined.

Lemma tokens_nat_roundtrip_witness :
  Tokens128.from_nat (Tokens128.to_nat (Tokens128.mk 123456)) = Some (Tokens128.mk 123456) /\
  Tokens256.from_nat (Tokens256.to_nat big) = Ret (Some big).
Proof.
  destruct (tokens_nat_roundtrip (Tokens128.mk 123456) big 5)
    as (H1 & H2 & _); [unfold Tokens128.valid; by_compute|].
  by split.
Defined.
