(* ===== verification/TokensFloat.v ===== *)
(** * Token amounts and floating point

    [ic-helpers/src/tokens.rs]: the conversions of [Tokens128] and [Tokens256] from
    and to [f64].  An [f64] is a [spec_float] of the Standard Library with the format
    of IEEE binary64; an integer [as f64] and the operators round to nearest, ties to
    even, and a float [as u128] truncates and saturates. *)

From Stdlib Require Import SpecFloat.
From S2P Require Import Prelude Tokens.
Local Open Scope Z_scope.

(** ** f64 *)

Module F64.

Notation t := spec_float.

Definition prec : Z := 53.
Definition emax : Z := 1024.

(** [n as f64] of an unsigned integer. *)
Definition of_int (n : Z) : t := binary_normalize prec emax n 0 false.

Definition zero : t := S754_zero false.
Definition add (x y : t) : t := SFadd prec emax x y.
Definition mul (x y : t) : t := SFmul prec emax x y.
Definition ltb (x y : t) : bool := SFltb x y.

(** [x.powi(i)] for [0 <= i]. *)
Definition powi (x : t) (i : nat) : t := Nat.iter i (mul x) (of_int 1).

(** The integer part of [m * 2^e]. *)
Definition floor (m : positive) (e : Z) : Z :=
  if 0 <=? e then Zpos m * 2 ^ e else Zpos m / 2 ^ (- e).

(** [x as u128] *)
Definition as_u128 (x : t) : Z :=
  match x with
  | S754_nan | S754_zero _ => 0
  | S754_infinity s => if s then 0 else umax 128
  | S754_finite s m e => if s then 0 else Z.min (floor m e) (umax 128)
  end.

End F64.

(** ** tokens.rs *)

Module TokensFloat.

Definition from_f64 (amount : F64.t) : option Tokens128.t :=
  if F64.ltb amount F64.zero || F64.ltb (F64.of_int (umax 128)) amount then None
  else Some (Tokens128.mk (F64.as_u128 amount)).

(** Also [From<Tokens128> for f64]. *)
Definition to_f64 (self : Tokens128.t) : F64.t := F64.of_int (Tokens128.amount self).

Section tokens256.
Context `{U256Lib, BigUintLib}.

(** The loop over the bytes, from the least significant. *)
Fixpoint sum_f64 (i : nat) (bytes : list Z) (val : F64.t) : F64.t :=
  match bytes with
  | [] => val
  | byte :: bytes =>
      sum_f64 (S i) bytes
        (F64.add val (F64.mul (F64.of_int byte) (F64.powi (F64.of_int 256) i)))
  end.

Definition to_f64_256 (self : Tokens256.t) : F64.t :=
  sum_f64 0 (u256_to_le_bytes (Tokens256.inner self)) F64.zero.

(** [BigUint::from_f64] is a parameter. *)
Definition from_f64_256 (biguint_from_f64 : F64.t -> option N) (amount : F64.t) :
    outcome (option Tokens256.t) :=
  match biguint_from_f64 amount with
  | Some bigint => Tokens256.from_nat bigint
  | None => Ret None
  end.
End tokens256.
End TokensFloat.

(** ** Rounding *)

Section rounding.
Import F64.

Lemma digits_log2 p : Zpos (digits2_pos p) = Z.log2 (Zpos p) + 1.
Proof.
  induction p as [p IH|p IH|]; cbn [digits2_pos]; [| |done].
  - rewrite Pos2Z.inj_succ, IH, Pos2Z.inj_xI, Z.log2_succ_double by lia. lia.
  - rewrite Pos2Z.inj_succ, IH, Pos2Z.inj_xO, Z.log2_double by lia. lia.
Qed.

Lemma Zdigits_log2 n : 0 < n -> Zdigits2 n = Z.log2 n + 1.
Proof. destruct n; [lia| |lia]. intros _. apply digits_log2. Qed.

Lemma iter_pos_nat {A} (f : A -> A) p x : SpecFloat.iter_pos f p x = Nat.iter (Pos.to_nat p) f x.
Proof.
  assert (forall n m y, Nat.iter n f (Nat.iter m f y) = Nat.iter (n + m) f y) as Hadd.
  { intros n m y. induction n; [done|]. cbn. by f_equal. }
  revert x. induction p as [p IH|p IH|]; intros x; cbn [SpecFloat.iter_pos].
  - rewrite !IH, Hadd, Pos2Nat.inj_xI.
    replace (S (2 * Pos.to_nat p)) with (Pos.to_nat p + Pos.to_nat p + 1)%nat by lia.
    by rewrite <- (Hadd (Pos.to_nat p + Pos.to_nat p)%nat 1%nat x).
  - rewrite !IH, Hadd, Pos2Nat.inj_xO. f_equal. lia.
  - done.
Qed.

Lemma shr_1_div m r s : 0 <= m -> shr_1 (Build_shr_record m r s) = Build_shr_record (m / 2) (Z.odd m) (r || s).
Proof.
  intros Hm. destruct m as [|[p|p|]|]; try done; cbn [shr_1 Z.odd].
  - f_equal. apply (Z.div_unique _ 2 _ 1); lia.
  - f_equal. apply (Z.div_unique _ 2 _ 0); lia.
Qed.

(** After [k] shifts: the quotient, the last bit shifted out, and whether any of the
    bits before it was set. *)
Lemma shr_iter n k :
  0 <= n ->
  Nat.iter (S k) shr_1 (Build_shr_record n false false) =
    Build_shr_record (n / 2 ^ Z.of_nat (S k)) (Z.testbit n (Z.of_nat k))
      (negb (n mod 2 ^ Z.of_nat k =? 0)).
Proof.
  intros Hn. induction k as [|k IH].
  - cbn [Nat.iter nat_rect]. rewrite shr_1_div by done. cbn. by rewrite Z.bit0_odd, Z.mod_1_r.
  - cbn [Nat.iter nat_rect] in *. rewrite IH, shr_1_div by (apply Z.div_pos; lia). f_equal.
    + rewrite Z.div_div by lia. f_equal. rewrite !Nat2Z.inj_succ, !Z.pow_succ_r by lia. lia.
    + rewrite <- Z.bit0_odd, Z.div_pow2_bits by lia. f_equal.
    + rewrite Nat2Z.inj_succ, Z.pow_succ_r by lia.
      rewrite (Z.mul_comm 2), Z.rem_mul_r by lia.
      pose proof (Z.mod_pos_bound n (2 ^ Z.of_nat k) ltac:(lia)).
      pose proof (Z.mod_pos_bound (n / 2 ^ Z.of_nat k) 2 ltac:(lia)).
      assert (Z.testbit n (Z.of_nat k) = ((n / 2 ^ Z.of_nat k) mod 2 =? 1)) as ->.
      { pose proof (Z.testbit_spec' n (Z.of_nat k) ltac:(lia)) as Hb.
        destruct (Z.testbit n (Z.of_nat k)); cbn in Hb; rewrite <- Hb; done. }
      case_bools; cbn; try done; nia.
Qed.

(** [n / 2^k], rounded to the nearest integer, ties to even. *)
Definition nearest (n k : Z) : Z :=
  let q := n / 2 ^ k in
  match Z.compare (2 * (n mod 2 ^ k)) (2 ^ k) with
  | Lt => q
  | Eq => if Z.even q then q else q + 1
  | Gt => q + 1
  end.

Lemma nearest_0 n : nearest n 0 = n.
Proof. unfold nearest. by rewrite Z.pow_0_r, Z.mod_1_r, Z.div_1_r. Qed.

Lemma nearest_error n k : 0 <= k -> 2 * Z.abs (nearest n k * 2 ^ k - n) <= 2 ^ k.
Proof.
  intros Hk. assert (0 < 2 ^ k) as Hp by lia. unfold nearest.
  pose proof (Z.div_mod n (2 ^ k) ltac:(lia)). pose proof (Z.mod_pos_bound n (2 ^ k) Hp).
  destruct (Z.compare_spec (2 * (n mod 2 ^ k)) (2 ^ k)); [destruct (Z.even _)| |]; nia.
Qed.

Lemma nearest_exact n k : 0 <= k -> nearest (n * 2 ^ k) k = n.
Proof.
  intros Hk. unfold nearest. rewrite Z.mod_mul, Z.div_mul by lia.
  destruct (Z.compare_spec (2 * 0) (2 ^ k)); lia.
Qed.

Lemma nearest_bounds n k a b :
  0 <= k -> a * 2 ^ k <= n -> n < b * 2 ^ k -> a <= nearest n k <= b.
Proof.
  intros Hk Ha Hb. assert (0 < 2 ^ k) as Hp by lia. unfold nearest.
  assert (a <= n / 2 ^ k) by (apply Z.div_le_lower_bound; lia).
  assert (n / 2 ^ k < b) by (apply Z.div_lt_upper_bound; lia).
  destruct (Z.compare_spec (2 * (n mod 2 ^ k)) (2 ^ k)); [destruct (Z.even _)| |]; lia.
Qed.

Lemma shr_nearest n p e :
  0 <= n ->
  exists mrs, shr (Build_shr_record n false false) e (Zpos p) = (mrs, e + Zpos p) /\
    round_nearest_even (shr_m mrs) (loc_of_shr_record mrs) = nearest n (Zpos p).
Proof.
  intros Hn. cbn [shr]. rewrite iter_pos_nat. destruct (Pos2Nat.is_succ p) as [k Hk].
  assert (Zpos p = Z.of_nat (S k)) as -> by lia. rewrite Hk, shr_iter by done.
  eexists. split; [done|]. unfold nearest. cbn [shr_m loc_of_shr_record].
  set (q := n / 2 ^ Z.of_nat (S k)).
  pose proof (Z.testbit_spec' n (Z.of_nat k) ltac:(lia)) as Hb.
  pose proof (Z.mod_pos_bound n (2 ^ Z.of_nat k) ltac:(lia)) as Hm.
  assert (n mod 2 ^ Z.of_nat (S k) =
    n mod 2 ^ Z.of_nat k + 2 ^ Z.of_nat k * Z.b2z (Z.testbit n (Z.of_nat k))) as ->.
  { rewrite Hb, Nat2Z.inj_succ, Z.pow_succ_r, (Z.mul_comm 2), Z.rem_mul_r by lia. done. }
  assert (2 ^ Z.of_nat (S k) = 2 * 2 ^ Z.of_nat k) as ->
    by (by rewrite Nat2Z.inj_succ, Z.pow_succ_r by lia).
  assert (0 < 2 ^ Z.of_nat k) by lia.
  destruct (Z.testbit n (Z.of_nat k)); cbn [Z.b2z]; destruct (Z.eqb_spec (n mod 2 ^ Z.of_nat k) 0);
    cbn [negb round_nearest_even]; match goal with |- context [Z.compare ?a ?b] =>
      destruct (Z.compare_spec a b) end; try lia; done.
Qed.

(** The float with mantissa [q], at most 2^53, and exponent [e]. *)
Definition of_mantissa (q e : Z) : t :=
  if q =? 2 ^ 53 then S754_finite false (2 ^ 52) (e + 1) else S754_finite false (Z.to_pos q) e.

Lemma fexp_normal d : -1021 <= d -> fexp prec emax d = d - 53.
Proof. intros Hd. unfold fexp, emin, prec, emax. lia. Qed.

Lemma shr_fexp_spec n e k :
  0 < n -> k = Z.log2 n - 52 -> -1074 <= e + k ->
  shr_fexp prec emax n e loc_Exact = shr (Build_shr_record n false false) e k.
Proof.
  intros Hn -> He. unfold shr_fexp. cbn [shr_record_of_loc]. f_equal.
  rewrite Zdigits_log2, fexp_normal by lia. lia.
Qed.

Lemma round_mantissa m e k :
  2 ^ 52 <= m -> k = Z.log2 m - 52 -> -1074 <= e + k -> e + k <= 970 ->
  binary_round_aux prec emax false m e loc_Exact = of_mantissa (nearest m k) (e + k).
Proof.
  intros Hm Hk He He'. assert (52 <= Z.log2 m) as Hlog.
  { change 52 with (Z.log2 (2 ^ 52)). by apply Z.log2_le_mono. }
  assert (2 ^ 52 <= nearest m k <= 2 ^ 53) as Hq.
  { pose proof (Z.log2_spec m ltac:(lia)) as [Hl Hu].
    apply nearest_bounds; [lia|rewrite <- Z.pow_add_r by lia; replace (52 + k) with (Z.log2 m) by lia; done|].
    rewrite <- Z.pow_add_r by lia. replace (53 + k) with (Z.succ (Z.log2 m)) by lia. done. }
  assert (exists mrs, shr_fexp prec emax m e loc_Exact = (mrs, e + k) /\
    round_nearest_even (shr_m mrs) (loc_of_shr_record mrs) = nearest m k) as (mrs & Hs & Hr).
  { rewrite (shr_fexp_spec m e k) by lia. destruct k as [|p|p]; [| |lia].
    - eexists. split; [cbn; by rewrite Z.add_0_r|]. cbn. by rewrite nearest_0.
    - by apply shr_nearest; lia. }
  unfold binary_round_aux. rewrite Hs, Hr. unfold of_mantissa.
  destruct (Z.eqb_spec (nearest m k) (2 ^ 53)) as [->|Hne].
  - rewrite (shr_fexp_spec _ _ 1) by (done || lia). cbn -[Z.leb Z.add].
    by rewrite (proj2 (Z.leb_le _ _)) by (unfold emax, prec; lia).
  - assert (Z.log2 (nearest m k) = 52) as Hl by (apply Z.log2_unique; plia).
    rewrite (shr_fexp_spec _ _ 0) by lia. cbn [shr shr_m].
    destruct (nearest m k) as [|q|q]; [plia| |plia].
    by rewrite (proj2 (Z.leb_le _ _)) by (unfold emax, prec; lia).
Qed.

(** The nearest float to [n * 2^e]. *)
Definition rounded (n e : Z) : t :=
  let k := Z.log2 n - 52 in
  of_mantissa (if 0 <? k then nearest n k else n * 2 ^ (- k)) (e + k).

Lemma iter_xO p d : Zpos (Pos.iter xO p d) = Zpos p * 2 ^ Zpos d.
Proof.
  pose proof (Zpower.shift_pos_correct d p) as Hd. unfold Zpower.shift_pos in Hd.
  rewrite Hd. change (Z.pow_pos 2 d) with (2 ^ Zpos d). lia.
Qed.

Lemma log2_mul_pow2 n j : 0 < n -> 0 <= j -> Z.log2 (n * 2 ^ j) = Z.log2 n + j.
Proof. intros. rewrite Z.log2_mul_pow2 by lia. lia. Qed.

Lemma normalize_spec n e :
  0 < n -> -1074 <= e + Z.log2 n - 52 -> e + Z.log2 n - 52 <= 970 ->
  binary_normalize prec emax n e false = rounded n e.
Proof.
  intros Hn He He'. destruct n as [|p|p]; [lia| |lia]. cbn [binary_normalize].
  unfold binary_round. rewrite digits_log2, fexp_normal by lia. unfold shl_align.
  pose proof (Z.log2_nonneg (Zpos p)) as Hl0. unfold rounded.
  replace (Z.log2 (Zpos p) + 1 + e - 53 - e) with (Z.log2 (Zpos p) - 52) by lia.
  destruct (Z.log2 (Zpos p) - 52) as [|k|k] eqn:Hk.
  - rewrite (round_mantissa _ _ 0); [|apply Z.log2_le_pow2; lia|lia..].
    cbn [Z.ltb Z.compare]. by rewrite nearest_0, Z.opp_0, Z.pow_0_r, Z.mul_1_r.
  - rewrite (round_mantissa _ _ (Zpos k)); [|apply Z.log2_le_pow2; lia|lia..]. done.
  - rewrite iter_xO. rewrite (round_mantissa _ _ 0); cycle 1.
    + apply Z.log2_le_pow2; [lia|]. rewrite log2_mul_pow2 by lia. lia.
    + rewrite log2_mul_pow2 by lia. lia.
    + lia.
    + lia.
    + cbn [Z.ltb Z.compare]. rewrite nearest_0. f_equal. lia.
Qed.

(** *** Mantissas and their values *)

Lemma of_mantissa_finite q e :
  2 ^ 52 <= q <= 2 ^ 53 -> -1074 <= e -> e <= 970 ->
  exists m e', of_mantissa q e = S754_finite false m e' /\ bounded prec emax m e' = true /\
    floor m e' = if 0 <=? e then q * 2 ^ e else q / 2 ^ (- e).
Proof.
  intros Hq He He'. unfold of_mantissa. destruct (Z.eqb_spec q (2 ^ 53)) as [->|Hne].
  - exists (2 ^ 52)%positive, (e + 1). split_and!; [done| |].
    + unfold bounded, canonical_mantissa. rewrite digits_log2.
      change (Z.log2 (Zpos (2 ^ 52)) + 1) with 53. rewrite fexp_normal by lia.
      rewrite (proj2 (Z.eqb_eq _ _)) by lia. cbn [andb]. apply Z.leb_le. unfold emax, prec. lia.
    + unfold floor. change (Zpos (2 ^ 52)) with (2 ^ 52). case_bools; try lia.
      * rewrite Z.pow_add_r by lia. change (2 ^ 53) with (2 ^ 52 * 2). lia.
      * assert (e = -1) as -> by lia. done.
      * change (2 ^ 53) with (2 ^ 52 * 2). replace (- e) with (- (e + 1) + 1) by lia.
        rewrite (Z.pow_add_r 2 (- (e + 1)) 1) by lia. by rewrite Z.pow_1_r, Z.div_mul_cancel_r by lia.
  - exists (Z.to_pos q), e. assert (Zpos (Z.to_pos q) = q) as Hp by (apply Z2Pos.id; plia).
    split_and!; [done| |by unfold floor; rewrite Hp].
    unfold bounded, canonical_mantissa. rewrite digits_log2, Hp.
    assert (Z.log2 q = 52) as -> by (apply Z.log2_unique; plia). rewrite fexp_normal by lia.
    rewrite (proj2 (Z.eqb_eq _ _)) by lia. cbn [andb]. apply Z.leb_le. unfold emax, prec. lia.
Qed.

(** An integer as a float: exact up to 2^53, and within half a unit in the last
    place of its 53 bits above. *)
Lemma of_int_spec n :
  0 < n < 2 ^ 1000 ->
  exists m e v, of_int n = S754_finite false m e /\ bounded prec emax m e = true /\ floor m e = v /\
    2 * Z.abs (v - n) <= 2 ^ Z.max 0 (Z.log2 n - 52) /\ v <= 2 ^ (Z.log2 n + 1) /\
    (n <= 2 ^ 53 -> v = n).
Proof.
  intros [Hn Hlt]. assert (Z.log2 n < 1000) as Hl by (by apply Z.log2_lt_pow2).
  pose proof (Z.log2_nonneg n). pose proof (Z.log2_spec n Hn) as [Hlo Hup].
  unfold of_int. rewrite normalize_spec by lia. unfold rounded. rewrite Z.add_0_l.
  set (k := Z.log2 n - 52). destruct (Z.ltb_spec 0 k) as [Hk|Hk].
  - assert (2 ^ 52 <= nearest n k <= 2 ^ 53) as Hq.
    { apply nearest_bounds; [lia|rewrite <- Z.pow_add_r by lia; by replace (52 + k) with (Z.log2 n) by lia|].
      rewrite <- Z.pow_add_r by lia. by replace (53 + k) with (Z.succ (Z.log2 n)) by lia. }
    destruct (of_mantissa_finite (nearest n k) k Hq) as (m & e & -> & Hb & Hf); [lia..|].
    rewrite (proj2 (Z.leb_le 0 k)) in Hf by lia.
    exists m, e, (nearest n k * 2 ^ k). split_and!; [done..| | |].
    + rewrite Z.max_r by lia. apply nearest_error. lia.
    + replace (Z.log2 n + 1) with (53 + k) by lia. rewrite Z.pow_add_r by lia.
      apply Z.mul_le_mono_nonneg_r; lia.
    + intros Hsmall. assert (n = 2 ^ 53) as ->; [|by vm_compute].
      assert (53 <= Z.log2 n) by lia. assert (2 ^ 53 <= 2 ^ Z.log2 n) by (by apply Z.pow_le_mono_r). lia.
  - assert (2 ^ 52 <= n * 2 ^ (- k) < 2 ^ 53) as Hq.
    { replace (2 ^ 52) with (2 ^ Z.log2 n * 2 ^ (- k)) by (rewrite <- Z.pow_add_r by lia; f_equal; lia).
      replace (2 ^ 53) with (2 ^ Z.succ (Z.log2 n) * 2 ^ (- k)) by (rewrite <- Z.pow_add_r by lia; f_equal; lia).
      assert (0 < 2 ^ (- k)) by lia. nia. }
    destruct (of_mantissa_finite (n * 2 ^ (- k)) k) as (m & e & -> & Hb & Hf); [lia..|].
    exists m, e, n. split_and!; [done..| | | |done].
    + rewrite Hf. case_bools.
      * assert (k = 0) as -> by lia. cbn. lia.
      * by rewrite Z.div_mul by lia.
    + rewrite Z.sub_diag. cbn. lia.
    + rewrite Z.add_1_r. lia.
Qed.

(** *** Comparison with 2^128 *)

Lemma max_f64 : of_int (umax 128) = S754_finite false (2 ^ 52) 76.
Proof. by vm_compute. Qed.

Lemma bounded_spec m e :
  bounded prec emax m e = true ->
  Zpos m < 2 ^ 53 /\ (-1074 < e -> 2 ^ 52 <= Zpos m) /\ -1074 <= e <= 971.
Proof.
  unfold bounded, canonical_mantissa, fexp, emin, prec, emax. rewrite digits_log2.
  intros [Hc%Z.eqb_eq He%Z.leb_le]%andb_prop. split_and!; [|intros Hlt|lia..].
  - apply Z.log2_lt_pow2; lia.
  - apply Z.log2_le_pow2; lia.
Qed.

Lemma exceeds_max m e :
  bounded prec emax m e = true ->
  ltb (of_int (umax 128)) (S754_finite false m e) = (2 ^ 128 <? floor m e).
Proof.
  intros Hb. apply bounded_spec in Hb as (Hm & Hn & He). rewrite max_f64. unfold ltb, SFltb.
  cbn [SFcompare]. unfold floor. destruct (Z.compare_spec 76 e) as [<-|Hlt|Hgt].
  - rewrite (proj2 (Z.leb_le 0 76)) by lia. change (Pos.compare_cont Eq (2 ^ 52) m) with (2 ^ 52 ?= m)%positive.
    change (2 ^ 128) with (2 ^ 52 * 2 ^ 76). assert (Zpos (2 ^ 52) = 2 ^ 52) as H52 by done.
    destruct (Pos.compare_spec (2 ^ 52)%positive m) as [<-|Hc|Hc]; symmetry.
    + by vm_compute.
    + apply Z.ltb_lt. apply Pos2Z.pos_lt_pos in Hc. plia.
    + apply Z.ltb_ge. apply Pos2Z.pos_lt_pos in Hc. plia.
  - rewrite (proj2 (Z.leb_le 0 e)) by lia. symmetry. apply Z.ltb_lt.
    change (2 ^ 128) with (2 ^ 52 * 2 ^ 76).
    assert (2 ^ 76 < 2 ^ e) by (apply Z.pow_lt_mono_r; lia). specialize (Hn ltac:(lia)). nia.
  - symmetry. apply Z.ltb_ge. case_bools.
    + assert (2 ^ e <= 2 ^ 75) by (apply Z.pow_le_mono_r; lia).
      change (2 ^ 128) with (2 ^ 53 * 2 ^ 75). apply Z.mul_le_mono_nonneg; lia.
    + transitivity (Zpos m); [|plia]. apply Z.div_le_upper_bound; [lia|].
      assert (1 <= 2 ^ (- e)) by lia. nia.
Qed.
End rounding.

(** ** The conversions of Tokens128 *)

Section conversions.
Import F64.

(** A float is accepted unless it is negative, infinite or above 2^128, and then
    truncated: a NaN is zero, and 2^128 itself is [Tokens128::MAX]. *)
Lemma from_f64_spec x :
  valid_binary prec emax x = true ->
  TokensFloat.from_f64 x =
  match x with
  | S754_nan | S754_zero _ => Some Tokens128.ZERO
  | S754_infinity _ => None
  | S754_finite true _ _ => None
  | S754_finite false m e =>
      if 2 ^ 128 <? floor m e then None else Some (Tokens128.mk (Z.min (floor m e) (umax 128)))
  end.
Proof.
  intros Hx. unfold TokensFloat.from_f64.
  destruct x as [s|s| |s m e]; [by destruct s|by destruct s|done|].
  destruct s; [done|]. cbn [valid_binary] in Hx. rewrite exceeds_max by done.
  by change (ltb (S754_finite false m e) zero) with false.
Qed.

(** C36: Amounts and floats.  A [Tokens128] as a float is the amount up to 2^53 and
    within half a unit of its last of 53 bits above; converting the float back
    gives that number, capped at the maximum.  From any float, [from_f64] gives the
    integer part of a number of at most 2^128, capped at the maximum, and none for
    negative, larger or infinite floats; a NaN gives zero. *)
Theorem tokens128_f64 a x :
  Tokens128.valid a -> valid_binary prec emax x = true ->
  (exists v, TokensFloat.from_f64 (TokensFloat.to_f64 a) = Some (Tokens128.mk (Z.min v (umax 128))) /\
     2 * Z.abs (v - Tokens128.amount a) <= 2 ^ Z.max 0 (Z.log2 (Tokens128.amount a) - 52) /\
     (Tokens128.amount a <= 2 ^ 53 -> v = Tokens128.amount a)) /\
  TokensFloat.from_f64 x =
  match x with
  | S754_nan | S754_zero _ => Some Tokens128.ZERO
  | S754_infinity _ => None
  | S754_finite true _ _ => None
  | S754_finite false m e =>
      if 2 ^ 128 <? floor m e then None else Some (Tokens128.mk (Z.min (floor m e) (umax 128)))
  end.
Proof.
  intros Ha Hx. split; [|by apply from_f64_spec]. unfold Tokens128.valid in Ha. unfold TokensFloat.to_f64.
  destruct (decide (Tokens128.amount a = 0)) as [Hz|Hz].
  - rewrite Hz. exists 0. by vm_compute.
  - destruct (of_int_spec (Tokens128.amount a)) as (m & e & v & Hof & Hb & Hv & Herr & Hle & Hex).
    { split; [lia|]. transitivity (2 ^ 128); [lia|]. by apply Z.pow_lt_mono_r. }
    exists v. split_and!; [|done..]. rewrite Hof, from_f64_spec by done. rewrite Hv.
    rewrite (proj2 (Z.ltb_ge _ _)); [done|].
    assert (Z.log2 (Tokens128.amount a) < 128) as Hl by (apply Z.log2_lt_pow2; lia).
    assert (2 ^ (Z.log2 (Tokens128.amount a) + 1) <= 2 ^ 128) by (apply Z.pow_le_mono_r; lia). lia.
Qed.
End conversions.

(** ** The sum over the bytes of Tokens256 *)

Section tokens256_f64.
Import F64.

#[local] Instance spec_float_eq_dec : EqDecision t.
Proof. solve_decision. Defined.

(** A byte times a power of 256 is exact: all products the loop can make. *)
Lemma byte_products :
  forallb (fun i => forallb (fun b =>
    bool_decide (mul (of_int b) (powi (of_int 256) i) = of_int (b * 256 ^ Z.of_nat i)))
    (seqZ 0 256)) (seq 0 32) = true.
Proof. by vm_compute. Qed.

Lemma mul_powi b i :
  is_byte b -> (i < 32)%nat -> mul (of_int b) (powi (of_int 256) i) = of_int (b * 256 ^ Z.of_nat i).
Proof.
  intros Hb Hi. pose proof byte_products as H. rewrite forallb_forall in H.
  specialize (H i). rewrite in_seq, forallb_forall in H. specialize (H ltac:(lia) b).
  eapply bool_decide_eq_true_1, H. apply list_elem_of_In, elem_of_seqZ. unfold is_byte in Hb. lia.
Qed.

Lemma shl_align_value p e e' :
  e' <= e -> Zpos (shl_align p e e').1 = Zpos p * 2 ^ (e - e').
Proof.
  intros He. unfold shl_align. destruct (e' - e) as [|d|d] eqn:Hd; [|lia|].
  - replace (e - e') with 0 by lia. cbn. lia.
  - cbn [fst]. rewrite iter_xO. do 2 f_equal. lia.
Qed.

(** Small integers are exact. *)
Lemma of_int_small n :
  0 < n < 2 ^ 53 ->
  of_int n = S754_finite false (Z.to_pos (n * 2 ^ (52 - Z.log2 n))) (Z.log2 n - 52).
Proof.
  intros [Hn Hlt]. assert (Z.log2 n < 53) by (by apply Z.log2_lt_pow2). pose proof (Z.log2_nonneg n).
  unfold of_int. rewrite normalize_spec by lia. unfold rounded, of_mantissa.
  rewrite (proj2 (Z.ltb_ge _ _)), Z.add_0_l by lia. replace (- (Z.log2 n - 52)) with (52 - Z.log2 n) by lia.
  rewrite (proj2 (Z.eqb_neq _ _)); [done|]. pose proof (Z.log2_spec n Hn) as [_ Hu].
  assert (n * 2 ^ (52 - Z.log2 n) < 2 ^ 53); [|lia].
  replace (2 ^ 53) with (2 ^ Z.succ (Z.log2 n) * 2 ^ (52 - Z.log2 n))
    by (rewrite <- Z.pow_add_r by lia; f_equal; lia).
  apply Z.mul_lt_mono_pos_r; lia.
Qed.

Lemma rounded_shift n j :
  0 < n < 2 ^ 53 -> 0 <= j -> rounded (n * 2 ^ j) (- j) = rounded n 0.
Proof.
  intros [Hn Hlt] Hj. assert (Z.log2 n < 53) by (by apply Z.log2_lt_pow2).
  unfold rounded. rewrite log2_mul_pow2 by lia. rewrite (proj2 (Z.ltb_ge 0 (Z.log2 n - 52))) by lia.
  f_equal; [|lia]. case_bools.
  - replace j with ((- (Z.log2 n - 52)) + (Z.log2 n + j - 52)) at 1 by lia.
    rewrite Z.pow_add_r, Z.mul_assoc by lia. apply nearest_exact. lia.
  - rewrite <- Z.mul_assoc, <- Z.pow_add_r by lia. do 2 f_equal. lia.
Qed.

Lemma add_exact a b : 0 <= a -> 0 <= b -> a + b < 2 ^ 53 -> add (of_int a) (of_int b) = of_int (a + b).
Proof.
  intros Ha Hb Hab. destruct (decide (a = 0)) as [->|Ha0].
  { change (of_int 0) with zero. destruct (decide (b = 0)) as [->|Hb0]; [done|].
    rewrite Z.add_0_l, (of_int_small b) by lia. done. }
  destruct (decide (b = 0)) as [->|Hb0].
  { change (of_int 0) with zero. rewrite Z.add_0_r, (of_int_small a) by lia. done. }
  assert (forall n, 0 < n < 2 ^ 53 -> 0 <= Z.log2 n < 53) as Hlog.
  { intros n Hn. split; [apply Z.log2_nonneg|]. apply Z.log2_lt_pow2; lia. }
  pose proof (Hlog a ltac:(lia)). pose proof (Hlog b ltac:(lia)). pose proof (Hlog (a + b) ltac:(lia)).
  rewrite (of_int_small a), (of_int_small b) by lia. unfold add. cbn [SFadd cond_Zopp].
  set (ez := Z.min (Z.log2 a - 52) (Z.log2 b - 52)).
  rewrite !shl_align_value by lia. rewrite !Z2Pos.id by nia.
  rewrite <- !Z.mul_assoc, <- !Z.pow_add_r by lia.
  replace (52 - Z.log2 a + (Z.log2 a - 52 - ez)) with (- ez) by lia.
  replace (52 - Z.log2 b + (Z.log2 b - 52 - ez)) with (- ez) by lia.
  rewrite <- Z.mul_add_distr_r. replace ez with (- - ez) at 2 by lia.
  assert (Z.log2 ((a + b) * 2 ^ (- ez)) = Z.log2 (a + b) - ez) as Hl by (rewrite log2_mul_pow2; lia).
  rewrite normalize_spec; [|nia|lia|lia]. rewrite rounded_shift by lia.
  unfold of_int. by rewrite normalize_spec by lia.
Qed.

Context `{U256Laws, !BigUintLib}.

(** Below 2^53 the conversion of a [Tokens256] is exact. *)
Lemma to_f64_256_exact a : val a < 2 ^ 53 -> TokensFloat.to_f64_256 a = of_int (val a).
Proof.
  intros Ha. unfold TokensFloat.to_f64_256. rewrite u256_to_le_bytes_law.
  pose proof (u256_range (Tokens256.inner a)) as Hr. unfold val in *.
  assert (forall bytes i acc, Forall is_byte bytes -> (i + length bytes <= 32)%nat -> 0 <= acc ->
    acc + 256 ^ Z.of_nat i * from_le_bytes bytes < 2 ^ 53 ->
    TokensFloat.sum_f64 i bytes (of_int acc) = of_int (acc + 256 ^ Z.of_nat i * from_le_bytes bytes)) as Hsum.
  { induction bytes as [|b bytes IH]; intros i acc Hbs Hi Hacc Hlt; cbn [TokensFloat.sum_f64 from_le_bytes] in *.
    { by rewrite Z.mul_0_r, Z.add_0_r. }
    apply Forall_cons in Hbs as [Hb Hbs]. cbn [length] in Hi. rewrite mul_powi by (done || lia).
    pose proof (from_le_bytes_bound bytes Hbs) as Hbound. unfold is_byte in Hb.
    assert (256 ^ Z.of_nat (S i) = 256 * 256 ^ Z.of_nat i) as Hp by (rewrite Nat2Z.inj_succ, Z.pow_succ_r; lia).
    assert (0 < 256 ^ Z.of_nat i) by lia.
    rewrite add_exact by nia. rewrite IH by (done || lia || nia). f_equal. rewrite Hp. lia. }
  change zero with (of_int 0). rewrite Hsum.
  - rewrite Z.pow_0_r, Z.mul_1_l, Z.add_0_l. f_equal. by apply from_to_le_bytes.
  - apply to_le_bytes_bytes.
  - by rewrite to_le_bytes_length.
  - lia.
  - rewrite from_to_le_bytes by done. cbn. lia.
Qed.
End tokens256_f64.

(** ** Concrete runs *)

(** 2^53 + 1 is rounded to 2^53; the maximum is rounded up to 2^128 and capped. *)
Example rounding_examples :
  TokensFloat.from_f64 (TokensFloat.to_f64 (Tokens128.mk (2 ^ 53 + 1))) = Some (Tokens128.mk (2 ^ 53)) /\
  TokensFloat.from_f64 (F64.of_int (2 ^ 128)) = Some Tokens128.MAX /\
  TokensFloat.from_f64 S754_nan = Some Tokens128.ZERO.
Proof. by vm_compute. Qed.

Lemma tokens128_f64_witness :
  Tokens128.valid (Tokens128.mk (2 ^ 53 + 1)) /\
  TokensFloat.from_f64 (S754_finite false (3 * 2 ^ 51) (-52)) = Some (Tokens128.mk 1).
Proof.
  split; [by vm_compute|].
  destruct (tokens128_f64 (Tokens128.mk (2 ^ 53 + 1)) (S754_finite false (3 * 2 ^ 51) (-52))) as [_ H];
    [by vm_compute|by vm_compute|].
  rewrite H. by vm_compute.
Defined.
