(* ===== verification/Metrics.v ===== *)
(** * Canister metrics

    [ic-metrics/src/lib.rs]: snapshots of the canister metrics in an ordered map
    by time stamp, at most one per interval, over a bounded history.  Reading the
    current values ([curr_values]) is a call to the platform and a parameter. *)

From S2P Require Import Prelude.
Local Open Scope Z_scope.

Inductive Interval :=
  | PerMinute
  | PerHour
  | PerDay
  | PerWeek
  | Period (seconds : Z).

Record MetricsData := {
  cycles : Z;
  stable_memory_size : Z;
  heap_memory_size : Z;
}.

Section interval.
Context `{Target}.

(** [1e+9 as u64] *)
Definition nanos (self : Interval) : outcome Z :=
  match self with
  | Period seconds => u_mul 64 seconds 1000000000
  | PerMinute => Ret (60 * 1000000000)
  | PerHour => Ret (60 * 60 * 1000000000)
  | PerDay => Ret (24 * 60 * 60 * 1000000000)
  | PerWeek => Ret (7 * 24 * 60 * 60 * 1000000000)
  end.

Definition from_secs (secs : Z) : Interval := Period secs.
End interval.

Module MetricsMap.
Section metrics_map.
Context `{Target} {T : Type}.

Record t := mk {
  interval : Interval;
  history_length_nanos : Z;
  map : gmap Z T;
}.

Definition new (interval : Interval) (history_length_nanos : Z) : t :=
  mk interval history_length_nanos ∅.

Definition get_interval (self : t) : Interval := interval self.

(** [BTreeMap::retain] *)
Definition trim (now : Z) (self : t) : t :=
  let oldest_to_keep := saturating_sub now (history_length_nanos self) in
  mk (interval self) (history_length_nanos self)
    (filter (fun kv => oldest_to_keep <= kv.1) (map self)).

(** The key of the last entry of the ordered map. *)
Definition last_ts (now : Z) (self : t) : Z :=
  match last (sorted_entries (map self)) with Some (k, _) => k | None => now end.

Definition insert (now : Z) (self : t) (new_metric : T) : outcome (option T * t) :=
  let self := trim now self in
  let last_ts := last_ts now self in
  n ← nanos (interval self);
  next ← u_add 64 last_ts n;
  new_ts ← (if now <? next then Ret last_ts
            else n ← nanos (interval self); r ← u_rem now n; u_sub 64 now r);
  Ret (map self !! new_ts,
       mk (interval self) (history_length_nanos self) (<[new_ts := new_metric]> (map self))).

Definition default : outcome t :=
  n ← nanos PerDay; h ← u_mul 64 n 365; Ret (new PerHour h).

Definition set_interval (self : t) (i : Interval) : t :=
  mk i (history_length_nanos self) (map self).
End metrics_map.
Arguments t T : clear implicits.
End MetricsMap.

(** The canister's storage and its update with the current values. *)
Record MetricsStorage := { metrics : MetricsMap.t MetricsData }.

Section storage.
Context `{Target}.

Definition update_metrics (now : Z) (curr_values : MetricsData) (s : MetricsStorage) :
    outcome MetricsStorage :=
  '(_, m) ← MetricsMap.insert now (metrics s) curr_values; Ret {| metrics := m |}.

Definition set_interval (s : MetricsStorage) (interval : Interval) : MetricsStorage :=
  {| metrics := MetricsMap.set_interval (metrics s) interval |}.

(** [update_metrics_timer] on the wasm target, up to the registration of the
    timer, which runs [update_metrics]. *)
Definition update_metrics_timer (s : MetricsStorage) (timer_secs : Z) : MetricsStorage :=
  set_interval s (from_secs timer_secs).
End storage.

(** ** Properties *)

Section metrics_laws.
Context `{Target} {T : Type}.
Implicit Types m : MetricsMap.t T.

(** No snapshot is from the future. *)
Definition past (now : Z) m : Prop := forall k, is_Some (MetricsMap.map m !! k) -> 0 <= k <= now.

(** The greatest time stamp. *)
Definition latest m (k : Z) : Prop :=
  is_Some (MetricsMap.map m !! k) /\ forall k', is_Some (MetricsMap.map m !! k') -> k' <= k.

Lemma last_ts_spec now m :
  (MetricsMap.map m = ∅ /\ MetricsMap.last_ts now m = now) \/ latest m (MetricsMap.last_ts now m).
Proof.
  unfold MetricsMap.last_ts, latest.
  pose proof (sorted_entries_sorted (MetricsMap.map m)) as Hs.
  destruct (last (sorted_entries (MetricsMap.map m))) as [[k v]|] eqn:Hl.
  - right. apply last_Some in Hl as [l Hl]. split.
    + exists v. rewrite <- elem_of_sorted_entries, Hl. set_solver.
    + intros k' [v' Hk']. rewrite <- elem_of_sorted_entries, Hl in Hk'.
      rewrite Hl in Hs. apply elem_of_app in Hk' as [Hk'|Hk'].
      * apply list_elem_of_lookup in Hk' as [i Hi].
        assert (entry_le (k', v') (k, v)) as Hle.
        { eapply (StronglySorted_lookup _ _ i (length l)); [done|by apply lookup_app_l_Some| |].
          - by rewrite list_lookup_middle.
          - by apply lookup_lt_Some in Hi. }
        unfold entry_le, key_le in Hle. cbn in Hle. lia.
      * apply list_elem_of_singleton in Hk'. simplify_eq. lia.
  - left. split; [|done]. apply last_None in Hl. by apply sorted_entries_nil.
Qed.

Lemma past_trim now m : past now m -> past now (MetricsMap.trim now m).
Proof.
  intros Hm k [v Hk]. apply Hm. exists v. by apply map_lookup_filter_Some in Hk as [? _].
Qed.

(** Inserting a snapshot.  With a zero interval it panics.  Otherwise the
    snapshots older than the history are dropped, and the new one replaces the
    last one left when it is less than an interval old, or is stored after it,
    at the start of the current interval; in the first snapshot of a map the
    current time is kept.  The result holds no future snapshot, and the new one
    is its latest. *)
Theorem metrics_insert_spec now m (x : T) n :
  nanos (MetricsMap.interval m) = Ret n -> 0 <= now < 2 ^ 64 -> 0 <= n -> now + n < 2 ^ 64 ->
  past now m ->
  if n =? 0 then MetricsMap.insert now m x = Panic
  else exists ts m', MetricsMap.insert now m x = Ret (MetricsMap.map (MetricsMap.trim now m) !! ts, m') /\
    MetricsMap.map m' = <[ts := x]> (MetricsMap.map (MetricsMap.trim now m)) /\
    MetricsMap.interval m' = MetricsMap.interval m /\ past now m' /\ latest m' ts /\
    (MetricsMap.map (MetricsMap.trim now m) = ∅ -> ts = now) /\
    (forall last, latest (MetricsMap.trim now m) last ->
       if now <? last + n then ts = last else last < ts /\ ts = now - now mod n).
Proof.
  intros Hn Hnow Hn0 Hov Hm. pose proof (past_trim now m Hm) as Hp.
  set (m1 := MetricsMap.trim now m) in *.
  assert (MetricsMap.interval m1 = MetricsMap.interval m) as Hi by done.
  pose proof (last_ts_spec now m1) as Hlast. set (l := MetricsMap.last_ts now m1) in *.
  assert (0 <= l <= now) as Hl by (destruct Hlast as [[_ ->]|[Hlast _]]; [lia|by apply Hp]).
  unfold MetricsMap.insert. fold m1. cbn zeta. fold l. rewrite Hi, Hn. cbn [mbind outcome_bind].
  rewrite u_add_ok by lia. cbn [mbind outcome_bind].
  destruct (Z.eqb_spec n 0) as [->|Hne].
  { rewrite Z.add_0_r. destruct (Z.ltb_spec now l); [lia|]. cbn [mbind outcome_bind]. done. }
  set (ts := if now <? l + n then l else now - now mod n).
  assert ((if now <? l + n then Ret l else r ← u_rem now n; u_sub 64 now r) = Ret ts) as ->.
  { unfold ts. destruct (now <? l + n); [done|]. rewrite u_rem_ok by done. cbn [mbind outcome_bind].
    apply u_sub_ok. pose proof (Z.mod_pos_bound now n). pose proof (Z.mod_le now n). lia. }
  assert (l <= ts <= now) as Hts.
  { unfold ts. destruct (Z.ltb_spec now (l + n)); [lia|].
    pose proof (Z.mod_pos_bound now n). lia. }
  cbn [mbind outcome_bind]. exists ts. eexists. split; [done|]. cbn [MetricsMap.map MetricsMap.interval].
  split_and!; [done|done| | | |].
  - intros k [v Hk]. cbn [MetricsMap.map] in Hk.
    apply lookup_insert_Some in Hk as [[<- _]|[_ Hk]]; [lia|]. apply Hp. by exists v.
  - split; [cbn; rewrite lookup_insert_eq; by eexists|].
    intros k [v Hk]. cbn [MetricsMap.map] in Hk.
    apply lookup_insert_Some in Hk as [[<- _]|[_ Hk]]; [done|].
    destruct Hlast as [[He _]|[_ Hmax]]; [by rewrite He in Hk|].
    etrans; [apply Hmax; by exists v|lia].
  - intros He. destruct Hlast as [[_ ->]|[[v Hv] _]]; [|by rewrite He in Hv].
    unfold ts. destruct (Z.ltb_spec now (now + n)); [done|lia].
  - intros last Hmax. assert (l = last) as <-.
    { destruct Hlast as [[He _]|[Hv Hmax']]; [destruct Hmax as [[? Hk] _]; by rewrite He in Hk|].
      destruct Hmax as [Hk Hmax]. apply Hmax in Hv. apply Hmax' in Hk. lia. }
    unfold ts. destruct (Z.ltb_spec now (l + n)); [done|].
    split; [|done]. pose proof (Z.mod_pos_bound now n). lia.
Qed.
End metrics_laws.

#[local] Existing Instance wasm_release.

(** A snapshot at 3650 s, the last one at 0 s, one per hour: it is filed at
    3600 s. *)
Lemma metrics_insert_spec_witness :
  MetricsMap.map <$> (snd <$> MetricsMap.insert 3650000000000
     (MetricsMap.mk PerHour 1000000000000000 {[ 0 := 7 ]}) 8) =
  Ret (<[3600000000000 := 8]> {[ 0 := 7 ]}).
Proof.
  pose proof (metrics_insert_spec 3650000000000
    (MetricsMap.mk PerHour 1000000000000000 {[ 0 := 7 ]}) 8 3600000000000 eq_refl) as Hspec.
  cbn [Z.eqb Pos.eqb] in Hspec. destruct Hspec as (ts & m' & -> & Hm' & _ & _ & _ & _ & Hts).
  - by_compute.
  - lia.
  - by_compute.
  - intros k [v Hk]. cbn [MetricsMap.map] in Hk. apply lookup_singleton_Some in Hk as [<- _]. lia.
  - assert (latest (MetricsMap.trim 3650000000000
      (MetricsMap.mk PerHour 1000000000000000 {[ 0 := 7 ]})) 0) as Hl.
    { split; [by exists 7; vm_compute|]. intros k [v Hk].
      apply map_lookup_filter_Some in Hk as [Hk _]. cbn [MetricsMap.map] in Hk.
      apply lookup_singleton_Some in Hk as [<- _]. lia. }
    apply Hts in Hl. cbn [Z.add] in Hl. destruct (Z.ltb_spec 3650000000000 3600000000000); [lia|].
    destruct Hl as [_ ->]. cbn [fmap outcome_fmap snd]. rewrite Hm'. vm_compute. done.
Defined.
