(* ===== verification/Auction.v ===== *)
(** * Cycle auctions

    [ic-auction/src/{state,api,error}.rs]: bids of cycles, the auction that
    distributes the fees once per period, and the settings of its controller.
    [inspect.rs] is not part of the crate ([lib.rs] does not declare it).  The
    floating-point operations of the platform are a parameter (Rust leaves the
    precision of [log10] and [powf] open), and so are the rewards
    ([disburse_rewards]), which every canister implements. *)

From S2P Require Import Prelude Tokens Metrics.
Local Open Scope Z_scope.

Definition Principal : Type := list Z.
Definition Cycles : Type := Z.
Definition MIN_BIDDING_AMOUNT : Cycles := 1000000.

Class F64 := {
  f64 : Type;
  f64_zero : f64;
  f64_one : f64;
  f64_two : f64;
  f64_of_int : Z -> f64;
  f64_eqb : f64 -> f64 -> bool;
  f64_leb : f64 -> f64 -> bool;
  f64_div : f64 -> f64 -> f64;
  f64_log10 : f64 -> f64;
  f64_powf : f64 -> f64 -> f64;
}.

(** Comparisons of converted integers (the conversion rounds, monotonically). *)
Class F64Laws `{F64} := {
  f64_of_int_zero n : 0 <= n -> f64_eqb (f64_of_int n) f64_zero = (n =? 0);
  f64_of_int_le a b : 0 <= a <= b -> f64_leb (f64_of_int a) (f64_of_int b) = true;
}.

Inductive AuctionError :=
  | BiddingTooSmall
  | NoBids
  | AuctionNotFound
  | TooEarlyToBeginAuction (secs : Z)
  | Unauthorized (caller : Principal).

(** What the IC tells a message. *)
Record env := mk_env {
  time : Z;
  caller : Principal;
  balance128 : Z;
  msg_cycles_available : Z;
  msg_cycles_accept : Z -> Z;
}.

Section auction.
Context `{F64, Target}.

Record AuctionInfo := mk_info {
  auction_id : Z;
  auction_time : Z;
  tokens_distributed : Tokens128.t;
  cycles_collected : Cycles;
  info_fee_ratio : f64;
  first_transaction_id : Z;
  last_transaction_id : Z;
}.

Record BiddingInfo := mk_bidding_info {
  bi_fee_ratio : f64;
  bi_last_auction : Z;
  bi_auction_period : Z;
  total_cycles : Cycles;
  caller_cycles : Cycles;
}.

Record BiddingState := mk_bidding {
  fee_ratio : f64;
  last_auction : Z;
  auction_period : Z;
  cycles_since_auction : Cycles;
  bids : gmap Principal Cycles;
}.

Record AuctionState := mk_auction {
  bidding_state : BiddingState;
  history : list AuctionInfo;
  controller : Principal;
  min_cycles : Cycles;
}.

(** *** BiddingState *)

Definition is_auction_due (e : env) (b : BiddingState) : outcome bool :=
  next_auction ← u_add 64 (last_auction b) (auction_period b);
  Ret (next_auction <=? time e).

Definition cooldown_secs_remaining (e : env) (b : BiddingState) : outcome Z :=
  next_auction ← u_add 64 (last_auction b) (auction_period b);
  d ← u_sub 64 next_auction (time e);
  Ret (d / 1000000).

Definition BiddingState_default (e : env) : BiddingState :=
  mk_bidding f64_zero (time e) (10 ^ 9 * 60 * 60 * 24) 0 ∅.

(** *** AuctionState *)

Definition new (e : env) (interval : Interval) (controller : Principal) : outcome AuctionState :=
  period ← nanos interval;
  Ret (mk_auction (mk_bidding f64_zero (time e) period 0 ∅) [] controller MIN_BIDDING_AMOUNT).

Definition set_bidding_state (s : AuctionState) (b : BiddingState) : AuctionState :=
  mk_auction b (history s) (controller s) (min_cycles s).

Definition get_fee_ratio (e : env) (s : AuctionState) : f64 :=
  let min := f64_of_int (min_cycles s) in
  let current := f64_of_int (balance128 e) in
  if f64_eqb min f64_zero then f64_zero
  else if f64_leb current min then f64_one
  else f64_powf f64_two (f64_log10 (f64_div min current)).

Definition reset_bidding_state (e : env) (s : AuctionState) : AuctionState :=
  set_bidding_state s
    (mk_bidding (get_fee_ratio e s) (time e) (auction_period (bidding_state s)) 0 ∅).

Definition bid_cycles (e : env) (bidder : Principal) (s : AuctionState) :
    outcome (result Cycles AuctionError * AuctionState) :=
  let amount := msg_cycles_available e in
  if amount <? MIN_BIDDING_AMOUNT then Ret (Err BiddingTooSmall, s) else
  let amount_accepted := msg_cycles_accept e amount in
  let b := bidding_state s in
  total ← u_add 64 (cycles_since_auction b) amount_accepted;
  bid ← u_add 64 (default 0 (bids b !! bidder)) amount_accepted;
  Ret (Ok amount_accepted,
       set_bidding_state s (mk_bidding (fee_ratio b) (last_auction b) (auction_period b) total
                              (<[bidder := bid]> (bids b)))).

Definition bidding_info (e : env) (s : AuctionState) : BiddingInfo :=
  let b := bidding_state s in
  mk_bidding_info (fee_ratio b) (last_auction b) (auction_period b) (cycles_since_auction b)
    (default 0 (bids b !! caller e)).

Definition auction_info (s : AuctionState) (id : Z) : result AuctionInfo AuctionError :=
  match zlookup (history s) id with Some i => Ok i | None => Err AuctionNotFound end.

(** *** The controller's methods (api.rs): authorize, then set *)

Definition authorize_owner (e : env) (s : AuctionState) : result unit AuctionError :=
  if decide (caller e = controller s) then Ok tt else Err (Unauthorized (caller e)).

Definition authorized (e : env) (s : AuctionState) (set : AuctionState -> outcome AuctionState) :
    outcome (result unit AuctionError * AuctionState) :=
  match authorize_owner e s with
  | Ok _ => s ← set s; Ret (Ok tt, s)
  | Err err => Ret (Err err, s)
  end.

Definition set_min_cycles (e : env) (v : Cycles) (s : AuctionState) :
    outcome (result unit AuctionError * AuctionState) :=
  authorized e s (fun s => Ret (mk_auction (bidding_state s) (history s) (controller s) v)).

Definition set_controller (e : env) (p : Principal) (s : AuctionState) :
    outcome (result unit AuctionError * AuctionState) :=
  authorized e s (fun s => Ret (mk_auction (bidding_state s) (history s) p (min_cycles s))).

Definition set_auction_period (e : env) (interval : Interval) (s : AuctionState) :
    outcome (result unit AuctionError * AuctionState) :=
  authorized e s (fun s =>
    period ← nanos interval;
    let b := bidding_state s in
    Ret (set_bidding_state s
      (mk_bidding (fee_ratio b) (last_auction b) period (cycles_since_auction b) (bids b)))).

(** *** run_auction

    [disburse_rewards] may read and change the state, or panic. *)
Variable disburse_rewards : env -> AuctionState ->
  outcome (result AuctionInfo AuctionError * AuctionState).

Definition run_auction (e : env) (s : AuctionState) :
    outcome (result AuctionInfo AuctionError * AuctionState) :=
  if decide (bids (bidding_state s) = ∅) then Ret (Err NoBids, s) else
  due ← is_auction_due e (bidding_state s);
  if negb due then
    secs ← cooldown_secs_remaining e (bidding_state s);
    Ret (Err (TooEarlyToBeginAuction secs), s)
  else
    '(result, s) ← disburse_rewards e s;
    let s := reset_bidding_state e s in
    Ret (result,
         match result with
         | Ok i => mk_auction (bidding_state s) (history s ++ [i]) (controller s) (min_cycles s)
         | Err _ => s
         end).

(** [canister_pre_update], run before every update call. *)
Definition canister_pre_update (e : env) (method_name : string) (s : AuctionState) :
    outcome AuctionState :=
  if String.eqb method_name "run_auction" then Ret s
  else '(_, s) ← run_auction e s; Ret s.
End auction.

(** ** Properties *)

Section auction_laws.
Context `{F64, Target}.
Variable disburse : env -> AuctionState -> outcome (result AuctionInfo AuctionError * AuctionState).
Implicit Types (s : AuctionState) (e : env).

(** The update calls of the canister. *)
Inductive step : AuctionState -> AuctionState -> Prop :=
  | step_bid e bidder s r s' : bid_cycles e bidder s = Ret (r, s') -> step s s'
  | step_run e s r s' : run_auction disburse e s = Ret (r, s') -> step s s'
  | step_pre_update e m s s' : canister_pre_update disburse e m s = Ret s' -> step s s'
  | step_set_min_cycles e v s r s' : set_min_cycles e v s = Ret (r, s') -> step s s'
  | step_set_controller e p s r s' : set_controller e p s = Ret (r, s') -> step s s'
  | step_set_auction_period e i s r s' : set_auction_period e i s = Ret (r, s') -> step s s'.

Definition reachable s : Prop :=
  exists e interval controller s0, new e interval controller = Ret s0 /\ rtc step s0 s.

(** The cycles of all bidders. *)
Definition sum_bids (m : gmap Principal Cycles) : Z := map_fold (fun _ v acc => v + acc) 0 m.

Definition cycles_accounted s : Prop :=
  let sum := sum_bids (bids (bidding_state s)) in
  let total := cycles_since_auction (bidding_state s) in
  sum mod 2 ^ 64 = total mod 2 ^ 64 /\ (overflow_checks = true -> sum = total).

Lemma sum_bids_insert m p v :
  sum_bids (<[p := v]> m) = sum_bids m - default 0 (m !! p) + v.
Proof.
  unfold sum_bids.
  assert (forall (m : gmap Principal Cycles) p v, m !! p = None ->
    map_fold (fun _ v acc => v + acc) 0 (<[p := v]> m) =
    v + map_fold (fun _ v acc => v + acc) 0 m) as Hins.
  { intros m' p' v' Hp'. rewrite map_fold_insert_L; [done| |done]. intros. lia. }
  rewrite <- (insert_delete_eq m p v), Hins by apply lookup_delete_eq.
  destruct (m !! p) as [w|] eqn:Hp; cbn.
  - rewrite <- (insert_delete_id m p w) at 2 by done. rewrite Hins by apply lookup_delete_eq. lia.
  - rewrite delete_id by done. lia.
Qed.

Lemma cycles_accounted_reset e s : cycles_accounted (reset_bidding_state e s).
Proof. by unfold cycles_accounted, sum_bids; cbn; rewrite map_fold_empty. Qed.

Lemma arith_mod w x y : arith w x = Ret y -> y mod 2 ^ w = x mod 2 ^ w /\ (overflow_checks = true -> y = x).
Proof.
  unfold arith. destruct (in_range w x); [intros; by simplify_eq|].
  destruct overflow_checks; intros; simplify_eq. split; [|done].
  destruct (decide (2 ^ w = 0)) as [->|]; [by rewrite !Zmod_0_r|by rewrite Z.mod_mod].
Qed.

Lemma bid_accounted e bidder s r s' :
  cycles_accounted s -> bid_cycles e bidder s = Ret (r, s') -> cycles_accounted s'.
Proof.
  intros [Hmod Hex] Hbid. unfold bid_cycles in Hbid.
  destruct (_ <? _); [by simplify_eq|]. inv_outcome.
  apply arith_mod in H1 as [Ht1 Ht2]. apply arith_mod in H2 as [Hb1 Hb2].
  unfold cycles_accounted. cbn. rewrite sum_bids_insert. split.
  - assert (2 ^ 64 <> 0) as Hm by lia.
    rewrite Ht1, <- Z.add_mod_idemp_r, Hb1, Z.add_mod_idemp_r by exact Hm.
    replace (sum_bids (bids (bidding_state s)) - default 0 (bids (bidding_state s) !! bidder) +
      (default 0 (bids (bidding_state s) !! bidder) + msg_cycles_accept e (msg_cycles_available e)))
      with (sum_bids (bids (bidding_state s)) + msg_cycles_accept e (msg_cycles_available e)) by lia.
    by rewrite <- Z.add_mod_idemp_l, Hmod, Z.add_mod_idemp_l by exact Hm.
  - intros Hc. rewrite Ht2, Hb2, Hex by done. lia.
Qed.

Lemma run_accounted e s r s' :
  cycles_accounted s -> run_auction disburse e s = Ret (r, s') -> cycles_accounted s'.
Proof.
  intros Hs Hrun. unfold run_auction in Hrun. case_decide; [by simplify_eq|]. inv_outcome.
  destruct x; cbn [negb] in H3; inv_outcome; [|done].
  destruct x as [res s1]. inv_outcome. pose proof (cycles_accounted_reset e s1) as Hr.
  by destruct r.
Qed.

Lemma authorized_accounted e s set r s' :
  (forall s s', cycles_accounted s -> set s = Ret s' -> cycles_accounted s') ->
  cycles_accounted s -> authorized e s set = Ret (r, s') -> cycles_accounted s'.
Proof.
  intros Hset Hs Ha. unfold authorized in Ha. destruct (authorize_owner e s); inv_outcome; eauto.
Qed.

(** C34: in every reachable state the total of cycles since the last auction is
    the sum of the bids, exactly if additions are checked and modulo [2^64] in a
    release build, whatever [disburse_rewards] does. *)
Theorem auction_cycles_accounted s : reachable s -> cycles_accounted s.
Proof.
  intros (e & i & c & s0 & Hnew & Hsteps).
  assert (cycles_accounted s0) as Hs0.
  { unfold new in Hnew. inv_outcome. apply (cycles_accounted_reset e
      (mk_auction (mk_bidding f64_zero 0 x 0 ∅) [] c 0)). }
  revert Hs0. clear Hnew. induction Hsteps as [|s1 s2 s3 Hstep _ IH]; [done|]. intros Hs.
  apply IH. clear IH. destruct Hstep as [e' b s r s' Hst|e' s r s' Hst|e' m s s' Hst|
    e' v s r s' Hst|e' p s r s' Hst|e' i' s r s' Hst].
  - by eapply bid_accounted.
  - by eapply run_accounted.
  - unfold canister_pre_update in Hst. destruct (String.eqb _ _); inv_outcome; [done|].
    destruct x as [r s1]. inv_outcome. by eapply run_accounted.
  - eapply authorized_accounted; [|done|exact Hst]. intros sa sb Hsa Hset. cbn beta in Hset. inv_outcome. exact Hsa.
  - eapply authorized_accounted; [|done|exact Hst]. intros sa sb Hsa Hset. cbn beta in Hset. inv_outcome. exact Hsa.
  - eapply authorized_accounted; [|done|exact Hst]. intros sa sb Hsa Hset. cbn beta in Hset. inv_outcome. cbn zeta in H2. inv_outcome. exact Hsa.
Qed.

(** What [run_auction] does.  Without bids nothing happens; before the end
    of the period the call fails with the remaining time (the nanoseconds
    divided by 10^6) and changes nothing; otherwise the rewards are disbursed
    once, the bids are cleared and the period restarts now whether or not that
    succeeded, the auction is appended to the history if it did, and until the
    end of the new period no other auction can be run. *)
Theorem run_auction_spec e s :
  let b := bidding_state s in
  0 <= time e < 2 ^ 64 -> 0 <= last_auction b + auction_period b < 2 ^ 64 ->
  (bids b = ∅ -> run_auction disburse e s = Ret (Err NoBids, s)) /\
  (bids b <> ∅ -> time e < last_auction b + auction_period b ->
   run_auction disburse e s =
     Ret (Err (TooEarlyToBeginAuction ((last_auction b + auction_period b - time e) / 1000000)), s)) /\
  (bids b <> ∅ -> last_auction b + auction_period b <= time e ->
   match disburse e s with
   | Panic => run_auction disburse e s = Panic
   | Ret (r, s1) => exists s', run_auction disburse e s = Ret (r, s') /\
       bids (bidding_state s') = ∅ /\ cycles_since_auction (bidding_state s') = 0 /\
       last_auction (bidding_state s') = time e /\
       auction_period (bidding_state s') = auction_period (bidding_state s1) /\
       fee_ratio (bidding_state s') = get_fee_ratio e s1 /\
       history s' = history s1 ++ match r with Ok i => [i] | Err _ => [] end /\
       controller s' = controller s1 /\ min_cycles s' = min_cycles s1 /\
       forall e2 bids2 total2, time e <= time e2 < time e + auction_period (bidding_state s1) ->
         time e + auction_period (bidding_state s1) < 2 ^ 64 ->
         let s2 := set_bidding_state s' (mk_bidding (fee_ratio (bidding_state s'))
                     (last_auction (bidding_state s')) (auction_period (bidding_state s')) total2 bids2) in
         exists err, run_auction disburse e2 s2 = Ret (Err err, s2)
   end).
Proof.
  intros b He Hb.
  assert (forall e s, let b := bidding_state s in 0 <= time e -> bids b <> ∅ ->
    0 <= last_auction b + auction_period b < 2 ^ 64 -> time e < last_auction b + auction_period b ->
    run_auction disburse e s =
      Ret (Err (TooEarlyToBeginAuction ((last_auction b + auction_period b - time e) / 1000000)), s))
    as Hearly.
  { clear. intros e s b He Hne Hb Ht. unfold run_auction. fold b. rewrite decide_False by done.
    unfold is_auction_due, cooldown_secs_remaining. rewrite u_add_ok by done. cbn [mbind outcome_bind].
    destruct (Z.leb_spec (last_auction b + auction_period b) (time e)); [lia|]. cbn [negb].
    rewrite u_sub_ok by lia. done. }
  split_and!.
  - intros Hbids. unfold run_auction. fold b. by rewrite decide_True.
  - intros Hbids Ht. apply Hearly; [lia|done..].
  - intros Hbids Ht.
    assert (run_auction disburse e s =
      ('(result, s) ← disburse e s;
       let s := reset_bidding_state e s in
       Ret (result, match result with
                    | Ok i => mk_auction (bidding_state s) (history s ++ [i]) (controller s) (min_cycles s)
                    | Err _ => s
                    end))) as ->.
    { unfold run_auction. fold b. rewrite decide_False by done.
      unfold is_auction_due. rewrite u_add_ok by done. cbn [mbind outcome_bind].
      by destruct (Z.leb_spec (last_auction b + auction_period b) (time e)); [|lia]. }
    destruct (disburse e s) as [[r s1]|]; [|done]. cbn [mbind outcome_bind].
    eexists. split; [done|].
    split_and!; try (by destruct r); [destruct r; cbn; [done|by rewrite app_nil_r]|].
    intros e2 bids2 total2 Ht2 Hov2. cbn zeta.
    destruct (decide (bids2 = ∅)) as [->|Hne].
    { eexists. unfold run_auction. by rewrite decide_True by by destruct r. }
    eexists. apply Hearly; destruct r; cbn; try done; lia.
Qed.

(** The settings belong to the controller: a call of anybody else is refused
    as unauthorized and changes nothing; the controller's call changes the one
    setting and nothing else. *)
Theorem auction_settings_authorized e s :
  (caller e <> controller s ->
   forall v p i, set_min_cycles e v s = Ret (Err (Unauthorized (caller e)), s) /\
                 set_controller e p s = Ret (Err (Unauthorized (caller e)), s) /\
                 set_auction_period e i s = Ret (Err (Unauthorized (caller e)), s)) /\
  (caller e = controller s ->
   (forall v, set_min_cycles e v s =
      Ret (Ok tt, mk_auction (bidding_state s) (history s) (controller s) v)) /\
   (forall p, set_controller e p s =
      Ret (Ok tt, mk_auction (bidding_state s) (history s) p (min_cycles s))) /\
   (forall i n, nanos i = Ret n -> exists s', set_auction_period e i s = Ret (Ok tt, s') /\
      auction_period (bidding_state s') = n /\ bids (bidding_state s') = bids (bidding_state s) /\
      cycles_since_auction (bidding_state s') = cycles_since_auction (bidding_state s) /\
      last_auction (bidding_state s') = last_auction (bidding_state s) /\
      history s' = history s /\ controller s' = controller s /\ min_cycles s' = min_cycles s)).
Proof.
  unfold set_min_cycles, set_controller, set_auction_period, authorized, authorize_owner.
  split; intros Hc.
  - intros v p i. by rewrite decide_False.
  - rewrite decide_True by done. split_and!; [done|done|]. intros i n Hn. rewrite Hn.
    cbn [mbind outcome_bind]. eexists. by split_and!.
Qed.
End auction_laws.

#[local] Existing Instance wasm_release.

(** Integers as floats, for evaluation. *)
#[local] Instance z_f64 : F64 := {|
  f64 := Z; f64_zero := 0; f64_one := 1; f64_two := 2; f64_of_int := Datatypes.id; f64_eqb := Z.eqb;
  f64_leb := Z.leb; f64_div := Z.div; f64_log10 := Z.log2; f64_powf := Z.pow |}.

Definition no_rewards (e : env) (s : AuctionState) :
    outcome (result AuctionInfo AuctionError * AuctionState) := Ret (Err NoBids, s).

Definition bid_env : env := mk_env 100 [1] 5000000 2000000 Datatypes.id.

(** A state with one bid of two million cycles. *)
Definition bid_state : AuctionState :=
  mk_auction (mk_bidding 0 100 60000000000 2000000 {[ [1] := 2000000 ]}) [] [9] MIN_BIDDING_AMOUNT.

Lemma auction_cycles_accounted_witness : cycles_accounted bid_state.
Proof.
  apply (auction_cycles_accounted no_rewards). exists bid_env, PerMinute, [9]. eexists. split.
  - by vm_compute.
  - eapply rtc_once, (step_bid _ bid_env [1]). by vm_compute.
Defined.

(** One second before the end of the period the auction is refused with "1000
    seconds" to wait. *)
Lemma run_auction_spec_witness :
  run_auction no_rewards (mk_env 59000000100 [1] 5000000 0 Datatypes.id) bid_state =
    Ret (Err (TooEarlyToBeginAuction 1000), bid_state).
Proof.
  destruct (run_auction_spec no_rewards (mk_env 59000000100 [1] 5000000 0 Datatypes.id) bid_state)
    as (_ & Hearly & _); [by_compute|by_compute|].
  apply Hearly; by_compute.
Defined.

Lemma auction_settings_authorized_witness :
  set_min_cycles (mk_env 0 [5] 0 0 Datatypes.id) 7 bid_state =
    Ret (Err (Unauthorized [5]), bid_state).
Proof.
  destruct (auction_settings_authorized (mk_env 0 [5] 0 0 Datatypes.id) bid_state) as [Hno _].
  apply (Hno ltac:(done) 7 [] PerHour).
Defined.
