(* ===== verification/LogWriter.v ===== *)
(** * The in-memory log

    [ic-log/src/writer.rs] and [formatter/buffer.rs]: formatted lines go to the
    console and to a ring of the last lines, from which [take_records] reads a
    page by absolute offset.  The ring buffer is [AllocRingBuffer] of the
    [ringbuffer] crate, a parameter; [String::from_utf8_lossy] is a parameter,
    too (nothing depends on how it decodes). *)

From S2P Require Import Prelude.
Local Open Scope Z_scope.
Local Open Scope sdk_scope.

(** [AllocRingBuffer<T>]. *)
Class RingLib (T : Type) := {
  ring : Type;
  ring_new : Z -> ring;
  ring_push : ring -> T -> ring;
  ring_iter : ring -> list T;
  ring_len : ring -> Z;
  ring_capacity : ring -> Z;
}.

(** The last elements of a list. *)
Definition lastn {A} (n : Z) (l : list A) : list A := drop (length l - Z.to_nat n) l.

Class RingLaws (T : Type) `{RingLib T} := {
  ring_new_law cap : 0 < cap -> ring_iter (ring_new cap) = [] /\ ring_capacity (ring_new cap) = cap;
  ring_push_law r x :
    ring_iter (ring_push r x) = lastn (ring_capacity r) (ring_iter r ++ [x]) /\
    ring_capacity (ring_push r x) = ring_capacity r;
  ring_len_law r : ring_len r = zlength (ring_iter r);
}.

(** [formatter::buffer::Buffer], the bytes of a formatted line. *)
Definition Buffer : Type := list Z.

Module InMemoryWriter.
Section writer.
Context `{Target} `{!RingLib string}.
Variable from_utf8_lossy : list Z -> string.

Definition INIT_LOG_CAPACITY : Z := 128.

(** The thread-local state. *)
Record t := mk {
  count : Z;                 (** [LOG_RECORDS.0] *)
  records : ring (T := string);           (** [LOG_RECORDS.1] *)
  enabled : bool;            (** [IS_ENABLED] *)
  max_record_length : Z;     (** [MAX_RECORD_LENGTH] *)
}.

Definition initial : t := mk 0 (ring_new INIT_LOG_CAPACITY) false 0.

Record Log := mk_log { log : string; offset : Z }.
Record Logs := mk_logs { logs : list Log; all_logs_count : Z }.

Definition Logs_default : Logs := mk_logs [] 0.

Definition init_buffer (capacity max_record_length : Z) (s : t) : t :=
  if 0 <? capacity then mk 0 (ring_new capacity) true max_record_length
  else mk 0 (ring_new 1) false max_record_length.

(** [Vec::<Log>::with_capacity]: panics when the byte size does not fit an
    [isize] (a [Log] has four words). *)
Definition with_capacity (max_count : Z) : outcome unit :=
  assert (max_count * (usize_bits / 2) <=? 2 ^ (usize_bits - 1) - 1); Ret tt.

(** The loop that collects a page. *)
Fixpoint collect (offset : Z) (page : list string) : outcome (list Log) :=
  match page with
  | [] => Ret []
  | log :: page =>
      next ← u_add usize_bits offset 1;
      rest ← collect next page;
      Ret (mk_log log offset :: rest)
  end.

Definition take_records (max_count from_offset : Z) (s : t) : outcome Logs :=
  if negb (enabled s) then Ret Logs_default else
  let all_logs_count := count s in
  if (all_logs_count <=? from_offset) || (all_logs_count =? 0)
  then Ret (mk_logs [] all_logs_count) else
  _ ← with_capacity max_count;
  let len := ring_len (records s) in
  sum ← u_add usize_bits from_offset len;
  from_offset ←
    (if sum <? all_logs_count then Ret 0
     else if len <? all_logs_count then
       r ← u_rem all_logs_count (ring_capacity (records s)); u_sub usize_bits from_offset r
     else Ret from_offset);
  first_index ← u_rem from_offset (ring_capacity (records s));
  a ← u_add usize_bits all_logs_count first_index;
  offset ← u_sub usize_bits a len;
  l ← collect offset (take (Z.to_nat max_count) (drop (Z.to_nat first_index) (ring_iter (records s))));
  Ret (mk_logs l all_logs_count).

Definition change_capacity (capacity : Z) (s : t) : outcome t :=
  let all_logs_count := count s in
  if 0 <? capacity then
    l ← take_records capacity (saturating_sub all_logs_count capacity) s;
    let buffer := foldl (fun b r => ring_push b (log r)) (ring_new capacity) (logs l) in
    Ret (mk all_logs_count buffer true (max_record_length s))
  else Ret (mk all_logs_count (ring_new 1) false (max_record_length s)).

(** What is stored of a line. *)
Definition truncated (max_length : Z) (buf : Buffer) : string :=
  from_utf8_lossy (take (Z.to_nat (Z.min max_length (zlength buf))) buf).

Definition print (buf : Buffer) (s : t) : outcome t :=
  if negb (enabled s) then Ret s else
  n ← u_add usize_bits (count s) 1;
  Ret (mk n (ring_push (records s) (truncated (max_record_length s) buf)) (enabled s)
         (max_record_length s)).

Fixpoint print_all (bufs : list Buffer) (s : t) : outcome t :=
  match bufs with [] => Ret s | b :: bufs => s ← print b s; print_all bufs s end.
End writer.
End InMemoryWriter.

(** ** Properties *)

Section writer_laws.
Context `{Target} `{!RingLib string, !RingLaws string}.
Variable lossy : list Z -> string.
Notation t := InMemoryWriter.t.
Notation Log := InMemoryWriter.Log.

(** The lines with their absolute offsets. *)
Fixpoint numbered (offset : Z) (lines : list string) : list Log :=
  match lines with
  | [] => []
  | l :: lines => InMemoryWriter.mk_log l offset :: numbered (offset + 1) lines
  end.

Lemma numbered_take n o lines : take n (numbered o lines) = numbered o (take n lines).
Proof. revert o lines. induction n as [|n IH]; intros o [|l lines]; cbn; by rewrite ?IH. Qed.

Lemma numbered_drop n o lines : drop n (numbered o lines) = numbered (o + Z.of_nat n) (drop n lines).
Proof.
  revert o lines. induction n as [|n IH]; intros o [|l lines]; try done.
  - by rewrite Z.add_0_r.
  - cbn [numbered drop]. rewrite IH. f_equal. lia.
Qed.

Lemma collect_numbered o page :
  0 <= o -> o + zlength page < 2 ^ usize_bits ->
  InMemoryWriter.collect o page = Ret (numbered o page).
Proof.
  unfold zlength. revert o. induction page as [|l page IH]; intros o Ho Hlen; [done|].
  cbn [length] in Hlen. cbn [InMemoryWriter.collect numbered]. rewrite u_add_ok by lia.
  cbn [mbind outcome_bind]. rewrite IH by lia. done.
Qed.

(** The state of a log of capacity [cap] after [lines]. *)
Definition holds (cap : Z) (lines : list string) (s : t) : Prop :=
  InMemoryWriter.enabled s = true /\ InMemoryWriter.count s = zlength lines /\
  ring_capacity (InMemoryWriter.records s) = cap /\
  ring_iter (InMemoryWriter.records s) = lastn cap lines.

Lemma lastn_snoc {A} n (l : list A) x :
  0 < n -> lastn n (lastn n l ++ [x]) = lastn n (l ++ [x]).
Proof.
  intros Hn. unfold lastn. rewrite !length_app, length_drop. cbn.
  destruct (decide (length l <= Z.to_nat n)%nat) as [Hl|Hl].
  - replace (length l - Z.to_nat n)%nat with 0%nat by lia. rewrite drop_0. f_equal. lia.
  - rewrite <- (drop_app_le l [x]) by lia. rewrite drop_drop. f_equal. lia.
Qed.

Lemma holds_print cap lines s buf :
  0 < cap -> zlength lines + 1 < 2 ^ usize_bits -> holds cap lines s ->
  exists s', InMemoryWriter.print lossy buf s = Ret s' /\
    InMemoryWriter.max_record_length s' = InMemoryWriter.max_record_length s /\
    holds cap (lines ++ [InMemoryWriter.truncated lossy (InMemoryWriter.max_record_length s) buf]) s'.
Proof.
  intros Hcap Hlen (He & Hc & Hrc & Hri). unfold InMemoryWriter.print. rewrite He, Hc. cbn [negb].
  rewrite u_add_ok by (pose proof (zlength_nonneg lines); lia). cbn [mbind outcome_bind].
  eexists. split_and!; [done..|].
  destruct (ring_push_law (InMemoryWriter.records s)
    (InMemoryWriter.truncated lossy (InMemoryWriter.max_record_length s) buf)) as [Hi Hcp].
  split_and!; cbn [InMemoryWriter.enabled InMemoryWriter.count InMemoryWriter.records].
  - done.
  - by rewrite zlength_app.
  - by rewrite Hcp.
  - by rewrite Hi, Hrc, Hri, lastn_snoc.
Qed.

Lemma lastn_length {A} n (l : list A) : 0 <= n -> zlength (lastn n l) = Z.min n (zlength l).
Proof. intros. unfold lastn, zlength. rewrite length_drop. lia. Qed.

Lemma zlength_take_drop {A} n m (l : list A) : zlength (take n (drop m l)) <= zlength l.
Proof. unfold zlength. rewrite length_take, length_drop. lia. Qed.

(** The index of the first line of a page in a full ring. *)
Lemma wrapped_index n cap f :
  0 < cap -> cap < n -> n - cap <= f < n ->
  0 <= f - n mod cap /\ (f - n mod cap) mod cap = f - (n - cap).
Proof.
  intros Hcap Hn Hf. pose proof (Z.div_mod n cap) as Hdm. pose proof (Z.mod_pos_bound n cap) as Hmod.
  assert (1 <= n / cap) by (apply Z.div_le_lower_bound; lia).
  split; [nia|]. symmetry. apply Z.mod_unique_pos with (n / cap - 1); lia.
Qed.

Lemma take_records_holds cap lines s max_count f :
  holds cap lines s -> 0 < cap -> zlength lines + cap < 2 ^ usize_bits ->
  zlength lines + zlength lines < 2 ^ usize_bits ->
  0 <= f -> max_count * (usize_bits / 2) <= 2 ^ (usize_bits - 1) - 1 ->
  InMemoryWriter.take_records max_count f s =
    Ret (InMemoryWriter.mk_logs
           (take (Z.to_nat max_count) (drop (Z.to_nat (Z.max f (zlength lines - cap))) (numbered 0 lines)))
           (zlength lines)).
Proof.
  intros (He & Hc & Hrc & Hri) Hcap Hn Hn2 Hf Hmax. unfold InMemoryWriter.take_records.
  rewrite He, Hc. cbn [negb]. set (n := zlength lines) in *. assert (0 <= n) by apply zlength_nonneg.
  assert (forall k, n <= k -> numbered (0 + Z.of_nat (Z.to_nat k)) (drop (Z.to_nat k) lines) = []) as Hnil.
  { intros k Hk. rewrite drop_ge; [done|]. unfold n, zlength in Hk. lia. }
  destruct (Z.leb_spec n f) as [Hnf|Hnf]; cbn [orb].
  { rewrite numbered_drop, Hnil by lia. by rewrite take_nil. }
  destruct (Z.eqb_spec n 0) as [|_]; [lia|].
  unfold InMemoryWriter.with_capacity. rewrite (proj2 (Z.leb_le _ _) Hmax). cbn [mbind outcome_bind].
  rewrite ring_len_law, Hri, Hrc, lastn_length by lia. fold n.
  rewrite u_add_ok by lia. cbn [mbind outcome_bind].
  assert (forall first from, (if f + Z.min cap n <? n then Ret 0
      else if Z.min cap n <? n then r ← u_rem n cap; u_sub usize_bits f r else Ret f) = Ret from ->
    u_rem from cap = Ret first -> first = Z.max f (n - cap) - Z.max 0 (n - cap) ->
    (from_offset ← (if f + Z.min cap n <? n then Ret 0
      else if Z.min cap n <? n then r ← u_rem n cap; u_sub usize_bits f r else Ret f);
     first_index ← u_rem from_offset cap;
     a ← u_add usize_bits n first_index;
     offset ← u_sub usize_bits a (Z.min cap n);
     l ← InMemoryWriter.collect offset
           (take (Z.to_nat max_count) (drop (Z.to_nat first_index) (lastn cap lines)));
     Ret (InMemoryWriter.mk_logs l n)) =
    Ret (InMemoryWriter.mk_logs (take (Z.to_nat max_count)
           (drop (Z.to_nat (Z.max f (n - cap))) (numbered 0 lines))) n)) as Hrest.
  { intros first from -> Hfirst Hfe. cbn [mbind outcome_bind]. rewrite Hfirst. cbn [mbind outcome_bind].
    rewrite u_add_ok by lia. cbn [mbind outcome_bind]. rewrite u_sub_ok by lia. cbn [mbind outcome_bind].
    replace (n + first - Z.min cap n) with (Z.max f (n - cap)) by lia.
    rewrite numbered_drop, numbered_take. unfold lastn. rewrite drop_drop.
    replace (length lines - Z.to_nat cap + Z.to_nat first)%nat with (Z.to_nat (Z.max f (n - cap)))
      by (unfold n, zlength in *; lia).
    rewrite collect_numbered; [|lia|].
    - cbn [mbind outcome_bind]. do 3 f_equal. lia.
    - pose proof (zlength_take_drop (Z.to_nat max_count) (Z.to_nat (Z.max f (n - cap))) lines) as Hl.
      fold n in Hl. lia. }
  destruct (Z.ltb_spec (f + Z.min cap n) n) as [Hs|Hs];
    [|destruct (Z.ltb_spec (Z.min cap n) n) as [Hs2|Hs2]].
  - apply (Hrest 0 0); [done|by rewrite u_rem_ok, Z.mod_0_l by lia|lia].
  - destruct (wrapped_index n cap f) as [Hw1 Hw2]; [lia..|].
    apply (Hrest (f - (n - cap)) (f - n mod cap)); [| |lia].
    + rewrite u_rem_ok by lia. cbn [mbind outcome_bind]. apply u_sub_ok.
      pose proof (Z.mod_pos_bound n cap). lia.
    + by rewrite u_rem_ok, Hw2 by lia.
  - apply (Hrest f f); [done| |lia]. by rewrite u_rem_ok, Z.mod_small by lia.
Qed.

Lemma print_all_holds cap lines s bufs :
  0 < cap -> zlength lines + zlength bufs < 2 ^ usize_bits -> holds cap lines s ->
  exists s', InMemoryWriter.print_all lossy bufs s = Ret s' /\
    holds cap (lines ++ (InMemoryWriter.truncated lossy (InMemoryWriter.max_record_length s) <$> bufs)) s'.
Proof.
  revert lines s. induction bufs as [|b bufs IH]; intros lines s Hcap Hlen Hs.
  { exists s. rewrite app_nil_r. done. }
  unfold zlength in Hlen. cbn [length] in Hlen.
  destruct (holds_print cap lines s b) as (s1 & Hp & Hm & Hs1); [done|unfold zlength; lia|done|].
  cbn [InMemoryWriter.print_all]. rewrite Hp. cbn [mbind outcome_bind].
  destruct (IH (lines ++ [InMemoryWriter.truncated lossy (InMemoryWriter.max_record_length s) b]) s1 Hcap) as (s' & Hr & Hs'); [|exact Hs1|].
  - unfold zlength. rewrite length_app. cbn [length]. lia.
  - exists s'. split; [done|]. rewrite Hm, <- app_assoc in Hs'. done.
Qed.

(** C31: the log pages.  After [init_buffer] and any number of printed lines,
    reading [max_count] records from an absolute offset returns the lines from
    that offset on that are still in memory (the last [capacity] ones), in order,
    each cut to the maximal length and with its own offset, and the number of
    all lines; it panics for none of the offsets. *)
Theorem take_records_returns_lines (capacity max_length : Z) (bufs : list Buffer)
    (s : t) (max_count from_offset : Z) :
  0 < capacity -> zlength bufs + capacity < 2 ^ usize_bits -> 2 * zlength bufs < 2 ^ usize_bits ->
  0 <= from_offset -> max_count * (usize_bits / 2) <= 2 ^ (usize_bits - 1) - 1 ->
  exists s', InMemoryWriter.print_all lossy bufs (InMemoryWriter.init_buffer capacity max_length s) = Ret s' /\
    InMemoryWriter.take_records max_count from_offset s' =
      Ret (InMemoryWriter.mk_logs
             (take (Z.to_nat max_count)
                (drop (Z.to_nat (Z.max from_offset (zlength bufs - capacity)))
                   (numbered 0 (InMemoryWriter.truncated lossy max_length <$> bufs))))
             (zlength bufs)).
Proof.
  intros Hcap Hn Hn2 Hf Hmax.
  set (s0 := InMemoryWriter.init_buffer capacity max_length s).
  assert (InMemoryWriter.max_record_length s0 = max_length /\ holds capacity [] s0) as [Hm Hs0].
  { unfold s0, InMemoryWriter.init_buffer. rewrite (proj2 (Z.ltb_lt _ _) Hcap).
    destruct (ring_new_law capacity Hcap) as [Hi Hc]. split; [done|]. split_and!; cbn; [done|done|done|].
    by rewrite Hi. }
  assert (zlength (InMemoryWriter.truncated lossy max_length <$> bufs) = zlength bufs) as Hlen
    by (unfold zlength; by rewrite length_fmap).
  destruct (print_all_holds capacity [] s0 bufs) as (s' & Hp & Hs');
    [done|unfold zlength in *; cbn [length]; lia|done|].
  exists s'. split; [done|]. rewrite Hm in Hs'. cbn [app] in Hs'.
  rewrite (take_records_holds capacity _ s' max_count from_offset Hs') by (rewrite ?Hlen; lia || done).
  by rewrite Hlen.
Qed.
End writer_laws.

(** ** A concrete ring *)

#[local] Existing Instance wasm_release.

#[export] Instance list_ring {T} : RingLib T := {|
  ring := Z * list T;
  ring_new cap := (cap, []);
  ring_push r x := (r.1, lastn r.1 (r.2 ++ [x]));
  ring_iter := snd;
  ring_len r := zlength r.2;
  ring_capacity := fst;
|}.

#[export] Instance list_ring_laws {T} : RingLaws T.
Proof. by split. Qed.

(** ASCII decoding. *)
Definition decode_ascii (bs : list Z) : string :=
  String.string_of_list_ascii ((fun b => Ascii.ascii_of_N (Z.to_N b)) <$> bs).

Definition line (n : Z) : Buffer := [76; 48 + n].

(** The second page of a log of two lines out of three. *)
Lemma take_records_returns_lines_witness :
  exists s', InMemoryWriter.print_all decode_ascii [line 0; line 1; line 2]
               (InMemoryWriter.init_buffer 2 20 InMemoryWriter.initial) = Ret s' /\
    InMemoryWriter.take_records 10 2 s' =
      Ret (InMemoryWriter.mk_logs [InMemoryWriter.mk_log "L2" 2] 3).
Proof.
  apply (take_records_returns_lines decode_ascii 2 20 [line 0; line 1; line 2] InMemoryWriter.initial 10 2);
    by_compute.
Defined.

(** Growing the memory of a full log breaks the offsets: after three lines
    in a log of two and a change of the capacity to five, asking for the line of
    offset 2 returns the line of offset 1 in a wasm release build, and panics in
    a build with overflow checks. *)
Theorem grown_log_wrong_page :
  let grown `{Target} :=
    s ← InMemoryWriter.print_all decode_ascii [line 0; line 1; line 2]
          (InMemoryWriter.init_buffer 2 20 InMemoryWriter.initial);
    InMemoryWriter.change_capacity 5 s in
  (s ← grown (H := wasm_release); InMemoryWriter.take_records (H := wasm_release) 1 2 s) =
    Ret (InMemoryWriter.mk_logs [InMemoryWriter.mk_log "L1" 1] 3) /\
  (s ← grown (H := x64_debug); InMemoryWriter.take_records (H := x64_debug) 1 2 s) = Panic.
Proof. by vm_compute. Qed.
