(* ===== verification/LogState.v ===== *)
(** * The logger canister

    [ic-log/src/{lib,settings,did}.rs] and [ic-log/src/canister/{state,inspect}.rs]:
    the global logger, its settings in a stable cell, and the operations guarded
    by the access control list.  Parsing and matching filters ([env_filter]) and
    formatting a record are parameters. *)

From S2P Require Import Prelude StableLib Concrete Structure StableStorage LogWriter.
Local Open Scope Z_scope.

Definition Principal : Type := list Z.

(** ** did.rs and settings.rs *)

Record Pagination := { page_offset : Z; page_count : Z }.

Inductive LogCanisterError :=
  | AlreadyInitialized
  | NotInitialized
  | NotAuthorized
  | Generic (msg : string)
  | InvalidMemory
  | InvalidConfiguration (msg : string).

Inductive LoggerPermission := Read | Configure.

#[export] Instance LoggerPermission_eq_dec : EqDecision LoggerPermission.
Proof. solve_decision. Defined.

#[export] Program Instance LoggerPermission_countable : Countable LoggerPermission :=
  inj_countable' (fun p => match p with Read => true | Configure => false end)
    (fun b => if b : bool then Read else Configure) _.
Next Obligation. by intros []. Qed.

Definition LoggerAcl : Type := gset (Principal * LoggerPermission).

Record LogCanisterSettings := mk_canister_settings {
  cs_enable_console : option bool;
  cs_in_memory_records : option Z;
  cs_max_record_length : option Z;
  cs_log_filter : option string;
  cs_acl : option LoggerAcl;
}.

Record LogSettingsV2 := mk_settings {
  enable_console : bool;
  in_memory_records : Z;
  max_record_length : Z;
  log_filter : string;
}.

Definition LogSettingsV2_default : LogSettingsV2 := mk_settings true 1024 1024 "debug".

Definition LogSettingsV2_from (s : LogCanisterSettings) : LogSettingsV2 :=
  mk_settings (default (enable_console LogSettingsV2_default) (cs_enable_console s))
    (default (in_memory_records LogSettingsV2_default) (cs_in_memory_records s))
    (default (max_record_length LogSettingsV2_default) (cs_max_record_length s))
    (default (log_filter LogSettingsV2_default) (cs_log_filter s)).

Definition LogCanisterSettings_from (v : LogSettingsV2 * LoggerAcl) : LogCanisterSettings :=
  mk_canister_settings (Some (enable_console v.1)) (Some (in_memory_records v.1))
    (Some (max_record_length v.1)) (Some (log_filter v.1)) (Some v.2).

Definition StorableLogSettings : Type := LogSettingsV2 * LoggerAcl.
Definition StorableLogSettings_default : StorableLogSettings := (LogSettingsV2_default, ∅).

(** ** The global logger (lib.rs) *)

(** Filters of [env_filter], and the records of the [log] crate. *)
Class FilterLib := {
  Filter : Type;
  LevelFilter : Type;
  LogRecord : Type;
  filter_try_parse : string -> result Filter string;
  filter_level : Filter -> LevelFilter;
  filter_matches : Filter -> LogRecord -> bool;
  level_off : LevelFilter;
  level_allows : LevelFilter -> LogRecord -> bool;
  info_record : string -> LogRecord;
  format_record : LogRecord -> option Buffer;
}.

Inductive Writer := ConsoleWriter | MemoryWriter.

Section logger.
Context `{FilterLib, Target, !RingLib string}.
Variable from_utf8_lossy : list Z -> string.

(** The logger installed in the [log] crate; [LoggerConfig] shares its filter. *)
Record Logger := mk_logger { writers : list Writer; filter : Filter }.

Record global := mk_global {
  memory_log : InMemoryWriter.t;
  console : list Buffer;
  logger : option Logger;
  max_level : LevelFilter;
}.

Definition LogResult : Type := result unit LogCanisterError.

Definition set_memory_log (g : global) (m : InMemoryWriter.t) : global :=
  mk_global m (console g) (logger g) (max_level g).

(** [log::set_boxed_logger], which succeeds once, and [set_max_level]. *)
Definition try_init (l : Logger) (g : global) : LogResult * global :=
  match logger g with
  | Some _ => (Err AlreadyInitialized, g)
  | None => (Ok tt, mk_global (memory_log g) (console g) (Some l) (filter_level (filter l)))
  end.

Definition init_log (settings : LogSettingsV2) (g : global) : LogResult * global :=
  match filter_try_parse (log_filter settings) with
  | Err e => (Err (InvalidConfiguration e), g)
  | Ok f =>
      let g := set_memory_log g (InMemoryWriter.init_buffer (in_memory_records settings)
                 (max_record_length settings) (memory_log g)) in
      try_init (mk_logger ((if enable_console settings then [ConsoleWriter] else []) ++
                           [MemoryWriter]) f) g
  end.

(** [LoggerConfig::update_filters]. *)
Definition update_filters (filters : string) (g : global) : LogResult * global :=
  match filter_try_parse filters with
  | Err e => (Err (InvalidConfiguration e), g)
  | Ok f =>
      (Ok tt, mk_global (memory_log g) (console g)
                (match logger g with Some l => Some (mk_logger (writers l) f) | None => None end)
                (filter_level f))
  end.

(** [MultiWriter::print] over the writers. *)
Fixpoint print (ws : list Writer) (buf : Buffer) (g : global) : outcome global :=
  match ws with
  | [] => Ret g
  | ConsoleWriter :: ws =>
      print ws buf (mk_global (memory_log g) (console g ++ [buf]) (logger g) (max_level g))
  | MemoryWriter :: ws =>
      m ← InMemoryWriter.print from_utf8_lossy buf (memory_log g);
      print ws buf (set_memory_log g m)
  end.

(** A logging macro, then [Logger::log]. *)
Definition log (r : LogRecord) (g : global) : outcome global :=
  match logger g with
  | Some l =>
      if level_allows (max_level g) r && filter_matches (filter l) r then
        match format_record r with Some buf => print (writers l) buf g | None => Ret g end
      else Ret g
  | None => Ret g
  end.

Definition take_memory_records (max_count from_offset : Z) (g : global) :
    outcome InMemoryWriter.Logs :=
  InMemoryWriter.take_records max_count from_offset (memory_log g).
End logger.

(** ** LogState (canister/state.rs) *)

Module LogState.
Section log_state.
Context {M : Type} `{FilterLib, Target, !RingLib string, !CellLib StorableLogSettings M}.
Variable from_utf8_lossy : list Z -> string.

Record t := mk {
  settings : option (StableCell.t StorableLogSettings M);
  logger_config : bool;   (** [Some(config)], the handle of the installed logger *)
}.

Definition initial : t := mk None false.

(** The state of the canister and of its process. *)
Definition world : Type := t * global.

Definition init (caller : Principal) (memory : M) (log_settings : LogCanisterSettings) (w : world) :
    LogResult * world :=
  let '(s, g) := w in
  if logger_config s then (Err AlreadyInitialized, w) else
  let acl := default {[ (caller, Configure) ]} (cs_acl log_settings) in
  let v := LogSettingsV2_from log_settings in
  match init_log v g with
  | (Err e, g) => (Err e, (s, g))
  | (Ok _, g) =>
      let s := mk (settings s) true in
      match StableCell.new memory (v, acl) with
      | Ok cell => (Ok tt, (mk (Some cell) true, g))
      | Err _ => (Err InvalidMemory, (s, g))
      end
  end.

Definition stored (s : t) : StorableLogSettings :=
  match settings s with Some cell => StableCell.get cell | None => StorableLogSettings_default end.

Definition get_settings (s : t) : LogCanisterSettings := LogCanisterSettings_from (stored s).

Definition acl (s : t) : LoggerAcl := (stored s).2.

Definition check_permission (caller : Principal) (p : LoggerPermission) (s : t) : LogResult :=
  match settings s with
  | None => Err NotInitialized
  | Some cell =>
      let acl := (StableCell.get cell).2 in
      let allowed := match p with
                     | Read => bool_decide ((caller, Read) ∈ acl) ||
                               bool_decide ((caller, Configure) ∈ acl)
                     | Configure => bool_decide ((caller, Configure) ∈ acl)
                     end in
      if allowed then Ok tt else Err NotAuthorized
  end.

(** Update of the stored settings: [cell.set(..).expect(..)], if there is a cell. *)
Definition update_settings (f : StorableLogSettings -> StorableLogSettings) (s : t) : outcome t :=
  match settings s with
  | None => Ret s
  | Some cell =>
      let '(r, cell) := StableCell.set cell (f (StableCell.get cell)) in
      _ ← expect_ok r; Ret (mk (Some cell) (logger_config s))
  end.

Definition set_logger_filter (caller : Principal) (filter_value : string) (w : world) :
    outcome (LogResult * world) :=
  let '(s, g) := w in
  match check_permission caller Configure s with
  | Err e => Ret (Err e, w)
  | Ok _ =>
      if logger_config s then
        match update_filters filter_value g with
        | (Err e, g) => Ret (Err e, (s, g))
        | (Ok _, g) =>
            s ← update_settings (fun v =>
                  (mk_settings (enable_console v.1) (in_memory_records v.1) (max_record_length v.1)
                     filter_value, v.2)) s;
            g ← log from_utf8_lossy (info_record filter_value) g;
            Ret (Ok tt, (s, g))
        end
      else Ret (Err NotInitialized, w)
  end.

Definition set_in_memory_records (caller : Principal) (count : Z) (w : world) :
    outcome (LogResult * world) :=
  let '(s, g) := w in
  match check_permission caller Configure s with
  | Err e => Ret (Err e, w)
  | Ok _ =>
      m ← InMemoryWriter.change_capacity count (memory_log g);
      s ← update_settings (fun v =>
            (mk_settings (enable_console v.1) count (max_record_length v.1) (log_filter v.1), v.2)) s;
      Ret (Ok tt, (s, set_memory_log g m))
  end.

Definition get_logs (caller : Principal) (page : Pagination) (w : world) :
    outcome (result InMemoryWriter.Logs LogCanisterError) :=
  match check_permission caller Read w.1 with
  | Err e => Ret (Err e)
  | Ok _ => l ← take_memory_records (page_count page) (page_offset page) w.2; Ret (Ok l)
  end.

Definition reload (memory : M) (w : world) : LogResult * world :=
  let '(s, g) := w in
  if logger_config s then (Err AlreadyInitialized, w) else
  match StableCell.new memory StorableLogSettings_default with
  | Err _ => (Err InvalidMemory, w)
  | Ok cell =>
      let s := mk (Some cell) false in
      let v := StableCell.get cell in
      if bool_decide (v.2 = ∅) then (Err InvalidMemory, (s, g)) else
      match init_log v.1 g with
      | (Err e, g) => (Err e, (s, g))
      | (Ok _, g) => (Ok tt, (mk (Some cell) true, g))
      end
  end.

Definition change_acl (caller : Principal) (f : LoggerAcl -> LoggerAcl) (w : world) :
    outcome (LogResult * world) :=
  let '(s, g) := w in
  match check_permission caller Configure s with
  | Err e => Ret (Err e, w)
  | Ok _ => s ← update_settings (fun v => (v.1, f v.2)) s; Ret (Ok tt, (s, g))
  end.

Definition add_permission (caller to : Principal) (p : LoggerPermission) : world ->
    outcome (LogResult * world) := change_acl caller (fun acl => {[ (to, p) ]} ∪ acl).

Definition remove_permission (caller from : Principal) (p : LoggerPermission) : world ->
    outcome (LogResult * world) := change_acl caller (fun acl => acl ∖ {[ (from, p) ]}).

(** [logger_canister_inspect]: traps unless the check is passed. *)
Definition logger_canister_inspect (method : string) (caller : Principal) (s : t) : outcome unit :=
  expect_ok
    (if decide (method = "ic_logs") then check_permission caller Read s
     else if decide (method ∈ ["set_logger_filter"; "set_logger_in_memory_records";
                               "add_logger_permission"; "remove_logger_permission"])
     then check_permission caller Configure s
     else Ok tt).
End log_state.
Arguments t M {_}.
End LogState.

(** ** Properties *)

Section log_laws.
Context {M : Type} `{FilterLib, Target, !RingLib string, !CellLib StorableLogSettings M}.
Context `{!CellLaws StorableLogSettings M}.
Notation t := (LogState.t M).
Implicit Types (s : t) (g : global) (caller : Principal).

Definition may (caller : Principal) (p : LoggerPermission) s : Prop := (caller, p) ∈ LogState.acl s.

#[local] Instance may_dec caller p s : Decision (may caller p s).
Proof. unfold may. apply _. Defined.

(** The cell of [s] can store any settings that occur. *)
Definition stores s : Prop :=
  exists c, LogState.settings s = Some c /\ forall v, dcell_accepts c v.

Lemma may_stored caller p s c :
  LogState.settings s = Some c -> may caller p s <-> (caller, p) ∈ (StableCell.get c).2.
Proof. intros Hs. unfold may, LogState.acl, LogState.stored. by rewrite Hs. Qed.

Lemma check_configure caller s c :
  LogState.settings s = Some c ->
  LogState.check_permission caller Configure s =
    if decide (may caller Configure s) then Ok tt else Err NotAuthorized.
Proof.
  intros Hs. pose proof (may_stored caller Configure s c Hs) as Hm.
  unfold LogState.check_permission. rewrite Hs. cbn zeta.
  case_decide; case_bool_decide; tauto.
Qed.

Lemma check_read caller s c :
  LogState.settings s = Some c ->
  LogState.check_permission caller Read s =
    if decide (may caller Read s \/ may caller Configure s) then Ok tt else Err NotAuthorized.
Proof.
  intros Hs. pose proof (may_stored caller Configure s c Hs) as Hm.
  pose proof (may_stored caller Read s c Hs) as Hr.
  unfold LogState.check_permission. rewrite Hs. cbn zeta.
  case_decide; repeat case_bool_decide; cbn [orb]; tauto.
Qed.

Lemma update_settings_stores f s :
  stores s -> exists s', LogState.update_settings f s = Ret s' /\
    LogState.stored s' = f (LogState.stored s) /\ stores s' /\
    LogState.logger_config s' = LogState.logger_config s.
Proof.
  intros (c & Hs & Hc). unfold LogState.update_settings, LogState.stored, stores. rewrite Hs.
  destruct (dcell_set_law c (f (StableCell.get c)) (Hc _)) as [Hr Hg].
  unfold StableCell.set. destruct (dcell_set c (f (StableCell.get c))) as [r c'] eqn:Hset.
  cbn [fst snd] in *. subst r. cbn [map_err expect_ok mbind outcome_bind].
  eexists. split; [done|]. cbn [LogState.settings LogState.logger_config]. split_and!; [done| |done].
  exists c'. split; [done|]. intros v. pose proof (dcell_set_accepts c (f (StableCell.get c)) v) as Ha.
  rewrite Hset in Ha. by apply Ha.
Qed.

(** Changing the access list.  An addition or removal by a caller with
    [Configure] adds or removes exactly that permission and leaves the settings,
    the logger and the logs alone; a caller may remove its own [Configure], and
    is refused from then on. *)
Theorem log_acl_changes caller to p s g :
  stores s -> may caller Configure s ->
  (exists s', LogState.add_permission caller to p (s, g) = Ret (Ok tt, (s', g)) /\
     LogState.acl s' = {[ (to, p) ]} ∪ LogState.acl s /\
     (LogState.stored s').1 = (LogState.stored s).1 /\ may to p s') /\
  (exists s', LogState.remove_permission caller to p (s, g) = Ret (Ok tt, (s', g)) /\
     LogState.acl s' = LogState.acl s ∖ {[ (to, p) ]} /\
     (LogState.stored s').1 = (LogState.stored s).1 /\ ~ may to p s' /\
     (to = caller -> p = Configure -> forall to' p',
        LogState.add_permission caller to' p' (s', g) = Ret (Err NotAuthorized, (s', g)))).
Proof.
  intros Hst Hc. pose proof Hst as (c & Hs & _).
  assert (LogState.check_permission caller Configure s = Ok tt) as Hcheck
    by by rewrite (check_configure _ _ c Hs), decide_True.
  unfold LogState.add_permission at 1, LogState.remove_permission, LogState.change_acl.
  rewrite Hcheck. split.
  - destruct (update_settings_stores (fun v => (v.1, {[ (to, p) ]} ∪ v.2)) s Hst)
      as (s' & -> & Hst' & _ & _).
    exists s'. unfold may, LogState.acl. rewrite Hst'. split_and!; [done..|]. set_solver.
  - destruct (update_settings_stores (fun v => (v.1, v.2 ∖ {[ (to, p) ]})) s Hst)
      as (s' & -> & Hst' & (c' & Hs' & _) & _).
    assert (~ may to p s') as Hn by (unfold may, LogState.acl; rewrite Hst'; set_solver).
    exists s'. split_and!; [done| | |done|].
    + unfold LogState.acl. by rewrite Hst'.
    + by rewrite Hst'.
    + intros -> -> to' p'. unfold LogState.add_permission, LogState.change_acl.
      by rewrite (check_configure _ _ c' Hs'), decide_False.
Qed.

(** The initialization.  With a valid filter on a process without a logger
    it installs the logger with the in-memory log of the configured size, stores
    the settings with the documented defaults and the given access list (or
    [Configure] for the caller), and any further [init] or [reload] is refused
    and changes nothing; with an invalid filter nothing changes at all. *)
Theorem log_init_spec caller (memory : M) (cs : LogCanisterSettings) g :
  let v := LogSettingsV2_from cs in
  let acl := default {[ (caller, Configure) ]} (cs_acl cs) in
  logger g = None -> dcell_mem_fresh memory -> dcell_mem_accepts memory (v, acl) ->
  match filter_try_parse (log_filter v) with
  | Err e => LogState.init caller memory cs (LogState.initial, g) =
               (Err (InvalidConfiguration e), (LogState.initial, g))
  | Ok f => exists w', LogState.init caller memory cs (LogState.initial, g) = (Ok tt, w') /\
      LogState.get_settings w'.1 = LogCanisterSettings_from (v, acl) /\
      (exists l, logger w'.2 = Some l /\ filter l = f) /\ max_level w'.2 = filter_level f /\
      memory_log w'.2 =
        InMemoryWriter.init_buffer (in_memory_records v) (max_record_length v) (memory_log g) /\
      forall caller' memory' cs',
        LogState.init caller' memory' cs' w' = (Err AlreadyInitialized, w') /\
        LogState.reload memory' w' = (Err AlreadyInitialized, w')
  end.
Proof.
  intros v acl Hg Hfresh Hacc. unfold LogState.init, LogState.initial at 1 3 5.
  cbn [LogState.logger_config]. cbn zeta. fold v. fold acl. unfold init_log.
  destruct (filter_try_parse (log_filter v)) as [f|e]; [|done].
  unfold try_init, set_memory_log at 1. cbn [logger]. rewrite Hg.
  destruct (dcell_init_fresh memory (v, acl) Hfresh Hacc) as (c & Hc & Hget & _).
  unfold StableCell.new. rewrite Hc. cbn [map_err].
  eexists. split; [done|]. cbn [fst snd]. split_and!; [|by eexists|done|done|done].
  unfold LogState.get_settings, LogState.stored. cbn [LogState.settings]. unfold StableCell.get.
  exact (f_equal LogCanisterSettings_from Hget).
Qed.

Variable lossy : list Z -> string.

(** The access control of the logger.  Before the initialization every
    operation is refused.  Afterwards the settings and the list are changed for
    callers with [Configure] only, and the logs are read by callers with [Read]
    or [Configure] only; refused calls change nothing; and the inspection of an
    ingress message traps exactly for the callers the method would refuse. *)
Theorem log_access_control caller s g :
  let w := (s, g) in
  let refused e := forall f n to p,
    LogState.set_logger_filter lossy caller f w = Ret (Err e, w) /\
    LogState.set_in_memory_records caller n w = Ret (Err e, w) /\
    LogState.add_permission caller to p w = Ret (Err e, w) /\
    LogState.remove_permission caller to p w = Ret (Err e, w) in
  (LogState.settings s = None ->
   refused NotInitialized /\ forall page, LogState.get_logs caller page w = Ret (Err NotInitialized)) /\
  (is_Some (LogState.settings s) ->
   (~ may caller Configure s -> refused NotAuthorized) /\
   (forall page, LogState.get_logs caller page w =
      if decide (may caller Read s \/ may caller Configure s)
      then l ← take_memory_records (page_count page) (page_offset page) g; Ret (Ok l)
      else Ret (Err NotAuthorized)) /\
   LogState.logger_canister_inspect "ic_logs" caller s =
     (if decide (may caller Read s \/ may caller Configure s) then Ret tt else Panic) /\
   forall m, m ∈ ["set_logger_filter"; "set_logger_in_memory_records";
                  "add_logger_permission"; "remove_logger_permission"] ->
     LogState.logger_canister_inspect m caller s =
       if decide (may caller Configure s) then Ret tt else Panic).
Proof.
  intros w refused. unfold refused, w. split.
  - intros Hs. assert (forall p, LogState.check_permission caller p s = Err NotInitialized) as Hc
      by (intros p; unfold LogState.check_permission; by rewrite Hs).
    split.
    + intros f n to p. unfold LogState.set_logger_filter, LogState.set_in_memory_records,
        LogState.add_permission, LogState.remove_permission, LogState.change_acl. by rewrite !Hc.
    + intros page. unfold LogState.get_logs. cbn [fst]. by rewrite Hc.
  - intros [c Hs]. pose proof (check_configure caller s c Hs) as Hcc.
    pose proof (check_read caller s c Hs) as Hcr. split_and!.
    + intros Hn f n to p. rewrite decide_False in Hcc by done.
      unfold LogState.set_logger_filter, LogState.set_in_memory_records,
        LogState.add_permission, LogState.remove_permission, LogState.change_acl. by rewrite !Hcc.
    + intros page. unfold LogState.get_logs. cbn [fst]. rewrite Hcr. by case_decide.
    + unfold LogState.logger_canister_inspect. rewrite decide_True, Hcr by done. by case_decide.
    + intros m Hm. unfold LogState.logger_canister_inspect.
      rewrite decide_False by (intros ->; revert Hm; rewrite !elem_of_cons, elem_of_nil; intuition discriminate).
      rewrite decide_True by done. rewrite Hcc. by destruct (decide (may caller Configure s)).
Qed.
End log_laws.

(** ** A concrete logger: a filter is a word, [debug] or [off] *)

#[local] Existing Instance wasm_release.

#[local] Instance word_filters : FilterLib := {|
  Filter := string; LevelFilter := bool; LogRecord := string;
  filter_try_parse f := if decide (f = "debug" \/ f = "off") then Ok f else Err "invalid";
  filter_level f := bool_decide (f = "debug");
  filter_matches f _ := bool_decide (f = "debug");
  level_off := false; level_allows l _ := l;
  info_record f := f;
  format_record r := Some [Z.of_nat (String.length r)];
|}.

Definition admin : Principal := [1].
Definition user : Principal := [2].

Definition quiet_global : global :=
  mk_global InMemoryWriter.initial [] None false.

Definition admin_state : LogState.t unit :=
  LogState.mk (Some (LogSettingsV2_default, {[ (admin, Configure) ]})) true.

Lemma log_access_control_witness :
  LogState.set_in_memory_records user 0 (admin_state, quiet_global) =
    Ret (Err NotAuthorized, (admin_state, quiet_global)) /\
  LogState.logger_canister_inspect "ic_logs" admin admin_state = Ret tt.
Proof.
  destruct (log_access_control decode_ascii user admin_state quiet_global) as [_ Huser].
  destruct (log_access_control decode_ascii admin admin_state quiet_global) as [_ Hadmin].
  destruct (Huser ltac:(by eexists)) as (Hno & _).
  destruct (Hadmin ltac:(by eexists)) as (_ & _ & Hyes & _).
  split.
  - apply (Hno ltac:(unfold may, LogState.acl; cbn; set_solver) "" 0 user Read).
  - rewrite Hyes, decide_True; [done|]. right. unfold may, LogState.acl. cbn. set_solver.
Defined.

(** The administrator locks itself out. *)
Lemma log_acl_changes_witness :
  exists s', LogState.remove_permission admin admin Configure (admin_state, quiet_global) =
               Ret (Ok tt, (s', quiet_global)) /\
    LogState.add_permission admin admin Configure (s', quiet_global) =
      Ret (Err NotAuthorized, (s', quiet_global)).
Proof.
  destruct (log_acl_changes admin admin Configure admin_state quiet_global)
    as [_ (s' & Hr & _ & _ & _ & Hlocked)].
  - eexists. by split.
  - unfold may, LogState.acl. cbn. set_solver.
  - exists s'. split; [exact Hr|]. by apply Hlocked.
Defined.

Lemma log_init_spec_witness :
  exists w', LogState.init admin tt (mk_canister_settings None (Some 7) None (Some "debug") None)
      (LogState.initial, quiet_global) = (Ok tt, w') /\
    LogState.get_settings w'.1 =
      mk_canister_settings (Some true) (Some 7) (Some 1024) (Some "debug")
        (Some {[ (admin, Configure) ]}).
Proof.
  destruct (log_init_spec admin tt (mk_canister_settings None (Some 7) None (Some "debug") None)
    quiet_global) as (w' & Hw & Hs & _); [done..|].
  exists w'. split; [exact Hw|exact Hs].
Defined.
