(* ===== verification/Storage.v ===== *)
(** * Versioned canister storage

    [ic-storage/src/{error,testing,stable,lib}.rs].  Module [Testing] is the stable
    memory of [testing.rs], a growing list of bytes with the page arithmetic of the
    platform's; [Versioned] is the chain of types a canister was upgraded through,
    and [read] and [write] store a value behind its version number.  The candid
    encoding is a parameter.  Module [IcStorage] is the per-canister state of the
    [generic_derive] and [IcStorage] macros. *)

From S2P Require Import Prelude.
Local Open Scope Z_scope.

Notation bytes := (list Z).

(** The candid library: its errors, of which one wraps an [io::Error]; a type with
    its encoding, the pieces that [IDLBuilder::serialize] hands to its writer one
    after another, and what [IDLDeserialize] makes of the start of a byte string. *)
Class CandidLib := {
  CandidError : Type;
  io_error : string -> CandidError;
}.

Record Codec `{CandidLib} (T : Type) := mk_codec {
  idl_serialize : T -> result (list bytes) CandidError;
  idl_deserialize : bytes -> result T CandidError;
}.
Arguments idl_serialize {_ _} _ _.
Arguments idl_deserialize {_ _} _ _.

(** [get_value] reads one value and leaves trailing bytes alone. *)
Definition codec_ok `{CandidLib} {T} (c : Codec T) : Prop :=
  forall x pieces rest, idl_serialize c x = Ok pieces ->
    idl_deserialize c (concat pieces ++ rest) = Ok x.

(** ** error.rs *)

Inductive StableMemoryError := OutOfMemory.

Inductive Error `{CandidLib} :=
  | InsufficientSpace
  | StableMemory
  | AttemptedDowngrade
  | Candid (e : CandidError)
  | ExistingVersionIsNewer.

Definition Error_from `{CandidLib} (_ : StableMemoryError) : Error := StableMemory.

(** ** testing.rs *)

Module Testing.
Section testing.
Context `{Target}.
Implicit Types (st : bytes).

Definition PAGE : Z := 2 ^ 16.

Definition clear_storage (st : bytes) : bytes := [].

(** [x as u32]. *)
Definition as_u32 (x : Z) : Z := x mod 2 ^ 32.

Definition stable_size (st : bytes) : Z := as_u32 (zlength st) / PAGE.

(** [(x as usize) << 16]: bits shifted out are lost. *)
Definition pages_as_usize (x : Z) : Z := (x * PAGE) mod 2 ^ usize_bits.

Definition stable_read (offset len : Z) (st : bytes) : outcome bytes :=
  e ← u_add usize_bits offset len; slice st offset e.

Definition stable_bytes (st : bytes) : outcome bytes :=
  stable_read 0 (pages_as_usize (stable_size st)) st.

Definition stable_write (offset : Z) (buf : bytes) (st : bytes) : outcome bytes :=
  e ← u_add usize_bits offset (zlength buf); slice_put st offset e buf.

Definition stable_grow (new_pages : Z) (st : bytes) :
    outcome (result Z StableMemoryError * bytes) :=
  let additional_len := (new_pages * PAGE) mod 2 ^ 32 in
  n ← u_add usize_bits (zlength st) additional_len;
  if umax 32 <=? n then Ret (Err OutOfMemory, st)
  else
    let previous_size := zlength st / PAGE in
    Ret (Ok (as_u32 previous_size), st ++ replicate (Z.to_nat additional_len) 0).

Record StableWriter := mk_writer { offset : Z; capacity : Z }.

Definition writer_default (st : bytes) : StableWriter := mk_writer 0 (stable_size st).

(** The writer and the memory it writes to. *)
Definition target : Type := StableWriter * bytes.

Definition grow (added_pages : Z) (t : target) :
    outcome (result unit StableMemoryError * target) :=
  let '(w, st) := t in
  '(r, st) ← stable_grow added_pages st;
  match r with
  | Err e => Ret (Err e, (w, st))
  | Ok old_page_count =>
      c ← u_add 32 old_page_count added_pages;
      Ret (Ok tt, (mk_writer (offset w) c, st))
  end.

(** The end of [write], once the memory is large enough. *)
Definition write_grown (buf : bytes) (t : target) :
    outcome (result Z StableMemoryError * target) :=
  let '(w, st) := t in
  st ← stable_write (as_u32 (offset w)) buf st;
  o ← u_add usize_bits (offset w) (zlength buf);
  Ret (Ok (zlength buf), (mk_writer o (capacity w), st)).

Definition write (buf : bytes) (t : target) : outcome (result Z StableMemoryError * target) :=
  let '(w, st) := t in
  e ← u_add usize_bits (offset w) (zlength buf);
  if pages_as_usize (capacity w) <? e then
    pages ← u_add 32 (as_u32 (zlength buf / PAGE)) 1;
    '(r, t) ← grow pages t;
    match r with Err e => Ret (Err e, t) | Ok _ => write_grown buf t end
  else write_grown buf t.

(** [io::Write::write], and the default method [write_all]: an empty buffer is not
    written, and [write] takes a whole buffer at once, so the loop runs once. *)
Definition io_write (buf : bytes) (t : target) : outcome (result Z string * target) :=
  '(r, t) ← write buf t;
  Ret (map_err (fun _ => "Out Of Memory"%string) r, t).

Definition write_all (buf : bytes) (t : target) : outcome (result unit string * target) :=
  match buf with
  | [] => Ret (Ok tt, t)
  | _ => '(r, t) ← io_write buf t; Ret (result_map (fun _ => tt) r, t)
  end.
End testing.
End Testing.

(** ** stable.rs *)

(** A type with the chain of its previous versions: [()] is its own previous
    version; a version number is the default [Previous::version() + 1] or given;
    [upgrade] is the canister's code. *)
Inductive Versioned `{CandidLib} : Type -> Type :=
  | VUnit : Versioned unit
  | VNext {P T : Type} (previous : Versioned P) (number : option Z)
      (upgrade : P -> outcome T) (codec : Codec T) : Versioned T.

Section stable.
Context `{Target, CandidLib}.
Variable unit_codec : Codec unit.
Implicit Types (st : bytes).

Definition VERSION_SIZE : Z := 4.

Fixpoint version {T} (v : Versioned T) : outcome Z :=
  match v with
  | VUnit => Ret 0
  | VNext previous number _ _ =>
      match number with Some n => Ret n | None => n ← version previous; u_add 32 n 1 end
  end.

Definition codec_of {T} (v : Versioned T) : Codec T :=
  match v with VUnit => unit_codec | VNext _ _ _ c => c end.

(** [(stable_size() << 16) as usize]: the shift is one of a [u32]. *)
Definition read_version (st : bytes) : outcome (result Z Error) :=
  if (Testing.stable_size st * Testing.PAGE) mod 2 ^ 32 <? VERSION_SIZE
  then Ret (Err InsufficientSpace)
  else v ← Testing.stable_read 0 VERSION_SIZE st; Ret (Ok (from_le_bytes v)).

(** [None]: out of the fuel of the model.  [().upgrade(..)] panics. *)
Fixpoint recursive_upgrade (fuel : nat) {T} (v : Versioned T) (stored : Z) (bs : bytes) :
    option (outcome (result T Error)) :=
  match fuel with
  | O => None
  | S fuel =>
      match version v with
      | Panic => Some Panic
      | Ret n =>
          if stored =? n then Some (Ret (map_err Candid (idl_deserialize (codec_of v) bs)))
          else
            match v in Versioned T return option (outcome (result T Error)) with
            | VUnit =>
                (fun r => val ← r; match val with Err e => Ret (Err e) | Ok _ => Panic end)
                  <$> recursive_upgrade fuel VUnit stored bs
            | VNext previous _ upgrade _ =>
                (fun r => val ← r;
                   match val with Err e => Ret (Err e) | Ok x => Ok <$> upgrade x end)
                  <$> recursive_upgrade fuel previous stored bs
            end
      end
  end.

Definition read (fuel : nat) {T} (v : Versioned T) (st : bytes) :
    option (outcome (result T Error)) :=
  match read_version st with
  | Panic => Some Panic
  | Ret (Err e) => Some (Ret (Err e))
  | Ret (Ok stored) =>
      match (n ← version v;
             if n <? stored then Ret (Err AttemptedDowngrade)
             else bs ← Testing.stable_bytes st; Ok <$> slice bs VERSION_SIZE (zlength bs)) with
      | Panic => Some Panic
      | Ret (Err e) => Some (Ret (Err e))
      | Ret (Ok bs) => recursive_upgrade fuel v stored bs
      end
  end.

(** The pieces of an encoding, up to the first failure. *)
Fixpoint serialize (pieces : list bytes) (t : Testing.target) :
    outcome (result unit Error * Testing.target) :=
  match pieces with
  | [] => Ret (Ok tt, t)
  | p :: pieces =>
      '(r, t) ← Testing.write_all p t;
      match r with
      | Err e => Ret (Err (Candid (io_error e)), t)
      | Ok _ => serialize pieces t
      end
  end.

Definition write_versioned {T} (v : Versioned T) (n : Z) (payload : T) (st : bytes) :
    outcome (result unit Error * bytes) :=
  '(r, t) ← Testing.write (to_le_bytes 4 n) (Testing.writer_default st, st);
  match r with
  | Err e => Ret (Err (Error_from e), t.2)
  | Ok _ =>
      match idl_serialize (codec_of v) payload with
      | Err e => Ret (Err (Candid e), t.2)
      | Ok pieces => '(r, t) ← serialize pieces t; Ret (r, t.2)
      end
  end.

Definition write {T} (v : Versioned T) (payload : T) (st : bytes) :
    outcome (result unit Error * bytes) :=
  current ← read_version st;
  n ← version v;
  match current with
  | Ok current_version =>
      if n <? current_version then Ret (Err ExistingVersionIsNewer, st)
      else write_versioned v n payload st
  | Err InsufficientSpace => write_versioned v n payload st
  | Err e => Ret (Err e, st)
  end.
End stable.

(** ** lib.rs: state per canister id *)

Module IcStorage.
Section ic_storage.
Context {S : Type}.
Variable default_state : S.

(** The thread-local [store] and the cells its [Rc]s point to, numbered in the
    order of their allocation. *)
Record t := mk { store : gmap (list Z) nat; cells : list S }.

Definition initial : t := mk ∅ [].

(** [store.entry(id).or_default().clone()] *)
Definition get (id : list Z) (s : t) : nat * t :=
  match store s !! id with
  | Some l => (l, s)
  | None =>
      let l := length (cells s) in
      (l, mk (<[id := l]> (store s)) (cells s ++ [default_state]))
  end.

(** Reading and writing through a handle: [borrow] and [borrow_mut]. *)
Definition borrow (l : nat) (s : t) : option S := cells s !! l.
Definition borrow_mut (f : S -> S) (l : nat) (s : t) : t := mk (store s) (alter f l (cells s)).
End ic_storage.
Arguments t : clear implicits.
End IcStorage.

(** ** The stable memory *)

Section testing_laws.
Context `{Target}.
Hypothesis hosted : usize_bits = 64.
Import Testing.
Implicit Types (st : bytes) (w : StableWriter).

(** A memory of whole pages, smaller than 4 GiB. *)
Definition memory_ok st : Prop := (PAGE | zlength st) /\ zlength st < 2 ^ 32.

Definition writer_ok (t : target) : Prop :=
  memory_ok t.2 /\ capacity t.1 * PAGE = zlength t.2 /\ 0 <= offset t.1 <= zlength t.2.

(** What the writer has written so far. *)
Definition written (t : target) : bytes := take (Z.to_nat (offset t.1)) t.2.

Definition growth (len : Z) : Z := (len / PAGE + 1) * PAGE.

(** A buffer fits without growing the memory, or the memory can be grown for it. *)
Definition room (t : target) (buf : bytes) : Prop :=
  offset t.1 + zlength buf <= zlength t.2 \/ zlength t.2 + growth (zlength buf) < umax 32.

#[local] Instance room_dec t buf : Decision (room t buf).
Proof. unfold room. apply _. Defined.

Lemma memory_ok_size st : memory_ok st -> stable_size st * PAGE = zlength st.
Proof.
  intros [[k Hk] Hlt]. pose proof (zlength_nonneg st). unfold stable_size, as_u32.
  rewrite Z.mod_small by lia. rewrite Hk. unfold PAGE. rewrite Z.div_mul by lia. lia.
Qed.

Lemma pages_as_usize_ok c n : c * PAGE = n -> 0 <= n < 2 ^ 32 -> pages_as_usize c = n.
Proof. intros Hc Hn. unfold pages_as_usize. rewrite Hc, hosted, Z.mod_small; [done|plia]. Qed.

Lemma stable_bytes_ok st : memory_ok st -> stable_bytes st = Ret st.
Proof.
  intros Hst. pose proof (zlength_nonneg st). destruct (Hst) as [_ Hlt].
  unfold stable_bytes, stable_read.
  rewrite (pages_as_usize_ok _ (zlength st)) by (by apply memory_ok_size || lia).
  rewrite u_add_ok by (rewrite hosted; plia). cbn [mbind outcome_bind].
  rewrite slice_ok by lia. f_equal. unfold zlength in *. cbn [drop Z.to_nat].
  apply take_ge. lia.
Qed.

Lemma write_grown_ok buf w st :
  writer_ok (w, st) -> offset w + zlength buf <= zlength st ->
  exists t', write_grown buf (w, st) = Ret (Ok (zlength buf), t') /\ writer_ok t' /\
    written t' = written (w, st) ++ buf /\ offset t'.1 = offset w + zlength buf /\
    t'.2 = written (w, st) ++ buf ++ drop (Z.to_nat (offset w + zlength buf)) st /\
    zlength t'.2 = zlength st.
Proof.
  intros (Hst & Hc & Ho) Hfit. cbn [fst snd] in *. pose proof (zlength_nonneg buf).
  pose proof (proj2 Hst). unfold write_grown, stable_write, as_u32. rewrite Z.mod_small by lia.
  rewrite u_add_ok by (rewrite hosted; plia). cbn [mbind outcome_bind].
  destruct (slice_put st (offset w) (offset w + zlength buf) buf) as [st'|] eqn:Hput;
    [|by rewrite slice_put_ok in Hput by lia].
  pose proof (slice_put_spec _ _ _ _ Hput) as (Hlen & _ & _).
  rewrite slice_put_ok in Hput by lia. injection Hput as Hs. fold (written (w, st)) in Hs.
  eexists. split; [done|]. cbn [fst snd offset]. split_and!; [| |done|by rewrite <- Hs|done].
  - unfold writer_ok, memory_ok in *. cbn. rewrite Hlen. split_and!; tauto || lia.
  - unfold written. cbn. rewrite <- Hs, app_assoc. apply take_app_length'.
    unfold zlength in *. cbn. rewrite length_app, length_take. lia.
Qed.

Lemma memory_ok_grown st k :
  memory_ok st -> 0 <= k -> zlength st + k * PAGE < 2 ^ 32 ->
  memory_ok (st ++ replicate (Z.to_nat (k * PAGE)) 0).
Proof.
  intros [Hd _] Hk Hlt. assert (0 <= k * PAGE) by (unfold PAGE; lia).
  assert (zlength (st ++ replicate (Z.to_nat (k * PAGE)) 0) = zlength st + k * PAGE) as Hl
    by (rewrite zlength_app, zlength_replicate; lia).
  split; [|lia]. rewrite Hl. apply Z.divide_add_r; [done|]. by exists k.
Qed.

(** Growing for a buffer adds the pages computed by [write], or fails. *)
Lemma grow_ok len w st :
  writer_ok (w, st) -> 0 <= len < 2 ^ 32 - PAGE ->
  grow (len / PAGE + 1) (w, st) =
    if umax 32 <=? zlength st + growth len then Ret (Err OutOfMemory, (w, st))
    else Ret (Ok tt, (mk_writer (offset w) ((zlength st + growth len) / PAGE),
                      st ++ replicate (Z.to_nat (growth len)) 0)).
Proof.
  intros ([[k Hk] Hlt] & Hc & Ho) Hlen. cbn [fst snd] in *. pose proof (zlength_nonneg st).
  assert (0 <= len / PAGE < 2 ^ 16 - 1) as Hd.
  { unfold PAGE in *. split; [apply Z.div_pos; lia|]. apply Z.div_lt_upper_bound; plia. }
  assert (0 <= growth len < 2 ^ 32) as Hg by (unfold growth, PAGE in *; plia).
  unfold grow, stable_grow. fold (growth len). rewrite Z.mod_small by done.
  rewrite u_add_ok by (rewrite hosted; plia). cbn [mbind outcome_bind].
  destruct (umax 32 <=? _) eqn:Hfull; [done|]. cbn [mbind outcome_bind].
  apply Z.leb_gt in Hfull.
  assert (zlength st / PAGE = k) as Hdiv by (rewrite Hk; apply Z.div_mul; done).
  assert (0 <= k /\ k + (len / PAGE + 1) < 2 ^ 32) as Hk32
    by (unfold umax, growth, PAGE in *; plia).
  unfold as_u32. rewrite Hdiv, Z.mod_small by plia. rewrite u_add_ok by plia.
  cbn [mbind outcome_bind]. repeat f_equal. rewrite Hk. unfold growth.
  replace (k * PAGE + (len / PAGE + 1) * PAGE) with ((k + (len / PAGE + 1)) * PAGE) by ring.
  by rewrite Z.div_mul.
Qed.

Lemma growth_fits len : 0 <= len -> len < growth len.
Proof.
  intros. pose proof (Z.div_mod len PAGE ltac:(done)).
  pose proof (Z.mod_pos_bound len PAGE eq_refl). unfold growth, PAGE in *. plia.
Qed.

Lemma memory_ok_lt st : memory_ok st -> zlength st <= 2 ^ 32 - PAGE.
Proof. intros [[k Hk] Hlt]. unfold PAGE in *. plia. Qed.

(** The memory after growing for [buf]. *)
Lemma writer_ok_grown (buf : bytes) w st :
  writer_ok (w, st) -> zlength st + growth (zlength buf) < umax 32 ->
  writer_ok (mk_writer (offset w) ((zlength st + growth (zlength buf)) / PAGE),
             st ++ replicate (Z.to_nat (growth (zlength buf))) 0) /\
  zlength (st ++ replicate (Z.to_nat (growth (zlength buf))) 0) =
    zlength st + growth (zlength buf).
Proof.
  intros (Hst & Hc & Ho) Hroom. cbn [fst snd] in *.
  pose proof (growth_fits _ (zlength_nonneg buf)). pose proof (zlength_nonneg buf).
  assert (zlength (st ++ replicate (Z.to_nat (growth (zlength buf))) 0) =
          zlength st + growth (zlength buf)) as Hl
    by (rewrite zlength_app, zlength_replicate; lia).
  split; [|done]. split_and!; cbn [fst snd capacity offset]; [| |lia|lia].
  - apply memory_ok_grown; [done| |unfold growth, umax in *; plia].
    apply Z.add_nonneg_nonneg; [|done]. by apply Z.div_pos.
  - rewrite Hl. destruct (proj1 Hst) as [k Hk]. rewrite Hk. unfold growth.
    by rewrite <- Z.mul_add_distr_r, Z.div_mul.
Qed.

Lemma write_ok buf w st :
  writer_ok (w, st) -> zlength buf < 2 ^ 32 - PAGE ->
  if decide (room (w, st) buf) then
    exists t', write buf (w, st) = Ret (Ok (zlength buf), t') /\ writer_ok t' /\
      written t' = written (w, st) ++ buf /\ offset t'.1 = offset w + zlength buf /\
      zlength t'.2 <= zlength st + growth (zlength buf) /\
      (offset w + zlength buf <= zlength st ->
         t'.2 = written (w, st) ++ buf ++ drop (Z.to_nat (offset w + zlength buf)) st)
  else write buf (w, st) = Ret (Err OutOfMemory, (w, st)).
Proof.
  intros Hok Hlen. pose proof Hok as (Hst & Hc & Ho). cbn [fst snd] in *.
  pose proof (memory_ok_lt st Hst) as Hle. pose proof (zlength_nonneg buf) as Hb.
  pose proof (growth_fits _ Hb) as Hg. assert (0 < PAGE) as HP by done.
  assert (0 <= zlength buf / PAGE < 2 ^ 16) as Hd.
  { unfold PAGE in *. split; [apply Z.div_pos; lia|]. apply Z.div_lt_upper_bound; plia. }
  unfold write. rewrite (u_add_ok usize_bits) by (rewrite hosted; plia). cbn [mbind outcome_bind].
  rewrite (pages_as_usize_ok _ (zlength st)) by (done || plia).
  destruct (zlength st <? _) eqn:Hfit; [apply Z.ltb_lt in Hfit|apply Z.ltb_ge in Hfit].
  - unfold as_u32. rewrite Z.mod_small by plia. rewrite u_add_ok by plia.
    cbn [mbind outcome_bind]. rewrite (grow_ok (zlength buf)) by (done || lia).
    unfold room. cbn [fst snd].
    destruct (umax 32 <=? _) eqn:Hfull; [apply Z.leb_le in Hfull|apply Z.leb_gt in Hfull].
    { rewrite decide_False by lia. done. }
    rewrite decide_True by lia. cbn [mbind outcome_bind].
    destruct (writer_ok_grown buf w st Hok Hfull) as [Hok1 Hl].
    edestruct (write_grown_ok buf) as (t' & Hr & Hok' & Hw' & Ho' & Hs & Hl'); [exact Hok1| |].
    { cbn [offset]. lia. }
    exists t'. split_and!; [exact Hr|done| |done|lia|lia].
    rewrite Hw'. f_equal. unfold written. cbn. rewrite take_app_le; [done|].
    unfold zlength in *. lia.
  - rewrite decide_True by (left; cbn; lia).
    destruct (write_grown_ok buf w st Hok) as (t' & Hr & Hok' & Hw' & Ho' & Hs & Hl'); [lia|].
    exists t'. split_and!; auto; lia.
Qed.
End testing_laws.

(** ** Versions and their chain *)

Section stable_laws.
Context `{Target, CandidLib}.
Variable unit_codec : Codec unit.
Hypothesis hosted : usize_bits = 64.
Implicit Types (st bs : bytes) (pieces : list bytes).
#[local] Existing Instance room_dec.

Notation read := (read unit_codec).
Notation write := (write unit_codec).
Notation recursive_upgrade := (recursive_upgrade unit_codec).
Notation codec_of := (codec_of unit_codec).

Definition stored_version st : Z := from_le_bytes (take 4 st).

Lemma not_empty_size st : memory_ok st -> st <> [] -> 4 <= zlength st.
Proof.
  intros [[k Hk] _] He. assert (0 < zlength st) by (unfold zlength; destruct st; cbn; [done|lia]).
  rewrite Hk in *. unfold Testing.PAGE in *. plia.
Qed.

Lemma read_version_ok st :
  memory_ok st ->
  read_version st = Ret (if decide (st = []) then Err InsufficientSpace else Ok (stored_version st)).
Proof.
  intros Hst. pose proof (memory_ok_size st Hst) as Hs. pose proof (proj2 Hst) as Hlt.
  pose proof (zlength_nonneg st). unfold read_version. rewrite Hs, Z.mod_small by lia.
  unfold VERSION_SIZE. case_decide as He; [by rewrite He|].
  pose proof (not_empty_size st Hst He) as H4.
  rewrite (proj2 (Z.ltb_ge _ _)) by lia. unfold Testing.stable_read.
  rewrite u_add_ok by (rewrite hosted; plia). cbn [mbind outcome_bind].
  by rewrite slice_ok by lia.
Qed.

Definition pieces_growth pieces : Z := foldr (fun p n => growth (zlength p) + n) 0 pieces.

Lemma pieces_growth_nonneg pieces : 0 <= pieces_growth pieces.
Proof.
  unfold pieces_growth in *. induction pieces as [|p pieces IH]; [done|]. cbn [foldr].
  pose proof (growth_fits _ (zlength_nonneg p)). pose proof (zlength_nonneg p). lia.
Qed.

Lemma growth_bound len : 0 <= len -> growth len < umax 32 -> len < 2 ^ 32 - Testing.PAGE.
Proof.
  intros Hl Hg. pose proof (growth_fits len Hl). unfold growth, Testing.PAGE, umax in *. plia.
Qed.

Lemma serialize_ok pieces w st :
  writer_ok (w, st) -> zlength st + pieces_growth pieces < umax 32 ->
  exists t', serialize pieces (w, st) = Ret (Ok tt, t') /\ writer_ok t' /\
    written t' = written (w, st) ++ concat pieces.
Proof.
  revert w st. induction pieces as [|p pieces IH]; intros w st Hok Hroom.
  { exists (w, st). by rewrite app_nil_r. }
  cbn [serialize concat]. unfold pieces_growth in Hroom. cbn [foldr] in Hroom.
  fold (pieces_growth pieces) in Hroom.
  pose proof (pieces_growth_nonneg pieces). pose proof (zlength_nonneg p).
  pose proof (growth_fits _ (zlength_nonneg p)). pose proof (zlength_nonneg st).
  destruct p as [|b p].
  { cbn. apply IH; [done|]. lia. }
  pose proof (write_ok hosted (b :: p) w st Hok) as Hw.
  rewrite decide_True in Hw by (right; cbn [snd]; lia).
  destruct Hw as ([w' st'] & Hw & Hok' & Hwr & _ & Hlen & _).
  { apply growth_bound; lia. }
  unfold Testing.write_all, Testing.io_write. rewrite Hw. cbn -[growth].
  destruct (IH w' st' Hok') as (t' & Hs & Ht & Hc); [cbn [snd] in Hlen; lia|].
  exists t'. split_and!; [done..|]. by rewrite Hc, Hwr, <- app_assoc.
Qed.

Lemma writer_ok_default st : memory_ok st -> writer_ok (Testing.writer_default st, st).
Proof.
  intros Hst. pose proof (zlength_nonneg st). split_and!; cbn; [done| |lia..].
  by apply memory_ok_size.
Qed.

(** A memory that holds a value behind its version number. *)
Definition holds st (n : Z) (payload : bytes) : Prop :=
  memory_ok st /\ exists rest, st = to_le_bytes 4 n ++ payload ++ rest.

Lemma write_versioned_ok {T} (v : Versioned T) n x pieces st :
  memory_ok st -> idl_serialize (codec_of v) x = Ok pieces ->
  zlength st + Testing.PAGE + pieces_growth pieces < umax 32 ->
  exists st', write_versioned unit_codec v n x st = Ret (Ok tt, st') /\ holds st' n (concat pieces).
Proof.
  intros Hst Hx Hroom. pose proof (pieces_growth_nonneg pieces).
  pose proof (write_ok hosted (to_le_bytes 4 n) _ st (writer_ok_default st Hst)) as Hw.
  change (zlength (to_le_bytes 4 n)) with 4 in Hw. change (growth 4) with Testing.PAGE in Hw.
  rewrite decide_True in Hw by (right; cbn [snd]; change (growth (zlength (to_le_bytes 4 n)))
    with Testing.PAGE; lia).
  destruct Hw as ([w' st'] & Hw & Hok' & Hwr & _ & Hlen & _); [done|].
  unfold write_versioned. rewrite Hw. cbn [mbind outcome_bind]. rewrite Hx. cbn [snd] in *.
  destruct (serialize_ok pieces w' st' Hok') as ([w'' st''] & Hs & Hok'' & Hc); [lia|].
  rewrite Hs. cbn. exists st''. split; [done|]. split; [apply Hok''|].
  rewrite Hwr in Hc. cbn in Hc. unfold written in Hc. cbn in Hc.
  exists (drop (Z.to_nat (Testing.offset w'')) st'').
  rewrite <- (take_drop (Z.to_nat (Testing.offset w'')) st'') at 1.
  rewrite Hc. cbn. by rewrite <- app_assoc.
Qed.

(** The version numbers of a chain, newest first, and chains in which every type
    has a larger number than its previous one. *)
Fixpoint versions {T} (v : Versioned T) : list (outcome Z) :=
  version v :: match v with VUnit => [] | VNext previous _ _ _ => versions previous end.

Fixpoint increasing {T} (v : Versioned T) : Prop :=
  match v with
  | VUnit => True
  | VNext previous _ _ _ => increasing previous /\
      exists m n, version previous = Ret m /\ version v = Ret n /\ m < n
  end.

Fixpoint all_default {T} (v : Versioned T) : Prop :=
  match v with VUnit => True | VNext previous number _ _ => number = None /\ all_default previous end.

Definition depth {T} (v : Versioned T) : nat := length (versions v).

(** [upgrades v w f]: [w] is [v] or a later version, [f] the upgrade from [v] to [w]. *)
Inductive upgrades {U} (v : Versioned U) : forall {T}, Versioned T -> (U -> outcome T) -> Prop :=
  | upgrades_refl : upgrades v v Ret
  | upgrades_next {P T} (previous : Versioned P) number (upgrade : P -> outcome T) codec f :
      upgrades v previous f ->
      upgrades v (VNext previous number upgrade codec) (fun x => y ← f x; upgrade y).

Lemma increasing_version {T} (v : Versioned T) :
  increasing v -> exists n, version v = Ret n /\
    forall o, o ∈ versions v -> exists m, o = Ret m /\ m <= n.
Proof.
  induction v as [|P T previous IH number upgrade codec].
  { intros _. exists 0. split; [done|]. intros o ->%list_elem_of_singleton. by exists 0. }
  cbn [increasing versions]. intros (Hinc & m & n & Hm & Hn & Hlt). exists n. split; [done|].
  intros o [->|Ho]%elem_of_cons; [by exists n|].
  destruct (IH Hinc) as (m' & Hm' & Hall). destruct (Hall o Ho) as (k & -> & Hk).
  exists k. split; [done|]. rewrite Hm in Hm'. injection Hm' as <-. lia.
Qed.

Lemma upgrades_in {U T} (v : Versioned U) (w : Versioned T) f :
  upgrades v w f -> version v ∈ versions w.
Proof.
  induction 1 as [|P T previous number upgrade codec f Hup IH].
  - destruct v; cbn [versions]; apply list_elem_of_here.
  - cbn [versions]. by apply list_elem_of_further.
Qed.

Lemma recursive_upgrade_upgrades {U T} (v : Versioned U) (w : Versioned T) f n x bs k :
  upgrades v w f -> increasing w -> version v = Ret n ->
  idl_deserialize (codec_of v) bs = Ok x ->
  recursive_upgrade (depth w + k) w n bs = Some (Ok <$> f x).
Proof.
  intros Hup Hinc Hn Hx. induction Hup as [|P T previous number upgrade codec f Hup IH].
  - assert (exists d, depth v + k = S d)%nat as [d ->] by (destruct v; eexists; reflexivity).
    cbn [Storage.recursive_upgrade]. by rewrite Hn, Z.eqb_refl, Hx.
  - cbn [increasing] in Hinc. destruct Hinc as (Hinc & m & n' & Hm & Hn' & Hlt).
    destruct (increasing_version previous Hinc) as (m' & Hm' & Hall).
    destruct (Hall _ (upgrades_in _ _ _ Hup)) as (n1 & Hn1 & Hle).
    assert (n <> n') as Hne by (rewrite Hn in Hn1; rewrite Hm in Hm'; simplify_eq; lia).
    change (depth (VNext previous number upgrade codec) + k)%nat with (S (depth previous + k)).
    cbn [Storage.recursive_upgrade]. rewrite Hn'. destruct (Z.eqb_spec n n'); [done|].
    rewrite IH by done. cbn. f_equal. by destruct (f x).
Qed.

(** Reading ends exactly when the stored number is one of the chain. *)
Lemma recursive_upgrade_ends {T} (v : Versioned T) s bs :
  increasing v -> Ret s ∈ versions v ->
  exists r, forall k, recursive_upgrade (depth v + k) v s bs = Some r.
Proof.
  intros Hinc Hs. induction v as [|P T previous IH number upgrade codec].
  - apply list_elem_of_singleton in Hs. injection Hs as ->. eexists. intros k. reflexivity.
  - change (depth (VNext previous number upgrade codec)) with (S (depth previous)).
    cbn [increasing] in Hinc. destruct Hinc as (Hinc & m & n & Hm & Hn & Hlt).
    cbn [versions] in Hs. rewrite Hn in Hs.
    destruct (Z.eqb_spec s n) as [->|Hne].
    { eexists. intros k. cbn [Nat.add Storage.recursive_upgrade]. by rewrite Hn, Z.eqb_refl. }
    apply elem_of_cons in Hs as [Hs|Hs]; [by injection Hs|].
    destruct (IH Hinc Hs) as [r Hr]. eexists. intros k. cbn [Nat.add Storage.recursive_upgrade].
    rewrite Hn, (proj2 (Z.eqb_neq s n)) by done. rewrite Hr. cbn. reflexivity.
Qed.

Lemma recursive_upgrade_never {T} (v : Versioned T) s bs fuel :
  increasing v -> Ret s ∉ versions v -> recursive_upgrade fuel v s bs = None.
Proof.
  revert T v. induction fuel as [|fuel IH]; [done|]. intros T v Hinc Hs.
  cbn [Storage.recursive_upgrade].
  destruct (increasing_version v Hinc) as (n & Hn & _). rewrite Hn.
  assert (s <> n) as Hne.
  { intros ->. apply Hs. rewrite <- Hn. destruct v; cbn [versions]; apply list_elem_of_here. }
  destruct (Z.eqb_spec s n); [done|]. destruct v as [|P T previous number upgrade codec].
  - by rewrite IH.
  - rewrite IH; [done|apply Hinc|]. intros Hin. apply Hs. cbn [versions].
    by apply list_elem_of_further.
Qed.

(** Default version numbers leave no gap. *)
Lemma default_versions {T} (v : Versioned T) n :
  all_default v -> increasing v -> version v = Ret n ->
  0 <= n /\ forall s, 0 <= s <= n -> Ret s ∈ versions v.
Proof.
  revert n. induction v as [|P T previous IH number upgrade codec]; intros n Hd Hinc Hn.
  - cbn in Hn. injection Hn as <-. split; [done|]. intros s Hs.
    assert (s = 0) as -> by lia. apply list_elem_of_here.
  - cbn [all_default increasing versions] in *. destruct Hd as [-> Hd].
    destruct Hinc as (Hinc & m & n' & Hm & Hn' & Hlt). rewrite Hn in *. injection Hn' as <-.
    destruct (IH m Hd Hinc Hm) as [Hm0 Hall].
    cbn [version] in Hn. rewrite Hm in Hn. cbn [mbind outcome_bind] in Hn.
    pose proof (arith_range 32 (m + 1) n eq_refl Hn) as Hrange.
    assert (n = m + 1) as ->.
    { unfold u_add, arith in Hn. destruct (in_range 32 (m + 1)) eqn:Hr; [by injection Hn|].
      apply in_range_false in Hr. lia. }
    split; [lia|]. intros s Hs. destruct (Z.eq_dec s (m + 1)) as [->|Hne];
      [apply list_elem_of_here|apply list_elem_of_further, Hall; lia].
Qed.

Lemma read_ok {T} (w : Versioned T) n fuel st :
  memory_ok st -> st <> [] -> version w = Ret n ->
  read fuel w st =
    if n <? stored_version st then Some (Ret (Err AttemptedDowngrade))
    else recursive_upgrade fuel w (stored_version st) (drop 4 st).
Proof.
  intros Hst Hne Hn. unfold Storage.read. rewrite read_version_ok by done.
  rewrite decide_False by done. rewrite Hn. cbn [mbind outcome_bind].
  destruct (n <? stored_version st); [done|]. rewrite stable_bytes_ok by done.
  cbn [mbind outcome_bind]. pose proof (not_empty_size st Hst Hne) as H4.
  rewrite slice_ok by (unfold VERSION_SIZE; lia). cbn [fmap outcome_fmap].
  change (Z.to_nat VERSION_SIZE) with 4%nat. rewrite take_ge; [done|].
  rewrite length_drop. unfold zlength, VERSION_SIZE in *. lia.
Qed.

Lemma holds_read st n payload :
  holds st n payload -> 0 <= n < 2 ^ 32 ->
  st <> [] /\ stored_version st = n /\ exists rest, drop 4 st = payload ++ rest.
Proof.
  intros (_ & rest & ->) Hn. split; [done|]. split.
  - unfold stored_version. rewrite (take_app_length' _ _ 4) by done. by apply from_to_le_bytes.
  - exists rest. by rewrite (drop_app_length' _ _ 4).
Qed.

Lemma write_to_versioned {T} (v : Versioned T) n x st :
  memory_ok st -> version v = Ret n -> st = [] \/ stored_version st <= n ->
  write v x st = write_versioned unit_codec v n x st.
Proof.
  intros Hst Hn Hold. unfold Storage.write. rewrite read_version_ok by done.
  rewrite Hn. cbn [mbind outcome_bind]. case_decide as He; [done|].
  destruct Hold as [|Hold]; [done|]. by rewrite (proj2 (Z.ltb_ge _ _)).
Qed.

(** What is written is read back, upgraded. *)
Lemma write_then_read {U T} (v : Versioned U) (w : Versioned T) f n x pieces st :
  memory_ok st -> st = [] \/ stored_version st <= n ->
  codec_ok (codec_of v) -> idl_serialize (codec_of v) x = Ok pieces ->
  upgrades v w f -> increasing w -> version v = Ret n -> 0 <= n < 2 ^ 32 ->
  zlength st + Testing.PAGE + pieces_growth pieces < umax 32 ->
  exists st', write v x st = Ret (Ok tt, st') /\ memory_ok st' /\ stored_version st' = n /\
    read (depth w) w st' = Some (Ok <$> f x).
Proof.
  intros Hst Hold Hcodec Hx Hup Hinc Hn Hn32 Hroom.
  rewrite (write_to_versioned v n) by done.
  destruct (write_versioned_ok v n x pieces st Hst Hx Hroom) as (st' & Hw & Hh).
  destruct (holds_read st' n _ Hh Hn32) as (Hne & Hv & rest & Hd).
  destruct (increasing_version w Hinc) as (m & Hm & Hall).
  destruct (Hall _ (upgrades_in _ _ _ Hup)) as (n' & Hn' & Hle).
  rewrite Hn in Hn'. injection Hn' as <-.
  exists st'. split_and!; [done|apply Hh|done|]. rewrite (read_ok w m) by (done || apply Hh).
  rewrite Hv, (proj2 (Z.ltb_ge _ _)), Hd by lia. rewrite <- (Nat.add_0_r (depth w)).
  apply (recursive_upgrade_upgrades v); [done..|]. by apply Hcodec.
Qed.

(** C20: A value written into a stable memory that has room for it is read back by
    every later version of its type as the upgrade of the value through the chain
    of versions between the two (and by the type itself as the value), whatever an
    older or equal version left in the memory before. *)
Theorem write_then_read_upgraded {U T} (v : Versioned U) (w : Versioned T) f n x pieces st :
  memory_ok st -> st = [] \/ stored_version st <= n ->
  codec_ok (codec_of v) -> idl_serialize (codec_of v) x = Ok pieces ->
  upgrades v w f -> increasing w -> version v = Ret n -> 0 <= n < 2 ^ 32 ->
  zlength st + Testing.PAGE + pieces_growth pieces < umax 32 ->
  exists st', write v x st = Ret (Ok tt, st') /\ memory_ok st' /\ stored_version st' = n /\
    read (depth w) w st' = Some (Ok <$> f x).
Proof. exact (write_then_read v w f n x pieces st). Qed.

(** C40: Reading a memory whose version is not newer than the requested type ends,
    with fuel for the length of the chain of versions, exactly when the stored
    number is the number of a type of the chain; from a number the chain skips the
    recursion never ends.  A chain with the default version numbers skips none. *)
Theorem read_ends_iff {T} (w : Versioned T) n st :
  memory_ok st -> st <> [] -> Forall is_byte st ->
  increasing w -> version w = Ret n -> stored_version st <= n ->
  (Ret (stored_version st) ∈ versions w ->
     exists r, forall k, read (depth w + k) w st = Some r) /\
  (Ret (stored_version st) ∉ versions w -> forall fuel, read fuel w st = None) /\
  (all_default w -> Ret (stored_version st) ∈ versions w).
Proof.
  intros Hst Hne Hbytes Hinc Hn Hold. split_and!.
  - intros Hin. destruct (recursive_upgrade_ends w _ (drop 4 st) Hinc Hin) as [r Hr].
    exists r. intros k. rewrite (read_ok w n) by done. rewrite (proj2 (Z.ltb_ge _ _)) by lia. done.
  - intros Hin fuel. rewrite (read_ok w n) by done. rewrite (proj2 (Z.ltb_ge _ _)) by lia.
    by apply recursive_upgrade_never.
  - intros Hd. apply (default_versions w n Hd Hinc Hn).
    pose proof (from_le_bytes_bound (take 4 st) (Forall_take _ _ _ Hbytes)).
    unfold stored_version in *. lia.
Qed.

(** Versions only go forward: a type older than the stored version is refused
    by [read] and by [write], which leaves the memory alone, and reading a memory
    that was never written fails with [InsufficientSpace]. *)
Theorem older_versions_refused {T} (w : Versioned T) n x st fuel :
  memory_ok st -> version w = Ret n -> st = [] \/ n < stored_version st ->
  if decide (st = []) then read fuel w st = Some (Ret (Err InsufficientSpace))
  else read fuel w st = Some (Ret (Err AttemptedDowngrade)) /\
       write w x st = Ret (Err ExistingVersionIsNewer, st).
Proof.
  intros Hst Hn Hold. case_decide as He.
  - unfold Storage.read. rewrite read_version_ok by done. by rewrite decide_True by done.
  - destruct Hold as [|Hold]; [done|]. split.
    + rewrite (read_ok w n) by done. by rewrite (proj2 (Z.ltb_lt _ _)).
    + unfold Storage.write. rewrite read_version_ok by done. rewrite decide_False by done.
      rewrite Hn. cbn [mbind outcome_bind]. by rewrite (proj2 (Z.ltb_lt _ _)).
Qed.

(** The header of a write to a memory that is not empty. *)
Lemma header_written n st :
  memory_ok st -> st <> [] ->
  exists w, Testing.write (to_le_bytes 4 n) (Testing.writer_default st, st) =
      Ret (Ok 4, (w, to_le_bytes 4 n ++ drop 4 st)) /\
    writer_ok (w, to_le_bytes 4 n ++ drop 4 st) /\ Testing.offset w = 4 /\
    zlength (to_le_bytes 4 n ++ drop 4 st) = zlength st.
Proof.
  intros Hst Hne. pose proof (not_empty_size st Hst Hne) as H4.
  pose proof (write_ok hosted (to_le_bytes 4 n) _ st (writer_ok_default st Hst)) as Hw.
  change (zlength (to_le_bytes 4 n)) with 4 in Hw.
  rewrite decide_True in Hw by (left; change (0 + 4 <= zlength st); lia).
  destruct Hw as ([w' st'] & Hw & Hok' & Hwr & Ho & _ & Hst'); [done|].
  specialize (Hst' H4). change (st' = to_le_bytes 4 n ++ drop 4 st) in Hst'. subst st'.
  exists w'. split_and!; [done..|]. rewrite zlength_app, zlength_drop.
  change (zlength (to_le_bytes 4 n)) with 4. lia.
Qed.

(** A write that fails after its header leaves the new version number in
    front of the old payload: when the value cannot be encoded, or the memory
    cannot grow for it, [write] returns an error and a later [read] decodes the old
    bytes as the new type. *)
Theorem failed_write_mixes_versions {T} (v : Versioned T) n x st :
  memory_ok st -> st <> [] -> stored_version st <= n -> version v = Ret n -> 0 <= n < 2 ^ 32 ->
  (exists e, idl_serialize (codec_of v) x = Err e) \/
  (exists p pieces, idl_serialize (codec_of v) x = Ok (p :: pieces) /\
     zlength p < 2 ^ 32 - Testing.PAGE /\
     zlength st < 4 + zlength p /\ umax 32 <= zlength st + growth (zlength p)) ->
  exists e, write v x st = Ret (Err (Candid e), to_le_bytes 4 n ++ drop 4 st) /\
    forall fuel, read fuel v (to_le_bytes 4 n ++ drop 4 st) =
                 recursive_upgrade fuel v n (drop 4 st).
Proof.
  intros Hst Hne Hold Hn Hn32 Hfail. rewrite (write_to_versioned v n) by (done || by right).
  pose proof (not_empty_size st Hst Hne) as H4.
  destruct (header_written n st Hst Hne) as (w & Hw & Hok & Ho & Hlen).
  assert (forall fuel, read fuel v (to_le_bytes 4 n ++ drop 4 st) =
                 recursive_upgrade fuel v n (drop 4 st)) as Hread.
  { intros fuel. rewrite (read_ok v n) by (done || apply Hok). unfold stored_version.
    rewrite (take_app_length' _ _ 4), (drop_app_length' _ _ 4) by done.
    by rewrite from_to_le_bytes, Z.ltb_irrefl by done. }
  unfold write_versioned. rewrite Hw. cbn [mbind outcome_bind].
  destruct Hfail as [[e He]|(p & pieces & Hp & Hlt & Hfit & Hfull)].
  - rewrite He. exists e. done.
  - rewrite Hp. cbn [serialize]. destruct p as [|b p].
    { assert (zlength (@nil Z) = 0) by done. lia. }
    pose proof (write_ok hosted (b :: p) w _ Hok Hlt) as Hw'.
    rewrite decide_False in Hw' by (unfold room; cbn [fst snd]; lia).
    unfold Testing.write_all, Testing.io_write. rewrite Hw'. cbn [mbind outcome_bind map_err result_map].
    eexists. split; [reflexivity|done].
Qed.
End stable_laws.

(** ** The state per canister id *)

Section ic_storage_laws.
Context {S : Type} (default_state : S).
Import IcStorage.
Implicit Types (s : IcStorage.t S).

(** Every id has a cell of its own. *)
Record ic_storage_ok s : Prop := {
  ic_cells : forall id l, store s !! id = Some l -> (l < length (cells s))%nat;
  ic_separate : forall id id' l, store s !! id = Some l -> store s !! id' = Some l -> id = id';
}.

(** What [get] gives access to for [id]. *)
Definition state_of (id : list Z) s : option S :=
  match store s !! id with Some l => borrow l s | None => Some default_state end.

Lemma initial_ok : ic_storage_ok initial.
Proof. split; cbn; intros *; by rewrite lookup_empty. Qed.

Lemma get_effect id s :
  ic_storage_ok s ->
  let '(l, s') := get default_state id s in
  ic_storage_ok s' /\ store s' !! id = Some l /\
  (forall id', state_of id' s' = state_of id' s).
Proof.
  intros [Hcells Hsep]. unfold get. destruct (store s !! id) as [l|] eqn:Hid; [done|].
  cbn. split_and!.
  - split; cbn; intros *; rewrite ?lookup_insert_Some; rewrite ?length_app; cbn.
    + intros [[_ <-]|[_ Hl%Hcells]]; lia.
    + intros [[<- <-]|[_ Hl]] [[<- Hl']|[_ Hl']]; eauto.
      * apply Hcells in Hl'. lia.
      * apply Hcells in Hl. lia.
  - by rewrite lookup_insert_eq.
  - intros id'. unfold state_of, borrow. cbn. destruct (decide (id = id')) as [<-|Hne].
    + rewrite lookup_insert_eq, Hid. by rewrite list_lookup_middle.
    + rewrite lookup_insert_ne by done. destruct (store s !! id') as [l|] eqn:Hl; [|done].
      apply lookup_app_l. by eapply Hcells.
Qed.

Lemma get_found id l s : store s !! id = Some l -> get default_state id s = (l, s).
Proof. intros Hl. unfold get. by rewrite Hl. Qed.

(** Cells once allocated stay. *)
Lemma get_store id s :
  let '(l, s') := get default_state id s in
  store s' !! id = Some l /\
  (forall id' l', store s !! id' = Some l' -> store s' !! id' = Some l').
Proof.
  unfold get. destruct (store s !! id) as [l|] eqn:Hid; [done|]. cbn. split.
  - by rewrite lookup_insert_eq.
  - intros id' l' Hl'. rewrite lookup_insert_ne; [done|]. intros <-. congruence.
Qed.

(** Every [get] of an id gives the same cell, which holds the default state
    until it is written; writing through it changes what later calls for that id
    read, and nothing that calls for other ids read. *)
Theorem ic_storage_cell_per_id id f s :
  ic_storage_ok s ->
  let '(l, s') := get default_state id s in
  ic_storage_ok s' /\ get default_state id s' = (l, s') /\ borrow l s' = state_of id s /\
  (forall id', state_of id' s' = state_of id' s) /\
  ic_storage_ok (borrow_mut f l s') /\
  get default_state id (borrow_mut f l s') = (l, borrow_mut f l s') /\
  (forall id', state_of id' (borrow_mut f l s') =
     if decide (id' = id) then f <$> state_of id s else state_of id' s).
Proof.
  intros Hs. pose proof (get_effect id s Hs) as Hget.
  destruct (get default_state id s) as [l s']. destruct Hget as (Hok & Hl & Hst).
  assert (borrow l s' = state_of id s) as Hb by (rewrite <- Hst; unfold state_of; by rewrite Hl).
  split_and!; [done| |done|done| | |].
  - unfold get. by rewrite Hl.
  - destruct Hok as [Hc Hsep]. split; cbn; [|done]. intros *. rewrite length_alter. apply Hc.
  - unfold get. cbn. by rewrite Hl.
  - intros id'. rewrite <- !Hst. unfold state_of, borrow in *. cbn. case_decide as Hid.
    + subst. rewrite !Hl. by rewrite list_lookup_alter_eq.
    + destruct (store s' !! id') as [l'|] eqn:Hl'; [|done].
      apply list_lookup_alter_ne. intros ->. apply Hid. by eapply (ic_separate s' Hok).
Qed.

(** Writing through the cell of an id. *)
Lemma borrow_mut_state id l f s :
  ic_storage_ok s -> store s !! id = Some l ->
  ic_storage_ok (borrow_mut f l s) /\ borrow l s = state_of id s /\
  (forall id', state_of id' (borrow_mut f l s) =
     if decide (id' = id) then f <$> state_of id s else state_of id' s).
Proof.
  intros Hs Hl. pose proof (ic_storage_cell_per_id id f s Hs) as H. unfold get in H.
  rewrite Hl in H. by destruct H as (_ & _ & ? & _ & ? & _ & ?).
Qed.
End ic_storage_laws.

(** ** Concrete runs *)

#[local] Instance test_candid : CandidLib := {| CandidError := string; io_error e := e |}.

Definition number_codec : Codec Z := mk_codec _ Z
  (fun x => if 0 <=? x then Ok [[68; 73; 68; 76]; [x]] else Err "negative"%string)
  (fun bs => match bs with 68 :: 73 :: 68 :: 76 :: x :: _ => Ok x | _ => Err "magic"%string end).

Definition empty_codec : Codec unit := mk_codec _ unit
  (fun _ => Ok [[68; 73; 68; 76]])
  (fun bs => match bs with 68 :: 73 :: 68 :: 76 :: _ => Ok tt | _ => Err "magic"%string end).

Lemma number_codec_ok : codec_ok number_codec.
Proof. intros x pieces rest. cbn. destruct (0 <=? x); [|done]. intros [= <-]. done. Qed.

Definition first_version : Versioned Z := VNext VUnit None (fun _ => Ret 0) number_codec.
Definition second_version : Versioned Z :=
  VNext first_version None (fun x => Ret (x + 5)) number_codec.
(** Version numbers 0, 1, 3. *)
Definition third_version : Versioned Z :=
  VNext first_version (Some 3) (fun x => Ret (x + 5)) number_codec.

Definition memory_with (n : Z) (payload : bytes) : bytes :=
  to_le_bytes 4 n ++ payload ++ replicate (Z.to_nat 65532 - length payload) 0.

Lemma memory_with_ok n payload : (length payload <= 100)%nat -> memory_ok (memory_with n payload).
Proof.
  intros Hp. unfold memory_ok, memory_with. assert (zlength (to_le_bytes 4 n ++ payload ++
    replicate (Z.to_nat 65532 - length payload) 0) = 65536) as ->.
  { unfold zlength. rewrite !length_app, to_le_bytes_length, length_replicate. lia. }
  split; [by exists 1|done].
Qed.

#[local] Existing Instance x64_debug.

Lemma host_64 : usize_bits = 64.
Proof. done. Qed.

Lemma write_then_read_upgraded_witness :
  exists st', write empty_codec first_version 7 [] = Ret (Ok tt, st') /\ memory_ok st' /\
    stored_version st' = 1 /\ read empty_codec 3 second_version st' = Some (Ret (Ok 12)).
Proof.
  refine (write_then_read_upgraded empty_codec host_64 first_version second_version _ 1 7
    [[68; 73; 68; 76]; [7]] [] _ _ number_codec_ok eq_refl
    (upgrades_next _ _ _ _ _ _ (upgrades_refl _)) _ eq_refl _ _);
    [split; [by exists 0|done]|by left| |lia|by vm_compute].
  split; [split; [done|]|]; do 2 eexists; split_and!; try reflexivity; lia.
Defined.

Lemma read_ends_iff_witness :
  (forall fuel, read empty_codec fuel third_version (memory_with 2 []) = None) /\
  2 <= 3.
Proof.
  split; [|lia]. apply (read_ends_iff empty_codec host_64 third_version 3).
  - by apply memory_with_ok; cbn; lia.
  - done.
  - apply Forall_app; split; [apply to_le_bytes_bytes|].
    apply Forall_app; split; [constructor|]. apply Forall_replicate. by unfold is_byte.
  - split; [split; [done|]|]; do 2 eexists; split_and!; try reflexivity; lia.
  - done.
  - by vm_compute.
  - assert (stored_version (memory_with 2 []) = 2) as -> by by vm_compute.
    change (versions third_version) with [Ret 3; Ret 1; Ret 0].
    rewrite !elem_of_cons, elem_of_nil. naive_solver.
Defined.

Lemma older_versions_refused_witness :
  read empty_codec 3 first_version (memory_with 2 []) = Some (Ret (Err AttemptedDowngrade)) /\
  write empty_codec first_version 7 (memory_with 2 []) =
    Ret (Err ExistingVersionIsNewer, memory_with 2 []).
Proof.
  refine (older_versions_refused empty_codec host_64 first_version 1 7 (memory_with 2 []) 3
    (memory_with_ok 2 [] _) eq_refl (or_intror _)); [cbn; lia|by vm_compute].
Defined.

Lemma failed_write_mixes_versions_witness :
  exists e, write empty_codec second_version (-1) (memory_with 1 [68; 73; 68; 76; 7]) =
      Ret (Err (Candid e), to_le_bytes 4 2 ++ drop 4 (memory_with 1 [68; 73; 68; 76; 7])) /\
    forall fuel, read empty_codec fuel second_version
        (to_le_bytes 4 2 ++ drop 4 (memory_with 1 [68; 73; 68; 76; 7])) =
      recursive_upgrade empty_codec fuel second_version 2
        (drop 4 (memory_with 1 [68; 73; 68; 76; 7])).
Proof.
  apply (failed_write_mixes_versions empty_codec host_64 second_version 2 (-1)).
  - by apply memory_with_ok; cbn; lia.
  - done.
  - by vm_compute.
  - done.
  - lia.
  - left. by eexists.
Defined.

Lemma ic_storage_cell_per_id_witness :
  let '(l, s') := IcStorage.get 0 [1] IcStorage.initial in
  IcStorage.get 0 [1] s' = (l, s').
Proof. exact (proj1 (proj2 (ic_storage_cell_per_id 0 [1] Z.succ _ initial_ok))). Defined.
