(* ===== verification/MemMap.v ===== *)
(** * Memory-mapped files

    [ic-stable-structures/src/memory_mapped_files/{error,memory_mapped_file,memory}.rs]
    and the trait of [memory.rs]: a stable memory outside of a canister, kept in a
    file that is mapped into the address space.  The file system is the part of
    [std::fs] the code uses.  A shared mapping of a file shows the bytes of the
    file, so the model has one copy of them, in the file system. *)

From S2P Require Import Prelude.
Local Open Scope Z_scope.

(** ** Paths and files (std) *)

Inductive Component :=
  | RootDir
  | CurDir
  | ParentDir
  | Normal (name : list Z).

#[export] Instance Component_eq_dec : EqDecision Component.
Proof. solve_decision. Defined.

Definition component_key (c : Component) : Z * list Z :=
  match c with
  | RootDir => (0, []) | CurDir => (1, []) | ParentDir => (2, []) | Normal s => (3, s)
  end.

Definition component_of_key (k : Z * list Z) : Component :=
  if k.1 =? 0 then RootDir else if k.1 =? 1 then CurDir
  else if k.1 =? 2 then ParentDir else Normal k.2.

#[export] Instance component_key_inj : Inj (=) (=) component_key.
Proof. intros [] []; cbn; intros [=]; by subst. Qed.

#[export] Program Instance Component_countable : Countable Component :=
  inj_countable' component_key component_of_key _.
Next Obligation. by intros []. Qed.

#[export] Instance Component_ord : OrdKey Component := inj_ord component_key.

(** A path is compared by its components; [.] occurs only in front. *)
Definition Path : Type := list Component.

Definition is_absolute (p : Path) : bool := bool_decide (head p = Some RootDir).

(** [Path::join]: an absolute path replaces the base. *)
Definition join (base p : Path) : Path :=
  if is_absolute p then p
  else match base with
       | [] => p
       | _ => base ++ filter (fun c => c <> CurDir) p
       end.

Definition file_name (p : Path) : option (list Z) :=
  match last p with Some (Normal s) => Some s | _ => None end.

Inductive IoError := PermissionDenied | NotFound | StorageFull | MapFailed.

(** Files by path, the paths that cannot be opened, and the largest possible file. *)
Record Fs := mk_fs {
  files : gmap Path (list Z);
  denied : gset Path;
  max_file : Z;
}.

Definition set_file (p : Path) (bs : list Z) (fs : Fs) : Fs :=
  mk_fs (<[p := bs]> (files fs)) (denied fs) (max_file fs).

(** [remove_file], whose result the code ignores. *)
Definition remove_file (p : Path) (fs : Fs) : Fs :=
  if decide (p ∈ denied fs) then fs
  else mk_fs (delete p (files fs)) (denied fs) (max_file fs).

(** [OpenOptions::new().create(true).append(true).read(true).open(p)]. *)
Definition open_append (p : Path) (fs : Fs) : result unit IoError * Fs :=
  if decide (p ∈ denied fs) then (Err PermissionDenied, fs)
  else (Ok tt, match files fs !! p with Some _ => fs | None => set_file p [] fs end).

Definition file_len (p : Path) (fs : Fs) : Z :=
  match files fs !! p with Some bs => zlength bs | None => 0 end.

(** [File::set_len]: cuts the file or extends it by zeros. *)
Definition set_len (p : Path) (n : Z) (fs : Fs) : result unit IoError * Fs :=
  if max_file fs <? n then (Err StorageFull, fs)
  else
    let bs := default [] (files fs !! p) in
    (Ok tt, set_file p (take (Z.to_nat n) bs ++ replicate (Z.to_nat n - length bs) 0) fs).

(** [std::fs::copy], which empties a file that is copied to its own path. *)
Definition copy (src dst : Path) (fs : Fs) : result unit IoError * Fs :=
  if decide (src ∈ denied fs \/ dst ∈ denied fs) then (Err PermissionDenied, fs)
  else match files fs !! src with
       | None => (Err NotFound, fs)
       | Some bs => (Ok tt, set_file dst (if decide (src = dst) then [] else bs) fs)
       end.

(** ** error.rs *)

Inductive MemMapError :=
  | FileOpenError (e : IoError)
  | OutOfAddressSpace (claimed limit : Z)
  | AccessOutOfBounds
  | SizeShouldBePageSizeMultiple
  | InvalidSourceFileName.

Notation MemMapResult A := (result A MemMapError).

(** ** memory_mapped_file.rs *)

Module MemoryMappedFile.
Section file.
Context `{Target}.
(** Whether the platform can map so many bytes ([memmap2]). *)
Variable can_map : Z -> bool.

Definition PAGE_SIZE : Z := 4096.

Record t := mk {
  path : Path;
  length : Z;
  max_length : Z;
  is_persistent : bool;
}.

(** The file itself is found under its path: as the code requires, nobody else
    touches it. *)
Definition new (path : Path) (max_length : Z) (is_persistent : bool) (fs : Fs) :
    MemMapResult t * Fs :=
  let fs := if is_persistent then fs else remove_file path fs in
  let '(r, fs) := open_append path fs in
  match r with
  | Err e => (Err (FileOpenError e), fs)
  | Ok _ =>
      let length := file_len path fs mod 2 ^ usize_bits in
      if can_map max_length then (Ok (mk path length max_length is_persistent), fs)
      else (Err (FileOpenError MapFailed), fs)
  end.

Definition len (f : t) : Z := length f.

Definition resize (new_length : Z) (f : t) (fs : Fs) : MemMapResult Z * (t * Fs) :=
  if negb (new_length mod PAGE_SIZE =? 0) then (Err SizeShouldBePageSizeMultiple, (f, fs))
  else if new_length <? length f then (Ok (length f), (f, fs))
  else if max_length f <? new_length then
    (Err (OutOfAddressSpace new_length (max_length f)), (f, fs))
  else
    let '(r, fs) := set_len (path f) new_length fs in
    match r with
    | Err e => (Err (FileOpenError e), (f, fs))
    | Ok _ => (Ok new_length, (mk (path f) new_length (max_length f) (is_persistent f), fs))
    end.

(** [mapping[a..b]]: the mapping has [max_length] bytes, and an access behind the
    end of the file kills the process. *)
Definition in_mapping (b : Z) (f : t) : bool := b <=? max_length f.

Definition content (f : t) (fs : Fs) : list Z := default [] (files fs !! path f).

Definition read (offset n : Z) (f : t) (fs : Fs) : outcome (MemMapResult (list Z)) :=
  e ← u_add usize_bits offset n;
  if len f <? e then Ret (Err AccessOutOfBounds)
  else if in_mapping e f then Ok <$> slice (content f fs) offset e else Panic.

(** [mapping[offset..offset + bs.len()].copy_from_slice(bs)] *)
Definition store (offset e : Z) (bs : list Z) (f : t) (fs : Fs) : outcome Fs :=
  if in_mapping e f then
    bs' ← slice_put (content f fs) offset e bs; Ret (set_file (path f) bs' fs)
  else Panic.

Definition write (offset : Z) (src : list Z) (f : t) (fs : Fs) :
    outcome (MemMapResult unit * Fs) :=
  e ← u_add usize_bits offset (zlength src);
  if len f <? e then Ret (Err AccessOutOfBounds, fs)
  else fs ← store offset e src f fs; Ret (Ok tt, fs).

Definition zero_range (offset count : Z) (f : t) (fs : Fs) : outcome (MemMapResult unit * Fs) :=
  e ← u_add usize_bits offset count;
  if length f <? e then Ret (Err AccessOutOfBounds, fs)
  else fs ← store offset e (replicate (Z.to_nat count) 0) f fs; Ret (Ok tt, fs).

(** The file already shows what was written to the mapping; flushing makes it
    survive a crash of the machine, which the model does not have. *)
Definition flush (f : t) : MemMapResult unit := Ok tt.

Definition save_copy (to : Path) (f : t) (fs : Fs) : MemMapResult unit * Fs :=
  match flush f with
  | Err e => (Err e, fs)
  | Ok _ => let '(r, fs) := copy (path f) to fs in (map_err FileOpenError r, fs)
  end.

Definition set_is_persistent (b : bool) (f : t) : t := mk (path f) (length f) (max_length f) b.

Definition drop (f : t) (fs : Fs) : outcome Fs :=
  if is_persistent f then _ ← expect_ok (flush f); Ret fs
  else Ret (remove_file (path f) fs).
End file.
End MemoryMappedFile.

(** ** memory.rs *)

Section memory.
Context `{Target}.
Variable can_map : Z -> bool.

Definition WASM_PAGE_SIZE_IN_BYTES : Z := 65536.

Definition DEFAULT_MEM_MAP_RESERVED_LENGTH : Z := if usize_bits =? 32 then 2 ^ 20 else 2 ^ 40.

(** A [MemoryMappedFileMemory] is a handle of a shared file; the files are kept by
    the manager under their path, which serves as the handle. *)
Record MemoryMappedFileMemoryManager := mk_manager {
  base_path : Path;
  manager_persistent : bool;
  created_memory_resources : gmap Path MemoryMappedFile.t;
  max_memory_length : Z;
}.

Definition manager_new (base_path : Path) (is_persistent : bool) : MemoryMappedFileMemoryManager :=
  mk_manager base_path is_persistent ∅ DEFAULT_MEM_MAP_RESERVED_LENGTH.

Definition with_max_memory_size_per_id (n : Z) (m : MemoryMappedFileMemoryManager) :
    MemoryMappedFileMemoryManager :=
  mk_manager (base_path m) (manager_persistent m) (created_memory_resources m) n.

Definition set_resource (p : Path) (f : MemoryMappedFile.t) (m : MemoryMappedFileMemoryManager) :
    MemoryMappedFileMemoryManager :=
  mk_manager (base_path m) (manager_persistent m) (<[p := f]> (created_memory_resources m))
    (max_memory_length m).

Definition world : Type := MemoryMappedFileMemoryManager * Fs.

Definition get_impl (id : Path) (w : world) : outcome (Path * world) :=
  let '(m, fs) := w in
  let file_path := join (base_path m) id in
  match created_memory_resources m !! file_path with
  | Some _ => Ret (file_path, w)
  | None =>
      let '(r, fs) := MemoryMappedFile.new can_map file_path (max_memory_length m)
                        (manager_persistent m) fs in
      f ← expect_ok r; Ret (file_path, (set_resource file_path f m, fs))
  end.

(** The decimal digits of an id of type [u8]. *)
Definition u8_to_string (id : Z) : list Z :=
  (if 100 <=? id then [48 + id / 100] else []) ++
  (if 10 <=? id then [48 + id / 10 mod 10] else []) ++ [48 + id mod 10].

Definition get_str (id : Path) : world -> outcome (Path * world) := get_impl id.
Definition get_u8 (id : Z) : world -> outcome (Path * world) :=
  get_impl [Normal (u8_to_string id)].

(** The shared file behind a handle. *)
Definition with_file {A} (h : Path) (k : MemoryMappedFile.t -> Fs -> outcome A) (w : world) :
    outcome A :=
  f ← expect (created_memory_resources w.1 !! h); k f w.2.

Definition set_is_persistent (h : Path) (b : bool) (w : world) : outcome world :=
  with_file h (fun f fs => Ret (set_resource h (MemoryMappedFile.set_is_persistent b f) w.1, fs)) w.

Definition mem_size (h : Path) (w : world) : outcome Z :=
  with_file h (fun f _ => Ret (MemoryMappedFile.len f / WASM_PAGE_SIZE_IN_BYTES)) w.

Definition as_i64 (x : Z) : Z := if x <? 2 ^ 63 then x else x - 2 ^ 64.

Definition mem_grow (pages : Z) (h : Path) (w : world) : outcome (Z * world) :=
  with_file h (fun memory fs =>
    let old_size := MemoryMappedFile.len memory in
    bytes ← u_mul 64 pages WASM_PAGE_SIZE_IN_BYTES;
    let bytes_to_add := bytes mod 2 ^ usize_bits in
    n ← u_add usize_bits old_size bytes_to_add;
    let '(r, (memory, fs)) := MemoryMappedFile.resize n memory fs in
    new_length ← expect_ok r;
    '(r, fs) ← MemoryMappedFile.zero_range old_size bytes_to_add memory fs;
    _ ← expect_ok r;
    Ret (as_i64 (new_length / WASM_PAGE_SIZE_IN_BYTES), (set_resource h memory w.1, fs))) w.

Definition as_usize (x : Z) : Z := x mod 2 ^ usize_bits.

Definition mem_read (offset n : Z) (h : Path) (w : world) : outcome (list Z) :=
  with_file h (fun f fs => r ← MemoryMappedFile.read (as_usize offset) n f fs; expect_ok r) w.

Definition mem_write (offset : Z) (src : list Z) (h : Path) (w : world) : outcome world :=
  with_file h (fun f fs =>
    '(r, fs) ← MemoryMappedFile.write (as_usize offset) src f fs;
    _ ← expect_ok r; Ret (w.1, fs)) w.

(** The loop of [save_copies_to], which ends at the first error. *)
Fixpoint save_copies (to : Path) (locks : list (Path * MemoryMappedFile.t)) (fs : Fs) :
    MemMapResult unit * Fs :=
  match locks with
  | [] => (Ok tt, fs)
  | (file_path, memory) :: locks =>
      match file_name file_path with
      | None => (Err InvalidSourceFileName, fs)
      | Some name =>
          let '(r, fs) := MemoryMappedFile.save_copy (join to [Normal name]) memory fs in
          match r with Err e => (Err e, fs) | Ok _ => save_copies to locks fs end
      end
  end.

Definition save_copies_to (to : Path) (w : world) : MemMapResult unit * Fs :=
  save_copies to (sorted_entries (created_memory_resources w.1)) w.2.

(** The manager and all its memories go out of scope. *)
Definition drop_all (w : world) : outcome Fs :=
  foldl (fun fs f => fs ← fs; MemoryMappedFile.drop f fs) (Ret w.2)
    (sorted_entries (created_memory_resources w.1)).*2.
End memory.

(** ** The abstract memories

    What the manager promises: a disk of byte strings, of which some are opened as
    memories of at most [cap] bytes; growing, reading and writing are exact, and
    whatever does not fit panics. *)

Inductive mem_op :=
  | MGet (id : Path)
  | MSize (h : Path)
  | MGrow (pages : Z) (h : Path)
  | MRead (offset n : Z) (h : Path)
  | MWrite (offset : Z) (src : list Z) (h : Path)
  | MSetPersistent (h : Path) (b : bool).

Inductive mem_answer :=
  | AHandle (h : Path)
  | ANumber (n : Z)
  | ABytes (bs : list Z)
  | ADone.

Section memories.
Context `{Target}.
Variable can_map : Z -> bool.

Definition mem_step (op : mem_op) (w : world) : outcome (mem_answer * world) :=
  match op with
  | MGet id => '(h, w) ← get_impl can_map id w; Ret (AHandle h, w)
  | MSize h => n ← mem_size h w; Ret (ANumber n, w)
  | MGrow pages h => '(n, w) ← mem_grow pages h w; Ret (ANumber n, w)
  | MRead offset n h => bs ← mem_read offset n h w; Ret (ABytes bs, w)
  | MWrite offset src h => w ← mem_write offset src h w; Ret (ADone, w)
  | MSetPersistent h b => w ← set_is_persistent h b w; Ret (ADone, w)
  end.

Fixpoint mem_run (ops : list mem_op) (w : world) : outcome (list mem_answer * world) :=
  match ops with
  | [] => Ret ([], w)
  | op :: ops => '(a, w) ← mem_step op w; '(l, w) ← mem_run ops w; Ret (a :: l, w)
  end.

Variables (base : Path) (persistent : bool) (cap limit : Z) (forbidden : gset Path).

Record disk := mk_disk { opened : gset Path; contents : gmap Path (list Z) }.

Definition disk_set (h : Path) (bs : list Z) (d : disk) : disk :=
  mk_disk ({[ h ]} ∪ opened d) (<[h := bs]> (contents d)).

(** The content of an opened memory. *)
Definition disk_mem (h : Path) (d : disk) : outcome (list Z) :=
  if decide (h ∈ opened d) then expect (contents d !! h) else Panic.

(** Growth by whole Wasm pages, up to the reserved size and the size of the disk;
    the answer is the new size in pages. *)
Definition disk_grow (pages : Z) (h : Path) (d : disk) : outcome (mem_answer * disk) :=
  bs ← disk_mem h d;
  let n := zlength bs + pages * 65536 in
  if (n mod 4096 =? 0) && (n <=? cap) && (n <=? limit) then
    Ret (ANumber (n / 65536), disk_set h (bs ++ replicate (Z.to_nat (pages * 65536)) 0) d)
  else Panic.

Definition disk_step (op : mem_op) (d : disk) : outcome (mem_answer * disk) :=
  match op with
  | MGet id =>
      let h := join base id in
      if decide (h ∈ opened d) then Ret (AHandle h, d)
      else if decide (h ∈ forbidden) then Panic
      else if can_map cap then
        Ret (AHandle h, disk_set h (if persistent then default [] (contents d !! h) else []) d)
      else Panic
  | MSize h => bs ← disk_mem h d; Ret (ANumber (zlength bs / 65536), d)
  | MGrow pages h => disk_grow pages h d
  | MRead offset n h =>
      bs ← disk_mem h d;
      if offset + n <=? cap then r ← slice bs offset (offset + n); Ret (ABytes r, d) else Panic
  | MWrite offset src h =>
      bs ← disk_mem h d;
      if offset + zlength src <=? cap then
        bs ← slice_put bs offset (offset + zlength src) src; Ret (ADone, disk_set h bs d)
      else Panic
  | MSetPersistent h _ => _ ← disk_mem h d; Ret (ADone, d)
  end.

Fixpoint disk_run (ops : list mem_op) (d : disk) : outcome (list mem_answer * disk) :=
  match ops with
  | [] => Ret ([], d)
  | op :: ops => '(a, d) ← disk_step op d; '(l, d) ← disk_run ops d; Ret (a :: l, d)
  end.

(** Arguments of their Rust types: a slice has at most [isize::MAX] bytes. *)
Definition op_ok (op : mem_op) : Prop :=
  match op with
  | MGrow pages _ => 0 <= pages < 2 ^ 64
  | MRead offset n _ => 0 <= offset < 2 ^ 64 /\ 0 <= n < 2 ^ 63
  | MWrite offset src _ => 0 <= offset < 2 ^ 64 /\ zlength src < 2 ^ 63
  | _ => True
  end.

(** The bytes of a growth are counted in 64 bits: without overflow checks a growth by 2^48
    pages or more is one by the pages modulo 2^48. *)
Definition as_executed (op : mem_op) : mem_op :=
  match op with
  | MGrow pages h => MGrow (if overflow_checks then pages else pages mod 2 ^ 48) h
  | op => op
  end.

Hypothesis hosted : usize_bits = 64.
Hypothesis cap_ok : 0 <= cap < 2 ^ 62.
Hypothesis limit_ok : 0 <= limit < 2 ^ 62.

(** The world is in the state [d] of the abstract memories. *)
Record represents (w : world) (d : disk) : Prop := {
  rep_base : base_path w.1 = base;
  rep_persistent : manager_persistent w.1 = persistent;
  rep_cap : max_memory_length w.1 = cap;
  rep_denied : denied w.2 = forbidden;
  rep_limit : max_file w.2 = limit;
  rep_files : files w.2 = contents d;
  rep_small : forall h bs, contents d !! h = Some bs -> zlength bs < 2 ^ 62;
  rep_opened : forall h, h ∈ opened d <-> is_Some (created_memory_resources w.1 !! h);
  rep_file : forall h f, created_memory_resources w.1 !! h = Some f ->
    MemoryMappedFile.path f = h /\ MemoryMappedFile.max_length f = cap /\
    exists bs, contents d !! h = Some bs /\ MemoryMappedFile.length f = zlength bs;
}.

(** Two computations that panic together, or answer the same and stay related. *)
Definition same_step (x : outcome (mem_answer * world)) (y : outcome (mem_answer * disk)) : Prop :=
  match x, y with
  | Ret (a, w), Ret (b, d) => a = b /\ represents w d
  | Panic, Panic => True
  | _, _ => False
  end.

(** A call through a handle reaches the file that the disk has for it. *)
Lemma with_file_disk {A} w d h (k : MemoryMappedFile.t -> Fs -> outcome A) (k' : list Z -> outcome A) :
  represents w d ->
  (forall f bs, created_memory_resources w.1 !! h = Some f -> MemoryMappedFile.path f = h ->
     MemoryMappedFile.max_length f = cap -> contents d !! h = Some bs ->
     MemoryMappedFile.length f = zlength bs -> MemoryMappedFile.content f w.2 = bs ->
     zlength bs < 2 ^ 62 -> k f w.2 = k' bs) ->
  with_file h k w = (bs ← disk_mem h d; k' bs).
Proof.
  clear can_map cap_ok limit_ok.
  intros Hw Hk. unfold with_file, disk_mem.
  destruct (created_memory_resources w.1 !! h) as [f|] eqn:Hf.
  - rewrite decide_True by (apply (rep_opened w d Hw); by eexists).
    destruct (rep_file w d Hw h f Hf) as (Hp & Hmax & bs & Hbs & Hlen).
    rewrite Hbs. cbn. apply Hk; auto.
    + unfold MemoryMappedFile.content. by rewrite Hp, (rep_files w d Hw), Hbs.
    + by apply (rep_small w d Hw h).
  - rewrite decide_False; [done|]. rewrite (rep_opened w d Hw), Hf. by intros [??].
Qed.

Lemma represents_set m fs d h f bs :
  represents (m, fs) d -> MemoryMappedFile.path f = h -> MemoryMappedFile.max_length f = cap ->
  MemoryMappedFile.length f = zlength bs -> zlength bs < 2 ^ 62 ->
  represents (set_resource h f m, set_file h bs fs) (disk_set h bs d).
Proof.
  clear can_map cap_ok limit_ok.
  intros [] Hp Hmax Hlen Hsmall.
  cbn in rep_base0, rep_persistent0, rep_cap0, rep_denied0, rep_limit0, rep_files0, rep_opened0,
    rep_file0.
  split; cbn; auto.
  - congruence.
  - intros h' bs'. rewrite lookup_insert_Some. intros [[<- <-]|[_ Hb]]; eauto.
  - intros h'. rewrite elem_of_union, elem_of_singleton, rep_opened0.
    destruct (decide (h' = h)) as [->|Hne].
    + rewrite lookup_insert_eq. split; [by eexists|by left].
    + rewrite lookup_insert_ne by done. tauto.
  - intros h' f'. rewrite lookup_insert_Some. intros [[<- <-]|[Hne Hf]].
    + split_and!; [done..|]. exists bs. by rewrite lookup_insert_eq.
    + rewrite lookup_insert_ne by done. eauto.
Qed.

Lemma set_resource_id h f m :
  created_memory_resources m !! h = Some f -> set_resource h f m = m.
Proof. intros Hf. unfold set_resource. rewrite insert_id by done. by destruct m. Qed.

Lemma disk_set_id h bs d : h ∈ opened d -> contents d !! h = Some bs -> disk_set h bs d = d.
Proof.
  clear can_map cap_ok limit_ok hosted.
  intros Ho Hc. unfold disk_set. rewrite insert_id by done. destruct d. cbn in Ho |- *. f_equal. set_solver.
Qed.

(** The sum of an offset and a length, as the bounds checks see it. *)
Lemma checked_end offset n :
  0 <= offset < 2 ^ 64 -> 0 <= n < 2 ^ 63 ->
  (u_add usize_bits offset n = Ret (offset + n) /\ offset + n < 2 ^ 64) \/
  (2 ^ 64 <= offset + n /\ (u_add usize_bits offset n = Panic \/
     exists e, u_add usize_bits offset n = Ret e /\ e < offset)).
Proof.
  clear can_map cap_ok limit_ok.
  intros Ho Hn. rewrite hosted. destruct (Z_lt_dec (offset + n) (2 ^ 64)).
  - left. split; [apply u_add_ok; lia|done].
  - right. split; [lia|]. unfold u_add. rewrite arith_overflow by lia.
    destruct overflow_checks; [by left|right]. eexists. split; [done|].
    rewrite Zmod_eq_full by done. assert ((offset + n) / 2 ^ 64 = 1) as ->; [|plia].
    symmetry. apply Z.div_unique with (offset + n - 2 ^ 64); plia.
Qed.

Lemma as_usize_id x : 0 <= x < 2 ^ 64 -> as_usize x = x.
Proof.
  clear can_map cap_ok limit_ok. intros. unfold as_usize. rewrite hosted. by apply Z.mod_small. Qed.

Lemma read_disk offset n h w d :
  represents w d -> 0 <= offset < 2 ^ 64 -> 0 <= n < 2 ^ 63 ->
  mem_read offset n h w =
    (bs ← disk_mem h d;
     if offset + n <=? cap then slice bs offset (offset + n) else Panic).
Proof.
  clear can_map limit_ok.
  intros Hw Ho Hn. unfold mem_read. apply with_file_disk; [done|].
  intros f bs Hf Hp Hmax Hbs Hlen Hc Hs. rewrite as_usize_id by done.
  unfold MemoryMappedFile.read, MemoryMappedFile.in_mapping, MemoryMappedFile.len.
  rewrite Hc, Hlen, Hmax. pose proof (zlength_nonneg bs).
  destruct (checked_end offset n Ho Hn) as [[-> Hlt]|[Hge [->|(e & -> & He)]]]; cbn.
  - destruct (zlength bs <? offset + n) eqn:Hout.
    + apply Z.ltb_lt in Hout. rewrite slice_out by lia. by destruct (_ <=? cap).
    + destruct (offset + n <=? cap); [|done]. by destruct (slice bs offset (offset + n)).
  - rewrite (proj2 (Z.leb_gt _ _)) by plia. done.
  - rewrite (proj2 (Z.leb_gt (offset + n) cap)) by plia.
    destruct (zlength bs <? e); [done|]. destruct (e <=? cap); [|done].
    by rewrite slice_out by lia.
Qed.

Lemma write_disk offset src h w d :
  represents w d -> 0 <= offset < 2 ^ 64 -> zlength src < 2 ^ 63 ->
  mem_write offset src h w =
    (bs ← disk_mem h d;
     if offset + zlength src <=? cap then
       bs ← slice_put bs offset (offset + zlength src) src; Ret (w.1, set_file h bs w.2)
     else Panic).
Proof.
  clear can_map limit_ok.
  intros Hw Ho Hn. unfold mem_write. apply with_file_disk; [done|].
  intros f bs Hf Hp Hmax Hbs Hlen Hc Hs. rewrite as_usize_id by done.
  unfold MemoryMappedFile.write, MemoryMappedFile.store, MemoryMappedFile.in_mapping,
    MemoryMappedFile.len. rewrite Hc, Hlen, Hmax, Hp. pose proof (zlength_nonneg bs).
  destruct (checked_end offset (zlength src)) as [[-> Hlt]|[Hge [->|(e & -> & He)]]];
    [done|split; [apply zlength_nonneg|done]|..]; cbn.
  - destruct (zlength bs <? offset + zlength src) eqn:Hout.
    + apply Z.ltb_lt in Hout. rewrite slice_put_out by lia. by destruct (_ <=? cap).
    + destruct (offset + zlength src <=? cap); [|done]. by destruct (slice_put bs _ _ src).
  - rewrite (proj2 (Z.leb_gt _ _)) by plia. done.
  - rewrite (proj2 (Z.leb_gt (offset + zlength src) cap)) by plia.
    destruct (zlength bs <? e); [done|]. destruct (e <=? cap); [|done].
    by rewrite slice_put_out by lia.
Qed.

Lemma set_len_extends bs n :
  zlength bs <= n ->
  take (Z.to_nat n) bs ++ replicate (Z.to_nat n - length bs) 0 =
  bs ++ replicate (Z.to_nat (n - zlength bs)) 0.
Proof.
  unfold zlength. intros. rewrite take_ge by lia. do 2 f_equal. lia.
Qed.

Lemma set_file_twice p bs bs' fs : set_file p bs (set_file p bs' fs) = set_file p bs fs.
Proof. unfold set_file. cbn. by rewrite insert_insert_eq. Qed.

(** Growing a file by [k] bytes and zeroing them. *)
Lemma resize_zero f fs bs k :
  MemoryMappedFile.content f fs = bs -> MemoryMappedFile.length f = zlength bs ->
  MemoryMappedFile.max_length f = cap -> max_file fs = limit -> zlength bs < 2 ^ 62 ->
  0 <= k < 2 ^ 62 ->
  let n := zlength bs + k in
  let f' := MemoryMappedFile.mk (MemoryMappedFile.path f) n cap (MemoryMappedFile.is_persistent f) in
  let fs' := set_file (MemoryMappedFile.path f) (bs ++ replicate (Z.to_nat k) 0) fs in
  if (n mod 4096 =? 0) && (n <=? cap) && (n <=? limit) then
    MemoryMappedFile.resize n f fs = (Ok n, (f', fs')) /\
    MemoryMappedFile.zero_range (zlength bs) k f' fs' = Ret (Ok tt, fs')
  else exists e p, MemoryMappedFile.resize n f fs = (Err e, p).
Proof.
  clear can_map.
  intros Hc Hl Hmax Hlim Hs Hk n f' fs'. pose proof (zlength_nonneg bs).
  unfold MemoryMappedFile.resize, MemoryMappedFile.PAGE_SIZE.
  destruct (n mod 4096 =? 0); cbn [negb andb]; [|by do 2 eexists].
  rewrite Hl, (proj2 (Z.ltb_ge n (zlength bs))), Hmax by lia.
  destruct (n <=? cap) eqn:Hcap; cbn [andb]; [|rewrite (proj2 (Z.ltb_lt _ _)) by lia; by do 2 eexists].
  rewrite (proj2 (Z.ltb_ge cap n)) by lia. unfold set_len. rewrite Hlim.
  destruct (n <=? limit) eqn:Hn; [|rewrite (proj2 (Z.ltb_lt limit n)) by lia; by do 2 eexists].
  rewrite (proj2 (Z.ltb_ge limit n)) by lia. fold (MemoryMappedFile.content f fs).
  rewrite Hc, set_len_extends by lia. replace (n - zlength bs) with k by lia. split; [done|].
  unfold MemoryMappedFile.zero_range, MemoryMappedFile.store, MemoryMappedFile.in_mapping.
  rewrite u_add_ok by (rewrite hosted; plia). cbn [mbind outcome_bind].
  subst f' fs'. cbn [MemoryMappedFile.length MemoryMappedFile.max_length].
  fold n. rewrite (proj2 (Z.ltb_ge n _)), Hcap by lia. unfold MemoryMappedFile.content.
  cbn [MemoryMappedFile.path set_file files]. rewrite lookup_insert_eq. cbn [from_option id].
  unfold n in *. rewrite slice_put_ok by (rewrite ?zlength_app, ?zlength_replicate; lia).
  cbn [mbind outcome_bind]. rewrite take_app_length' by (unfold zlength in *; lia).
  rewrite (drop_ge (bs ++ _)), app_nil_r, set_file_twice; [done|].
  unfold zlength in *. rewrite length_app, length_replicate. lia.
Qed.

Lemma grow_disk pages h w d :
  represents w d -> 0 <= pages < 2 ^ 46 ->
  same_step ('(n, w) ← mem_grow pages h w; Ret (ANumber n, w)) (disk_grow pages h d).
Proof.
  clear can_map.
  intros Hw Hp. unfold mem_grow, with_file, disk_grow, disk_mem.
  destruct (created_memory_resources w.1 !! h) as [f|] eqn:Hf.
  2:{ rewrite decide_False; [done|]. rewrite (rep_opened w d Hw), Hf. by intros [??]. }
  rewrite decide_True by (apply (rep_opened w d Hw); by eexists).
  destruct (rep_file w d Hw h f Hf) as (Hpath & Hmax & bs & Hbs & Hlen).
  pose proof (rep_small w d Hw h bs Hbs) as Hs. pose proof (zlength_nonneg bs).
  rewrite Hbs. cbn [expect mbind outcome_bind]. unfold MemoryMappedFile.len.
  rewrite u_mul_ok by (unfold WASM_PAGE_SIZE_IN_BYTES; plia). cbn [mbind outcome_bind].
  unfold WASM_PAGE_SIZE_IN_BYTES. rewrite hosted, Z.mod_small by plia. rewrite <- hosted.
  rewrite Hlen, u_add_ok by (rewrite hosted; plia). cbn [mbind outcome_bind].
  pose proof (resize_zero f w.2 bs (pages * 65536)) as Hr. cbv zeta in Hr.
  specialize (Hr ltac:(unfold MemoryMappedFile.content; by rewrite Hpath, (rep_files w d Hw), Hbs)
    Hlen Hmax (rep_limit w d Hw) Hs ltac:(plia)).
  destruct (_ && _) eqn:Hc.
  - destruct Hr as [-> Hz]. cbn [expect_ok mbind outcome_bind]. rewrite Hz.
    cbn [expect_ok mbind outcome_bind same_step].
    apply andb_true_iff in Hc as [[_ Hcap%Z.leb_le]%andb_true_iff Hlim%Z.leb_le].
    split.
    + f_equal. unfold as_i64. rewrite (proj2 (Z.ltb_lt _ _)); [done|].
      apply Z.div_lt_upper_bound; plia.
    + rewrite Hpath. destruct w as [m fs]. apply represents_set; cbn; auto.
      * rewrite zlength_app, zlength_replicate. lia.
      * rewrite zlength_app, zlength_replicate. lia.
  - by destruct Hr as (e & p & ->); destruct p as [f' fs'].
Qed.

(** A growth by more than any memory can have panics, although its end may wrap around. *)
Lemma grow_disk_large pages h w d :
  represents w d -> 2 ^ 46 <= pages < 2 ^ 48 ->
  mem_grow pages h w = Panic /\ disk_grow pages h d = Panic.
Proof.
  clear can_map.
  intros Hw Hp. unfold mem_grow, with_file, disk_grow, disk_mem.
  destruct (created_memory_resources w.1 !! h) as [f|] eqn:Hf.
  2:{ rewrite decide_False; [done|]. rewrite (rep_opened w d Hw), Hf. by intros [??]. }
  rewrite decide_True by (apply (rep_opened w d Hw); by eexists).
  destruct (rep_file w d Hw h f Hf) as (Hpath & Hmax & bs & Hbs & Hlen).
  pose proof (rep_small w d Hw h bs Hbs) as Hs. pose proof (zlength_nonneg bs).
  rewrite Hbs. cbn [expect mbind outcome_bind]. split.
  2:{ rewrite (proj2 (Z.leb_gt (zlength bs + pages * 65536) cap)) by plia.
      by rewrite andb_false_r. }
  unfold MemoryMappedFile.len. rewrite u_mul_ok by (unfold WASM_PAGE_SIZE_IN_BYTES; plia).
  cbn [mbind outcome_bind]. unfold WASM_PAGE_SIZE_IN_BYTES.
  rewrite hosted, Z.mod_small by plia. rewrite Hlen. unfold u_add.
  destruct (decide (zlength bs + pages * 65536 < 2 ^ 64)) as [Hfit|Hfit].
  - rewrite arith_ok by plia. cbn [mbind outcome_bind]. unfold MemoryMappedFile.resize.
    destruct (negb _); [done|]. rewrite (proj2 (Z.ltb_ge _ _)) by plia.
    by rewrite (proj2 (Z.ltb_lt _ _)) by plia.
  - rewrite arith_overflow by plia. destruct overflow_checks eqn:Hov; [done|]. cbn [mbind outcome_bind].
    set (n := (zlength bs + pages * 65536) mod 2 ^ 64).
    assert (n = zlength bs + pages * 65536 - 2 ^ 64) as Hn.
    { symmetry. apply (Z.mod_unique _ _ 1); plia. }
    unfold MemoryMappedFile.resize. destruct (negb _); [done|].
    rewrite (proj2 (Z.ltb_lt _ _)) by plia. cbn [expect_ok mbind outcome_bind].
    unfold MemoryMappedFile.zero_range, u_add. rewrite hosted, arith_overflow, Hov by plia.
    cbn [mbind outcome_bind]. fold n. rewrite (proj2 (Z.ltb_ge _ _)) by plia.
    unfold MemoryMappedFile.store. destruct (MemoryMappedFile.in_mapping _ _); [|done].
    unfold MemoryMappedFile.path. by rewrite slice_put_out by plia.
Qed.

Lemma grow_wraps pages h w :
  overflow_checks = false -> mem_grow pages h w = mem_grow (pages mod 2 ^ 48) h w.
Proof.
  intros Hov. unfold mem_grow, with_file.
  destruct (created_memory_resources w.1 !! h) as [f|]; [|done]. cbn [expect mbind outcome_bind].
  assert (forall q, u_mul 64 q WASM_PAGE_SIZE_IN_BYTES = Ret (q * 65536 mod 2 ^ 64)) as Hmul.
  { intros q. unfold u_mul, arith, WASM_PAGE_SIZE_IN_BYTES.
    destruct (in_range 64 (q * 65536)) eqn:Hr; [|by rewrite Hov].
    apply in_range_true in Hr. by rewrite Z.mod_small. }
  rewrite !Hmul. assert (pages * 65536 mod 2 ^ 64 = pages mod 2 ^ 48 * 65536 mod 2 ^ 64) as ->; [|done].
  change (2 ^ 64) with (2 ^ 48 * 65536). rewrite !Z.mul_mod_distr_r by done. by rewrite Z.mod_mod.
Qed.

Lemma grow_executed pages h w d :
  represents w d -> 0 <= pages < 2 ^ 64 ->
  same_step ('(n, w) ← mem_grow pages h w; Ret (ANumber n, w))
    (disk_grow (if overflow_checks then pages else pages mod 2 ^ 48) h d).
Proof.
  clear can_map. intros Hw Hp.
  assert (forall pages, 0 <= pages < 2 ^ 48 ->
    same_step ('(n, w) ← mem_grow pages h w; Ret (ANumber n, w)) (disk_grow pages h d)) as Hsmall.
  { intros q Hq. destruct (decide (q < 2 ^ 46)); [apply grow_disk; by try lia|].
    by destruct (grow_disk_large q h w d Hw ltac:(lia)) as [-> ->]. }
  destruct (decide (pages < 2 ^ 48)) as [Hlt|Hge].
  { rewrite Z.mod_small by lia. destruct overflow_checks; apply Hsmall; lia. }
  destruct overflow_checks eqn:Hov.
  - assert (mem_grow pages h w = Panic) as ->.
    { unfold mem_grow, with_file. destruct (created_memory_resources w.1 !! h); [|done].
      cbn [expect mbind outcome_bind]. unfold u_mul, WASM_PAGE_SIZE_IN_BYTES.
      by rewrite arith_overflow, Hov by plia. }
    assert (disk_grow pages h d = Panic) as ->; [|done].
    unfold disk_grow. destruct (disk_mem h d) as [bs|]; [|done]. cbn [mbind outcome_bind].
    pose proof (zlength_nonneg bs).
    rewrite (proj2 (Z.leb_gt (zlength bs + pages * 65536) cap)) by plia. by rewrite andb_false_r.
  - rewrite grow_wraps by done. apply Hsmall, Z.mod_pos_bound. done.
Qed.

(** Opening a file keeps its bytes if it is persistent, and empties it if not. *)
Lemma open_append_ok h fs :
  h ∉ denied fs ->
  open_append h (if persistent then fs else remove_file h fs) =
    (Ok tt, set_file h (if persistent then default [] (files fs !! h) else []) fs).
Proof.
  intros Hd. unfold open_append, remove_file. destruct persistent.
  - rewrite decide_False by done. destruct (files fs !! h) as [bs|] eqn:Hh; [|done].
    unfold set_file. cbn. rewrite insert_id by done. by destruct fs.
  - destruct (decide (h ∈ denied fs)); [done|]. cbn. rewrite decide_False, lookup_delete_eq by done.
    unfold set_file. cbn. by rewrite insert_delete_eq.
Qed.

Lemma get_disk id w d :
  represents w d ->
  same_step ('(h, w) ← get_impl can_map id w; Ret (AHandle h, w)) (disk_step (MGet id) d).
Proof.
  intros Hw. destruct w as [m fs]. pose proof Hw as []. cbn in *. unfold get_impl.
  rewrite rep_base0. set (h := join base id).
  destruct (created_memory_resources m !! h) as [f|] eqn:Hf.
  { rewrite decide_True by (apply rep_opened0; by eexists). done. }
  rewrite decide_False by (rewrite rep_opened0, Hf; by intros [??]).
  unfold MemoryMappedFile.new. rewrite rep_persistent0, rep_cap0. case_decide as Hd.
  { assert (open_append h (if persistent then fs else remove_file h fs) =
      (Err PermissionDenied, if persistent then fs else remove_file h fs)) as ->; [|done].
    unfold open_append, remove_file. rewrite <- rep_denied0 in Hd.
    destruct persistent; [|rewrite (decide_True fs) by done]; by rewrite decide_True by done. }
  rewrite open_append_ok by (by rewrite rep_denied0).
  destruct (can_map cap); [|done]. cbn [expect_ok mbind outcome_bind same_step]. split; [done|].
  rewrite rep_files0. set (bs := if persistent then _ else _).
  assert (zlength bs < 2 ^ 62) as Hs.
  { subst bs. destruct persistent; [|done]. destruct (contents d !! h) eqn:Hh; [by eauto|done]. }
  apply represents_set; cbn; auto. unfold file_len. cbn. rewrite lookup_insert_eq.
  rewrite hosted, Z.mod_small; [done|]. pose proof (zlength_nonneg bs). plia.
Qed.

Lemma step_disk op w d :
  represents w d -> op_ok op -> same_step (mem_step op w) (disk_step (as_executed op) d).
Proof.
  intros Hw Hop. destruct op as [id|h|pages h|offset n h|offset src h|h b]; cbn [mem_step op_ok as_executed] in *.
  - by apply get_disk.
  - unfold mem_size. rewrite (with_file_disk w d h _ (fun bs => Ret (zlength bs / 65536))) by
      (done || (intros * _ _ _ _ Hl _ _; unfold MemoryMappedFile.len; by rewrite Hl)).
    cbn [disk_step]. by destruct (disk_mem h d).
  - by apply grow_executed.
  - rewrite (read_disk _ _ _ _ d) by tauto. cbn [disk_step].
    destruct (disk_mem h d) as [bs|]; cbn; [|done]. destruct (_ <=? cap); [|done].
    by destruct (slice bs _ _).
  - rewrite (write_disk _ _ _ _ d) by tauto. cbn [disk_step].
    destruct (disk_mem h d) as [bs|] eqn:Hm; cbn; [|done]. destruct (_ <=? cap); [|done].
    destruct (slice_put bs _ _ src) as [bs'|] eqn:Hput; cbn; [|done]. split; [done|].
    unfold disk_mem in Hm. case_decide as Ho; [|done]. apply expect_Ret in Hm.
    destruct (proj1 (rep_opened w d Hw h) Ho) as [f Hf].
    destruct (rep_file w d Hw h f Hf) as (Hp & Hmax & bs1 & Hbs1 & Hlen).
    rewrite Hm in Hbs1. injection Hbs1 as <-.
    destruct (slice_put_spec _ _ _ _ Hput) as (Hl & _ & _).
    pose proof (rep_small w d Hw h bs Hm). destruct w as [m fs]. cbn in *.
    rewrite <- (set_resource_id h f m) by done. apply represents_set; auto; congruence.
  - cbn [disk_step]. unfold set_is_persistent, with_file, disk_mem.
    destruct (created_memory_resources w.1 !! h) as [f|] eqn:Hf.
    2:{ rewrite decide_False; [done|]. rewrite (rep_opened w d Hw), Hf. by intros [??]. }
    assert (h ∈ opened d) as Ho by (apply (rep_opened w d Hw); by eexists).
    rewrite decide_True by done.
    destruct (rep_file w d Hw h f Hf) as (Hp & Hmax & bs & Hbs & Hlen). rewrite Hbs. cbn.
    split; [done|]. destruct w as [m fs]. cbn in *.
    assert (set_file h bs fs = fs) as Hfs.
    { unfold set_file. rewrite insert_id; [by destruct fs|]. pose proof (rep_files _ _ Hw) as Hff; cbn in Hff; by rewrite Hff. }
    rewrite <- (disk_set_id h bs d), <- Hfs by done. apply represents_set; auto.
    by apply (rep_small _ _ Hw h).
Qed.

(** C18: On a 64-bit host the memories of a manager are byte strings that grow by zeros and
    are read and written in place, each on its own, whatever is asked with arguments of
    their Rust types: every operation answers as on the byte strings, and panics exactly
    where they do.  Without overflow checks a growth by 2^48 pages or more counts modulo
    2^48 ([as_executed]); with them it panics like any other that does not fit.  A memory
    is reserved at most 2^62 bytes, as is a file. *)
Theorem memories_refine_disk ops w d :
  represents w d -> Forall op_ok ops ->
  match mem_run ops w, disk_run (as_executed <$> ops) d with
  | Ret (l, w'), Ret (l', d') => l = l' /\ represents w' d'
  | Panic, Panic => True
  | _, _ => False
  end.
Proof.
  intros Hw Hops. revert w d Hw. induction Hops as [|op ops Hop Hops IH]; intros w d Hw; [done|].
  cbn. pose proof (step_disk op w d Hw Hop) as Hs. unfold same_step in Hs.
  destruct (mem_step op w) as [[a w1]|], (disk_step (as_executed op) d) as [[b d1]|]; try done.
  destruct Hs as [<- Hw1]. cbn. specialize (IH w1 d1 Hw1).
  destruct (mem_run ops w1) as [[l w2]|], (disk_run (as_executed <$> ops) d1) as [[l' d2]|]; try done.
  cbn. destruct IH as [<- IH]. done.
Qed.

(** On a 64-bit host a request to grow by 2^48 pages or more overflows: a
    checked build panics, another one grows by the pages modulo 2^48 and reports
    success, so growing by exactly 2^48 pages changes nothing and returns the old
    size instead of failing. *)
Theorem mem_grow_overflow pages h w d bs :
  represents w d -> 2 ^ 48 <= pages < 2 ^ 64 ->
  disk_mem h d = Ret bs -> zlength bs mod 4096 = 0 -> zlength bs <= cap -> zlength bs <= limit ->
  mem_grow pages h w = (if overflow_checks then Panic else mem_grow (pages mod 2 ^ 48) h w) /\
  exists w', mem_grow 0 h w = Ret (zlength bs / 65536, w') /\ represents w' d.
Proof.
  clear can_map.
  intros Hw Hp Hbs Hmod Hcap Hlim. split.
  - destruct overflow_checks eqn:Hov; [|by apply grow_wraps].
    unfold mem_grow, with_file. destruct (created_memory_resources w.1 !! h) as [f|]; [|done].
    cbn [expect mbind outcome_bind]. unfold u_mul, WASM_PAGE_SIZE_IN_BYTES.
    by rewrite arith_overflow, Hov by plia.
  - pose proof (grow_disk 0 h w d Hw ltac:(lia)) as Hg. unfold disk_grow in Hg.
    rewrite Hbs in Hg. cbn [mbind outcome_bind] in Hg. rewrite Z.add_0_r in Hg.
    rewrite Hmod, !(proj2 (Z.leb_le _ _)) in Hg by lia. cbn in Hg. rewrite app_nil_r in Hg.
    destruct (mem_grow 0 h w) as [[n w']|]; [|done]. destruct Hg as [[= ->] Hw'].
    exists w'. split; [done|]. unfold disk_mem in Hbs. case_decide as Ho; [|done].
    apply expect_Ret in Hbs. by rewrite disk_set_id in Hw'.
Qed.
End memories.

(** Copies under their own names. *)
Lemma join_name to name :
  join to [Normal name] = match to with [] => [] | _ => to end ++ [Normal name].
Proof. unfold join, is_absolute. rewrite bool_decide_eq_false_2 by done. by destruct to. Qed.

Lemma join_name_inj to name name' :
  join to [Normal name] = join to [Normal name'] -> name = name'.
Proof. rewrite !join_name. by intros [_ [= ->]]%app_inj_tail. Qed.

(** What makes a backup of the memories [locks] safe. *)
Record copies_ok (to : Path) (locks : list (Path * MemoryMappedFile.t)) (fs : Fs) : Prop := {
  co_file : forall h f, (h, f) ∈ locks -> MemoryMappedFile.path f = h /\ h ∉ denied fs /\
    is_Some (files fs !! h) /\ is_Some (file_name h);
  co_target : forall h f name, (h, f) ∈ locks -> file_name h = Some name ->
    join to [Normal name] ∉ denied fs /\
    forall h' f', (h', f') ∈ locks -> join to [Normal name] <> h';
  co_names : forall h f h' f', (h, f) ∈ locks -> (h', f') ∈ locks -> file_name h = file_name h' ->
    h = h';
}.

Lemma save_copies_ok to locks fs :
  NoDup locks.*1 -> copies_ok to locks fs ->
  exists fs', save_copies to locks fs = (Ok tt, fs') /\
    (forall p, (forall h f name, (h, f) ∈ locks -> file_name h = Some name ->
                p <> join to [Normal name]) -> files fs' !! p = files fs !! p) /\
    (forall h f name, (h, f) ∈ locks -> file_name h = Some name ->
       files fs' !! join to [Normal name] = files fs !! h) /\
    (forall p bs, files fs' !! p = Some bs -> exists p', files fs !! p' = Some bs) /\
    denied fs' = denied fs /\ max_file fs' = max_file fs.
Proof.
  revert fs. induction locks as [|[h f] locks IH]; intros fs Hnd Hok.
  { exists fs. split_and!; [done|done| |by eauto|done..].
    intros h f name Hin. by apply elem_of_nil in Hin. }
  apply NoDup_cons in Hnd as [Hh Hnd].
  destruct (co_file _ _ _ Hok h f ltac:(left)) as (Hpath & Hd & [bs Hbs] & [name Hname]).
  destruct (co_target _ _ _ Hok h f name ltac:(left) Hname) as [Hto Hdis].
  set (to_h := join to [Normal name]) in *. set (fs1 := set_file to_h bs fs).
  assert (forall h' f', (h', f') ∈ locks -> files fs1 !! h' = files fs !! h') as Hsame.
  { intros h' f' Hin. apply lookup_insert_ne. apply (Hdis h' f'). by right. }
  assert (copies_ok to locks fs1) as Hok1.
  { destruct Hok as [Hf Ht Hn]. split.
    - intros h' f' Hin. rewrite (Hsame h' f') by done. apply Hf. by right.
    - intros h' f' name' Hin Hname'. destruct (Ht h' f' name') as [? Ht']; [by right|done|].
      split; [done|]. intros h2 f2 Hin2. apply (Ht' h2 f2). by right.
    - intros h1 f1 h2 f2 H1 H2. apply (Hn h1 f1 h2 f2); by right. }
  destruct (IH fs1 Hnd Hok1) as (fs' & Hs & Hrest & Hcopied & Hany & Hd' & Hm').
  exists fs'. split.
  { cbn. rewrite Hname. unfold MemoryMappedFile.save_copy. cbn. fold to_h. unfold copy.
    rewrite Hpath, decide_False, Hbs by tauto. rewrite decide_False; [done|].
    intros Heq. apply (Hdis h f); [left|done]. }
  split_and!; [| | |done..].
  - intros p Hp. rewrite Hrest; [apply lookup_insert_ne|].
    + intros <-. by apply (Hp h f name); [left| |].
    + intros h' f' name' Hin Hname'. apply (Hp h' f'); [by right|done].
  - intros h' f' name' [[= -> ->]|Hin]%elem_of_cons Hname'.
    + rewrite Hname in Hname'. injection Hname' as <-. rewrite Hrest.
      * unfold fs1, set_file. cbn. by rewrite lookup_insert_eq.
      * intros h2 f2 name2 Hin2 Hname2 Heq%join_name_inj. subst name2.
        assert (h = h2) as ->.
        { apply (co_names _ _ _ Hok h f h2 f2); [left|by right|congruence]. }
        apply Hh. apply list_elem_of_fmap. by exists (h2, f2).
    + rewrite (Hcopied h' f') by done. by eapply Hsame.
  - intros p bs' Hp. destruct (Hany p bs' Hp) as [p' Hp'].
    unfold fs1, set_file in Hp'. cbn in Hp'.
    apply lookup_insert_Some in Hp' as [[_ <-]|[_ Hp']]; eauto.
Qed.
Section backups.
Context `{Target}.
Variable can_map : Z -> bool.
Hypothesis hosted : usize_bits = 64.

(** A backup of memories with different file names into another directory
    copies every memory and changes none; a persistent manager on the backup
    directory gives back the same bytes under the same names. *)
Theorem backup_restores base persistent cap limit forbidden to w d :
  represents base persistent cap limit forbidden w d ->
  copies_ok to (sorted_entries (created_memory_resources w.1)) w.2 ->
  0 <= limit < 2 ^ 62 -> can_map DEFAULT_MEM_MAP_RESERVED_LENGTH = true ->
  exists fs', save_copies_to to w = (Ok tt, fs') /\
    (forall h, h ∈ opened d -> files fs' !! h = contents d !! h) /\
    (forall h name bs, h ∈ opened d -> file_name h = Some name -> contents d !! h = Some bs ->
       zlength bs <= DEFAULT_MEM_MAP_RESERVED_LENGTH ->
       exists w', get_impl can_map [Normal name] (manager_new to true, fs') =
           Ret (join to [Normal name], w') /\
         mem_read 0 (zlength bs) (join to [Normal name]) w' = Ret bs).
Proof.
  intros Hw Hok Hlimit Hmap.
  destruct (save_copies_ok to _ w.2 (sorted_entries_NoDup_keys _) Hok)
    as (fs' & Hs & Hrest & Hcopied & Hany & Hd & Hm).
  assert (forall h, h ∈ opened d -> exists f,
    (h, f) ∈ sorted_entries (created_memory_resources w.1)) as Hin.
  { intros h [f Hf]%(rep_opened _ _ _ _ _ _ _ Hw). exists f. by apply elem_of_sorted_entries. }
  exists fs'. split_and!; [done| |].
  - intros h [f Hf]%Hin. rewrite <- (rep_files _ _ _ _ _ _ _ Hw). apply Hrest.
    intros h' f' name Hin' Hname Heq.
    destruct (co_target _ _ _ Hok h' f' name Hin' Hname) as [_ Ht]. by apply (Ht h f).
  - intros h name bs [f Hf]%Hin Hname Hbs Hlen.
    destruct (co_target _ _ _ Hok h f name Hf Hname) as [Hto _].
    assert (0 <= DEFAULT_MEM_MAP_RESERVED_LENGTH < 2 ^ 62) as Hcap
      by (unfold DEFAULT_MEM_MAP_RESERVED_LENGTH; rewrite hosted; done).
    assert (represents to true DEFAULT_MEM_MAP_RESERVED_LENGTH limit forbidden
      (manager_new to true, fs') (mk_disk ∅ (files fs'))) as Hw2.
    { split; cbn; try done.
      - rewrite Hd. apply Hw.
      - rewrite Hm. apply Hw.
      - intros p bs' [p' Hp']%Hany. apply (rep_small _ _ _ _ _ _ _ Hw p').
        by rewrite <- (rep_files _ _ _ _ _ _ _ Hw).
      - intros p. rewrite lookup_empty. split; [set_solver|by intros [??]]. }
    pose proof (get_disk can_map _ _ _ _ _ hosted [Normal name] _ _ Hw2) as Hget.
    cbn [disk_step opened contents] in Hget. rewrite decide_False in Hget by set_solver.
    rewrite decide_False in Hget by (rewrite <- (rep_denied _ _ _ _ _ _ _ Hw); done).
    rewrite Hmap, (Hcopied h f), (rep_files _ _ _ _ _ _ _ Hw), Hbs in Hget by done.
    destruct (get_impl can_map [Normal name] _) as [[h' w']|]; [|done].
    destruct Hget as [[= ->] Hw']. exists w'. split; [done|].
    rewrite (read_disk _ _ _ _ _ hosted Hcap 0 (zlength bs) _ w' _ Hw');
      [|lia|pose proof (zlength_nonneg bs); plia].
    unfold disk_mem. rewrite decide_True by (cbn; set_solver). cbn.
    rewrite lookup_insert_eq. cbn. rewrite (proj2 (Z.leb_le _ _)) by done.
    pose proof (zlength_nonneg bs). rewrite slice_ok by lia. rewrite take_ge; [done|].
    change (drop (Z.to_nat 0) bs) with bs. unfold zlength. lia.
Qed.
End backups.

(** ** Concrete runs

    A manager on the directory [/db] of an empty file system. *)

#[local] Existing Instance x64_debug.

Lemma memories_on_64 : usize_bits = 64.
Proof. done. Qed.

Definition db_dir : Path := [RootDir; Normal [100]].
Definition backup_dir : Path := [RootDir; Normal [98]].
Definition fresh_world (persistent : bool) : world :=
  (manager_new db_dir persistent, mk_fs ∅ ∅ (2 ^ 50)).
Definition fresh_disk : disk := mk_disk ∅ ∅.

Lemma fresh_represents persistent :
  represents db_dir persistent (2 ^ 40) (2 ^ 50) ∅ (fresh_world persistent) fresh_disk.
Proof.
  split; cbn; try done. intros h. rewrite lookup_empty. split; [set_solver|by intros [??]].
Qed.

Definition first_ops : list mem_op :=
  let h := join db_dir [Normal [49]] in
  [MGet [Normal [49]]; MGrow 1 h; MWrite 7 [1; 2; 3] h; MRead 6 5 h; MSize h].

Lemma memories_refine_disk_witness :
  exists w' d', mem_run (fun _ => true) first_ops (fresh_world true) =
      Ret ([AHandle (join db_dir [Normal [49]]); ANumber 1; ADone; ABytes [0; 1; 2; 3; 0]; ANumber 1],
           w') /\
    represents db_dir true (2 ^ 40) (2 ^ 50) ∅ w' d'.
Proof.
  pose proof (memories_refine_disk (fun _ => true) db_dir true (2 ^ 40) (2 ^ 50) ∅ memories_on_64
    ltac:(done) ltac:(done) first_ops _ _ (fresh_represents true) ltac:(repeat constructor; done))
    as Hrun.
  assert (as_executed <$> first_ops = first_ops) as Hops by by vm_compute.
  rewrite Hops in Hrun.
  assert (fst <$> disk_run (fun _ => true) db_dir true (2 ^ 40) (2 ^ 50) ∅ first_ops fresh_disk =
    Ret [AHandle (join db_dir [Normal [49]]); ANumber 1; ADone; ABytes [0; 1; 2; 3; 0]; ANumber 1])
    as Ha by (vm_compute; reflexivity).
  destruct (disk_run _ db_dir true (2 ^ 40) (2 ^ 50) ∅ first_ops fresh_disk) as [[l d']|];
    [|discriminate Ha].
  destruct (mem_run _ first_ops (fresh_world true)) as [[l' w']|]; [|done].
  destruct Hrun as [-> Hw']. exists w', d'. split; [|done]. do 2 f_equal. by injection Ha.
Defined.

Definition db_file : Path := [RootDir; Normal [100]; Normal [49]].

(** The manager with one open file of the given bytes. *)
Definition one_file (bs : list Z) : world :=
  (set_resource db_file (MemoryMappedFile.mk db_file (zlength bs) (2 ^ 40) true)
     (fresh_world true).1, set_file db_file bs (fresh_world true).2).

Lemma one_file_represents bs :
  zlength bs < 2 ^ 62 ->
  represents db_dir true (2 ^ 40) (2 ^ 50) ∅ (one_file bs) (disk_set db_file bs fresh_disk).
Proof.
  intros Hs. apply represents_set; try done; exact (fresh_represents true).
Qed.

Lemma mem_grow_overflow_witness :
  mem_grow (2 ^ 48) db_file (one_file []) = Panic /\
  exists w', mem_grow 0 db_file (one_file []) = Ret (0, w') /\
    represents db_dir true (2 ^ 40) (2 ^ 50) ∅ w' (disk_set db_file [] fresh_disk).
Proof.
  apply (mem_grow_overflow db_dir true (2 ^ 40) (2 ^ 50) ∅ memories_on_64
    ltac:(done) ltac:(done) (2 ^ 48) db_file (one_file []) _ []); try done.
  by apply one_file_represents.
Defined.

Lemma one_file_copies bs : copies_ok backup_dir
  (sorted_entries (created_memory_resources (one_file bs).1)) (one_file bs).2.
Proof.
  assert (forall h f, (h, f) ∈ sorted_entries (created_memory_resources (one_file bs).1) ->
    h = db_file /\ MemoryMappedFile.path f = db_file) as Hin.
  { intros h f Hl%elem_of_sorted_entries. cbn in Hl.
    apply lookup_insert_Some in Hl as [[<- <-]|[_ Hl]]; [done|by rewrite lookup_empty in Hl]. }
  split.
  - intros h f [-> Hp]%Hin. split_and!; [done|apply not_elem_of_empty| |by eexists].
    exists bs. cbn. by rewrite lookup_insert_eq.
  - intros h f name [-> _]%Hin _. split; [apply not_elem_of_empty|]. by intros h' f' [-> _]%Hin.
  - by intros h f h' f' [-> _]%Hin [-> _]%Hin.
Qed.

Lemma backup_restores_witness :
  exists fs', save_copies_to backup_dir (one_file [1; 2; 3]) = (Ok tt, fs') /\
    exists w', get_impl (fun _ => true) [Normal [49]] (manager_new backup_dir true, fs') =
        Ret (join backup_dir [Normal [49]], w') /\
      mem_read 0 3 (join backup_dir [Normal [49]]) w' = Ret [1; 2; 3].
Proof.
  destruct (backup_restores (fun _ => true) memories_on_64 db_dir true (2 ^ 40) (2 ^ 50) ∅
    backup_dir (one_file [1; 2; 3]) _ (one_file_represents [1; 2; 3] ltac:(done))
    (one_file_copies _) ltac:(done) eq_refl) as (fs' & Hs & _ & Hr).
  exists fs'. split; [exact Hs|].
  apply (Hr db_file [49] [1; 2; 3]); [|done| |done].
  - apply elem_of_union. left. by apply elem_of_singleton.
  - apply lookup_insert_eq.
Defined.

(** Two memories with the same file name share one file in the backup. *)
Example backup_collision :
  let h1 := [RootDir; Normal [100]; Normal [97]; Normal [49]] in
  let h2 := [RootDir; Normal [100]; Normal [98]; Normal [49]] in
  let world :=
    (set_resource h1 (MemoryMappedFile.mk h1 1 4096 true)
       (set_resource h2 (MemoryMappedFile.mk h2 1 4096 true) (fresh_world true).1),
     set_file h1 [1] (set_file h2 [2] (fresh_world true).2)) in
  let '(r, fs') := save_copies_to [RootDir; Normal [120]] world in
  r = Ok tt /\ size (files fs') = 3%nat /\
  files fs' !! [RootDir; Normal [120]; Normal [49]] = Some [2].
Proof. by vm_compute. Qed.

(** A backup into the directory of the memories empties them. *)
Example backup_in_place :
  files (save_copies_to db_dir (one_file [1; 2; 3])).2 !! db_file = Some [].
Proof. by vm_compute. Qed.
