(* ===== verification/Kit.v ===== *)
(** * The mock context of the test kit

    [ic-kit/src/{mock,handler,inject}.rs]: the platform as unit tests see it.  A
    [MockContext] has the balance, the caller, the cycles, the typed storage and the
    stable memory of one canister, a [Watcher] that records what was called, and a
    list of handlers that answer inter-canister calls: single methods, closures, and
    whole mock canisters with a context of their own.  A handler is called through
    [&self] and keeps its state in a [RefCell], so a call returns the new handler.

    The closures of raw handlers are functions on the [core] of a context, which is
    the context without its handlers: the context they are given has none.  Futures
    ([spawn], [join]) are not modelled. *)

From S2P Require Import Prelude.
Local Open Scope Z_scope.

Definition Principal : Type := list Z.

(** ** Values by type

    [TypeId] identifies the types that are stored, [ty] gives the type of an id.  A
    [Box<dyn Any>] is a value with the id of its type. *)
Class StoredTypes := {
  TypeId : Type;
  TypeId_eq_dec :: EqDecision TypeId;
  TypeId_countable :: Countable TypeId;
  ty : TypeId -> Type;
  default_of : forall t, ty t;
}.

Record Any `{StoredTypes} := mk_any { any_id : TypeId; any_value : ty any_id }.

Definition downcast `{StoredTypes} (t : TypeId) (a : Any) : option (ty t) :=
  match decide (any_id a = t) with
  | left e => Some (eq_rect (any_id a) ty (any_value a) t e)
  | right _ => None
  end.

(** What the mock takes from elsewhere: the hash of [DefaultHasher], the texts of
    principals, the clock, and candid. *)
Class KitEnv := {
  default_hash : list Z -> Z;
  default_id : Principal;
  anonymous : Principal;
  now : Z;
  encode_unit : list Z;
}.

(** ** Watcher *)

(** The [called_..] fields. *)
Inductive Called :=
  | called_id | called_time | called_balance | called_caller | called_msg_cycles_available
  | called_msg_cycles_accept | called_msg_cycles_refunded | called_stable_store
  | called_stable_restore | called_set_certified_data | called_data_certificate.

#[export] Instance Called_eq_dec : EqDecision Called.
Proof. solve_decision. Defined.

Module Watcher.
Section watcher.
Context `{StoredTypes, Target}.

Record WatcherCall := mk_call {
  canister_id : Principal;
  method_name : string;
  args_raw : list Z;
  cycles_sent : Z;
  cycles_refunded : Z;
}.

Record t := mk {
  called : Called -> bool;
  storage_modified : gset TypeId;
  calls : list WatcherCall;
}.

Definition default : t := mk (fun _ => false) ∅ [].

Definition set_called (c : Called) (w : t) : t :=
  mk (fun c' => if decide (c' = c) then true else called w c') (storage_modified w) (calls w).

Definition set_modified (i : TypeId) (w : t) : t :=
  mk (called w) ({[ i ]} ∪ storage_modified w) (calls w).

Definition record_call (c : WatcherCall) (w : t) : t :=
  mk (called w) (storage_modified w) (calls w ++ [c]).

Definition call_count (w : t) : Z := zlength (calls w).

Definition call_cycles_consumed (c : WatcherCall) : outcome Z :=
  u_sub 64 (cycles_sent c) (cycles_refunded c).

(** [result += f(call)] over the calls. *)
Fixpoint sum_calls (f : WatcherCall -> outcome Z) (acc : Z) (l : list WatcherCall) : outcome Z :=
  match l with
  | [] => Ret acc
  | c :: l => x ← f c; acc ← u_add 64 acc x; sum_calls f acc l
  end.

Definition total_consumed (w : t) : outcome Z := sum_calls call_cycles_consumed 0 (calls w).
Definition total_refunded (w : t) : outcome Z :=
  sum_calls (fun c => Ret (cycles_refunded c)) 0 (calls w).
Definition total_sent (w : t) : outcome Z := sum_calls (fun c => Ret (cycles_sent c)) 0 (calls w).

Definition get_call (n : Z) (w : t) : outcome WatcherCall := expect (zlookup (calls w) n).

Definition is_method_called (name : string) (w : t) : bool :=
  existsb (fun c => bool_decide (method_name c = name)) (calls w).

Definition is_canister_called (id : Principal) (w : t) : bool :=
  existsb (fun c => bool_decide (canister_id c = id)) (calls w).

Definition is_called (id : Principal) (name : string) (w : t) : bool :=
  existsb (fun c => bool_decide (canister_id c = id) && bool_decide (method_name c = name))
    (calls w).

Definition is_modified (i : TypeId) (w : t) : bool := bool_decide (i ∈ storage_modified w).
End watcher.
End Watcher.

(** ** MockContext, without its handlers *)

Module Core.
Section core.
Context `{StoredTypes, Target, KitEnv}.

Record t := mk {
  watcher : Watcher.t;
  id : Principal;
  balance : Z;
  caller : Principal;
  is_reply_callback_mode : bool;
  trapped : bool;
  cycles : Z;
  cycles_refunded : Z;
  storage : gmap TypeId Any;
  stable : list Z;
  certified_data : option (list Z);
  certificate : option (list Z);
  time : Z;
}.

Definition new : t :=
  mk Watcher.default default_id 100000000000000 anonymous false false 0 0 ∅ [] None None now.

Definition set_watcher (w : Watcher.t) (c : t) : t :=
  mk w (id c) (balance c) (caller c) (is_reply_callback_mode c) (trapped c) (cycles c)
    (cycles_refunded c) (storage c) (stable c) (certified_data c) (certificate c) (time c).
Definition update_id (i : Principal) (c : t) : t :=
  mk (watcher c) i (balance c) (caller c) (is_reply_callback_mode c) (trapped c) (cycles c)
    (cycles_refunded c) (storage c) (stable c) (certified_data c) (certificate c) (time c).
Definition update_balance (n : Z) (c : t) : t :=
  mk (watcher c) (id c) n (caller c) (is_reply_callback_mode c) (trapped c) (cycles c)
    (cycles_refunded c) (storage c) (stable c) (certified_data c) (certificate c) (time c).
Definition update_caller (p : Principal) (c : t) : t :=
  mk (watcher c) (id c) (balance c) p (is_reply_callback_mode c) (trapped c) (cycles c)
    (cycles_refunded c) (storage c) (stable c) (certified_data c) (certificate c) (time c).
Definition set_mode (reply trap : bool) (c : t) : t :=
  mk (watcher c) (id c) (balance c) (caller c) reply trap (cycles c)
    (cycles_refunded c) (storage c) (stable c) (certified_data c) (certificate c) (time c).
Definition update_msg_cycles (n : Z) (c : t) : t :=
  mk (watcher c) (id c) (balance c) (caller c) (is_reply_callback_mode c) (trapped c) n
    (cycles_refunded c) (storage c) (stable c) (certified_data c) (certificate c) (time c).
Definition set_refunded (n : Z) (c : t) : t :=
  mk (watcher c) (id c) (balance c) (caller c) (is_reply_callback_mode c) (trapped c) (cycles c)
    n (storage c) (stable c) (certified_data c) (certificate c) (time c).
Definition set_storage (m : gmap TypeId Any) (c : t) : t :=
  mk (watcher c) (id c) (balance c) (caller c) (is_reply_callback_mode c) (trapped c) (cycles c)
    (cycles_refunded c) m (stable c) (certified_data c) (certificate c) (time c).
Definition set_stable (bs : list Z) (c : t) : t :=
  mk (watcher c) (id c) (balance c) (caller c) (is_reply_callback_mode c) (trapped c) (cycles c)
    (cycles_refunded c) (storage c) bs (certified_data c) (certificate c) (time c).
Definition set_certificate (data cert : list Z) (c : t) : t :=
  mk (watcher c) (id c) (balance c) (caller c) (is_reply_callback_mode c) (trapped c) (cycles c)
    (cycles_refunded c) (storage c) (stable c) (Some data) (Some cert) (time c).

Definition touch (f : Called) (c : t) : t := set_watcher (Watcher.set_called f (watcher c)) c.

Definition watch (c : t) : t := set_watcher Watcher.default c.

Definition call_state_reset (c : t) : t := set_mode false false c.

Definition clear_storage (c : t) : t := set_storage ∅ c.

Definition add_time (n : Z) (c : t) : outcome t :=
  s ← u_add 64 (time c) n;
  Ret (mk (watcher c) (id c) (balance c) (caller c) (is_reply_callback_mode c) (trapped c)
         (cycles c) (cycles_refunded c) (storage c) (stable c) (certified_data c)
         (certificate c) s).

(** The certificate of some data: one hash per byte, each over all hashes before. *)
Definition sign (data : list Z) : outcome (list Z) :=
  if 32 <? zlength data then Panic
  else
    let padded := data ++ replicate (32 - length data) 0 in
    Ret (foldl (fun cert b => cert ++ rev (to_le_bytes 8 (default_hash (cert ++ [b])))) [] padded).

Definition with_certified_data (data : list Z) (c : t) : outcome t :=
  if zlength data <? 32 then cert ← sign data; Ret (set_certificate data cert c) else Panic.

(** The trait [Context]; reading also marks the watcher. *)
Definition ic_id (c : t) : Principal * t := (id c, touch called_id c).
Definition ic_time (c : t) : Z * t := (time c, touch called_time c).
Definition ic_balance (c : t) : Z * t := (balance c, touch called_balance c).

Definition ic_caller (c : t) : outcome (Principal * t) :=
  let c := touch called_caller c in
  if is_reply_callback_mode c then Panic else Ret (caller c, c).

Definition msg_cycles_available (c : t) : Z * t := (cycles c, touch called_msg_cycles_available c).

Definition msg_cycles_accept (n : Z) (c : t) : outcome (Z * t) :=
  let c := touch called_msg_cycles_accept c in
  if cycles c <? n then
    let r := cycles c in
    b ← u_add 64 (balance c) r;
    Ret (r, update_balance b (update_msg_cycles 0 c))
  else
    m ← u_sub 64 (cycles c) n;
    b ← u_add 64 (balance c) n;
    Ret (n, update_balance b (update_msg_cycles m c)).

Definition msg_cycles_refunded (c : t) : Z * t :=
  (cycles_refunded c, touch called_msg_cycles_refunded c).

Definition modify (i : TypeId) (c : t) : t := set_watcher (Watcher.set_modified i (watcher c)) c.

Definition store (i : TypeId) (v : ty i) (c : t) : t :=
  set_storage (<[i := mk_any _ i v]> (storage c)) (modify i c).

Definition with_data (i : TypeId) (v : ty i) (c : t) : t :=
  set_storage (<[i := mk_any _ i v]> (storage c)) c.

Definition get_maybe (i : TypeId) (c : t) : outcome (option (ty i)) :=
  match storage c !! i with
  | Some b => Some <$> expect (downcast i b)
  | None => Ret None
  end.

(** [entry(type_id).or_insert_with(..)] *)
Definition or_default (i : TypeId) (c : t) : Any * t :=
  match storage c !! i with
  | Some a => (a, c)
  | None => (mk_any _ i (default_of i), set_storage (<[i := mk_any _ i (default_of i)]> (storage c)) c)
  end.

Definition get (i : TypeId) (c : t) : outcome (ty i * t) :=
  let '(a, c) := or_default i c in v ← expect (downcast i a); Ret (v, c).

(** [get_mut], with what the caller does through the reference. *)
Definition get_mut (i : TypeId) (f : ty i -> ty i) (c : t) : outcome (ty i * t) :=
  let '(a, c) := or_default i (modify i c) in
  v ← expect (downcast i a); Ret (v, set_storage (<[i := mk_any _ i (f v)]> (storage c)) c).

Definition delete (i : TypeId) (c : t) : bool * t :=
  let c := modify i c in
  (bool_decide (is_Some (storage c !! i)), set_storage (base.delete i (storage c)) c).

(** The encoding of [stable_store] and what [stable_restore] decodes belong to
    candid; an encoding that fails leaves the stable memory alone. *)
Definition stable_store {E} (encoded : result (list Z) E) (c : t) : result unit E * t :=
  let c := touch called_stable_store c in
  match encoded with Ok bs => (Ok tt, set_stable bs c) | Err e => (Err e, c) end.

(** The builder: what cannot be encoded makes it panic. *)
Definition with_stable {E} (encoded : result (list Z) E) (c : t) : outcome t :=
  let '(r, c) := stable_store encoded c in _ ← expect_ok r; Ret c.

Definition stable_restore {A E} (decode : list Z -> result A E) (c : t) : result A E * t :=
  (decode (stable c), touch called_stable_restore c).

Definition set_certified_data (data : list Z) (c : t) : outcome t :=
  if 32 <? zlength data then Panic
  else cert ← sign data;
       Ret (set_certificate data cert (touch called_set_certified_data c)).

Definition get_certified_data (c : t) : option (list Z) := certified_data c.

Definition data_certificate (c : t) : option (list Z) * t :=
  (certificate c, touch called_data_certificate c).
End core.
End Core.

(** ** handler.rs *)

Section handlers.
Context `{StoredTypes, Target, KitEnv}.

(** The result of a call: bytes, or a rejection code with its message. *)
Definition CallResult : Type := result (list Z) (Z * string).

Inductive MethodAtom :=
  | ConsumeAllCycles
  | ConsumeCycles (n : Z)
  | RefundCycles (n : Z).

Record Method := mk_method {
  name : option string;
  atoms : list MethodAtom;
  expected_args : option (list Z);
  expected_cycles : option Z;
  response : option (list Z);
}.

Definition Method_default : Method := mk_method None [] None None None.

Definition method_name (n : string) (m : Method) : outcome Method :=
  match name m with
  | Some _ => Panic
  | None => Ret (mk_method (Some n) (atoms m) (expected_args m) (expected_cycles m) (response m))
  end.

Definition push_atom (a : MethodAtom) (m : Method) : Method :=
  mk_method (name m) (atoms m ++ [a]) (expected_args m) (expected_cycles m) (response m).

Definition cycles_consume_all : Method -> Method := push_atom ConsumeAllCycles.
Definition cycles_consume (n : Z) : Method -> Method := push_atom (ConsumeCycles n).
Definition cycles_refund (n : Z) : Method -> Method := push_atom (RefundCycles n).

Definition expect_arguments (encoded : list Z) (m : Method) : outcome Method :=
  match expected_args m with
  | Some _ => Panic
  | None => Ret (mk_method (name m) (atoms m) (Some encoded) (expected_cycles m) (response m))
  end.

Definition expect_cycles (n : Z) (m : Method) : outcome Method :=
  match expected_cycles m with
  | Some _ => Panic
  | None => Ret (mk_method (name m) (atoms m) (expected_args m) (Some n) (response m))
  end.

Definition method_response (encoded : list Z) (m : Method) : outcome Method :=
  match response m with
  | Some _ => Panic
  | None => Ret (mk_method (name m) (atoms m) (expected_args m) (expected_cycles m) (Some encoded))
  end.

(** The closure of a raw handler. *)
Definition RawFn : Type :=
  Core.t -> list Z -> Principal -> string -> outcome (CallResult * Core.t).

(** [RawHandler::new]: decode the arguments, encode the answer. *)
Definition raw_new {T R} (decode : list Z -> option T) (encode : R -> option (list Z))
    (handler : Core.t -> T -> Principal -> string -> outcome (result R (Z * string) * Core.t)) :
    RawFn :=
  fun ctx bytes canister_id method_name =>
    args ← expect (decode bytes);
    '(res, ctx) ← handler ctx args canister_id method_name;
    match res with
    | Err e => Ret (Err e, ctx)
    | Ok r => bs ← expect (encode r); Ret (Ok bs, ctx)
    end.

(** The handlers of the crate; the [HashMap] of a canister's methods is a list
    without duplicate names. *)
Inductive Handler :=
  | HMethod (m : Method)
  | HRaw (f : RawFn)
  | HCanister (id : Principal) (methods : list (string * Handler)) (default : option Handler)
      (context : Core.t).

Definition canister_new (i : Principal) : Handler :=
  HCanister i [] None (Core.update_id i Core.new).

Definition find_method (n : string) (l : list (string * Handler)) : option Handler :=
  snd <$> List.find (fun p => bool_decide (p.1 = n)) l.

(** The builders [Canister::{with_balance, method, or}]. *)
Definition canister_with_balance (n : Z) (h : Handler) : Handler :=
  match h with
  | HCanister i ms d c => HCanister i ms d (Core.update_balance n c)
  | h => h
  end.

Definition canister_method (n : string) (handler : Handler) (h : Handler) : outcome Handler :=
  match h with
  | HCanister i ms d c =>
      match find_method n ms with
      | None => Ret (HCanister i (ms ++ [(n, handler)]) d c)
      | Some _ => Panic
      end
  | h => Ret h
  end.

Definition canister_or (handler : Handler) (h : Handler) : outcome Handler :=
  match h with
  | HCanister i ms None c => Ret (HCanister i ms (Some handler) c)
  | HCanister _ _ (Some _) _ => Panic
  | h => Ret h
  end.

(** [accept] *)
Definition method_accept (m : Method) (method : string) : bool :=
  match name m with Some n => bool_decide (n = method) | None => true end.

(** [methods.get(method)], and what the handler found says. *)
Definition accept_in (f : Handler -> bool) (method : string) :=
  fix find (l : list (string * Handler)) : bool :=
    match l with
    | [] => false
    | (n, h) :: l => if bool_decide (n = method) then f h else find l
    end.

Fixpoint accept (h : Handler) (canister_id : Principal) (method : string) : bool :=
  match h with
  | HMethod m => method_accept m method
  | HRaw _ => true
  | HCanister id methods default _ =>
      bool_decide (id = canister_id) &&
      (bool_decide (is_Some default) ||
       accept_in (fun h => accept h canister_id method) method methods)
  end.

Definition run_atom (a : MethodAtom) (c : Core.t) : outcome Core.t :=
  match a with
  | ConsumeAllCycles => snd <$> Core.msg_cycles_accept (umax 64) c
  | ConsumeCycles n => snd <$> Core.msg_cycles_accept n c
  | RefundCycles amount =>
      let '(cycles, c) := Core.msg_cycles_available c in
      if cycles <? amount then Panic
      else n ← u_sub 64 cycles amount; snd <$> Core.msg_cycles_accept n c
  end.

Fixpoint run_atoms (l : list MethodAtom) (c : Core.t) : outcome Core.t :=
  match l with [] => Ret c | a :: l => c ← run_atom a c; run_atoms l c end.

(** [assert_eq!] against an expectation, if there is one. *)
Definition assert_expected {A} `{EqDecision A} (expected : option A) (actual : A) : outcome unit :=
  match expected with
  | Some e => if decide (e = actual) then Ret tt else Panic
  | None => Ret tt
  end.

Definition perform_method (m : Method) (args : list Z) (c : Core.t) :
    outcome (CallResult * Z * Core.t) :=
  '(_, c) ← match expected_cycles m with
            | Some e => let '(n, c) := Core.msg_cycles_available c in
                        u ← assert_expected (Some e) n; Ret (u, c)
            | None => Ret (tt, c)
            end;
  _ ← assert_expected (expected_args m) args;
  c ← run_atoms (atoms m) c;
  let '(refund, c) := Core.msg_cycles_available c in
  Ret (Ok (default encode_unit (response m)), refund, c).

Definition perform_raw (f : RawFn) (canister_id : Principal) (method : string) (args : list Z)
    (c : Core.t) : outcome (CallResult * Z * Core.t) :=
  '(res, c) ← f c args canister_id method;
  let '(n, c) := Core.msg_cycles_available c in Ret (res, n, c).

(** The state of a call after it was performed: the result with the refund, the
    handler, and the context that was passed in. *)
Definition Performed : Type := CallResult * Z * Handler * option Core.t.

(** A canister's own part of [perform]: prepare the context, let the method run in
    it, and take the refund away. *)
Definition enter_canister (caller : Principal) (cycles : Z) (c : Core.t) : Core.t :=
  Core.update_msg_cycles cycles (Core.update_caller caller c).

Definition leave_canister (p : Performed) : outcome (CallResult * Z * Handler * Core.t) :=
  let '(res, refund, h, ctx) := p in
  c ← expect ctx;
  let '(n, c) := Core.msg_cycles_available c in
  if decide (refund = n) then Ret (res, refund, h, Core.update_msg_cycles 0 c) else Panic.

(** [methods.get(method)], and the call of the handler found, which is updated. *)
Definition perform_in (f : Handler -> outcome (CallResult * Z * Handler * Core.t)) (method : string) :=
  fix go (l : list (string * Handler)) :
      outcome (option (CallResult * Z * Core.t) * list (string * Handler)) :=
    match l with
    | [] => Ret (None, [])
    | (n, m) :: l =>
        if bool_decide (n = method) then
          '(res, refund, m, c) ← f m; Ret (Some (res, refund, c), (n, m) :: l)
        else '(r, l) ← go l; Ret (r, (n, m) :: l)
    end.

Fixpoint perform (h : Handler) (caller : Principal) (cycles : Z) (canister_id : Principal)
    (method : string) (args : list Z) (ctx : option Core.t) : outcome Performed :=
  match h with
  | HMethod m =>
      '(res, refund, c) ← perform_method m args
          (default (Core.update_msg_cycles cycles Core.new) ctx);
      Ret (res, refund, h, if ctx then Some c else None)
  | HRaw f =>
      '(res, refund, c) ← perform_raw f canister_id method args
          (default (Core.update_id canister_id
             (Core.update_msg_cycles cycles (Core.update_caller caller Core.new))) ctx);
      Ret (res, refund, h, if ctx then Some c else None)
  | HCanister id methods dflt context =>
      match ctx with
      | Some _ => Panic
      | None =>
          let c := enter_canister caller cycles context in
          '(found, methods) ← perform_in (fun m =>
              p ← perform m caller cycles canister_id method args (Some c); leave_canister p)
            method methods;
          match found, dflt with
          | Some (res, refund, c), _ => Ret (res, refund, HCanister id methods dflt c, None)
          | None, Some d =>
              p ← perform d caller cycles canister_id method args (Some c);
              '(res, refund, d, c) ← leave_canister p;
              Ret (res, refund, HCanister id methods (Some d) c, None)
          | None, None => Panic
          end
      end
  end.

(** ** mock.rs: inter-canister calls *)

Record MockContext := mk_context { core : Core.t; handlers : list Handler }.

Definition new : MockContext := mk_context Core.new [].

Definition use_handler (h : Handler) (c : MockContext) : MockContext :=
  mk_context (core c) (handlers c ++ [h]).

Definition clear_handlers (c : MockContext) : MockContext := mk_context (core c) [].

Definition with_consume_cycles_handler (n : Z) : MockContext -> MockContext :=
  use_handler (HMethod (cycles_consume n Method_default)).
Definition with_expect_cycles_handler (n : Z) (c : MockContext) : outcome MockContext :=
  m ← expect_cycles n Method_default; Ret (use_handler (HMethod m) c).
Definition with_refund_cycles_handler (n : Z) : MockContext -> MockContext :=
  use_handler (HMethod (cycles_refund n Method_default)).
Definition with_constant_return_handler (encoded : list Z) (c : MockContext) :
    outcome MockContext :=
  m ← method_response encoded Method_default; Ret (use_handler (HMethod m) c).

(** The loop of [call_raw]: the first handler that accepts performs the call. *)
Fixpoint dispatch (hs : list Handler) (caller : Principal) (cycles : Z) (id : Principal)
    (method : string) (args : list Z) : outcome (CallResult * Z * list Handler) :=
  match hs with
  | [] => Panic
  | h :: hs =>
      if accept h id method then
        '(res, refunded, h, _) ← perform h caller cycles id method args None;
        Ret (res, refunded, h :: hs)
      else '(res, refunded, hs) ← dispatch hs caller cycles id method args;
           Ret (res, refunded, h :: hs)
  end.

(** The bookkeeping of [call_raw] around the handlers. *)
Definition send_cycles (cycles : Z) (c : Core.t) : outcome Core.t :=
  b ← u_sub 64 (Core.balance c) cycles;
  Ret (Core.set_mode true (Core.trapped c) (Core.update_balance b c)).

Definition receive_refund (id : Principal) (method : string) (args : list Z)
    (cycles refunded : Z) (c : Core.t) : outcome Core.t :=
  let c := Core.set_refunded refunded c in
  b ← u_add 64 (Core.balance c) refunded;
  let c := Core.update_balance b c in
  Ret (Core.set_watcher
         (Watcher.record_call (Watcher.mk_call id method args cycles refunded) (Core.watcher c)) c).

(** The effects take place when [call_raw] is called; the future only carries the
    result. *)
Definition call_raw (id : Principal) (method : string) (args_raw : list Z) (cycles : Z)
    (c : MockContext) : outcome (CallResult * MockContext) :=
  if Core.balance (core c) <? cycles then Panic
  else
    k ← send_cycles cycles (core c);
    '(res, refunded, hs) ← dispatch (handlers c) (Core.id k) cycles id method args_raw;
    k ← receive_refund id method args_raw cycles refunded k;
    Ret (res, mk_context k hs).

(** [interface.rs]: call and decode the response. *)
Definition call_with_payment {R} (decode : list Z -> option R) (id : Principal) (method : string)
    (args_raw : list Z) (cycles : Z) (c : MockContext) :
    outcome (result R (Z * string) * MockContext) :=
  '(res, c) ← call_raw id method args_raw cycles c;
  match res with
  | Err e => Ret (Err e, c)
  | Ok bytes => r ← expect (decode bytes); Ret (Ok r, c)
  end.

Definition call {R} (decode : list Z -> option R) (id : Principal) (method : string)
    (args_raw : list Z) (c : MockContext) : outcome (result R (Z * string) * MockContext) :=
  call_with_payment decode id method args_raw 0 c.

(** ** inject.rs: the context of the thread *)

Definition inject (ctx : MockContext) (thread : option MockContext) : option MockContext := Some ctx.
Definition get_context (thread : option MockContext) : outcome MockContext := expect thread.

(** ** ic.rs: the functions over the context of the thread

    Outside of wasm the context is the injected one; without one they panic. *)
Definition on_context {A} (f : MockContext -> outcome (A * MockContext))
    (thread : option MockContext) : outcome (A * option MockContext) :=
  ctx ← get_context thread; '(a, ctx) ← f ctx; Ret (a, inject ctx thread).

Definition on_core {A} (f : Core.t -> outcome (A * Core.t)) :
    option MockContext -> outcome (A * option MockContext) :=
  on_context (fun x => '(a, c) ← f (core x); Ret (a, mk_context c (handlers x))).

Definition ic_trap (message : string) (thread : option MockContext) : outcome Empty_set :=
  _ ← get_context thread; Panic.
Definition ic_id : option MockContext -> outcome (Principal * option MockContext) :=
  on_core (fun c => Ret (Core.ic_id c)).
Definition ic_time : option MockContext -> outcome (Z * option MockContext) :=
  on_core (fun c => Ret (Core.ic_time c)).
Definition ic_balance128 : option MockContext -> outcome (Z * option MockContext) :=
  on_core (fun c => Ret (Core.ic_balance c)).
Definition ic_caller : option MockContext -> outcome (Principal * option MockContext) :=
  on_core Core.ic_caller.
Definition ic_msg_cycles_available : option MockContext -> outcome (Z * option MockContext) :=
  on_core (fun c => Ret (Core.msg_cycles_available c)).
Definition ic_msg_cycles_accept (amount : Z) :
    option MockContext -> outcome (Z * option MockContext) :=
  on_core (Core.msg_cycles_accept amount).
Definition ic_msg_cycles_refunded : option MockContext -> outcome (Z * option MockContext) :=
  on_core (fun c => Ret (Core.msg_cycles_refunded c)).
Definition ic_store (i : TypeId) (v : ty i) :
    option MockContext -> outcome (unit * option MockContext) :=
  on_core (fun c => Ret (tt, Core.store i v c)).
Definition ic_get_maybe (i : TypeId) :
    option MockContext -> outcome (option (ty i) * option MockContext) :=
  on_core (fun c => v ← Core.get_maybe i c; Ret (v, c)).
(** [ic::get] goes through [get_mut]. *)
Definition ic_get (i : TypeId) : option MockContext -> outcome (ty i * option MockContext) :=
  on_core (Core.get_mut i (fun v => v)).
Definition ic_get_mut (i : TypeId) (f : ty i -> ty i) :
    option MockContext -> outcome (ty i * option MockContext) :=
  on_core (Core.get_mut i f).
Definition ic_delete (i : TypeId) : option MockContext -> outcome (bool * option MockContext) :=
  on_core (fun c => Ret (Core.delete i c)).
Definition ic_stable_store {E} (encoded : result (list Z) E) :
    option MockContext -> outcome (result unit E * option MockContext) :=
  on_core (fun c => Ret (Core.stable_store encoded c)).
Definition ic_stable_restore {A E} (decode : list Z -> result A E) :
    option MockContext -> outcome (result A E * option MockContext) :=
  on_core (fun c => Ret (Core.stable_restore decode c)).
Definition ic_call_raw (id : Principal) (method : string) (args_raw : list Z) (cycles : Z) :
    option MockContext -> outcome (CallResult * option MockContext) :=
  on_context (call_raw id method args_raw cycles).
Definition ic_call {R} (decode : list Z -> option R) (id : Principal) (method : string)
    (args_raw : list Z) : option MockContext ->
    outcome (result R (Z * string) * option MockContext) :=
  on_context (call_with_payment decode id method args_raw 0).
Definition ic_call_with_payment {R} (decode : list Z -> option R) (id : Principal)
    (method : string) (args_raw : list Z) (cycles : Z) : option MockContext ->
    outcome (result R (Z * string) * option MockContext) :=
  on_context (call_with_payment decode id method args_raw cycles).
Definition ic_set_certified_data (data : list Z) :
    option MockContext -> outcome (unit * option MockContext) :=
  on_core (fun c => c ← Core.set_certified_data data c; Ret (tt, c)).
Definition ic_data_certificate :
    option MockContext -> outcome (option (list Z) * option MockContext) :=
  on_core (fun c => Ret (Core.data_certificate c)).
End handlers.

(** ** The typed storage *)

Section storage.
Context `{StoredTypes, Target, KitEnv}.
Implicit Types (c : Core.t) (i : TypeId).

(** Every value is stored under the id of its type. *)
Definition storage_typed c : Prop := forall i a, Core.storage c !! i = Some a -> any_id a = i.

(** The value of a type, if there is one. *)
Definition stored_value c i : option (ty i) := Core.storage c !! i ≫= downcast i.

Inductive storage_op :=
  | OStore (i : TypeId) (v : ty i)
  | OGetMaybe (i : TypeId)
  | OGet (i : TypeId)
  | OGetMut (i : TypeId) (f : ty i -> ty i)
  | ODelete (i : TypeId)
  | OClear.

(** What the calls answer: [get_mut] shows its caller the value that is there. *)
Inductive storage_answer :=
  | AUnit
  | AOption (i : TypeId) (v : option (ty i))
  | AValue (i : TypeId) (v : ty i)
  | ABool (b : bool).

Definition storage_step (op : storage_op) c : outcome (storage_answer * Core.t) :=
  match op with
  | OStore i v => Ret (AUnit, Core.store i v c)
  | OGetMaybe i => v ← Core.get_maybe i c; Ret (AOption i v, c)
  | OGet i => '(v, c) ← Core.get i c; Ret (AValue i v, c)
  | OGetMut i f => '(v, c) ← Core.get_mut i f c; Ret (AValue i v, c)
  | ODelete i => let '(b, c) := Core.delete i c in Ret (ABool b, c)
  | OClear => Ret (AUnit, Core.clear_storage c)
  end.

Fixpoint storage_run (ops : list storage_op) c : outcome (list storage_answer * Core.t) :=
  match ops with
  | [] => Ret ([], c)
  | op :: ops => '(a, c) ← storage_step op c; '(l, c) ← storage_run ops c; Ret (a :: l, c)
  end.

(** The map from types to values that the storage stands for. *)
Definition type_map : Type := forall i, option (ty i).

Definition map_put (i : TypeId) (v : ty i) (m : type_map) : type_map := fun j =>
  match decide (i = j) with left e => Some (eq_rect i ty v j e) | right _ => m j end.
Definition map_drop (i : TypeId) (m : type_map) : type_map := fun j =>
  if decide (i = j) then None else m j.

Definition map_step (op : storage_op) (m : type_map) : storage_answer * type_map :=
  match op with
  | OStore i v => (AUnit, map_put i v m)
  | OGetMaybe i => (AOption i (m i), m)
  | OGet i => let v := default (default_of i) (m i) in (AValue i v, map_put i v m)
  | OGetMut i f => let v := default (default_of i) (m i) in (AValue i v, map_put i (f v) m)
  | ODelete i => (ABool (bool_decide (is_Some (m i))), map_drop i m)
  | OClear => (AUnit, fun _ => None)
  end.

Fixpoint map_run (ops : list storage_op) (m : type_map) : list storage_answer * type_map :=
  match ops with
  | [] => ([], m)
  | op :: ops =>
      let '(a, m) := map_step op m in let '(l, m) := map_run ops m in (a :: l, m)
  end.

Lemma downcast_same i v : downcast i (mk_any _ i v) = Some v.
Proof.
  unfold downcast. cbn. destruct (decide (i = i)) as [e|]; [|done].
  by assert (e = eq_refl) as -> by apply (eq_pi i).
Qed.

Lemma downcast_typed i a : any_id a = i -> exists v, downcast i a = Some v.
Proof. destruct a as [j v]. cbn. intros ->. exists v. apply downcast_same. Qed.

Lemma stored_insert c i j v :
  stored_value (Core.set_storage (<[i := mk_any _ i v]> (Core.storage c)) c) j =
  match decide (i = j) with left e => Some (eq_rect i ty v j e) | right _ => stored_value c j end.
Proof.
  unfold stored_value. cbn. destruct (decide (i = j)) as [<-|Hne].
  - rewrite lookup_insert_eq. cbn. apply downcast_same.
  - by rewrite lookup_insert_ne.
Qed.

Lemma stored_insert_eq c i v :
  stored_value (Core.set_storage (<[i := mk_any _ i v]> (Core.storage c)) c) i = Some v.
Proof.
  rewrite stored_insert. destruct (decide (i = i)) as [e|]; [|done]. by assert (e = eq_refl) as -> by apply (eq_pi i).
Qed.

Lemma stored_insert_ne c i j v :
  i <> j -> stored_value (Core.set_storage (<[i := mk_any _ i v]> (Core.storage c)) c) j =
            stored_value c j.
Proof. intros. rewrite stored_insert. by destruct (decide (i = j)). Qed.

Lemma typed_insert c i v :
  storage_typed c ->
  storage_typed (Core.set_storage (<[i := mk_any _ i v]> (Core.storage c)) c).
Proof. intros Hc j a. cbn. rewrite lookup_insert_Some. intros [[<- <-]|[_ Ha]]; [done|by apply Hc]. Qed.

Lemma or_default_spec i c :
  storage_typed c ->
  let '(a, c') := Core.or_default i c in
  storage_typed c' /\ downcast i a = Some (default (default_of i) (stored_value c i)) /\
  stored_value c' i = downcast i a /\ (forall j, i <> j -> stored_value c' j = stored_value c j).
Proof.
  intros Hc. unfold Core.or_default, stored_value at 1.
  destruct (Core.storage c !! i) as [a|] eqn:Ha; cbn.
  - destruct (downcast_typed i a (Hc i a Ha)) as [v Hv]. rewrite Hv. split_and!; [done..| |done].
    unfold stored_value. rewrite Ha. done.
  - rewrite downcast_same. split_and!; [by apply typed_insert|done| |].
    + apply stored_insert_eq.
    + intros. by apply stored_insert_ne.
Qed.

Lemma get_mut_spec i f c :
  storage_typed c ->
  exists c', Core.get_mut i f c = Ret (default (default_of i) (stored_value c i), c') /\
    storage_typed c' /\
    stored_value c' i = Some (f (default (default_of i) (stored_value c i))) /\
    (forall j, i <> j -> stored_value c' j = stored_value c j).
Proof.
  intros Hc. unfold Core.get_mut.
  pose proof (or_default_spec i (Core.modify i c) Hc) as Hd.
  destruct (Core.or_default i (Core.modify i c)) as [a c1].
  destruct Hd as (Hc1 & Ha & Hv & Hne).
  change (stored_value (Core.modify i c)) with (stored_value c) in *.
  rewrite Ha. cbn. eexists. split; [done|]. split_and!.
  - by apply typed_insert.
  - apply stored_insert_eq.
  - intros j Hj. rewrite stored_insert_ne by done. by apply Hne.
Qed.

Lemma get_spec i c :
  storage_typed c ->
  exists c', Core.get i c = Ret (default (default_of i) (stored_value c i), c') /\
    storage_typed c' /\ stored_value c' i = Some (default (default_of i) (stored_value c i)) /\
    (forall j, i <> j -> stored_value c' j = stored_value c j).
Proof.
  intros Hc. unfold Core.get. pose proof (or_default_spec i c Hc) as Hd.
  destruct (Core.or_default i c) as [a c1]. destruct Hd as (Hc1 & Ha & Hv & Hne).
  rewrite Ha. cbn. exists c1. rewrite Hv, Ha. done.
Qed.

Lemma get_maybe_spec i c : storage_typed c -> Core.get_maybe i c = Ret (stored_value c i).
Proof.
  intros Hc. unfold Core.get_maybe, stored_value.
  destruct (Core.storage c !! i) as [a|] eqn:Ha; [|done]. cbn.
  by destruct (downcast_typed i a (Hc i a Ha)) as [v ->].
Qed.

Lemma delete_spec i c :
  storage_typed c ->
  storage_typed (Core.delete i c).2 /\ stored_value (Core.delete i c).2 i = None /\
  (Core.delete i c).1 = bool_decide (is_Some (stored_value c i)) /\
  (forall j, i <> j -> stored_value (Core.delete i c).2 j = stored_value c j).
Proof.
  intros Hc. unfold Core.delete, stored_value. cbn. split_and!.
  - intros j a. cbn. rewrite lookup_delete_Some. intros [_ Ha]. by apply Hc.
  - by rewrite lookup_delete_eq.
  - apply bool_decide_ext. destruct (Core.storage c !! i) as [a|] eqn:Ha; cbn.
    + destruct (downcast_typed i a (Hc i a Ha)) as [v ->]. split; by eexists.
    + split; by intros [??].
  - intros j Hj. by rewrite lookup_delete_ne.
Qed.

(** The storage stands for the map [m]. *)
Definition stores c (m : type_map) : Prop := storage_typed c /\ forall i, stored_value c i = m i.

Lemma map_put_eq i v m : map_put i v m i = Some v.
Proof.
  unfold map_put. destruct (decide (i = i)) as [e|]; [|done]. by assert (e = eq_refl) as -> by apply (eq_pi i).
Qed.

Lemma stores_put i v c c' m :
  stores c m -> storage_typed c' -> stored_value c' i = Some v ->
  (forall j, i <> j -> stored_value c' j = stored_value c j) -> stores c' (map_put i v m).
Proof.
  intros [_ Hm] Hc Hv Hne. split; [done|]. intros j. destruct (decide (i = j)) as [<-|Hj].
  - by rewrite map_put_eq.
  - rewrite Hne by done. unfold map_put. by destruct (decide (i = j)).
Qed.

Lemma stores_step op c m :
  stores c m ->
  exists c', storage_step op c = Ret ((map_step op m).1, c') /\ stores c' (map_step op m).2.
Proof.
  intros Hcm. pose proof Hcm as [Hc Hm].
  destruct op as [i v|i|i|i f|i|]; cbn [storage_step map_step fst snd].
  - eexists. split; [done|]. apply (stores_put i v c); [done|by apply (typed_insert (Core.modify i c))|..].
    + apply (stored_insert_eq (Core.modify i c)).
    + intros j Hj. by apply (stored_insert_ne (Core.modify i c)).
  - rewrite get_maybe_spec by done. exists c. cbn. by rewrite Hm.
  - destruct (get_spec i c Hc) as (c' & Hr & Hc' & Hv & Hne). rewrite Hr, <- Hm. exists c'.
    split; [done|]. by apply (stores_put i _ c).
  - destruct (get_mut_spec i f c Hc) as (c' & Hr & Hc' & Hv & Hne). rewrite Hr, <- Hm. exists c'.
    split; [done|]. by apply (stores_put i _ c).
  - destruct (delete_spec i c Hc) as (Hc' & Hv & Hb & Hne).
    destruct (Core.delete i c) as [b c']. cbn [fst snd] in *. rewrite Hb, Hm. exists c'. split; [done|].
    split; [done|]. intros j. unfold map_drop. destruct (decide (i = j)) as [<-|Hj]; [done|].
    by rewrite Hne.
  - eexists. split; [done|]. split; intros i; cbn; unfold stored_value; cbn; by rewrite lookup_empty.
Qed.

(** [ic::get] answers like the [get] of the context and leaves the same values, but
    the watcher then reports the type as modified. *)
Lemma ic_get_modifies i c hs :
  storage_typed c ->
  exists v c1 c2, Core.get i c = Ret (v, c1) /\
    ic_get i (Some (mk_context c hs)) = Ret (v, Some (mk_context c2 hs)) /\
    (forall j, stored_value c2 j = stored_value c1 j) /\
    Watcher.storage_modified (Core.watcher c1) = Watcher.storage_modified (Core.watcher c) /\
    Watcher.is_modified i (Core.watcher c2) = true.
Proof.
  intros Hc. unfold ic_get, on_core, on_context, Core.get, Core.get_mut, Core.or_default. cbn.
  destruct (Core.storage c !! i) as [a|] eqn:Ha; cbn.
  - destruct (downcast_typed i a (Hc i a Ha)) as [v Hv]. rewrite Hv. cbn.
    eexists v, _, _. split_and!; [done..| |done|].
    + intros j. unfold stored_value. cbn. destruct (decide (i = j)) as [<-|Hj].
      * rewrite lookup_insert_eq, Ha. cbn. by rewrite downcast_same, Hv.
      * by rewrite lookup_insert_ne.
    + unfold Watcher.is_modified. cbn. apply bool_decide_true. set_solver.
  - rewrite downcast_same. cbn. eexists _, _, _. split_and!; [done..| |done|].
    + intros j. unfold stored_value. cbn. by rewrite insert_insert_eq.
    + unfold Watcher.is_modified. cbn. apply bool_decide_true. set_solver.
Qed.

(** C39: The storage of a context is a map from types to values: from an empty storage, or
    any in which every value has the type of its key, no sequence of calls makes a
    downcast fail, every call answers what the map answers - [get] and [get_mut] the value
    or the default, [get_maybe] the value if there is one, [delete] whether there was one -
    and leaves what the map holds then: what is stored or left behind by [get_mut] or
    [get] under its own type, nothing where it was deleted, all other types untouched. *)
Theorem mock_storage_typed ops c m :
  storage_typed c -> (forall i, stored_value c i = m i) ->
  exists c', storage_run ops c = Ret ((map_run ops m).1, c') /\ storage_typed c' /\
    forall i, stored_value c' i = (map_run ops m).2 i.
Proof.
  intros Hc Hm. assert (stores c m) as Hcm by done. clear Hc Hm.
  revert c m Hcm. induction ops as [|op ops IH]; intros c m Hcm; [by exists c|].
  destruct (stores_step op c m Hcm) as (c1 & Hs & Hc1). cbn [storage_run map_run]. rewrite Hs.
  destruct (map_step op m) as [a m1]. cbn [fst snd] in *.
  destruct (IH c1 m1 Hc1) as (c' & Hr & Hc'). exists c'. cbn. rewrite Hr.
  by destruct (map_run ops m1).
Qed.
End storage.

(** ** Concrete runs *)

#[local] Existing Instance x64_debug.

(** Two types are stored: numbers and texts. *)
Definition two_types : StoredTypes := {|
  TypeId := bool;
  ty b := if b then Z else string;
  default_of b := match b with true => 0 | false => EmptyString end;
|}.

#[local] Existing Instance two_types.

Definition test_env : KitEnv := {|
  default_hash := fun bs => fold_right Z.add 0 bs;
  default_id := [1];
  anonymous := [4];
  now := 0;
  encode_unit := [68; 73; 68; 76; 0; 0];
|}.

#[local] Existing Instance test_env.

Definition some_ops : list storage_op :=
  [@OStore two_types true 5; @OGetMut two_types true Z.succ; @OGet two_types false;
   @ODelete two_types false; @ODelete two_types false; @OGetMaybe two_types true].

Definition some_answers : list storage_answer :=
  [@AUnit two_types; @AValue two_types true 5; @AValue two_types false EmptyString;
   @ABool two_types true; @ABool two_types false; @AOption two_types true (Some 6)].

Lemma mock_storage_typed_witness :
  exists c', storage_run some_ops Core.new = Ret (some_answers, c') /\
    @stored_value two_types c' true = Some 6 /\ @stored_value two_types c' false = None.
Proof.
  destruct (mock_storage_typed some_ops Core.new (fun _ => None)) as (c' & Hr & _ & Hv).
  - intros i a. cbn. by rewrite lookup_empty.
  - done.
  - exists c'. split_and!; [exact Hr|exact (Hv true)|exact (Hv false)].
Defined.
