(* ===== verification/KitCycles.v ===== *)
(** * Cycles in the mock context

    What inter-canister calls do to the cycles of the contexts of [Kit.v]: a
    method refunds what its atoms leave, and cycles only move between the balance
    of the calling context and those of the mock canisters. *)

From S2P Require Import Prelude Kit.
Local Open Scope Z_scope.

(** ** Cycles *)

Section cycles.
Context `{StoredTypes, Target, KitEnv}.
Implicit Types (c : Core.t) (h : Handler).

(** The cycles of a context: its balance and the cycles of the current message. *)
Definition core_ok c : Prop :=
  0 <= Core.balance c /\ 0 <= Core.cycles c /\ Core.balance c + Core.cycles c < 2 ^ 64.

(** Running in [c] led to [c']: cycles went from the message to the balance. *)
Definition accepted c c' : Prop :=
  core_ok c' /\ Core.balance c' + Core.cycles c' = Core.balance c + Core.cycles c /\
  Core.cycles c' <= Core.cycles c.

Lemma accepted_refl c : core_ok c -> accepted c c.
Proof. intros Hc. split_and!; [done..|lia]. Qed.

Lemma accepted_trans c1 c2 c3 : accepted c1 c2 -> accepted c2 c3 -> accepted c1 c3.
Proof. intros (? & ? & ?) (? & ? & ?). split_and!; [done|lia..]. Qed.

(** What the atoms of a method leave of [n] cycles; [None]: the method panics. *)
Fixpoint refund_of (l : list MethodAtom) (n : Z) : option Z :=
  match l with
  | [] => Some n
  | ConsumeAllCycles :: l => refund_of l 0
  | ConsumeCycles k :: l => refund_of l (Z.max 0 (n - k))
  | RefundCycles k :: l => if n <? k then None else refund_of l k
  end.

Definition atom_ok (a : MethodAtom) : Prop :=
  match a with ConsumeAllCycles => True | ConsumeCycles k | RefundCycles k => 0 <= k < 2 ^ 64 end.

Lemma accept_ok n c :
  core_ok c -> 0 <= n < 2 ^ 64 ->
  exists c', Core.msg_cycles_accept n c = Ret (Z.min n (Core.cycles c), c') /\
    accepted c c' /\ Core.cycles c' = Z.max 0 (Core.cycles c - n).
Proof.
  intros (Hb & Hm & Hs) Hn. unfold Core.msg_cycles_accept. cbn.
  destruct (Core.cycles c <? n) eqn:Hlt; [apply Z.ltb_lt in Hlt|apply Z.ltb_ge in Hlt].
  - rewrite u_add_ok by lia. cbn. eexists. split; [do 2 f_equal; lia|].
    unfold accepted, core_ok. cbn. lia.
  - rewrite u_sub_ok by lia. cbn. rewrite u_add_ok by lia. cbn.
    eexists. split; [do 2 f_equal; lia|]. unfold accepted, core_ok. cbn. lia.
Qed.

Lemma run_atom_ok a c :
  core_ok c -> atom_ok a ->
  match refund_of [a] (Core.cycles c) with
  | Some r => exists c', run_atom a c = Ret c' /\ accepted c c' /\ Core.cycles c' = r
  | None => run_atom a c = Panic
  end.
Proof.
  intros Hc Ha. pose proof Hc as (Hb & Hm & Hs).
  destruct a as [|k|k]; cbn [run_atom refund_of atom_ok] in *.
  - destruct (accept_ok (umax 64) c Hc) as (c' & -> & Hacc & Hcy); [unfold umax; plia|].
    exists c'. split_and!; [done..|]. rewrite Hcy. unfold umax. plia.
  - destruct (accept_ok k c Hc Ha) as (c' & -> & Hacc & Hcy). exists c'. split_and!; [done..|lia].
  - cbn. destruct (Core.cycles c <? k) eqn:Hlt; [done|]. apply Z.ltb_ge in Hlt.
    rewrite u_sub_ok by lia. cbn.
    destruct (accept_ok (Core.cycles c - k) (Core.touch called_msg_cycles_available c))
      as (c' & -> & Hacc & Hcy); [done|lia|].
    exists c'. split_and!; [done..|]. rewrite Hcy. cbn. lia.
Qed.

Lemma refund_of_cons a l n :
  refund_of (a :: l) n = match refund_of [a] n with Some r => refund_of l r | None => None end.
Proof. destruct a; cbn; try done. by destruct (n <? _). Qed.

Lemma run_atoms_ok l c :
  core_ok c -> Forall atom_ok l ->
  match refund_of l (Core.cycles c) with
  | Some r => exists c', run_atoms l c = Ret c' /\ accepted c c' /\ Core.cycles c' = r
  | None => run_atoms l c = Panic
  end.
Proof.
  intros Hc Hl. revert c Hc. induction Hl as [|a l Ha Hl IH]; intros c Hc.
  { exists c. split_and!; [done|by apply accepted_refl|done]. }
  rewrite refund_of_cons. cbn [run_atoms]. pose proof (run_atom_ok a c Hc Ha) as Hr.
  destruct (refund_of [a] (Core.cycles c)) as [r|]; [|by rewrite Hr].
  destruct Hr as (c1 & -> & Hacc & <-). cbn [mbind outcome_bind].
  specialize (IH c1 (proj1 Hacc)). destruct (refund_of l (Core.cycles c1)) as [r'|]; [|done].
  destruct IH as (c' & -> & Hacc' & Hr'). exists c'. split_and!; [done| |done].
  by apply (accepted_trans _ c1).
Qed.

(** The whole method: it answers its response and refunds what its atoms leave, or
    panics if an expectation is not met or too much is to be refunded. *)
Definition meets {A} `{EqDecision A} (expected : option A) (a : A) : bool :=
  match expected with Some e => bool_decide (e = a) | None => true end.

Definition expects (m : Method) (n : Z) (args : list Z) : bool :=
  meets (expected_cycles m) n && meets (expected_args m) args.

Lemma assert_expected_ok {A} `{EqDecision A} (expected : option A) (a : A) :
  assert_expected expected a = if meets expected a then Ret tt else Panic.
Proof. destruct expected; [|done]. cbn. by case_decide; case_bool_decide. Qed.

Lemma perform_method_ok m args c :
  core_ok c -> Forall atom_ok (atoms m) ->
  match (if expects m (Core.cycles c) args then refund_of (atoms m) (Core.cycles c) else None) with
  | Some r => exists c',
      perform_method m args c = Ret (Ok (default encode_unit (response m)), r, c') /\
      accepted c c' /\ Core.cycles c' = r
  | None => perform_method m args c = Panic
  end.
Proof.
  intros Hc Hl. unfold perform_method, expects.
  assert (exists c1, core_ok c1 /\ Core.cycles c1 = Core.cycles c /\
    (forall c', accepted c1 c' -> accepted c c') /\
    match expected_cycles m with
    | Some e => let '(n, c) := Core.msg_cycles_available c in
                u ← assert_expected (Some e) n; Ret (u, c)
    | None => Ret (tt, c)
    end = if meets (expected_cycles m) (Core.cycles c) then Ret (tt, c1) else Panic)
    as (c1 & Hc1 & Hcy & Hacc1 & ->).
  { destruct (expected_cycles m) as [e|]; [|by exists c].
    exists (Core.touch called_msg_cycles_available c). split_and!; [done..|].
    unfold Core.msg_cycles_available. rewrite assert_expected_ok. by destruct (meets _ _). }
  destruct (meets (expected_cycles m) _); cbn [andb mbind outcome_bind]; [|done].
  rewrite assert_expected_ok.
  destruct (meets (expected_args m) args); cbn [mbind outcome_bind]; [|done].
  pose proof (run_atoms_ok (atoms m) c1 Hc1 Hl) as Hr. rewrite Hcy in Hr.
  destruct (refund_of (atoms m) (Core.cycles c)) as [r|]; [|by rewrite Hr].
  destruct Hr as (c' & -> & Hacc & <-). cbn. eexists. split_and!; [done| |done]. by apply Hacc1.
Qed.

(** Handlers that do not create cycles: the closures move cycles from the message
    to the balance, as [msg_cycles_accept] does, and the amounts are [u64]s. *)
Definition raw_ok (f : RawFn) : Prop :=
  forall c args id method res c', core_ok c -> f c args id method = Ret (res, c') -> accepted c c'.

Fixpoint handler_ok h : Prop :=
  match h with
  | HMethod m => Forall atom_ok (atoms m)
  | HRaw f => raw_ok f
  | HCanister _ methods default c =>
      0 <= Core.balance c /\ foldr (fun p P => handler_ok p.2 /\ P) True methods /\
      match default with Some h => handler_ok h | None => True end
  end.

(** The balance of a mock canister. *)
Definition held h : Z := match h with HCanister _ _ _ c => Core.balance c | _ => 0 end.

Definition total_held (hs : list Handler) : Z := foldr (fun h n => held h + n) 0 hs.

Definition is_canister h : bool := match h with HCanister _ _ _ _ => true | _ => false end.

(** A method or closure inside of a canister; a canister inside of another panics. *)
Lemma perform_inside h caller n id method args c p :
  handler_ok h -> core_ok c -> perform h caller n id method args (Some c) = Ret p ->
  exists res r c', p = (res, r, h, Some c') /\ accepted c c' /\ Core.cycles c' = r.
Proof.
  intros Hh Hc. destruct h as [m|f|? ? ? ?]; cbn [perform handler_ok from_option Datatypes.id] in *;
    [| |done].
  - pose proof (perform_method_ok m args c Hc Hh) as Hp.
    destruct (if expects m (Core.cycles c) args then _ else None) as [r|].
    + destruct Hp as (c' & -> & Hacc & Hcy). cbn. intros [= <-]. eauto 7.
    + by rewrite Hp.
  - unfold perform_raw. destruct (f c args id method) as [[res c1]|] eqn:Hf; [|done].
    cbn. intros [= <-]. do 3 eexists. split; [reflexivity|].
    by destruct (Hh c args id method res c1 Hc Hf) as (? & ? & ?).
Qed.

Lemma leave_ok caller n id method args h c res r h' c' :
  handler_ok h -> core_ok c ->
  (p ← perform h caller n id method args (Some c); leave_canister p) = Ret (res, r, h', c') ->
  h' = h /\ 0 <= r <= Core.cycles c /\ Core.balance c' = Core.balance c + Core.cycles c - r.
Proof.
  intros Hh Hc Hp. apply outcome_bind_Ret in Hp as (p & Hp & Hl).
  destruct (perform_inside _ _ _ _ _ _ _ _ Hh Hc Hp) as (res1 & r1 & c1 & -> & (Hok & Hsum & Hle) & Hr).
  unfold leave_canister in Hl. cbn in Hl. case_decide; [|done]. injection Hl as <- <- <- <-.
  destruct Hok as (? & ? & ?). cbn. split_and!; [done|lia..].
Qed.

Lemma perform_in_ok f method methods found methods' (P : CallResult -> Z -> Core.t -> Prop) :
  (forall h res r h' c, handler_ok h -> f h = Ret (res, r, h', c) -> h' = h /\ P res r c) ->
  foldr (fun p Q => handler_ok p.2 /\ Q) True methods ->
  perform_in f method methods = Ret (found, methods') ->
  methods' = methods /\ match found with Some (res, r, c) => P res r c | None => True end.
Proof.
  intros Hf. revert found methods'. induction methods as [|[n h] methods IH];
    intros found methods' Hok; cbn in *.
  { by intros [= <- <-]. }
  case_bool_decide.
  - intros Hp. apply outcome_bind_Ret in Hp as ([[[res r] h'] c] & Hp & [= <- <-]).
    destruct (Hf _ _ _ _ _ (proj1 Hok) Hp) as [-> HP]. done.
  - intros Hp. apply outcome_bind_Ret in Hp as ([found1 methods1] & Hp & [= <- <-]).
    destruct (IH found1 methods1 (proj2 Hok) Hp) as [-> HP]. done.
Qed.

(** The balance that [MockContext::new] starts with. *)
Definition new_balance : Z := 100000000000000.

(** A call from outside: at most the cycles sent come back, the rest is on the
    balance of the canister, or gone if the handler is not a canister. *)
Lemma perform_ok h caller n id method args res r h' x :
  handler_ok h -> 0 <= n -> held h + n < 2 ^ 64 -> new_balance + n < 2 ^ 64 ->
  perform h caller n id method args None = Ret (res, r, h', x) ->
  handler_ok h' /\ 0 <= r <= n /\ held h' = held h + (if is_canister h then n - r else 0) /\
  is_canister h' = is_canister h.
Proof.
  intros Hh Hn Hlt Hnew. destruct h as [m|f|i methods dflt c]; cbn [perform held is_canister] in *.
  - cbn [from_option]. set (c0 := Core.update_msg_cycles n Core.new).
    assert (core_ok c0) as Hc0 by (unfold core_ok, c0; cbn; unfold new_balance in *; lia).
    pose proof (perform_method_ok m args c0 Hc0 Hh) as Hp.
    destruct (if expects m (Core.cycles c0) args then _ else None) as [r'|]; [|by rewrite Hp].
    destruct Hp as (c' & -> & (Hok & _ & Hle) & Hcy). cbn. intros [= <- <- <- <-].
    destruct Hok as (? & ? & ?). change (Core.cycles c0) with n in Hle.
    split_and!; [done|lia..|cbn; lia|done].
  - cbn [from_option]. set (c0 := Core.update_id _ _).
    assert (core_ok c0) as Hc0 by (unfold core_ok, c0; cbn; unfold new_balance in *; lia).
    unfold perform_raw. destruct (f c0 args id method) as [[res1 c1]|] eqn:Hf; [|done].
    cbn. intros [= <- <- <- <-].
    destruct (Hh c0 args id method res1 c1 Hc0 Hf) as ((? & ? & ?) & _ & Hle).
    change (Core.cycles c0) with n in Hle. split_and!; [done|lia..|cbn; lia|done].
  - destruct Hh as (Hb & Hms & Hd). set (c0 := enter_canister caller n c).
    assert (core_ok c0) as Hc0 by (unfold core_ok, c0; cbn; lia).
    set (P := fun (_ : CallResult) r c' => 0 <= r <= n /\ Core.balance c' = Core.balance c + n - r).
    assert (forall h res r h' c', handler_ok h ->
      (p ← perform h caller n id method args (Some c0); leave_canister p) = Ret (res, r, h', c') ->
      h' = h /\ P res r c') as Hleave by (intros * Hh' Hp'; exact (leave_ok _ _ _ _ _ _ _ _ _ _ _ Hh' Hc0 Hp')).
    intros Hp. apply outcome_bind_Ret in Hp as ([found methods'] & Hf & Hp).
    destruct (perform_in_ok _ _ _ _ _ P Hleave Hms Hf) as [-> HP].
    assert (forall dflt' r c', P res r c' -> match dflt' with Some h => handler_ok h | None => True end ->
      handler_ok (HCanister i methods dflt' c') /\ 0 <= r <= n /\
      Core.balance c' = Core.balance c + (n - r)) as Hend.
    { intros dflt' r1 c' [Hr1 Hb1] Hd'. split_and!; [cbn; split_and!; [lia|done..]|lia..]. }
    destruct found as [[[res1 r1] c1]|]; [|destruct dflt as [d|]; [|done]].
    + injection Hp as <- <- <- <-. cbn [held is_canister].
      destruct (Hend dflt r1 c1 HP Hd) as (? & ? & ?). done.
    + apply outcome_bind_Ret in Hp as (p & Hp1 & Hp).
      apply outcome_bind_Ret in Hp as ([[[res1 r1] d1] c1] & Hp2 & [= <- <- <- <-]).
      destruct (Hleave d res1 r1 d1 c1 Hd) as [-> HP1].
      { by rewrite Hp1. }
      destruct (Hend (Some d) r1 c1 HP1 Hd) as (? & ? & ?). done.
Qed.

Lemma dispatch_ok hs caller n id method args res r hs' :
  Forall handler_ok hs -> 0 <= n -> new_balance + n < 2 ^ 64 ->
  Forall (fun h => 0 <= held h) hs -> total_held hs + n < 2 ^ 64 ->
  dispatch hs caller n id method args = Ret (res, r, hs') ->
  Forall handler_ok hs' /\ 0 <= r <= n /\
  total_held hs <= total_held hs' <= total_held hs + n - r /\
  (forallb is_canister hs -> total_held hs' = total_held hs + n - r) /\
  forallb is_canister hs' = forallb is_canister hs.
Proof.
  revert res r hs'. induction hs as [|h hs IH]; intros res r hs' Hok Hn Hnew Hpos Hlt; [done|].
  apply Forall_cons in Hok as [Hh Hok]. apply Forall_cons in Hpos as [Hp Hpos].
  cbn [dispatch total_held foldr forallb] in *. fold (total_held hs) in *.
  assert (0 <= total_held hs) as Htot.
  { clear -Hpos. induction Hpos; cbn; [done|]. fold (total_held l). lia. }
  destruct (accept h id method).
  - intros Hd. apply outcome_bind_Ret in Hd as ([[[res1 r1] h1] x] & Hd & [= <- <- <-]).
    apply perform_ok in Hd as (Hh1 & Hr & Hheld & Hcan); [|done|lia..].
    cbn [total_held foldr forallb]. fold (total_held hs). rewrite Hcan.
    destruct (is_canister h); split_and!; try done; try lia; by constructor.
  - intros Hd. apply outcome_bind_Ret in Hd as ([[res1 r1] hs1] & Hd & [= <- <- <-]).
    apply IH in Hd as (Hok1 & Hr & Htot1 & Hcan & Hall); [|done..|lia].
    cbn [total_held foldr forallb]. fold (total_held hs1). rewrite Hall.
    split_and!; [by constructor|lia..| |done]. intros [_ Hc]%andb_prop_elim.
    rewrite Hcan by done. lia.
Qed.

(** ** Calls of a context *)

Record context_ok (x : MockContext) : Prop := {
  ctx_balance : 0 <= Core.balance (core x);
  ctx_handlers : Forall handler_ok (handlers x);
  ctx_total : new_balance + Core.balance (core x) + total_held (handlers x) < 2 ^ 64;
}.

Lemma handler_ok_held h : handler_ok h -> 0 <= held h.
Proof. destruct h as [m|f|? ? ? ?]; [done..|]. by intros [? _]. Qed.

Lemma handlers_held hs : Forall handler_ok hs -> Forall (fun h => 0 <= held h) hs.
Proof. intros Hh. eapply Forall_impl; [exact Hh|]. exact handler_ok_held. Qed.

Definition calls_of (x : MockContext) : list Watcher.WatcherCall :=
  Watcher.calls (Core.watcher (core x)).

Definition consumed (w : Watcher.WatcherCall) : Z :=
  Watcher.cycles_sent w - Watcher.cycles_refunded w.

(** The arguments of a call. *)
Definition Request : Type := Principal * string * list Z * Z.

Definition request_of (w : Watcher.WatcherCall) : Request :=
  (Watcher.canister_id w, Watcher.method_name w, Watcher.args_raw w, Watcher.cycles_sent w).

Fixpoint run_calls (reqs : list Request) (x : MockContext) : outcome (list CallResult * MockContext) :=
  match reqs with
  | [] => Ret ([], x)
  | (id, method, args, n) :: reqs =>
      '(r, x) ← call_raw id method args n x; '(l, x) ← run_calls reqs x; Ret (r :: l, x)
  end.

Lemma total_held_nonneg hs : Forall handler_ok hs -> 0 <= total_held hs.
Proof.
  induction 1 as [|h hs Hh _ IH]; [done|]. cbn. fold (total_held hs).
  pose proof (handler_ok_held h Hh). lia.
Qed.

Lemma call_raw_ok id method args n x res x' :
  context_ok x -> 0 <= n -> call_raw id method args n x = Ret (res, x') ->
  exists refunded,
    calls_of x' = calls_of x ++ [Watcher.mk_call id method args n refunded] /\
    0 <= refunded <= n /\
    Core.balance (core x') = Core.balance (core x) - (n - refunded) /\
    (forallb is_canister (handlers x) ->
       Core.balance (core x') + total_held (handlers x') =
       Core.balance (core x) + total_held (handlers x)) /\
    forallb is_canister (handlers x') = forallb is_canister (handlers x) /\ context_ok x'.
Proof.
  intros [Hb Hh Ht] Hn. unfold call_raw. destruct (_ <? n) eqn:Hlt; [done|].
  apply Z.ltb_ge in Hlt. pose proof (total_held_nonneg _ Hh) as Hheld.
  unfold send_cycles. unfold new_balance in Ht. rewrite u_sub_ok by lia. cbn [mbind outcome_bind].
  intros Hd. apply outcome_bind_Ret in Hd as ([[res1 r] hs] & Hd & Hr).
  apply dispatch_ok in Hd as (Hok & Hr1 & Htot & Hcan & Hall);
    [|done|done|unfold new_balance; lia|by apply handlers_held|lia].
  unfold receive_refund in Hr. cbn in Hr. rewrite u_add_ok in Hr by lia. cbn in Hr.
  injection Hr as <- <-. exists r. cbn -[total_held]. split_and!; [done|lia..| |done|].
  - intros Hc. rewrite Hcan by done. lia.
  - split; cbn -[total_held]; [lia|done|unfold new_balance; lia].
Qed.

Lemma sum_consumed l acc :
  0 <= acc -> Forall (fun w => 0 <= Watcher.cycles_refunded w <= Watcher.cycles_sent w) l ->
  foldr (fun w n => consumed w + n) acc l < 2 ^ 64 ->
  Forall (fun w => Watcher.cycles_sent w < 2 ^ 64) l ->
  Watcher.sum_calls Watcher.call_cycles_consumed acc l =
    Ret (foldr (fun w n => consumed w + n) acc l).
Proof.
  intros Hacc Hl. revert acc Hacc. induction Hl as [|w l Hw Hl IH]; intros acc Hacc Hlt Hs; [done|].
  apply Forall_cons in Hs as [Hsw Hs]. cbn [foldr] in Hlt. cbn [Watcher.sum_calls foldr].
  assert (forall a b, foldr (fun w n => consumed w + n) (a + b) l =
    a + foldr (fun w n => consumed w + n) b l) as Hshift.
  { intros a b. clear. induction l as [|w l IH]; cbn; [done|]. rewrite IH. lia. }
  assert (acc <= foldr (fun w n => consumed w + n) acc l) as Hge.
  { clear -Hl. induction Hl as [|w l Hw Hl IH]; cbn; [done|].
    assert (0 <= consumed w) by (unfold consumed; lia). lia. }
  assert (0 <= consumed w) as Hcw by (unfold consumed; lia).
  unfold Watcher.call_cycles_consumed. rewrite u_sub_ok by lia. fold (consumed w).
  cbn [mbind outcome_bind]. rewrite u_add_ok by lia. cbn [mbind outcome_bind].
  rewrite IH, (Z.add_comm acc), Hshift; [done|lia|rewrite Z.add_comm, Hshift; lia|done].
Qed.

(** C24: Calls conserve cycles.  After any sequence of calls of a context whose
    closures do not create cycles, the watcher has recorded the calls in order, each
    with a refund of at most what was sent, the balance of the context fell by
    exactly the cycles consumed, as [cycles_consumed] of the watcher reports, and if
    all handlers are mock canisters the cycles consumed are on their balances. *)
Theorem calls_conserve_cycles reqs x results x' :
  context_ok x -> Forall (fun q => 0 <= q.2) reqs -> run_calls reqs x = Ret (results, x') ->
  exists new, calls_of x' = calls_of x ++ new /\ map request_of new = reqs /\
    length results = length reqs /\
    Forall (fun w => 0 <= Watcher.cycles_refunded w <= Watcher.cycles_sent w) new /\
    Core.balance (core x') = Core.balance (core x) - foldr (fun w n => consumed w + n) 0 new /\
    (calls_of x = [] -> Watcher.total_consumed (Core.watcher (core x')) =
       Ret (Core.balance (core x) - Core.balance (core x'))) /\
    (forallb is_canister (handlers x) ->
       Core.balance (core x') + total_held (handlers x') =
       Core.balance (core x) + total_held (handlers x)) /\
    context_ok x'.
Proof.
  intros Hx Hreqs Hrun.
  assert (exists new, calls_of x' = calls_of x ++ new /\ map request_of new = reqs /\
    length results = length reqs /\
    Forall (fun w => 0 <= Watcher.cycles_refunded w <= Watcher.cycles_sent w) new /\
    Forall (fun w => Watcher.cycles_sent w < 2 ^ 64) new /\
    Core.balance (core x') = Core.balance (core x) - foldr (fun w n => consumed w + n) 0 new /\
    (forallb is_canister (handlers x) ->
       Core.balance (core x') + total_held (handlers x') =
       Core.balance (core x) + total_held (handlers x)) /\ context_ok x')
    as (new & Hcalls & Hmap & Hlen & Href & Hsent & Hbal & Hcan & Hx').
  { revert x results Hx Hrun. induction Hreqs as [|[[[id method] args] n] reqs Hn Hreqs IH];
      intros x results Hx Hrun; cbn in Hrun.
    { injection Hrun as <- <-. exists []. rewrite app_nil_r. cbn. split_and!; auto; lia. }
    apply outcome_bind_Ret in Hrun as ([res x1] & Hc & Hrun).
    apply outcome_bind_Ret in Hrun as ([l x2] & Hrun & [= <- <-]).
    assert (n < 2 ^ 64) as Hn64.
    { unfold call_raw in Hc. destruct (_ <? n) eqn:Hlt; [done|]. apply Z.ltb_ge in Hlt.
      destruct Hx as [? Hh ?]. pose proof (total_held_nonneg _ Hh). unfold new_balance in *. lia. }
    destruct (call_raw_ok id method args n x res x1 Hx Hn Hc) as (r & Hcalls & Hr & Hb & Hcan & Hall & Hx1).
    destruct (IH x1 l Hx1 Hrun) as (new & Hcalls' & Hmap & Hlen & Href & Hsent & Hbal & Hcan' & Hx').
    exists (Watcher.mk_call id method args n r :: new). split_and!.
    - by rewrite Hcalls', Hcalls, <- app_assoc.
    - cbn. by rewrite Hmap.
    - cbn. by rewrite Hlen.
    - by constructor.
    - by constructor.
    - cbn [foldr]. rewrite Hbal, Hb. unfold consumed at 2. cbn. lia.
    - intros Ha. rewrite Hcan' by (by rewrite Hall). by apply Hcan.
    - done. }
  exists new. split_and!; try done. intros Hnil. unfold Watcher.total_consumed.
  unfold calls_of in Hcalls, Hnil. rewrite Hcalls, Hnil. cbn [app]. 
  destruct Hx as [Hb Hh Ht], Hx' as [Hb' _ _]. pose proof (total_held_nonneg _ Hh).
  unfold new_balance in Ht. rewrite sum_consumed; [f_equal; lia|lia|done|lia|done].
Qed.

(** The first handler that accepts answers; if there is none, the call panics. *)
Lemma dispatch_first pre h post caller n id method args :
  Forall (fun h => accept h id method = false) pre -> accept h id method = true ->
  dispatch (pre ++ h :: post) caller n id method args =
    '(res, r, h, _) ← perform h caller n id method args None; Ret (res, r, pre ++ h :: post).
Proof.
  intros Hpre Hh. induction Hpre as [|h' pre Hr Hpre IH]; cbn [app dispatch].
  - by rewrite Hh.
  - rewrite Hr, IH. by destruct (perform h caller n id method args None) as [[[[? ?] ?] ?]|].
Qed.

Lemma dispatch_none hs caller n id method args :
  Forall (fun h => accept h id method = false) hs -> dispatch hs caller n id method args = Panic.
Proof. induction 1 as [|h hs Hr _ IH]; [done|]. cbn. by rewrite Hr, IH. Qed.

(** A call goes to the first handler that accepts it.  If that is a method, the
    call answers the response of the method and gets back what its atoms leave of
    the cycles, all of which the context then accounts for; it panics if the balance
    does not cover the cycles, an expectation of the method is not met, the method
    is to refund more than it has, or no handler accepts.  After a call the caller
    cannot be asked for any more. *)
Theorem method_call_result x pre m post id method args n :
  handlers x = pre ++ HMethod m :: post ->
  Forall (fun h => accept h id method = false) pre ->
  0 <= Core.balance (core x) -> new_balance + Core.balance (core x) < 2 ^ 64 -> 0 <= n ->
  Forall atom_ok (atoms m) ->
  (method_accept m method = false -> Forall (fun h => accept h id method = false) post ->
     call_raw id method args n x = Panic) /\
  (method_accept m method = true ->
   match (if (n <=? Core.balance (core x)) && expects m n args then refund_of (atoms m) n else None) with
   | None => call_raw id method args n x = Panic
   | Some r => exists x',
       call_raw id method args n x = Ret (Ok (default encode_unit (response m)), x') /\
       handlers x' = handlers x /\ Core.balance (core x') = Core.balance (core x) - n + r /\
       Core.cycles_refunded (core x') = r /\
       calls_of x' = calls_of x ++ [Watcher.mk_call id method args n r] /\
       Core.ic_caller (core x') = Panic
   end).
Proof.
  intros Hx Hpre Hb Hb64 Hn Hatoms. unfold new_balance in Hb64.
  unfold call_raw, send_cycles. rewrite Hx. split.
  { intros Hm Hpost. destruct (_ <? n) eqn:Hlt; [done|]. apply Z.ltb_ge in Hlt.
    rewrite u_sub_ok by lia. cbn [mbind outcome_bind].
    rewrite dispatch_none; [done|]. apply Forall_app. by repeat constructor. }
  intros Hm. destruct (_ <? n) eqn:Hlt.
  { apply Z.ltb_lt in Hlt. by rewrite (proj2 (Z.leb_gt _ _)) by lia. }
  apply Z.ltb_ge in Hlt. rewrite (proj2 (Z.leb_le _ _)) by lia. cbn [andb].
  rewrite u_sub_ok by lia. cbn [mbind outcome_bind].
  rewrite dispatch_first by (done || exact Hm). cbn [perform from_option].
  set (c0 := Core.update_msg_cycles n Core.new).
  assert (core_ok c0) as Hc0 by (unfold core_ok, c0; cbn; lia).
  pose proof (perform_method_ok m args c0 Hc0 Hatoms) as Hp.
  change (Core.cycles c0) with n in Hp.
  destruct (if expects m n args then _ else None) as [r|]; [|by rewrite Hp].
  destruct Hp as (c' & -> & ((? & ? & ?) & _ & Hle) & Hcy). change (Core.cycles c0) with n in Hle.
  cbn [mbind outcome_bind]. unfold receive_refund. cbn -[u_add]. rewrite u_add_ok by lia.
  cbn -[Z.add Z.sub]. eexists. split; [reflexivity|]. by cbn.
Qed.

(** Data shorter than the certificate's 32 bytes is padded with zeros, so data that
    differ in trailing zeros have the same certificate. *)
Lemma sign_padded data n :
  (length data + n <= 32)%nat -> Core.sign (data ++ replicate n 0) = Core.sign data.
Proof.
  intros Hn. unfold Core.sign. rewrite !(proj2 (Z.ltb_ge _ _)) by
    (unfold zlength; rewrite ?length_app, ?length_replicate; lia).
  do 2 f_equal. rewrite <- app_assoc, <- replicate_add, length_app, length_replicate.
  do 2 f_equal. lia.
Qed.

(** The builder refuses the 32 bytes that [set_certified_data] accepts. *)
Lemma with_certified_data_32 data (c : Core.t) :
  length data = 32%nat ->
  Core.with_certified_data data c = Panic /\ Core.set_certified_data data c <> Panic.
Proof.
  intros Hl. unfold Core.with_certified_data, Core.set_certified_data, Core.sign, zlength.
  by rewrite Hl.
Qed.
End cycles.

(** ** Concrete runs *)

#[local] Existing Instances x64_debug two_types test_env.

Definition bank : Handler :=
  HCanister [7] [("deposit"%string, HMethod (cycles_consume 60 Method_default))] None
    (Core.update_id [7] Core.new).

Definition two_calls : list Request := [([7], "deposit", [], 100); ([7], "deposit", [], 50)]%string.

Lemma bank_ok : context_ok (mk_context (Core.update_balance 1000 Core.new) [bank]).
Proof.
  split; [by cbn| |by vm_compute]. repeat constructor; cbn; lia.
Qed.

Lemma calls_conserve_cycles_witness :
  exists results x', run_calls two_calls (mk_context (Core.update_balance 1000 Core.new) [bank]) =
      Ret (results, x') /\ Core.balance (core x') = 890 /\
    Core.balance (core x') + total_held (handlers x') = 1000 + total_held [bank].
Proof.
  destruct (run_calls two_calls (mk_context (Core.update_balance 1000 Core.new) [bank]))
    as [[results x']|] eqn:Hr; [|by vm_compute in Hr].
  exists results, x'. split; [done|].
  destruct (calls_conserve_cycles two_calls _ _ _ bank_ok ltac:(repeat constructor; cbn; lia) Hr)
    as (new & _ & _ & _ & _ & Hb & _ & Hc & _).
  split; [|by apply Hc]. vm_compute in Hr. by injection Hr as <- <-.
Defined.

Lemma method_call_result_witness :
  exists x', call_raw [9] "ping" [] 100 (mk_context (Core.update_balance 1000 Core.new)
      [bank; HMethod (cycles_refund 30 (cycles_consume 20 Method_default))]) =
      Ret (Ok encode_unit, x') /\ Core.balance (core x') = 930 /\ Core.ic_caller (core x') = Panic.
Proof.
  pose proof (method_call_result (mk_context (Core.update_balance 1000 Core.new)
      [bank; HMethod (cycles_refund 30 (cycles_consume 20 Method_default))]) [bank]
    (cycles_refund 30 (cycles_consume 20 Method_default)) [] [9] "ping" [] 100 eq_refl
    ltac:(repeat constructor) ltac:(by cbn) ltac:(by cbn) ltac:(lia)
    ltac:(repeat constructor; cbn; lia)) as [_ H].
  destruct (H eq_refl) as (x' & Hc & _ & Hb & _ & _ & Hcaller). exists x'.
  split_and!; [exact Hc|exact Hb|exact Hcaller].
Defined.
