(* ===== verification/KitMethods.v ===== *)
(** * Described methods and spawned futures of the kit

    [ic-kit/src/interfaces/{mod,management}.rs], the trait of methods that are
    called by their description and the management canister's, and what
    [MockContext::spawn] and [join] of [mock.rs] do with a future. *)

From S2P Require Import Prelude Kit KitCycles.
Local Open Scope Z_scope.
Local Open Scope sdk_scope.

(** ** interfaces/mod.rs *)

(** Candid's encoding of an argument tuple and decoding of a reply tuple. *)
Class ArgumentEncoder (A : Type) := encode_args : A -> option (list Z).
Class ArgumentDecoder (A : Type) := decode_args : list Z -> option A.

(** A type [M] that describes a method. *)
Class Method (M : Type) := {
  NAME : string;
  Arguments : Type;
  Response : Type;
}.
Arguments NAME M {_}.
Arguments Arguments M {_}.
Arguments Response M {_}.

Section perform.
Context `{StoredTypes, Target, KitEnv}.
Context (M : Type) `{Method M, !ArgumentEncoder (Arguments M), !ArgumentDecoder (Response M)}.
Implicit Types (thread : option MockContext) (x : MockContext).

Definition perform (id : Principal) (args : Arguments M) thread :
    outcome (result (Response M) (Z * string) * option MockContext) :=
  args_raw ← expect (encode_args args); ic_call decode_args id (NAME M) args_raw thread.

Definition perform_with_payment (id : Principal) (args : Arguments M) (cycles : Z) thread :
    outcome (result (Response M) (Z * string) * option MockContext) :=
  args_raw ← expect (encode_args args); ic_call_with_payment decode_args id (NAME M) args_raw cycles thread.

(** Performing a method is one call of it: the kit records the name, the encoded
    arguments and the cycles, and the balance loses what was not refunded; a failed
    call is returned, and a reply that is no tuple of the response type panics. *)
Theorem perform_is_one_call id args cycles x res thread' :
  context_ok x -> 0 <= cycles ->
  perform_with_payment id args cycles (Some x) = Ret (res, thread') ->
  exists x' args_raw refunded bytes, thread' = Some x' /\ encode_args args = Some args_raw /\
    calls_of x' = calls_of x ++ [Watcher.mk_call id (NAME M) args_raw cycles refunded] /\
    0 <= refunded <= cycles /\ Core.balance (core x') = Core.balance (core x) - (cycles - refunded) /\
    call_raw id (NAME M) args_raw cycles x = Ret (bytes, x') /\
    match res with
    | Ok r => exists bs, bytes = Ok bs /\ decode_args bs = Some r
    | Err e => bytes = Err e
    end.
Proof.
  intros Hx Hc. unfold perform_with_payment. destruct (encode_args args) as [args_raw|] eqn:Henc; [|done].
  cbn [expect mbind outcome_bind]. unfold ic_call_with_payment, on_context, get_context, inject.
  cbn [expect mbind outcome_bind]. unfold call_with_payment.
  destruct (call_raw id (NAME M) args_raw cycles x) as [[bytes x']|] eqn:Hraw; [|done].
  destruct (call_raw_ok id (NAME M) args_raw cycles x bytes x' Hx Hc Hraw) as (k & Hcalls & Hk & Hb & _).
  cbn [mbind outcome_bind]. intros Hr.
  exists x', args_raw, k, bytes. destruct bytes as [bs|e].
  - destruct (decode_args bs) as [r|] eqn:Hd; [|done]. injection Hr as <- <-.
    split_and!; try done; try lia. by exists bs.
  - injection Hr as <- <-. by split_and!; try lia.
Qed.

(** Without a payment it is the call with no cycles. *)
Lemma perform_free id args thread : perform id args thread = perform_with_payment id args 0 thread.
Proof. done. Qed.
End perform.

(** ** interfaces/management.rs *)

Module Management.

Record WithCanisterId := mk_id { canister_id : Principal }.

Record CanisterSettings := mk_settings {
  controllers : option (list Principal);
  compute_allocation : option N;
  memory_allocation : option N;
  freezing_threshold : option N;
}.

Record DefiniteCanisterSettings := mk_definite {
  definite_controllers : list Principal;
  definite_compute_allocation : N;
  definite_memory_allocation : N;
  definite_freezing_threshold : N;
}.

Record CreateCanisterArgument := mk_create { create_settings : option CanisterSettings }.

Record UpdateSettingsArgument := mk_update {
  update_canister_id : Principal;
  update_to : CanisterSettings;
}.

Inductive InstallMode := Install | Reinstall | Upgrade.

Record InstallCodeArgument := mk_install {
  mode : InstallMode;
  install_canister_id : Principal;
  wasm_module : list Z;
  arg : list Z;
}.

Inductive Status := Running | Stopping | Stopped.

Record CanisterStatusResponse := mk_status {
  status : Status;
  settings : DefiniteCanisterSettings;
  module_hash : option (list Z);
  memory_size : N;
  cycles : N;
}.

Record ProvisionalCreateCanisterWithCyclesArgument := mk_provisional_create {
  provisional_amount : option N;
  provisional_settings : option CanisterSettings;
}.

Record ProvisionalTopUpCanisterArgument := mk_top_up {
  top_up_canister_id : Principal;
  top_up_amount : N;
}.

(** The describing types. *)
Inductive CreateCanister : Set :=.
Inductive UpdateSettings : Set :=.
Inductive InstallCode : Set :=.
Inductive UninstallCode : Set :=.
Inductive StartCanister : Set :=.
Inductive StopCanister : Set :=.
Inductive CanisterStatus : Set :=.
Inductive DeleteCanister : Set :=.
Inductive DepositCycles : Set :=.
Inductive RawRand : Set :=.
Inductive ProvisionalCreateCanisterWithCycles : Set :=.
Inductive ProvisionalTopUpCanister : Set :=.

#[export] Instance create_canister : Method CreateCanister :=
  {| NAME := "create_canister"; Arguments := CreateCanisterArgument; Response := WithCanisterId |}.
#[export] Instance update_settings : Method UpdateSettings :=
  {| NAME := "update_settings"; Arguments := UpdateSettingsArgument; Response := unit |}.
#[export] Instance install_code : Method InstallCode :=
  {| NAME := "install_code"; Arguments := InstallCodeArgument; Response := unit |}.
#[export] Instance uninstall_code : Method UninstallCode :=
  {| NAME := "uninstall_code"; Arguments := WithCanisterId; Response := unit |}.
#[export] Instance start_canister : Method StartCanister :=
  {| NAME := "start_canister"; Arguments := WithCanisterId; Response := unit |}.
#[export] Instance stop_canister : Method StopCanister :=
  {| NAME := "stop_canister"; Arguments := WithCanisterId; Response := unit |}.
#[export] Instance canister_status : Method CanisterStatus :=
  {| NAME := "canister_status"; Arguments := WithCanisterId; Response := CanisterStatusResponse |}.
#[export] Instance delete_canister : Method DeleteCanister :=
  {| NAME := "delete_canister"; Arguments := WithCanisterId; Response := unit |}.
#[export] Instance deposit_cycles : Method DepositCycles :=
  {| NAME := "deposit_cycles"; Arguments := WithCanisterId; Response := unit |}.
#[export] Instance raw_rand : Method RawRand :=
  {| NAME := "raw_rand"; Arguments := unit; Response := list Z |}.
#[export] Instance provisional_create_canister_with_cycles : Method ProvisionalCreateCanisterWithCycles :=
  {| NAME := "provisional_create_canister_with_cycles";
     Arguments := ProvisionalCreateCanisterWithCyclesArgument; Response := WithCanisterId |}.
#[export] Instance provisional_top_up_canister : Method ProvisionalTopUpCanister :=
  {| NAME := "provisional_top_up_canister"; Arguments := ProvisionalTopUpCanisterArgument;
     Response := unit |}.

(** No two methods of the management canister have the same name, so a handler of the
    kit that answers one of them answers no other. *)
Definition names : list string :=
  [NAME CreateCanister; NAME UpdateSettings; NAME InstallCode; NAME UninstallCode; NAME StartCanister;
   NAME StopCanister; NAME CanisterStatus; NAME DeleteCanister; NAME DepositCycles; NAME RawRand;
   NAME ProvisionalCreateCanisterWithCycles; NAME ProvisionalTopUpCanister].

Lemma names_distinct : NoDup names.
Proof. by apply (bool_decide_unpack _). Qed.
End Management.

(** ** Spawned futures *)

Section spawn.
Context `{StoredTypes, Target, KitEnv}.

(** The thread with its context, and whether it runs an executor of [futures]. *)
Record Thread := mk_thread { context : option MockContext; entered : bool }.

(** A future without a result that never waits for anything but the thread itself. *)
Definition Future : Type := Thread -> outcome Thread.

(** [LocalPool::run_until], which panics in another executor; the pool has no other
    tasks, because nothing hands out its spawner. *)
Definition run_until (future : Future) (s : Thread) : outcome Thread :=
  assert (negb (entered s));
  s ← future (mk_thread (context s) true);
  Ret (mk_thread (context s) false).

Definition spawn (future : Future) (s : Thread) : outcome Thread :=
  _ ← get_context (context s); run_until future s.

Definition join (s : Thread) : outcome Thread :=
  _ ← get_context (context s); assert (negb (entered s)); Ret s.

(** [ic::spawn] is documented not to block; on the mock context the future is complete
    when it returns, and nothing is left to join. *)
Lemma spawn_completes future s s' :
  spawn future s = Ret s' -> is_Some (context s') ->
  (exists s1, future (mk_thread (context s) true) = Ret s1 /\ context s' = context s1) /\ join s' = Ret s'.
Proof.
  unfold spawn, run_until, join. destruct (context s) as [x|] eqn:Hx; [|done]. cbn.
  destruct (entered s); [done|]. cbn. destruct (future _) as [s1|]; [|done]. cbn. intros [= <-] [y Hy].
  cbn in *. rewrite Hy. cbn. split; [by exists s1|done].
Qed.

(** A spawned future that spawns panics. *)
Lemma nested_spawn_panics future s : spawn (spawn future) s = Panic.
Proof.
  unfold spawn at 1. destruct (get_context (context s)); [|done]. cbn. unfold run_until at 1.
  destruct (entered s); [done|]. cbn. unfold spawn. cbn. by destruct (get_context (context s)).
Qed.
End spawn.
