(* ===== verification/KitContext.v ===== *)
(** * The two contexts of the kit

    [ic-kit/src/{wasm,interface,ic}.rs]: the functions of [ic] go to the mock context
    outside of wasm and to [IcContext] in wasm, which keeps the typed storage itself
    and leaves the rest to [ic_cdk].  The code of a canister is a program of calls of
    these functions, which each context interprets; the theorem is that what a test
    on the mock context shows is what happens on the platform, for programs that stay
    within what the mock context represents.  The canister that the tests of [mock.rs]
    run is such a program. *)

From stdpp Require Import pretty.
From S2P Require Import Prelude Kit KitCycles KitMethods.
Local Open Scope Z_scope.
Local Open Scope sdk_scope.

(** ** The functions of ic.rs *)

Section programs.
Context `{StoredTypes}.

(** [IcCall] is [ic::call_raw(..).await]; [IcCallDropped] drops the future without
    awaiting it.  The error of the stable functions is its message. *)
Inductive op : Type -> Type :=
  | IcTrap (message : string) : op Empty_set
  | IcId : op Principal
  | IcTime : op Z
  | IcBalance128 : op Z
  | IcCaller : op Principal
  | IcMsgCyclesAvailable : op Z
  | IcMsgCyclesAccept (amount : Z) : op Z
  | IcMsgCyclesRefunded : op Z
  | IcStore (i : TypeId) (v : ty i) : op unit
  | IcGetMaybe (i : TypeId) : op (option (ty i))
  | IcGet (i : TypeId) : op (ty i)
  | IcGetMut (i : TypeId) (f : ty i -> ty i) : op (ty i)
  | IcDelete (i : TypeId) : op bool
  | IcStableStore (encoded : result (list Z) string) : op (result unit string)
  | IcStableRestore {A} (decode : list Z -> result A string) : op (result A string)
  | IcCall (id : Principal) (method : string) (args_raw : list Z) (cycles : Z) : op CallResult
  | IcCallDropped (id : Principal) (method : string) (args_raw : list Z) (cycles : Z) : op unit
  | IcSetCertifiedData (data : list Z) : op unit
  | IcDataCertificate : op (option (list Z)).

(** The code of a canister: what it calls, and how it goes on with the answer. *)
Inductive prog (A : Type) : Type :=
  | Return (a : A)
  | Do {X : Type} (o : op X) (k : X -> prog A).
Arguments Return {A} a.
Arguments Do {A X} o k.

Fixpoint prog_then {A B} (f : A -> prog B) (q : prog A) : prog B :=
  match q with
  | Return a => f a
  | Do o k => Do o (fun x => prog_then f (k x))
  end.

#[export] Instance prog_ret : MRet prog := @Return.
#[export] Instance prog_bind : MBind prog := @prog_then.

Definition do {X} (o : op X) : prog X := Do o Return.

(** A panic of the code itself. *)
Definition lift {A} (o : outcome A) : prog A :=
  match o with
  | Ret a => Return a
  | Panic => Do (IcTrap EmptyString) (fun e => match e with end)
  end.

(** A context interprets the calls. *)
Class Interpreter (S : Type) := step : forall X, op X -> S -> outcome (X * S).

Fixpoint run {S A} `{Interpreter S} (q : prog A) (s : S) : outcome (A * S) :=
  match q with
  | Return a => Ret (a, s)
  | Do o k => '(x, s) ← step _ o s; run (k x) s
  end.

Lemma run_bind {S A B} `{Interpreter S} (q : prog A) (f : A -> prog B) s :
  run (q ≫= f) s = '(a, s) ← run q s; run (f a) s.
Proof.
  revert s. induction q as [a|X o k IH]; intros s; [done|]. cbn.
  destruct (step X o s) as [[x s']|]; [|done]. apply IH.
Qed.

(** [ic::call_with_payment], and a described method. *)
Definition call_with_payment {R} (decode : list Z -> option R) (id : Principal) (method : string)
    (args_raw : list Z) (cycles : Z) : prog (result R (Z * string)) :=
  res ← do (IcCall id method args_raw cycles);
  match res with
  | Err e => Return (Err e)
  | Ok bytes => r ← lift (expect (decode bytes)); Return (Ok r)
  end.

Definition perform_with_payment (M : Type)
    `{Method M, !ArgumentEncoder (Arguments M), !ArgumentDecoder (Response M)}
    (id : Principal) (args : Arguments M) (cycles : Z) : prog (result (Response M) (Z * string)) :=
  args_raw ← lift (expect (encode_args args));
  call_with_payment decode_args id (NAME M) args_raw cycles.
End programs.

Arguments prog {_} A.
Arguments Return {_ A} a.
Arguments Do {_ A X} o k.

(** ** On the mock context *)

#[export] Instance mock_interpreter `{StoredTypes, Target, KitEnv} :
    Interpreter (option MockContext) := fun X o =>
  match o in op X return option MockContext -> outcome (X * option MockContext) with
  | IcTrap message => fun thread => e ← ic_trap message thread; Ret (e, thread)
  | IcId => ic_id
  | IcTime => ic_time
  | IcBalance128 => ic_balance128
  | IcCaller => ic_caller
  | IcMsgCyclesAvailable => ic_msg_cycles_available
  | IcMsgCyclesAccept n => ic_msg_cycles_accept n
  | IcMsgCyclesRefunded => ic_msg_cycles_refunded
  | IcStore i v => ic_store i v
  | IcGetMaybe i => ic_get_maybe i
  | IcGet i => ic_get i
  | IcGetMut i f => ic_get_mut i f
  | IcDelete i => ic_delete i
  | IcStableStore encoded => ic_stable_store encoded
  | IcStableRestore decode => ic_stable_restore decode
  | IcCall id method args cycles => ic_call_raw id method args cycles
  | IcCallDropped id method args cycles =>
      fun thread => '(_, thread) ← ic_call_raw id method args cycles thread; Ret (tt, thread)
  | IcSetCertifiedData data => ic_set_certified_data data
  | IcDataCertificate => ic_data_certificate
  end.

(** A described method is the one of [KitMethods]. *)
Lemma run_perform_with_payment `{StoredTypes, Target, KitEnv} (M : Type)
    `{Method M, !ArgumentEncoder (Arguments M), !ArgumentDecoder (Response M)} id args cycles x :
  run (perform_with_payment M id args cycles) (Some x) =
  KitMethods.perform_with_payment M id args cycles (Some x).
Proof.
  unfold perform_with_payment, KitMethods.perform_with_payment. rewrite run_bind.
  destruct (encode_args args) as [args_raw|]; [|done]. cbn.
  unfold call_with_payment, ic_call_with_payment, ic_call_raw, on_context. cbn.
  unfold Kit.call_with_payment. destruct (call_raw _ _ _ _ x) as [[[bytes|e] x']|]; [|done..]. cbn.
  by destruct (decode_args bytes).
Qed.

(** ** On the platform *)

(** [ic_cdk], over the state of the platform. *)
Class Platform (P : Type) := {
  cdk_id : P -> Principal;
  cdk_time : P -> Z;
  cdk_canister_balance : P -> outcome Z;
  cdk_canister_balance128 : P -> Z;
  cdk_caller : P -> outcome Principal;
  cdk_msg_cycles_available : P -> Z;
  cdk_msg_cycles_accept : Z -> P -> Z * P;
  cdk_msg_cycles_refunded : P -> outcome Z;
  cdk_stable_save : result (list Z) string -> P -> result unit string * P;
  cdk_stable_restore : forall A, (list Z -> result A string) -> P -> result A string;
  cdk_call_raw : Principal -> string -> list Z -> Z -> P -> CallResult * P;
  cdk_set_certified_data : list Z -> P -> outcome P;
  cdk_data_certificate : P -> option (list Z);
}.
Arguments cdk_stable_restore {_ _ A}.

Module IcContext.
Section ic_context.
Context `{StoredTypes} {P : Type} `{Platform P}.

Record t := mk { storage : gmap TypeId Any }.

(** The singleton: created when it is first used. *)
Definition context (CONTEXT : option t) : t := default (mk ∅) CONTEXT.

(** The trait [Context]. *)
Definition trap (message : string) (p : P) : outcome Empty_set := Panic.
Definition id (p : P) : Principal := cdk_id p.
Definition time (p : P) : Z := cdk_time p.
Definition balance (p : P) : outcome Z := cdk_canister_balance p.
Definition balance128 (p : P) : Z := cdk_canister_balance128 p.
Definition caller (p : P) : outcome Principal := cdk_caller p.
Definition msg_cycles_available (p : P) : Z := cdk_msg_cycles_available p.
Definition msg_cycles_accept (amount : Z) (p : P) : Z * P := cdk_msg_cycles_accept amount p.
Definition msg_cycles_refunded (p : P) : outcome Z := cdk_msg_cycles_refunded p.

Definition store (i : TypeId) (data : ty i) (self : t) : t :=
  mk (<[i := mk_any _ i data]> (storage self)).

Definition get_maybe (i : TypeId) (self : t) : outcome (option (ty i)) :=
  match storage self !! i with
  | Some b => Some <$> expect (downcast i b)
  | None => Ret None
  end.

(** [entry(type_id).or_insert_with(..)], and what the caller does through the
    reference. *)
Definition get_mut (i : TypeId) (f : ty i -> ty i) (self : t) : outcome (ty i * t) :=
  let '(b, self) := match storage self !! i with
                    | Some b => (b, self)
                    | None => let b := mk_any _ i (default_of i) in
                              (b, mk (<[i := b]> (storage self)))
                    end in
  v ← expect (downcast i b); Ret (v, mk (<[i := mk_any _ i (f v)]> (storage self))).

(** The trait's own [get], which [IcContext] does not override. *)
Definition get (i : TypeId) (self : t) : outcome (ty i * t) := get_mut i (fun v => v) self.

Definition delete (i : TypeId) (self : t) : bool * t :=
  (bool_decide (is_Some (storage self !! i)), mk (base.delete i (storage self))).

Definition stable_store (encoded : result (list Z) string) (p : P) : result unit string * P :=
  cdk_stable_save encoded p.
Definition stable_restore {A} (decode : list Z -> result A string) (p : P) : result A string :=
  cdk_stable_restore decode p.

(** The future owns its arguments; nothing happens before it is polled. *)
Record Future := mk_future {
  fut_id : Principal;
  fut_method : string;
  fut_args : list Z;
  fut_cycles : Z;
}.

Definition call_raw (id : Principal) (method : string) (args_raw : list Z) (cycles : Z) : Future :=
  mk_future id method args_raw cycles.

Definition await (future : Future) (p : P) : CallResult * P :=
  cdk_call_raw (fut_id future) (fut_method future) (fut_args future) (fut_cycles future) p.

Definition set_certified_data (data : list Z) (p : P) : outcome P := cdk_set_certified_data data p.
Definition data_certificate (p : P) : option (list Z) := cdk_data_certificate p.

(** [ic.rs] in wasm: the static and the platform. *)
Definition World : Type := option t * P.

Definition on_self {A} (f : t -> outcome (A * t)) (w : World) : outcome (A * World) :=
  '(a, self) ← f (context w.1); Ret (a, (Some self, w.2)).

Definition on_platform {A} (f : P -> outcome (A * P)) (w : World) : outcome (A * World) :=
  '(a, p) ← f w.2; Ret (a, (Some (context w.1), p)).

#[global] Instance interpreter : Interpreter World := fun X o =>
  match o in op X return World -> outcome (X * World) with
  | IcTrap message => on_platform (fun p => e ← trap message p; Ret (e, p))
  | IcId => on_platform (fun p => Ret (id p, p))
  | IcTime => on_platform (fun p => Ret (time p, p))
  | IcBalance128 => on_platform (fun p => Ret (balance128 p, p))
  | IcCaller => on_platform (fun p => a ← caller p; Ret (a, p))
  | IcMsgCyclesAvailable => on_platform (fun p => Ret (msg_cycles_available p, p))
  | IcMsgCyclesAccept n => on_platform (fun p => Ret (msg_cycles_accept n p))
  | IcMsgCyclesRefunded => on_platform (fun p => n ← msg_cycles_refunded p; Ret (n, p))
  | IcStore i v => on_self (fun self => Ret (tt, store i v self))
  | IcGetMaybe i => on_self (fun self => v ← get_maybe i self; Ret (v, self))
  | IcGet i => on_self (get_mut i (fun v => v))
  | IcGetMut i f => on_self (get_mut i f)
  | IcDelete i => on_self (fun self => Ret (delete i self))
  | IcStableStore encoded => on_platform (fun p => Ret (stable_store encoded p))
  | IcStableRestore decode => on_platform (fun p => Ret (stable_restore decode p, p))
  | IcCall id method args cycles =>
      on_platform (fun p => Ret (await (call_raw id method args cycles) p))
  | IcCallDropped id method args cycles =>
      on_platform (fun p => let future := call_raw id method args cycles in Ret (tt, p))
  | IcSetCertifiedData data => on_platform (fun p => p ← set_certified_data data p; Ret (tt, p))
  | IcDataCertificate => on_platform (fun p => Ret (data_certificate p, p))
  end.
End ic_context.
Arguments World {_} P.
End IcContext.

(** ** What the platform promises *)

(** What a canister can see of the platform in the message that it handles: the caller
    until it has called another canister, the refund afterwards.  The calls made are
    recorded for the theorems. *)
Record View := mk_view {
  v_id : Principal;
  v_time : Z;
  v_caller : option Principal;
  v_available : Z;
  v_refunded : option Z;
  v_stable : list Z;
  v_certified : option (list Z);
  v_calls : list Watcher.WatcherCall;
}.

Definition accepted_view (n : Z) (v : View) : View :=
  mk_view (v_id v) (v_time v) (v_caller v) (v_available v - n) (v_refunded v) (v_stable v)
    (v_certified v) (v_calls v).
Definition saved_view (bs : list Z) (v : View) : View :=
  mk_view (v_id v) (v_time v) (v_caller v) (v_available v) (v_refunded v) bs (v_certified v)
    (v_calls v).
Definition certified_view (data : list Z) (v : View) : View :=
  mk_view (v_id v) (v_time v) (v_caller v) (v_available v) (v_refunded v) (v_stable v) (Some data)
    (v_calls v).
(** A call ends at a later time, in a message of its own. *)
Definition called_view (time : Z) (call : Watcher.WatcherCall) (v : View) : View :=
  mk_view (v_id v) time None (v_available v) (Some (Watcher.cycles_refunded call)) (v_stable v)
    (v_certified v) (v_calls v ++ [call]).

Section portability.
Context `{StoredTypes, Target, KitEnv}.

(** The documented behaviour of [ic_cdk].  Stable memory grows in pages and is not cut
    off, so what was saved is followed by more bytes.  [serves p hs]: the platform has
    the cycles for what is called, and the other canisters answer as the handlers do;
    no other message of the canister is handled meanwhile. *)
Class PlatformLaws (P : Type) `{Platform P} := {
  view : P -> View;
  stable_limit : Z;
  serves : P -> list Handler -> Prop;
  id_law p : cdk_id p = v_id (view p);
  time_law p : cdk_time p = v_time (view p);
  caller_law p a : v_caller (view p) = Some a -> cdk_caller p = Ret a;
  available_law p : cdk_msg_cycles_available p = v_available (view p);
  refunded_law p n : v_refunded (view p) = Some n -> cdk_msg_cycles_refunded p = Ret n;
  restore_law {A} (decode : list Z -> result A string) p :
    cdk_stable_restore decode p = decode (v_stable (view p));
  accept_law n p : 0 <= n < 2 ^ 64 -> 0 <= v_available (view p) ->
    let accepted := Z.min n (v_available (view p)) in
    exists p', cdk_msg_cycles_accept n p = (accepted, p') /\
      view p' = accepted_view accepted (view p) /\ (forall hs, serves p hs -> serves p' hs);
  save_law bs p : zlength bs <= stable_limit ->
    exists rest p', cdk_stable_save (Ok bs) p = (Ok tt, p') /\
      view p' = saved_view (bs ++ rest) (view p) /\ (forall hs, serves p hs -> serves p' hs);
  unsaved_law e p : cdk_stable_save (Err e) p = (Err e, p);
  certify_law data p : zlength data <= 32 ->
    exists p', cdk_set_certified_data data p = Ret p' /\
      view p' = certified_view data (view p) /\ (forall hs, serves p hs -> serves p' hs);
  call_law id method args cycles p hs res refunded hs' :
    serves p hs -> dispatch hs (v_id (view p)) cycles id method args = Ret (res, refunded, hs') ->
    exists time p', cdk_call_raw id method args cycles p = (res, p') /\
      view p' = called_view time (Watcher.mk_call id method args cycles refunded) (view p) /\
      serves p' hs';
}.

Context {P : Type} `{!Platform P, !PlatformLaws P}.
(** The encodings of candid; a decoder stops at the end of the message. *)
Context (message : list Z -> Prop).

(** Programs that the mock context represents: the time and the balance are not the
    mock's once the platform has run other messages or charged for this one, a refund
    is only known after a call, the certificate is the platform's, and a call happens
    when it is awaited. *)
Definition op_portable (called : bool) {X} (o : op X) : Prop :=
  match o with
  | IcTime => called = false
  | IcMsgCyclesRefunded => called = true
  | IcMsgCyclesAccept n => 0 <= n < 2 ^ 64
  | IcStableStore (Ok bs) => message bs /\ zlength bs <= stable_limit
  | IcStableRestore decode => forall bs rest, message bs -> decode (bs ++ rest) = decode bs
  | IcBalance128 | IcDataCertificate | IcCallDropped _ _ _ _ => False
  | _ => True
  end.

Definition is_call {X} (o : op X) : bool := match o with IcCall _ _ _ _ => true | _ => false end.

Fixpoint portable {A} (called : bool) (q : prog A) : Prop :=
  match q with
  | Return _ => True
  | Do o k => op_portable called o /\ forall x, portable (called || is_call o) (k x)
  end.

Lemma portable_then {A B} called (q : prog A) (f : A -> prog B) :
  portable called q -> (forall called a, portable called (f a)) -> portable called (q ≫= f).
Proof.
  intros Hq Hf. revert called Hq. induction q as [a|X o k IH]; intros called Hq; [apply Hf|].
  destruct Hq as [Ho Hk]. split; [done|]. intros x. by apply IH.
Qed.

(** ** Related contexts *)

Definition stable_agrees (bs mem : list Z) : Prop :=
  mem = bs \/ (message bs /\ exists rest, mem = bs ++ rest).

Record agrees (c : Core.t) (v : View) : Prop := {
  agrees_id : Core.id c = v_id v;
  agrees_first : Core.is_reply_callback_mode c = false ->
    Core.time c = v_time v /\ v_caller v = Some (Core.caller c);
  agrees_cycles : Core.cycles c = v_available v /\ 0 <= v_available v < 2 ^ 64;
  agrees_refunded : Core.is_reply_callback_mode c = true ->
    v_refunded v = Some (Core.cycles_refunded c);
  agrees_stable : stable_agrees (Core.stable c) (v_stable v);
  agrees_certified : Core.certified_data c = v_certified v;
  agrees_calls : Watcher.calls (Core.watcher c) = v_calls v;
}.

Record related (x : MockContext) (w : IcContext.World P) : Prop := {
  related_storage : Core.storage (core x) = IcContext.storage (IcContext.context w.1);
  related_typed : storage_typed (core x);
  related_view : agrees (core x) (view w.2);
  related_serves : serves w.2 (handlers x);
}.

Notation mode x := (Core.is_reply_callback_mode (core x)).

(** One call on both contexts. *)
Definition simulated {X} (called : bool) (o : op X) (x : MockContext) (w : IcContext.World P) : Prop :=
  forall a thread, step X o (Some x) = Ret (a, thread) ->
    exists x' w', thread = Some x' /\ step X o w = Ret (a, w') /\ related x' w' /\
      mode x' = called || is_call o.

Ltac simulate := intros a thread; cbn; unfold on_core, on_context; cbn.

(** Reading, and marking the watcher. *)
Lemma agrees_touch f c v : agrees c v -> agrees (Core.touch f c) v.
Proof. by intros []; split. Qed.

Lemma agrees_set_storage m c v : agrees c v -> agrees (Core.set_storage m c) v.
Proof. by intros []; split. Qed.

Lemma agrees_modify i c v : agrees c v -> agrees (Core.modify i c) v.
Proof. by intros []; split. Qed.

Lemma related_touch f x self p :
  related x (self, p) ->
  related (mk_context (Core.touch f (core x)) (handlers x)) (Some (IcContext.context self), p).
Proof. intros [Hs Ht Hv Hh]. split; [done..|by apply agrees_touch|done]. Qed.

Lemma related_storage_update x self p c m :
  related x (self, p) -> agrees c (view p) -> Core.storage c = m -> storage_typed c ->
  related (mk_context c (handlers x)) (Some (IcContext.mk m), p).
Proof. intros [Hs Ht Hv Hh] Hc Hm Htc. by split. Qed.

Lemma simulated_platform_read {X} (o : op X) (f : Called) (g : Core.t -> X) x self p :
  step X o (Some x) = Ret (g (core x), Some (mk_context (Core.touch f (core x)) (handlers x))) ->
  step X o (self, p) = Ret (g (core x), (Some (IcContext.context self), p)) ->
  is_call o = false -> related x (self, p) -> simulated (mode x) o x (self, p).
Proof.
  intros Hm Hp Hc Hr a thread. rewrite Hm. intros [= <- <-]. eexists _, _. split; [done|].
  split; [exact Hp|]. split; [by apply related_touch|]. rewrite Hc. by rewrite orb_false_r.
Qed.


Lemma get_mut_frame i f c v c' :
  Core.get_mut i f c = Ret (v, c') -> exists m, c' = Core.set_storage m (Core.modify i c).
Proof.
  unfold Core.get_mut, Core.or_default. destruct (Core.storage _ !! i) as [b|]; cbn.
  - destruct (downcast i b); [|done]. cbn. intros [= _ <-]. by eexists.
  - rewrite downcast_same. cbn. intros [= _ <-]. by eexists.
Qed.

Lemma simulated_get_mut i f x self p :
  related x (self, p) -> simulated (mode x) (IcGetMut i f) x (self, p).
Proof.
  intros Hr. destruct (get_mut_spec i f (core x) (related_typed _ _ Hr)) as (c' & Hc & Ht & _).
  simulate. rewrite Hc. cbn. intros [= <- <-].
  destruct (get_mut_frame _ _ _ _ _ Hc) as [m Hm].
  assert (agrees c' (view p)) as Ha.
  { rewrite Hm. apply agrees_set_storage, agrees_modify, (related_view _ _ Hr). }
  exists (mk_context c' (handlers x)), (Some (IcContext.mk (Core.storage c')), p).
  split; [done|]. split; [|split; [by eapply related_storage_update|by rewrite Hm, orb_false_r]].
  pose proof (related_storage _ _ Hr) as Hs. cbn in Hs.
  revert Hc. unfold Core.get_mut, Core.or_default, IcContext.on_self, IcContext.get_mut. cbn.
  rewrite <-Hs. destruct (Core.storage (core x) !! i) as [b|] eqn:Hb; cbn.
  - destruct (downcast i b) as [v|]; [|done]. cbn. intros [= <- <-]. cbn. by rewrite Hs.
  - rewrite downcast_same. cbn. intros [= <- <-]. cbn. by rewrite Hs.
Qed.

Lemma simulated_storage {X} (o : op X) x self p :
  match o with
  | IcStore _ _ | IcGetMaybe _ | IcGet _ | IcGetMut _ _ | IcDelete _ => True
  | _ => False
  end -> related x (self, p) -> simulated (mode x) o x (self, p).
Proof.
  intros Ho Hr. pose proof (related_typed _ _ Hr) as Ht. pose proof (related_view _ _ Hr) as Hv.
  pose proof (related_storage _ _ Hr) as Hs. cbn in Hs.
  destruct o; try done; try by apply simulated_get_mut.
  - simulate. intros [= <- <-]. eexists _, _. split; [done|]. split; [done|].
    split; [|by rewrite orb_false_r]. eapply related_storage_update; [done|..].
    + by apply agrees_set_storage, agrees_modify.
    + cbn. by rewrite Hs.
    + by apply (typed_insert (Core.modify i (core x))).
  - simulate. unfold IcContext.on_self, IcContext.get_maybe, Core.get_maybe. rewrite <-Hs.
    destruct (Core.storage (core x) !! i) as [b|]; cbn; [destruct (downcast i b); cbn; [|done]|].
    all: intros [= <- <-]; eexists _, _; split; [done|]; split; [done|].
    all: split; [|by rewrite orb_false_r]; destruct Hr; by split.
  - simulate. intros [= <- <-]. eexists _, _. split; [done|].
    split; [unfold IcContext.on_self, IcContext.delete; by rewrite <-Hs|].
    split; [|by rewrite orb_false_r]. eapply related_storage_update; [done|..].
    + by apply agrees_set_storage, agrees_modify.
    + done.
    + apply (delete_spec i (core x) Ht).
Qed.

Lemma simulated_accept n x self p :
  0 <= n < 2 ^ 64 -> related x (self, p) -> simulated (mode x) (IcMsgCyclesAccept n) x (self, p).
Proof.
  intros Hn [Hs Ht [Hid Hfst [Hcy Hpos] Href Hst Hce Hca] Hh]. cbn [snd] in *. simulate.
  destruct (accept_law n p Hn (proj1 Hpos)) as (p' & Hp & Hv' & Hh').
  assert (forall c', Core.msg_cycles_accept n (core x) = Ret c' ->
    c'.1 = Z.min n (v_available (view p)) /\ agrees c'.2 (view p') /\
    Core.is_reply_callback_mode c'.2 = mode x /\ Core.storage c'.2 = Core.storage (core x)) as Hacc.
  { intros c' Hc'. unfold Core.msg_cycles_accept in Hc'. cbn in Hc'. rewrite Hcy, Hv' in *.
    destruct (v_available (view p) <? n) eqn:Hlt; [apply Z.ltb_lt in Hlt|apply Z.ltb_ge in Hlt].
    - inv_outcome. cbn. split_and!; [lia| |done..]. split; cbn; try done. lia.
    - inv_outcome. rename select (u_sub _ _ _ = _) into Hsub.
      rewrite u_sub_ok in Hsub by lia. inv_outcome. cbn. split_and!; [lia| |done..].
      split; cbn; try done. lia. }
  destruct (Core.msg_cycles_accept n (core x)) as [[r c']|]; [|done]. cbn. intros [= <- <-].
  destruct (Hacc (r, c') eq_refl) as (Hr1 & Ha & Hm & Hst'). cbn in *. subst r.
  eexists _, _. split; [done|]. split; [unfold IcContext.on_platform, IcContext.msg_cycles_accept; cbn; by rewrite Hp|].
  split; [|cbn; by rewrite Hm, orb_false_r]. split; cbn; [by rewrite Hst'|by intros i b; cbn; rewrite Hst'; apply Ht|done|by apply Hh'].
Qed.

Lemma simulated_save encoded x self p :
  op_portable (mode x) (IcStableStore encoded) -> related x (self, p) ->
  simulated (mode x) (IcStableStore encoded) x (self, p).
Proof.
  intros Ho [Hs Ht [Hid Hfst Hcy Href Hst Hce Hca] Hh]. cbn [snd] in *. simulate.
  unfold IcContext.on_platform, IcContext.stable_store. cbn.
  destruct encoded as [bs|e]; cbn in *; intros [= <- <-].
  - destruct Ho as [Hm Hl]. destruct (save_law bs p Hl) as (rest & p' & Hp & Hv' & Hh').
    eexists _, _. split; [done|]. rewrite Hp. split; [done|]. split; [|by rewrite orb_false_r].
    split; cbn; [done..| |by apply Hh']. rewrite Hv'. split; cbn; try done.
    right. split; [done|by eexists].
  - eexists _, _. split; [done|]. rewrite unsaved_law. split; [done|].
    split; [|by rewrite orb_false_r]. by split.
Qed.

Lemma simulated_restore {A} (decode : list Z -> result A string) x self p :
  op_portable (mode x) (IcStableRestore decode) -> related x (self, p) ->
  simulated (mode x) (IcStableRestore decode) x (self, p).
Proof.
  intros Ho Hr. pose proof (agrees_stable _ _ (related_view _ _ Hr)) as Hst. cbn in Ho, Hst.
  assert (decode (v_stable (view p)) = decode (Core.stable (core x))) as Hd.
  { destruct Hst as [->|[Hm [rest ->]]]; [done|by apply Ho]. }
  apply (simulated_platform_read _ called_stable_restore (fun c => decode (Core.stable c))); [done| |done..].
  cbn. unfold IcContext.on_platform, IcContext.stable_restore. by rewrite restore_law, <-Hd.
Qed.

Lemma sign_Ret data cert : Core.sign data = Ret cert -> zlength data <= 32.
Proof. unfold Core.sign. destruct (32 <? zlength data) eqn:Hl; [done|]. by apply Z.ltb_ge in Hl. Qed.

Lemma simulated_certify data x self p :
  related x (self, p) -> simulated (mode x) (IcSetCertifiedData data) x (self, p).
Proof.
  intros [Hs Ht [Hid Hfst Hcy Href Hst Hce Hca] Hh]. cbn [snd] in *. simulate.
  unfold Core.set_certified_data. destruct (32 <? zlength data); [done|].
  destruct (Core.sign data) as [cert|] eqn:Hsign; [|done]. cbn. intros [= <- <-].
  destruct (certify_law data p (sign_Ret _ _ Hsign)) as (p' & Hp & Hv' & Hh').
  eexists _, _. split; [done|]. unfold IcContext.on_platform, IcContext.set_certified_data. cbn.
  rewrite Hp. split; [done|]. split; [|by rewrite orb_false_r].
  split; cbn; [done..| |by apply Hh']. rewrite Hv'. by split.
Qed.

(** What a call does to the mock context. *)
Lemma call_raw_core id method args cycles x res x' :
  call_raw id method args cycles x = Ret (res, x') ->
  exists refunded b,
    dispatch (handlers x) (Core.id (core x)) cycles id method args = Ret (res, refunded, handlers x') /\
    let c := Core.set_mode true (Core.trapped (core x)) (core x) in
    core x' = Core.set_watcher
      (Watcher.record_call (Watcher.mk_call id method args cycles refunded) (Core.watcher c))
      (Core.update_balance b (Core.set_refunded refunded c)).
Proof.
  unfold call_raw, send_cycles, receive_refund. destruct (_ <? cycles); [done|].
  intros Hr. inv_outcome. repeat case_match; inv_outcome.
  eexists _, _. split; [eassumption|]. done.
Qed.

Lemma simulated_call id method args cycles x self p :
  related x (self, p) -> simulated (mode x) (IcCall id method args cycles) x (self, p).
Proof.
  intros [Hs Ht [Hid Hfst Hcy Href Hst Hce Hca] Hh]. cbn [snd] in *. simulate.
  unfold ic_call_raw, on_context. cbn.
  destruct (call_raw id method args cycles x) as [[res x']|] eqn:Hcall; [|done]. cbn. intros [= <- <-].
  apply call_raw_core in Hcall as (refunded & b & Hd & Hx'). rewrite Hid in Hd.
  destruct (call_law id method args cycles p _ _ _ _ Hh Hd) as (time & p' & Hp & Hv' & Hh').
  exists x', (Some (IcContext.context self), p'). split; [done|].
  unfold IcContext.on_platform, IcContext.await, IcContext.call_raw. cbn. rewrite Hp.
  split; [done|]. split; [|rewrite Hx'; cbn; by rewrite orb_true_r].
  split; rewrite ?Hx'; cbn; try done. rewrite Hv'. split; cbn; try done. by rewrite Hca.
Qed.

Lemma step_simulates {X} (o : op X) x self p :
  op_portable (mode x) o -> related x (self, p) -> simulated (mode x) o x (self, p).
Proof.
  intros Ho Hr. pose proof (related_view _ _ Hr) as [Hid Hfst [Hcy _] Href _ _ _]. cbn in Hid, Hcy.
  destruct o; try done; try by apply simulated_storage.
  - apply (simulated_platform_read _ called_id Core.id); [done| |done..].
    cbn. unfold IcContext.on_platform, IcContext.id. by rewrite id_law, Hid.
  - apply (simulated_platform_read _ called_time Core.time); [done| |done..].
    cbn in *. unfold IcContext.on_platform, IcContext.time. by rewrite time_law, (proj1 (Hfst Ho)).
  - destruct (mode x) eqn:Hm; [simulate; unfold Core.ic_caller; cbn; by rewrite Hm|]. rewrite <-Hm.
    apply (simulated_platform_read _ called_caller Core.caller); [|..|done|done].
    + cbn. unfold ic_caller, on_core, on_context, Core.ic_caller. cbn. by rewrite Hm.
    + cbn. unfold IcContext.on_platform, IcContext.caller. by rewrite (caller_law p _ (proj2 (Hfst eq_refl))).
  - apply (simulated_platform_read _ called_msg_cycles_available Core.cycles); [done| |done..].
    cbn. unfold IcContext.on_platform, IcContext.msg_cycles_available. by rewrite available_law, Hcy.
  - by apply simulated_accept.
  - apply (simulated_platform_read _ called_msg_cycles_refunded Core.cycles_refunded); [done| |done..].
    cbn in *. unfold IcContext.on_platform, IcContext.msg_cycles_refunded.
    by rewrite (refunded_law p _ (Href Ho)).
  - by apply simulated_save.
  - by apply simulated_restore.
  - by apply simulated_call.
  - by apply simulated_certify.
Qed.

(** C25: What is tested is what happens: a portable program that returns on the mock
    context returns the same value in wasm on a platform that serves the canister as
    the handlers of the mock context do; afterwards the typed storage, the stable
    memory, the cycles of the message and the certified data are the same, and the
    calls that the watcher has recorded are the calls that were made. *)
Theorem tested_program_on_ic {A} (q : prog A) x w a thread :
  portable (mode x) q -> related x w -> run q (Some x) = Ret (a, thread) ->
  exists x' w', thread = Some x' /\ run q w = Ret (a, w') /\ related x' w'.
Proof.
  revert x w. induction q as [a0|X o k IH]; intros x [self p] Hq Hr.
  { intros [= <- <-]. by exists x, (self, p). }
  destruct Hq as [Ho Hk]. cbn [run]. intros Hrun. apply outcome_bind_Ret in Hrun as ([b s] & Hs & Hrun).
  destruct (step_simulates o x self p Ho Hr b s Hs) as (x1 & w1 & -> & Hw & Hr1 & Hm).
  rewrite Hw. cbn [mbind outcome_bind]. apply (IH b x1 w1); [|done..]. rewrite Hm. apply Hk.
Qed.
End portability.

(** ** The canister of the tests of mock.rs *)

(** It stores a [Counter] and a number. *)
Definition Counter : Type := gmap Z Z.

Definition test_types : StoredTypes := {|
  TypeId := bool;
  ty b := if b then Counter else Z;
  default_of b := match b with true => ∅ | false => 0 end;
|}.

Module TestCanister.
#[local] Existing Instance test_types.
#[local] Existing Instance Management.deposit_cycles.

Definition counter : TypeId := true.
Definition user : TypeId := false.

(** Candid's encodings of the types it uses, and a principal of [candid]. *)
Class Candid := {
  encode_counter : Counter -> result (list Z) string;
  decode_counter : list Z -> result Counter string;
  #[global] encode_deposit :: ArgumentEncoder (Arguments Management.DepositCycles);
  #[global] decode_deposit :: ArgumentDecoder (Response Management.DepositCycles);
  management_canister : Principal;
}.

Section canister.
Context `{Target, Candid}.

Definition whoami : prog Principal := do IcCaller.
Definition canister_id : prog Principal := do IcId.
Definition balance : prog Z := do IcBalance128.
Definition msg_cycles_available : prog Z := do IcMsgCyclesAvailable.
Definition msg_cycles_accept (cycles : Z) : prog Z := do (IcMsgCyclesAccept cycles).

(** Arithmetic on [i64]. *)
Definition i64 (n : Z) : outcome Z :=
  if (- 2 ^ 63 <=? n) && (n <? 2 ^ 63) then Ret n
  else if overflow_checks then Panic else Ret ((n + 2 ^ 63) mod 2 ^ 64 - 2 ^ 63).

(** [entry(key).or_insert(0)], and the use of the reference. *)
Definition count (step key : Z) : prog Z :=
  map ← do (IcGetMut counter (fun map => <[key := default 0 (map !! key)]> map) : op Counter);
  count ← lift (i64 (default 0 (map !! key) + step));
  _ ← do (IcGetMut counter (fun map => <[key := count]> map));
  Return count.

Definition increment : Z -> prog Z := count 1.
Definition decrement : Z -> prog Z := count (-1).

(** The reference to the user's balance is kept over the call; each use of it reads or
    writes what the context has stored. *)
Definition use_user (f : Z -> Z) : prog Z := do (IcGetMut user f).
Definition user_ref : prog Z := use_user (fun b => b).
Definition set_user (b : Z) : prog unit := _ ← use_user (fun _ => b); Return tt.
Definition add_user (n : Z) : prog unit := b ← user_ref; b ← lift (u_add 64 b n); set_user b.

Definition withdraw (canister_id : Principal) (amount : Z) : prog (result unit string) :=
  user_balance ← user_ref;
  if user_balance <? amount then Return (Err "Insufficient balance.")
  else
    left ← lift (u_sub 64 user_balance amount);
    _ ← set_user left;
    res ← perform_with_payment Management.DepositCycles management_canister
            (Management.mk_id canister_id) amount;
    match res with
    | Ok _ =>
        refunded ← do IcMsgCyclesRefunded;
        _ ← add_user refunded;
        Return (Ok tt)
    | Err (code, msg) =>
        refunded ← do IcMsgCyclesRefunded;
        _ ← lift (if amount =? refunded then Ret tt else Panic);
        _ ← add_user amount;
        Return (Err ("An error happened during the call: " +:+ pretty code +:+ ": " +:+ msg))
    end.

Definition user_balance : prog Z := do (IcGet user).

Definition pre_upgrade : prog unit :=
  map ← do (IcGet counter : op Counter);
  r ← do (IcStableStore (encode_counter map));
  lift (expect_ok r).

Definition post_upgrade : prog unit :=
  r ← do (IcStableRestore decode_counter);
  match r with Ok map => do (IcStore counter map) | Err _ => Return tt end.

Definition set_certified_data (data : list Z) : prog unit := do (IcSetCertifiedData data).
Definition data_certificate : prog (option (list Z)) := do IcDataCertificate.

(** ** Its accounts *)

Context `{KitEnv}.
Implicit Types x : MockContext.

Definition account x : Z := default 0 (stored_value (core x) user : option Z).

(** What the uses of the reference leave alone. *)
Definition only_user x x' : Prop :=
  storage_typed (core x') /\ handlers x' = handlers x /\
  Core.balance (core x') = Core.balance (core x) /\
  Core.cycles_refunded (core x') = Core.cycles_refunded (core x).

Lemma only_user_trans x1 x2 x3 : only_user x1 x2 -> only_user x2 x3 -> only_user x1 x3.
Proof. intros (? & ? & ? & ?) (? & ? & ? & ?). split_and!; [done|congruence..]. Qed.

Lemma only_user_context x x' : only_user x x' -> context_ok x -> context_ok x'.
Proof. intros (_ & Hh & Hb & _) []. by split; rewrite ?Hh, ?Hb. Qed.

Lemma run_use f x :
  storage_typed (core x) ->
  exists x', run (use_user f) (Some x) = Ret (account x, Some x') /\ account x' = f (account x) /\
    only_user x x'.
Proof.
  intros Ht. destruct (get_mut_spec user f (core x) Ht) as (c' & Hc & Ht' & Hv & _).
  destruct (get_mut_frame _ _ _ _ _ Hc) as [m Hm].
  exists (mk_context c' (handlers x)). cbn. unfold ic_get_mut, on_core, on_context. cbn. rewrite Hc.
  unfold account. cbn. rewrite Hv. split_and!; [done..|]. by rewrite Hm in *.
Qed.

Lemma run_set b x :
  storage_typed (core x) ->
  exists x', run (set_user b) (Some x) = Ret (tt, Some x') /\ account x' = b /\ only_user x x'.
Proof.
  intros Ht. destruct (run_use (fun _ => b) x Ht) as (x' & Hr & Hx).
  exists x'. split; [|done]. unfold set_user. by rewrite run_bind, Hr.
Qed.

Lemma run_add n x :
  storage_typed (core x) -> 0 <= account x + n < 2 ^ 64 ->
  exists x', run (add_user n) (Some x) = Ret (tt, Some x') /\ account x' = account x + n /\
    only_user x x'.
Proof.
  intros Ht Hn. destruct (run_use (fun b => b) x Ht) as (x1 & Hr1 & Ha1 & Hu1).
  destruct (run_set (account x + n) x1 (proj1 Hu1)) as (x2 & Hr2 & Ha2 & Hu2).
  exists x2. split; [|split; [done|by eapply only_user_trans]].
  unfold add_user, user_ref. rewrite run_bind, Hr1. cbn [mbind outcome_bind].
  rewrite run_bind, u_add_ok by lia. exact Hr2.
Qed.

(** The deposit: what is not refunded leaves the balance, the numbers stay. *)
Lemma run_deposit canister_id amount x res thread :
  context_ok x -> storage_typed (core x) -> 0 <= amount ->
  run (perform_with_payment Management.DepositCycles management_canister
         (Management.mk_id canister_id) amount) (Some x) = Ret (res, thread) ->
  exists x' refunded, thread = Some x' /\ 0 <= refunded <= amount /\
    Core.balance (core x') = Core.balance (core x) - (amount - refunded) /\
    Core.cycles_refunded (core x') = refunded /\ storage_typed (core x') /\ account x' = account x.
Proof.
  intros Hx Ht Ha Hrun. rewrite run_perform_with_payment in Hrun.
  destruct (perform_is_one_call _ _ _ _ _ _ _ Hx Ha Hrun)
    as (x' & args & refunded & bytes & -> & _ & Hcalls & Hr & Hb & Hraw & _).
  apply call_raw_core in Hraw as (refunded' & b & _ & Hc). cbn in Hc.
  assert (refunded' = refunded) as ->.
  { unfold calls_of in Hcalls. rewrite Hc in Hcalls. cbn in Hcalls. by simplify_list_eq. }
  exists x', refunded. split_and!; [done|lia|lia|done|by rewrite Hc|by rewrite Hc|].
  unfold account. by rewrite Hc.
Qed.

Lemma run_refunded x :
  exists x', run (do IcMsgCyclesRefunded) (Some x) = Ret (Core.cycles_refunded (core x), Some x') /\
    account x' = account x /\ (storage_typed (core x) -> only_user x x').
Proof. eexists. by split_and!. Qed.

(** What a withdrawal takes from the user is what it takes from the balance of the
    canister, and a failed one takes nothing. *)
Lemma withdraw_keeps_accounts canister_id amount x r thread :
  context_ok x -> storage_typed (core x) -> 0 <= amount -> 0 <= account x < 2 ^ 64 ->
  run (withdraw canister_id amount) (Some x) = Ret (r, thread) ->
  exists x', thread = Some x' /\ account x - amount <= account x' <= account x /\
    account x' - account x = Core.balance (core x') - Core.balance (core x) /\
    (is_ok r = false -> account x' = account x).
Proof.
  intros Hx Ht Ha Hb. unfold withdraw. rewrite run_bind.
  destruct (run_use (fun b => b) x Ht) as (x1 & Hr1 & Ha1 & Hu1). unfold user_ref. rewrite Hr1.
  cbn [mbind outcome_bind].
  destruct (account x <? amount) eqn:Hlt; [apply Z.ltb_lt in Hlt|apply Z.ltb_ge in Hlt].
  { intros [= <- <-]. exists x1. destruct Hu1 as (_ & _ & -> & _). split_and!; [done|lia..]. }
  rewrite u_sub_ok by lia. rewrite run_bind. cbn [lift run mbind outcome_bind].
  destruct (run_set (account x - amount) x1 (proj1 Hu1)) as (x2 & Hr2 & Ha2 & Hu2).
  rewrite run_bind, Hr2. cbn [mbind outcome_bind]. rewrite run_bind. intros Hrun.
  apply outcome_bind_Ret in Hrun as ([res s] & Hdep & Hrun).
  pose proof (only_user_trans _ _ _ Hu1 Hu2) as Hu.
  destruct (run_deposit _ _ _ _ _ (only_user_context _ _ Hu Hx) (proj1 Hu) Ha Hdep)
    as (x3 & refunded & -> & Hrf & Hb3 & Hrf3 & Ht3 & Ha3).
  destruct (run_refunded x3) as (x4 & Hr4 & Ha4 & Hu4). specialize (Hu4 Ht3).
  assert (forall n, 0 <= n <= amount -> exists x5, run (add_user n) (Some x4) = Ret (tt, Some x5) /\
    account x5 = account x - amount + n /\
    Core.balance (core x5) = Core.balance (core x) - (amount - refunded)) as Hadd.
  { intros n Hn. destruct (run_add n x4 (proj1 Hu4)) as (x5 & Hr5 & Ha5 & Hu5); [lia|].
    exists x5. split_and!; [done|lia|].
    destruct Hu as (_ & _ & Hu & _), Hu4 as (_ & _ & Hu4 & _), Hu5 as (_ & _ & Hu5 & _). lia. }
  destruct res as [[]|[code msg]]; rewrite run_bind, Hr4, Hrf3 in Hrun; cbn [mbind outcome_bind] in Hrun.
  - destruct (Hadd refunded Hrf) as (x5 & Hr5 & Ha5 & Hb5). rewrite run_bind, Hr5 in Hrun.
    injection Hrun as <- <-. exists x5. split_and!; [done|lia..|done].
  - destruct (amount =? refunded) eqn:Heq; [apply Z.eqb_eq in Heq|done].
    destruct (Hadd amount) as (x5 & Hr5 & Ha5 & Hb5); [lia|].
    rewrite run_bind in Hrun. cbn [lift run mbind outcome_bind] in Hrun. rewrite run_bind, Hr5 in Hrun.
    injection Hrun as <- <-. exists x5. split_and!; [done|lia..].
Qed.

(** ** Its programs are portable *)

Context {P : Type} `{!Platform P, !PlatformLaws P} (message : list Z -> Prop).

Ltac portably :=
  repeat (cbn; try done; first [split | intros ? | case_match]).

Lemma portable_lift {A B} called (o : outcome A) (f : A -> prog B) :
  (forall a, portable (P := P) message called (f a)) ->
  portable (P := P) message called (lift o ≫= f).
Proof. intros Hf. destruct o; [apply Hf|]. by split. Qed.

Lemma portable_use {A} called f (k : Z -> prog A) :
  (forall b, portable (P := P) message called (k b)) ->
  portable (P := P) message called (use_user f ≫= k).
Proof. intros Hk. split; [done|]. intros b. cbn. rewrite orb_false_r. apply Hk. Qed.

Lemma portable_count called step key : portable (P := P) message called (count step key).
Proof.
  split; [done|]. intros map. cbn [prog_then]. apply portable_lift. intros n. by split_and!.
Qed.

Lemma portable_add {A} called n (k : unit -> prog A) :
  portable (P := P) message called (k tt) -> portable (P := P) message called (add_user n ≫= k).
Proof.
  intros Hk. apply (portable_use called (fun b => b) (fun b => (b' ← lift (u_add 64 b n); set_user b') ≫= k)).
  intros b. cbn. destruct (u_add 64 b n); cbn; [|by split].
  split; [done|]. intros _. cbn. by rewrite orb_false_r.
Qed.

Lemma portable_withdraw called canister_id amount :
  portable (P := P) message called (withdraw canister_id amount).
Proof.
  unfold withdraw. apply (portable_use called (fun b => b)). intros b. destruct (b <? amount); [done|].
  apply portable_lift. intros left. unfold set_user.
  apply (portable_use called (fun _ => left) (fun b => Return tt ≫= _)). intros _. cbn.
  unfold perform_with_payment. cbn. destruct (encode_args _); cbn; [|by split].
  split; [done|]. intros res. rewrite orb_true_r. destruct res as [bytes|[code msg]]; cbn.
  - destruct (decode_args bytes); cbn; [|by split]. split; [done|]. intros n. cbn [orb].
    by apply (portable_add true n (fun _ => Return (Ok tt))).
  - split; [done|]. intros n. destruct (amount =? n); cbn [lift prog_then mbind prog_bind]; [|by split].
    by apply (portable_add true amount).
Qed.
(** An upgrade, for encodings of candid that fit into the stable memory. *)
Lemma portable_upgrade called :
  (forall map bs, encode_counter map = Ok bs -> message bs /\ zlength bs <= stable_limit (P := P)) ->
  (forall bs rest, message bs -> decode_counter (bs ++ rest) = decode_counter bs) ->
  portable (P := P) message called (pre_upgrade) /\ portable (P := P) message called (post_upgrade).
Proof.
  intros He Hd. split.
  - split; [done|]. intros map. cbn. split; [destruct (encode_counter map) eqn:Hm; [by apply (He map)|done]|].
    intros r. destruct r; cbn; [done|by split].
  - split; [exact Hd|]. intros [map|e]; by split.
Qed.
End canister.
End TestCanister.

(** ** A platform *)

#[local] Existing Instance x64_debug.
#[local] Existing Instance test_types.
#[local] Existing Instance test_env.

(** It serves the canister as some handlers do, charges for every call and lets time
    pass meanwhile. *)
Record ic := mk_ic { ic_view : View; ic_balance : Z; ic_handlers : list Handler }.

#[local] Instance ic_platform : Platform ic := {|
  cdk_id p := v_id (ic_view p);
  cdk_time p := v_time (ic_view p);
  cdk_canister_balance p := if ic_balance p <? 2 ^ 64 then Ret (ic_balance p) else Panic;
  cdk_canister_balance128 p := ic_balance p;
  cdk_caller p := expect (v_caller (ic_view p));
  cdk_msg_cycles_available p := v_available (ic_view p);
  cdk_msg_cycles_accept n p :=
    let n := Z.min n (v_available (ic_view p)) in
    (n, mk_ic (accepted_view n (ic_view p)) (ic_balance p + n) (ic_handlers p));
  cdk_msg_cycles_refunded p := expect (v_refunded (ic_view p));
  cdk_stable_save encoded p :=
    match encoded with
    | Ok bs => (Ok tt, mk_ic (saved_view (bs ++ drop (length bs) (v_stable (ic_view p))) (ic_view p))
                         (ic_balance p) (ic_handlers p))
    | Err e => (Err e, p)
    end;
  cdk_stable_restore A decode p := decode (v_stable (ic_view p));
  cdk_call_raw id method args cycles p :=
    match dispatch (ic_handlers p) (v_id (ic_view p)) cycles id method args with
    | Ret (res, refunded, hs) =>
        (res, mk_ic (called_view (v_time (ic_view p) + 5)
                       (Watcher.mk_call id method args cycles refunded) (ic_view p))
                (ic_balance p - cycles + refunded - 1) hs)
    | Panic => (Err (3, "no such canister"%string), p)
    end;
  cdk_set_certified_data data p :=
    if zlength data <=? 32
    then Ret (mk_ic (certified_view data (ic_view p)) (ic_balance p) (ic_handlers p)) else Panic;
  cdk_data_certificate p := None;
|}.

#[local] Instance ic_laws : PlatformLaws ic.
Proof.
  refine {| view := ic_view; stable_limit := 2 ^ 32; serves p hs := ic_handlers p = hs |}; try done.
  - intros p a. cbn. by intros ->.
  - intros p n. cbn. by intros ->.
  - intros n p _ _. eexists. split_and!; [done..|]. by intros hs.
  - intros bs p _. eexists _, _. split_and!; [done..|]. by intros hs.
  - intros data p Hl. cbn. rewrite (proj2 (Z.leb_le _ _) Hl). eexists. split_and!; [done..|]. by intros hs.
  - intros id method args cycles p hs res refunded hs' <- Hd. cbn. rewrite Hd. by eexists _, _.
Defined.

(** An encoding with one number per cell, behind the number of entries. *)
Fixpoint pairs (l : list Z) : Counter :=
  match l with k :: v :: l => <[k := v]> (pairs l) | _ => ∅ end.

#[local] Instance test_candid : TestCanister.Candid := {|
  TestCanister.encode_counter map :=
    let l := flat_map (fun p => [p.1; p.2]) (map_to_list map) in
    if zlength l <? 1000 then Ok (zlength l :: l) else Err "too large"%string;
  TestCanister.decode_counter bs :=
    match bs with
    | [] => Err "no message"%string
    | n :: l => if zlength l <? n then Err "too short"%string else Ok (pairs (take (Z.to_nat n) l))
    end;
  TestCanister.encode_deposit := fun arg => Some (Management.canister_id arg);
  TestCanister.decode_deposit := fun bs => Some tt;
  TestCanister.management_canister := [];
|}.

Definition test_message (bs : list Z) : Prop := exists l, bs = zlength l :: l.

Definition session : prog (result unit string * Z) :=
  _ ← TestCanister.increment 7;
  _ ← TestCanister.pre_upgrade;
  _ ← TestCanister.post_upgrade;
  r ← TestCanister.withdraw [9] 100;
  b ← TestCanister.user_balance;
  Return (r, b).

Lemma session_portable called : portable (P := ic) test_message called session.
Proof.
  assert (forall map bs, TestCanister.encode_counter map = Ok bs ->
    test_message bs /\ zlength bs <= stable_limit (P := ic)) as He.
  { intros map bs. cbn. destruct (zlength _ <? 1000) eqn:Hl; [|done]. intros [= <-].
    apply Z.ltb_lt in Hl. split; [by eexists|]. unfold zlength in *. cbn. plia. }
  assert (forall bs rest, test_message bs ->
    TestCanister.decode_counter (bs ++ rest) = TestCanister.decode_counter bs) as Hd.
  { intros ? rest [l ->]. cbn. rewrite Z.ltb_irrefl.
    rewrite (proj2 (Z.ltb_ge _ _)) by (unfold zlength; rewrite length_app; lia).
    do 2 f_equal. unfold zlength. rewrite Nat2Z.id, take_app_length, firstn_all. done. }
  unfold session. apply portable_then; [apply TestCanister.portable_count|intros c1 _].
  apply portable_then; [apply (TestCanister.portable_upgrade test_message c1 He Hd)|intros c2 _].
  apply portable_then; [apply (TestCanister.portable_upgrade test_message c2 He Hd)|intros c3 _].
  apply portable_then; [apply TestCanister.portable_withdraw|intros c4 r].
  apply portable_then; [by split|]. by intros c5 b.
Qed.

(** A test as in [with_refund], and the canister in wasm. *)
Definition tested : MockContext :=
  use_handler (HMethod (cycles_refund 30 Method_default))
    (mk_context (Core.with_data TestCanister.user 1000 (Core.update_balance 2000 Core.new)) []).

Definition deployed : IcContext.World ic :=
  (Some (IcContext.store TestCanister.user 1000 (IcContext.context None)),
   mk_ic (mk_view default_id now (Some anonymous) 0 None [] None []) 5000 (handlers tested)).

Lemma tested_deployed : related test_message tested deployed.
Proof.
  split; [done| |split; try done|done].
  - apply (typed_insert (Core.update_balance 2000 Core.new)). intros i a. cbn. by rewrite lookup_empty.
  - by left.
Qed.

Lemma returned {A} (o : outcome (A * option MockContext)) (Q : A -> MockContext -> Prop) :
  match o with Ret (a, Some x) => Q a x | _ => False end -> exists a x, o = Ret (a, Some x) /\ Q a x.
Proof. destruct o as [[a [x|]]|]; [|done..]. by exists a, x. Qed.

(** The withdrawal of 100 cycles of which 30 come back. *)
Definition session_result (a : result unit string * Z) (x : MockContext) : Prop :=
  a = (Ok tt, 930) /\ calls_of x = [Watcher.mk_call [] "deposit_cycles" [9] 100 30].

Lemma session_tested : exists a x, run session (Some tested) = Ret (a, Some x) /\ session_result a x.
Proof. apply returned. by vm_compute. Qed.

Lemma tested_program_on_ic_witness :
  exists w', run session deployed = Ret ((Ok tt, 930), w') /\
    v_calls (ic_view w'.2) = [Watcher.mk_call [] "deposit_cycles" [9] 100 30].
Proof.
  destruct session_tested as (a & x & Hrun & Ha & Hc).
  destruct (tested_program_on_ic test_message session tested deployed a (Some x))
    as (x' & w' & Hx & Hw & Hr); [apply session_portable|apply tested_deployed|exact Hrun|].
  injection Hx as <-. exists w'. split; [by rewrite Hw, Ha|].
  rewrite <-Hc. symmetry. apply (agrees_calls _ _ _ (related_view _ _ _ Hr)).
Defined.

(** ** What the mock context does not show *)

(** A future that is dropped: the test sees a call, on the platform nothing happened. *)
Lemma dropped_call_diverges `{StoredTypes, Target, KitEnv} {P} `{Platform P}
    id method args cycles x thread (w : IcContext.World P) :
  context_ok x -> 0 <= cycles ->
  run (do (IcCallDropped id method args cycles)) (Some x) = Ret (tt, thread) ->
  (exists x' refunded, thread = Some x' /\
     calls_of x' = calls_of x ++ [Watcher.mk_call id method args cycles refunded] /\
     Core.balance (core x') = Core.balance (core x) - (cycles - refunded)) /\
  run (do (IcCallDropped id method args cycles)) w = Ret (tt, (Some (IcContext.context w.1), w.2)).
Proof.
  intros Hx Hc. cbn. unfold ic_call_raw, on_context, get_context, inject. cbn.
  destruct (call_raw id method args cycles x) as [[res x']|] eqn:Hraw; [|done]. cbn. intros [= <-].
  destruct (call_raw_ok _ _ _ _ _ _ _ Hx Hc Hraw) as (r & Hcalls & _ & Hb & _).
  split; [by exists x', r|done].
Qed.

(** A refund read before any call: zero in the test, a trap on the platform. *)
Lemma refund_before_call :
  fst <$> run (do IcMsgCyclesRefunded) (Some tested) = Ret 0 /\
  run (do IcMsgCyclesRefunded) deployed = Panic.
Proof. done. Qed.

(** Time stands still over a call of the mock context. *)
Definition timed : prog Z :=
  before ← do IcTime;
  _ ← do (IcCall [] "deposit_cycles" [9] 0);
  after ← do IcTime;
  Return (after - before).

Lemma time_passes :
  fst <$> run timed (Some (use_handler (HMethod Method_default) new)) = Ret 0 /\
  fst <$> run timed (None, mk_ic (ic_view deployed.2) 5000 [HMethod Method_default]) = Ret 5.
Proof. by vm_compute. Qed.
