(* ===== verification/Clients.v ===== *)
(** * Clients of a canister

    [ic-canister-client/src]: the trait [CanisterClient] and its three implementations, a
    call from another canister ([ic_client.rs]), through an agent ([agent/mod.rs]) and in
    a test instance of the platform ([pocket_ic.rs]).  They agree on what a canister
    replies and rejects ([clients_agree]), and differ in what they do with a reply that
    cannot be decoded ([clients_undecodable]) and arguments that cannot be encoded
    ([clients_unencodable]). *)

From S2P Require Import Prelude.
Local Open Scope Z_scope.
Local Open Scope sdk_scope.

Definition Principal : Type := list Z.

(** ** error.rs *)

(** A [RejectionCode] by its number. *)
Definition RejectionCode : Type := Z.
Definition REJECT_CANISTER_ERROR : RejectionCode := 5.

Definition IcError : Type := RejectionCode * string.
Definition IcResult (R : Type) : Type := result R IcError.

(** The errors of candid, the agent and pocket-ic. *)
Class ForeignErrors := {
  candid_error : Type;
  agent_error : Type;
  UserError : Type;
}.

Inductive CallError `{ForeignErrors} :=
  | CallReject (e : string)
  | CallUserError (e : UserError).

Inductive CanisterClientError `{ForeignErrors} :=
  | CanisterError (e : IcError)
  | CandidError (e : candid_error)
  | IcAgentError (e : agent_error)
  | PocketIcTestError (e : CallError).

Definition CanisterClientResult `{ForeignErrors} (R : Type) : Type := result R CanisterClientError.

Definition from_CallError `{ForeignErrors} (e : CallError) : CanisterClientError := PocketIcTestError e.
Definition from_UserError `{ForeignErrors} (e : UserError) : CanisterClientError :=
  PocketIcTestError (CallUserError e).

(** ** client.rs *)

(** What can be an argument tuple, and a reply. *)
Class ArgumentEncoder `{ForeignErrors} (T : Type) := encode_args : T -> result (list Z) candid_error.
Class Decoder `{ForeignErrors} (R : Type) := decode : list Z -> result R candid_error.

(** A client of type [C] in a world [W]. *)
Class CanisterClient `{ForeignErrors} (W C : Type) := {
  update {T R} `{!ArgumentEncoder T, !Decoder R} :
    C -> string -> T -> W -> outcome (CanisterClientResult R * W);
  query {T R} `{!ArgumentEncoder T, !Decoder R} :
    C -> string -> T -> W -> outcome (CanisterClientResult R * W);
}.

(** ** What the clients call *)

Inductive WasmResult := Reply (bytes : list Z) | Reject (e : string).

Class Transports `{ForeignErrors} (W : Type) := {
  (** [ic_cdk::call], which encodes and decodes itself *)
  cdk_call {T R} `{!ArgumentEncoder T, !Decoder R} :
    Principal -> string -> T -> W -> outcome (IcResult R * W);
  (** an agent with its identity *)
  Agent : Type;
  agent_update : Agent -> Principal -> string -> list Z -> W -> result (list Z) agent_error * W;
  agent_query : Agent -> Principal -> string -> list Z -> W -> result (list Z) agent_error * W;
  (** an instance of the platform for tests *)
  PocketIc : Type;
  pocket_update : PocketIc -> Principal -> Principal -> string -> list Z -> W ->
    result WasmResult UserError * W;
  pocket_query : PocketIc -> Principal -> Principal -> string -> list Z -> W ->
    result WasmResult UserError * W;
}.

Section clients.
Context `{ForeignErrors} {W : Type} `{!Transports W}.

(** ** ic_client.rs *)

Record IcCanisterClient := mk_ic_client { ic_canister_id : Principal }.

Definition ic_call {T R} `{!ArgumentEncoder T, !Decoder R} (c : IcCanisterClient) (method : string)
    (args : T) (w : W) : outcome (CanisterClientResult R * W) :=
  '(call_result, w) ← cdk_call (ic_canister_id c) method args w;
  Ret (map_err CanisterError call_result, w).

#[export] Instance ic_canister_client : CanisterClient W IcCanisterClient := {|
  update T R _ _ := ic_call;
  query T R _ _ := ic_call;
|}.

(** ** agent/mod.rs *)

Record IcAgentClient := mk_agent_client { agent_canister_id : Principal; agent : Agent }.

Definition with_agent (canister : Principal) (agent : Agent) : IcAgentClient :=
  mk_agent_client canister agent.

(** [decode], which panics. *)
Definition agent_decode {R} `{!Decoder R} (bytes : list Z) : outcome R := expect_ok (decode bytes).

(** The two methods differ in the call they make. *)
Definition agent_perform {T R} `{!ArgumentEncoder T, !Decoder R}
    (call : Agent -> Principal -> string -> list Z -> W -> result (list Z) agent_error * W)
    (c : IcAgentClient) (method : string) (args : T) (w : W) : outcome (CanisterClientResult R * W) :=
  match encode_args args with
  | Err e => Ret (Err (CandidError e), w)
  | Ok args =>
      let '(r, w) := call (agent c) (agent_canister_id c) method args w in
      match map_err IcAgentError r with
      | Err e => Ret (Err e, w)
      | Ok bytes => r ← agent_decode bytes; Ret (Ok r, w)
      end
  end.

#[export] Instance ic_agent_client : CanisterClient W IcAgentClient := {|
  update T R _ _ := agent_perform agent_update;
  query T R _ _ := agent_perform agent_query;
|}.

(** ** pocket_ic.rs *)

Record PocketIcClient := mk_pocket_client {
  client : option PocketIc;
  pocket_canister : Principal;
  pocket_caller : Principal;
}.

Definition from_client (client : PocketIc) (canister caller : Principal) : PocketIcClient :=
  mk_pocket_client (Some client) canister caller.

Definition get_client (c : PocketIcClient) : outcome PocketIc := expect (client c).

Definition reject_error (e : string) : CanisterClientError := CanisterError (REJECT_CANISTER_ERROR, e).

Definition pocket_perform {T R} `{!ArgumentEncoder T, !Decoder R}
    (call : PocketIc -> Principal -> Principal -> string -> list Z -> W -> result WasmResult UserError * W)
    (c : PocketIcClient) (method : string) (args : T) (w : W) : outcome (CanisterClientResult R * W) :=
  match encode_args args with
  | Err e => Ret (Err (CandidError e), w)
  | Ok args =>
      pic ← get_client c;
      let '(r, w) := call pic (pocket_canister c) (pocket_caller c) method args w in
      match r with
      | Err e => Ret (Err (from_UserError e), w)
      | Ok (Reject e) => Ret (Err (reject_error e), w)
      | Ok (Reply reply) => Ret (map_err CandidError (decode reply), w)
      end
  end.

#[export] Instance pocket_ic_client : CanisterClient W PocketIcClient := {|
  update T R _ _ := pocket_perform pocket_update;
  query T R _ _ := pocket_perform pocket_query;
|}.

(** ** The clients of one canister *)

(** The canister, as [respond] describes it, behind all three transports.  [ic_cdk]
    panics if it cannot encode and answers [CanisterError] if it cannot decode. *)
Context (respond : Principal -> string -> list Z -> W -> result (list Z) IcError * W).

Class TransportLaws := {
  cdk_law {T R} `{!ArgumentEncoder T, !Decoder R} id method (args : T) bytes w :
    encode_args args = Ok bytes ->
    match respond id method bytes w with
    | (Ok reply, w') =>
        match decode (R := R) reply with
        | Ok r => cdk_call id method args w = Ret (Ok r, w')
        | Err _ => exists msg, cdk_call (R := R) id method args w =
                     Ret (Err (REJECT_CANISTER_ERROR, msg), w')
        end
    | (Err e, w') => cdk_call (R := R) id method args w = Ret (Err e, w')
    end;
  cdk_unencoded {T R} `{!ArgumentEncoder T, !Decoder R} id method (args : T) e w :
    encode_args args = Err e -> cdk_call (R := R) id method args w = Panic;
  agent_law a id method bytes w :
    match respond id method bytes w with
    | (Ok reply, w') => agent_update a id method bytes w = (Ok reply, w')
    | (Err _, w') => exists e, agent_update a id method bytes w = (Err e, w')
    end;
  pocket_law pic id caller method bytes w :
    match respond id method bytes w with
    | (Ok reply, w') => pocket_update pic id caller method bytes w = (Ok (Reply reply), w')
    | (Err (_, msg), w') =>
        pocket_update pic id caller method bytes w = (Ok (Reject msg), w') \/
        exists e, pocket_update pic id caller method bytes w = (Err e, w')
    end;
}.
Context `{!TransportLaws}.

Section one_call.
Context {T R : Type} `{!ArgumentEncoder T, !Decoder R}.
Context (id caller : Principal) (a : Agent) (pic : PocketIc) (method : string) (args : T) (w : W).

(** The same update by the three clients. *)
Definition updates : list (outcome (CanisterClientResult R * W)) :=
  [update (mk_ic_client id) method args w;
   update (with_agent id a) method args w;
   update (from_client pic id caller) method args w].

Ltac unfold_clients :=
  unfold updates, update, ic_canister_client, ic_agent_client, pocket_ic_client, ic_call,
    agent_perform, pocket_perform, with_agent, from_client, get_client, agent_decode; cbn.

(** Whoever calls the canister gets its reply, and an error if it rejects. *)
Theorem clients_agree bytes :
  encode_args args = Ok bytes ->
  match respond id method bytes w with
  | (Ok reply, w') =>
      forall r, decode reply = Ok r -> Forall (fun o => o = Ret (Ok r, w')) updates
  | (Err _, w') => Forall (fun o => exists e, o = Ret (Err e, w')) updates
  end.
Proof.
  intros Henc. unfold_clients. rewrite Henc.
  pose proof (cdk_law (R := R) id method args bytes w Henc) as Hcdk.
  pose proof (agent_law a id method bytes w) as Hagent.
  pose proof (pocket_law pic id caller method bytes w) as Hpocket.
  destruct (respond id method bytes w) as [[reply|[code msg]] w'].
  - intros r Hr. rewrite Hr in Hcdk. rewrite Hcdk, Hagent, Hpocket. cbn. rewrite Hr. cbn. by repeat constructor.
  - destruct Hagent as [e Hagent]. rewrite Hcdk, Hagent. cbn.
    destruct Hpocket as [->|[e' ->]]; repeat constructor; by eexists.
Qed.

(** A reply that is not of the type asked for: an error, but the agent client panics. *)
Lemma clients_undecodable bytes reply w' e :
  encode_args args = Ok bytes -> respond id method bytes w = (Ok reply, w') ->
  decode (R := R) reply = Err e ->
  exists msg, updates = [Ret (Err (CanisterError (REJECT_CANISTER_ERROR, msg)), w'); Panic;
                         Ret (Err (CandidError e), w')].
Proof.
  intros Henc Hrep Hdec. unfold_clients. rewrite Henc.
  pose proof (cdk_law (R := R) id method args bytes w Henc) as Hcdk.
  pose proof (agent_law a id method bytes w) as Hagent.
  pose proof (pocket_law pic id caller method bytes w) as Hpocket.
  rewrite Hrep in Hcdk, Hagent, Hpocket. rewrite Hdec in Hcdk. destruct Hcdk as [msg ->].
  rewrite Hagent, Hpocket. cbn. rewrite Hdec. by exists msg.
Qed.

(** Arguments that cannot be encoded: nothing is called, and the canister traps. *)
Lemma clients_unencodable e :
  encode_args args = Err e ->
  updates = [Panic; Ret (Err (CandidError e), w); Ret (Err (CandidError e), w)].
Proof.
  intros Henc. unfold_clients. by rewrite (cdk_unencoded _ _ _ _ _ Henc), Henc.
Qed.
End one_call.
End clients.

(** ** agent/identity.rs *)

(** The identities of the agent, read from PEM files. *)
Class Identity (I : Type) (Envelope Signature : Type) := {
  sender : I -> result Principal string;
  sign : I -> Envelope -> result Signature string;
  public_key : I -> option (list Z);
}.

Section identity.
Context {Secp256k1Identity BasicIdentity Envelope Signature Path PemError : Type}.
Context `{!Identity Secp256k1Identity Envelope Signature, !Identity BasicIdentity Envelope Signature}.
Context (secp256k1_from_pem_file : Path -> result Secp256k1Identity PemError).
Context (basic_from_pem_file : Path -> result BasicIdentity PemError).

Inductive GenericIdentity :=
  | GenericSecp256k1 (identity : Secp256k1Identity)
  | GenericBasic (identity : BasicIdentity).

(** [AgentError::PemError]: the file, and why the second attempt failed. *)
Definition try_from (path : Path) : result GenericIdentity (Path * PemError) :=
  map_err (pair path)
    (match result_map GenericSecp256k1 (secp256k1_from_pem_file path) with
     | Ok identity => Ok identity
     | Err _ => result_map GenericBasic (basic_from_pem_file path)
     end).

#[export] Instance generic_identity : Identity GenericIdentity Envelope Signature := {|
  sender i := match i with GenericBasic i => sender i | GenericSecp256k1 i => sender i end;
  sign i blob := match i with GenericBasic i => sign i blob | GenericSecp256k1 i => sign i blob end;
  public_key i := match i with GenericBasic i => public_key i | GenericSecp256k1 i => public_key i end;
|}.

(** The identity of a file is the one it holds, of the first type that can be read;
    for a file that holds none the error is that of the second type. *)
Lemma try_from_spec path :
  match try_from path with
  | Ok i => (exists s, secp256k1_from_pem_file path = Ok s /\ sender i = sender s) \/
            ((exists e, secp256k1_from_pem_file path = Err e) /\
             exists b, basic_from_pem_file path = Ok b /\ sender i = sender b)
  | Err (p, e) => p = path /\ basic_from_pem_file path = Err e /\
                  exists e', secp256k1_from_pem_file path = Err e'
  end.
Proof.
  unfold try_from. destruct (secp256k1_from_pem_file path) as [s|e]; cbn; [left; by exists s|].
  destruct (basic_from_pem_file path) as [b|e']; cbn; [right; split; [by exists e|by exists b]|].
  split_and!; [done..|by exists e].
Qed.
End identity.

(** ** A canister that counts *)

Definition text_errors : ForeignErrors := {|
  candid_error := string;
  agent_error := string;
  UserError := string;
|}.

#[local] Existing Instance text_errors.

(** It adds its argument to a number and replies the sum; it rejects other methods. *)
Definition counter_respond (id : Principal) (method : string) (bytes : list Z) (w : Z) :
    result (list Z) IcError * Z :=
  match bytes with
  | [n] => if bool_decide (method = "add"%string) then (Ok [w + n], w + n) else (Err (3, "no method"%string), w)
  | _ => (Err (5, "bad argument"%string), w)
  end.

#[local] Instance number_argument : ArgumentEncoder Z := fun n =>
  if 0 <=? n then Ok [n] else Err "negative"%string.
#[local] Instance number_reply : Decoder Z := fun bytes =>
  match bytes with [n] => Ok n | _ => Err "not a number"%string end.

#[local] Instance counter_transports : Transports Z := {|
  cdk_call T R _ _ id method args w :=
    match encode_args args with
    | Err _ => Panic
    | Ok bytes =>
        let '(r, w) := counter_respond id method bytes w in
        Ret (match r with
             | Err e => Err e
             | Ok reply => map_err (fun e => (REJECT_CANISTER_ERROR, e)) (decode reply)
             end, w)
    end;
  Agent := unit;
  agent_update _ id method bytes w :=
    let '(r, w) := counter_respond id method bytes w in (map_err snd r, w);
  agent_query _ id method bytes w := (map_err snd (counter_respond id method bytes w).1, w);
  PocketIc := unit;
  pocket_update _ id _ method bytes w :=
    let '(r, w) := counter_respond id method bytes w in
    (match r with Ok reply => Ok (Reply reply) | Err e => Ok (Reject e.2) end, w);
  pocket_query _ id _ method bytes w :=
    (match (counter_respond id method bytes w).1 with
     | Ok reply => Ok (Reply reply) | Err e => Err e.2 end, w);
|}.

#[local] Instance counter_laws : TransportLaws counter_respond.
Proof.
  split.
  - intros T R ? ? id method args bytes w Henc. cbn. rewrite Henc.
    destruct (counter_respond id method bytes w) as [[reply|e] w']; [|done].
    destruct (decode reply) as [r|e]; [done|by exists e].
  - intros T R ? ? id method args e w Henc. cbn. by rewrite Henc.
  - intros a id method bytes w. cbn. destruct (counter_respond id method bytes w) as [[reply|e] w']; [done|].
    by exists (snd e).
  - intros pic id caller method bytes w. cbn.
    destruct (counter_respond id method bytes w) as [[reply|[code msg]] w']; [done|by left].
Qed.

Lemma clients_agree_witness :
  Forall (fun o => o = Ret (Ok 12, 12)) (updates (R := Z) [1] [2] tt tt "add" 5 7).
Proof.
  pose proof (clients_agree counter_respond (R := Z) [1] [2] tt tt "add" 5 7 [5] eq_refl) as Hr.
  by apply Hr.
Defined.
