(* ===== verification/Formatter.v ===== *)
(** * Formatting of log lines

    [ic-log/src/formatter/{mod,buffer,humantime}.rs]: the buffer lines are written
    to, the builder of formats and the default format.  The text of a timestamp
    ([format_rfc3339_nanos] of the humantime crate) is a parameter.  Writing to the
    buffer cannot fail, so the [io::Result]s that are always [Ok] are left out. *)

From S2P Require Import Prelude LogWriter.
Local Open Scope Z_scope.

Notation bytes := (list Z) (only parsing).

(** The bytes of a literal. *)
Definition literal (s : string) : list Z :=
  (fun c => Z.of_N (Ascii.N_of_ascii c)) <$> String.list_ascii_of_string s.

(** ** Records of the [log] crate *)

Module Level.
Inductive t := Error | Warn | Info | Debug | Trace.

Definition as_str (l : t) : string :=
  match l with
  | Error => "ERROR" | Warn => "WARN" | Info => "INFO" | Debug => "DEBUG" | Trace => "TRACE"
  end.

(** [{:<5}] *)
Definition padded (l : t) : bytes :=
  literal (as_str l) ++ replicate (5 - String.length (as_str l)) 32.
End Level.

(** The arguments display themselves in pieces; displaying a value may log a record
    of its own. *)
Inductive Record := mk_record {
  level : Level.t;
  module_path : option bytes;
  target : bytes;
  args : list (bytes + Record);
}.

(** ** buffer.rs *)

Module FormatBuffer.
Definition clear (b : Buffer) : Buffer := [].
Definition write (buf : bytes) (b : Buffer) : Z * Buffer := (zlength buf, b ++ buf).
Definition flush (b : Buffer) : Buffer := b.
Definition from (value : bytes) : Buffer := value.
End FormatBuffer.

(** [write_all]: an empty buffer is not written, and the writers below take all they
    are given, so the loop writes once. *)
Definition write_all {S} (write : bytes -> S -> Z * S) (buf : bytes) (s : S) : S :=
  match buf with [] => s | _ => (write buf s).2 end.

(** ** Formatter

    It shares its buffer, so writing to it is writing to the buffer. *)
Module Formatter.
Definition write (buf : bytes) (f : Buffer) : Z * Buffer := FormatBuffer.write buf f.
Definition flush (f : Buffer) : Buffer := FormatBuffer.flush f.
Definition clear (f : Buffer) : Buffer := FormatBuffer.clear f.
Definition print {W} (writer : Buffer -> W -> outcome W) (f : Buffer) (w : W) : outcome W :=
  writer f w.
(** [write!] of the given pieces. *)
Definition puts (pieces : list bytes) (f : Buffer) : Buffer :=
  foldl (fun f p => write_all write p f) f pieces.
End Formatter.

(** ** Formats *)

(** [Display] of the arguments, to a writer with state [S]; [log] handles what is
    logged on the way, in the world [W] of the loggers. *)
Definition display {S W} (log : Record -> W -> outcome W) (write : bytes -> S -> Z * S) :
    list (bytes + Record) -> S * W -> outcome (S * W) :=
  fix go l st :=
    match l with
    | [] => Ret st
    | inl s :: l => go l (write_all write s st.1, st.2)
    | inr r :: l => w ← log r st.2; go l (st.1, w)
    end.

Module DefaultFormat.
Section default_format.
Variable format_rfc3339_nanos : Z -> bytes.
Context {W : Type}.

Record t := mk {
  timestamp : bool;
  module_path : bool;
  target : bool;
  level : bool;
  written_header_value : bool;
  indent : option Z;
  formatter : Buffer;
  suffix : bytes;
}.

Definition set_formatter (b : Buffer) (f : t) : t :=
  mk (timestamp f) (module_path f) (target f) (level f) (written_header_value f) (indent f) b
    (suffix f).

Definition puts (pieces : list bytes) (f : t) : t :=
  set_formatter (Formatter.puts pieces (formatter f)) f.

Definition subtle_style (text : string) : bytes := literal text.

Definition write_header_value (value : bytes) (f : t) : t :=
  if negb (written_header_value f) then
    puts [subtle_style "["; value]
      (mk (timestamp f) (module_path f) (target f) (level f) true (indent f) (formatter f) (suffix f))
  else puts [literal " "; value] f.

Definition write_level (r : Record) (f : t) : t :=
  if negb (level f) then f else write_header_value (Level.padded (Formatter.level r)) f.

(** [now]: the current time in nanoseconds. *)
Definition write_timestamp (now : Z) (f : t) : t :=
  if negb (timestamp f) then f else write_header_value (format_rfc3339_nanos now) f.

Definition write_module_path (r : Record) (f : t) : t :=
  if negb (module_path f) then f else
  match Formatter.module_path r with
  | Some p => write_header_value p f
  | None => f
  end.

Definition write_target (r : Record) (f : t) : t :=
  if negb (target f) then f else
  match Formatter.target r with
  | [] => f
  | target => write_header_value target f
  end.

Definition finish_header (f : t) : t :=
  if written_header_value f then puts [subtle_style "]"; literal " "] f else f.

(** [slice::split] at the newlines: the first chunk and the others. *)
Fixpoint split_newline (buf : bytes) : bytes * list bytes :=
  match buf with
  | [] => ([], [])
  | b :: buf =>
      let '(c, cs) := split_newline buf in
      if b =? 10 then ([], c :: cs) else (b :: c, cs)
  end.

(** [IndentWrapper::write] *)
Definition indent_write (indent_count : Z) (suffix : bytes) (buf : bytes) (f : Buffer) :
    Z * Buffer :=
  let '(first, others) := split_newline buf in
  (zlength buf,
   foldl (fun f chunk =>
       write_all Formatter.write chunk
         (Formatter.puts [suffix; replicate (Z.to_nat indent_count) 32] f))
     (write_all Formatter.write first f) others).

Definition write_args (log : Record -> W -> outcome W) (r : Record) (f : t) (w : W) :
    outcome (t * W) :=
  match indent f with
  | None =>
      '(b, w) ← display log Formatter.write (args r) (formatter f, w);
      Ret (puts [suffix f] (set_formatter b f), w)
  | Some indent_count =>
      '(b, w) ← display log (indent_write indent_count (suffix f)) (args r) (formatter f, w);
      Ret (puts [suffix f] (set_formatter b f), w)
  end.

Definition write (log : Record -> W -> outcome W) (now : Z) (r : Record) (f : t) (w : W) :
    outcome (t * W) :=
  let f := write_timestamp now f in
  let f := write_level r f in
  let f := write_module_path r f in
  let f := write_target r f in
  let f := finish_header f in
  write_args log r f w.
End default_format.
End DefaultFormat.

(** [FormatFn]: formats a record at some time; a custom format writes to the buffer. *)
Definition CustomFormat : Type := Z -> Record -> Buffer -> Buffer.

Module FormatBuilder.
Section builder.
Variable format_rfc3339_nanos : Z -> bytes.
Context {W : Type}.

Record t := mk {
  timestamp : bool;
  format_module_path : bool;
  format_target : bool;
  format_level : bool;
  format_indent : option Z;
  custom_format : option CustomFormat;
  format_suffix : bytes;
}.

Definition default : t := mk true false true true (Some 4) None [10].

(** [build]: the format, as a function. *)
Definition build (b : t) (log : Record -> W -> outcome W) (now : Z) (r : Record) (buf : Buffer)
    (w : W) : outcome (Buffer * W) :=
  match custom_format b with
  | Some fmt => Ret (fmt now r buf, w)
  | None =>
      let fmt := DefaultFormat.mk (timestamp b) (format_module_path b) (format_target b)
                   (format_level b) false (format_indent b) buf (format_suffix b) in
      '(f, w) ← DefaultFormat.write format_rfc3339_nanos log now r fmt w;
      Ret (DefaultFormat.formatter f, w)
  end.
End builder.
End FormatBuilder.

(** humantime.rs: [Display] of a timestamp delegates, [Debug] wraps it. *)
Definition timestamp_debug (format_rfc3339_nanos : Z -> bytes) (time : Z) : bytes :=
  literal "Timestamp(" ++ format_rfc3339_nanos time ++ literal ")".

(** ** What a line looks like *)

Section lines.
Variable format_rfc3339_nanos : Z -> bytes.
Notation Builder := FormatBuilder.t.
Implicit Types (b : Builder) (r : Record) (buf s : list Z).

(** The text of the arguments, and what displaying them does elsewhere. *)
Fixpoint message (l : list (bytes + Record)) : bytes :=
  match l with
  | [] => []
  | inl s :: l => s ++ message l
  | inr _ :: l => message l
  end.

Definition displayed {W} (log : Record -> W -> outcome W) : list (bytes + Record) -> W -> outcome W :=
  fix go l w :=
    match l with
    | [] => Ret w
    | inl _ :: l => go l w
    | inr r :: l => w ← log r w; go l w
    end.

Definition header_values b (now : Z) r : list bytes :=
  (if FormatBuilder.timestamp b then [format_rfc3339_nanos now] else []) ++
  (if FormatBuilder.format_level b then [Level.padded (level r)] else []) ++
  (if FormatBuilder.format_module_path b then option_list (module_path r) else []) ++
  (if FormatBuilder.format_target b then match target r with [] => [] | t => [t] end else []).

(** [[v1 v2 .. vn] ] *)
Definition header (vs : list bytes) : bytes :=
  match vs with
  | [] => []
  | v :: vs => [91] ++ v ++ (vs ≫= fun v => 32 :: v) ++ [93; 32]
  end.

(** Every newline is replaced. *)
Definition indented (sep s : bytes) : bytes := s ≫= fun c => if c =? 10 then sep else [c].

Definition separator b : option bytes :=
  (fun n => FormatBuilder.format_suffix b ++ replicate (Z.to_nat n) 32) <$>
    FormatBuilder.format_indent b.

Definition body b (s : bytes) : bytes := default s ((fun sep => indented sep s) <$> separator b).

Definition line b (now : Z) r : bytes :=
  header (header_values b now r) ++ body b (message (args r)) ++ FormatBuilder.format_suffix b.

Lemma write_all_append s buf : write_all Formatter.write s buf = buf ++ s.
Proof. destruct s; cbn; [by rewrite app_nil_r|done]. Qed.

Lemma puts_append l buf : Formatter.puts l buf = buf ++ concat l.
Proof.
  unfold Formatter.puts. revert buf. induction l as [|s l IH]; intros buf; cbn [foldl concat].
  - by rewrite app_nil_r.
  - by rewrite IH, write_all_append, app_assoc.
Qed.

Lemma indented_app sep s s' : indented sep (s ++ s') = indented sep s ++ indented sep s'.
Proof. apply bind_app. Qed.

Lemma split_newline_indented sep s :
  indented sep s =
    (DefaultFormat.split_newline s).1 ++ ((DefaultFormat.split_newline s).2 ≫= fun c => sep ++ c).
Proof.
  induction s as [|c s IH]; [done|]. unfold indented in *. rewrite bind_cons, IH. cbn.
  destruct (DefaultFormat.split_newline s) as [h t]. destruct (c =? 10); cbn; [|done].
  by rewrite <- app_assoc.
Qed.

Lemma indent_write_append n sfx s buf :
  (DefaultFormat.indent_write n sfx s buf).2 =
    buf ++ indented (sfx ++ replicate (Z.to_nat n) 32) s.
Proof.
  rewrite split_newline_indented. unfold DefaultFormat.indent_write.
  destruct (DefaultFormat.split_newline s) as [h t]. cbn [fst snd].
  rewrite write_all_append, app_assoc. generalize (buf ++ h). clear.
  induction t as [|c t IH]; intros buf; cbn [foldl mbind list_bind].
  - by rewrite app_nil_r.
  - rewrite IH, write_all_append, puts_append. cbn [concat]. by rewrite app_nil_r, <- !app_assoc.
Qed.

(** However the arguments are cut into pieces, a writer that appends a function of
    the text gets that function of the whole. *)
Lemma display_append {W} (log : Record -> W -> outcome W) write (f : bytes -> bytes) l buf w :
  (forall s buf, (write s buf).2 = buf ++ f s) ->
  f [] = [] -> (forall s s', f (s ++ s') = f s ++ f s') ->
  display log write l (buf, w) = (fun w => (buf ++ f (message l), w)) <$> displayed log l w.
Proof.
  intros Hw Hnil Happ. revert buf w. induction l as [|[s|r] l IH]; intros buf w; cbn [message].
  - cbn. by rewrite Hnil, app_nil_r.
  - cbn [display displayed fst snd]. rewrite IH, Happ.
    replace (write_all write s buf) with (buf ++ f s)
      by (destruct s; [by rewrite Hnil, app_nil_r|by cbn; rewrite Hw]).
    by rewrite <- (app_assoc buf (f s)).
  - cbn. destruct (log r w) as [w'|]; cbn; [apply IH|done].
Qed.

Lemma format_puts l (f : DefaultFormat.t) :
  DefaultFormat.puts l f =
    DefaultFormat.set_formatter (DefaultFormat.formatter f ++ concat l) f.
Proof. unfold DefaultFormat.puts. by rewrite puts_append. Qed.

Lemma header_value v ts mp tg lv wr ind buf sfx :
  DefaultFormat.write_header_value v (DefaultFormat.mk ts mp tg lv wr ind buf sfx) =
    DefaultFormat.mk ts mp tg lv true ind (buf ++ (if wr then 32 else 91) :: v) sfx.
Proof.
  destruct wr; (etransitivity; [apply format_puts|]); unfold DefaultFormat.set_formatter; cbn;
    by rewrite app_nil_r.
Qed.

(** What the header writes, and whether it has written anything. *)
Definition with_values (vs : list bytes) (f : DefaultFormat.t) : DefaultFormat.t :=
  foldl (fun f v => DefaultFormat.write_header_value v f) f vs.

Lemma with_values_spec vs (f : DefaultFormat.t) :
  let '(DefaultFormat.mk ts mp tg lv wr ind buf sfx) := f in
  DefaultFormat.finish_header (with_values vs f) =
    match vs, wr with
    | [], false => f
    | _, _ =>
        DefaultFormat.mk ts mp tg lv true ind
          (buf ++ (if wr then vs ≫= (fun v => 32 :: v)
                   else match vs with [] => [] | v :: vs => 91 :: v ++ (vs ≫= fun v => 32 :: v) end)
               ++ [93; 32]) sfx
    end.
Proof.
  assert (forall vs ts mp tg lv ind buf sfx,
    DefaultFormat.finish_header (with_values vs (DefaultFormat.mk ts mp tg lv true ind buf sfx)) =
    DefaultFormat.mk ts mp tg lv true ind (buf ++ (vs ≫= fun v => 32 :: v) ++ [93; 32]) sfx) as Htrue.
  { clear. induction vs as [|v vs IH]; intros ts mp tg lv ind buf sfx;
      unfold with_values in *; cbn [foldl].
    { unfold DefaultFormat.finish_header. by rewrite format_puts. }
    rewrite header_value, IH. f_equal. cbn. by rewrite <- !app_assoc. }
  destruct f as [ts mp tg lv [] ind buf sfx]; [by destruct vs; rewrite Htrue|].
  destruct vs as [|v vs]; [done|].
  unfold with_values. cbn [foldl]. rewrite header_value.
  etransitivity; [apply Htrue|]. f_equal. cbn. by rewrite <- !app_assoc.
Qed.

Lemma write_header b now r buf :
  let fmt := DefaultFormat.mk (FormatBuilder.timestamp b) (FormatBuilder.format_module_path b)
    (FormatBuilder.format_target b) (FormatBuilder.format_level b) false
    (FormatBuilder.format_indent b) buf (FormatBuilder.format_suffix b) in
  DefaultFormat.write_target r (DefaultFormat.write_module_path r (DefaultFormat.write_level r
    (DefaultFormat.write_timestamp format_rfc3339_nanos now fmt))) =
  with_values (header_values b now r) fmt.
Proof.
  intros fmt. unfold header_values, with_values, fmt. clear fmt. rewrite !foldl_app.
  destruct b as [[] mp [] [] ind cu sfx]; cbn;
    unfold DefaultFormat.write_level, DefaultFormat.write_module_path, DefaultFormat.write_target;
    cbn; destruct mp, (module_path r), (target r); reflexivity.
Qed.

(** C30: The default format.  Whatever header the builder asks for and however the
    arguments are cut into pieces, what is appended to the buffer is the header (the
    values that are enabled and present, in brackets), the message with every newline
    replaced by the suffix and the indentation, and the suffix; nothing that was in
    the buffer is touched, and what displaying the arguments logs is logged once. *)
Theorem default_format_line {W} (log : Record -> W -> outcome W) b now r buf w :
  FormatBuilder.custom_format b = None ->
  FormatBuilder.build format_rfc3339_nanos b log now r buf w =
    (fun w => (buf ++ line b now r, w)) <$> displayed log (args r) w.
Proof.
  intros Hb. unfold FormatBuilder.build. rewrite Hb. unfold DefaultFormat.write. cbn zeta.
  rewrite write_header. set (vs := header_values b now r).
  pose proof (with_values_spec vs (DefaultFormat.mk (FormatBuilder.timestamp b)
    (FormatBuilder.format_module_path b) (FormatBuilder.format_target b)
    (FormatBuilder.format_level b) false (FormatBuilder.format_indent b) buf
    (FormatBuilder.format_suffix b))) as Hf. cbv beta iota in Hf.
  assert (exists wr, DefaultFormat.finish_header (with_values vs (DefaultFormat.mk
      (FormatBuilder.timestamp b) (FormatBuilder.format_module_path b)
      (FormatBuilder.format_target b) (FormatBuilder.format_level b) false
      (FormatBuilder.format_indent b) buf (FormatBuilder.format_suffix b))) =
    DefaultFormat.mk (FormatBuilder.timestamp b)
    (FormatBuilder.format_module_path b) (FormatBuilder.format_target b)
    (FormatBuilder.format_level b) wr (FormatBuilder.format_indent b) (buf ++ header vs)
    (FormatBuilder.format_suffix b)) as [wr ->].
  { rewrite Hf. destruct vs as [|v vs]; eexists; [by rewrite app_nil_r|].
    f_equal. cbn. by rewrite <- app_assoc. }
  clear Hf. unfold DefaultFormat.write_args, line, body, separator. cbn.
  destruct (FormatBuilder.format_indent b) as [n|]; cbn.
  - rewrite (display_append _ _ (indented (FormatBuilder.format_suffix b ++ replicate (Z.to_nat n) 32)))
      by (intros; first [apply indent_write_append|apply indented_app|done]).
    destruct (displayed log (args r) w); cbn; [|done].
    by rewrite write_all_append, <- !app_assoc.
  - rewrite (display_append _ _ id) by (intros; done).
    destruct (displayed log (args r) w); cbn; [|done].
    by rewrite write_all_append, <- !app_assoc.
Qed.

(** Undo the indentation: the first line, and the others without their first [n]
    bytes. *)
Definition unindent (n : nat) (s : bytes) : bytes :=
  (DefaultFormat.split_newline s).1 ++
    ((DefaultFormat.split_newline s).2 ≫= fun l => 10 :: drop n l).

Lemma split_newline_plain p s :
  Forall (fun c => c <> 10) p ->
  DefaultFormat.split_newline (p ++ s) =
    (p ++ (DefaultFormat.split_newline s).1, (DefaultFormat.split_newline s).2).
Proof.
  induction 1 as [|c p Hc Hp IH]; cbn; [by destruct (DefaultFormat.split_newline s)|].
  rewrite IH. by rewrite (proj2 (Z.eqb_neq _ _)).
Qed.

Lemma split_newline_of_indented n s :
  DefaultFormat.split_newline (indented (10 :: replicate n 32) s) =
    ((DefaultFormat.split_newline s).1,
     (fun l => replicate n 32 ++ l) <$> (DefaultFormat.split_newline s).2).
Proof.
  induction s as [|c s IH]; [done|]. change (c :: s) with ([c] ++ s) at 1.
  rewrite indented_app. cbn [DefaultFormat.split_newline].
  destruct (DefaultFormat.split_newline s) as [h t]. cbn [fst snd] in *.
  unfold indented at 1. cbn [mbind list_bind]. rewrite app_nil_r.
  destruct (c =? 10) eqn:Hc.
  - cbn [app DefaultFormat.split_newline]. rewrite split_newline_plain by (by apply Forall_replicate).
    by rewrite IH.
  - cbn [app DefaultFormat.split_newline]. by rewrite IH, Hc.
Qed.

(** A message is recovered from its line.  With the newline as suffix and an
    indentation of [n], the line is the header, a text and a newline; the text has as
    many lines as the message, all but the first indented by [n] spaces, and taking
    the indentation away gives the message back. *)
Theorem message_recovered b n now r :
  FormatBuilder.format_suffix b = [10] -> FormatBuilder.format_indent b = Some n ->
  exists s, line b now r = header (header_values b now r) ++ s ++ [10] /\
    unindent (Z.to_nat n) s = message (args r) /\
    length (DefaultFormat.split_newline s).2 =
      length (DefaultFormat.split_newline (message (args r))).2 /\
    Forall (fun l => exists l', l = replicate (Z.to_nat n) 32 ++ l')
      (DefaultFormat.split_newline s).2.
Proof.
  intros Hs Hn. exists (body b (message (args r))). unfold line. rewrite Hs. split; [done|].
  unfold body, separator. rewrite Hs, Hn. cbn [fmap option_fmap option_map default from_option id app].
  unfold unindent. rewrite split_newline_of_indented. cbn [fst snd]. split_and!.
  - transitivity (indented [10] (message (args r))).
    + rewrite split_newline_indented. f_equal. rewrite list_fmap_bind. apply list_bind_ext; [|done].
      intros l. unfold compose. rewrite drop_app_length' by (by rewrite length_replicate). done.
    + unfold indented. induction (message (args r)) as [|c l IH]; [done|].
      rewrite bind_cons, IH. destruct (c =? 10) eqn:Hc; [by apply Z.eqb_eq in Hc as ->|done].
  - by rewrite length_fmap.
  - apply Forall_fmap, Forall_true. intros l. by exists l.
Qed.
End lines.

(** ** Concrete lines: the format of the tests, without a timestamp *)

Definition test_format : FormatBuilder.t := FormatBuilder.mk false true false true (Some 4) None [10].

Definition inner_record : Record := mk_record Level.Debug None [] [inl (literal "inner")].

Definition two_lines : Record :=
  mk_record Level.Info (Some (literal "test::path")) (literal "target")
    [inl (literal "lo"); inr inner_record; inl (literal "g" ++ [10] ++ literal "message")].

Example test_line :
  line (fun _ => []) test_format 0 two_lines =
    literal "[INFO  test::path] log" ++ [10] ++ literal "    message" ++ [10].
Proof. reflexivity. Qed.

Lemma default_format_line_witness :
  FormatBuilder.build (fun _ => []) test_format (fun r n => Ret (n + 1)) 0 two_lines [1; 2] 41 =
    Ret ([1; 2] ++ literal "[INFO  test::path] log" ++ [10] ++ literal "    message" ++ [10], 42).
Proof.
  rewrite (default_format_line (fun _ => []) (fun r n => Ret (n + 1)) test_format 0 two_lines [1; 2] 41
    eq_refl). reflexivity.
Defined.

Lemma message_recovered_witness :
  exists s, line (fun _ => []) test_format 0 two_lines =
      literal "[INFO  test::path] " ++ s ++ [10] /\
    unindent 4 s = literal "log" ++ [10] ++ literal "message".
Proof.
  destruct (message_recovered (fun _ => []) test_format 4 0 two_lines eq_refl eq_refl)
    as (s & Hl & Hs & _).
  exists s. split; [exact Hl|exact Hs].
Defined.
