(* ===== verification/Logger.v ===== *)
(** * The logger

    [ic-log/src/lib.rs]: the builder of loggers, and [Logger::log] with its
    thread-local formatter, which is re-entered when the arguments of a record log
    records of their own.  The filters of the env_filter crate are a parameter. *)

From S2P Require Import Prelude LogWriter LogState Formatter.
Local Open Scope Z_scope.

(** Filters of env_filter and the levels of the log crate. *)
Class EnvFilter := {
  EnvBuilder : Type;
  EnvFilterT : Type;
  EnvLevel : Type;
  env_default : EnvBuilder;
  env_filter_module : bytes -> EnvLevel -> EnvBuilder -> EnvBuilder;
  env_filter_level : EnvLevel -> EnvBuilder -> EnvBuilder;
  env_filter : option bytes -> EnvLevel -> EnvBuilder -> EnvBuilder;
  env_parse : string -> EnvBuilder -> EnvBuilder;
  env_try_parse : string -> EnvBuilder -> result EnvBuilder string;
  env_build : EnvBuilder -> EnvFilterT;
  env_level : EnvFilterT -> EnvLevel;
  env_matches : EnvFilterT -> Record -> bool;
  env_enabled : EnvFilterT -> Level.t -> bytes -> bool;
  env_off : EnvLevel;
  env_allows : EnvLevel -> Level.t -> bool;
}.

Section logger.
Context `{EnvFilter, Target, !RingLib string}.
Variables (lossy : list Z -> string) (format_rfc3339_nanos : Z -> bytes).

(** [{:?}] of a text. *)
Variable debug_text : string -> bytes.

(** The format of the installed logger, and the time while a message is handled. *)
Variables (format : FormatBuilder.t) (now : Z).

(** What the logger canister uses of all this: parse a filter from the default
    builder, and format a record. *)
#[local] Instance env_filter_lib : FilterLib := {|
  Filter := EnvFilterT;
  LevelFilter := EnvLevel;
  LogRecord := Record;
  filter_try_parse s := result_map env_build (env_try_parse s env_default);
  filter_level := env_level;
  filter_matches := env_matches;
  level_off := env_off;
  level_allows l r := env_allows l (level r);
  info_record f := mk_record Level.Info (Some (literal "ic_log::canister::state"))
    (literal "ic_log::canister::state") [inl (literal "Updated log filter to: "); inl (debug_text f)];
  format_record r := Some (line format_rfc3339_nanos format now r);
|}.

(** ** Logger *)

Definition filter_of (l : Logger) : EnvLevel := env_level (filter l).
Definition matches (l : Logger) (r : Record) : bool := env_matches (filter l) r.
Definition enabled (l : Logger) (lv : Level.t) (target : bytes) : bool :=
  env_enabled (filter l) lv target.

(** The thread-local formatter: free with its buffer, borrowed, or destroyed. *)
Inductive slot := Free (b : Buffer) | Borrowed | Destroyed.

(** A logging macro, then [Logger::log]. *)
Fixpoint log_record (r : Record) (w : slot * global) : outcome (slot * global) :=
  let '(s, g) := w in
  match logger g with
  | None => Ret (s, g)
  | Some l =>
      if env_allows (max_level g) (level r) && matches l r then
        let print_record formatter w :=
          '(formatter, (s, g)) ←
            FormatBuilder.build format_rfc3339_nanos format log_record now r formatter w;
          g ← Formatter.print (print lossy (writers l)) formatter g;
          Ret (Formatter.clear formatter, (s, g)) in
        match s with
        | Free formatter =>
            '(formatter, (_, g)) ← print_record formatter (Borrowed, g);
            Ret (Free formatter, g)
        | Borrowed | Destroyed => '(_, w) ← print_record [] (s, g); Ret w
        end
      else Ret (s, g)
  end.

(** ** Builder *)

Record Builder := mk_builder {
  b_filter : EnvBuilder;
  b_writers : list Writer;
  b_format : FormatBuilder.t;
}.

Definition builder_new : Builder := mk_builder env_default [] FormatBuilder.default.

Definition with_format (f : FormatBuilder.t) (b : Builder) : Builder :=
  mk_builder (b_filter b) (b_writers b) f.

Definition with_filter (f : EnvBuilder) (b : Builder) : Builder :=
  mk_builder f (b_writers b) (b_format b).

Definition format_level (write : bool) (b : Builder) : Builder :=
  let f := b_format b in
  with_format (FormatBuilder.mk (FormatBuilder.timestamp f) (FormatBuilder.format_module_path f)
    (FormatBuilder.format_target f) write (FormatBuilder.format_indent f)
    (FormatBuilder.custom_format f) (FormatBuilder.format_suffix f)) b.

Definition format_module_path (write : bool) (b : Builder) : Builder :=
  let f := b_format b in
  with_format (FormatBuilder.mk (FormatBuilder.timestamp f) write
    (FormatBuilder.format_target f) (FormatBuilder.format_level f) (FormatBuilder.format_indent f)
    (FormatBuilder.custom_format f) (FormatBuilder.format_suffix f)) b.

Definition format_target (write : bool) (b : Builder) : Builder :=
  let f := b_format b in
  with_format (FormatBuilder.mk (FormatBuilder.timestamp f) (FormatBuilder.format_module_path f)
    write (FormatBuilder.format_level f) (FormatBuilder.format_indent f)
    (FormatBuilder.custom_format f) (FormatBuilder.format_suffix f)) b.

Definition format_indent (indent : option Z) (b : Builder) : Builder :=
  let f := b_format b in
  with_format (FormatBuilder.mk (FormatBuilder.timestamp f) (FormatBuilder.format_module_path f)
    (FormatBuilder.format_target f) (FormatBuilder.format_level f) indent
    (FormatBuilder.custom_format f) (FormatBuilder.format_suffix f)) b.

Definition format_suffix (suffix : bytes) (b : Builder) : Builder :=
  let f := b_format b in
  with_format (FormatBuilder.mk (FormatBuilder.timestamp f) (FormatBuilder.format_module_path f)
    (FormatBuilder.format_target f) (FormatBuilder.format_level f) (FormatBuilder.format_indent f)
    (FormatBuilder.custom_format f) suffix) b.

Definition filter_module (module : bytes) (lv : EnvLevel) (b : Builder) : Builder :=
  with_filter (env_filter_module module lv (b_filter b)) b.

Definition filter_level (lv : EnvLevel) (b : Builder) : Builder :=
  with_filter (env_filter_level lv (b_filter b)) b.

Definition filter (module : option bytes) (lv : EnvLevel) (b : Builder) : Builder :=
  with_filter (env_filter module lv (b_filter b)) b.

Definition parse_filters (filters : string) (b : Builder) : Builder :=
  with_filter (env_parse filters (b_filter b)) b.

Definition try_parse_filters (filters : string) (b : Builder) : result Builder string :=
  result_map (fun f => with_filter f b) (env_try_parse filters (b_filter b)).

Definition add_writer (w : Writer) (b : Builder) : Builder :=
  mk_builder (b_filter b) (b_writers b ++ [w]) (b_format b).

(** [build]: the logger with its format; a single writer stands for itself, several
    are a [MultiWriter], which prints to each. *)
Definition build (b : Builder) : Logger * FormatBuilder.t :=
  (mk_logger (b_writers b) (env_build (b_filter b)), b_format b).

(** [try_init]: the logger becomes the global one, unless there is one. *)
Definition builder_try_init (b : Builder) (g : global) : LogResult * global :=
  try_init (build b).1 g.

(** [init_log], through the builder. *)
Definition init_log_built (settings : LogSettingsV2) (g : global) : LogResult * global :=
  match try_parse_filters (log_filter settings) builder_new with
  | Err e => (Err (InvalidConfiguration e), g)
  | Ok builder =>
      let builder := if enable_console settings then add_writer ConsoleWriter builder else builder in
      let g := set_memory_log g (InMemoryWriter.init_buffer (in_memory_records settings)
                 (max_record_length settings) (memory_log g)) in
      builder_try_init (add_writer MemoryWriter builder) g
  end.

(** ** Records that log records *)

(** Induction on a record and the records its arguments log. *)
Definition Record_nested_ind (P : Record -> Prop)
    (step : forall lv m t l, Forall (fun p => match p with inl _ => True | inr r => P r end) l ->
       P (mk_record lv m t l)) : forall r, P r :=
  fix rec r :=
    match r with
    | mk_record lv m t l =>
        step lv m t l ((fix all l : Forall (fun p => match p with inl _ => True | inr r => P r end) l :=
          match l with
          | [] => Forall_nil_2 _
          | p :: l => Forall_cons_2 _ p l
              (match p as p return match p with inl _ => True | inr r => P r end with
               | inl _ => I | inr r => rec r end) (all l)
          end) l)
    end.

(** The records that are printed when [r] is logged: those that pass [ok], the nested
    ones first. *)
Definition logged_by (f : Record -> list Record) : list (bytes + Record) -> list Record :=
  fix nested l :=
    match l with
    | [] => []
    | inl _ :: l => nested l
    | inr r :: l => f r ++ nested l
    end.

Fixpoint logged (ok : Record -> bool) (r : Record) : list Record :=
  if ok r then logged_by (logged ok) (args r) ++ [r] else [].

Definition allowed (l : Logger) (max : EnvLevel) (r : Record) : bool :=
  env_allows max (level r) && matches l r.

(** One line per record, in order. *)
Fixpoint log_lines (ws : list Writer) (rs : list Record) (g : global) : outcome global :=
  match rs with
  | [] => Ret g
  | r :: rs => g ← print lossy ws (line format_rfc3339_nanos format now r) g; log_lines ws rs g
  end.

Lemma log_lines_app ws rs rs' g :
  log_lines ws (rs ++ rs') g = g ← log_lines ws rs g; log_lines ws rs' g.
Proof.
  revert g. induction rs as [|r rs IH]; intros g; [done|]. cbn.
  destruct (print _ _ _ _) as [g'|]; cbn; [apply IH|done].
Qed.

Lemma print_keeps ws buf g g' :
  print lossy ws buf g = Ret g' -> logger g' = logger g /\ max_level g' = max_level g.
Proof.
  revert g. induction ws as [|[] ws IH]; intros g; cbn; [by intros [= <-]|..]; intros Hp.
  - by apply IH in Hp.
  - apply outcome_bind_Ret in Hp as (m & _ & Hp). by apply IH in Hp.
Qed.

Lemma log_lines_keeps ws rs g g' :
  log_lines ws rs g = Ret g' -> logger g' = logger g /\ max_level g' = max_level g.
Proof.
  revert g. induction rs as [|r rs IH]; intros g; cbn; [by intros [= <-]|]. intros Hp.
  apply outcome_bind_Ret in Hp as (g1 & Hp & Hr). apply IH in Hr as [-> ->].
  by apply print_keeps in Hp.
Qed.

(** A free formatter is empty between two messages. *)
Definition clean (s : slot) : Prop := match s with Free b => b = [] | _ => True end.

(** The arguments of a record, if the records they log write their lines. *)
Definition writes_lines l r : Prop :=
  forall s g, logger g = Some l -> clean s ->
  log_record r (s, g) = (fun g => (s, g)) <$> log_lines (writers l) (logged (allowed l (max_level g)) r) g.

Lemma displayed_lines l l0 max s g :
  Forall (fun a => match a with inl _ => True | inr r => writes_lines l r end) l0 ->
  logger g = Some l -> max_level g = max -> clean s ->
  displayed log_record l0 (s, g) =
    (fun g => (s, g)) <$> log_lines (writers l) (logged_by (logged (allowed l max)) l0) g.
Proof.
  intros IH. revert max s g. induction IH as [|[?|r] l0 Hr _ IHl]; intros max s g Hl Hm Hs;
    cbn [displayed logged_by]; [done|by apply IHl|].
  rewrite (Hr s g Hl Hs), Hm, log_lines_app.
  destruct (log_lines (writers l) (logged (allowed l max) r) g) as [g1|] eqn:Hg; cbn; [|done].
  apply log_lines_keeps in Hg as [Hg1 Hm1]. apply IHl; congruence.
Qed.

(** See [log_reentrant]. *)
Lemma log_record_lines r s g l :
  FormatBuilder.custom_format format = None -> logger g = Some l -> clean s ->
  log_record r (s, g) =
    (fun g => (s, g)) <$> log_lines (writers l) (logged (allowed l (max_level g)) r) g.
Proof.
  intros Hf Hl Hs. revert s g Hl Hs.
  induction r as [lv m t l0 IH] using Record_nested_ind. intros s g Hl Hs.
  set (r := mk_record lv m t l0). set (max := max_level g).
  change (logged (allowed l max) r) with
    (if allowed l max r then logged_by (logged (allowed l max)) l0 ++ [r] else []).
  change (log_record r (s, g)) with
    (match logger g with
     | None => Ret (s, g)
     | Some l =>
      if allowed l max r then
        let print_record formatter w :=
          '(formatter, (s, g)) ←
            FormatBuilder.build format_rfc3339_nanos format log_record now r formatter w;
          g ← Formatter.print (print lossy (writers l)) formatter g;
          Ret (Formatter.clear formatter, (s, g)) in
        match s with
        | Free formatter =>
            '(formatter, (_, g)) ← print_record formatter (Borrowed, g);
            Ret (Free formatter, g)
        | Borrowed | Destroyed => '(_, w) ← print_record [] (s, g); Ret w
        end
      else Ret (s, g)
     end).
  rewrite Hl. destruct (allowed l max r); [|done]. cbn zeta.
  set (s' := match s with Free _ => Borrowed | s => s end).
  assert (match s with Free b => b | _ => [] end = []) as Hb by (by destruct s).
  transitivity ('(b, (s1, g)) ←
      ('(formatter, (s, g)) ←
         FormatBuilder.build format_rfc3339_nanos format log_record now r
           (match s with Free b => b | _ => [] end) (s', g);
       g ← Formatter.print (print lossy (writers l)) formatter g;
       Ret (Formatter.clear formatter, (s, g)));
    Ret (match s with Free _ => Free b | _ => s1 end, g)).
  { destruct s; [reflexivity|..]; cbn;
      (destruct (FormatBuilder.build _ _ _ _ _ _ _) as [[? [? ?]]|]; cbn; [|done]);
      by destruct (Formatter.print _ _ _). }
  rewrite Hb, default_format_line by done. cbn [args r].
  rewrite (displayed_lines l l0 max s' g IH Hl eq_refl) by (by destruct s).
  rewrite log_lines_app. cbn [log_lines]. unfold Formatter.print, Formatter.clear, FormatBuffer.clear.
  destruct (log_lines _ _ g) as [g1|]; cbn; [|done].
  destruct (print _ _ _ g1) as [g2|]; cbn; [|done]. destruct s; cbn in *; by subst.
Qed.

(** C29: Logging is re-entrant.  Whatever records the arguments of a record log, at any
    depth, each that passes the filter is printed to every writer exactly once and as
    a line of its own, the nested ones before the record whose arguments log them; the
    lines do not depend on whether the thread's formatter is free, borrowed by an
    outer record or destroyed, and the formatter is left as it was, so nothing of a
    line reaches the next. *)
Theorem log_reentrant r s g l :
  FormatBuilder.custom_format format = None -> logger g = Some l -> clean s ->
  log_record r (s, g) =
    (fun g => (s, g)) <$> log_lines (writers l) (logged (allowed l (max_level g)) r) g.
Proof. apply log_record_lines. Qed.
(** The logger that the canister's settings install.  [init_log] is the builder
    with the parsed filter, the console writer if it is enabled, and the in-memory
    writer; and a record whose arguments log nothing is handled by the detailed
    logger, whatever the state of the thread's formatter, as by the one the canister
    is modelled with. *)
Theorem canister_logger_refined :
  (forall settings g, init_log settings g = init_log_built settings g) /\
  (forall r s g, FormatBuilder.custom_format format = None -> clean s ->
     Forall (fun p => exists t, p = inl t) (args r) ->
     log_record r (s, g) = (fun g => (s, g)) <$> log lossy r g).
Proof.
  split.
  - intros settings g. unfold init_log, init_log_built, try_parse_filters, builder_new. cbn.
    destruct (env_try_parse _ _) as [f|e]; cbn; [|done].
    by destruct (enable_console settings).
  - intros r s g Hf Hs Hr. unfold log. destruct (logger g) as [l|] eqn:Hl.
    + rewrite (log_record_lines r s g l Hf Hl Hs). destruct r as [lv m t l0]. cbn [logged args] in *.
      assert (logged_by (logged (allowed l (max_level g))) l0 = []) as ->
        by (by induction Hr as [|p l0 [x ->]]).
      unfold allowed, matches. cbn. destruct (_ && _); cbn; [|done].
      by destruct (print _ _ _ _).
    + destruct r, s; cbn; by rewrite Hl.
Qed.
End logger.

(** ** A concrete logger: a filter is the least severe level it lets through *)

#[local] Existing Instance wasm_release.

Definition severity (l : Level.t) : Z :=
  match l with
  | Level.Error => 1 | Level.Warn => 2 | Level.Info => 3 | Level.Debug => 4 | Level.Trace => 5
  end.

#[local] Instance level_filters : EnvFilter := {|
  EnvBuilder := Z; EnvFilterT := Z; EnvLevel := Z;
  env_default := 1;
  env_filter_module _ l b := Z.max l b;
  env_filter_level l _ := l;
  env_filter _ l b := Z.max l b;
  env_parse _ b := b;
  env_try_parse s b := if decide (s = "info"%string) then Ok 3 else Err "invalid"%string;
  env_build b := b;
  env_level b := b;
  env_matches b r := severity (level r) <=? b;
  env_enabled b l _ := severity l <=? b;
  env_off := 0;
  env_allows m l := severity l <=? m;
|}.

(** An error whose arguments log two records, one of them below the level. *)
Definition nested_record : Record :=
  mk_record Level.Error None []
    [inl [97];
     inr (mk_record Level.Info None [] [inl [98]; inr (mk_record Level.Warn None [] [inl [99]])]);
     inr (mk_record Level.Debug None [] [inl [100]]);
     inl [10; 101]].

Definition message_only : FormatBuilder.t := FormatBuilder.mk false false false false (Some 2) None [10].

Definition info_global : global (H := env_filter_lib (fun _ => []) (fun _ => []) message_only 0) :=
  mk_global (H := env_filter_lib (fun _ => []) (fun _ => []) message_only 0) InMemoryWriter.initial []
    (Some (mk_logger (H := env_filter_lib (fun _ => []) (fun _ => []) message_only 0)
             [ConsoleWriter] 3)) 3.

Lemma log_reentrant_witness :
  exists s g, log_record decode_ascii (fun _ => []) (fun _ => []) message_only 0 nested_record
      (Free [], info_global) = Ret (s, g) /\
    s = Free [] /\ console g = [[99; 10]; [98; 10]; [97; 10; 32; 32; 101; 10]].
Proof.
  eexists _, _. split.
  - rewrite (log_reentrant decode_ascii (fun _ => []) (fun _ => []) message_only 0 nested_record
      (Free []) info_global _ eq_refl eq_refl eq_refl). reflexivity.
  - split; reflexivity.
Defined.

Lemma canister_logger_refined_witness :
  exists g, log_record decode_ascii (fun _ => []) (fun _ => []) message_only 0
      (mk_record Level.Warn None [] [inl [99]]) (Borrowed, info_global) = Ret (Borrowed, g) /\
    console g = [[99; 10]].
Proof.
  destruct (canister_logger_refined decode_ascii (fun _ => []) (fun _ => []) message_only 0) as [_ Hl].
  eexists. split.
  - rewrite (Hl (mk_record Level.Warn None [] [inl [99]]) Borrowed info_global eq_refl I
      ltac:(repeat constructor; by eexists)). reflexivity.
  - reflexivity.
Defined.
