(* ===== verification/LogCanister.v ===== *)
(** * The endpoints of the logger canister

    [ic-log/src/canister.rs]: the methods a canister exports for its logger, the
    inspection of ingress messages, and what messages do to the state: a message
    that traps leaves no trace. *)

From S2P Require Import Prelude StableLib Concrete Structure StableStorage LogWriter LogState.
Local Open Scope Z_scope.

Section canister.
Context {M : Type} `{FilterLib, Target, !RingLib string, !CellLib StorableLogSettings M}.
Variable lossy : list Z -> string.
Notation world := (LogState.world (M := M)).

(** ** canister.rs *)


Definition ic_logs (caller : Principal) (pagination : Pagination) (w : world) :
    outcome InMemoryWriter.Logs :=
  r ← LogState.get_logs caller pagination w; expect_ok r.

Definition set_logger_filter (caller : Principal) (filter : string) (w : world) :
    outcome (LogResult * world) :=
  '(r, w) ← LogState.set_logger_filter lossy caller filter w;
  match r with
  | Err (InvalidConfiguration e) => Ret (Err (InvalidConfiguration e), w)
  | result => _ ← expect_ok result; Ret (Ok tt, w)
  end.

Definition set_logger_in_memory_records (caller : Principal) (max_log_count : Z) (w : world) :
    outcome world :=
  '(r, w) ← LogState.set_in_memory_records caller max_log_count w; _ ← expect_ok r; Ret w.

Definition get_logger_settings (w : world) : LogCanisterSettings := LogState.get_settings w.1.

Definition add_logger_permission (caller to : Principal) (permission : LoggerPermission) (w : world) :
    outcome world :=
  '(r, w) ← LogState.add_permission caller to permission w; _ ← expect_ok r; Ret w.

Definition remove_logger_permission (caller from : Principal) (permission : LoggerPermission)
    (w : world) : outcome world :=
  '(r, w) ← LogState.remove_permission caller from permission w; _ ← expect_ok r; Ret w.

(** ** Messages *)

Inductive Call :=
  | IcLogs (pagination : Pagination)
  | SetLoggerFilter (filter : string)
  | SetLoggerInMemoryRecords (max_log_count : Z)
  | GetLoggerSettings
  | AddLoggerPermission (to : Principal) (permission : LoggerPermission)
  | RemoveLoggerPermission (from : Principal) (permission : LoggerPermission).

Definition method_name (c : Call) : string :=
  match c with
  | IcLogs _ => "ic_logs"
  | SetLoggerFilter _ => "set_logger_filter"
  | SetLoggerInMemoryRecords _ => "set_logger_in_memory_records"
  | GetLoggerSettings => "get_logger_settings"
  | AddLoggerPermission _ _ => "add_logger_permission"
  | RemoveLoggerPermission _ _ => "remove_logger_permission"
  end.

Inductive Reply :=
  | Logs (l : InMemoryWriter.Logs)
  | Settings (s : LogCanisterSettings)
  | Done
  | Result (r : LogResult).

Definition execute (caller : Principal) (c : Call) (w : world) : outcome (Reply * world) :=
  match c with
  | IcLogs p => l ← ic_logs caller p w; Ret (Logs l, w)
  | SetLoggerFilter f => '(r, w) ← set_logger_filter caller f w; Ret (Result r, w)
  | SetLoggerInMemoryRecords n => w ← set_logger_in_memory_records caller n w; Ret (Done, w)
  | GetLoggerSettings => Ret (Settings (get_logger_settings w), w)
  | AddLoggerPermission to p => w ← add_logger_permission caller to p w; Ret (Done, w)
  | RemoveLoggerPermission from p => w ← remove_logger_permission caller from p w; Ret (Done, w)
  end.

(** Ingress updates are inspected first; calls from canisters and queries are not. *)
Record Message := mk_message { inspected : bool; sender : Principal; call : Call }.

Definition handle (m : Message) (w : world) : outcome (Reply * world) :=
  if negb (inspected m) then execute (sender m) (call m) w
  else _ ← LogState.logger_canister_inspect (method_name (call m)) (sender m) w.1;
       execute (sender m) (call m) w.

(** The state after a message: a trap undoes its changes. *)
Definition deliver (w : world) (m : Message) : world :=
  match handle m w with Ret (_, w') => w' | Panic => w end.

Definition deliver_all (ms : list Message) (w : world) : world := foldl deliver w ms.
End canister.

(** ** The logger is the one the settings describe *)

Section canister_laws.
Context {M : Type} `{FilterLib, Target, !RingLib string, !RingLaws string}.
Context `{!CellLib StorableLogSettings M, !CellLaws StorableLogSettings M}.
Variable lossy : list Z -> string.
Notation world := (LogState.world (M := M)).
Implicit Types (w : world) (g : global) (caller : Principal) (v : LogSettingsV2).

Definition memory_ok (n max_length : Z) (m : InMemoryWriter.t) : Prop :=
  InMemoryWriter.enabled m = (0 <? n) /\
  ring_capacity (InMemoryWriter.records m) = (if 0 <? n then n else 1) /\
  InMemoryWriter.max_record_length m = max_length.

(** The global logger has the filter, the writers and the in-memory log of [v]. *)
Record installed v g : Prop := {
  ins_logger : exists l, logger g = Some l /\ filter_try_parse (log_filter v) = Ok (filter l) /\
    writers l = (if enable_console v then [ConsoleWriter] else []) ++ [MemoryWriter] /\
    max_level g = filter_level (filter l);
  ins_memory : memory_ok (in_memory_records v) (max_record_length v) (memory_log g);
}.

Record consistent w : Prop := {
  con_stores : stores w.1;
  con_config : LogState.logger_config w.1 = true;
  con_installed : installed (LogState.stored w.1).1 w.2;
}.

Lemma new_capacity n : 0 < n -> ring_capacity (ring_new (T := string) n) = n.
Proof. intros Hn. by destruct (ring_new_law (T := string) n Hn). Qed.

Lemma init_buffer_ok n max_length m : memory_ok n max_length (InMemoryWriter.init_buffer n max_length m).
Proof.
  unfold memory_ok, InMemoryWriter.init_buffer.
  destruct (0 <? n) eqn:Hn; cbn; split_and!; try done; apply new_capacity; [by apply Z.ltb_lt|lia].
Qed.

Lemma print_memory_ok n max_length buf m m' :
  InMemoryWriter.print lossy buf m = Ret m' -> memory_ok n max_length m -> memory_ok n max_length m'.
Proof.
  intros Hp (He & Hc & Hl). unfold InMemoryWriter.print in Hp.
  destruct (negb (InMemoryWriter.enabled m)); [by injection Hp as <-|].
  apply outcome_bind_Ret in Hp as (k & _ & [= <-]).
  destruct (ring_push_law (InMemoryWriter.records m)
    (InMemoryWriter.truncated lossy (InMemoryWriter.max_record_length m) buf)) as [_ Hcap].
  split_and!; cbn; [done|by rewrite Hcap|done].
Qed.

Lemma print_installed ws v buf g g' :
  print lossy ws buf g = Ret g' -> installed v g -> installed v g'.
Proof.
  revert g. induction ws as [|[] ws IH]; intros g; cbn [print]; [by intros [= <-]|..];
    intros Hp [Hl Hm].
  - apply (IH _ Hp). by split.
  - apply outcome_bind_Ret in Hp as (m & Hp1 & Hp). apply (IH _ Hp). split; [done|].
    by apply (print_memory_ok _ _ _ _ _ Hp1).
Qed.

Lemma log_installed v r g g' : log lossy r g = Ret g' -> installed v g -> installed v g'.
Proof.
  unfold log. destruct (logger g) as [l|]; [|by intros [= <-]].
  destruct (_ && _); [|by intros [= <-]]. destruct (format_record r) as [buf|]; [|by intros [= <-]].
  apply print_installed.
Qed.

Lemma push_all_capacity {B} (f : B -> string) l (r : ring (T := string)) :
  ring_capacity (foldl (fun r x => ring_push r (f x)) r l) = ring_capacity r.
Proof.
  revert r. induction l as [|x l IH]; intros r; [done|]. cbn. rewrite IH.
  by destruct (ring_push_law r (f x)).
Qed.

Lemma change_capacity_ok n k max_length m m' :
  InMemoryWriter.change_capacity n m = Ret m' -> memory_ok k max_length m -> memory_ok n max_length m'.
Proof.
  intros Hc (_ & _ & Hl). unfold InMemoryWriter.change_capacity in Hc. unfold memory_ok.
  destruct (0 <? n) eqn:Hn.
  - apply outcome_bind_Ret in Hc as (l & _ & [= <-]). cbn. split_and!; [done| |done].
    rewrite push_all_capacity. apply new_capacity. by apply Z.ltb_lt.
  - injection Hc as <-. cbn. split_and!; [done| |done]. by apply new_capacity.
Qed.

Lemma check_Ok caller p (s : LogState.t M) :
  LogState.check_permission caller p s = Ok tt -> is_Some (LogState.settings s).
Proof. unfold LogState.check_permission. by destruct (LogState.settings s). Qed.

Lemma set_filter_consistent caller f w r w' :
  LogState.set_logger_filter lossy caller f w = Ret (r, w') -> consistent w -> consistent w'.
Proof.
  destruct w as [s g]. unfold LogState.set_logger_filter. intros Hr [Hst Hc [(l & Hl & Hf & Hw & Hm) Hmem]].
  cbn [fst snd] in *. destruct (LogState.check_permission caller Configure s) as [u|e];
    [|injection Hr as <- <-; by split; [..|split; [exists l|]]].
  rewrite Hc in Hr. unfold update_filters in Hr.
  destruct (filter_try_parse f) as [f'|e] eqn:Hp;
    [|injection Hr as <- <-; by split; [..|split; [exists l|]]].
  cbn -[log] in Hr. rewrite Hl in Hr.
  destruct (update_settings_stores (fun x => (mk_settings (enable_console x.1) (in_memory_records x.1)
    (max_record_length x.1) f, x.2)) s Hst) as (s' & Hs' & Hv & Hst' & Hc').
  rewrite Hs' in Hr. cbn -[log] in Hr. apply outcome_bind_Ret in Hr as (g' & Hlog & [= <- <-]).
  split; cbn [fst snd]; [done|by rewrite Hc'|]. rewrite Hv.
  apply (log_installed _ _ _ _ Hlog). split; [|done]. by eexists.
Qed.

Lemma set_records_consistent caller n w r w' :
  LogState.set_in_memory_records caller n w = Ret (r, w') -> consistent w -> consistent w'.
Proof.
  destruct w as [s g]. unfold LogState.set_in_memory_records. intros Hr Hcon.
  pose proof Hcon as [Hst Hc [(l & Hl & Hf & Hw & Hm) Hmem]]. cbn [fst snd] in *.
  destruct (LogState.check_permission caller Configure s) as [u|e]; [|by injection Hr as <- <-].
  apply outcome_bind_Ret in Hr as (m & Hm' & Hr).
  destruct (update_settings_stores (fun x => (mk_settings (enable_console x.1) n
    (max_record_length x.1) (log_filter x.1), x.2)) s Hst) as (s' & Hs' & Hv & Hst' & Hc').
  rewrite Hs' in Hr. cbn in Hr. injection Hr as <- <-.
  split; cbn [fst snd]; [done|by rewrite Hc'|]. rewrite Hv. split; [by exists l|].
  by apply (change_capacity_ok _ _ _ _ _ Hm' Hmem).
Qed.

Lemma change_acl_consistent caller f w r w' :
  LogState.change_acl caller f w = Ret (r, w') -> consistent w -> consistent w'.
Proof.
  destruct w as [s g]. unfold LogState.change_acl. intros Hr Hcon.
  pose proof Hcon as [Hst Hc Hins]. cbn [fst snd] in *.
  destruct (LogState.check_permission caller Configure s) as [u|e]; [|by injection Hr as <- <-].
  destruct (update_settings_stores (fun x => (x.1, f x.2)) s Hst) as (s' & Hs' & Hv & Hst' & Hc').
  rewrite Hs' in Hr. injection Hr as <- <-.
  split; cbn [fst snd]; [done|by rewrite Hc'|]. by rewrite Hv.
Qed.

Lemma execute_consistent caller c w r w' :
  execute lossy caller c w = Ret (r, w') -> consistent w -> consistent w'.
Proof.
  destruct c as [p|f|n| |to p|from p]; cbn; intros He Hcon.
  - by apply outcome_bind_Ret in He as (l & _ & [= _ <-]).
  - unfold set_logger_filter in He. apply outcome_bind_Ret in He as ([r1 w1] & He & [= _ <-]).
    apply outcome_bind_Ret in He as ([r2 w2] & Hr & He).
    apply (set_filter_consistent _ _ _ _ _ Hr) in Hcon.
    destruct r2 as [|[]]; cbn in He; simplify_eq; done.
  - unfold set_logger_in_memory_records in He. apply outcome_bind_Ret in He as (w1 & He & [= _ <-]).
    apply outcome_bind_Ret in He as ([r2 w2] & Hr & He).
    apply outcome_bind_Ret in He as (u & _ & [= <-]). by apply (set_records_consistent _ _ _ _ _ Hr).
  - by injection He as _ <-.
  - unfold add_logger_permission in He. apply outcome_bind_Ret in He as (w1 & He & [= _ <-]).
    apply outcome_bind_Ret in He as ([r2 w2] & Hr & He).
    apply outcome_bind_Ret in He as (u & _ & [= <-]). by apply (change_acl_consistent _ _ _ _ _ Hr).
  - unfold remove_logger_permission in He. apply outcome_bind_Ret in He as (w1 & He & [= _ <-]).
    apply outcome_bind_Ret in He as ([r2 w2] & Hr & He).
    apply outcome_bind_Ret in He as (u & _ & [= <-]). by apply (change_acl_consistent _ _ _ _ _ Hr).
Qed.

Lemma deliver_all_consistent ms w : consistent w -> consistent (deliver_all lossy ms w).
Proof.
  revert w. induction ms as [|m ms IH]; intros w Hcon; [done|]. cbn. apply IH.
  unfold deliver. destruct (handle lossy m w) as [[r w']|] eqn:Hm; [|done].
  unfold handle in Hm. destruct (negb (inspected m)).
  - by apply (execute_consistent _ _ _ _ _ Hm).
  - apply outcome_bind_Ret in Hm as (u & _ & Hm). by apply (execute_consistent _ _ _ _ _ Hm).
Qed.

Lemma init_consistent caller memory cs g w c :
  logger g = None -> dcell_mem_fresh memory ->
  (forall x, dcell_mem_accepts memory x) ->
  LogState.init caller memory cs (LogState.initial, g) = (Ok c, w) -> consistent w.
Proof.
  intros Hg Hfresh Hacc. unfold LogState.init, init_log, try_init. cbn.
  destruct (filter_try_parse _) as [f|e] eqn:Hf; [|done]. cbn. rewrite Hg.
  destruct (dcell_init_fresh memory (LogSettingsV2_from cs,
    default {[ (caller, Configure) ]} (cs_acl cs)) Hfresh (Hacc _)) as (k & Hk & Hget & Hall).
  unfold StableCell.new. rewrite Hk. cbn. intros [= _ <-].
  split; cbn [fst snd]; [exists k; split; [done|]; intros x; by apply Hall|done|].
  change (LogState.stored _) with (dcell_get k). rewrite Hget. cbn [fst].
  split; [by eexists|]. apply init_buffer_ok.
Qed.

(** C21: The logger is the one the settings describe.  From a successful [init], and
    through any sequence of messages from anybody, answered or trapped, the global
    logger has the stored filter, its level and the writers of the settings, and the
    in-memory log has the stored capacity and line length; and after an upgrade
    [reload] of the stored settings, which succeeds exactly if someone is left on the
    access list, installs a logger that agrees with the one before the upgrade. *)
Theorem log_canister_consistent caller memory cs g w ms :
  logger g = None -> dcell_mem_fresh memory -> (forall x, dcell_mem_accepts memory x) ->
  LogState.init caller memory cs (LogState.initial, g) = (Ok tt, w) ->
  let w' := deliver_all lossy ms w in
  consistent w' /\
  forall memory' g' cell, logger g' = None ->
    StableCell.new memory' StorableLogSettings_default = Ok cell ->
    StableCell.get cell = LogState.stored w'.1 -> (forall x, dcell_accepts cell x) ->
    if decide (LogState.acl w'.1 = ∅)
    then (LogState.reload memory' (LogState.initial, g')).1 = Err InvalidMemory
    else exists w2, LogState.reload memory' (LogState.initial, g') = (Ok tt, w2) /\
      consistent w2 /\ LogState.stored w2.1 = LogState.stored w'.1 /\
      filter <$> logger w2.2 = filter <$> logger w'.2 /\
      writers <$> logger w2.2 = writers <$> logger w'.2 /\ max_level w2.2 = max_level w'.2.
Proof.
  intros Hg Hfresh Hacc Hinit w'. apply init_consistent in Hinit; [|done..].
  assert (consistent w') as Hcon by by apply deliver_all_consistent.
  split; [done|]. intros memory' g' cell Hg' Hnew Hget Hall. clearbody w'. clear Hinit.
  destruct Hcon as [Hst Hc [(l & Hl & Hf & Hw & Hm) Hmem]].
  unfold LogState.reload. cbn [LogState.initial LogState.logger_config]. rewrite Hnew. cbn zeta.
  rewrite Hget. unfold LogState.acl. case_decide as Ha.
  { by rewrite bool_decide_true. }
  rewrite bool_decide_false by done. unfold init_log, try_init. rewrite Hf. cbn. rewrite Hg'. cbn.
  eexists. split; [done|]. cbn [fst snd]. split_and!.
  - split; cbn [fst snd]; [by exists cell|done|]. change (LogState.stored (LogState.mk (Some cell) true)) with (StableCell.get cell).
    rewrite Hget.
    split; [by eexists|]. apply init_buffer_ok.
  - done.
  - by rewrite Hl.
  - rewrite Hl. cbn. by rewrite Hw.
  - by rewrite Hm.
Qed.

(** ** The answers of the endpoints *)

(** The inspection is redundant.  A message that the inspection refuses would
    have trapped anyway, in every state, also before the initialization; so the
    answer and the effect of a message do not depend on whether it was inspected. *)
Theorem inspection_redundant caller c w :
  handle lossy (mk_message true caller c) w = handle lossy (mk_message false caller c) w.
Proof.
  destruct w as [s g]. unfold handle, LogState.logger_canister_inspect. cbn [inspected negb call sender fst].
  assert (forall p, LogState.check_permission caller p s = Ok tt \/
    exists e, LogState.check_permission caller p s = Err e /\ forall t, e <> InvalidConfiguration t)
    as Hcheck.
  { intros p. unfold LogState.check_permission. destruct (LogState.settings s); [|by right; eexists].
    destruct (match p with Read => _ | Configure => _ end); [by left|by right; eexists]. }
  destruct (Hcheck Read) as [Hr|(er & Hr & _)], (Hcheck Configure) as [Hc|(ec & Hc & Hne)];
    destruct c as [p|f|n| |to p|from p]; cbn -[LogState.check_permission]; rewrite ?Hr, ?Hc; try done.
  all: unfold ic_logs, set_logger_filter, set_logger_in_memory_records, add_logger_permission,
    remove_logger_permission, LogState.get_logs, LogState.set_logger_filter,
    LogState.set_in_memory_records, LogState.add_permission, LogState.remove_permission,
    LogState.change_acl; rewrite ?Hr, ?Hc; cbn; try done.
  all: rewrite ?Hr, ?Hc; cbn; try done; destruct ec; try done; by destruct (Hne msg).
Qed.

(** What a call needs. *)
Definition permitted (caller : Principal) (c : Call) (s : LogState.t M) : Prop :=
  match c with
  | IcLogs _ => may caller Read s \/ may caller Configure s
  | GetLoggerSettings => True
  | _ => may caller Configure s
  end.

(** The line counter has room for one more. *)
Definition countable g : Prop := 0 <= InMemoryWriter.count (memory_log g) < 2 ^ usize_bits - 1.

Lemma log_total v r g :
  installed v g -> countable g -> exists g', log lossy r g = Ret g' /\ logger g' = logger g.
Proof.
  intros [(l & Hl & _ & Hw & _) _] Hn. unfold log. rewrite Hl.
  destruct (_ && _); [|by exists g]. destruct (format_record r) as [buf|]; [|by exists g].
  assert (exists m, InMemoryWriter.print lossy buf (memory_log g) = Ret m) as [m Hm].
  { unfold InMemoryWriter.print. destruct (negb _); [by eexists|]. unfold countable in Hn.
    rewrite u_add_ok by lia. by eexists. }
  rewrite Hw. destruct (enable_console v); cbn; rewrite Hm; by eexists.
Qed.

Lemma execute_refused caller c w :
  consistent w -> ~ permitted caller c w.1 -> execute lossy caller c w = Panic.
Proof.
  intros [(cell & Hs & _) _ _] Hp. destruct w as [s g]. cbn [fst] in *.
  pose proof (check_configure caller s cell Hs) as Hc. pose proof (check_read caller s cell Hs) as Hr.
  destruct c as [p|f|n| |to p|from p]; cbn in Hp; try done;
    try rewrite decide_False in Hc by tauto; try rewrite decide_False in Hr by tauto;
    cbn; unfold ic_logs, set_logger_filter, set_logger_in_memory_records, add_logger_permission,
      remove_logger_permission, LogState.get_logs, LogState.set_logger_filter,
      LogState.set_in_memory_records, LogState.add_permission, LogState.remove_permission,
      LogState.change_acl; cbn -[LogState.check_permission]; by rewrite ?Hc, ?Hr.
Qed.

(** What the endpoints answer.  Without the permission it needs a call traps;
    with it, an invalid filter is answered with an error and changes nothing, a valid
    one is stored and in force, a permission is added or removed and nothing else
    changes, the capacity is stored with the lines that fit, and the settings are
    shown to everyone. *)
Theorem log_canister_outcomes caller c w :
  consistent w -> countable w.2 ->
  (~ permitted caller c w.1 -> execute lossy caller c w = Panic) /\
  (permitted caller c w.1 ->
   let acl_of (w' : world) := LogState.acl w'.1 in
   let settings_of (w' : world) := (LogState.stored w'.1).1 in
   match c with
   | IcLogs p => execute lossy caller c w =
       l ← take_memory_records (page_count p) (page_offset p) w.2; Ret (Logs l, w)
   | SetLoggerFilter f =>
       match filter_try_parse f with
       | Err e => execute lossy caller c w = Ret (Result (Err (InvalidConfiguration e)), w)
       | Ok f' => exists w', execute lossy caller c w = Ret (Result (Ok tt), w') /\
           log_filter (settings_of w') = f /\ filter <$> logger w'.2 = Some f' /\ acl_of w' = acl_of w
       end
   | SetLoggerInMemoryRecords n => exists s', execute lossy caller c w =
         (m ← InMemoryWriter.change_capacity n (memory_log w.2);
          Ret (Done, (s', set_memory_log w.2 m))) /\
       in_memory_records (LogState.stored s').1 = n /\ LogState.acl s' = acl_of w
   | GetLoggerSettings =>
       execute lossy caller c w = Ret (Settings (LogCanisterSettings_from (LogState.stored w.1)), w)
   | AddLoggerPermission to p => exists s', execute lossy caller c w = Ret (Done, (s', w.2)) /\
       LogState.acl s' = {[ (to, p) ]} ∪ acl_of w /\ (LogState.stored s').1 = settings_of w
   | RemoveLoggerPermission from p => exists s', execute lossy caller c w = Ret (Done, (s', w.2)) /\
       LogState.acl s' = acl_of w ∖ {[ (from, p) ]} /\ (LogState.stored s').1 = settings_of w
   end).
Proof.
  intros Hcon Hn. destruct w as [s g]. pose proof Hcon as [Hst Hlc Hins]. cbn [fst snd] in *.
  pose proof Hst as (cell & Hs & _).
  pose proof (check_configure caller s cell Hs) as Hc. pose proof (check_read caller s cell Hs) as Hr.
  split; [by apply (execute_refused caller c (s, g))|].
  intros Hp. cbn zeta. destruct c as [p|f|n| |to p|from p]; cbn [permitted] in Hp;
      try rewrite decide_True in Hc by done; try rewrite decide_True in Hr by done.
    + cbn. unfold ic_logs, LogState.get_logs. cbn [fst]. rewrite Hr.
      by destruct (take_memory_records _ _ _).
    + cbn. unfold set_logger_filter, LogState.set_logger_filter. rewrite Hc, Hlc. unfold update_filters.
      destruct (filter_try_parse f) as [f'|e] eqn:Hf; [|done].
      destruct (update_settings_stores (fun x => (mk_settings (enable_console x.1)
        (in_memory_records x.1) (max_record_length x.1) f, x.2)) s Hst) as (s' & Hs' & Hv & Hst' & _).
      rewrite Hs'. cbn -[log]. destruct Hins as [(l & Hl & _ & Hw & _) Hmem]. rewrite Hl.
      set (g1 := mk_global _ _ _ _).
      destruct (log_total (mk_settings (enable_console (LogState.stored s).1)
        (in_memory_records (LogState.stored s).1) (max_record_length (LogState.stored s).1) f)
        (info_record f) g1) as (g' & Hlog & Hlg).
      { split; [|done]. eexists. by split_and!. }
      { done. }
      rewrite Hlog. cbn. eexists. split; [done|]. cbn [fst snd]. split_and!.
      * by rewrite Hv.
      * rewrite Hlg. done.
      * unfold LogState.acl. by rewrite Hv.
    + cbn. unfold set_logger_in_memory_records, LogState.set_in_memory_records. rewrite Hc.
      destruct (update_settings_stores (fun x => (mk_settings (enable_console x.1) n
        (max_record_length x.1) (log_filter x.1), x.2)) s Hst) as (s' & Hs' & Hv & _ & _).
      rewrite Hs'. exists s'. split; [by destruct (InMemoryWriter.change_capacity n _)|].
      unfold LogState.acl. by rewrite Hv.
    + done.
    + cbn. unfold add_logger_permission, LogState.add_permission, LogState.change_acl. rewrite Hc.
      destruct (update_settings_stores (fun x => (x.1, {[ (to, p) ]} ∪ x.2)) s Hst)
        as (s' & Hs' & Hv & _ & _).
      rewrite Hs'. exists s'. split; [done|]. unfold LogState.acl. by rewrite Hv.
    + cbn. unfold remove_logger_permission, LogState.remove_permission, LogState.change_acl. rewrite Hc.
      destruct (update_settings_stores (fun x => (x.1, x.2 ∖ {[ (from, p) ]})) s Hst)
        as (s' & Hs' & Hv & _ & _).
      rewrite Hs'. exists s'. split; [done|]. unfold LogState.acl. by rewrite Hv.
Qed.
End canister_laws.

(** ** A concrete canister, on a memory that may hold saved settings *)

#[local] Existing Instances wasm_release word_filters.

#[local] Instance saved_cell : CellLib StorableLogSettings (option StorableLogSettings) := {|
  dcell := StorableLogSettings;
  dcell_init m v := Ok (default v m);
  dcell_get c := c;
  dcell_set _ v := (Ok tt, v);
|}.

#[local] Instance saved_cell_laws : CellLaws StorableLogSettings (option StorableLogSettings).
Proof.
  refine {| dcell_accepts _ _ := True; dcell_mem_fresh m := m = None;
            dcell_mem_accepts _ _ := True |}; try done.
  intros m v -> _. by eexists.
Defined.

Definition settings_of_two : LogCanisterSettings :=
  mk_canister_settings None (Some 2) None (Some "debug"%string) None.

Definition started : LogState.world (M := option StorableLogSettings) :=
  (LogState.init admin None settings_of_two (LogState.initial, quiet_global)).2.

(** The administrator turns the log off, a stranger tries to turn it on. *)
Definition some_messages : list Message :=
  [mk_message true admin (SetLoggerFilter "off"); mk_message true user (SetLoggerFilter "debug");
   mk_message false user (SetLoggerInMemoryRecords 0);
   mk_message true admin (AddLoggerPermission user Read)].

Lemma log_canister_consistent_witness :
  let w' := deliver_all decode_ascii some_messages started in
  (filter <$> logger w'.2) = Some "off"%string /\
  exists w2, LogState.reload (Some (LogState.stored w'.1)) (LogState.initial, quiet_global) = (Ok tt, w2) /\
    (filter <$> logger w2.2) = Some "off"%string.
Proof.
  intros w'. split; [reflexivity|].
  assert (dcell_mem_fresh (None : option StorableLogSettings)) as Hnew by done.
  destruct (log_canister_consistent decode_ascii admin None settings_of_two quiet_global started
    some_messages eq_refl Hnew ltac:(done) eq_refl) as [_ Hup].
  specialize (Hup (Some (LogState.stored w'.1)) quiet_global (LogState.stored w'.1)
    eq_refl eq_refl eq_refl ltac:(done)).
  rewrite decide_False in Hup by (vm_compute; discriminate).
  destruct Hup as (w2 & Hr & _ & _ & Hf & _). exists w2. split; [exact Hr|].
  etransitivity; [exact Hf|]. reflexivity.
Defined.

Lemma log_canister_outcomes_witness :
  execute decode_ascii user (SetLoggerFilter "off") started = Panic /\
  execute decode_ascii admin (SetLoggerFilter "verbose") started =
    Ret (Result (Err (InvalidConfiguration "invalid")), started).
Proof.
  assert (consistent started) as Hc by by apply (init_consistent admin None settings_of_two quiet_global started tt).
  assert (countable started.2) as Hn by (split; by vm_compute).
  split.
  - apply (log_canister_outcomes decode_ascii user (SetLoggerFilter "off") started Hc Hn).
    unfold permitted, may, LogState.acl. vm_compute. discriminate.
  - destruct (log_canister_outcomes decode_ascii admin (SetLoggerFilter "verbose") started Hc Hn) as [_ Ha].
    apply Ha. unfold permitted, may, LogState.acl. vm_compute. reflexivity.
Defined.
