(* ===== verification/SchedulerLive.v ===== *)
(** * Progress of the task scheduler

    The runs of the scheduler are what drives it: a due task that waits is launched
    by the next run, however the futures of other tasks interleave, and a launched
    task does not stay launched past a run that comes after its deadline, whatever
    became of its future. *)

From S2P Require Import Prelude StableLib Concrete Structure StableStorage Task Scheduler SchedulerProofs SchedulerProps.
Local Open Scope Z_scope.

#[local] Existing Instance gmap_map.
#[local] Existing Instance gmap_sorted_map.
#[local] Existing Instance counter_cell.

Section progress.
Context `{Target} {T : Type}.
Implicit Types (w : abstract_world T) (t : InnerScheduledTask T) (ev : event T).
Local Notation pend w := (pending (sched w)).
Local Notation seq_of w := (Scheduler.task_id_sequence (sched w)).

Definition is_waiting t : bool := match status t with Waiting _ => true | _ => false end.

(** What one step may do to a stored task. *)
Definition transition (k : Z) ev t (o : option (InnerScheduledTask T)) : Prop :=
  o = Some t \/
  (exists opt, ev = EvReschedule k opt /\ o = Some (set_options t opt)) \/
  (exists time, ev = EvRun time /\ is_waiting t = true /\
     o = Some (set_status t (Scheduled (time_secs time)))) \/
  (exists time, ev = EvStart k time /\ is_launched t = true /\
     o = Some (set_status t (Running (time_secs time)))) \/
  (is_launched t = true /\ (o = None \/ exists t', o = Some t' /\ is_waiting t' = true)).

Lemma waiting_not_launched t : is_launched t = true -> is_waiting t = false.
Proof. unfold is_launched, is_waiting. by destruct (status t). Qed.

Lemma append_transition w time ts k t :
  inv w -> seq_of w + zlength ts < 2 ^ 64 -> pend w !! k = Some t ->
  pend (step w (EvAppend time ts)) !! k = Some t.
Proof.
  intros Hw Hseq Hk. pose proof (inv_seq w Hw). pose proof (zlength_nonneg ts).
  destruct (append_tasks_ok (sched w) time ts) as (s' & Hr & _ & _ & _ & _ & Hv); [lia..|].
  unfold step, handle. rewrite Hr. cbn. rewrite Hv.
  destruct (inv_pend w Hw k t Hk) as (Hlt & _). unfold zlookup. case_bools; [done|lia].
Qed.

Lemma run_transition w time k t :
  pend w !! k = Some t -> transition k (EvRun time) t (pend (step w (EvRun time)) !! k).
Proof.
  intros Hk. unfold step, handle.
  destruct (Scheduler.run (sched w) time) as [[[n keys] s']|] eqn:Hr; cbn; [|by left].
  apply run_weak in Hr as (Hkeys & _ & late & Hlate & Hv & _). rewrite Hv.
  case_decide as Hl.
  { destruct (Hlate k Hl) as (t' & Hk' & Hla). rewrite Hk in Hk'. injection Hk' as <-.
    do 4 right. split; [done|by left]. }
  case_decide as Hd; [|by left]. rewrite Hk. cbn. unfold mark_scheduled, transition, is_waiting.
  destruct (status t) eqn:Hst; try by left. right. right. left. by exists time.
Qed.

Lemma start_transition w k' time k t :
  inv w -> pend w !! k = Some t ->
  transition k (EvStart k' time) t (pend (step w (EvStart k' time)) !! k).
Proof.
  intros Hw Hk. unfold step, handle.
  destruct (take_spawned k' (spawned_futures w)) as [[cb rest]|] eqn:Htake; [|by left].
  unfold Scheduler.start. cbn. destruct (pend w !! k') as [t'|] eqn:Hk'; [|by left].
  destruct (status t') eqn:Hst; try by left. cbn.
  destruct (decide (k' = k)) as [->|]; [|left; by rewrite lookup_insert_ne].
  rewrite Hk in Hk'. injection Hk' as <-. rewrite lookup_insert_eq.
  do 3 right. left. exists time. unfold is_launched. by rewrite Hst.
Qed.

Lemma finish_transition w k' res time k t :
  inv w -> pend w !! k = Some t ->
  transition k (EvFinish k' res time) t (pend (step w (EvFinish k' res time)) !! k).
Proof.
  intros Hw Hk. unfold step, handle.
  destruct (take_execution k' (executing w)) as [[e rest]|] eqn:Htake; [|by left].
  apply take_execution_perm in Htake as [Hek Htake].
  destruct (Scheduler.finish (sched w) e res time) as [s'|] eqn:Hf; cbn; [|by left].
  pose proof (inv_executing w Hw) as Hex. rewrite Htake in Hex.
  inversion_clear Hex as [|?? [Hid Hrun] _].
  apply finish_cases in Hf as [_ Hcases]; [|done]. rewrite Hek in Hcases, Hrun.
  destruct (decide (k' = k)) as [->|].
  - rewrite Hk in Hrun. unfold gone_or, is_running in Hrun.
    do 4 right. split; [unfold is_launched; by destruct (status t)|].
    destruct Hcases as [(? & ? & _ & -> & _)|(t' & -> & _ & Hst & _)].
    + left. by rewrite lookup_delete_eq.
    + right. exists t'. rewrite lookup_insert_eq. unfold is_waiting. by rewrite Hst.
  - left. destruct Hcases as [(? & ? & _ & -> & _)|(t' & -> & _)];
      by rewrite ?lookup_delete_ne, ?lookup_insert_ne.
Qed.

Lemma step_transition w ev k t :
  inv w -> seq_of w + appended ev < 2 ^ 64 -> pend w !! k = Some t ->
  transition k ev t (pend (step w ev) !! k).
Proof.
  intros Hw Hseq Hk. destruct ev as [time ts|k' o|secs| |time|k' time|k' res time|k'|]; cbn in Hseq.
  - left. by apply append_transition.
  - unfold step, handle, Scheduler.reschedule. cbn.
    destruct (pend w !! k') as [t'|] eqn:Hk'; [|by left]. cbn.
    destruct (decide (k' = k)) as [->|]; [|left; by rewrite lookup_insert_ne].
    rewrite Hk in Hk'. injection Hk' as <-. right. left. exists o. by rewrite lookup_insert_eq.
  - by left.
  - by left.
  - by apply run_transition.
  - by apply start_transition.
  - by apply finish_transition.
  - by left.
  - by left.
Qed.

(** A property that a step keeps until a goal is reached: it holds after all of the
    steps, or the goal was reached on the way. *)
Lemma steps_until (P Q : option (InnerScheduledTask T) -> Prop) w pre k :
  inv w -> seq_of w + total_appended pre < 2 ^ 64 ->
  (forall w' ev t, ev ∈ pre -> inv w' -> P (Some t) -> transition k ev t (pend (step w' ev) !! k) ->
     P (pend (step w' ev) !! k) /\ is_Some (pend (step w' ev) !! k) \/ Q (pend (step w' ev) !! k)) ->
  P (pend w !! k) -> is_Some (pend w !! k) ->
  (P (pend (steps w pre) !! k) /\ is_Some (pend (steps w pre) !! k)) \/
  exists p, p `prefix_of` pre /\ Q (pend (steps w p) !! k).
Proof.
  intros Hw Hseq Hstep. revert w Hw Hseq. induction pre as [|ev pre IH]; intros w Hw Hseq Hp Hk.
  { by left. }
  cbn in Hseq. pose proof (total_appended_nonneg pre). destruct Hk as [t Hk].
  assert (transition k ev t (pend (step w ev) !! k)) as Ht by (apply step_transition; [done|lia|done]).
  destruct (step_effect w ev Hw) as (Hs & _); [lia|].
  assert (inv (step w ev)) as Hw1 by (apply inv_step; [done|lia]).
  rewrite Hk in Hp.
  destruct (Hstep w ev t ltac:(left) Hw Hp Ht) as [[Hp1 Hk1]|Hq].
  - destruct (IH ltac:(intros; eapply Hstep; [by right|done..]) (step w ev) Hw1 ltac:(lia) Hp1 Hk1)
      as [?|(p & [q ->] & Hq)]; [by left|].
    right. exists (ev :: p). split; [by exists q|done].
  - right. exists [ev]. split; [by exists pre|done].
Qed.

(** The state of a run in which no deadline overflows. *)
Definition runnable w : Prop :=
  forall k t, pend w !! k = Some t -> no_overflow (Scheduler.running_task_timeout_secs (sched w)) t.

Lemma runnable_step w time k :
  runnable w -> pend (step w (EvRun time)) !! k =
    pend w !! k ≫= run_effect (Scheduler.running_task_timeout_secs (sched w)) (time_secs time).
Proof.
  intros Hr. destruct (run_ok (sched w) time Hr) as (s' & Hrun & _ & Hv & _).
  unfold step, handle. by rewrite Hrun.
Qed.

(** The task is gone, or waits (again). *)
Definition resolved (o : option (InnerScheduledTask T)) : Prop :=
  match o with None => True | Some t => is_waiting t = true end.

Definition scheduled (o : option (InnerScheduledTask T)) : Prop :=
  exists t now, o = Some t /\ status t = Scheduled now.

Lemma waiting_launched w pre time k t ts :
  inv w -> seq_of w + total_appended pre < 2 ^ 64 ->
  pend w !! k = Some t -> status t = Waiting ts ->
  (forall o, EvReschedule k o ∉ pre) ->
  execute_after_timestamp_in_secs (options t) <= time_secs time ->
  runnable (steps w pre) ->
  exists p, p `prefix_of` pre ++ [EvRun time] /\ scheduled (pend (steps w p) !! k).
Proof.
  intros Hw Hseq Hk Hst Hre Hdue Hrun.
  assert (is_waiting t = true) as Hwait by (unfold is_waiting; by rewrite Hst).
  destruct (steps_until (fun o => o = Some t) scheduled w pre k Hw Hseq) as [[Hp _]|(p & Hpre & Hq)].
  - intros w' ev t' Hin _ [= ->].
    intros [Ho|[(o & -> & _)|[(tm & _ & _ & Ho)|[(tm & _ & Hl & _)|[Hl _]]]]].
    + left. split; [done|]. rewrite Ho. by eexists.
    + by destruct (Hre o).
    + right. rewrite Ho. by eexists _, _.
    + by rewrite (waiting_not_launched _ Hl) in Hwait.
    + by rewrite (waiting_not_launched _ Hl) in Hwait.
  - done.
  - by eexists.
  - exists (pre ++ [EvRun time]). split; [done|]. unfold steps. rewrite foldl_app. cbn [foldl].
    fold (steps w pre). rewrite runnable_step, Hp by done. cbn. unfold run_effect. rewrite Hst.
    rewrite (proj2 (Z.leb_le _ _) Hdue). by eexists _, _.
  - exists p. split; [|done]. by apply prefix_app_r.
Qed.

Lemma launched_resolved w pre time k t :
  let timeout := Scheduler.running_task_timeout_secs (sched (steps w pre)) in
  inv w -> seq_of w + total_appended pre < 2 ^ 64 ->
  pend w !! k = Some t -> is_launched t = true ->
  status_timestamp_secs (status t) + timeout < time_secs time ->
  (forall s, EvStart k s ∈ pre -> time_secs s + timeout < time_secs time) ->
  runnable (steps w pre) ->
  exists p, p `prefix_of` pre ++ [EvRun time] /\ resolved (pend (steps w p) !! k).
Proof.
  intros timeout Hw Hseq Hk Hl Hts Hstarts Hrun.
  set (stuck o := exists t', o = Some t' /\ is_launched t' = true /\
         status_timestamp_secs (status t') + timeout < time_secs time).
  destruct (steps_until stuck resolved w pre k Hw Hseq) as [[(t' & Hp & Hl' & Hts') _]|(p & Hpre & Hq)].
  - intros w' ev t' Hin _ (? & [= <-] & Hl' & Hts').
    intros [Ho|[(o & -> & Ho)|[(tm & _ & Hw' & Ho)|[(tm & -> & _ & Ho)|[_ [Ho|(t2 & Ho & Hw2)]]]]]].
    + left. rewrite Ho. split; [by exists t'|by eexists].
    + left. rewrite Ho. split; [by eexists|by eexists].
    + by rewrite (waiting_not_launched _ Hl') in Hw'.
    + left. rewrite Ho. split; [|by eexists]. eexists. split; [done|]. split; [done|]. cbn. auto.
    + right. by rewrite Ho.
    + right. by rewrite Ho.
  - by exists t.
  - by eexists.
  - exists (pre ++ [EvRun time]). split; [done|]. unfold steps. rewrite foldl_app. cbn [foldl].
    fold (steps w pre). rewrite runnable_step, Hp by done. cbn. unfold run_effect, is_launched in *.
    fold timeout. destruct (status t'); try done; cbn in Hts';
      by rewrite (proj2 (Z.ltb_lt _ _) Hts').
  - exists p. split; [|done]. by apply prefix_app_r.
Qed.
End progress.

Section props.
Context `{Target} {T P S : Type}.
Context `{!BTreeMapStructure P Z (InnerScheduledTask T),
          !IterableSortedMapStructure P Z (InnerScheduledTask T),
          !BTreeMapStructureLaws P Z (InnerScheduledTask T),
          !IterableSortedMapStructureLaws P Z (InnerScheduledTask T),
          CellStructureLaws S Z}.
Implicit Types (w : world T P S).

(** C19: The scheduler makes progress.  Whatever other events come first, in whatever
    order (appends, runs, futures of any task that start, end, trap or are lost in an
    upgrade), a waiting task is launched by the time of a run at or after its time,
    unless it is rescheduled; and a launched task is gone, and so reported, or waits
    for its next attempt, by the time of a run after the deadlines of its launch and
    of its start, even if its future never ends. *)
Theorem scheduler_progress w pre (time k : Z) (t : InnerScheduledTask T) :
  let timeout := Scheduler.running_task_timeout_secs (sched (steps w pre)) in
  ok (sched w) -> inv (abs_world w) ->
  cell_get (Scheduler.task_id_sequence (sched w)) + total_appended pre < 2 ^ 64 ->
  runnable (abs_world (steps w pre)) ->
  stored (sched w) !! k = Some t ->
  ((is_waiting t = true -> (forall o, EvReschedule k o ∉ pre) ->
    execute_after_timestamp_in_secs (options t) <= time_secs time ->
    exists p, p `prefix_of` pre ++ [EvRun time] /\ scheduled (stored (sched (steps w p)) !! k)) /\
   (is_launched t = true -> status_timestamp_secs (status t) + timeout < time_secs time ->
    (forall s, EvStart k s ∈ pre -> time_secs s + timeout < time_secs time) ->
    exists p, p `prefix_of` pre ++ [EvRun time] /\ resolved (stored (sched (steps w p)) !! k))).
Proof.
  intros timeout Hs Hw Hseq Hrun Hk. destruct (abs_steps w pre Hs) as [Ha _].
  rewrite Ha in Hrun. assert (timeout = Scheduler.running_task_timeout_secs
    (sched (steps (abs_world w) pre))) as Ht by (by rewrite <- Ha).
  split; [intros Hwait Hre Hdue|intros Hl Hts Hst].
  - unfold is_waiting in Hwait. destruct (status t) as [ts| | | | |] eqn:Hst; try done.
    destruct (waiting_launched (abs_world w) pre time k t ts) as (p & Hp & Hq); [done..|].
    exists p. split; [done|]. destruct (abs_steps w p Hs) as [Hap _]. by rewrite <- Hap in Hq.
  - rewrite Ht in Hts, Hst.
    destruct (launched_resolved (abs_world w) pre time k t) as (p & Hp & Hq); [done..|].
    exists p. split; [done|]. destruct (abs_steps w p Hs) as [Hap _]. by rewrite <- Hap in Hq.
Qed.
End props.

(** ** A task whose future traps *)

Definition trapping_events : list (event string) :=
  [EvRun (10 * 10 ^ 9); EvStart 0 (11 * 10 ^ 9); EvTrap 0].

Lemma scheduler_progress_witness :
  exists p, p `prefix_of` trapping_events ++ [EvRun (500 * 10 ^ 9)] /\
    scheduled (stored (sched (steps (H := wasm_release) (demo_world waiting_map 1) p)) !! 0).
Proof.
  apply (scheduler_progress (H := wasm_release) (demo_world waiting_map 1) trapping_events
    (500 * 10 ^ 9) 0 (demo_task 0 retry_twice (Waiting 5))).
  - apply demo_ok.
  - apply demo_inv.
  - by_compute.
  - intros k t Hk _.
    destruct (abs_steps (H := wasm_release) (demo_world waiting_map 1) trapping_events (demo_ok _ _)) as [Ha _].
    destruct (steps_inv (H := wasm_release) (abs_world (demo_world waiting_map 1)) trapping_events
      demo_inv ltac:(by_compute)) as [Hi Hq].
    rewrite <- Ha in Hi, Hq. destruct (inv_pend _ Hi k t Hk) as (Hlt & _).
    rewrite Hq in Hlt. cbn in Hlt. assert (k = 0) as -> by lia.
    assert (Some t = Some (demo_task 0 retry_twice (Running 11))) as [= ->]
      by (rewrite <- Hk; by vm_compute).
    by_compute.
  - reflexivity.
  - reflexivity.
  - intros o. unfold trapping_events. rewrite !not_elem_of_cons. split_and!; try done. apply not_elem_of_nil.
  - by_compute.
Defined.
