(* ===== verification/CanisterMacros.v ===== *)
(** * The macros of the canister crate

    [ic-canister-macros/src/{derive,api,export_candid,lib}.rs] and
    [ic-canister/src/idl.rs].  The macros are functions from the syntax they are
    given to a description of the code they emit: a macro that panics is [Panic], a
    compile error it emits an [Err].  What the emitted code does when it runs
    outside of wasm is in [Canister].

    The syntax comes from the [syn] crate: a type is opaque but for the shape the
    macros match on.  The macros share registries, the [lazy_static] tables. *)

From S2P Require Import Prelude.
Local Open Scope Z_scope.
Local Open Scope sdk_scope.

(** ** Syntax *)

Inductive GenericArgument (T : Type) :=
  | GType (t : T)
  | GOther.
Arguments GType {T} t.
Arguments GOther {T}.

Inductive PathArguments (T : Type) :=
  | NoArguments
  | AngleBracketed (args : list (GenericArgument T))
  | Parenthesized.
Arguments NoArguments {T}.
Arguments AngleBracketed {T} args.
Arguments Parenthesized {T}.

Record PathSegment (T : Type) := mk_segment {
  seg_ident : string;
  seg_arguments : PathArguments T;
}.
Arguments mk_segment {T} _ _.
Arguments seg_ident {T} _.
Arguments seg_arguments {T} _.

(** The variants of [syn::Type] that are matched. *)
Inductive TypeView (T : Type) :=
  | TyPath (segments : list (PathSegment T))
  | TyTuple (elems : list T)
  | TyReference (elem : T)
  | TyOther.
Arguments TyPath {T} segments.
Arguments TyTuple {T} elems.
Arguments TyReference {T} elem.
Arguments TyOther {T}.

(** Types, their tokens as text and the parser of types. *)
Class Syn := {
  SynType : Type;
  SynType_eq_dec :: EqDecision SynType;
  type_view : SynType -> TypeView SynType;
  type_text : SynType -> string;
  parse_type : string -> option SynType;
}.

(** Parsing the text of a type gives the type back. *)
Class SynLaws `{Syn} := {
  parse_type_text : forall t, parse_type (type_text t) = Some t;
}.

(** ** derive.rs *)

Module Derive.
Section derive.
Context `{Syn}.

(** A path without types in it: the paths of attributes. *)
Record Path := mk_path { leading_colon : bool; segments : list (PathSegment SynType) }.

(** [Path::is_ident] *)
Definition is_ident (name : string) (p : Path) : bool :=
  match leading_colon p, segments p with
  | false, [mk_segment i NoArguments] => bool_decide (i = name)
  | _, _ => false
  end.

Inductive Lit :=
  | LitBool (value : bool)
  | LitOther.

(** What follows the path of a nested item. *)
Inductive NestedValue :=
  | NoValue
  | ValueLit (l : Lit)
  | ValueOther.

(** [#[name]], [#[name(..)]] and [#[name = ..]]. *)
Inductive Meta :=
  | MetaPath
  | MetaList (nested : list (Path * NestedValue))
  | MetaNameValue.

Record Attribute := mk_attr { attr_path : Path; attr_meta : Meta }.

Record Field := mk_field { ident : string; attrs : list Attribute; ty : SynType }.

Inductive Data :=
  | NamedStruct (fields : list Field)
  | TupleLikeStruct
  | EnumOrUnion.

Record DeriveInput := mk_input { name : string; input_attrs : list Attribute; data : Data }.

Definition is_principal_attr (a : Attribute) : bool := is_ident "id" (attr_path a).
Definition is_state_attr (a : Attribute) : bool := is_ident "state" (attr_path a).

Definition last_segment {T} (segments : list (PathSegment T)) : option (PathSegment T) :=
  last segments.

(** [state_type_error] is the panic. *)
Definition extract_generic (type_name : string) (generic_base : SynType) : outcome SynType :=
  match type_view generic_base with
  | TyPath segments =>
      match last_segment segments with
      | None => Panic
      | Some seg =>
          if decide (seg_ident seg = type_name) then
            match seg_arguments seg with
            | AngleBracketed [GType t] => Ret t
            | _ => Panic
            end
          else Panic
      end
  | _ => Panic
  end.

Definition get_state_type (input_type : SynType) : outcome SynType :=
  ref_cell ← extract_generic "Rc" input_type; extract_generic "RefCell" ref_cell.

(** The type arguments, without the lifetimes. *)
Definition type_arguments (args : list (GenericArgument SynType)) : list SynType :=
  omap (fun a => match a with GType t => Some t | GOther => None end) args.

Definition extract_type_if_matches (type_name : string) (generic_base : SynType) :
    outcome SynType :=
  let unwrap segments :=
    match last_segment segments with
    | None => Panic
    | Some seg =>
        if decide (seg_ident seg = type_name) then
          match seg_arguments seg with
          | AngleBracketed args =>
              match type_arguments args with [t] => Ret t | _ => Panic end
          | _ => Panic
          end
        else Ret generic_base
    end in
  match type_view generic_base with
  | TyPath segments => unwrap segments
  | TyTuple _ => Ret generic_base
  | TyReference elem =>
      match type_view elem with TyPath segments => unwrap segments | _ => Panic end
  | TyOther => Panic
  end.

(** The closure given to [parse_nested_meta], item by item: a value must be parsed,
    and what the closure leaves is an error of the parser. *)
Fixpoint parse_stable_store (nested : list (Path * NestedValue)) (res : bool) : outcome bool :=
  match nested with
  | [] => Ret res
  | (path, value) :: nested =>
      if is_ident "stable_store" path then
        match value with
        | ValueLit l =>
            parse_stable_store nested (match l with LitBool false => false | _ => true end)
        | _ => Panic
        end
      else match value with NoValue => parse_stable_store nested res | _ => Panic end
  end.

(** The first attribute whose path is the identifier [state] decides. *)
Definition is_state_field_stable (f : Field) : outcome bool :=
  match List.find (fun a => is_ident "state" (attr_path a)) (attrs f) with
  | Some a => match attr_meta a with
              | MetaList nested => parse_stable_store nested true
              | _ => Ret true
              end
  | None => Ret true
  end.

Definition derive_upgrade_methods (input : DeriveInput) : bool :=
  negb (existsb (fun a =>
    match last_segment (segments (attr_path a)) with
    | Some l => bool_decide (seg_ident l = "canister_no_upgrade_methods"%string)
    | None => false
    end) (input_attrs input)).

Inductive FieldKind := KPrincipal | KState | KDefault.

#[export] Instance FieldKind_eq_dec : EqDecision FieldKind.
Proof. solve_decision. Defined.

(** The loop over the attributes of a field. *)
Fixpoint field_kind (l : list Attribute) : FieldKind :=
  match l with
  | [] => KDefault
  | a :: l =>
      if is_principal_attr a then KPrincipal
      else if is_state_attr a then KState
      else field_kind l
  end.

Definition fields_of_kind (k : FieldKind) (fields : list Field) : list Field :=
  List.filter (fun f => bool_decide (field_kind (attrs f) = k)) fields.

(** The code that is emitted: the fields the constructors initialise, and the field
    the upgrade methods save, if there are any. *)
Record Derived := mk_derived {
  struct_name : string;
  principal_field : string;
  state_fields : list (string * SynType);
  default_fields : list (string * SynType);
  upgrade_field : option (string * SynType);
}.

(** A state field: its name, the type it shares and whether it is stable; the types
    used before must be others. *)
Definition state_field (used_types : list SynType) (f : Field) :
    outcome (string * SynType * bool) :=
  field_type ← get_state_type (ty f);
  if decide (field_type ∈ used_types) then Panic
  else is_stable ← is_state_field_stable f; Ret (ident f, field_type, is_stable).

(** The field the upgrade methods save: at most one. *)
Definition set_stable_field (f : string * SynType) (stable_field : option (string * SynType)) :
    outcome (option (string * SynType)) :=
  match stable_field with None => Ret (Some f) | Some _ => Panic end.

(** The loop over the state fields. *)
Fixpoint collect_states (fields : list Field) (used_types : list SynType)
    (stable_field : option (string * SynType)) :
    outcome (list (string * SynType) * option (string * SynType)) :=
  match fields with
  | [] => Ret ([], stable_field)
  | f :: fields =>
      '(s, is_stable) ← state_field used_types f;
      stable_field ← (if is_stable : bool then set_stable_field s stable_field else Ret stable_field);
      '(states, stable_field) ← collect_states fields (s.2 :: used_types) stable_field;
      Ret (s :: states, stable_field)
  end.

Definition derive_canister (input : DeriveInput) : outcome Derived :=
  let derive_upgrade := derive_upgrade_methods input in
  match data input with
  | NamedStruct fields =>
      match fields_of_kind KPrincipal fields with
      | [p] =>
          '(states, stable_field) ← collect_states (fields_of_kind KState fields) [] None;
          Ret (mk_derived (name input) (ident p) states
                 (map (fun f => (ident f, ty f)) (fields_of_kind KDefault fields))
                 (if derive_upgrade then stable_field else None))
      | _ => Panic
      end
  | _ => Panic
  end.

(** *** What the macro accepts *)

(** [t] is [Rc<RefCell<s>>]. *)
Definition generic_of (type_name : string) (t arg : SynType) : Prop :=
  exists segments, type_view t =
    TyPath (segments ++ [mk_segment type_name (AngleBracketed [GType arg])]).

Definition rc_refcell (t s : SynType) : Prop :=
  exists ref_cell, generic_of "Rc" t ref_cell /\ generic_of "RefCell" ref_cell s.

Lemma last_Some_iff {A} (l : list A) x : last l = Some x <-> exists l', l = l' ++ [x].
Proof. apply last_Some. Qed.

Lemma extract_generic_Ret type_name t arg :
  extract_generic type_name t = Ret arg <-> generic_of type_name t arg.
Proof.
  unfold extract_generic, generic_of, last_segment. split.
  - destruct (type_view t) as [segs|elems|elem|]; [|done..].
    destruct (last segs) as [[i a]|] eqn:Hl; [|done]. cbn. case_decide as Hi; [|done]. subst i.
    destruct a as [|[|[u|] [|? ?]]|]; try done. intros [= ->].
    apply last_Some in Hl as [l ->]. by exists l.
  - intros [segs ->]. rewrite last_snoc. cbn. by rewrite decide_True by done.
Qed.

Lemma get_state_type_Ret t s : get_state_type t = Ret s <-> rc_refcell t s.
Proof.
  unfold get_state_type, rc_refcell. rewrite outcome_bind_Ret.
  by setoid_rewrite extract_generic_Ret.
Qed.

(** A state field with the type it shares and whether it is stable. *)
Definition state_spec (f : Field) (s : string * SynType * bool) : Prop :=
  s.1.1 = ident f /\ rc_refcell (ty f) s.1.2 /\ is_state_field_stable f = Ret s.2.

Lemma state_field_Ret used f s :
  state_field used f = Ret s <-> state_spec f s /\ s.1.2 ∉ used.
Proof.
  unfold state_field, state_spec. destruct s as [[n t] b]. cbn. split.
  - intros Hs. apply outcome_bind_Ret in Hs as (t' & Ht & Hs). case_decide; [done|].
    apply outcome_bind_Ret in Hs as (b' & Hb & [= <- <- <-]).
    by rewrite <- get_state_type_Ret.
  - intros [(-> & Ht%get_state_type_Ret & Hb) Hu]. rewrite Ht. cbn.
    rewrite decide_False by done. by rewrite Hb.
Qed.

(** The fields that are stable. *)
Definition stable_ones (l : list (string * SynType * bool)) : list (string * SynType) :=
  omap (fun s => if s.2 : bool then Some s.1 else None) l.

Lemma collect_states_Ret fields used stable states stable' :
  collect_states fields used stable = Ret (states, stable') <->
  exists l, Forall2 state_spec fields l /\ states = l.*1 /\
    NoDup l.*1.*2 /\ (forall t, t ∈ l.*1.*2 -> t ∉ used) /\
    option_list stable ++ stable_ones l = option_list stable'.
Proof.
  revert used stable states stable'.
  induction fields as [|f fields IH]; intros used stable states stable'; cbn.
  { split.
    - intros [= <- <-]. exists []. cbn. rewrite app_nil_r. split_and!; try done; [constructor|].
      intros t. by rewrite elem_of_nil.
    - intros (l & Hl & -> & _ & _ & Hst). apply Forall2_nil_inv_l in Hl as ->. cbn in *.
      rewrite app_nil_r in Hst. by destruct stable, stable'; simplify_eq. }
  split.
  - intros Hc. apply outcome_bind_Ret in Hc as ([s b] & Hs & Hc).
    apply state_field_Ret in Hs as [Hspec Hu].
    apply outcome_bind_Ret in Hc as (st1 & Hst1 & Hc).
    apply outcome_bind_Ret in Hc as ([states1 st2] & Hc & [= <- <-]).
    apply IH in Hc as (l & Hl & -> & Hnd & Hused & Hst). exists ((s, b) :: l). cbn in *.
    split_and!; [by constructor|done| | |].
    + constructor; [|done]. intros Hin. apply (Hused _ Hin). constructor.
    + intros t [->|Ht]%elem_of_cons; [done|]. intros Hin. apply (Hused _ Ht). by constructor.
    + rewrite <- Hst. destruct b; [|by injection Hst1 as <-].
      destruct stable; [done|]. by injection Hst1 as <-.
  - intros (l & Hl & -> & Hnd & Hused & Hst).
    apply Forall2_cons_inv_l in Hl as ([s b] & l' & Hspec & Hl & ->). cbn in *.
    apply NoDup_cons in Hnd as [Hs Hnd].
    rewrite (proj2 (state_field_Ret used f (s, b))) by (split; [done|]; apply Hused; constructor).
    cbn. assert (exists st1, (if b then set_stable_field s stable else Ret stable) = Ret st1 /\
      option_list st1 ++ stable_ones l' = option_list stable') as (st1 & -> & Hst1).
    { destruct b; [|by eexists]. destruct stable as [x|]; cbn in *.
      - destruct stable'; cbn in Hst; [|done]. by destruct (stable_ones l').
      - by eexists. }
    cbn. rewrite (proj2 (IH _ _ l'.*1 stable')); [done|]. exists l'. split_and!; try done.
    intros t Ht [->|Hin]%elem_of_cons; [done|]. by apply (Hused t); [constructor|].
Qed.

(** Every field is of one kind, in the order of the fields. *)
Lemma fields_partition (fields : list Field) :
  fields ≡ₚ fields_of_kind KPrincipal fields ++ fields_of_kind KState fields ++
             fields_of_kind KDefault fields.
Proof.
  unfold fields_of_kind. induction fields as [|f fields IH]; [done|]. cbn.
  destruct (field_kind (attrs f)); cbn; rewrite IH at 1.
  - done.
  - by rewrite Permutation_middle.
  - by rewrite app_assoc, Permutation_middle, <- app_assoc.
Qed.

(** The derive macro accepts a struct exactly if it has named fields, one of
    them its id, its state fields are [Rc<RefCell<T>>] with distinct [T]s and at most
    one of them is stable; the constructors then initialise every field once, and
    the upgrade methods, unless the struct opts out, save the stable one. *)
Theorem derive_canister_spec input d :
  derive_canister input = Ret d <->
  exists fields p l stable,
    data input = NamedStruct fields /\ fields_of_kind KPrincipal fields = [p] /\
    Forall2 state_spec (fields_of_kind KState fields) l /\
    NoDup l.*1.*2 /\ stable_ones l = option_list stable /\
    struct_name d = name input /\ principal_field d = ident p /\ state_fields d = l.*1 /\
    upgrade_field d = (if derive_upgrade_methods input then stable else None) /\
    default_fields d = map (fun f => (ident f, ty f)) (fields_of_kind KDefault fields) /\
    map ident fields ≡ₚ
      principal_field d :: (state_fields d).*1 ++ (default_fields d).*1.
Proof.
  unfold derive_canister. split.
  - destruct (data input) as [fields| |] eqn:Hd; [|done..].
    destruct (fields_of_kind KPrincipal fields) as [|p [|? ?]] eqn:Hp; try done.
    intros Hc. apply outcome_bind_Ret in Hc as ([states stable] & Hc & [= <-]).
    apply collect_states_Ret in Hc as (l & Hl & -> & Hnd & _ & Hst). cbn in Hst |- *.
    exists fields, p, l, stable. split_and!; try done.
    rewrite (fields_partition fields) at 1. rewrite Hp, !map_app. cbn.
    assert (map ident (fields_of_kind KState fields) = l.*1.*1) as ->;
      [|by rewrite <- (map_map (fun f => (ident f, ty f)) fst)].
    clear -Hl. induction Hl as [|f s fs l (Hf & _) _ IH]; [done|]. cbn. by rewrite Hf, IH.
  - intros (fields & p & l & stable & -> & -> & Hl & Hnd & Hst & Hn & Hp & Hs & Hu & Hdf & _).
    rewrite (proj2 (collect_states_Ret _ [] None l.*1 stable)).
    + cbn. destruct d. cbn in *. by subst.
    + exists l. split_and!; try done. intros t _. apply not_elem_of_nil.
Qed.
End derive.
End Derive.

(** ** api.rs *)

(** The order of a [BTreeMap] with string keys. *)
#[export] Program Instance string_ord : OrdKey string :=
  {| key_lt a b := (String.le a b /\ a <> b) |}.
Next Obligation. intros a b. apply _. Defined.
Next Obligation.
  split; [intros a [_ Ha]; done|]. intros a b c [Hab Hne] [Hbc _]. split; [by etrans|].
  intros ->. by apply Hne, (anti_symm String.le).
Qed.
Next Obligation.
  intros a b. destruct (decide (a = b)) as [->|Hne]; [by right; left|].
  destruct (total String.le a b); [by left|]. right; right. by split; [|intros ->].
Qed.

Module Api.
Section api.
Context `{Syn}.

(** [self], by reference or not, or a pattern (the name, if it is one) of a type. *)
Inductive FnArg :=
  | Receiver (reference : bool)
  | Typed (pat : option string) (ty : SynType).

Inductive ReturnType :=
  | RDefault
  | RType (t : SynType).

(** [generics]: is the parameter a lifetime? *)
Record Signature := mk_sig {
  ident : string;
  asyncness : bool;
  generics : list bool;
  inputs : list FnArg;
  output : ReturnType;
}.

(** *** The registries *)

Record Method := mk_method { args : list string; rets : list string; modes : string }.

Inductive ReturnVariant := VDefault | VType | VTuple.

Record ExportMethodData := mk_export_data {
  method_name : string;
  data_export_name : string;
  arg_count : nat;
  is_async : bool;
  is_return_type_async : bool;
  return_type : ReturnVariant;
}.

Record StateGetter := mk_getter { getter_method : string; state_type : string }.

Record Registry := mk_registry {
  METHODS : gmap string Method;
  INIT : option (list string);
  STATE_GETTER : option StateGetter;
  METHODS_EXPORTS : list ExportMethodData;
}.

Definition empty_registry : Registry := mk_registry ∅ None None [].

Definition set_methods (m : gmap string Method) (r : Registry) : Registry :=
  mk_registry m (INIT r) (STATE_GETTER r) (METHODS_EXPORTS r).
Definition set_init (i : option (list string)) (r : Registry) : Registry :=
  mk_registry (METHODS r) i (STATE_GETTER r) (METHODS_EXPORTS r).
Definition set_getter (g : option StateGetter) (r : Registry) : Registry :=
  mk_registry (METHODS r) (INIT r) g (METHODS_EXPORTS r).
Definition push_export (d : ExportMethodData) (r : Registry) : Registry :=
  mk_registry (METHODS r) (INIT r) (STATE_GETTER r) (METHODS_EXPORTS r ++ [d]).

(** *** Candid definitions *)

(** The loop over the inputs. *)
Fixpoint arg_types (l : list FnArg) : result (list SynType) string :=
  match l with
  | [] => Ok []
  | Receiver false :: _ => Err "cannot take `self` by value, consider borrowing the value: `&self`"%string
  | Receiver true :: l => arg_types l
  | Typed _ t :: l => result_map (cons t) (arg_types l)
  end.

Definition ret_types (o : ReturnType) : outcome (list SynType) :=
  match o with
  | RDefault => Ret []
  | RType t =>
      match type_view t with
      | TyTuple elems => Ret elems
      | _ => u ← Derive.extract_type_if_matches "AsyncReturn" t; Ret [u]
      end
  end.

Definition get_args (sig : Signature) : outcome (result (list SynType * list SynType) string) :=
  match arg_types (inputs sig) with
  | Err e => Ret (Err e)
  | Ok args => rets ← ret_types (output sig); Ret (Ok (args, rets))
  end.

Definition store_candid_definitions (modes : string) (sig : Signature) (r : Registry) :
    outcome (result unit string * Registry) :=
  types ← get_args sig;
  match types with
  | Err e => Ret (Err e, r)
  | Ok (args, rets) =>
      let args := map type_text args in
      let rets := map type_text rets in
      if bool_decide (modes = "oneway"%string) && bool_decide (rets <> []) then
        Ret (Err "oneway function should have no return value"%string, r)
      else if bool_decide (modes = "init"%string) && bool_decide (rets <> []) then
        Ret (Err "init method should have no return value or return Self"%string, r)
      else if bool_decide (modes = "init"%string) then Ret (Ok tt, set_init (Some args) r)
      else if bool_decide (modes = "pre_upgrade"%string) || bool_decide (modes = "post_upgrade"%string)
      then Ret (Ok tt, r)
      else Ret (Ok tt, set_methods (<[ident sig := mk_method args rets modes]> (METHODS r)) r)
  end.

(** *** API methods *)

Inductive Reply :=
  | NoReply
  | ReplyUnit
  | ReplyResult
  | ReplyTuple.

(** What the exported function decodes: the types, or a number of arguments whose
    types are inferred. *)
Inductive ArgData :=
  | ArgTypes (types : list SynType)
  | ArgCount (n : nat)
  | NoArgData.

(** The function exported from the wasm module: it decodes the arguments, runs the
    method on a new instance, awaits once or twice, and replies. *)
Record Export := mk_export {
  export_name : string;
  arg_data : ArgData;
  await_call : bool;
  await_call_if_result_is_async : bool;
  reply_call : Reply;
}.

(** The method, with the call of [pre_update] in front or not, the exported
    function, and the two methods for calls outside of wasm. *)
Record Expansion := mk_expansion {
  pre_update : bool;
  method : Signature;
  export_function : option Export;
  internal_method : string;
  internal_method_notify : string;
}.

Definition is_typed (a : FnArg) : bool := match a with Typed _ _ => true | _ => false end.
Definition is_receiver (a : FnArg) : bool := negb (is_typed a).
Definition named (a : FnArg) : bool := match a with Typed None _ => false | _ => true end.

Definition reply_of (is_management_api : bool) (o : ReturnType) : outcome Reply :=
  match o with
  | RDefault => Ret (if is_management_api then NoReply else ReplyUnit)
  | RType t =>
      if is_management_api then Panic
      else Ret (match type_view t with TyTuple _ => ReplyResult | _ => ReplyTuple end)
  end.

Definition variant_of (o : ReturnType) : ReturnVariant :=
  match o with
  | RDefault => VDefault
  | RType t => match type_view t with TyTuple _ => VTuple | _ => VType end
  end.

Definition is_async_return_type (o : ReturnType) : outcome bool :=
  match o with
  | RDefault => Ret false
  | RType t => u ← Derive.extract_type_if_matches "AsyncReturn" t; Ret (bool_decide (t <> u))
  end.

(** The types of the arguments but [self]. *)
Definition typed_args (l : list FnArg) : list SynType :=
  omap (fun a => match a with Typed _ t => Some t | Receiver _ => None end) l.

(** The end of [api_method], after the registration: [is_trait] is the parameter of
    the attribute. *)
Definition expand_method (method_type : string) (is_trait : bool) (sig : Signature)
    (is_management_api with_args : bool) (r : Registry) :
    outcome (result Expansion string * Registry) :=
  let name := ident sig in
  let export_name :=
    (if is_management_api then "canister_" ++ method_type
     else "canister_" ++ method_type ++ " " ++ name)%string in
  reply ← reply_of is_management_api (output sig);
  assert (forallb named (inputs sig));
  if negb with_args && existsb is_typed (inputs sig) then
    Ret (Err (method_type ++ " method cannot have arguments")%string, r)
  else if negb (existsb is_receiver (inputs sig)) then
    Ret (Err "API method must have a `&self` argument"%string, r)
  else
    is_async_return ← is_async_return_type (output sig);
    let e := mk_export export_name
      (if with_args then ArgTypes (typed_args (inputs sig)) else NoArgData)
      (asyncness sig) is_async_return reply in
    Ret (Ok (mk_expansion
               (bool_decide (method_type = "update"%string) && bool_decide (name <> "pre_update"%string))
               sig (if is_trait : bool then None else Some e)
               ("__" ++ name)%string ("___" ++ name)%string),
         if is_trait : bool then
           push_export (mk_export_data name export_name (length (inputs sig)) (asyncness sig)
                          is_async_return (variant_of (output sig))) r
         else r).

Definition api_method (method_type : string) (parameters : option bool) (sig : Signature)
    (is_management_api with_args : bool) (r : Registry) :
    outcome (result Expansion string * Registry) :=
  is_trait ← expect parameters;
  assert (forallb id (generics sig));
  if bool_decide (method_type = "init"%string) && is_trait then Panic
  else
    '(stored, r) ← store_candid_definitions method_type sig r;
    match stored with
    | Err e => Ret (Err e, r)
    | Ok _ => expand_method method_type is_trait sig is_management_api with_args r
    end.

(** The attributes of [lib.rs]. *)
Definition init p sig := api_method "init" p sig true true.
Definition query p sig := api_method "query" p sig false true.
Definition update p sig := api_method "update" p sig false true.
Definition pre_upgrade p sig := api_method "pre_upgrade" p sig true false.
Definition post_upgrade p sig := api_method "post_upgrade" p sig true false.

(** *** Traits as canisters *)

(** [has_default]: the getter has a body. *)
Definition state_getter (sig : Signature) (has_default : bool) (r : Registry) :
    outcome (result unit string * Registry) :=
  match last (inputs sig) with
  | Some (Receiver _) =>
      match output sig with
      | RDefault => Panic
      | RType t =>
          return_type ← Derive.get_state_type t;
          match type_view return_type with
          | TyPath segments =>
              match Derive.last_segment segments with
              | None => Ret (Err "unexpected return type for state getter"%string, r)
              | Some segment =>
                  if has_default then
                    Ret (Err "State getter must only be defined inside struct implementation and not in trait definition"%string, r)
                  else
                    let r' := set_getter (Some (mk_getter (ident sig) (seg_ident segment))) r in
                    match STATE_GETTER r with
                    | Some old => Ret (Err ("multiple state getters defined. Previous: " ++
                                            getter_method old)%string, r')
                    | None => Ret (Ok tt, r')
                    end
              end
          | _ => Ret (Err "invalid return type for state getter"%string, r)
          end
      end
  | _ => Ret (Err "State getter must only have `self` as argument"%string, r)
  end.

(** The exported function of a method of the trait. *)
Definition generated_export (d : ExportMethodData) : string * Export :=
  (method_name d,
   mk_export (data_export_name d)
     (if (1 <? arg_count d)%nat then ArgCount (arg_count d - 1) else NoArgData)
     (is_async d) (is_return_type_async d)
     (match return_type d with VDefault => ReplyUnit | VType => ReplyTuple | VTuple => ReplyResult end)).

(** The struct with its visibility, the getter it implements, and the exports. *)
Record Exports := mk_exports {
  exports_struct : string;
  is_public : bool;
  exports_getter : option StateGetter;
  exported : list (string * Export);
}.

Definition generate_exports (trait_name : string) (struct_name : option string) (r : Registry) :
    Exports * Registry :=
  (mk_exports (default ("__" ++ trait_name ++ "_Ident")%string struct_name)
     (bool_decide (is_Some struct_name)) (STATE_GETTER r)
     (map generated_export (METHODS_EXPORTS r)),
   set_getter None r).

(** *** Generating the IDL *)

Inductive FuncMode := Query | Oneway.

#[export] Instance FuncMode_eq_dec : EqDecision FuncMode.
Proof. solve_decision. Defined.

(** The code that [generate_idl] emits: a function per method, and the init
    arguments. *)
Record FuncExpr := mk_func { func_args : list SynType; func_rets : list SynType; func_modes : list FuncMode }.
Record IdlExpr := mk_idl_expr { gen_tys : list (string * FuncExpr); init_args : option (list SynType) }.

Definition generate_arg (ty : string) : outcome SynType := expect (parse_type ty).

Fixpoint generate_args (l : list string) : outcome (list SynType) :=
  match l with
  | [] => Ret []
  | t :: l => x ← generate_arg t; l ← generate_args l; Ret (x :: l)
  end.

(** Other modes are [unreachable!]. *)
Definition modes_of (modes : string) : outcome (list FuncMode) :=
  if decide (modes = "query"%string) then Ret [Query]
  else if decide (modes = "oneway"%string) then Ret [Oneway]
  else if decide (modes = "update"%string) then Ret []
  else Panic.

Definition generate_func (m : Method) : outcome FuncExpr :=
  args ← generate_args (args m); rets ← generate_args (rets m);
  modes ← modes_of (modes m); Ret (mk_func args rets modes).

Fixpoint generate_funcs (l : list (string * Method)) : outcome (list (string * FuncExpr)) :=
  match l with
  | [] => Ret []
  | (n, m) :: l => f ← generate_func m; l ← generate_funcs l; Ret ((n, f) :: l)
  end.

(** The init arguments are drained, the methods cleared. *)
Definition generate_idl (r : Registry) : outcome (IdlExpr * Registry) :=
  init ← (match INIT r with
          | Some args => args ← generate_args args; Ret (Some args)
          | None => Ret None
          end : outcome (option (list SynType)));
  tys ← generate_funcs (sorted_entries (METHODS r));
  Ret (mk_idl_expr tys init,
       set_methods ∅ (set_init ((fun _ => []) <$> INIT r) r)).

(** *** The macros of a crate *)

Inductive Attr := AInit | AQuery | AUpdate | APreUpgrade | APostUpgrade.

(** An attribute with its parameters and the method it is on. *)
Definition Item : Type := Attr * option bool * Signature.

Definition expand_item (i : Item) : Registry -> outcome (result Expansion string * Registry) :=
  let '(a, p, sig) := i in
  match a with
  | AInit => init p sig
  | AQuery => query p sig
  | AUpdate => update p sig
  | APreUpgrade => pre_upgrade p sig
  | APostUpgrade => post_upgrade p sig
  end.

(** A crate compiles if every macro expands. *)
Fixpoint expand_all (items : list Item) (r : Registry) : outcome (list Expansion * Registry) :=
  match items with
  | [] => Ret ([], r)
  | i :: items =>
      '(e, r) ← expand_item i r;
      e ← expect_ok e; '(es, r) ← expand_all items r; Ret (e :: es, r)
  end.

Definition rets_of (sig : Signature) : list SynType :=
  match ret_types (output sig) with Ret l => l | Panic => [] end.

(** What a signature means to candid. *)
Definition signature_func (sig : Signature) (modes : list FuncMode) : string * FuncExpr :=
  (ident sig, mk_func (typed_args (inputs sig)) (rets_of sig) modes).

Definition item_func (i : Item) : option (string * FuncExpr) :=
  let '(a, _, sig) := i in
  match a with
  | AQuery => Some (signature_func sig [Query])
  | AUpdate => Some (signature_func sig [])
  | _ => None
  end.

Definition item_init (i : Item) : option (list SynType) :=
  let '(a, _, sig) := i in
  match a with AInit => Some (typed_args (inputs sig)) | _ => None end.

(** The last definition of a name. *)
Definition last_defined (n : string) (l : list (string * FuncExpr)) : option FuncExpr :=
  snd <$> last (filter (fun p => p.1 = n) l).

(** The registered form of a function. *)
Definition method_of (f : FuncExpr) : Method :=
  mk_method (map type_text (func_args f)) (map type_text (func_rets f))
    (match func_modes f with [] => "update"%string | _ => "query"%string end).

Definition api_func (f : FuncExpr) : Prop := func_modes f = [] \/ func_modes f = [Query].

(** The registry after the macros of some items. *)
Definition describes (items : list Item) (r : Registry) : Prop :=
  (forall n, METHODS r !! n = method_of <$> last_defined n (omap item_func items)) /\
  INIT r = map type_text <$> last (omap item_init items).

Lemma arg_types_Ok l args : arg_types l = Ok args -> args = typed_args l.
Proof.
  revert args. induction l as [|[[]|p t] l IH]; cbn; intros args Ha; simplify_eq; [done|by apply IH|].
  destruct (arg_types l) as [args'|]; [|done]. cbn in Ha. injection Ha as <-.
  by rewrite (IH args').
Qed.

(** The registration of a method. *)
Lemma store_candid_definitions_Ok modes sig r r' :
  store_candid_definitions modes sig r = Ret (Ok tt, r') ->
  ret_types (output sig) = Ret (rets_of sig) /\
  arg_types (inputs sig) = Ok (typed_args (inputs sig)) /\
  r' = if bool_decide (modes = "init"%string)
       then set_init (Some (map type_text (typed_args (inputs sig)))) r
       else if bool_decide (modes = "pre_upgrade"%string) || bool_decide (modes = "post_upgrade"%string)
       then r
       else set_methods (<[ident sig := mk_method (map type_text (typed_args (inputs sig)))
                                          (map type_text (rets_of sig)) modes]> (METHODS r)) r.
Proof.
  unfold store_candid_definitions, get_args, rets_of. intros Hs.
  apply outcome_bind_Ret in Hs as (types & Ht & Hs).
  destruct (arg_types (inputs sig)) as [args|] eqn:Ha; [|by injection Ht as <-].
  rewrite <- (arg_types_Ok _ _ Ha). apply outcome_bind_Ret in Ht as (rets & -> & [= <-]).
  destruct (_ && _); [done|]. destruct (_ && _); [done|].
  split_and!; [done..|]. repeat case_match; congruence.
Qed.

Lemma api_method_Ok method_type p sig is_management with_args r e r' :
  api_method method_type p sig is_management with_args r = Ret (Ok e, r') ->
  exists is_trait r1, p = Some is_trait /\
    store_candid_definitions method_type sig r = Ret (Ok tt, r1) /\
    expand_method method_type is_trait sig is_management with_args r1 = Ret (Ok e, r').
Proof.
  unfold api_method. intros Ha. apply outcome_bind_Ret in Ha as (is_trait & Hp & Ha).
  apply expect_Ret in Hp. destruct (forallb _ _); [|done]. destruct (_ && _); [done|].
  apply outcome_bind_Ret in Ha as ([stored r1] & Hs & Ha). destruct stored as [[]|]; [|done].
  by exists is_trait, r1.
Qed.

(** The end of [api_method] does not touch the candid definitions. *)
Lemma expand_method_registry method_type is_trait sig is_management with_args r e r' :
  expand_method method_type is_trait sig is_management with_args r = Ret (Ok e, r') ->
  METHODS r' = METHODS r /\ INIT r' = INIT r.
Proof.
  unfold expand_method. intros He. apply outcome_bind_Ret in He as (reply & _ & He).
  destruct (forallb _ _); [|done]. destruct (_ && _); [done|]. destruct (negb _); [done|].
  apply outcome_bind_Ret in He as (b & _ & [= _ <-]). by destruct is_trait.
Qed.

Lemma last_defined_snoc n l p :
  last_defined n (l ++ [p]) = if decide (p.1 = n) then Some p.2 else last_defined n l.
Proof.
  unfold last_defined. rewrite filter_app. case_decide as Hp.
  - by rewrite filter_cons_True, filter_nil, last_snoc by done.
  - by rewrite filter_cons_False, filter_nil, app_nil_r by done.
Qed.

(** One more macro: what it registers. *)
Lemma expand_item_describes items i r e r' :
  describes items r -> expand_item i r = Ret (Ok e, r') -> describes (items ++ [i]) r'.
Proof.
  intros [Hm Hi] He. destruct i as [[a p] sig].
  assert (exists mode mgmt wa r1 tr, store_candid_definitions mode sig r = Ret (Ok tt, r1) /\
    expand_method mode tr sig mgmt wa r1 = Ret (Ok e, r') /\
    mode = match a with AInit => "init" | AQuery => "query" | AUpdate => "update"
           | APreUpgrade => "pre_upgrade" | APostUpgrade => "post_upgrade" end%string)
    as (mode & mgmt & wa & r1 & tr & Hs & Hx & Hmode).
  { destruct a; apply api_method_Ok in He as (tr & r1 & _ & Hs & Hx);
      do 5 eexists; split_and!; try done. }
  apply store_candid_definitions_Ok in Hs as (_ & _ & Hr1).
  apply expand_method_registry in Hx as [HM HI]. unfold describes. rewrite HM, HI, !omap_app.
  destruct a; subst mode;
    rewrite ?bool_decide_eq_false_2 in Hr1 by done; rewrite ?bool_decide_eq_true_2 in Hr1 by done;
    cbn in Hr1 |- *; subst r1; cbn; rewrite ?app_nil_r; split; try done.
  - by rewrite last_snoc.
  - intros n. rewrite last_defined_snoc. cbn. case_decide as Hn.
    + destruct Hn. by rewrite lookup_insert_eq.
    + by rewrite lookup_insert_ne.
  - intros n. rewrite last_defined_snoc. cbn. case_decide as Hn.
    + destruct Hn. by rewrite lookup_insert_eq.
    + by rewrite lookup_insert_ne.
Qed.

Lemma expand_all_describes items done r exps r' :
  describes done r -> expand_all items r = Ret (exps, r') -> describes (done ++ items) r'.
Proof.
  revert done r exps. induction items as [|i items IH]; intros done r exps Hd He; cbn in He.
  { injection He as <- <-. by rewrite app_nil_r. }
  apply outcome_bind_Ret in He as ([e r1] & Hi & He).
  apply outcome_bind_Ret in He as (e1 & He1 & He). apply expect_ok_Ret in He1 as ->.
  apply outcome_bind_Ret in He as ([es r2] & He & [= <- <-]).
  rewrite cons_middle, app_assoc. eapply IH; [|done]. by eapply expand_item_describes.
Qed.

Lemma last_defined_api n items f :
  last_defined n (omap item_func items) = Some f -> api_func f.
Proof.
  unfold last_defined. rewrite fmap_Some. intros ([n' f'] & Hl & ->).
  apply last_Some_elem_of in Hl. apply list_elem_of_filter in Hl as [_ Hl].
  apply list_elem_of_omap in Hl as ([[a p] sig] & _ & Hf).
  unfold api_func. cbn. destruct a; cbn in Hf; try done; injection Hf as _ <-; (by left) || by right.
Qed.

(** *** The IDL describes the methods *)

Section idl.
Context `{!SynLaws}.

Lemma generate_args_text l : generate_args (map type_text l) = Ret l.
Proof.
  induction l as [|t l IH]; [done|]. cbn. unfold generate_arg. rewrite parse_type_text. cbn.
  by rewrite IH.
Qed.

Lemma generate_func_of f : api_func f -> generate_func (method_of f) = Ret f.
Proof.
  intros Hf. unfold generate_func, method_of. cbn. rewrite generate_args_text. cbn.
  rewrite generate_args_text. cbn. destruct f as [a r m].
  unfold api_func in Hf. cbn in *.
  by destruct Hf as [-> | ->].
Qed.

(** Generating the functions of registered methods succeeds. *)
Lemma generate_funcs_of (l : list (string * Method)) (D : string -> option FuncExpr) :
  (forall n m, (n, m) ∈ l -> exists f, D n = Some f /\ m = method_of f) ->
  (forall n f, D n = Some f -> api_func f) ->
  exists l', generate_funcs l = Ret l' /\
    Forall2 (fun p q => p.1 = q.1 /\ D q.1 = Some q.2) l l'.
Proof.
  intros Hl HD. induction l as [|[n m] l IH]; [by exists []|].
  destruct (Hl n m) as (f & Hf & ->); [constructor|].
  destruct IH as (l' & Hg & H2); [intros; apply Hl; by constructor|].
  exists ((n, f) :: l'). cbn [generate_funcs]. rewrite generate_func_of by eauto. cbn [mbind outcome_bind]. rewrite Hg. split; [done|].
  by constructor.
Qed.

Lemma Forall2_keys {A B} (R : string * A -> string * B -> Prop) l l' :
  (forall p q, R p q -> p.1 = q.1) -> Forall2 R l l' -> l.*1 = l'.*1.
Proof.
  intros HR. induction 1 as [|p q l l' Hpq _ IH]; [done|]. cbn. by rewrite (HR _ _ Hpq), IH.
Qed.

Lemma sorted_entries_strings {V} (m : gmap string V) :
  StronglySorted String.le (sorted_entries m).*1.
Proof.
  assert (forall l : list (string * V), StronglySorted entry_le l -> StronglySorted String.le l.*1)
    as Hl.
  { induction 1 as [|p l _ IH Hp]; cbn; constructor; [done|].
    rewrite Forall_fmap. eapply Forall_impl; [exact Hp|]. intros q Hq. cbn.
    by destruct (proj1 (key_le_lt_eq p.1 q.1) Hq) as [[? _]| ->]. }
  apply Hl, sorted_entries_sorted.
Qed.

(** C26: The generated IDL is the API of the crate: when all macros of a crate have
    expanded, [generate_idl] succeeds and lists, sorted by name, for every name of a
    query or an update the argument and return types of its last definition, and
    the arguments of the last [init].  The registry of methods is then empty, so
    that a second use of the macro lists nothing, but it keeps an [init] without
    arguments if there was one. *)
Theorem generate_idl_collects items exps r :
  expand_all items empty_registry = Ret (exps, r) ->
  exists e r', generate_idl r = Ret (e, r') /\
    StronglySorted String.le (gen_tys e).*1 /\ NoDup (gen_tys e).*1 /\
    (forall n f, (n, f) ∈ gen_tys e <-> last_defined n (omap item_func items) = Some f) /\
    init_args e = last (omap item_init items) /\
    generate_idl r' = Ret (mk_idl_expr [] ((fun _ => []) <$> init_args e), r').
Proof.
  intros Hx. apply (expand_all_describes items []) in Hx as [Hm Hi];
    [|by split; [intros n; cbn; by rewrite lookup_empty|]].
  cbn in Hm, Hi. set (D := fun n => last_defined n (omap item_func items)) in *.
  destruct (generate_funcs_of (sorted_entries (METHODS r)) D) as (l' & Hg & Hl').
  { intros n m Hin. apply elem_of_sorted_entries in Hin. rewrite Hm in Hin.
    apply fmap_Some in Hin as (f & Hf & ->). by exists f. }
  { intros n f. apply last_defined_api. }
  pose proof (Forall2_keys _ _ _ (fun p q H => proj1 H) Hl') as Hkeys.
  unfold generate_idl. rewrite Hi.
  assert (match map type_text <$> last (omap item_init items) with
          | Some args => args ← generate_args args; Ret (Some args)
          | None => Ret None end = Ret (last (omap item_init items))) as ->.
  { destruct (last _) as [l|]; [|done]. cbn. by rewrite generate_args_text. }
  cbn [mbind outcome_bind]. rewrite Hg. cbn [mbind outcome_bind].
  do 2 eexists. split; [reflexivity|]. cbn [gen_tys init_args]. rewrite <- Hkeys. split_and!.
  - apply sorted_entries_strings.
  - apply sorted_entries_NoDup_keys.
  - intros n f. fold (D n). split.
    + intros Hin. apply list_elem_of_lookup in Hin as [k Hk].
      destruct (Forall2_lookup_r _ _ _ _ _ Hl' Hk) as (p & _ & _ & Hq). exact Hq.
    + intros Hf. assert ((n, method_of f) ∈ sorted_entries (METHODS r)) as Hin
        by (apply elem_of_sorted_entries; by rewrite Hm, (Hf : last_defined n _ = _)).
      apply list_elem_of_lookup in Hin as [k Hk].
      destruct (Forall2_lookup_l _ _ _ _ _ Hl' Hk) as ([n' f'] & Hk' & Hn & Hf').
      cbn in *. subst n'. rewrite Hf in Hf'. injection Hf' as <-.
      apply list_elem_of_lookup. by exists k.
  - done.
  - cbn. by destruct (last (omap item_init items)).
Qed.
End idl.

(** *** The exported functions *)

Definition awaited (twice : bool) (t : SynType) : SynType :=
  if twice then match Derive.extract_type_if_matches "AsyncReturn" t with Ret u => u | Panic => t end
  else t.

(** The types of the values an exported function replies. *)
Definition replied (sig : Signature) (x : Export) : list SynType :=
  match output sig with
  | RDefault => []
  | RType t =>
      let t := awaited (await_call_if_result_is_async x) t in
      match reply_call x with
      | NoReply | ReplyUnit => []
      | ReplyResult => match type_view t with TyTuple elems => elems | _ => [t] end
      | ReplyTuple => [t]
      end
  end.

(** The number of the values it decodes. *)
Definition decoded (x : Export) : nat :=
  match arg_data x with ArgTypes l => length l | ArgCount n => n | NoArgData => 0 end.

(** Only the first input can be [self]. *)
Definition wf_sig (sig : Signature) : Prop := Forall is_typed (tail (inputs sig)).

Lemma typed_args_length l : Forall is_typed l -> length (typed_args l) = length l.
Proof. induction 1 as [|[|] l Ha _ IH]; [done|done|]. cbn. f_equal. exact IH. Qed.

Lemma receiver_first l :
  Forall is_typed (tail l) -> existsb is_receiver l = true ->
  length l = S (length (typed_args l)).
Proof.
  destruct l as [|[b|p t] l]; cbn; [done| |].
  - intros Hl _. f_equal. symmetry. by apply typed_args_length.
  - intros Hl Hr. exfalso. induction Hl as [|[|] l Ha _ IH]; cbn in *; [done|done|by apply IH].
Qed.

(** The reply agrees with the candid return types. *)
Lemma reply_agrees sig name args r reply b :
  ret_types (output sig) = Ret r -> reply_of false (output sig) = Ret reply ->
  is_async_return_type (output sig) = Ret b ->
  replied sig (mk_export name args (asyncness sig) b reply) = r.
Proof.
  unfold ret_types, reply_of, is_async_return_type, replied. cbn.
  destruct (output sig) as [|t]; [by intros [= <-]|].
  destruct (type_view t) as [segs|elems|elem|] eqn:Hv; intros Hr [= <-] Hb;
    apply outcome_bind_Ret in Hb as (u & Hu & [= <-]).
  2: { assert (Derive.extract_type_if_matches "AsyncReturn" t = Ret t) as Ht
         by (unfold Derive.extract_type_if_matches; by rewrite Hv).
       rewrite Ht in Hu. injection Hu as <-. rewrite bool_decide_eq_false_2 by naive_solver.
       cbn. rewrite Hv. by injection Hr. }
  all: rewrite Hu in Hr; injection Hr as <-; unfold awaited; rewrite Hu;
    case_bool_decide as Htu; [done|]; f_equal; by destruct (decide (t = u)).
Qed.

(** C27: An exported endpoint is what the IDL says.  A query or update method that
    expands is registered with the types of its arguments and of its result; the
    function exported for it, by the attribute itself or for a method of a trait by
    [generate_exports], has the endpoint's name, decodes as many arguments and
    replies the values of these types; and exactly the updates, other than
    [pre_update] itself, call [pre_update] first. *)
Theorem export_agrees_with_idl method_type is_trait sig r e r' :
  method_type = "query"%string \/ method_type = "update"%string -> wf_sig sig ->
  api_method method_type (Some is_trait) sig false true r = Ret (Ok e, r') ->
  let args := typed_args (inputs sig) in
  method e = sig /\
  pre_update e = bool_decide (method_type = "update"%string) && bool_decide (ident sig <> "pre_update"%string) /\
  METHODS r' !! ident sig =
    Some (mk_method (map type_text args) (map type_text (rets_of sig)) method_type) /\
  exists x, export_name x = ("canister_" ++ method_type ++ " " ++ ident sig)%string /\
    await_call x = asyncness sig /\ decoded x = length args /\ replied sig x = rets_of sig /\
    if is_trait then
      export_function e = None /\
      map generated_export (METHODS_EXPORTS r') =
        map generated_export (METHODS_EXPORTS r) ++ [(ident sig, x)]
    else export_function e = Some x /\ arg_data x = ArgTypes args.
Proof.
  intros Hmt Hwf Ha. apply api_method_Ok in Ha as (tr & r1 & [= <-] & Hs & Ha).
  apply store_candid_definitions_Ok in Hs as (Hret & _ & Hr1).
  assert (METHODS_EXPORTS r1 = METHODS_EXPORTS r /\ METHODS r1 !! ident sig =
    Some (mk_method (map type_text (typed_args (inputs sig))) (map type_text (rets_of sig)) method_type))
    as [Hexp Hreg].
  { destruct Hmt as [-> | ->]; rewrite !bool_decide_eq_false_2 in Hr1 by done; cbn in Hr1;
      subst r1; cbn; by rewrite lookup_insert_eq. }
  unfold expand_method in Ha. apply outcome_bind_Ret in Ha as (reply & Hreply & Ha).
  destruct (forallb _ _); [|done]. cbn [negb andb] in Ha.
  destruct (existsb is_receiver (inputs sig)) eqn:Hrec; [|done]. cbn [negb] in Ha.
  apply outcome_bind_Ret in Ha as (b & Hb & Ha). injection Ha as <- <-. cbn.
  pose proof (receiver_first _ Hwf Hrec) as Hlen.
  split_and!; [done|done|by destruct is_trait|]. destruct is_trait; cbn.
  - eexists. split_and!.
    6: { rewrite map_app, Hexp. cbn. reflexivity. }
    5: done.
    + done.
    + done.
    + unfold decoded, generated_export. cbn. rewrite Hlen. cbn.
      by destruct (length (typed_args (inputs sig))).
    + unfold generated_export. cbn. rewrite <- (reply_agrees sig EmptyString NoArgData _ reply b Hret Hreply Hb). unfold replied. cbn.
      destruct (output sig) as [|t]; cbn; [done|]. cbn in Hreply. injection Hreply as <-.
      by destruct (type_view t).
  - eexists. split_and!; [..|reflexivity|]; try done. by apply reply_agrees.
Qed.
End api.
End Api.

(** *** export_candid.rs *)

Module ExportCandid.
Section export_candid.
Context `{Syn}.

(** The function must return [String]; [get_candid_pointer] then returns its text as
    a C string, which panics on an inner zero byte. *)
Definition export_candid (attr_is_empty : bool) (sig : Api.Signature) : result string string :=
  if negb attr_is_empty then Err "unexpected attribute argument"%string
  else match Api.output sig with
       | Api.RDefault => Err "`#[export_candid]` function must return `String`"%string
       | Api.RType t =>
           if decide (type_text t = "String"%string) then Ok (Api.ident sig)
           else Err "`#[export_candid]` function must return `String`"%string
       end.

Definition get_candid_pointer (candid_string : list Z) : outcome (list Z) :=
  if decide (0 ∈ candid_string) then Panic else Ret (candid_string ++ [0]).
End export_candid.
End ExportCandid.

(** ** The IDL at run time *)

Module Idl.
Section idl.
Context `{Syn}.

(** The candid crate: its types, the container that [add] registers a Rust type
    with, and the merge of two environments. *)
Class CandidTypes := {
  CType : Type;
  func_type : list CType -> list CType -> list Api.FuncMode -> CType;
  TypeEnv : Type;
  env_new : TypeEnv;
  env_add : SynType -> TypeEnv -> CType * TypeEnv;
  env_merge : TypeEnv -> TypeEnv -> option TypeEnv;
}.

Context `{CandidTypes}.

(** The variants of [TypeInner] an actor can have. *)
Inductive Actor :=
  | Service (methods : list (string * CType))
  | Class_ (init : list CType) (inner : Actor)
  | OtherType (t : CType).

Record t := new { env : TypeEnv; actor : Actor }.

Fixpoint add_all (l : list SynType) (e : TypeEnv) : list CType * TypeEnv :=
  match l with
  | [] => ([], e)
  | x :: l => let '(c, e) := env_add x e in let '(cs, e) := add_all l e in (c :: cs, e)
  end.

(** The code [generate_idl] emits, run: methods are only listed when the crate is
    built with the feature [export-api]. *)
Fixpoint run_funcs (export_api : bool) (l : list (string * Api.FuncExpr)) (e : TypeEnv) :
    list (string * CType) * TypeEnv :=
  match l with
  | [] => ([], e)
  | (n, f) :: l =>
      let '(args, e) := add_all (Api.func_args f) e in
      let '(rets, e) := add_all (Api.func_rets f) e in
      let func := func_type args rets (Api.func_modes f) in
      let '(service, e) := run_funcs export_api l e in
      (if export_api then (n, func) :: service else service, e)
  end.

Definition run_idl (export_api : bool) (x : Api.IdlExpr) : t :=
  let '(service, e) := run_funcs export_api (Api.gen_tys x) env_new in
  let ty := Service (merge_sort (fun a b => key_le a.1 b.1) service) in
  match Api.init_args x with
  | Some init => let '(args, e) := add_all init e in new e (Class_ args ty)
  | None => new e ty
  end.

Definition merge (self other : t) : outcome t :=
  e ← expect (env_merge (env self) (env other));
  match actor self, actor other with
  | Class_ init (Service methods), Service others => Ret (new e (Class_ init (Service (methods ++ others))))
  | Service methods, Class_ init (Service others) => Ret (new e (Class_ init (Service (methods ++ others))))
  | Service methods, Service others => Ret (new e (Service (methods ++ others)))
  | _, _ => Panic
  end.

(** *** What an actor lists *)

(** The init arguments and the methods of a service or of a class over a service. *)
Definition view (a : Actor) : option (option (list CType) * list (string * CType)) :=
  match a with
  | Service methods => Some (None, methods)
  | Class_ init (Service methods) => Some (Some init, methods)
  | _ => None
  end.

(** Merging lists the methods of both, and panics if an environment conflicts, an
    actor is not a service or both have init arguments. *)
Lemma merge_spec self other x :
  merge self other = Ret x <->
  exists i1 ms1 i2 ms2, view (actor self) = Some (i1, ms1) /\ view (actor other) = Some (i2, ms2) /\
    env_merge (env self) (env other) = Some (env x) /\ (i1 = None \/ i2 = None) /\
    view (actor x) = Some (match i1 with Some i => Some i | None => i2 end, ms1 ++ ms2).
Proof.
  unfold merge. split.
  - intros Hm. apply outcome_bind_Ret in Hm as (e & He & Hm). apply expect_Ret in He.
    destruct (actor self) as [ms1|i1 [ms1| |]|]; destruct (actor other) as [ms2|i2 [ms2| |]|];
      try done; injection Hm as <-; cbn; do 4 eexists; split_and!; try done; auto.
  - intros (i1 & ms1 & i2 & ms2 & H1 & H2 & He & Hi & Hx). rewrite He. cbn. destruct x as [e a].
    destruct (actor self) as [|? [| |]|]; try done; destruct (actor other) as [|? [| |]|]; try done;
      cbn in H1, H2; simplify_eq; destruct Hi as [Hi|Hi]; try done; cbn in *;
      destruct a as [|? [| |]|]; try done; cbn in Hx; by simplify_eq.
Qed.

Lemma run_funcs_names export_api l e :
  (run_funcs export_api l e).1.*1 = if export_api then l.*1 else [].
Proof.
  revert e. induction l as [|[n f] l IH]; intros e; cbn; [by destruct export_api|].
  destruct (add_all _ e) as [args e1]. destruct (add_all _ e1) as [rets e2].
  specialize (IH e2). destruct (run_funcs export_api l e2) as [service e3]. cbn in *.
  by destruct export_api; cbn; rewrite IH.
Qed.

(** The emitted code lists the methods, sorted, in a crate with the feature, and has
    init arguments exactly if the macro found some. *)
Lemma run_idl_lists export_api x :
  exists methods, view (actor (run_idl export_api x)) =
      Some (match Api.init_args x with
            | Some init => Some (add_all init (run_funcs export_api (Api.gen_tys x) env_new).2).1
            | None => None
            end, methods) /\
    methods.*1 ≡ₚ (if export_api then (Api.gen_tys x).*1 else []) /\
    StronglySorted (fun a b => key_le a.1 b.1) methods.
Proof.
  unfold run_idl. pose proof (run_funcs_names export_api (Api.gen_tys x) env_new) as Hn.
  destruct (run_funcs export_api _ _) as [service e]. cbn in Hn |- *.
  exists (merge_sort (fun a b => key_le a.1 b.1) service). split_and!.
  - destruct (Api.init_args x) as [init|]; [|done]. by destruct (add_all init e).
  - rewrite <- Hn. apply fmap_Permutation, merge_sort_Permutation.
  - apply StronglySorted_merge_sort.
    + intros a b c. apply (transitivity (R := key_le)).
    + intros a b. apply (total key_le).
Qed.
End idl.
End Idl.

(** ** Concrete runs *)

(** Types are their text: [Name<Arg>] is a path, [(A)] a tuple. *)
Definition text_view (t : string) : TypeView string :=
  match String.index 0 "<" t with
  | Some n =>
      TyPath [mk_segment (String.substring 0 n t)
        (AngleBracketed [GType (String.substring (S n) (String.length t - n - 2) t)])]
  | None =>
      if String.prefix "(" t then
        TyTuple (match String.length t with
                 | 2%nat => []
                 | n => [String.substring 1 (n - 2) t]
                 end)
      else TyPath [mk_segment t NoArguments]
  end.

Definition text_syn : Syn := {|
  SynType := string;
  SynType_eq_dec := _;
  type_view := text_view;
  type_text t := t;
  parse_type := Some;
|}.

#[local] Existing Instance text_syn.

Lemma text_syn_laws : SynLaws.
Proof. by split. Qed.

Definition attribute (n : string) : Derive.Attribute :=
  Derive.mk_attr (Derive.mk_path false [mk_segment n NoArguments]) Derive.MetaPath.

(** [#[state(stable_store = false)]] *)
Definition volatile_state : Derive.Attribute :=
  Derive.mk_attr (Derive.mk_path false [mk_segment "state" NoArguments])
    (Derive.MetaList [(Derive.mk_path false [mk_segment "stable_store" NoArguments],
                       Derive.ValueLit (Derive.LitBool false))]).

Definition wallet_fields : list Derive.Field :=
  [Derive.mk_field "principal" [attribute "id"] "Principal";
   Derive.mk_field "state" [attribute "state"] "Rc<RefCell<State>>";
   Derive.mk_field "cache" [volatile_state] "Rc<RefCell<Cache>>";
   Derive.mk_field "other" [] "u32"].

Definition wallet_input : Derive.DeriveInput :=
  Derive.mk_input "Wallet" [] (Derive.NamedStruct wallet_fields).

Lemma wallet_derived : exists d, Derive.derive_canister wallet_input = Ret d /\
  Derive.upgrade_field d = Some ("state", "State")%string.
Proof. apply outcome_returns. by vm_compute. Qed.

Lemma derive_canister_spec_witness :
  exists d, Derive.derive_canister wallet_input = Ret d /\
    Derive.upgrade_field d = Some ("state", "State")%string /\
    map Derive.ident wallet_fields ≡ₚ
      Derive.principal_field d :: (Derive.state_fields d).*1 ++ (Derive.default_fields d).*1.
Proof.
  destruct wallet_derived as (d & Hd & Hu). exists d. split; [exact Hd|]. split; [exact Hu|].
  apply Derive.derive_canister_spec in Hd
    as (fields & p & l & stable & Hf & _ & _ & _ & _ & _ & _ & _ & _ & _ & Hperm).
  injection Hf as <-. exact Hperm.
Defined.

Definition self_arg : Api.FnArg := Api.Receiver true.

Definition get_sig : Api.Signature :=
  Api.mk_sig "get" true [] [self_arg; Api.Typed (Some "id"%string) "u64"]
    (Api.RType "AsyncReturn<Balance>").
Definition add_sig : Api.Signature :=
  Api.mk_sig "add" false [] [self_arg; Api.Typed (Some "amount"%string) "u64"] Api.RDefault.
Definition init_sig : Api.Signature :=
  Api.mk_sig "init" false [] [self_arg; Api.Typed (Some "owner"%string) "Principal"] Api.RDefault.

Definition wallet_items : list Api.Item :=
  [(Api.AInit, Some false, init_sig); (Api.AQuery, Some false, get_sig);
   (Api.AUpdate, Some true, add_sig)].

Lemma generate_idl_collects_witness :
  exists exps r e r', Api.expand_all wallet_items Api.empty_registry = Ret (exps, r) /\
    Api.generate_idl r = Ret (e, r') /\ Api.init_args e = Some ["Principal"%string] /\
    ("get"%string, Api.mk_func ["u64"%string] ["Balance"%string] [Api.Query]) ∈ Api.gen_tys e.
Proof.
  destruct (outcome_returns (Api.expand_all wallet_items Api.empty_registry) (fun _ => True))
    as ([exps r] & Hx & _); [by vm_compute|].
  pose text_syn_laws as laws.
  destruct (Api.generate_idl_collects wallet_items exps r Hx)
    as (e & r' & Hg & _ & _ & Hin & Hi & _).
  exists exps, r, e, r'. split_and!; [done|exact Hg|exact Hi|]. by apply Hin.
Defined.

Lemma export_agrees_with_idl_witness :
  exists e r' x, Api.api_method "query" (Some false) get_sig false true Api.empty_registry =
      Ret (Ok e, r') /\ Api.export_function e = Some x /\
    Api.export_name x = "canister_query get"%string /\ Api.replied get_sig x = ["Balance"%string].
Proof.
  destruct (outcome_returns (Api.api_method "query" (Some false) get_sig false true Api.empty_registry)
    (fun p => is_ok p.1 = true)) as ([[e|] r'] & Hx & He1); [by vm_compute| |done].
  destruct (Api.export_agrees_with_idl "query" false get_sig _ e r' (or_introl eq_refl)
    ltac:(repeat constructor) Hx) as (_ & _ & _ & x & Hn & _ & _ & Hr & He & _).
  exists e, r', x. split_and!; [done|exact He|exact Hn|exact Hr].
Defined.
