(* ===== verification/CallMacros.v ===== *)
(** * The call macros in a canister

    [ic-canister-macros/src/canister_call.rs]: how [canister_call!],
    [canister_notify!], [virtual_canister_call!] and [virtual_canister_notify!] are
    parsed, and the call of [ic_cdk] they expand to in wasm.  What the other branch
    of the expansion does is in [Canister].  The theorem relates the calls to the
    endpoints of [CanisterMacros]: both ends use the same arguments and types. *)

From S2P Require Import Prelude CanisterMacros.
Local Open Scope Z_scope.
Local Open Scope sdk_scope.

(** ** Syntax *)

(** [syn::punctuated::Punctuated] with commas, and expressions: a tuple, another
    expression in parentheses, or anything else. *)
Record Punctuated (A : Type) := mk_punct { elems : list A; trailing : bool }.
Arguments mk_punct {A} _ _.
Arguments elems {A} _.
Arguments trailing {A} _.

Inductive Expr :=
  | ExprTuple (elems : Punctuated Expr)
  | ExprParen (e : Expr)
  | ExprOther (text : string).

Record ExprMethodCall := mk_method_call {
  receiver : Expr;
  call_method : string;
  call_args : Punctuated Expr;
}.

(** A parser's result, an error being its message; [?] returns it. *)
Definition parsed (A : Type) : Type := result A string.

#[export] Instance parsed_bind : MBind parsed := fun A B f m => match m with Ok a => f a | Err e => Err e end.

Definition with_message {A} (message : string) (m : parsed A) : parsed A := map_err (fun _ => message) m.

(** The parsers of [syn] on a token stream; errors are their messages. *)
Class Parsers `{Syn} := {
  Tokens : Type;
  parse_method_call : Tokens -> parsed (ExprMethodCall * Tokens);
  parse_ty : Tokens -> parsed (SynType * Tokens);
  parse_expr : Tokens -> parsed (Expr * Tokens);
  parse_comma : Tokens -> parsed Tokens;
  peek_comma : Tokens -> bool;
  no_tokens : Tokens -> bool;
}.

Section macros.
Context `{Syn, !Parsers}.
Implicit Types (input : Tokens) (t : SynType).

(** *** Parsing *)

Record CanisterCall := mk_call {
  method_call : ExprMethodCall;
  response_type : SynType;
  cycles : option Expr;
}.

(** The optional last parameter. *)
Definition parse_cycles input : parsed (option Expr * Tokens) :=
  if peek_comma input then
    input ← parse_comma input;
    '(cycles, input) ← parse_expr input;
    Ok (Some cycles, input)
  else Ok (None, input).

Definition parse_CanisterCall input : parsed (CanisterCall * Tokens) :=
  '(method_call, input) ← parse_method_call input;
  input ← with_message "second parameter is missing, expecting the method return type" (parse_comma input);
  '(response_type, input) ← with_message "failed to parse method response type" (parse_ty input);
  '(cycles, input) ← parse_cycles input;
  Ok (mk_call method_call response_type cycles, input).

Record VirtualCanisterCall := mk_virtual {
  principal : Expr;
  method_name : Expr;
  virtual_args : Expr;
  virtual_type : SynType;
  virtual_cycles : option Expr;
}.

Definition parse_VirtualCanisterCall input : parsed (VirtualCanisterCall * Tokens) :=
  '(principal, input) ← parse_expr input;
  input ← parse_comma input;
  '(method_name, input) ← parse_expr input;
  input ← parse_comma input;
  '(args, input) ← parse_expr input;
  input ← parse_comma input;
  '(response_type, input) ← parse_ty input;
  '(cycles, input) ← parse_cycles input;
  Ok (mk_virtual principal method_name args response_type cycles, input).

(** [parse_macro_input!]: the whole input is parsed. *)
Definition parse_macro_input {A} (parse : Tokens -> parsed (A * Tokens)) input : parsed A :=
  '(a, input) ← parse input;
  if no_tokens input then Ok a else Err "unexpected token"%string.

(** *** Arguments *)

Definition empty_or_trailing {A} (p : Punctuated A) : bool :=
  match elems p with [] => true | _ => trailing p end.

(** [push_punct] panics if there is nothing to separate. *)
Definition push_punct {A} (p : Punctuated A) : outcome (Punctuated A) :=
  assert (negb (empty_or_trailing p)); Ret (mk_punct (elems p) true).

Definition normalize_args (args : Punctuated Expr) : outcome (Punctuated Expr) :=
  if negb (empty_or_trailing args) then push_punct args else Ret args.

Definition normalize_expr (args : Expr) : outcome Expr :=
  match args with
  | ExprTuple p => p ← normalize_args p; Ret (ExprTuple p)
  | _ => Ret args
  end.

(** [(#args)]: the tokens in parentheses; a single one without a comma is no tuple. *)
Definition in_parens (p : Punctuated Expr) : Expr :=
  match elems p with
  | [e] => if trailing p then ExprTuple p else ExprParen e
  | _ => ExprTuple p
  end.

(** *** The calls of [ic_cdk] *)

(** The type whose values are decoded: the response type, or the tuple of it alone. *)
Inductive ResponseTuple :=
  | This (t : SynType)
  | Single (t : SynType).

Record CdkCall := mk_cdk_call {
  cdk_principal : Expr;
  cdk_method : Expr;
  cdk_args : Expr;
  cdk_response : ResponseTuple;
  (* [.map(|x| x.0)] *)
  cdk_first : bool;
  payment : option Expr;
}.

Record CdkNotify := mk_cdk_notify {
  notify_principal : Expr;
  notify_method : Expr;
  notify_args : Expr;
  notify_payment : option Expr;
}.

Definition is_tuple t : bool := match type_view t with TyTuple _ => true | _ => false end.

Definition get_cdk_call (p method_name args : Expr) (response_type : SynType) (cycles : option Expr) : CdkCall :=
  if is_tuple response_type
  then mk_cdk_call p method_name args (This response_type) false cycles
  else mk_cdk_call p method_name args (Single response_type) true cycles.

Definition get_cdk_notify (p method_name args : Expr) (cycles : option Expr) : CdkNotify :=
  mk_cdk_notify p method_name args cycles.

(** *** The macros *)

(** [#canister.principal()], a literal and the call of an inner method, as text. *)
Context (principal_of : Expr -> Expr) (literal : string -> Expr).

(** The call in wasm, and the method that is called on the instance outside of it. *)
Record Expanded (C : Type) := mk_expanded {
  in_wasm : C;
  inner_method : string;
  inner_args : list Expr;
}.
Arguments mk_expanded {C} _ _ _.
Arguments in_wasm {C} _.
Arguments inner_method {C} _.
Arguments inner_args {C} _.

Definition canister_call (input : CanisterCall) : outcome (Expanded CdkCall) :=
  let canister := receiver (method_call input) in
  let method := call_method (method_call input) in
  args ← normalize_args (call_args (method_call input));
  Ret (mk_expanded
         (get_cdk_call (principal_of canister) (literal method) (in_parens args) (response_type input) (cycles input))
         ("__" ++ method)%string (elems args)).

Definition canister_notify (input : CanisterCall) : outcome (Expanded CdkNotify) :=
  let canister := receiver (method_call input) in
  let method := call_method (method_call input) in
  args ← normalize_args (call_args (method_call input));
  Ret (mk_expanded
         (get_cdk_notify (principal_of canister) (literal method) (in_parens args) (cycles input))
         ("___" ++ method)%string (elems args)).

(** Outside of wasm the encoded arguments go to the responder, and its answer is
    decoded: the tuple that is encoded, and the one that is decoded. *)
Record VirtualExpanded (C : Type) := mk_virtual_expanded {
  virtual_in_wasm : C;
  encoded_args : Expr;
  decoded_response : option (ResponseTuple * bool);
}.
Arguments mk_virtual_expanded {C} _ _ _.
Arguments virtual_in_wasm {C} _.
Arguments encoded_args {C} _.
Arguments decoded_response {C} _.

Definition virtual_canister_call (input : VirtualCanisterCall) : outcome (VirtualExpanded CdkCall) :=
  args ← normalize_expr (virtual_args input);
  let response_type := virtual_type input in
  let decode := if is_tuple response_type then (This response_type, false) else (Single response_type, true) in
  Ret (mk_virtual_expanded
         (get_cdk_call (principal input) (method_name input) args response_type (virtual_cycles input))
         (ExprParen args) (Some decode)).

Definition virtual_canister_notify (input : VirtualCanisterCall) : outcome (VirtualExpanded CdkNotify) :=
  args ← normalize_expr (virtual_args input);
  Ret (mk_virtual_expanded
         (get_cdk_notify (principal input) (method_name input) args (virtual_cycles input))
         (ExprParen args) None).

(** *** What is sent and what is received *)

(** The values that are encoded; a variable could hold any tuple. *)
Fixpoint tuple_values (e : Expr) : option (list Expr) :=
  match e with
  | ExprTuple p => Some (elems p)
  | ExprParen e => tuple_values e
  | ExprOther _ => None
  end.

(** The types that are decoded, and the type of the value that the call has. *)
Definition wire_types (r : ResponseTuple) : list SynType :=
  match r with
  | This t => match type_view t with TyTuple elems => elems | _ => [t] end
  | Single t => [t]
  end.

Definition value_type (r : ResponseTuple) (first : bool) : option SynType :=
  match r, first with
  | This t, false | Single t, true => Some t
  | This t, true => match type_view t with TyTuple (t :: _) => Some t | _ => None end
  | Single _, false => None
  end.

Lemma normalize_args_Ret p :
  exists p', normalize_args p = Ret p' /\ elems p' = elems p /\ empty_or_trailing p' = true.
Proof.
  unfold normalize_args, push_punct. destruct (empty_or_trailing p) eqn:Hp; cbn; eexists; split_and!; try done.
  unfold empty_or_trailing. cbn. by destruct (elems p).
Qed.

Lemma in_parens_tuple p : empty_or_trailing p = true -> in_parens p = ExprTuple p.
Proof.
  unfold empty_or_trailing, in_parens. destruct (elems p) as [|e [|e' l]]; [done| |done]. by intros ->.
Qed.

Lemma canister_call_Ret (input : CanisterCall) :
  exists args, elems args = elems (call_args (method_call input)) /\
  canister_call input = Ret (mk_expanded
    (get_cdk_call (principal_of (receiver (method_call input))) (literal (call_method (method_call input)))
       (ExprTuple args) (response_type input) (cycles input))
    ("__" ++ call_method (method_call input))%string (elems args)).
Proof.
  destruct (normalize_args_Ret (call_args (method_call input))) as (args & Hn & He & Ht). exists args.
  split; [done|]. unfold canister_call. rewrite Hn. cbn. by rewrite (in_parens_tuple args Ht).
Qed.

Lemma get_cdk_call_types p m args t cycles :
  let c := get_cdk_call p m args t cycles in
  wire_types (cdk_response c) = match type_view t with TyTuple elems => elems | _ => [t] end /\
  value_type (cdk_response c) (cdk_first c) = Some t.
Proof. unfold get_cdk_call, is_tuple. destruct (type_view t) eqn:Ht; cbn; by rewrite ?Ht. Qed.

(** The type of the value that a method yields. *)
Definition yields (sig : Api.Signature) (x : Api.Export) (t : SynType) : Prop :=
  match Api.output sig with
  | Api.RDefault => type_view t = TyTuple []
  | Api.RType u => t = Api.awaited (Api.await_call_if_result_is_async x) u
  end.

Lemma replied_types sig x t :
  yields sig x t -> Api.reply_of false (Api.output sig) = Ret (Api.reply_call x) ->
  (Api.await_call_if_result_is_async x = true -> is_tuple t = false) ->
  Api.replied sig x = match type_view t with TyTuple elems => elems | _ => [t] end.
Proof.
  unfold yields, Api.reply_of, Api.replied, is_tuple. destruct (Api.output sig) as [|u].
  - by intros -> _ _.
  - intros -> [= <-] Ht. destruct (Api.await_call_if_result_is_async x); cbn in *.
    + specialize (Ht eq_refl). destruct (type_view u) as [segs|elems|elem|] eqn:Hu;
        destruct (type_view _) eqn:Hv; try done.
      all: destruct (Derive.extract_type_if_matches "AsyncReturn" u) as [v|] eqn:Hx; congruence.
    + destruct (type_view u) eqn:Hu; by rewrite ?Hu.
Qed.
(** The function that is exported for a method, by its attribute or by
    [generate_exports]. *)
Definition endpoint (is_trait : bool) (sig : Api.Signature) (e : Api.Expansion) (r : Api.Registry)
    (x : Api.Export) : Prop :=
  if is_trait then last (map Api.generated_export (Api.METHODS_EXPORTS r)) = Some (Api.ident sig, x)
  else Api.export_function e = Some x.

Lemma endpoint_reply method_type is_trait sig r e r' x :
  Api.api_method method_type (Some is_trait) sig false true r = Ret (Ok e, r') ->
  endpoint is_trait sig e r' x ->
  Api.reply_of false (Api.output sig) = Ret (Api.reply_call x) /\
  Api.internal_method e = ("__" ++ Api.ident sig)%string /\
  Api.internal_method_notify e = ("___" ++ Api.ident sig)%string /\
  Api.export_name x = ("canister_" ++ method_type ++ " " ++ Api.ident sig)%string.
Proof.
  intros Ha Hx. apply Api.api_method_Ok in Ha as (tr & r1 & [= <-] & _ & Ha).
  unfold Api.expand_method in Ha. apply outcome_bind_Ret in Ha as (reply & Hreply & Ha).
  destruct (forallb _ _); [|done]. cbn [negb andb] in Ha.
  destruct (existsb _ _); [|done]. cbn [negb] in Ha.
  apply outcome_bind_Ret in Ha as (b & Hb & Ha). injection Ha as <- <-.
  unfold endpoint in Hx. destruct is_trait; cbn in *.
  - rewrite map_app in Hx. cbn [map] in Hx. rewrite last_snoc in Hx. injection Hx as <-. cbn. split; [|done].
    unfold Api.reply_of, Api.variant_of in *. destruct (Api.output sig) as [|t]; [done|].
    by destruct (type_view t).
  - injection Hx as <-. by rewrite Hreply.
Qed.

(** C28: A call reaches its endpoint.  [canister_call!] of a query or update method
    expands, however its arguments are punctuated, to a call of the method's endpoint
    in wasm and of its internal method outside of wasm, with the same arguments, which
    are encoded as a tuple in wasm also if there is only one; it decodes exactly the
    types that the endpoint replies, has the type it asks for, and carries the cycles
    that are given - provided that the type is the one the method yields, and that it is
    no tuple if the method returns an [AsyncReturn]. *)
Theorem calls_match_exports method_type is_trait sig r e r' x (input : CanisterCall) :
  Api.api_method method_type (Some is_trait) sig false true r = Ret (Ok e, r') ->
  endpoint is_trait sig e r' x ->
  call_method (method_call input) = Api.ident sig -> yields sig x (response_type input) ->
  (Api.await_call_if_result_is_async x = true -> is_tuple (response_type input) = false) ->
  exists c, canister_call input = Ret c /\
    Api.export_name x = ("canister_" ++ method_type ++ " " ++ call_method (method_call input))%string /\
    cdk_principal (in_wasm c) = principal_of (receiver (method_call input)) /\
    cdk_method (in_wasm c) = literal (call_method (method_call input)) /\
    tuple_values (cdk_args (in_wasm c)) = Some (elems (call_args (method_call input))) /\
    wire_types (cdk_response (in_wasm c)) = Api.replied sig x /\
    value_type (cdk_response (in_wasm c)) (cdk_first (in_wasm c)) = Some (response_type input) /\
    payment (in_wasm c) = cycles input /\
    inner_method c = Api.internal_method e /\ inner_args c = elems (call_args (method_call input)).
Proof.
  intros Ha Hx Hm Hy Ht. destruct (endpoint_reply _ _ _ _ _ _ _ Ha Hx) as (Hreply & Hi & _ & Hn).
  destruct (canister_call_Ret input) as (args & He & Hc).
  destruct (get_cdk_call_types (principal_of (receiver (method_call input)))
    (literal (call_method (method_call input))) (ExprTuple args) (response_type input) (cycles input)) as [Hw Hv].
  eexists. split; [exact Hc|]. cbn. rewrite Hw, Hv, (replied_types _ _ _ Hy Hreply Ht), Hi, Hm, He.
  split_and!; try done; unfold get_cdk_call; destruct (is_tuple _); cbn; by rewrite ?He.
Qed.

(** The virtual calls encode the same arguments and decode the same type in wasm and
    outside of it; cycles are only attached in wasm. *)
Theorem virtual_branches_agree (input : VirtualCanisterCall) :
  exists c, virtual_canister_call input = Ret c /\
    tuple_values (encoded_args c) = tuple_values (cdk_args (virtual_in_wasm c)) /\
    tuple_values (encoded_args c) = tuple_values (virtual_args input) /\
    decoded_response c = Some (cdk_response (virtual_in_wasm c), cdk_first (virtual_in_wasm c)).
Proof.
  unfold virtual_canister_call.
  assert (exists args, normalize_expr (virtual_args input) = Ret args /\
    tuple_values args = tuple_values (virtual_args input)) as (args & Hn & Hv).
  { unfold normalize_expr. destruct (virtual_args input) as [p|a|t]; [|by eexists..].
    destruct (normalize_args_Ret p) as (p' & -> & He & _). eexists. split; [done|]. cbn. by rewrite He. }
  rewrite Hn. eexists. split; [done|]. unfold get_cdk_call.
  destruct (is_tuple (virtual_type input)); cbn; by rewrite Hv.
Qed.

(** A method that returns [AsyncReturn] of a tuple replies the tuple as one value,
    and the call in wasm decodes its elements. *)
Theorem async_tuple_mismatch sig x u t ts (input : CanisterCall) :
  Api.output sig = Api.RType u -> Derive.extract_type_if_matches "AsyncReturn" u = Ret t ->
  is_tuple u = false -> type_view t = TyTuple ts ->
  Api.reply_of false (Api.output sig) = Ret (Api.reply_call x) ->
  Api.await_call_if_result_is_async x = true -> response_type input = t ->
  Api.replied sig x = [t] /\
  exists c, canister_call input = Ret c /\ wire_types (cdk_response (in_wasm c)) = ts.
Proof.
  intros Ho Hu Htu Ht Hreply Hb Hr. destruct (canister_call_Ret input) as (args & _ & Hc). split.
  - unfold Api.replied, Api.awaited. rewrite Ho, Hb, Hu. rewrite Ho in Hreply. cbn in Hreply.
    unfold is_tuple in Htu. destruct (type_view u); [|done|..]; by injection Hreply as <-.
  - eexists. split; [exact Hc|]. cbn. unfold get_cdk_call, is_tuple. rewrite Hr, Ht. cbn. by rewrite Ht.
Qed.
End macros.

(** ** A call *)

(** Tokens: what a parser takes at once, and commas. *)
Inductive token := TCall (c : ExprMethodCall) | TType (t : string) | TExpr (e : Expr) | TComma.

#[local] Existing Instance text_syn.

#[local] Instance token_parsers : Parsers := {|
  Tokens := list token;
  parse_method_call l := match l with TCall c :: l => Ok (c, l) | _ => Err "expected a method call"%string end;
  parse_ty l := match l with TType t :: l => Ok (t, l) | _ => Err "expected a type"%string end;
  parse_expr l := match l with TExpr e :: l => Ok (e, l) | _ => Err "expected an expression"%string end;
  parse_comma l := match l with TComma :: l => Ok l | _ => Err "expected a comma"%string end;
  peek_comma l := match l with TComma :: _ => true | _ => false end;
  no_tokens l := match l with [] => true | _ => false end;
|}.

(** [wallet.get(id)] *)
Definition get_call : ExprMethodCall :=
  mk_method_call (ExprOther "wallet") "get" (mk_punct [ExprOther "id"] false).

Definition balance_call : CanisterCall := mk_call get_call "Balance"%string (Some (ExprOther "5")).

Example parse_balance_call :
  parse_macro_input parse_CanisterCall
    [TCall get_call; TComma; TType "Balance"; TComma; TExpr (ExprOther "5")] = Ok balance_call.
Proof. reflexivity. Qed.

Example parse_without_type :
  parse_macro_input parse_CanisterCall [TCall get_call] =
    Err "second parameter is missing, expecting the method return type"%string.
Proof. reflexivity. Qed.

Lemma balance_exported : exists p,
  Api.api_method "query" (Some false) get_sig false true Api.empty_registry = Ret p /\
  match p with
  | (Ok e, _) =>
      match Api.export_function e with
      | Some x =>
          Api.awaited (Api.await_call_if_result_is_async x) "AsyncReturn<Balance>"%string = "Balance"%string /\
          Api.replied get_sig x = ["Balance"%string] /\ Api.internal_method e = "__get"%string
      | None => False
      end
  | _ => False
  end.
Proof. apply outcome_returns. by vm_compute. Qed.

Lemma calls_match_exports_witness :
  exists e r' x c,
    Api.api_method "query" (Some false) get_sig false true Api.empty_registry = Ret (Ok e, r') /\
    Api.export_function e = Some x /\ canister_call Datatypes.id ExprOther balance_call = Ret c /\
    tuple_values (cdk_args (in_wasm _ c)) = Some [ExprOther "id"] /\
    wire_types (cdk_response (in_wasm _ c)) = ["Balance"%string] /\ inner_method _ c = "__get"%string.
Proof.
  destruct balance_exported as ([[e|] r'] & Hx & He); [|done].
  destruct (Api.export_function e) as [x|] eqn:Hex; [|done]. destruct He as (Hy & Hw & Hi).
  destruct (calls_match_exports Datatypes.id ExprOther "query" false get_sig _ e r' x balance_call Hx Hex eq_refl)
    as (c & Hc & _ & _ & _ & Hargs & Hwire & _ & _ & Hinner & _); [by symmetry|done|].
  exists e, r', x, c. split_and!; [done..|exact Hargs|by rewrite Hwire|by rewrite Hinner].
Defined.
