(* ===== verification/Canister.v ===== *)
(** * Canisters in tests

    [ic-canister/src/lib.rs], and what the code emitted by the macros of
    [CanisterMacros] does when it runs outside of wasm ([canister_call.rs] and the
    [quote!]s of [derive.rs] and [api.rs]): instances by principal, calls between
    them, virtual calls to registered responders, and upgrades.

    A [World] is what a test thread shares: the context of [Kit], the cells of
    [Storage.IcStorage] for every state type, the stable memory, the responders and
    the counters of [__NEXT_ID].  Code is a function on worlds; an async block is
    such a function that has not been run yet.  The closures of responders are
    names with an interpretation, so that they can call back into the world. *)

From S2P Require Import Prelude Kit Storage CanisterMacros.
Local Open Scope Z_scope.

(** The state types, by the type that names them in the source. *)
Class StateTypes `{Syn} := {
  state : SynType -> Type;
  default_state : forall t, state t;
}.

(** The closures given to responders: raw ones, and typed ones with the candid
    encoding of their argument and result (errors by their text). *)
Class Closures := {
  RawClosure : Type;
  TypedClosure : Type;
  arg_ty : TypedClosure -> Type;
  ret_ty : TypedClosure -> Type;
  decode_args : forall c, list Z -> result (arg_ty c) string;
  encode_ret : forall c, ret_ty c -> result (list Z) string;
}.

Inductive MethodType := Query | Update | Oneway.

Definition MethodType_from (s : string) : outcome MethodType :=
  if decide (s = "query"%string) then Ret Query
  else if decide (s = "update"%string) then Ret Update
  else if decide (s = "oneway"%string) then Ret Oneway
  else Panic.

Definition MethodType_display (m : MethodType) : string :=
  match m with Query => "query" | Update => "update" | Oneway => "oneway" end.

(** The codes this crate gives, and all others by their number. *)
Inductive RejectionCode :=
  | DestinationInvalid
  | Unknown
  | OtherCode (code : Z).

Definition CallResult (A : Type) : Type := result A (RejectionCode * string).

Section world.
Context `{Syn, !StateTypes, StoredTypes, Target, KitEnv, Closures}.

Inductive Responder :=
  | RawResponder (f : RawClosure)
  | VirtualResponder (f : TypedClosure)
  | FailingResponder (error_message : string).

(** [borrowed]: how many responders run, each under a shared borrow of the map.
    [printed]: the ids the code has printed, [ic::id()] and [ic::caller()]. *)
Record World := mk_world {
  thread : option MockContext;
  states : forall t : SynType, IcStorage.t (state t);
  stable_memory : list Z;
  responders : gmap (Principal * string) Responder;
  borrowed : nat;
  next_ids : gmap string Z;
  printed : list (Principal * Principal);
}.

Definition set_thread (x : option MockContext) (w : World) : World :=
  mk_world x (states w) (stable_memory w) (responders w) (borrowed w) (next_ids w) (printed w).
Definition set_memory (m : list Z) (w : World) : World :=
  mk_world (thread w) (states w) m (responders w) (borrowed w) (next_ids w) (printed w).
Definition set_responders (m : gmap (Principal * string) Responder) (w : World) : World :=
  mk_world (thread w) (states w) (stable_memory w) m (borrowed w) (next_ids w) (printed w).
Definition set_borrowed (n : nat) (w : World) : World :=
  mk_world (thread w) (states w) (stable_memory w) (responders w) n (next_ids w) (printed w).
Definition set_next_ids (m : gmap string Z) (w : World) : World :=
  mk_world (thread w) (states w) (stable_memory w) (responders w) (borrowed w) m (printed w).

Definition print (l : list (Principal * Principal)) (w : World) : World :=
  mk_world (thread w) (states w) (stable_memory w) (responders w) (borrowed w) (next_ids w)
    (printed w ++ l).

(** The cells of one state type. *)
Definition set_states (t : SynType) (s : IcStorage.t (state t)) (w : World) : World :=
  mk_world (thread w)
    (fun t' => match decide (t = t') with
               | left e => eq_rect t (fun t => IcStorage.t (state t)) s t' e
               | right _ => states w t'
               end)
    (stable_memory w) (responders w) (borrowed w) (next_ids w) (printed w).

(** ** Code *)

Definition M (A : Type) : Type := World -> outcome (A * World).

#[export] Instance M_ret : MRet M := fun A a w => Ret (a, w).
#[export] Instance M_bind : MBind M := fun A B f m w => '(a, w) ← m w; f a w.

(** The functions of [ic.rs], and the methods of [get_context()]. *)
Definition on_thread {A} (f : option MockContext -> outcome (A * option MockContext)) : M A :=
  fun w => '(a, x) ← f (thread w); Ret (a, set_thread x w).

Definition update_context (f : Core.t -> Core.t) : M unit :=
  on_thread (on_core (fun c => Ret (tt, f c))).

Definition update_id (p : Principal) : M unit := update_context (Core.update_id p).
Definition update_caller (p : Principal) : M unit := update_context (Core.update_caller p).

(** ** Instances *)

(** [<T as IcStorage>::get()]: the cell of the current id. *)
Definition cell_of (t : SynType) (id : Principal) : M nat := fun w =>
  let '(l, s) := IcStorage.get (default_state t) id (states w t) in Ret (l, set_states t s w).

Definition storage_get (t : SynType) : M nat := id ← on_thread ic_id; cell_of t id.

(** The id and the handles of the state fields; the other fields have their default
    values. *)
Record Instance_ := mk_instance { principal : Principal; handles : list (string * SynType * nat) }.

Fixpoint get_handles (fields : list (string * SynType)) : M (list (string * SynType * nat)) :=
  match fields with
  | [] => mret []
  | (n, t) :: fields => l ← storage_get t; ls ← get_handles fields; mret ((n, t, l) :: ls)
  end.

Definition from_principal (d : Derive.Derived) (p : Principal) : M Instance_ :=
  curr_id ← on_thread ic_id;
  _ ← update_id p;
  hs ← get_handles (Derive.state_fields d);
  _ ← update_id curr_id;
  mret (mk_instance p hs).

(** [__NEXT_ID] of a struct starts at the nanoseconds of the clock when it is first
    used; [fetch_add] wraps. *)
Definition initial_id (nanos : Z) : outcome Z :=
  n ← u_rem nanos (10 ^ 19); expect (if in_range 64 n then Some n else None).

Definition next_id (nanos : Z) (name : string) : M (list Z) := fun w =>
  n ← (match next_ids w !! name with Some n => Ret n | None => initial_id nanos end : outcome Z);
  Ret (to_le_bytes 8 n, set_next_ids (<[name := wrapping_add 64 n 1]> (next_ids w)) w).

Definition init_instance (nanos : Z) (d : Derive.Derived) : M Instance_ :=
  p ← next_id nanos (Derive.struct_name d); from_principal d p.

(** [self.field] of a state field. *)
Definition handle_of (i : Instance_) (name : string) : option nat :=
  snd <$> List.find (fun h => bool_decide (h.1.1 = name)) (handles i).

(** ** Upgrades *)

Section upgrades.
Context `{CandidLib}.
Variable unit_codec : Codec unit.

(** The methods generated for the stable field [f]. *)
Definition pre_upgrade_inst (f : string * SynType) (v : Versioned (state f.2)) (i : Instance_) :
    M unit := fun w =>
  l ← expect (handle_of i f.1);
  x ← expect (IcStorage.borrow l (states w f.2));
  '(r, mem) ← Storage.write unit_codec v x (stable_memory w);
  _ ← expect_ok r;
  Ret (tt, set_memory mem w).

(** [None]: [read] is out of fuel.  An error traps. *)
Definition post_upgrade_inst (fuel : nat) (f : string * SynType) (v : Versioned (state f.2))
    (i : Instance_) (w : World) : option (outcome (unit * World)) :=
  (fun r => val ← r; val ← expect_ok val;
     l ← expect (handle_of i f.1);
     Ret (tt, set_states f.2 (IcStorage.borrow_mut (fun _ => val) l (states w f.2)) w))
  <$> Storage.read unit_codec fuel v (stable_memory w).

Definition pre_upgrade (nanos : Z) (d : Derive.Derived) (f : string * SynType)
    (v : Versioned (state f.2)) : M unit :=
  instance ← init_instance nanos d; pre_upgrade_inst f v instance.

Definition post_upgrade (nanos : Z) (fuel : nat) (d : Derive.Derived) (f : string * SynType)
    (v : Versioned (state f.2)) (w : World) : option (outcome (unit * World)) :=
  match init_instance nanos d w with
  | Ret (instance, w) => post_upgrade_inst fuel f v instance w
  | Panic => Some Panic
  end.
End upgrades.

(** ** Responders *)

(** [HashMap::insert] under [borrow_mut], which panics while a responder runs. *)
Definition register (p : Principal) (method : string) (r : Responder) : M unit := fun w =>
  match borrowed w with
  | O => Ret (tt, set_responders (<[(p, method) := r]> (responders w)) w)
  | S _ => Panic
  end.

Definition register_raw_virtual_responder (p : Principal) (method : string) (f : RawClosure) :
    M unit := register p method (RawResponder f).
Definition register_virtual_responder (p : Principal) (method : string) (f : TypedClosure) :
    M unit := register p method (VirtualResponder f).
Definition register_failing_virtual_responder (p : Principal) (method : string)
    (error_message : string) : M unit := register p method (FailingResponder error_message).
End world.

(** What the closures do, and the text for a missing responder. *)
Class Bodies `{Syn, !StateTypes, StoredTypes, Target, KitEnv, Closures} := {
  run_raw : RawClosure -> list Z -> M (CallResult (list Z));
  run_typed : forall c : TypedClosure, arg_ty c -> M (ret_ty c);
  not_registered : Principal -> string -> gmap (Principal * string) Responder -> string;
}.

Section calls.
Context `{Bodies}.

(** The closure a responder was registered as. *)
Definition run_responder (r : Responder) (args : list Z) : M (CallResult (list Z)) :=
  match r with
  | RawResponder f => run_raw f args
  | VirtualResponder c =>
      match decode_args c args with
      | Err e => mret (Err (Unknown, ("Failed to decode args: " ++ e)%string))
      | Ok a =>
          res ← run_typed c a;
          mret (map_err (fun e => (Unknown, ("failed to encode return value: " ++ e)%string))
                  (encode_ret c res))
      end
  | FailingResponder error_message => mret (Err (Unknown, error_message))
  end.

(** The map stays borrowed while the responder runs. *)
Definition call_virtual_responder (p : Principal) (method : string) (args : list Z) :
    M (CallResult (list Z)) := fun w =>
  match responders w !! (p, method) with
  | Some r =>
      '(res, w) ← run_responder r args (set_borrowed (S (borrowed w)) w);
      Ret (res, set_borrowed (pred (borrowed w)) w)
  | None => Ret (Err (DestinationInvalid, not_registered p method (responders w)), w)
  end.

(** ** The call macros *)

(** Run some code as the canister [callee], called by the current one. *)
Definition as_callee {A} (callee : Principal) (body : M A) : M A :=
  caller ← on_thread ic_caller;
  id ← on_thread ic_id;
  _ ← update_caller id;
  _ ← update_id callee;
  res ← body;
  _ ← update_caller caller;
  _ ← update_id id;
  mret res.

(** The method as it was expanded: the hook, then the body; calling an async method
    gives a future and runs nothing. *)
Definition method_body {A} (e : Api.Expansion) (hook : string -> MethodType -> M unit)
    (method_type : MethodType) (body : M A) : M A :=
  if Api.pre_update e then _ ← hook (Api.ident (Api.method e)) method_type; body else body.

Definition call_method {A} (e : Api.Expansion) (body : M A) : M (M A) :=
  if Api.asyncness (Api.method e) then mret body else res ← body; mret (mret res).

(** [__method] and [___method]; the future that the second gets is dropped. *)
Definition internal_method {A} (e : Api.Expansion) (body : M A) : M (M (CallResult A)) :=
  result ← call_method e body; mret (res ← result; mret (Ok res)).
Definition internal_method_notify {A} (e : Api.Expansion) (body : M A) :
    M (result unit RejectionCode) :=
  _ ← call_method e body; mret (Ok tt).

Definition canister_call {A} (callee : Principal) (e : Api.Expansion) (body : M A) :
    M (CallResult A) :=
  as_callee callee (future ← internal_method e body; future).

Definition canister_notify {A} (callee : Principal) (e : Api.Expansion) (body : M A) :
    M (result unit RejectionCode) :=
  as_callee callee (internal_method_notify e body).

Definition virtual_canister_call {R} (p : Principal) (method : string)
    (encoded_args : result (list Z) string) (decode : list Z -> result R string) :
    M (CallResult R) :=
  match encoded_args with
  | Err e => mret (Err (Unknown, ("failed to serialize arguments: " ++ e)%string))
  | Ok args =>
      res ← as_callee p (call_virtual_responder p method args);
      mret (match res with
            | Err e => Err e
            | Ok bytes =>
                map_err (fun e => (Unknown, ("failed to deserialize return value: " ++ e)%string))
                  (decode bytes)
            end)
  end.

Definition virtual_canister_notify (p : Principal) (method : string)
    (encoded_args : result (list Z) string) : M (CallResult unit) :=
  match encoded_args with
  | Err e => mret (Err (Unknown, ("failed to serialize arguments: " ++ e)%string))
  | Ok args => res ← call_virtual_responder p method args; mret (result_map (fun _ => tt) res)
  end.
End calls.

(** ** The context of a world *)

Section context.
Context `{Syn, !StateTypes, StoredTypes, Target, KitEnv, Closures}.

(** The current canister and its caller, as [ic.rs] reports them. *)
Definition ctx_ids (w : World) : option (Principal * Principal) :=
  (fun x => (Core.id (core x), Core.caller (core x))) <$> thread w.

(** A context is injected, and no call of the kit has ended yet. *)
Definition ready (w : World) : Prop :=
  exists x, thread w = Some x /\ Core.is_reply_callback_mode (core x) = false.

(** Everything but the context. *)
Definition same_but_context (w w' : World) : Prop := exists x, w' = set_thread x w.

Definition on_core_of (f : Core.t -> Core.t) (x : MockContext) : MockContext :=
  mk_context (f (core x)) (handlers x).

Lemma ic_id_spec w x :
  thread w = Some x ->
  on_thread ic_id w =
    Ret (Core.id (core x), set_thread (Some (on_core_of (Core.touch called_id) x)) w).
Proof. intros Hx. unfold on_thread. by rewrite Hx. Qed.

Lemma ic_caller_spec w x :
  thread w = Some x -> Core.is_reply_callback_mode (core x) = false ->
  on_thread ic_caller w =
    Ret (Core.caller (core x), set_thread (Some (on_core_of (Core.touch called_caller) x)) w).
Proof.
  intros Hx Hr. unfold on_thread. rewrite Hx. unfold ic_caller, on_core, on_context, Core.ic_caller.
  cbn. by rewrite Hr.
Qed.

Lemma update_context_spec f w x :
  thread w = Some x -> update_context f w = Ret (tt, set_thread (Some (on_core_of f x)) w).
Proof. intros Hx. unfold update_context, on_thread. by rewrite Hx. Qed.

Lemma M_bind_Ret {A B} (m : M A) (f : A -> M B) w a w' :
  m w = Ret (a, w') -> (m ≫= f) w = f a w'.
Proof. intros Hm. unfold mbind, M_bind. by rewrite Hm. Qed.

Lemma M_bind_Panic {A B} (m : M A) (f : A -> M B) w : m w = Panic -> (m ≫= f) w = Panic.
Proof. intros Hm. unfold mbind, M_bind. by rewrite Hm. Qed.

(** The context a callee runs in, and the one it leaves. *)
Definition enter (callee : Principal) (x : MockContext) : MockContext :=
  on_core_of (fun c => Core.update_id callee (Core.update_caller (Core.id c)
    (Core.touch called_id (Core.touch called_caller c)))) x.

Definition leave (caller id : Principal) (x : MockContext) : MockContext :=
  on_core_of (fun c => Core.update_id id (Core.update_caller caller c)) x.

Lemma as_callee_spec {A} callee (body : M A) w x :
  thread w = Some x -> Core.is_reply_callback_mode (core x) = false ->
  as_callee callee body w =
    '(res, w') ← body (set_thread (Some (enter callee x)) w);
    match thread w' with
    | Some y => Ret (res, set_thread (Some (leave (Core.caller (core x)) (Core.id (core x)) y)) w')
    | None => Panic
    end.
Proof.
  intros Hx Hr. unfold as_callee.
  erewrite M_bind_Ret by (by apply ic_caller_spec).
  erewrite M_bind_Ret by (by apply ic_id_spec).
  erewrite M_bind_Ret by (by apply update_context_spec).
  erewrite M_bind_Ret by (by apply update_context_spec).
  change (set_thread _ (set_thread _ _)) with (set_thread (Some (enter callee x)) w).
  destruct (body (set_thread (Some (enter callee x)) w)) as [[res w']|] eqn:Hb;
    [|by rewrite M_bind_Panic]. rewrite (M_bind_Ret _ _ _ _ _ Hb). cbn [mbind outcome_bind].
  destruct (thread w') as [y|] eqn:Hy.
  - erewrite M_bind_Ret by (by apply update_context_spec).
    by erewrite M_bind_Ret by (by apply update_context_spec).
  - apply M_bind_Panic. unfold update_caller, update_context, on_thread. by rewrite Hy.
Qed.

(** ** The cells of a world *)

Lemma states_set_eq t s w : states (set_states t s w) t = s.
Proof.
  cbn. destruct (decide (t = t)) as [e|]; [|done].
  by assert (e = eq_refl) as -> by apply (eq_pi t).
Qed.

Lemma states_set_ne t t' s w : t <> t' -> states (set_states t s w) t' = states w t'.
Proof. intros. cbn. by destruct (decide (t = t')). Qed.

(** What a state type holds for a principal. *)
Definition state_at (t : SynType) (p : Principal) (w : World) : option (state t) :=
  state_of (default_state t) p (states w t).

Definition storage_ok (w : World) : Prop := forall t, ic_storage_ok (states w t).

(** The handle [l] is the cell of [p]. *)
Definition cell_is (t : SynType) (p : Principal) (l : nat) (w : World) : Prop :=
  IcStorage.store (states w t) !! p = Some l.

(** Getting handles changes no state that can be seen, and keeps earlier handles. *)
Record gets (w w' : World) : Prop := {
  gets_ok : storage_ok w -> storage_ok w';
  gets_state t p : storage_ok w -> state_at t p w' = state_at t p w;
  gets_cell t p l : cell_is t p l w -> cell_is t p l w';
  gets_memory : stable_memory w' = stable_memory w;
  gets_ids : next_ids w' = next_ids w;
  gets_responders : responders w' = responders w;
  gets_borrowed : borrowed w' = borrowed w;
  gets_printed : printed w' = printed w;
}.

Lemma gets_refl w : gets w w.
Proof. by split. Qed.

Lemma gets_context x w : gets w (set_thread x w).
Proof. by split. Qed.

Lemma gets_trans w1 w2 w3 : gets w1 w2 -> gets w2 w3 -> gets w1 w3.
Proof.
  intros [O1 S1 C1 M1 I1 R1 B1 P1] [O2 S2 C2 M2 I2 R2 B2 P2]. split; eauto; try congruence.
  intros t p Hw. rewrite S2 by eauto. by apply S1.
Qed.

Lemma cell_of_spec t id w :
  exists l w', cell_of t id w = Ret (l, w') /\ gets w w' /\ cell_is t id l w' /\
    thread w' = thread w.
Proof.
  unfold cell_of. destruct (IcStorage.get (default_state t) id (states w t)) as [l s] eqn:Hg.
  pose proof (get_store (default_state t) id (states w t)) as Hstore. rewrite Hg in Hstore.
  destruct Hstore as [Hl Hstore].
  exists l, (set_states t s w). split_and!; [done| | |done].
  - split; try done.
    + intros Hw t'. destruct (decide (t = t')) as [<-|Ht]; [|by rewrite states_set_ne].
      rewrite states_set_eq. pose proof (get_effect (default_state t) id _ (Hw t)) as He.
      rewrite Hg in He. by destruct He as (He & _).
    + intros t' p Hw. unfold state_at. destruct (decide (t = t')) as [<-|Ht].
      * rewrite states_set_eq. pose proof (get_effect (default_state t) id _ (Hw t)) as He.
        rewrite Hg in He. by apply He.
      * by rewrite states_set_ne.
    + intros t' p l'. unfold cell_is. destruct (decide (t = t')) as [<-|Ht];
        [|by rewrite states_set_ne]. rewrite states_set_eq. by apply Hstore.
  - unfold cell_is. rewrite states_set_eq. exact Hl.
Qed.

Lemma get_handles_spec fields w x :
  thread w = Some x ->
  exists hs w' y, get_handles fields w = Ret (hs, w') /\ gets w w' /\ hs.*1 = fields /\
    Forall (fun h => cell_is h.1.2 (Core.id (core x)) h.2 w') hs /\ thread w' = Some y /\
    Core.id (core y) = Core.id (core x) /\ Core.caller (core y) = Core.caller (core x) /\
    Core.is_reply_callback_mode (core y) = Core.is_reply_callback_mode (core x).
Proof.
  revert w x. induction fields as [|[n t] fields IH]; intros w x Hx.
  { exists [], w, x. by split_and!; try apply gets_refl. }
  cbn [get_handles]. set (x1 := on_core_of (Core.touch called_id) x).
  destruct (cell_of_spec t (Core.id (core x)) (set_thread (Some x1) w))
    as (l & w1 & Hc & Hg1 & Hl & Ht1).
  rewrite (M_bind_Ret (storage_get t) _ w l w1)
    by (unfold storage_get; by erewrite M_bind_Ret by (by apply ic_id_spec)).
  destruct (IH w1 _ Ht1) as (hs & w' & y & Hh & Hg2 & <- & Hcells & Hy & Hid & Hca & Hm).
  rewrite (M_bind_Ret _ _ _ _ _ Hh). exists ((n, t, l) :: hs), w', y. split_and!; try done.
  - eapply gets_trans; [apply gets_context|]. eapply gets_trans; [exact Hg1|exact Hg2].
  - constructor; [by apply (gets_cell _ _ Hg2)|done].
Qed.

Lemma from_principal_spec d p w x :
  thread w = Some x ->
  exists hs w' y, from_principal d p w = Ret (mk_instance p hs, w') /\ gets w w' /\
    hs.*1 = Derive.state_fields d /\ Forall (fun h => cell_is h.1.2 p h.2 w') hs /\
    thread w' = Some y /\ ctx_ids w' = ctx_ids w /\
    Core.is_reply_callback_mode (core y) = Core.is_reply_callback_mode (core x).
Proof.
  intros Hx. unfold from_principal. set (x1 := on_core_of (Core.touch called_id) x).
  erewrite M_bind_Ret by (by apply ic_id_spec).
  erewrite M_bind_Ret by (by apply update_context_spec).
  destruct (get_handles_spec (Derive.state_fields d) (set_thread (Some (on_core_of (Core.update_id p) x1)) w) _ eq_refl)
    as (hs & w' & y & Hh & Hg & Hf & Hc & Hy & Hid & Hca & Hm).
  erewrite M_bind_Ret by exact Hh. erewrite M_bind_Ret by (by apply update_context_spec).
  eexists hs, _, _. split_and!; try done.
  - eapply gets_trans; [apply gets_context|]. eapply gets_trans; [exact Hg|apply gets_context].
  - unfold ctx_ids. cbn. rewrite Hx. cbn. by rewrite Hca.
Qed.
End context.

(** ** Instances by principal *)

Section instances.
Context `{Syn, !StateTypes, StoredTypes, Target, KitEnv, Closures}.

(** [*self.state.borrow_mut()] changed through a handle. *)
Definition write_state (t : SynType) (f : state t -> state t) (l : nat) (w : World) : World :=
  set_states t (IcStorage.borrow_mut f l (states w t)) w.

Lemma write_state_spec t p l f w :
  storage_ok w -> cell_is t p l w ->
  storage_ok (write_state t f l w) /\ IcStorage.borrow l (states w t) = state_at t p w /\
  state_at t p (write_state t f l w) = f <$> state_at t p w /\
  (forall t' q, t' <> t \/ q <> p -> state_at t' q (write_state t f l w) = state_at t' q w).
Proof.
  intros Hw Hl. destruct (borrow_mut_state (default_state t) p l f _ (Hw t) Hl) as (Hok & Hb & Hst).
  unfold write_state, state_at. split_and!.
  - intros t'. destruct (decide (t = t')) as [<-|Ht].
    + by rewrite states_set_eq.
    + by rewrite states_set_ne.
  - done.
  - by rewrite states_set_eq, Hst, decide_True.
  - intros t' q Hne. destruct (decide (t = t')) as [<-|Ht].
    + rewrite states_set_eq, Hst, decide_False by naive_solver. done.
    + by rewrite states_set_ne.
Qed.

(** Once all cells exist, getting the handles again changes nothing. *)
Lemma get_handles_again hs w x p :
  thread w = Some x -> Core.id (core x) = p -> Forall (fun h => cell_is h.1.2 p h.2 w) hs ->
  exists w', get_handles hs.*1 w = Ret (hs, w') /\ (forall t q, state_at t q w' = state_at t q w) /\
    exists y, thread w' = Some y.
Proof.
  intros Hx Hp Hcells. revert w x Hx Hp Hcells.
  induction hs as [|[[n t] l] hs IH]; intros w x Hx Hp Hcells; [by exists w; eauto|].
  apply Forall_cons in Hcells as [Hl Hcells]. cbn in Hl. cbn [fmap list_fmap get_handles fst].
  set (w1 := set_thread (Some (on_core_of (Core.touch called_id) x)) w).
  assert (exists w2, storage_get t w = Ret (l, w2) /\ thread w2 = thread w1 /\
    (forall t', states w2 t' = states w t')) as (w2 & Hg & Ht2 & Hs2).
  { unfold storage_get. erewrite M_bind_Ret by (by apply ic_id_spec). unfold cell_of. cbn.
    rewrite Hp, (get_found _ _ _ _ Hl).
    eexists. split_and!; [reflexivity|done|]. intros t'.
    destruct (decide (t = t')) as [<-|Ht]; [by rewrite states_set_eq|by rewrite states_set_ne]. }
  rewrite (M_bind_Ret _ _ _ _ _ Hg).
  destruct (IH w2 _ Ht2) as (w' & Hh & Hst & y & Hy); [by cbn| |].
  { eapply Forall_impl; [exact Hcells|]. intros h. unfold cell_is. by rewrite Hs2. }
  rewrite (M_bind_Ret _ _ _ _ _ Hh). exists w'. split_and!; [done| |by exists y].
  intros t' q. rewrite Hst. unfold state_at. by rewrite Hs2.
Qed.

(** C38: An instance is its principal: asking for one changes no state and leaves
    the context as it was; asking again for the same principal gives the same cells,
    which show its state (the default one if it has none: nothing is refused), and a
    change made through a handle is seen by every other instance of the principal
    and by no other principal or state type. *)
Theorem instances_by_principal d p w x :
  thread w = Some x -> storage_ok w -> NoDup (Derive.state_fields d).*1 ->
  exists i w', from_principal d p w = Ret (i, w') /\ principal i = p /\ ctx_ids w' = ctx_ids w /\
    storage_ok w' /\ (forall t q, state_at t q w' = state_at t q w) /\
    (exists w'', from_principal d p w' = Ret (i, w'')) /\
    forall n t, (n, t) ∈ Derive.state_fields d ->
      exists l, handle_of i n = Some l /\ IcStorage.borrow l (states w' t) = state_at t p w /\
        forall f, state_at t p (write_state t f l w') = f <$> state_at t p w /\
          forall t' q, t' <> t \/ q <> p ->
            state_at t' q (write_state t f l w') = state_at t' q w.
Proof.
  intros Hx Hw Hnd.
  destruct (from_principal_spec d p w x Hx) as (hs & w' & y & Hf & Hg & Hhs & Hc & Hy & Hctx & _).
  pose proof (gets_ok _ _ Hg Hw) as Hw'.
  exists (mk_instance p hs), w'. split_and!; [done..| | |].
  - intros. by apply (gets_state _ _ Hg).
  - unfold from_principal. erewrite M_bind_Ret by (by apply ic_id_spec).
    erewrite M_bind_Ret by (by apply update_context_spec). rewrite <- Hhs.
    destruct (get_handles_again hs (set_thread (Some (on_core_of (Core.update_id p)
      (on_core_of (Core.touch called_id) y))) w') _ p eq_refl eq_refl Hc) as (w2 & Hh & _ & z & Hz).
    erewrite M_bind_Ret by exact Hh. erewrite M_bind_Ret by (by apply update_context_spec).
    by eexists.
  - intros n t Hin. rewrite <- Hhs in Hin, Hnd.
    apply list_elem_of_fmap in Hin as ([[n' t'] l] & [= <- <-] & Hin). exists l.
    assert (handle_of (mk_instance p hs) n = Some l) as Hl.
    { unfold handle_of. cbn. clear -Hin Hnd. induction hs as [|[[n' t'] l'] hs IH].
      { by apply not_elem_of_nil in Hin. }
      cbn in Hnd |- *. apply NoDup_cons in Hnd as [Hn Hnd]. case_bool_decide as He.
      - apply elem_of_cons in Hin as [[= _ _ ->]|Hin]; [done|]. exfalso. apply Hn.
        cbn in He. subst n'. apply list_elem_of_fmap. exists (n, t). split; [done|].
        apply list_elem_of_fmap. by exists (n, t, l).
      - apply elem_of_cons in Hin as [[= -> _ _]|Hin]; [by cbn in He|]. by apply IH. }
    rewrite Forall_forall in Hc. specialize (Hc _ Hin). cbn in Hc.
    split; [done|]. destruct (write_state_spec t p l id w' Hw' Hc) as (_ & Hb & _).
    rewrite Hb. split; [by apply (gets_state _ _ Hg)|]. intros f.
    destruct (write_state_spec t p l f w' Hw' Hc) as (_ & _ & Hfp & Hne).
    rewrite Hfp, (gets_state _ _ Hg) by done. split; [done|]. intros t' q Ht.
    rewrite Hne by done. by apply (gets_state _ _ Hg).
Qed.

(** *** Fresh instances *)

Fixpoint init_many (n : nat) (nanos : Z) (d : Derive.Derived) : M (list Instance_) :=
  match n with
  | O => mret []
  | S n => i ← init_instance nanos d; l ← init_many n nanos d; mret (i :: l)
  end.

(** The first id fits: nineteen decimal digits are less than 64 bits. *)
Lemma initial_id_ok nanos : 0 <= nanos -> initial_id nanos = Ret (nanos mod 10 ^ 19).
Proof.
  intros Hn. unfold initial_id. rewrite u_rem_ok by done. cbn [mbind outcome_bind].
  pose proof (Z.mod_pos_bound nanos (10 ^ 19) eq_refl).
  by rewrite (proj2 (in_range_true 64 _)) by plia.
Qed.

(** The counter of a struct. *)
Definition counter (nanos : Z) (name : string) (w : World) : Z :=
  match next_ids w !! name with Some n => n | None => nanos mod 10 ^ 19 end.

Lemma init_instance_spec nanos d w x :
  0 <= nanos -> thread w = Some x ->
  exists hs w' y, init_instance nanos d w =
      Ret (mk_instance (to_le_bytes 8 (counter nanos (Derive.struct_name d) w)) hs, w') /\
    thread w' = Some y /\
    counter nanos (Derive.struct_name d) w' =
      wrapping_add 64 (counter nanos (Derive.struct_name d) w) 1 /\
    (storage_ok w -> storage_ok w' /\ forall t p, state_at t p w' = state_at t p w).
Proof.
  intros Hn Hx. unfold init_instance. set (n := counter nanos (Derive.struct_name d) w).
  rewrite (M_bind_Ret _ _ w (to_le_bytes 8 n)
    (set_next_ids (<[Derive.struct_name d := wrapping_add 64 n 1]> (next_ids w)) w)).
  2: { unfold next_id, n, counter. destruct (next_ids w !! _); [done|].
       by rewrite initial_id_ok. }
  destruct (from_principal_spec d (to_le_bytes 8 n)
    (set_next_ids (<[Derive.struct_name d := wrapping_add 64 n 1]> (next_ids w)) w) x Hx)
    as (hs & w' & y & Hf & Hg & _ & _ & Hy & _).
  exists hs, w', y. split_and!; [done..| |].
  - unfold counter. rewrite (gets_ids _ _ Hg). cbn. by rewrite lookup_insert_eq.
  - intros Hw. split; [by apply (gets_ok _ _ Hg)|]. intros t p. by rewrite (gets_state _ _ Hg).
Qed.

(** [init_instance] gives every instance of a struct a principal of its own, up to
    2^64 of them, and no call fails or changes a state: a new instance starts with
    the state its principal has, the default one unless it was asked for before. *)
Theorem init_instances_separate n nanos d w x :
  0 <= nanos -> thread w = Some x -> storage_ok w ->
  0 <= counter nanos (Derive.struct_name d) w < 2 ^ 64 -> Z.of_nat n <= 2 ^ 64 ->
  exists l w', init_many n nanos d w = Ret (l, w') /\ length l = n /\ NoDup (map principal l) /\
    storage_ok w' /\ forall t p, state_at t p w' = state_at t p w.
Proof.
  intros Hn Hx Hw Hc Hn64. set (c := counter nanos (Derive.struct_name d) w) in *.
  assert (exists l w', init_many n nanos d w = Ret (l, w') /\ length l = n /\
    map principal l = map (fun k => to_le_bytes 8 ((c + Z.of_nat k) mod 2 ^ 64)) (seq 0 n) /\
    storage_ok w' /\ forall t p, state_at t p w' = state_at t p w)
    as (l & w' & Hl & Hlen & Hp & Hok & Hst).
  { clear Hn64. unfold c in *. clear c. revert w x Hx Hw Hc. induction n as [|n IH]; intros w x Hx Hw Hc.
    { by exists [], w. }
    destruct (init_instance_spec nanos d w x Hn Hx) as (hs & w1 & y & Hi & Hy & Hc1 & Hst1).
    destruct (Hst1 Hw) as [Hw1 Hst1'].
    destruct (IH w1 y Hy Hw1) as (l & w' & Hl & Hlen & Hp & Hok & Hst).
    { rewrite Hc1. unfold wrapping_add. by apply Z.mod_pos_bound. }
    eexists _, w'. cbn [init_many]. erewrite M_bind_Ret by exact Hi.
    erewrite M_bind_Ret by exact Hl. split_and!; [reflexivity|by cbn; rewrite Hlen| |done|].
    - cbn [map seq principal]. rewrite Hp. f_equal.
      + by rewrite Z.add_0_r, Z.mod_small.
      + rewrite <- seq_shift, map_map. apply map_ext. intros k. f_equal. rewrite Hc1.
        unfold wrapping_add. rewrite Zplus_mod_idemp_l. f_equal. lia.
    - intros t p. by rewrite Hst, Hst1'. }
  exists l, w'. split_and!; try done. rewrite Hp.
  assert (Forall (fun k => (k < n)%nat) (seq 0 n)) as Hseq by (apply Forall_seq; lia).
  pose proof (NoDup_seq 0 n) as Hnd. revert Hnd Hseq. generalize (seq 0 n) as ks.
  induction 1 as [|k ks Hk Hnd IH]; intros Hlt; cbn [map]; constructor.
  - apply Forall_cons in Hlt as [Hkn Hlt]. intros Hin.
    apply list_elem_of_fmap in Hin as (k' & He & Hin).
    rewrite Forall_forall in Hlt. specialize (Hlt _ Hin).
    apply (f_equal from_le_bytes) in He.
    rewrite !from_to_le_bytes in He by (apply Z.mod_pos_bound; done).
    assert (k = k'); [|by subst].
    apply Nat2Z.inj. revert He. pow2. intros He.
    pose proof (Z.div_mod (c + Z.of_nat k) 18446744073709551616).
    pose proof (Z.div_mod (c + Z.of_nat k') 18446744073709551616). nia.
  - apply IH. by apply Forall_cons in Hlt as [_ Hlt].
Qed.
End instances.

(** ** Calls *)

Section call_trees.
Context `{Bodies}.

(** What a canister's code does as far as the context is concerned: print what it sees
    of it, call or notify another canister's method, call a virtual canister, or make
    an instance.  The body of a method is again such code, and so is the future that a
    method with an [AsyncReturn] type returns, which its caller awaits. *)
Inductive Action :=
  | Observe
  | Call (callee : Principal) (e : Api.Expansion) (body returned : list Action)
  | Notify (callee : Principal) (e : Api.Expansion) (body : list Action)
  | VirtualCall (p : Principal) (method : string) (encoded_args : result (list Z) string)
  | FromPrincipal (d : Derive.Derived) (p : Principal).

(** What is observed: [ic::id()] and [ic::caller()]. *)
Definition Observed : Type := list (Principal * Principal).

Definition println (id caller : Principal) : M unit := fun w => Ret (tt, print [(id, caller)] w).

Definition observe : M unit :=
  id ← on_thread ic_id; caller ← on_thread ic_caller; println id caller.

Definition run_list (f : Action -> M unit) : list Action -> M unit :=
  fix go l :=
    match l with
    | [] => mret tt
    | a :: l => _ ← f a; go l
    end.

Definition returns_future (e : Api.Expansion) : bool :=
  match Api.is_async_return_type (Api.output (Api.method e)) with Ret b => b | Panic => false end.

Fixpoint run_action (a : Action) : M unit :=
  match a with
  | Observe => observe
  | Call callee e body returned =>
      r ← canister_call callee e
        (_ ← run_list run_action body;
         mret (if returns_future e then run_list run_action returned else mret tt));
      match r with Ok future => future | Err _ => mret tt end
  | Notify callee e body => _ ← canister_notify callee e (run_list run_action body); mret tt
  | VirtualCall p method encoded =>
      _ ← virtual_canister_call p method encoded Ok; mret tt
  | FromPrincipal d p => _ ← from_principal d p; mret tt
  end.

(** What should be observed by the canister [id] that [caller] called. *)
Fixpoint expected (id caller : Principal) (a : Action) : Observed :=
  match a with
  | Observe => [(id, caller)]
  | Call callee e body returned =>
      flat_map (expected callee id) body ++
      (if returns_future e then flat_map (expected id caller) returned else [])
  | Notify callee e body =>
      if Api.asyncness (Api.method e) then [] else flat_map (expected callee id) body
  | _ => []
  end.

Lemma call_method_run {A} e (body : M A) w :
  (future ← internal_method e body; future) w = '(a, w) ← body w; Ret (Ok a, w).
Proof.
  unfold internal_method, call_method. destruct (Api.asyncness _).
  - unfold mbind, M_bind, mret, M_ret, mbind. cbn. by destruct (body w) as [[a w']|].
  - unfold mbind, M_bind, mret, M_ret, mbind. cbn. by destruct (body w) as [[a w']|].
Qed.

(** A synchronous method is run by a notification, the future of an asynchronous one
    is dropped. *)
Lemma notify_method_run {A} e (body : M A) w :
  internal_method_notify e body w =
  if Api.asyncness (Api.method e) then Ret (Ok tt, w) else '(_, w) ← body w; Ret (Ok tt, w).
Proof.
  unfold internal_method_notify, call_method. destruct (Api.asyncness _); [done|].
  unfold mbind, M_bind, mret, M_ret, mbind. cbn. by destruct (body w) as [[a w']|].
Qed.

(** Code that returns, leaves the context as it found it and prints [seen]. *)
Definition returns_home {A} (m : M A) (seen : Principal -> Principal -> Observed)
    (o : A -> Prop) : Prop :=
  forall w id caller, ready w -> ctx_ids w = Some (id, caller) ->
    exists a w', m w = Ret (a, w') /\ ready w' /\ ctx_ids w' = Some (id, caller) /\
      printed w' = printed w ++ seen id caller /\ o a.

(** Code that returns and keeps the context usable. *)
Definition stays_ready {A} (m : M A) : Prop :=
  forall w, ready w -> exists a w', m w = Ret (a, w') /\ ready w'.

Lemma ready_ids w id caller :
  ready w -> ctx_ids w = Some (id, caller) ->
  exists x, thread w = Some x /\ Core.is_reply_callback_mode (core x) = false /\
    Core.id (core x) = id /\ Core.caller (core x) = caller.
Proof.
  intros (x & Hx & Hr) Hc. unfold ctx_ids in Hc. rewrite Hx in Hc. cbn in Hc.
  injection Hc as <- <-. by exists x.
Qed.

(** Whatever the callee does to the context, the caller gets its own back. *)
Lemma as_callee_home {A} callee (body : M A) seen (o : A -> Prop) :
  (forall w id, ready w -> ctx_ids w = Some (callee, id) ->
     exists a w', body w = Ret (a, w') /\ ready w' /\ printed w' = printed w ++ seen id /\ o a) ->
  returns_home (as_callee callee body) (fun id _ => seen id) o.
Proof.
  intros Hbody w id caller Hw Hids.
  destruct (ready_ids w id caller Hw Hids) as (x & Hx & Hr & Hid & Hca).
  rewrite (as_callee_spec callee body w x Hx Hr).
  destruct (Hbody (set_thread (Some (enter callee x)) w) id)
    as (a & w' & Hb & (y & Hy & Hry) & Hp & Ho).
  - by exists (enter callee x).
  - unfold ctx_ids. cbn. by rewrite Hid.
  - rewrite Hb. cbn [mbind outcome_bind]. rewrite Hy. eexists a, _.
    split_and!; [reflexivity| | |done|done].
    + by exists (leave (Core.caller (core x)) (Core.id (core x)) y).
    + unfold ctx_ids. cbn. by rewrite Hid, Hca.
Qed.

Lemma observe_home : returns_home observe (fun id caller => [(id, caller)]) (fun _ => True).
Proof.
  intros w id caller Hw Hids. destruct (ready_ids w id caller Hw Hids) as (x & Hx & Hr & Hid & Hca).
  unfold observe. erewrite M_bind_Ret by (by apply ic_id_spec).
  erewrite M_bind_Ret by (by apply ic_caller_spec). eexists _, _. split; [reflexivity|].
  split_and!; [by eexists|unfold ctx_ids; cbn; by rewrite Hid, Hca|by subst|done].
Qed.

Lemma from_principal_home d p :
  returns_home (from_principal d p) (fun _ _ => []) (fun _ => True).
Proof.
  intros w id caller Hw Hids. destruct (ready_ids w id caller Hw Hids) as (x & Hx & Hr & _).
  destruct (from_principal_spec d p w x Hx) as (hs & w' & y & Hf & Hg & _ & _ & Hy & Hc & Hm).
  eexists _, w'. rewrite app_nil_r. split_and!; [exact Hf| |by rewrite Hc|apply Hg|done].
  exists y. by rewrite Hm.
Qed.

Lemma returns_home_bind {A B} (m : M A) (f : A -> M B) seen seen' o o' :
  returns_home m seen o -> (forall a, o a -> returns_home (f a) seen' o') ->
  returns_home (a ← m; f a) (fun id caller => seen id caller ++ seen' id caller) o'.
Proof.
  intros Hm Hf w id caller Hw Hids.
  destruct (Hm w id caller Hw Hids) as (a & w1 & Hr & Hw1 & Hids1 & Hp & Ho).
  destruct (Hf a Ho w1 id caller Hw1 Hids1) as (b & w2 & Hr2 & Hw2 & Hids2 & Hp2 & Ho2).
  erewrite M_bind_Ret by exact Hr. exists b, w2. by rewrite Hp2, Hp, app_assoc.
Qed.

Lemma returns_home_ret {A} (a : A) (o : A -> Prop) :
  o a -> returns_home (mret a) (fun _ _ => []) o.
Proof. intros Ho w id caller ? ?. exists a, w. by rewrite app_nil_r. Qed.

Lemma returns_home_seen {A} (m : M A) seen seen' o :
  (forall id caller, seen id caller = seen' id caller) -> returns_home m seen o ->
  returns_home m seen' o.
Proof. intros Hs Hm w id caller Hw Hids. rewrite <- Hs. by apply Hm. Qed.

(** The last step of an action, whose result is dropped. *)
Lemma returns_home_drop {A} (m : M A) seen o :
  returns_home m seen o -> returns_home (_ ← m; mret tt) seen (fun _ => True).
Proof.
  intros Hm. eapply returns_home_seen; [|eapply returns_home_bind; [exact Hm|]].
  - intros id caller. apply app_nil_r.
  - intros a _. by apply returns_home_ret.
Qed.

Context (responders_ready : forall r args, stays_ready (run_responder r args)).

Lemma call_virtual_responder_ready p method args : stays_ready (call_virtual_responder p method args).
Proof.
  intros w Hw. unfold call_virtual_responder. destruct (responders w !! (p, method)) as [r|].
  - destruct (responders_ready r args (set_borrowed (S (borrowed w)) w) Hw)
      as (res & w' & -> & Hw'). cbn. by eexists _, _.
  - by eexists _, _.
Qed.

Context (responders_quiet : forall r args w res w',
  run_responder r args w = Ret (res, w') -> printed w' = printed w).

Lemma virtual_call_home p method encoded :
  returns_home (virtual_canister_call p method encoded Ok) (fun _ _ => []) (fun _ => True).
Proof.
  unfold virtual_canister_call. destruct encoded as [args|e]; [|by apply returns_home_ret].
  eapply (returns_home_bind _ _ (fun _ _ => []) (fun _ _ => []));
    [|intros res _; by apply returns_home_ret].
  apply (as_callee_home _ _ (fun _ => []) (fun _ => True)). intros w id Hw Hids.
  destruct (call_virtual_responder_ready p method args w Hw) as (res & w' & Hr & Hw').
  exists res, w'. rewrite app_nil_r. split_and!; [done..| |done].
  unfold call_virtual_responder in Hr. destruct (responders w !! (p, method)) as [r|].
  - apply outcome_bind_Ret in Hr as ([raw w1] & Hr & [= _ <-]). by apply responders_quiet in Hr.
  - by injection Hr as _ <-.
Qed.

Lemma run_action_home a : returns_home (run_action a) (fun id caller => expected id caller a) (fun _ => True).
Proof.
  revert a. fix IH 1. intros a.
  assert (forall body, returns_home (run_list run_action body)
    (fun id caller => flat_map (expected id caller) body) (fun _ => True)) as Hlist.
  { induction body as [|b body IHb]; [by apply returns_home_ret|].
    cbn [run_list flat_map]. eapply returns_home_bind; [apply IH|]. intros _ _. exact IHb. }
  destruct a as [|callee e body returned|callee e body|p method encoded|d p]; cbn [run_action expected].
  - exact observe_home.
  - set (future := if returns_future e then run_list run_action returned else mret tt).
    apply (returns_home_bind _ _ (fun id _ => flat_map (expected callee id) body)
      (fun id caller => if returns_future e then flat_map (expected id caller) returned else [])
      (fun r => r = Ok future)).
    + apply (as_callee_home _ _ (fun id => flat_map (expected callee id) body)).
      intros w id Hw Hids. rewrite call_method_run.
      destruct (Hlist body w callee id Hw Hids) as ([] & w' & Hr & Hw' & _ & Hp & _).
      erewrite M_bind_Ret by exact Hr. by eexists _, w'.
    + intros r ->. unfold future. destruct (returns_future e); [apply Hlist|by apply returns_home_ret].
  - eapply returns_home_drop, (as_callee_home _ _
      (fun id => if Api.asyncness (Api.method e) then [] else flat_map (expected callee id) body)
      (fun _ => True)).
    intros w id Hw Hids. rewrite notify_method_run.
    destruct (Api.asyncness _); [eexists _, w; by rewrite app_nil_r|].
    destruct (Hlist body w callee id Hw Hids) as (o & w' & Hr & Hw' & _ & Hp & _).
    rewrite Hr. by eexists _, w'.
  - eapply returns_home_drop, virtual_call_home.
  - eapply returns_home_drop, from_principal_home.
Qed.

(** C22: However canisters call each other, every method, called or notified, sees itself
    as [ic::id()] and the canister that called it as [ic::caller()], before and after the
    calls, notifications, virtual calls and instances it makes itself, and the test gets
    its context back.  The future of an async method that is notified never runs, and the
    future that a method with an [AsyncReturn] type returns runs as the canister that
    awaits it, not as its own.  None of this fails, if a context is injected and the
    registered responders return (and print nothing). *)
Theorem calls_see_their_caller actions w id caller :
  ready w -> ctx_ids w = Some (id, caller) ->
  exists w', run_list run_action actions w = Ret (tt, w') /\
    printed w' = printed w ++ flat_map (expected id caller) actions /\
    ready w' /\ ctx_ids w' = Some (id, caller).
Proof.
  revert w. induction actions as [|a actions IH]; intros w Hw Hids.
  { exists w. by rewrite app_nil_r. }
  destruct (run_action_home a w id caller Hw Hids) as (o & w1 & Ha & Hw1 & Hids1 & Hp & _).
  destruct (IH w1 Hw1 Hids1) as (w2 & Hr & Hp2 & Hw2 & Hids2). exists w2. cbn [run_list flat_map].
  erewrite M_bind_Ret by exact Ha. by rewrite Hp2, Hp, app_assoc.
Qed.
End call_trees.

(** ** Virtual calls *)

Section virtual_calls.
Context `{Bodies}.

(** What the caller makes of the bytes of a responder. *)
Definition decoded_reply {R} (decode : list Z -> result R string) (raw : CallResult (list Z)) :
    CallResult R :=
  match raw with
  | Err e => Err e
  | Ok bytes =>
      map_err (fun e => (Unknown, ("failed to deserialize return value: " ++ e)%string)) (decode bytes)
  end.

(** What a typed responder replies. *)
Definition encoded_reply (c : TypedClosure) (u : ret_ty c) : CallResult (list Z) :=
  map_err (fun e => (Unknown, ("failed to encode return value: " ++ e)%string)) (encode_ret c u).

(** The last responder registered for a method answers; while a responder runs, none
    can be registered. *)
Lemma register_spec p method r w :
  match borrowed w with
  | O => exists w', register p method r w = Ret (tt, w') /\ responders w' !! (p, method) = Some r /\
           forall k, k <> (p, method) -> responders w' !! k = responders w !! k
  | S _ => register p method r w = Panic
  end.
Proof.
  unfold register. destruct (borrowed w); [|done]. eexists. split; [done|]. cbn.
  split; [by rewrite lookup_insert_eq|]. intros k Hk. by rewrite lookup_insert_ne.
Qed.

(** C37: A virtual call fails before anything happens if its arguments cannot be
    encoded, with [DestinationInvalid] if no responder is registered for the method,
    and otherwise has the outcome of the responder, which runs as the called
    canister: the message of a failing one, what a raw one returns, or the result
    of a typed one on the decoded arguments, encoded and decoded again; each step
    that fails is reported as an error of its own.  The caller's context is
    restored in every case. *)
Theorem virtual_call_outcomes {R} p method encoded (decode : list Z -> result R string) w id caller :
  (forall r args, stays_ready (run_responder r args)) -> ready w ->
  ctx_ids w = Some (id, caller) ->
  exists res w', virtual_canister_call p method encoded decode w = Ret (res, w') /\
    ctx_ids w' = Some (id, caller) /\
    match encoded with
    | Err e => res = Err (Unknown, ("failed to serialize arguments: " ++ e)%string) /\ w' = w
    | Ok args =>
        match responders w !! (p, method) with
        | None => exists text, res = Err (DestinationInvalid, text)
        | Some (FailingResponder message) => res = Err (Unknown, message)
        | Some (RawResponder f) => exists w1 raw w2, ctx_ids w1 = Some (p, id) /\
            run_raw f args w1 = Ret (raw, w2) /\ res = decoded_reply decode raw
        | Some (VirtualResponder c) =>
            match decode_args c args with
            | Err e => res = Err (Unknown, ("Failed to decode args: " ++ e)%string)
            | Ok a => exists w1 u w2, ctx_ids w1 = Some (p, id) /\
                run_typed c a w1 = Ret (u, w2) /\ res = decoded_reply decode (encoded_reply c u)
            end
        end
    end.
Proof.
  intros Hresp Hw Hids. unfold virtual_canister_call.
  destruct encoded as [args|e]; [|by eexists _, w].
  destruct (ready_ids w id caller Hw Hids) as (x & Hx & Hr & Hid & Hca).
  set (w1 := set_thread (Some (enter p x)) w).
  assert (ready w1) as Hw1 by (by exists (enter p x)).
  assert (ctx_ids w1 = Some (p, id)) as Hids1 by (unfold ctx_ids; cbn; by rewrite Hid).
  destruct (call_virtual_responder_ready Hresp p method args w1 Hw1)
    as (raw & w2 & Hraw & y & Hy & _).
  assert (exists w', as_callee p (call_virtual_responder p method args) w = Ret (raw, w') /\
    ctx_ids w' = Some (id, caller)) as (w' & Ha & Hids').
  { rewrite (as_callee_spec p _ w x Hx Hr). fold w1. rewrite Hraw. cbn [mbind outcome_bind].
    rewrite Hy. eexists. split; [reflexivity|]. unfold ctx_ids. cbn. by rewrite Hid, Hca. }
  erewrite M_bind_Ret by exact Ha. exists (decoded_reply decode raw), w'.
  split_and!; [by destruct raw|done|]. unfold call_virtual_responder in Hraw.
  change (responders w1) with (responders w) in Hraw.
  destruct (responders w !! (p, method)) as [r|]; [|injection Hraw as <- _; by eexists].
  apply outcome_bind_Ret in Hraw as ([raw' w3] & Hraw & [= -> _]).
  destruct r as [f|c|message]; cbn [run_responder] in Hraw.
  - by exists (set_borrowed (S (borrowed w1)) w1), raw, w3.
  - destruct (decode_args c args) as [a|e]; [|by injection Hraw as <- _].
    apply outcome_bind_Ret in Hraw as ([u w4] & Hu & [= <- _]).
    by exists (set_borrowed (S (borrowed w1)) w1), u, w4.
  - by injection Hraw as <- _.
Qed.
End virtual_calls.

(** ** Upgrades *)

Section upgrade_laws.
Context `{Syn, !StateTypes, StoredTypes, Target, KitEnv, Closures, CandidLib}.
Hypothesis hosted : usize_bits = 64.
Variable unit_codec : Codec unit.

(** C23: The stable state survives an upgrade: what [pre_upgrade] saves of an instance,
    [post_upgrade] of any later version of the canister, in any world with that
    stable memory, puts into the state of its instance, upgraded through the
    versions of the type; no other state changes, and an upgrade function that
    panics makes it trap. *)
Theorem state_survives_upgrade (f f' : string * SynType) (v : Versioned (state f.2))
    (v' : Versioned (state f'.2)) g n i l w x pieces :
  memory_ok (stable_memory w) -> stable_memory w = [] \/ stored_version (stable_memory w) <= n ->
  codec_ok (codec_of unit_codec v) -> idl_serialize (codec_of unit_codec v) x = Ok pieces ->
  upgrades v v' g -> increasing v' -> version v = Ret n -> 0 <= n < 2 ^ 32 ->
  zlength (stable_memory w) + Testing.PAGE + pieces_growth pieces < umax 32 ->
  handle_of i f.1 = Some l -> IcStorage.borrow l (states w f.2) = Some x ->
  exists w1, pre_upgrade_inst unit_codec f v i w = Ret (tt, w1) /\ states w1 = states w /\
    forall w2 i' l', stable_memory w2 = stable_memory w1 -> storage_ok w2 ->
      handle_of i' f'.1 = Some l' -> cell_is f'.2 (principal i') l' w2 ->
      match g x with
      | Panic => post_upgrade_inst unit_codec (depth v') f' v' i' w2 = Some Panic
      | Ret y => exists w3, post_upgrade_inst unit_codec (depth v') f' v' i' w2 = Some (Ret (tt, w3)) /\
          state_at f'.2 (principal i') w3 = Some y /\
          (forall t q, t <> f'.2 \/ q <> principal i' -> state_at t q w3 = state_at t q w2)
      end.
Proof.
  intros Hm Hold Hcodec Hx Hup Hinc Hn Hn32 Hroom Hl Hb.
  destruct (write_then_read unit_codec hosted v v' g n x pieces _ Hm Hold Hcodec Hx Hup Hinc Hn Hn32 Hroom)
    as (mem & Hw & _ & _ & Hread).
  exists (set_memory mem w). split_and!; [|done|].
  - unfold pre_upgrade_inst. rewrite Hl. cbn [mbind outcome_bind expect]. rewrite Hb.
    cbn [mbind outcome_bind expect]. by rewrite Hw.
  - intros w2 i' l' Hmem Hok Hl' Hc. unfold post_upgrade_inst. rewrite Hmem. cbn [stable_memory set_memory].
    rewrite Hread. destruct (g x) as [y|]; [|done]. cbn. rewrite Hl'. cbn.
    eexists. split; [reflexivity|].
    destruct (write_state_spec f'.2 (principal i') l' (fun _ => y) w2 Hok Hc) as (_ & Hb2 & Hs & Hne).
    split; [|done]. destruct (lookup_lt_is_Some_2 (IcStorage.cells (states w2 f'.2)) l') as [z Hz].
    { by eapply (ic_cells _ (Hok _)). }
    change (state_at f'.2 (principal i') (write_state f'.2 (fun _ => y) l' w2) = Some y).
    rewrite Hs, <- Hb2. unfold IcStorage.borrow. by rewrite Hz.
Qed.

(** Outside of wasm the static [__pre_upgrade] makes an instance with an id of its
    own, so it saves that instance's state and not one of a canister of the test. *)
Lemma static_pre_upgrade_saves_default nanos d n t (v : Versioned (state t)) w x :
  0 <= nanos -> thread w = Some x -> storage_ok w -> Derive.state_fields d = [(n, t)] ->
  IcStorage.store (states w t) !! to_le_bytes 8 (counter nanos (Derive.struct_name d) w) = None ->
  exists i w1, init_instance nanos d w = Ret (i, w1) /\ (forall t p, state_at t p w1 = state_at t p w) /\
    pre_upgrade unit_codec nanos d (n, t) v w = pre_upgrade_inst unit_codec (n, t) v i w1 /\
    state_at t (principal i) w1 = Some (default_state t).
Proof.
  intros Hn Hx Hw Hd Hnew.
  destruct (init_instance_spec nanos d w x Hn Hx) as (hs & w1 & y & Hi & _ & _ & Hst).
  destruct (Hst Hw) as [_ Hst']. eexists _, w1. split_and!; [exact Hi|exact Hst'| |].
  - unfold pre_upgrade. by erewrite M_bind_Ret by exact Hi.
  - rewrite Hst'. unfold state_at, state_of. cbn [principal].
    match goal with |- context [match ?e with _ => _ end] => assert (e = None) as -> by exact Hnew end.
    done.
Qed.
End upgrade_laws.

(** ** Concrete runs *)

#[local] Existing Instances x64_debug two_types test_env text_syn test_candid.

(** Every state is a number. *)
Definition number_states : StateTypes := {| state _ := Z; default_state _ := 0 |}.
#[local] Existing Instance number_states.

Definition byte_closures : Closures := {|
  RawClosure := unit;
  TypedClosure := unit;
  arg_ty _ := Z;
  ret_ty _ := Z;
  decode_args _ bs := match bs with [x] => Ok x | _ => Err "magic"%string end;
  encode_ret _ x := Ok [x];
|}.
#[local] Existing Instance byte_closures.

Definition byte_bodies : Bodies := {|
  run_raw _ bs w := Ret (Ok bs, w);
  run_typed _ x w := Ret (x + 1, w);
  not_registered _ _ _ := "not registered"%string;
|}.
#[local] Existing Instance byte_bodies.

Definition test_world : World :=
  mk_world (Some new) (fun _ => IcStorage.initial) [] ∅ 0 ∅ [].

Lemma test_world_ok : storage_ok test_world.
Proof. intros t. apply initial_ok. Qed.

Lemma test_world_ready : ready test_world.
Proof. by eexists. Qed.

Lemma test_responders_ready r args : stays_ready (run_responder r args).
Proof.
  intros w Hw. destruct r as [f|c|m]; cbn; [by eexists _, w| |by eexists _, w].
  destruct args as [|b [|? ?]]; by eexists _, w.
Qed.

Definition state_ty : @SynType text_syn := "State"%string.
Definition stable_field : string * @SynType text_syn := ("state"%string, state_ty).

Definition plus_five : @state _ number_states state_ty -> @state _ number_states state_ty :=
  fun x : Z => x + 5.

Definition counter_struct : Derive.Derived :=
  Derive.mk_derived "Counter" "principal" [stable_field] [] (Some stable_field).

Definition method_expansion (is_async : bool) : Api.Expansion :=
  Api.mk_expansion false (Api.mk_sig "method" is_async [] [self_arg] Api.RDefault) None
    "__method" "___method".

Lemma instances_by_principal_witness :
  exists i w' l, from_principal counter_struct [7] test_world = Ret (i, w') /\
    handle_of i "state" = Some l /\
    state_at state_ty [7]
      (write_state state_ty plus_five l w') = Some 5.
Proof.
  destruct (instances_by_principal counter_struct [7] test_world new eq_refl test_world_ok
    ltac:(cbn; apply NoDup_singleton)) as (i & w' & Hf & _ & _ & _ & _ & _ & Hh).
  destruct (Hh "state"%string state_ty) as (l & Hl & _ & Hw); [by left|].
  exists i, w', l. split_and!; [exact Hf|exact Hl|].
  exact (proj1 (Hw plus_five)).
Defined.

Lemma init_instances_separate_witness :
  exists l w', init_many 2 5 counter_struct test_world = Ret (l, w') /\ NoDup (map principal l).
Proof.
  destruct (init_instances_separate 2 5 counter_struct test_world new ltac:(lia) eq_refl test_world_ok
    ltac:(by vm_compute) ltac:(by vm_compute)) as (l & w' & Hl & _ & Hnd & _).
  exists l, w'. split; [exact Hl|exact Hnd].
Defined.

Lemma test_responders_quiet r args w res w' :
  run_responder r args w = Ret (res, w') -> printed w' = printed w.
Proof.
  destruct r as [f|c|m]; cbn; [by intros [= _ <-]| |by intros [= _ <-]].
  by destruct args as [|b [|? ?]]; intros [= _ <-].
Qed.

Definition returning_expansion : Api.Expansion :=
  Api.mk_expansion false (Api.mk_sig "method" false [] [self_arg]
    (Api.RType "AsyncReturn<Balance>"%string)) None "__method" "___method".

(** The canister [7] calls [8], which notifies [5], and a method of [8] returns a future. *)
Definition nested_calls : list Action :=
  [Call [7] (method_expansion true)
     [Observe; FromPrincipal counter_struct [9];
      Call [8] (method_expansion false) [Observe; Notify [5] (method_expansion false) [Observe]] [];
      Notify [5] (method_expansion true) [Observe];
      Call [8] returning_expansion [Observe] [Observe]] [];
   VirtualCall [6] "missing" (Ok []); Observe].

Lemma calls_see_their_caller_witness :
  exists w', run_list run_action nested_calls test_world = Ret (tt, w') /\
    printed w' = [([7], [1]); ([8], [7]); ([5], [8]); ([8], [7]); ([7], [1]); ([1], [4])].
Proof.
  destruct (calls_see_their_caller test_responders_ready test_responders_quiet nested_calls
    test_world [1] [4] test_world_ready eq_refl) as (w' & Hr & Hp & _).
  exists w'. split; [exact Hr|exact Hp].
Defined.

Definition echo_world : World :=
  set_responders {[ ([6], "next"%string) := VirtualResponder (tt : TypedClosure) ]} test_world.

Lemma virtual_call_outcomes_witness :
  exists w', virtual_canister_call [6] "next" (Ok [41])
    (fun bs => match bs with [x] => Ok x | _ => Err "magic"%string end) echo_world = Ret (Ok 42, w').
Proof.
  destruct (virtual_call_outcomes [6] "next" (Ok [41])
    (fun bs => match bs with [x] => Ok x | _ => Err "magic"%string end) echo_world [1] [4]
    test_responders_ready ltac:(by eexists) eq_refl) as (res & w' & Hr & _ & Ho).
  exists w'. etransitivity; [exact Hr|]. do 2 f_equal.
  destruct Ho as (w1 & u & w2 & _ & [= <- _] & ->). reflexivity.
Defined.

Definition old_instance : Instance_ := mk_instance [7] [(stable_field, 0%nat)].

(** A canister whose state is 7, and the one upgraded to. *)
Definition seven_world : World :=
  mk_world (Some new) (fun _ => IcStorage.mk {[ [7] := 0%nat ]} [7]) [] ∅ 0 ∅ [].

Lemma seven_world_ok m : storage_ok (set_memory m seven_world).
Proof.
  intros t. split; cbn; intros *; rewrite !lookup_singleton_Some.
  - intros [_ <-]. lia.
  - by intros [<- _] [<- _].
Qed.

Definition version_1 : Versioned (@state _ number_states stable_field.2) := first_version.
Definition version_2 : Versioned (@state _ number_states stable_field.2) := second_version.

Definition upgrade_to_2 : @state _ number_states state_ty -> outcome (@state _ number_states state_ty) :=
  fun x : Z => y ← (Ret x : outcome Z); Ret (y + 5).

Lemma state_survives_upgrade_witness :
  exists w1 w3, pre_upgrade_inst empty_codec stable_field version_1
      old_instance seven_world = Ret (tt, w1) /\
    post_upgrade_inst empty_codec 3 stable_field version_2 old_instance
      (set_memory (stable_memory w1) seven_world) = Some (Ret (tt, w3)) /\
    state_at state_ty [7] w3 = Some 12.
Proof.
  destruct (state_survives_upgrade host_64 empty_codec stable_field stable_field
    version_1 version_2 upgrade_to_2 1 old_instance 0 seven_world 7
    [[68; 73; 68; 76]; [7]]) as (w1 & Hp & _ & Hq).
  - split; [by exists 0|done].
  - by left.
  - exact number_codec_ok.
  - reflexivity.
  - exact (upgrades_next _ _ _ _ _ _ (upgrades_refl _)).
  - split; [split; [done|]|]; do 2 eexists; split_and!; try reflexivity; lia.
  - reflexivity.
  - lia.
  - by vm_compute.
  - reflexivity.
  - reflexivity.
  - destruct (Hq (set_memory (stable_memory w1) seven_world) old_instance 0%nat eq_refl
      (seven_world_ok _) eq_refl) as (w3 & Hr & Hs & _); [reflexivity|].
    exists w1, w3. split_and!; [exact Hp|exact Hr|exact Hs].
Defined.
