(* ===== verification/Principals.v ===== *)
(** * Principals that are called

    [ic-helpers/src/principal/{ledger,management}.rs] and [types.rs]: methods of a
    [Principal] that call the ledger or the management canister, outside of wasm,
    where [virtual_canister_call!] asks the responders of a world of [Canister] and
    drops the cycles it is given.

    Candid, the types of [ic_cdk] and [ic_ledger_types] and the curve library are
    parameters.  A responder that [serves] a method is one whose encodings candid
    decodes again; every method then hands it its arguments and returns its reply. *)

From stdpp Require Import pretty.
From S2P Require Import Prelude Kit Storage CanisterMacros Canister.
Local Open Scope Z_scope.

(** [candid::encode_args] of a tuple and [candid::decode_args] of a type; errors by
    their text. *)
Class ArgumentEncoder (A : Type) := encode_args : A -> result (list Z) string.
Class ArgumentDecoder (R : Type) := decode_reply : list Z -> result R string.

(** ** Public keys *)

Module Pubkey.

Record t := mk { bytes : list Z }.

Definition new (pubkey : list Z) : t := mk pubkey.
Definition empty : t := mk [].
Definition default : t := empty.
Definition as_bytes (k : t) : list Z := bytes k.
End Pubkey.

(** The curve library: parsing a key, and exporting it. *)
Class Curve := {
  CurveKey : Type;
  from_sec1_bytes : list Z -> option CurveKey;
  to_public_key_der : CurveKey -> option (list Z);
}.

Definition der_encode_pub_key `{Curve} (pk : Pubkey.t) : outcome (list Z) :=
  public_key ← expect (from_sec1_bytes (Pubkey.as_bytes pk));
  expect (to_public_key_der public_key).

(** ** The management canister *)

Module Management.

(** [Nat]s are unbounded. *)
Record CanisterSettings := mk_settings {
  controllers : option (list Principal);
  compute_allocation : option N;
  memory_allocation : option N;
  freezing_threshold : option N;
}.

Definition CanisterSettings_default : CanisterSettings := mk_settings None None None None.

Record DefiniteCanisterSettings := mk_definite {
  d_controllers : list Principal;
  d_compute_allocation : N;
  d_memory_allocation : N;
  d_freezing_threshold : N;
}.

Definition DefiniteCanisterSettings_default : DefiniteCanisterSettings := mk_definite [] 0 0 0.

Inductive InstallCodeMode := Install | Reinstall | Upgrade.
Inductive CanisterStatusKind := Running | Stopping | Stopped.

Record CanisterStatus := mk_status {
  status_kind : CanisterStatusKind;
  status_settings : DefiniteCanisterSettings;
  module_hash : option (list Z);
  memory_size : N;
  status_cycles : N;
}.

Record CreateCanisterInput := mk_create { create_settings : option CanisterSettings }.
Record CanisterIDArg := mk_id_arg { canister_id : Principal }.
Record UpdateSettingsInput := mk_update {
  update_canister_id : Principal;
  new_settings : CanisterSettings;
}.
Record InstallCodeInput := mk_install {
  mode : InstallCodeMode;
  install_canister_id : Principal;
  wasm_module : list Z;
  arg : list Z;
}.
Record ProvisionalCreateCanisterWithCyclesInput := mk_provisional_create {
  create_amount : option N;
  provisional_settings : option CanisterSettings;
}.
Record ProvisionalTopUpCanisterInput := mk_top_up {
  top_up_canister_id : Principal;
  top_up_amount : N;
}.

(** The requests of [ic_cdk] for the threshold keys, as they are built here. *)
Inductive EcdsaCurve := Secp256k1.
Record EcdsaKeyId := mk_key_id { curve : EcdsaCurve; key_name : string }.
Record EcdsaPublicKeyArgument := mk_public_key_arg {
  key_canister_id : option Principal;
  key_derivation_path : list (list Z);
  public_key_id : EcdsaKeyId;
}.
Record SignWithEcdsaArgument := mk_sign_arg {
  sign_key_id : EcdsaKeyId;
  message_hash : list Z;
  sign_derivation_path : list (list Z);
}.

(** What is defined elsewhere: the principal of the management canister, the replies
    of [ic_cdk], and candid for the types that are sent and received. *)
Class Interface := {
  management_canister : Principal;
  EcdsaPublicKeyResponse : Type;
  public_key : EcdsaPublicKeyResponse -> list Z;
  SignWithEcdsaResponse : Type;
  #[global] encode_unit_args :: ArgumentEncoder unit;
  #[global] encode_create :: ArgumentEncoder CreateCanisterInput;
  #[global] encode_provisional_create :: ArgumentEncoder ProvisionalCreateCanisterWithCyclesInput;
  #[global] encode_public_key :: ArgumentEncoder EcdsaPublicKeyArgument;
  #[global] encode_sign :: ArgumentEncoder SignWithEcdsaArgument;
  #[global] encode_update :: ArgumentEncoder UpdateSettingsInput;
  #[global] encode_install :: ArgumentEncoder InstallCodeInput;
  #[global] encode_id_arg :: ArgumentEncoder CanisterIDArg;
  #[global] encode_top_up :: ArgumentEncoder ProvisionalTopUpCanisterInput;
  #[global] decode_unit :: ArgumentDecoder unit;
  #[global] decode_id_arg :: ArgumentDecoder CanisterIDArg;
  #[global] decode_public_key :: ArgumentDecoder EcdsaPublicKeyResponse;
  #[global] decode_sign :: ArgumentDecoder SignWithEcdsaResponse;
  #[global] decode_status :: ArgumentDecoder CanisterStatus;
  #[global] decode_bytes :: ArgumentDecoder (list Z);
}.

Section calls.
Context `{Bodies, !Interface}.

Definition call {A R} `{!ArgumentEncoder A, !ArgumentDecoder R} (method : string) (args : A) :
    M (CallResult R) :=
  virtual_canister_call management_canister method (encode_args args) decode_reply.

Definition accept_cycles : M Z :=
  amount ← on_thread ic_msg_cycles_available;
  if decide (amount = 0) then mret 0 else on_thread (ic_msg_cycles_accept amount).

(** The [cycles] are not used outside of wasm. *)
Definition create (settings : option CanisterSettings) (cycles : Z) : M (CallResult Principal) :=
  res ← call "create_canister" (mk_create settings); mret (result_map canister_id res).

Definition provisional_create_with_cycles (amount : Z) (settings : option CanisterSettings) :
    M (CallResult Principal) :=
  res ← call "provisional_create_canister_with_cycles"
          (mk_provisional_create (Some (Z.to_N amount)) settings);
  mret (result_map canister_id res).

Definition get_ecdsa_pubkey (canister_id : option Principal) (derivation_path : list (list Z)) :
    M (CallResult Pubkey.t) :=
  res ← call "ecdsa_public_key"
          (mk_public_key_arg canister_id derivation_path (mk_key_id Secp256k1 ""));
  mret (result_map (fun res => Pubkey.new (public_key res)) res).

Definition sign_with_ecdsa (hash : list Z) (derivation_path : list (list Z)) :
    M (CallResult SignWithEcdsaResponse) :=
  call "sign_with_ecdsa" (mk_sign_arg (mk_key_id Secp256k1 "") hash derivation_path).

Definition update_settings (self : Principal) (settings : CanisterSettings) : M (CallResult unit) :=
  call "update_settings" (mk_update self settings).

(** [encode_args(arg).unwrap_or_default()] *)
Definition install_code {T} `{!ArgumentEncoder T} (self : Principal) (mode : InstallCodeMode)
    (wasm_module : list Z) (arg : T) : M (CallResult unit) :=
  call "install_code" (mk_install mode self wasm_module
    (match encode_args arg with Ok bytes => bytes | Err _ => [] end)).

Definition uninstall_code (self : Principal) : M (CallResult unit) :=
  call "uninstall_code" (mk_id_arg self).
Definition start (self : Principal) : M (CallResult unit) :=
  call "start_canister" (mk_id_arg self).
Definition stop (self : Principal) : M (CallResult unit) :=
  call "stop_canister" (mk_id_arg self).
Definition status (self : Principal) : M (CallResult CanisterStatus) :=
  call "canister_status" (mk_id_arg self).
Definition delete (self : Principal) : M (CallResult unit) :=
  call "delete_canister" (mk_id_arg self).
Definition deposit_cycles (self : Principal) : M (CallResult unit) :=
  call "deposit_cycles" (mk_id_arg self).
Definition raw_rand : M (CallResult (list Z)) := call "raw_rand" tt.
Definition provisional_top_up (self : Principal) (amount : N) : M (CallResult unit) :=
  call "provisional_top_up_canister" (mk_top_up self amount).
End calls.
End Management.

(** ** The ledger *)

Module Ledger.

(** [Subaccount], [AccountIdentifier] and [TransferError] of [ic_ledger_types], and
    the [Debug] text of the error. *)
Class Types := {
  Subaccount : Type;
  DEFAULT_SUBACCOUNT : Subaccount;
  AccountIdentifier : Type;
  AccountIdentifier_new : Principal -> Subaccount -> AccountIdentifier;
  TransferError : Type;
  TransferError_debug : TransferError -> string;
}.

(** [Tokens], by their [e8s]: a [u64]. *)
Definition DEFAULT_TRANSFER_FEE : Z := 10000.

Section types.
Context `{Types}.

Record BinaryAccountBalanceArgs := mk_balance_args { account : AccountIdentifier }.

Record TransferArgs := mk_transfer {
  memo : Z;
  amount : Z;
  fee : Z;
  from_subaccount : option Subaccount;
  to : AccountIdentifier;
  created_at_time : option Z;
}.
End types.

Class Interface `{Types} := {
  #[global] encode_balance_args :: ArgumentEncoder BinaryAccountBalanceArgs;
  #[global] encode_transfer :: ArgumentEncoder TransferArgs;
  #[global] decode_tokens :: ArgumentDecoder Z;
  #[global] decode_transfer :: ArgumentDecoder (result Z TransferError);
}.

Section calls.
Context `{Bodies, !Types, !Interface}.

Definition account_of (p : Principal) (sub_account : option Subaccount) : AccountIdentifier :=
  AccountIdentifier_new p (default DEFAULT_SUBACCOUNT sub_account).

Definition get_balance (self of_ : Principal) (sub_account : option Subaccount) :
    M (result Z string) :=
  res ← virtual_canister_call self "account_balance"
          (encode_args (mk_balance_args (account_of of_ sub_account))) decode_reply;
  mret (map_err snd res : result Z string).

Definition below_fee (amount : Z) : string :=
  ("cannot transfer tokens: amount '" ++ pretty amount ++ "' is less then the fee '" ++
   pretty DEFAULT_TRANSFER_FEE ++ "'")%string.

Definition transfer (self to : Principal) (amount : Z)
    (from_subaccount to_subaccount : option Subaccount) : M (result Z string) := fun w =>
  if amount <? DEFAULT_TRANSFER_FEE then Ret (Err (below_fee amount), w)
  else
    rest ← u_sub 64 amount DEFAULT_TRANSFER_FEE;
    let args := mk_transfer 0 rest DEFAULT_TRANSFER_FEE from_subaccount
                  (account_of to to_subaccount) None in
    '(res, w) ← virtual_canister_call self "transfer" (encode_args args) decode_reply w;
    Ret (match res with
         | Err e => Err e.2
         | Ok reply => map_err TransferError_debug reply
         end, w).
End calls.
End Ledger.

(** ** Calls that are served *)

Section served.
Context `{Bodies}.

(** The closure [c] serves a method: candid gives it what was encoded, and gives its
    caller what it replied. *)
Definition serves {A R} `{!ArgumentEncoder A, !ArgumentDecoder R} (c : TypedClosure)
    (view : arg_ty c -> A) (reply : ret_ty c -> R) : Prop :=
  (forall a bs, encode_args a = Ok bs -> exists x, decode_args c bs = Ok x /\ view x = a) /\
  (forall u, exists bs, encode_ret c u = Ok bs /\ decode_reply bs = Ok (reply u)).

(** The world in which a responder of [p] runs, and the one its caller gets back. *)
Definition as_responder (p : Principal) (x : MockContext) (w : World) : World :=
  set_borrowed (S (borrowed w)) (set_thread (Some (enter p x)) w).

Definition after_reply (x y : MockContext) (w : World) : World :=
  set_thread (Some (leave (Core.caller (core x)) (Core.id (core x)) y))
    (set_borrowed (pred (borrowed w)) w).

(** One run of [c] as [p], called from the context [x]. *)
Definition respond {B} (p : Principal) (c : TypedClosure) (arg : arg_ty c) (f : ret_ty c -> B)
    (x : MockContext) (w : World) : outcome (B * World) :=
  '(u, w') ← run_typed c arg (as_responder p x w);
  match thread w' with
  | Some y => Ret (f u, after_reply x y w')
  | None => Panic
  end.

Lemma as_responder_ids p x w :
  ctx_ids (as_responder p x w) = Some (p, Core.id (core x)).
Proof. done. Qed.

Lemma remote_call {A R} `{!ArgumentEncoder A, !ArgumentDecoder R} p method (a : A) bs c view
    (reply : ret_ty c -> R) w x :
  thread w = Some x -> Core.is_reply_callback_mode (core x) = false -> serves c view reply ->
  responders w !! (p, method) = Some (VirtualResponder c) -> encode_args a = Ok bs ->
  exists arg, view arg = a /\
    virtual_canister_call p method (encode_args a) decode_reply w =
      respond p c arg (fun u => Ok (reply u)) x w.
Proof.
  intros Hx Hr [Harg Hreply] Hresp Hbs. destruct (Harg _ _ Hbs) as (arg & Hdec & Hview).
  exists arg. split; [done|]. rewrite Hbs. unfold virtual_canister_call, respond.
  unfold mbind at 1, M_bind at 1. rewrite (as_callee_spec p _ w x Hx Hr).
  unfold call_virtual_responder. cbn [responders set_thread]. rewrite Hresp.
  cbn [run_responder]. rewrite Hdec. unfold mbind at 4, M_bind at 1.
  change (set_borrowed _ (set_thread _ _)) with (as_responder p x w).
  destruct (run_typed c arg (as_responder p x w)) as [[u w']|]; [|done].
  destruct (Hreply u) as (rs & Henc & Hrep). cbn. rewrite Henc.
  destruct (thread w') as [y|]; cbn; [by rewrite Hrep|done].
Qed.
End served.

Section respond.
Context `{Bodies}.

Lemma respond_map {A B} p c arg (f : ret_ty c -> A) (g : A -> B) x w :
  ('(a, w') ← respond p c arg f x w; Ret (g a, w')) = respond p c arg (fun u => g (f u)) x w.
Proof.
  unfold respond. destruct (run_typed c arg _) as [[u w']|]; [|done]. cbn.
  by destruct (thread w').
Qed.

(** Arguments that cannot be encoded: nothing is called. *)
Lemma call_not_encoded {A R} `{!ArgumentEncoder A, !ArgumentDecoder R} p method (a : A) e w :
  encode_args a = Err e ->
  virtual_canister_call p method (encode_args a) (decode_reply (R:=R)) w =
    Ret (Err (Unknown, ("failed to serialize arguments: " ++ e)%string), w).
Proof. by intros ->. Qed.
End respond.

(** ** The ledger's methods *)

Section ledger.
Context `{Bodies, !Ledger.Types, !Ledger.Interface}.
Import Ledger.

(** The request of a transfer: what leaves the account, the fee included, is the
    amount that was asked for. *)
Definition request (to : Principal) (amount : Z) (from_sub to_sub : option Subaccount) :
    TransferArgs :=
  mk_transfer 0 (amount - DEFAULT_TRANSFER_FEE) DEFAULT_TRANSFER_FEE from_sub
    (account_of to to_sub) None.

(** A transfer debits exactly its amount: an amount below the fee is refused and
    nobody is called; otherwise the ledger runs once, called by the current
    canister, on a request whose amount and fee add up to the amount asked for, to
    the account of the recipient, and its block or the text of its error is the
    result.  A request that cannot be encoded is not sent. *)
Theorem ledger_transfer_debits self to amount from_sub to_sub c view reply w x :
  0 <= amount < 2 ^ 64 -> thread w = Some x -> Core.is_reply_callback_mode (core x) = false ->
  serves c view reply -> responders w !! (self, "transfer"%string) = Some (VirtualResponder c) ->
  let r := request to amount from_sub to_sub in
  if decide (amount < DEFAULT_TRANSFER_FEE) then
    transfer self to amount from_sub to_sub w = Ret (Err (below_fee amount), w)
  else
    Ledger.amount r + fee r = amount /\ 0 <= Ledger.amount r /\
    match encode_args r with
    | Err e => transfer self to amount from_sub to_sub w =
                 Ret (Err ("failed to serialize arguments: " ++ e)%string, w)
    | Ok _ => exists arg, view arg = r /\
        transfer self to amount from_sub to_sub w =
          respond self c arg (fun u => map_err TransferError_debug (reply u)) x w
    end.
Proof.
  intros Ham Hx Hr Hc Hresp r. unfold transfer, DEFAULT_TRANSFER_FEE in *.
  destruct (Z.ltb_spec amount 10000); [by rewrite decide_True|]. rewrite decide_False by lia.
  rewrite u_sub_ok by plia. cbn [mbind outcome_bind].
  change (mk_transfer 0 _ _ _ _ _) with r.
  assert (Ledger.amount r = amount - 10000 /\ fee r = 10000) as [-> ->] by done.
  split; [lia|]. split; [lia|].
  destruct (encode_args r) as [bs|e] eqn:He.
  - destruct (remote_call self "transfer" r bs c view reply w x) as (arg & Hview & Hcall);
      [done..|]. exists arg. split; [done|]. rewrite <- He, Hcall.
    apply (respond_map self c arg (fun u => Ok (reply u)) (fun res =>
      match res with Err e => Err e.2 | Ok reply => map_err TransferError_debug reply end)).
  - done.
Qed.

(** The balance is asked for the account of the principal and the subaccount, the
    default one if none is given. *)
Theorem ledger_get_balance self p sub c view (reply : ret_ty c -> Z) w x bs :
  thread w = Some x -> Core.is_reply_callback_mode (core x) = false -> serves c view reply ->
  responders w !! (self, "account_balance"%string) = Some (VirtualResponder c) ->
  encode_args (mk_balance_args (account_of p sub)) = Ok bs ->
  exists arg, account (view arg) =
      AccountIdentifier_new p (match sub with Some s => s | None => DEFAULT_SUBACCOUNT end) /\
    get_balance self p sub w = respond self c arg (fun u => Ok (reply u)) x w.
Proof.
  intros Hx Hr Hc Hresp Hbs.
  destruct (remote_call self _ _ bs c view reply w x Hx Hr Hc Hresp Hbs) as (arg & Hview & Hcall).
  exists arg. split; [by rewrite Hview; destruct sub|]. unfold get_balance.
  unfold mbind, M_bind. rewrite Hcall. apply (respond_map self c arg (fun u => Ok (reply u)) (map_err snd)).
Qed.
End ledger.

(** ** The management canister's methods *)

Section management.
Context `{Bodies, !Management.Interface}.
Import Management.

(** The methods that take nothing but the canister. *)
Definition controls : list (string * (Principal -> M (CallResult unit))) :=
  [("uninstall_code", uninstall_code); ("start_canister", start); ("stop_canister", stop);
   ("delete_canister", delete); ("deposit_cycles", deposit_cycles)]%string.

(** Each of them runs its method of the management canister once, for the canister
    it was called on. *)
Theorem management_controls method (f : Principal -> M (CallResult unit)) self c view
    (reply : ret_ty c -> unit) w x bs :
  (method, f) ∈ controls -> thread w = Some x -> Core.is_reply_callback_mode (core x) = false ->
  serves c view reply ->
  responders w !! (management_canister, method) = Some (VirtualResponder c) ->
  encode_args (mk_id_arg self) = Ok bs ->
  exists arg, canister_id (view arg) = self /\
    f self w = respond management_canister c arg (fun u => Ok (reply u)) x w.
Proof.
  intros Hin Hx Hr Hc Hresp Hbs.
  destruct (remote_call management_canister method _ bs c view reply w x Hx Hr Hc Hresp Hbs)
    as (arg & Hview & Hcall). exists arg. split; [by rewrite Hview|]. rewrite <- Hcall.
  unfold controls in Hin. repeat (apply elem_of_cons in Hin as [[= -> ->]|Hin]; [done|]).
  by apply not_elem_of_nil in Hin.
Qed.

(** A canister that is created has the id that the management canister gave it; both
    methods send the settings, and the second one the amount too. *)
Theorem management_create settings cycles c view (reply : ret_ty c -> CanisterIDArg) w x bs :
  thread w = Some x -> Core.is_reply_callback_mode (core x) = false -> serves c view reply ->
  responders w !! (management_canister, "create_canister"%string) = Some (VirtualResponder c) ->
  encode_args (mk_create settings) = Ok bs ->
  exists arg, create_settings (view arg) = settings /\
    create settings cycles w =
      respond management_canister c arg (fun u => Ok (canister_id (reply u))) x w.
Proof.
  intros Hx Hr Hc Hresp Hbs.
  destruct (remote_call management_canister _ _ bs c view reply w x Hx Hr Hc Hresp Hbs)
    as (arg & Hview & Hcall). exists arg. split; [by rewrite Hview|].
  unfold create, call. unfold mbind, M_bind. rewrite Hcall.
  apply (respond_map management_canister c arg (fun u => Ok (reply u)) (result_map canister_id)).
Qed.

(** An argument that cannot be encoded is not an error: the code is installed with an
    empty argument. *)
Theorem install_code_argument {T} `{!ArgumentEncoder T} self m wasm (a : T) c view
    (reply : ret_ty c -> unit) w x :
  thread w = Some x -> Core.is_reply_callback_mode (core x) = false -> serves c view reply ->
  responders w !! (management_canister, "install_code"%string) = Some (VirtualResponder c) ->
  (forall i : InstallCodeInput, exists bs, encode_args i = Ok bs) ->
  exists arg,
    view arg = mk_install m self wasm (match encode_args a with Ok bs => bs | Err _ => [] end) /\
    install_code self m wasm a w =
      respond management_canister c arg (fun u => Ok (reply u)) x w.
Proof.
  intros Hx Hr Hc Hresp Henc. unfold install_code, call. set (i := mk_install _ _ _ _).
  destruct (Henc i) as [bs Hbs].
  exact (remote_call management_canister _ i bs c view reply w x Hx Hr Hc Hresp Hbs).
Qed.

(** [accept_cycles] moves all the cycles of the message into the balance and reports
    them; none are left for a second call.  The balance overflows as [u64]s do. *)
Theorem accept_cycles_takes_all w x b :
  thread w = Some x -> 0 <= Core.cycles (core x) < 2 ^ 64 ->
  u_add 64 (Core.balance (core x)) (Core.cycles (core x)) = Ret b ->
  0 <= Core.balance (core x) < 2 ^ 64 ->
  exists y, accept_cycles w = Ret (Core.cycles (core x), set_thread (Some y) w) /\
    Core.balance (core y) = b /\ Core.cycles (core y) = 0 /\
    exists z, accept_cycles (set_thread (Some y) w) = Ret (0, set_thread (Some z) w) /\
      Core.balance (core z) = b /\ Core.cycles (core z) = 0.
Proof.
  intros Hx Hc Hb Hbal.
  assert (forall v y, thread v = Some y -> Core.cycles (core y) = 0 ->
    exists z, accept_cycles v = Ret (0, set_thread (Some z) v) /\
      Core.balance (core z) = Core.balance (core y) /\ Core.cycles (core z) = 0) as Hnone.
  { intros v y Hy Hzero. unfold accept_cycles, mbind, M_bind, on_thread. rewrite Hy. cbn.
    rewrite Hzero, decide_True by done. by eexists. }
  assert (exists y, accept_cycles w = Ret (Core.cycles (core x), set_thread (Some y) w) /\
    Core.balance (core y) = b /\ Core.cycles (core y) = 0) as (y & Hy & Hby & Hcy).
  { destruct (decide (Core.cycles (core x) = 0)) as [Hzero|Hzero].
    - destruct (Hnone w x Hx Hzero) as (z & Hz & Hbz & Hcz). exists z. rewrite Hzero. split_and!; [done| |done].
      rewrite Hbz. rewrite Hzero, u_add_ok in Hb by lia. injection Hb. lia.
    - unfold accept_cycles, mbind, M_bind, on_thread. rewrite Hx. cbn.
      rewrite decide_False by done. cbn. unfold Core.msg_cycles_accept. cbn.
      rewrite Z.ltb_irrefl, u_sub_ok by plia. cbn. rewrite Hb. cbn. eexists. split; [done|].
      cbn. split; [done|lia]. }
  exists y. split_and!; [done..|]. destruct (Hnone (set_thread (Some y) w) y eq_refl Hcy) as (z & Hz & Hbz & Hcz).
  exists z. split_and!; [done|congruence|done].
Qed.
End management.

(** ** Concrete runs *)

#[local] Existing Instances x64_debug two_types test_env text_syn number_states.

Section ledger_runs.
(** A ledger whose principals and subaccounts are numbers. *)
Definition number_ledger : Ledger.Types := {|
  Ledger.Subaccount := Z;
  Ledger.DEFAULT_SUBACCOUNT := 0;
  Ledger.AccountIdentifier := list Z;
  Ledger.AccountIdentifier_new p s := s :: p;
  Ledger.TransferError := Z;
  Ledger.TransferError_debug _ := "InsufficientFunds"%string;
|}.
#[local] Existing Instance number_ledger.

(** What is sent by [Ledger.transfer], and nothing else, can be encoded. *)
Definition transfer_codec : ArgumentEncoder Ledger.TransferArgs := fun a =>
  match a with
  | Ledger.mk_transfer 0 amount fee None to None => Ok (0 :: amount :: fee :: to)
  | Ledger.mk_transfer 0 amount fee (Some s) to None => Ok (1 :: s :: amount :: fee :: to)
  | _ => Err "unsupported"%string
  end.

Definition number_interface : Ledger.Interface := {|
  Ledger.encode_balance_args a := Ok (Ledger.account a);
  Ledger.encode_transfer := transfer_codec;
  Ledger.decode_tokens bs := match bs with [x] => Ok x | _ => Err "tokens"%string end;
  Ledger.decode_transfer bs :=
    match bs with [0; x] => Ok (Ok x) | [_; x] => Ok (Err x) | _ => Err "result"%string end;
|}.
#[local] Existing Instance number_interface.

(** The closure of the ledger: it takes what is debited as the block. *)
Definition ledger_closures : Closures := {|
  RawClosure := unit;
  TypedClosure := unit;
  arg_ty _ := Ledger.TransferArgs;
  ret_ty _ := result Z Z;
  decode_args _ bs :=
    match bs with
    | 0 :: amount :: fee :: to => Ok (Ledger.mk_transfer 0 amount fee None to None)
    | 1 :: s :: amount :: fee :: to => Ok (Ledger.mk_transfer 0 amount fee (Some s) to None)
    | _ => Err "arguments"%string
    end;
  encode_ret _ r := Ok (match r with Ok x => [0; x] | Err x => [1; x] end);
|}.
#[local] Existing Instance ledger_closures.

Definition ledger_bodies : Bodies := {|
  run_raw _ bs w := Ret (Ok bs, w);
  run_typed _ a w :=
    Ret (if decide (Ledger.amount a + Ledger.fee a <= 1000000)
         then Ok (Ledger.amount a + Ledger.fee a) else Err 1, w);
  not_registered _ _ _ := "not registered"%string;
|}.
#[local] Existing Instance ledger_bodies.

Definition ledger_world : World :=
  mk_world (Some new) (fun _ => IcStorage.initial) []
    {[ ([6], "transfer"%string) := VirtualResponder (tt : TypedClosure) ]} 0 ∅ [].

Lemma ledger_serves : serves (A:=Ledger.TransferArgs) (tt : TypedClosure) id id.
Proof.
  split.
  - intros [[] amount fee [s|] to [|]] bs Hbs; try discriminate Hbs; injection Hbs as <-; by eexists.
  - intros [x|x]; by eexists.
Qed.

Lemma ledger_transfer_debits_witness :
  exists w', Ledger.transfer [6] [7] 30000 None (Some 3) ledger_world = Ret (Ok 30000, w').
Proof.
  pose proof (ledger_transfer_debits [6] [7] 30000 None (Some 3) (tt : TypedClosure) id id
    ledger_world new ltac:(by vm_compute) eq_refl eq_refl ledger_serves eq_refl) as H.
  cbn in H. destruct H as (_ & _ & arg & Hview & Ht). cbn in Hview. subst arg.
  eexists. etransitivity; [exact Ht|]. reflexivity.
Defined.

Example ledger_transfer_runs :
  (exists w', Ledger.transfer [6] [7] 2000000 (Some 1) None ledger_world =
     Ret (Err "InsufficientFunds"%string, w')) /\
  Ledger.transfer [6] [7] 9999 None None ledger_world =
    Ret (Err "cannot transfer tokens: amount '9999' is less then the fee '10000'"%string,
         ledger_world) /\
  (exists w', Ledger.transfer [5] [7] 20000 None None ledger_world =
     Ret (Err "not registered"%string, w')).
Proof. split_and!; try eexists; vm_compute; reflexivity. Qed.

Lemma accept_cycles_takes_all_witness :
  exists y, Management.accept_cycles
      (set_thread (Some (on_core_of (Core.update_msg_cycles 5) new)) ledger_world) =
    Ret (5, set_thread (Some y) ledger_world).
Proof.
  destruct (accept_cycles_takes_all
    (set_thread (Some (on_core_of (Core.update_msg_cycles 5) new)) ledger_world)
    (on_core_of (Core.update_msg_cycles 5) new) (Core.balance (core new) + 5)
    eq_refl ltac:(by vm_compute) ltac:(by vm_compute) ltac:(by vm_compute)) as (y & Hy & _).
  exists y. exact Hy.
Defined.
End ledger_runs.

Section management_runs.
Import Management.

(** Bytes for the requests that are sent here; lists come with their lengths. *)
Definition mode_code (m : InstallCodeMode) : Z :=
  match m with Install => 0 | Reinstall => 1 | Upgrade => 2 end.
Definition code_mode (z : Z) : InstallCodeMode :=
  if decide (z = 0) then Install else if decide (z = 1) then Reinstall else Upgrade.

Definition install_bytes (i : InstallCodeInput) : list Z :=
  mode_code (mode i) :: zlength (install_canister_id i) :: zlength (wasm_module i) ::
  install_canister_id i ++ wasm_module i ++ arg i.

Definition bytes_install (bs : list Z) : result InstallCodeInput string :=
  match bs with
  | m :: n :: k :: bs =>
      let rest := drop (Z.to_nat n) bs in
      Ok (mk_install (code_mode m) (take (Z.to_nat n) bs) (take (Z.to_nat k) rest)
            (drop (Z.to_nat k) rest))
  | _ => Err "arguments"%string
  end.

Definition byte_interface : Interface := {|
  management_canister := [];
  EcdsaPublicKeyResponse := list Z;
  public_key := id;
  SignWithEcdsaResponse := list Z;
  encode_unit_args _ := Ok [];
  encode_create c := match create_settings c with None => Ok [] | Some _ => Err "settings"%string end;
  encode_provisional_create _ := Err "settings"%string;
  encode_public_key a := Ok (concat (key_derivation_path a));
  encode_sign a := Ok (message_hash a);
  encode_update u := Ok (update_canister_id u);
  encode_install i := Ok (install_bytes i);
  encode_id_arg i := Ok (canister_id i);
  encode_top_up t := Ok (Z.of_N (top_up_amount t) :: top_up_canister_id t);
  decode_unit _ := Ok tt;
  decode_id_arg bs := Ok (mk_id_arg bs);
  decode_public_key bs := Ok bs;
  decode_sign bs := Ok bs;
  decode_status _ := Err "status"%string;
  decode_bytes bs := Ok bs;
|}.
#[local] Existing Instance byte_interface.

(** Responders to the requests with an id, and to [install_code]. *)
Definition management_closures : Closures := {|
  RawClosure := unit;
  TypedClosure := bool;
  arg_ty c := if c then CanisterIDArg else InstallCodeInput;
  ret_ty _ := unit;
  decode_args c bs :=
    match c with true => Ok (mk_id_arg bs) | false => bytes_install bs end;
  encode_ret _ _ := Ok [];
|}.
#[local] Existing Instance management_closures.

(** What they are asked is kept in the stable memory. *)
Definition management_bodies : Bodies := {|
  run_raw _ bs w := Ret (Ok bs, w);
  run_typed c := match c with
    | true => fun a w => Ret (tt, set_memory (canister_id a) w)
    | false => fun a w => Ret (tt, set_memory (mode_code (mode a) :: arg a) w)
    end;
  not_registered _ _ _ := "not registered"%string;
|}.
#[local] Existing Instance management_bodies.

Definition management_world : World :=
  mk_world (Some new) (fun _ => IcStorage.initial) []
    {[ ([] : Principal, "stop_canister"%string) := VirtualResponder (true : TypedClosure);
       ([] : Principal, "install_code"%string) := VirtualResponder (false : TypedClosure) ]} 0 ∅ [].

Lemma controls_serve : serves (A:=CanisterIDArg) (R:=unit) (true : TypedClosure) id id.
Proof.
  split.
  - intros [p] bs [= <-]. by eexists.
  - intros []. by eexists.
Qed.

Lemma install_serves : serves (A:=InstallCodeInput) (R:=unit) (false : TypedClosure) id id.
Proof.
  split.
  - intros [m p wasm a] bs [= <-]. eexists. split; [reflexivity|]. unfold zlength. cbn.
    rewrite !Nat2Z.id, take_app_length, drop_app_length, take_app_length, drop_app_length.
    by destruct m.
  - intros []. by eexists.
Qed.

Lemma management_controls_witness :
  exists w', stop [7] management_world = Ret (Ok tt, w') /\ stable_memory w' = [7].
Proof.
  destruct (management_controls "stop_canister" stop [7] (true : @TypedClosure management_closures) id id
    management_world new [7] ltac:(unfold controls; set_solver) eq_refl eq_refl controls_serve
    eq_refl eq_refl) as (a & Ha & Hs).
  eexists. split; [etransitivity; [exact Hs|reflexivity]|exact Ha].
Defined.

(** The argument cannot be encoded, and the code is installed. *)
Lemma install_code_argument_witness :
  let bad : ArgumentEncoder unit := fun _ => Err "too large"%string in
  exists w', @install_code _ _ _ _ _ _ _ _ unit bad [7] Upgrade [1; 2] tt management_world =
      Ret (Ok tt, w') /\ stable_memory w' = [2].
Proof.
  intros bad.
  destruct (@install_code_argument _ _ _ _ _ _ _ _ unit bad [7] Upgrade [1; 2] tt
    (false : @TypedClosure management_closures) id id management_world new eq_refl eq_refl install_serves eq_refl
    ltac:(by eexists)) as (a & Ha & Hs).
  cbn in Ha. subst a. eexists. split; [etransitivity; [exact Hs|reflexivity]|reflexivity].
Defined.

(** Keys of one byte. *)
Definition byte_curve : Curve := {|
  CurveKey := Z;
  from_sec1_bytes bs := match bs with [x] => Some x | _ => None end;
  to_public_key_der x := Some [48; x];
|}.

Example der_encode_runs :
  @der_encode_pub_key byte_curve (Pubkey.new [7]) = Ret [48; 7] /\
  @der_encode_pub_key byte_curve Pubkey.default = Panic.
Proof. split; reflexivity. Qed.
End management_runs.
